(* ===== verification/_CoqProject ===== *)
-Q . S2P
Prelude.v
Redb.v
Keys.v
Entry.v
Heads.v
Query.v
Bounds.v
Ranger.v
Converge.v
Info.v
Store.v
StoreInstance.v
Migrations.v
Texts.v
Filter.v
QueryIter.v
Replica.v
Reconcile.v
SyncState.v
Codec.v
Net.v
Actor.v
ActorInv.v
ActorSessions.v
Live.v
SyncHandle.v
AuthorsInv.v
Engine.v
EngineFacts.v
Api.v
ApiClient.v
LiveInv.v
LiveFacts.v
ApiFacts.v
Gossip.v
Protocol.v
Network.v
Swarm.v
