(* ===== verification/Prelude.v ===== *)
(** * A verification of the document store and its synchronisation

    The library models the crate [pdn-store] (a fork of iroh-docs): replicas
    of a namespace hold signed entries under (author, key), are stored in
    redb tables, reconciled between peers by ranged set reconciliation, and
    kept in sync by a live actor that dials, accepts, downloads and gossips.

    ** Parts, files and sources

    - [Prelude]: byte strings and their order, [N]-valued integers, the
      result type with panics ([Ok], [Err], [Panic]), the state monad [ST]
      with three proof styles - weakest preconditions ([wp], total: neither
      error nor panic), Hoare triples with an exceptional postcondition
      ([triple]), invariants ([preserves]) and relational runs ([st_rel]).
    - [Redb]: what the store uses of redb, as the class [Redb] of ordered
      tables and transactions with the laws [RedbOk]; an executable instance.
    - [Keys] (src/keys.rs, src/store/pubkeys.rs, capabilities of src/sync.rs):
      keys over an abstract signature scheme [Crypto], the public-key cache,
      capabilities and their merge.
    - [Entry] (src/sync.rs): record identifiers, records, entries, signatures,
      validation of empty entries, canonical bytes.
    - [Heads] (src/heads.rs): author heads, merge, news, size-limited report.
    - [Query] (src/store.rs, src/store/util.rs): queries, filters, download
      policies and their text form, the latest-per-key selector.
    - [Bounds] (src/store/fs/bounds.rs): byte-level scan bounds.
    - [Ranger] (src/ranger.rs): the reconciliation protocol over the interface
      [RangerStore] with its laws [RangerStoreOk]; the client's theorems are
      proved against the laws, [StoreInstance] and [Filter] discharge them.
    - [Converge] (src/ranger.rs): two parties that answer each other's
      messages over any such store: how many rounds it takes, what has been
      delivered at the end, and that the stores are then the join of both.
    - [Info] (src/sync.rs): replica info, subscribers, events; channels and
      observers are the [World] the operations act on.
    - [Store] (src/store/fs.rs, tables.rs): the store with its pending write
      transaction, authors, capabilities, peers, policies, replicas.
    - [StoreInstance] (src/store/fs.rs): one replica's view of the store as a
      [RangerStore], optionally reading from a session's snapshot.
    - [Migrations] (src/store/fs/migrations.rs, migrate_redb_v2_tuples.rs,
      opening in src/store/fs.rs): the table migrations, each in its
      transaction, the conversion of the old file format with the states a
      crash can leave, and opening a store.
    - [Texts] (src/keys.rs, src/ticket.rs): printing and parsing of keys, ids
      and tickets, over the codecs [Hex] and [TicketText].
    - [Filter] (src/filter.rs): the filtered session store, again a
      [RangerStore], and what it hides.
    - [QueryIter] (src/store/fs/query.rs, ranges.rs): the query iterator.
    - [Replica] (src/sync.rs): insertion, deletion, validation, the two halves
      of reconciliation on a replica.
    - [Reconcile] (src/sync.rs, src/ranger.rs): a whole session between two
      replicas, as an instance of [Converge].
    - [SyncState] (src/engine/state.rs): one slot per syncing namespace and
      peer, idle or running.
    - [Codec] (src/net/codec.rs): the framing of messages.
    - [Net] (src/net.rs, src/net/codec.rs): both ends of an exchange as
      programs over a scripted stream, asking the service [SyncService].
    - [Actor], [ActorInv], [ActorSessions] (src/actor.rs): the actor that owns
      store, open replicas and session snapshots; its invariant; the life of
      handles and sessions; the actor as the service of [Net].
    - [Live] (src/engine/live.rs, src/engine/gossip.rs): the live actor over
      the interface [SyncOps] of the sync actor; running tasks are fields of
      its state, what leaves the process is a log, [Env] is what it reads of
      the outside.
    - [SyncHandle] (src/actor.rs): the methods of the handle as actions with
      their replies; the actor as the [SyncOps] of [Live].
    - [AuthorsInv]: which operations leave the table of authors alone.
    - [Engine], [EngineFacts] (src/engine.rs): the default author and its
      file, the requests to the two actors, events, the protection of content
      from garbage collection.
    - [Api] (src/api/protocol.rs, src/api/actor.rs): the requests and their
      handlers on the engine; [ApiClient] (src/api.rs): the client, document
      handles with the closed flag they share, the import of files as a
      state machine that is polled; [ApiFacts]: their theorems.
    - [LiveInv], [LiveFacts]: the live actor's invariant; access, release of
      pairs, downloads, leaving, gossip.
    - [Gossip] (src/engine/gossip.rs): the topics with their senders and the
      tasks of their receive loops, which implement the set of topics of [Live].
    - [Protocol] (src/protocol.rs, shutdown of src/engine.rs): the builder and
      the handler, what is in its directory, starting and shutting down.
    - [Network] (src/sync.rs, src/actor.rs, src/net/codec.rs): any number of
      nodes with a replica of the same document; a step is an insertion, a
      deletion, the insertion of a received entry, the opening of a side of a
      session, one message, or the loss of a session.  On every run sessions
      end.  [Swarm]: what the sessions of such a run deliver, and that the
      replicas converge.

    ** What the theorems show

    Data: the byte orders agree with the field orders, canonical bytes
    determine entries, frames and reports read back, scans cover exactly what
    they should and a described overreach.  Store: write batching is
    transparent, imports never lose a capability, the insertion of the tables
    refines the ranger's, reads serve one replica only, queries terminate with
    their specified result.  Reconciliation: answers cover the range without
    gap or overlap and shrink, only admitted values are stored, no message
    makes a step panic; a session ends after boundedly many messages, has then
    delivered what the other side lacked, and leaves both replicas with the
    same records.  Networks: whatever is interleaved with it, a session ends;
    where nothing is deleted and the fingerprints of the session tell its two
    sides apart, it has passed on all that the other side had when it was
    opened; once nothing is written and every replica has heard of every
    other through such sessions without filters, all have the same document.
    Starting: migrations fill in what is missing and can be interrupted
    anywhere, a database of the old format is converted without loss; the
    default author is committed before its id is written and a running engine
    always has it; its file names it unless a write of the file was cut short,
    and then the next start fails; otherwise a handler that is shut down and
    started again finds it and every table.  API: setting a key answers what is stored,
    tickets give what was asked for, closed handles refuse, imports end.
    Privacy: filtered sessions send admitted entries
    only and two stores that differ in refused entries are answered alike;
    denied peers get nothing; topics carry no content and cannot write.
    Concurrency: every turn of the two actors is one step over their state,
    runs are arbitrary sequences of turns; the invariants hold on all runs,
    session views are frozen, sessions and pairs are released on every path,
    each joined topic has one receive loop, but for loops that panic and loops
    that return after they were told to stop.

    ** Fuel and bounds

    [process_message] and the exchange loops recurse on the message or on the
    list of reads, without fuel.  The query iterator's loop runs with the
    size of its range as fuel, and [query_iterator_correct] proves that this
    is enough; draining takes any number of calls above the length of the
    result.  The rounds of a session run with fuel, and
    [sync_session_delivers] gives the number that is enough.  Awaiting the
    import of a file polls at most once more than its stream has items.
    Reading frames runs with the length of the buffer, enough by
    [codec_roundtrip].  Counters of handles and sessions are [u64] with
    wrap-around; timestamps, lengths and times are [N] below 2^64, where the
    code compares or adds them with the checks it makes.

    ** Parameters

    The signature scheme and hash ([Crypto], [CryptoOk]), redb ([Redb],
    [RedbOk]), the postcard format ([Postcard], [PostcardOk]), hex ([Hex],
    [HexOk]), the base32 text of tickets ([TicketText], [TicketTextOk]) and
    the kinds of transport addresses ([Transport]) are classes whose laws
    state their documented behaviour; each has an executable instance that the
    witnesses use.  What the blob store answers is an argument.

    ** Not modelled

    QUIC connections, the gossip swarm, the blob store and the downloader
    themselves (their answers are inputs), metrics, tracing and the text of
    errors, address books, the random generator (the bytes it yields are
    inputs), irpc (a request is a call of its handler; its listening and
    connecting are left out), and the counters of src/metrics.rs.  Channels
    may be closed but are never full; what the buffer of a framed stream holds
    after a failed flush, which ends its exchange, and panics of the tasks that
    the live actor joins are left out.
    src/store/fs/migrate_v1_v2.rs is declared by no module and is not part of
    the program.  The convergence theorems leave out deletion markers,
    empty keys and keys that end in a byte 255: a marker does not supersede
    what it covers when that arrives later, and the scans of the others reach
    too far or stop short, so replicas that have them need not converge. *)
From stdpp Require Export base tactics list vector gmap sorting.
From Stdlib Require Export Strings.Byte NArith ZArith Lia.

#[export] Set Default Goal Selector "!".

(** ** Outcomes of fallible code

    [Ok] and [Err] are the two constructors of the source's [Result];
    [Panic] is what [unwrap], [expect], [unreachable!], an index out of
    range, [debug_assert!] and checked arithmetic do. *)
Inductive result (E A : Type) : Type :=
| Ok (a : A)
| Err (e : E)
| Panic.
Arguments Ok {E A} _.
Arguments Err {E A} _.
Arguments Panic {E A}.

#[export] Instance result_ret (E : Type) : MRet (result E) := λ A a, Ok a.
#[export] Instance result_bind (E : Type) : MBind (result E) := λ A B f m,
  match m with Ok a => f a | Err e => Err e | Panic => Panic end.
#[export] Instance result_fmap (E : Type) : FMap (result E) := λ A B f m,
  match m with Ok a => Ok (f a) | Err e => Err e | Panic => Panic end.
#[export] Instance result_eq_dec (E A : Type) `{EqDecision E, EqDecision A} :
  EqDecision (result E A).
Proof. solve_decision. Defined.

Definition result_of_option {E A} (e : E) (o : option A) : result E A :=
  match o with Some a => Ok a | None => Err e end.

Definition is_ok {E A} (r : result E A) : bool :=
  match r with Ok _ => true | _ => false end.

Definition map_err {E E' A} (f : E → E') (r : result E A) : result E' A :=
  match r with Ok a => Ok a | Err e => Err (f e) | Panic => Panic end.

(** ** Stateful fallible code: the state survives an error *)
Definition ST (S E A : Type) : Type := S → result E A * S.

#[export] Instance ST_ret (S E : Type) : MRet (ST S E) := λ A a s, (Ok a, s).
#[export] Instance ST_bind (S E : Type) : MBind (ST S E) := λ A B f m s,
  match m s with
  | (Ok a, s') => f a s'
  | (Err e, s') => (Err e, s')
  | (Panic, s') => (Panic, s')
  end.

Definition st_get {S E} : ST S E S := λ s, (Ok s, s).
Definition st_put {S E} (s' : S) : ST S E unit := λ _, (Ok tt, s').
Definition st_gets {S E A} (f : S → A) : ST S E A := λ s, (Ok (f s), s).
Definition st_modify {S E} (f : S → S) : ST S E unit := λ s, (Ok tt, f s).
Definition st_err {S E A} (e : E) : ST S E A := λ s, (Err e, s).
Definition st_panic {S E A} : ST S E A := λ s, (Panic, s).
Definition st_lift {S E A} (r : result E A) : ST S E A := λ s, (r, s).
Definition st_ensure {S E} (b : bool) (e : E) : ST S E unit :=
  if b then mret tt else st_err e.

(** Run a computation on one field of a larger state. *)
Definition st_zoom {S T E A} (get : T → S) (set : S → T → T) (m : ST S E A) : ST T E A :=
  λ t, let '(r, s') := m (get t) in (r, set s' t).

(** Sequential loops over a list, as the source's [for] loops. *)
Fixpoint st_for {S E A} (l : list A) (f : A → ST S E unit) : ST S E unit :=
  match l with
  | [] => mret tt
  | x :: l' => f x ≫= λ _, st_for l' f
  end.

Fixpoint st_fold {S E A B} (f : B → A → ST S E B) (b : B) (l : list A) : ST S E B :=
  match l with
  | [] => mret b
  | x :: l' => f b x ≫= λ b', st_fold f b' l'
  end.

(** Total correctness of a computation: from [s] it returns, with a result
    and a state that satisfy [Q]. *)
Definition wp {S E A} (m : ST S E A) (s : S) (Q : A → S → Prop) : Prop :=
  ∃ a s', m s = (Ok a, s') ∧ Q a s'.

Section wp_facts.
Context {S E : Type}.

Lemma wp_ret {A} (a : A) (s : S) Q : Q a s → wp (E:=E) (mret a) s Q.
Proof. intros HQ. by exists a, s. Qed.

Lemma wp_gets {A} (f : S → A) (s : S) Q : Q (f s) s → wp (E:=E) (st_gets f) s Q.
Proof. intros HQ. by exists (f s), s. Qed.

Lemma wp_modify (f : S → S) (s : S) Q : Q tt (f s) → wp (E:=E) (st_modify f) s Q.
Proof. intros HQ. by exists tt, (f s). Qed.

Lemma wp_bind {A B} (m : ST S E A) (f : A → ST S E B) (s : S) Q :
  wp m s (λ a s', wp (f a) s' Q) → wp (m ≫= f) s Q.
Proof.
  intros (a & s' & Hm & b & s'' & Hf & HQ). exists b, s''.
  split; [|done]. unfold mbind, ST_bind. by rewrite Hm.
Qed.

Lemma wp_mono {A} (m : ST S E A) (s : S) (P Q : A → S → Prop) :
  wp m s P → (∀ a s', P a s' → Q a s') → wp m s Q.
Proof. intros (a & s' & Hm & HP) HPQ. exists a, s'. auto. Qed.

Lemma wp_and {A} (m : ST S E A) (s : S) (P Q : A → S → Prop) :
  wp m s P → wp m s Q → wp m s (λ a s', P a s' ∧ Q a s').
Proof.
  intros (a & s' & Hm & HP) (b & s'' & Hm' & HQ). rewrite Hm in Hm'.
  injection Hm' as <- <-. by exists a, s'.
Qed.

Lemma wp_zoom {T A} (get : T → S) (set : S → T → T) (m : ST S E A) (t : T) Q :
  wp m (get t) (λ a s', Q a (set s' t)) → wp (st_zoom get set m) t Q.
Proof.
  intros (a & s' & Hm & HQ). exists a, (set s' t). split; [|done].
  unfold st_zoom. by rewrite Hm.
Qed.

(** Loops, with an invariant on the part of the list already treated. *)
Lemma wp_fold {A B} (f : B → A → ST S E B) (I : list A → B → S → Prop) (l : list A) b s :
  (∀ l1 x l2 b s, l = l1 ++ x :: l2 → I l1 b s → wp (f b x) s (I (l1 ++ [x]))) →
  I [] b s → wp (st_fold f b l) s (I l).
Proof.
  intros Hstep Hinit.
  cut (∀ done todo b s, l = done ++ todo → I done b s → wp (st_fold f b todo) s (I l)).
  { intros Hcut. by apply (Hcut []). }
  intros done_ todo. revert done_. induction todo as [|x todo IH]; intros done_ b' s' Heq HI.
  - rewrite app_nil_r in Heq. subst done_. by apply wp_ret.
  - simpl. apply wp_bind. eapply wp_mono; [by eapply Hstep|].
    intros b'' s'' HI'. apply (IH (done_ ++ [x])); [|done]. by rewrite <- app_assoc.
Qed.

Lemma wp_for {A} (f : A → ST S E unit) (I : list A → S → Prop) (l : list A) s :
  (∀ l1 x l2 s, l = l1 ++ x :: l2 → I l1 s → wp (f x) s (λ _, I (l1 ++ [x]))) →
  I [] s → wp (st_for l f) s (λ _, I l).
Proof.
  intros Hstep Hinit.
  cut (∀ done todo s, l = done ++ todo → I done s → wp (st_for todo f) s (λ _, I l)).
  { intros Hcut. by apply (Hcut []). }
  intros done_ todo. revert done_. induction todo as [|x todo IH]; intros done_ s' Heq HI.
  - rewrite app_nil_r in Heq. subst done_. by apply wp_ret.
  - simpl. apply wp_bind. eapply wp_mono; [by eapply Hstep|].
    intros [] s'' HI'. apply (IH (done_ ++ [x])); [|done]. by rewrite <- app_assoc.
Qed.
End wp_facts.

(** One step of a computation whose head is a bind. *)
Ltac wp_step :=
  first [ apply wp_bind | apply wp_ret | apply wp_gets | apply wp_modify | apply wp_zoom ].

Lemma st_modify_bind {S E A} (f : S → S) (g : unit → ST S E A) (s : S) :
  (st_modify f ≫= g) s = g tt (f s).
Proof. done. Qed.

Lemma st_gets_bind {S E A B} (f : S → A) (g : A → ST S E B) (s : S) :
  (st_gets f ≫= g) s = g (f s) s.
Proof. done. Qed.

Lemma st_get_bind {S E A} (g : S → ST S E A) (s : S) : (st_get ≫= g) s = g s s.
Proof. done. Qed.

Lemma st_lift_bind {S E A B} (r : result E A) (g : A → ST S E B) (s : S) :
  (st_lift r ≫= g) s = match r with Ok a => g a s | Err e => (Err e, s) | Panic => (Panic, s) end.
Proof. by destruct r. Qed.

Lemma st_bind_run {S E A B} (m : ST S E A) (g : A → ST S E B) (s s' : S) r :
  m s = (r, s') →
  (m ≫= g) s = match r with Ok a => g a s' | Err e => (Err e, s') | Panic => (Panic, s') end.
Proof. intros Hm. unfold mbind, ST_bind. by rewrite Hm. Qed.

(** ** Hoare triples with an exceptional postcondition

    From a state of [P] the computation does not panic; its result and state
    satisfy [Q], or its error and state satisfy [X]. *)
Definition triple {S E A} (P : S → Prop) (m : ST S E A) (Q : A → S → Prop) (X : E → S → Prop) : Prop :=
  ∀ s, P s → match m s with
             | (Ok a, s') => Q a s'
             | (Err e, s') => X e s'
             | (Panic, _) => False
             end.

Section triple_facts.
Context {S E : Type}.
Implicit Types (P : S → Prop) (X : E → S → Prop).

Lemma tr_ret {A} P (a : A) (Q : A → S → Prop) X : (∀ s, P s → Q a s) → triple P (mret a) Q X.
Proof. intros HQ s HP. by apply HQ. Qed.

Lemma tr_err {A} P (e : E) (Q : A → S → Prop) X : (∀ s, P s → X e s) → triple P (st_err e) Q X.
Proof. intros HX s HP. by apply HX. Qed.

Lemma tr_modify P (f : S → S) (Q : unit → S → Prop) X :
  (∀ s, P s → Q tt (f s)) → triple P (st_modify f) Q X.
Proof. intros HQ s HP. by apply HQ. Qed.

Lemma tr_gets {A} P (f : S → A) (Q : A → S → Prop) X :
  (∀ s, P s → Q (f s) s) → triple P (st_gets f) Q X.
Proof. intros HQ s HP. by apply HQ. Qed.

Lemma tr_lift {A} P (r : result E A) (Q : A → S → Prop) X :
  (∀ s, P s → match r with Ok a => Q a s | Err e => X e s | Panic => False end) →
  triple P (st_lift r) Q X.
Proof. intros HQ s HP. specialize (HQ s HP). by destruct r. Qed.

Lemma tr_bind {A B} P (m : ST S E A) (f : A → ST S E B) (R : A → S → Prop) (Q : B → S → Prop) X :
  triple P m R X → (∀ a, triple (R a) (f a) Q X) → triple P (m ≫= f) Q X.
Proof.
  intros Hm Hf s HP. specialize (Hm s HP). unfold mbind, ST_bind.
  destruct (m s) as [[a|e|] s']; [by apply Hf|done|done].
Qed.

(** Read the state and go on knowing what was read. *)
Lemma tr_gets_bind {A B} P (f : S → A) (g : A → ST S E B) (Q : B → S → Prop) X :
  (∀ a, triple (λ s, P s ∧ f s = a) (g a) Q X) → triple P (st_gets f ≫= g) Q X.
Proof. intros Hg s HP. by apply (Hg (f s)). Qed.

Lemma tr_get_bind {B} P (g : S → ST S E B) (Q : B → S → Prop) X :
  (∀ a, triple (λ s, P s ∧ s = a) (g a) Q X) → triple P (st_get ≫= g) Q X.
Proof. intros Hg s HP. by apply (Hg s). Qed.

Lemma tr_conseq {A} P P' (m : ST S E A) (Q Q' : A → S → Prop) X X' :
  triple P' m Q' X' → (∀ s, P s → P' s) → (∀ a s, Q' a s → Q a s) → (∀ e s, X' e s → X e s) →
  triple P m Q X.
Proof.
  intros Hm HP HQ HX s Hs. specialize (Hm s (HP s Hs)).
  destruct (m s) as [[a|e|] s']; auto.
Qed.

Lemma tr_pure {A} P (φ : Prop) (m : ST S E A) (Q : A → S → Prop) X :
  (φ → triple P m Q X) → triple (λ s, P s ∧ φ) m Q X.
Proof. intros Hm s [HP Hφ]. by apply Hm. Qed.
End triple_facts.

(** ** What every outcome leaves true

    [preserves P m]: from a state of [P] the computation ends in a state of
    [P], whether it returns, fails or panics. *)
Definition preserves {S E A} (P : S → Prop) (m : ST S E A) : Prop := ∀ s, P s → P (m s).2.

Section preserves_facts.
Context {S E : Type}.
Implicit Types P : S → Prop.

Lemma pr_ret {A} P (a : A) : preserves (E:=E) P (mret a).
Proof. by intros s. Qed.
Lemma pr_err {A} P (e : E) : preserves (A:=A) P (st_err e).
Proof. by intros s. Qed.
Lemma pr_panic {A} P : preserves (E:=E) (A:=A) P st_panic.
Proof. by intros s. Qed.
Lemma pr_get P : preserves (E:=E) P st_get.
Proof. by intros s. Qed.
Lemma pr_gets {A} P (f : S → A) : preserves (E:=E) P (st_gets f).
Proof. by intros s. Qed.
Lemma pr_lift {A} P (r : result E A) : preserves P (st_lift r).
Proof. by intros s. Qed.
Lemma pr_ensure P b (e : E) : preserves P (st_ensure b e).
Proof. intros s HP. by destruct b. Qed.
Lemma pr_modify P (f : S → S) : (∀ s, P s → P (f s)) → preserves (E:=E) P (st_modify f).
Proof. intros Hf s. apply Hf. Qed.

Lemma pr_bind {A B} P (m : ST S E A) (f : A → ST S E B) :
  preserves P m → (∀ a, preserves P (f a)) → preserves P (m ≫= f).
Proof.
  intros Hm Hf s HP. specialize (Hm s HP). unfold mbind, ST_bind.
  destruct (m s) as [[a|e|] s']; [by apply Hf|done|done].
Qed.

(** Knowing what was read. *)
Lemma pr_get_bind {B} P (f : S → ST S E B) :
  (∀ s, P s → P (f s s).2) → preserves P (st_get ≫= f).
Proof. intros Hf s HP. by apply Hf. Qed.

Lemma pr_fold {A B} P (f : B → A → ST S E B) (l : list A) :
  (∀ b x, preserves P (f b x)) → ∀ b, preserves P (st_fold f b l).
Proof. intros Hf. induction l as [|x l IH]; intros b; [apply pr_ret|]. by apply pr_bind. Qed.

Lemma pr_for {A} P (f : A → ST S E unit) (l : list A) :
  (∀ x, preserves P (f x)) → preserves P (st_for l f).
Proof. intros Hf. induction l as [|x l IH]; [apply pr_ret|]. by apply pr_bind. Qed.

Lemma pr_zoom {T A} (P : T → Prop) (Q : S → Prop) (get : T → S) (set : S → T → T) (m : ST S E A) :
  (∀ t, P t → Q (get t)) → (∀ t s, P t → Q s → P (set s t)) →
  preserves Q m → preserves P (st_zoom get set m).
Proof.
  intros Hget Hset Hm t Ht. unfold st_zoom. specialize (Hm (get t) (Hget t Ht)).
  destruct (m (get t)) as [r s']. by apply Hset.
Qed.

Lemma wp_preserves {A} P (m : ST S E A) (s : S) Q :
  wp m s Q → preserves P m → P s → wp m s (λ a s', Q a s' ∧ P s').
Proof.
  intros (a & s' & Hm & HQ) Hp HP. exists a, s'. split; [done|]. split; [done|].
  specialize (Hp s HP). by rewrite Hm in Hp.
Qed.
End preserves_facts.

(** Go through the plumbing of a computation; what is left are its
    primitive steps. *)
Ltac preserves_step :=
  match goal with
  | |- preserves _ (mret _) => apply pr_ret
  | |- preserves _ (st_err _) => apply pr_err
  | |- preserves _ st_panic => apply pr_panic
  | |- preserves _ st_get => apply pr_get
  | |- preserves _ (st_gets _) => apply pr_gets
  | |- preserves _ (st_lift _) => apply pr_lift
  | |- preserves _ (st_ensure _ _) => apply pr_ensure
  | |- preserves _ (_ ≫= _) => apply pr_bind; [|intros ?]
  | |- preserves _ (st_fold _ _ _) => apply pr_fold; intros ??
  | |- preserves _ (st_for _ _) => apply pr_for; intros ?
  | |- preserves _ (match ?x with _ => _ end) => destruct x
  end.
Ltac preserves_auto := repeat (preserves_step || assumption).

(** ** Two runs side by side

    From states related by [L] the two computations both return, with
    results related by [Q] and states related by [L], or both fail with the
    same error, or both panic. *)
Definition st_rel {S E A} (L : S → S → Prop) (Q : A → A → Prop) (m1 m2 : ST S E A) : Prop :=
  ∀ s1 s2, L s1 s2 →
    match m1 s1, m2 s2 with
    | (Ok a1, t1), (Ok a2, t2) => Q a1 a2 ∧ L t1 t2
    | (Err e1, t1), (Err e2, t2) => e1 = e2 ∧ L t1 t2
    | (Panic, _), (Panic, _) => True
    | _, _ => False
    end.

Section rel_facts.
Context {S E : Type} (L : S → S → Prop).

Lemma rel_ret {A} (Q : A → A → Prop) (a1 a2 : A) : Q a1 a2 → st_rel (E:=E) L Q (mret a1) (mret a2).
Proof. by intros HQ s1 s2 HL. Qed.

Lemma rel_bind {A B} (Q : A → A → Prop) (Q' : B → B → Prop) (m1 m2 : ST S E A) f1 f2 :
  st_rel L Q m1 m2 → (∀ a1 a2, Q a1 a2 → st_rel L Q' (f1 a1) (f2 a2)) →
  st_rel L Q' (m1 ≫= f1) (m2 ≫= f2).
Proof.
  intros Hm Hf s1 s2 HL. specialize (Hm s1 s2 HL). unfold mbind, ST_bind.
  destruct (m1 s1) as [[a1|e1|] t1], (m2 s2) as [[a2|e2|] t2]; try done.
  destruct Hm as [HQ HL']. by apply Hf.
Qed.

Lemma rel_mono {A} (Q Q' : A → A → Prop) (m1 m2 : ST S E A) :
  st_rel L Q m1 m2 → (∀ a1 a2, Q a1 a2 → Q' a1 a2) → st_rel L Q' m1 m2.
Proof.
  intros Hm HQ s1 s2 HL. specialize (Hm s1 s2 HL).
  destruct (m1 s1) as [[a1|e1|] t1], (m2 s2) as [[a2|e2|] t2]; try done.
  destruct Hm as [??]. auto.
Qed.

Lemma rel_fold {A B} (Q : B → B → Prop) (f : B → A → ST S E B) (l : list A) :
  (∀ x b1 b2, x ∈ l → Q b1 b2 → st_rel L Q (f b1 x) (f b2 x)) →
  ∀ b1 b2, Q b1 b2 → st_rel L Q (st_fold f b1 l) (st_fold f b2 l).
Proof.
  induction l as [|x l IH]; intros Hf b1 b2 HQ; simpl; [by apply rel_ret|].
  eapply rel_bind; [apply Hf; [by left|done]|]. intros c1 c2 Hc.
  apply IH; [|done]. intros y d1 d2 Hy. apply Hf. by right.
Qed.

Lemma rel_zoom {T A} (get : T → S) (set : S → T → T) (L' : T → T → Prop) (Q : A → A → Prop)
    (m1 m2 : ST S E A) :
  (∀ t1 t2, L' t1 t2 → L (get t1) (get t2)) →
  (∀ t1 t2 s1 s2, L' t1 t2 → L s1 s2 → L' (set s1 t1) (set s2 t2)) →
  st_rel L Q m1 m2 → st_rel L' Q (st_zoom get set m1) (st_zoom get set m2).
Proof.
  intros Hget Hset Hm t1 t2 HL. specialize (Hm _ _ (Hget _ _ HL)). unfold st_zoom.
  destruct (m1 (get t1)) as [[a1|e1|] s1], (m2 (get t2)) as [[a2|e2|] s2]; naive_solver.
Qed.
End rel_facts.

(** Run the monad's plumbing. *)
Tactic Notation "st_red" :=
  cbv beta iota zeta delta [mbind ST_bind mret ST_ret st_gets st_modify st_get st_put st_lift
    st_err st_panic st_ensure];
  repeat match goal with
  | |- context [fst (?a, ?b)] => change (fst (a, b)) with a
  | |- context [snd (?a, ?b)] => change (snd (a, b)) with b
  end.
Tactic Notation "st_red" "in" hyp(H) :=
  cbv beta iota zeta delta [mbind ST_bind mret ST_ret st_gets st_modify st_get st_put st_lift
    st_err st_panic st_ensure] in H;
  repeat match type of H with
  | context [fst (?a, ?b)] => change (fst (a, b)) with a in H
  | context [snd (?a, ?b)] => change (snd (a, b)) with b in H
  end.

(** ** Three-way comparison, the source's [Ord] *)
Class Cmp (A : Type) := cmp : A → A → comparison.
#[export] Hint Mode Cmp ! : typeclass_instances.

Class CmpOk (A : Type) `{Cmp A} : Prop := {
  cmp_eq : ∀ x y : A, cmp x y = Eq ↔ x = y;
  cmp_antisym : ∀ x y : A, cmp y x = CompOpp (cmp x y);
  cmp_trans : ∀ x y z : A, cmp x y = Lt → cmp y z = Lt → cmp x z = Lt;
}.
#[export] Hint Mode CmpOk ! - : typeclass_instances.

Definition ltb {A} `{Cmp A} (x y : A) : bool :=
  match cmp x y with Lt => true | _ => false end.
Definition leb {A} `{Cmp A} (x y : A) : bool :=
  match cmp x y with Gt => false | _ => true end.
Definition geb {A} `{Cmp A} (x y : A) : bool :=
  match cmp x y with Lt => false | _ => true end.
Definition eqb {A} `{Cmp A} (x y : A) : bool :=
  match cmp x y with Eq => true | _ => false end.
(** [Ordering::then_with]. *)
Definition cmp_then (c d : comparison) : comparison :=
  match c with Eq => d | _ => c end.

Section cmp_facts.
Context {A : Type} `{CmpOk A}.

Lemma cmp_refl (x : A) : cmp x x = Eq.
Proof. by apply cmp_eq. Qed.

Lemma cmp_gt (x y : A) : cmp x y = Gt ↔ cmp y x = Lt.
Proof. rewrite (cmp_antisym x y). destruct (cmp x y); done. Qed.

Lemma ltb_lt (x y : A) : ltb x y = true ↔ cmp x y = Lt.
Proof. unfold ltb. destruct (cmp x y); naive_solver. Qed.

Lemma geb_negb_ltb (x y : A) : geb x y = negb (ltb x y).
Proof. unfold geb, ltb. by destruct (cmp x y). Qed.

Lemma leb_negb_ltb (x y : A) : leb x y = negb (ltb y x).
Proof. unfold leb, ltb. rewrite (cmp_antisym x y). by destruct (cmp x y). Qed.

Lemma geb_leb (x y : A) : geb x y = leb y x.
Proof. by rewrite geb_negb_ltb, leb_negb_ltb. Qed.

Lemma eqb_eq (x y : A) : eqb x y = true ↔ x = y.
Proof. unfold eqb. rewrite <- cmp_eq. destruct (cmp x y); naive_solver. Qed.

Lemma eqb_sym (x y : A) : eqb x y = eqb y x.
Proof. unfold eqb. rewrite (cmp_antisym y x). by destruct (cmp y x). Qed.

Lemma eqb_refl (x : A) : eqb x x = true.
Proof. by apply eqb_eq. Qed.

Lemma ltb_irrefl (x : A) : ltb x x = false.
Proof. unfold ltb. by rewrite cmp_refl. Qed.

Lemma leb_refl (x : A) : leb x x = true.
Proof. unfold leb. by rewrite cmp_refl. Qed.

Lemma ltb_trans (x y z : A) : ltb x y = true → ltb y z = true → ltb x z = true.
Proof. rewrite !ltb_lt. apply cmp_trans. Qed.

Lemma ltb_asym (x y : A) : ltb x y = true → ltb y x = false.
Proof.
  rewrite ltb_lt. unfold ltb. intros Hxy. rewrite (cmp_antisym x y), Hxy. done.
Qed.

Lemma ltb_total (x y : A) : ltb x y = false → ltb y x = false → x = y.
Proof.
  unfold ltb. rewrite (cmp_antisym x y), <- cmp_eq. by destruct (cmp x y).
Qed.

#[global] Instance ltb_strict : StrictOrder (λ x y : A, ltb x y = true).
Proof.
  split.
  - intros x Hlt. by rewrite ltb_irrefl in Hlt.
  - intros x y z. apply ltb_trans.
Qed.

#[global] Instance gtb_strict : StrictOrder (λ x y : A, ltb y x = true).
Proof.
  split.
  - intros x Hlt. by rewrite ltb_irrefl in Hlt.
  - intros x y z Hxy Hyz. by apply (ltb_trans z y x).
Qed.

Definition cmp_eq_dec : EqDecision A.
Proof.
  intros x y. destruct (cmp x y) eqn:Hc.
  - left. by apply cmp_eq.
  - right. intros Heq. apply cmp_eq in Heq. congruence.
  - right. intros Heq. apply cmp_eq in Heq. congruence.
Defined.
End cmp_facts.

(** [ord] decides goals over [ltb] and equality in a total order by
    saturating transitivity; [ord_split] first cuts every comparison in
    the context into its boolean. *)
Ltac ord_norm :=
  repeat match goal with
  | H : context [geb _ _] |- _ => rewrite geb_negb_ltb in H
  | H : context [leb _ _] |- _ => rewrite leb_negb_ltb in H
  | |- context [geb _ _] => rewrite geb_negb_ltb
  | |- context [leb _ _] => rewrite leb_negb_ltb
  end.

Ltac ord_saturate :=
  repeat match goal with
  | H : ltb ?x ?y = true, H' : ltb ?y ?z = true |- _ =>
      lazymatch goal with
      | _ : ltb x z = true |- _ => fail
      | _ => pose proof (ltb_trans x y z H H')
      end
  | H : ltb ?x ?y = false, H' : ltb ?y ?x = false |- _ =>
      first [ constr_eq x y; fail 1 | pose proof (ltb_total x y H H'); subst; clear H' ]
  | H : ltb ?x ?x = true |- _ => rewrite ltb_irrefl in H; discriminate
  end.

Ltac ord_cut x y :=
  lazymatch goal with
  | _ : ltb x y = _ |- _ => fail
  | _ => destruct (ltb x y) eqn:?
  end.

Lemma ltb_tri {A} `{CmpOk A} (x y : A) :
  (ltb x y = true ∧ ltb y x = false) ∨ x = y ∨ (ltb x y = false ∧ ltb y x = true).
Proof.
  destruct (ltb x y) eqn:Hxy.
  - left. split; [done|]. by apply ltb_asym.
  - destruct (ltb y x) eqn:Hyx; [tauto|]. right. left. by apply ltb_total.
Qed.

(** Split on the order of two points; contradictory cases are closed. *)
Ltac ord_tri x y :=
  let H1 := fresh in let H2 := fresh in
  destruct (ltb_tri x y) as [[H1 H2]|[H1|[H1 H2]]]; [|subst|];
  try (exfalso; ord_saturate; congruence).

(** ** Instances: naturals, bytes, lists, pairs, vectors *)
#[export] Instance N_cmp : Cmp N := N.compare.
#[export] Instance N_cmp_ok : CmpOk N.
Proof.
  split; unfold cmp, N_cmp.
  - apply N.compare_eq_iff.
  - intros x y. by rewrite N.compare_antisym.
  - intros x y z. rewrite !N.compare_lt_iff. lia.
Qed.

Abbreviation byte := Byte.byte.
Definition byte_val (b : byte) : N := Byte.to_N b.

#[export] Instance byte_cmp : Cmp byte := λ x y, N.compare (byte_val x) (byte_val y).

Lemma byte_val_inj (x y : byte) : byte_val x = byte_val y → x = y.
Proof.
  intros Heq. apply (f_equal Byte.of_N) in Heq.
  unfold byte_val in Heq. rewrite !Byte.of_to_N in Heq. by inversion Heq.
Qed.

Lemma byte_val_bound (x : byte) : (byte_val x <= 255)%N.
Proof. unfold byte_val. apply Byte.to_N_bounded. Qed.

#[export] Instance byte_cmp_ok : CmpOk byte.
Proof.
  split; unfold cmp, byte_cmp.
  - intros x y. rewrite N.compare_eq_iff. split; [apply byte_val_inj|by intros ->].
  - intros x y. by rewrite N.compare_antisym.
  - intros x y z. rewrite !N.compare_lt_iff. lia.
Qed.

#[export] Instance byte_eq_dec : EqDecision byte := cmp_eq_dec.
#[export] Instance byte_countable : Countable byte.
Proof.
  refine (inj_countable Byte.to_N Byte.of_N _).
  intros x. apply Byte.of_to_N.
Defined.

Definition byte_of (n : N) : byte := default x00 (Byte.of_N (n mod 256)).

Lemma byte_val_of (n : N) : byte_val (byte_of n) = (n mod 256)%N.
Proof.
  unfold byte_of, byte_val.
  destruct (Byte.of_N (n mod 256)) as [b|] eqn:Hb; simpl.
  - by apply Byte.to_of_N.
  - apply Byte.of_N_None_iff in Hb.
    pose proof (N.mod_upper_bound n 256). lia.
Qed.

Lemma byte_of_val (b : byte) : byte_of (byte_val b) = b.
Proof.
  apply byte_val_inj. rewrite byte_val_of.
  pose proof (byte_val_bound b). apply N.mod_small. lia.
Qed.

(** Lexicographic order of slices. *)
Fixpoint list_cmp_ {A} (c : A → A → comparison) (l k : list A) : comparison :=
  match l, k with
  | [], [] => Eq
  | [], _ :: _ => Lt
  | _ :: _, [] => Gt
  | x :: l', y :: k' => cmp_then (c x y) (list_cmp_ c l' k')
  end.
#[export] Instance list_cmp {A} `{Cmp A} : Cmp (list A) := list_cmp_ cmp.

#[export] Instance list_cmp_ok {A} `{CmpOk A} : CmpOk (list A).
Proof.
  split.
  - change (∀ l k : list A, list_cmp_ cmp l k = Eq ↔ l = k).
    intros l. induction l as [|x l IH]; intros [|y k]; simpl; try done.
    destruct (cmp x y) eqn:Hc; simpl.
    + apply cmp_eq in Hc as ->. rewrite IH. split; [by intros ->|by intros [= ->]].
    + split; [done|]. intros [= -> _]. by rewrite cmp_refl in Hc.
    + split; [done|]. intros [= -> _]. by rewrite cmp_refl in Hc.
  - change (∀ l k : list A, list_cmp_ cmp k l = CompOpp (list_cmp_ cmp l k)).
    intros l. induction l as [|x l IH]; intros [|y k]; simpl; try done.
    rewrite (cmp_antisym x y). destruct (cmp x y); simpl; auto.
  - change (∀ l k m : list A, list_cmp_ cmp l k = Lt → list_cmp_ cmp k m = Lt →
      list_cmp_ cmp l m = Lt).
    intros l. induction l as [|x l IH]; intros [|y k] [|z m]; simpl; try done.
    destruct (cmp x y) eqn:Hxy; destruct (cmp y z) eqn:Hyz; simpl; try done.
    + apply cmp_eq in Hxy as ->. rewrite Hyz. simpl. apply IH.
    + apply cmp_eq in Hxy as ->. by rewrite Hyz.
    + apply cmp_eq in Hyz as ->. by rewrite Hxy.
    + by rewrite (cmp_trans x y z).
Qed.

#[export] Instance prod_cmp {A B} `{Cmp A, Cmp B} : Cmp (A * B) := λ p q,
  cmp_then (cmp p.1 q.1) (cmp p.2 q.2).
#[export] Instance prod_cmp_ok {A B} `{CmpOk A, CmpOk B} : CmpOk (A * B).
Proof.
  split.
  - intros [a b] [a' b']. change (cmp_then (cmp a a') (cmp b b') = Eq ↔ (a, b) = (a', b')). destruct (cmp a a') eqn:Ha; simpl.
    + apply cmp_eq in Ha as ->. rewrite cmp_eq. naive_solver.
    + split; [done|]. intros [= -> _]. by rewrite cmp_refl in Ha.
    + split; [done|]. intros [= -> _]. by rewrite cmp_refl in Ha.
  - intros [a b] [a' b'].
    change (cmp_then (cmp a' a) (cmp b' b) = CompOpp (cmp_then (cmp a a') (cmp b b'))).
    rewrite (cmp_antisym a a').
    destruct (cmp a a'); simpl; try done. apply cmp_antisym.
  - intros [a b] [a' b'] [a'' b''].
    change (cmp_then (cmp a a') (cmp b b') = Lt → cmp_then (cmp a' a'') (cmp b' b'') = Lt →
      cmp_then (cmp a a'') (cmp b b'') = Lt).
    destruct (cmp a a') eqn:Hxy; destruct (cmp a' a'') eqn:Hyz; simpl; try done.
    + apply cmp_eq in Hxy as ->. rewrite Hyz. simpl. apply cmp_trans.
    + apply cmp_eq in Hxy as ->. by rewrite Hyz.
    + apply cmp_eq in Hyz as ->. by rewrite Hxy.
    + by rewrite (cmp_trans a a' a'').
Qed.

#[export] Instance unit_cmp : Cmp unit := λ _ _, Eq.
#[export] Instance unit_cmp_ok : CmpOk unit.
Proof. split; unfold cmp, unit_cmp; [by intros [] []|done|done]. Qed.

(** ** Fixed-size byte arrays *)
Abbreviation bytes := (list byte).
Abbreviation arr n := (vec byte n).
Abbreviation arr32 := (vec byte 32).
Abbreviation arr64 := (vec byte 64).

(** [<[u8; n]>::try_from(&[u8])]. *)
Fixpoint arr_of (n : nat) (l : bytes) : option (arr n) :=
  match n, l with
  | O, [] => Some [#]
  | S n', b :: l' => vcons b <$> arr_of n' l'
  | _, _ => None
  end.

Lemma arr_of_to {n} (v : arr n) : arr_of n (vec_to_list v) = Some v.
Proof. induction v as [|b n v IH]; simpl; [done|]. by rewrite IH. Qed.

Lemma arr_of_Some {n} (l : bytes) (v : arr n) : arr_of n l = Some v → vec_to_list v = l.
Proof.
  revert l. induction v as [|b n v IH]; intros [|c l]; simpl; try done.
  intros Hf. destruct (arr_of n l) as [w|] eqn:Hw; [|done].
  apply (f_equal (option_map vec_to_list)) in Hf. simpl in Hf.
  injection Hf as -> Hwv. f_equal. apply IH.
  rewrite Hw. f_equal. by apply vec_to_list_inj2.
Qed.

Lemma arr_of_is_Some n (l : bytes) : is_Some (arr_of n l) ↔ length l = n.
Proof.
  revert l. induction n as [|n IH]; intros [|c l]; simpl.
  - by split; eauto.
  - split; [by intros []|done].
  - split; [by intros []|done].
  - rewrite fmap_is_Some, IH. lia.
Qed.

#[export] Instance arr_cmp n : Cmp (arr n) := λ v w, cmp (vec_to_list v) (vec_to_list w).
#[export] Instance arr_cmp_ok n : CmpOk (arr n).
Proof.
  split.
  - intros v w. change (cmp (vec_to_list v) (vec_to_list w) = Eq ↔ v = w). rewrite cmp_eq. split; [apply vec_to_list_inj2|by intros ->].
  - intros v w. apply (cmp_antisym (vec_to_list v) (vec_to_list w)).
  - intros u v w. apply (cmp_trans (vec_to_list u) (vec_to_list v) (vec_to_list w)).
Qed.
#[export] Instance arr_countable n : Countable (arr n).
Proof.
  refine (inj_countable vec_to_list (arr_of n) _).
  intros v. apply arr_of_to.
Defined.

(** An array all of whose bytes are [b] ([[b; n]]). *)
Definition arr_rep (n : nat) (b : byte) : arr n := vreplicate n b.

(** [u64::to_be_bytes]: big-endian, 8 bytes. *)
Fixpoint be_bytes (n : nat) (z : N) : bytes :=
  match n with
  | O => []
  | S n' => be_bytes n' (z / 256) ++ [byte_of z]
  end.
Fixpoint be_val_ (acc : N) (l : bytes) : N :=
  match l with
  | [] => acc
  | b :: l' => be_val_ (acc * 256 + byte_val b) l'
  end.
Definition be_val (l : bytes) : N := be_val_ 0 l.

Lemma be_val_app acc l k : be_val_ acc (l ++ k) = be_val_ (be_val_ acc l) k.
Proof. revert acc. induction l as [|b l IH]; intros acc; simpl; [done|]. apply IH. Qed.

Lemma length_be_bytes n z : length (be_bytes n z) = n.
Proof. revert z. induction n as [|n IH]; intros z; simpl; [done|]. rewrite length_app, IH. simpl. lia. Qed.

Lemma be_val_bytes n z : be_val (be_bytes n z) = (z mod 256 ^ N.of_nat n)%N.
Proof.
  revert z. induction n as [|n IH]; intros z.
  { change (256 ^ N.of_nat 0)%N with 1%N. by rewrite N.mod_1_r. }
  unfold be_val in *. simpl be_bytes. rewrite be_val_app, IH. simpl be_val_.
  rewrite byte_val_of, Nat2N.inj_succ, N.pow_succ_r'.
  rewrite (N.Div0.mod_mul_r z 256 (256 ^ N.of_nat n)). lia.
Qed.

Definition u64_max : N := 2 ^ 64.
(** [a + b] on [u64] in a release build. *)
Definition u64_add (a b : N) : N := ((a + b) mod u64_max)%N.
Definition u64_bytes (z : N) : bytes := be_bytes 8 z.

Lemma u64_bytes_inj x y :
  (x < u64_max)%N → (y < u64_max)%N → u64_bytes x = u64_bytes y → x = y.
Proof.
  intros Hx Hy Heq. apply (f_equal be_val) in Heq.
  unfold u64_bytes in Heq. rewrite !be_val_bytes in Heq.
  change (256 ^ N.of_nat 8)%N with u64_max in Heq.
  rewrite !N.mod_small in Heq; done.
Qed.

(** ** Byte prefixes: [slice::starts_with] *)
Fixpoint starts_with (l p : bytes) {struct p} : bool :=
  match p, l with
  | [], _ => true
  | b :: p', c :: l' => eqb c b && starts_with l' p'
  | _ :: _, [] => false
  end.

Lemma starts_with_spec l p : starts_with l p = true ↔ p `prefix_of` l.
Proof.
  revert l. induction p as [|b p IH]; intros l; simpl.
  - split; [intros _; apply prefix_nil|done].
  - destruct l as [|c l]; simpl.
    + split; [done|]. intros [k Hk]. done.
    + rewrite andb_true_iff, eqb_eq, IH. split.
      * intros [-> Hp]. by apply prefix_cons.
      * intros [k Hk]. injection Hk as -> ->. split; [done|]. by exists k.
Qed.

Lemma elem_of_filter_list {A} (p : A → bool) (l : list A) (x : A) :
  x ∈ List.filter p l ↔ x ∈ l ∧ p x = true.
Proof. rewrite !list_elem_of_In. apply filter_In. Qed.

Lemma forallb_false {A} (p : A → bool) (l : list A) :
  forallb p l = false → ∃ x, x ∈ l ∧ p x = false.
Proof.
  induction l as [|y l IH]; simpl; [done|]. destruct (p y) eqn:Hy; simpl.
  - intros (x & Hx & Hp)%IH. exists x. split; [by right|done].
  - intros _. exists y. split; [left|done].
Qed.

Lemma filter_sublist {A} (p : A → bool) (l : list A) : List.filter p l `sublist_of` l.
Proof.
  induction l as [|x l IH]; simpl; [constructor|]. destruct (p x); by constructor.
Qed.

Lemma filter_length_lt {A} (p : A → bool) (l : list A) x :
  x ∈ l → p x = false → length (List.filter p l) < length l.
Proof.
  induction l as [|y l IH]; [by intros ?%elem_of_nil|].
  pose proof (sublist_length _ _ (filter_sublist p l)).
  intros [->|Hx]%elem_of_cons Hp; simpl.
  - rewrite Hp. lia.
  - specialize (IH Hx Hp). destruct (p y); simpl; lia.
Qed.

(** ** Strictly sorted lists

    Ordered tables iterate in strictly ascending key order; two such lists
    with the same elements are equal, and filtering keeps the order. *)
Section sorted.
Context {A K : Type} `{CmpOk K} (f : A → K).

Definition key_lt (x y : A) : Prop := ltb (f x) (f y) = true.

Lemma sorted_head_notin (x : A) (l : list A) :
  StronglySorted key_lt (x :: l) → x ∉ l.
Proof.
  intros [Hall _]%StronglySorted_cons Hin.
  rewrite Forall_forall in Hall. specialize (Hall x Hin).
  unfold key_lt in Hall. by rewrite ltb_irrefl in Hall.
Qed.

Lemma sorted_ext (l k : list A) :
  StronglySorted key_lt l → StronglySorted key_lt k →
  (∀ x, x ∈ l ↔ x ∈ k) → l = k.
Proof.
  revert k. induction l as [|x l IH]; intros [|y k] Hl Hk Heq.
  - done.
  - exfalso. specialize (Heq y). set_solver.
  - exfalso. specialize (Heq x). set_solver.
  - pose proof (sorted_head_notin x l Hl) as Hxl.
    pose proof (sorted_head_notin y k Hk) as Hyk.
    apply StronglySorted_cons in Hl as [Hxall Hl].
    apply StronglySorted_cons in Hk as [Hyall Hk].
    rewrite Forall_forall in Hxall, Hyall.
    assert (x = y) as ->.
    { assert (x ∈ y :: k) as [?|Hx]%elem_of_cons by (apply Heq; left); [done|].
      assert (y ∈ x :: l) as [?|Hy]%elem_of_cons by (apply Heq; left); [done|].
      specialize (Hxall y Hy). specialize (Hyall x Hx). unfold key_lt in *.
      apply ltb_asym in Hxall. congruence. }
    f_equal. apply IH; [done|done|].
    intros z. specialize (Heq z). rewrite !elem_of_cons in Heq. naive_solver.
Qed.

Lemma sorted_filter (p : A → bool) (l : list A) :
  StronglySorted key_lt l → StronglySorted key_lt (List.filter p l).
Proof.
  induction l as [|x l IH]; simpl; [done|].
  intros [Hall Hl]%StronglySorted_cons. rewrite Forall_forall in Hall.
  destruct (p x); [|by apply IH].
  apply StronglySorted_cons. split; [|by apply IH].
  apply Forall_forall. intros y [Hy _]%elem_of_filter_list. by apply Hall.
Qed.

Lemma sorted_inj (l : list A) (x y : A) :
  StronglySorted key_lt l → x ∈ l → y ∈ l → f x = f y → x = y.
Proof.
  induction l as [|z l IH]; [by intros _ ?%elem_of_nil|].
  intros [Hall Hl]%StronglySorted_cons Hx Hy Heq. rewrite Forall_forall in Hall.
  assert (Habs : ∀ u v : A, f u = f v → ¬ key_lt u v).
  { unfold key_lt. intros u v -> Hlt. by rewrite ltb_irrefl in Hlt. }
  apply elem_of_cons in Hx as [->|Hx]; apply elem_of_cons in Hy as [->|Hy].
  - done.
  - exfalso. by apply (Habs z y), Hall.
  - exfalso. by apply (Habs z x), Hall.
  - by apply IH.
Qed.

Lemma sorted_NoDup (l : list A) : StronglySorted key_lt l → NoDup l.
Proof.
  induction l as [|x l IH]; [by constructor|]. intros Hl.
  constructor; [by apply sorted_head_notin|].
  apply IH. by apply StronglySorted_cons in Hl as [_ ?].
Qed.
End sorted.

(** ** [BTreeMap] of the standard library: a finite map iterated in ascending
    key order *)
Definition btree_le {K V} `{Cmp K} (x y : K * V) : Prop := leb x.1 y.1 = true.
#[export] Instance btree_le_dec {K V} `{Cmp K} : RelDecision (@btree_le K V _).
Proof. intros x y. unfold btree_le. apply _. Defined.

Definition btree_iter {K V} `{EqDecision K, Countable K, Cmp K} (m : gmap K V) : list (K * V) :=
  merge_sort btree_le (map_to_list m).

Section btree.
Context {K V : Type} `{Countable K, Cmp K, !CmpOk K}.
Implicit Types m : gmap K V.

#[local] Instance btree_le_trans : Transitive (@btree_le K V _).
Proof.
  intros x y z. unfold btree_le. ord_norm.
  rewrite !negb_true_iff. intros Hyx Hzy.
  destruct (ltb z.1 x.1) eqn:Hzx; [|done].
  destruct (ltb x.1 y.1) eqn:Hxy.
  - by rewrite (ltb_trans z.1 x.1 y.1) in Hzy.
  - rewrite (ltb_total _ _ Hxy Hyx) in Hzx. congruence.
Qed.
#[local] Instance btree_le_total : Total (@btree_le K V _).
Proof.
  intros x y. unfold btree_le. ord_norm. rewrite !negb_true_iff.
  destruct (ltb y.1 x.1) eqn:Hyx; [|by left]. right. by apply ltb_asym.
Qed.

Lemma btree_iter_perm m : btree_iter m ≡ₚ map_to_list m.
Proof. apply merge_sort_Permutation. Qed.

Lemma elem_of_btree_iter m k v : (k, v) ∈ btree_iter m ↔ m !! k = Some v.
Proof. rewrite btree_iter_perm. apply elem_of_map_to_list. Qed.

Lemma btree_iter_NoDup m : NoDup (btree_iter m).*1.
Proof. rewrite btree_iter_perm. apply NoDup_fst_map_to_list. Qed.

Lemma btree_iter_sorted m : StronglySorted (key_lt fst) (btree_iter m).
Proof.
  assert (StronglySorted btree_le (btree_iter m)) as Hs
    by (apply StronglySorted_merge_sort; apply _).
  pose proof (btree_iter_NoDup m) as Hnd. revert Hs Hnd.
  induction (btree_iter m) as [|x l IH]; [constructor|].
  intros [Hall Hs]%StronglySorted_cons. simpl. intros [Hnin Hnd]%NoDup_cons.
  apply StronglySorted_cons. split; [|by apply IH].
  rewrite Forall_forall in Hall |- *. intros y Hy. specialize (Hall y Hy).
  unfold btree_le in Hall. unfold key_lt. rewrite leb_negb_ltb, negb_true_iff in Hall.
  destruct (ltb x.1 y.1) eqn:Hlt; [done|].
  destruct Hnin. rewrite (ltb_total _ _ Hlt Hall). by apply list_elem_of_fmap_2.
Qed.
End btree.

(** The development's hint database for table and list facts. *)
Create HintDb store_db.
