(* ===== verification/Redb.v ===== *)
(** * The embedded database, as the store uses it

    [redb] is not part of the repository.  What the store relies on is
    stated once, as the interface [Redb] (its operations) and [RedbOk]
    (their documented behaviour: tables are ordered maps, iteration is in
    ascending key order, a write transaction sees the committed state and
    publishes on commit, a read transaction is a frozen view).  Every
    component is written against the interface; [list_redb] at the end is
    one implementation of it, used to evaluate the development on concrete
    inputs and to show that the laws can hold. *)
From S2P Require Import Prelude.

(** [std::ops::Bound]. *)
Inductive bound (K : Type) : Type :=
| Included (k : K)
| Excluded (k : K)
| Unbounded.
Arguments Included {K} _.
Arguments Excluded {K} _.
Arguments Unbounded {K}.

Definition above {K} `{Cmp K} (lo : bound K) (k : K) : bool :=
  match lo with Included x => leb x k | Excluded x => ltb x k | Unbounded => true end.
Definition below {K} `{Cmp K} (hi : bound K) (k : K) : bool :=
  match hi with Included y => leb k y | Excluded y => ltb k y | Unbounded => true end.
(** [RangeBounds::contains]. *)
Definition in_bounds {K} `{Cmp K} (b : bound K * bound K) (k : K) : bool :=
  above b.1 k && below b.2 k.

Class Redb := {
  table : ∀ K V : Type, Cmp K → Type;
  multimap : ∀ K V : Type, Cmp K → Cmp V → Type;
  database : Type → Type;
  tbl_empty : ∀ {K V} `{C : Cmp K}, table K V C;
  tbl_iter : ∀ {K V} `{C : Cmp K}, table K V C → list (K * V);
  tbl_get : ∀ {K V} `{C : Cmp K}, table K V C → K → option V;
  tbl_insert : ∀ {K V} `{C : Cmp K}, table K V C → K → V → table K V C;
  tbl_remove : ∀ {K V} `{C : Cmp K}, table K V C → K → table K V C;
  tbl_range : ∀ {K V} `{C : Cmp K}, table K V C → bound K * bound K → list (K * V);
  (** [retain_in]: within the bounds, keep what the predicate admits. *)
  tbl_retain_in : ∀ {K V} `{C : Cmp K},
    table K V C → bound K * bound K → (K → V → bool) → table K V C;
  (** [extract_from_if], driven to the end: within the bounds, remove and
      return what the predicate selects. *)
  tbl_extract_from_if : ∀ {K V} `{C : Cmp K},
    table K V C → bound K * bound K → (K → V → bool) → list (K * V) * table K V C;
  mm_empty : ∀ {K V} `{C : Cmp K, D : Cmp V}, multimap K V C D;
  mm_get : ∀ {K V} `{C : Cmp K, D : Cmp V}, multimap K V C D → K → list V;
  (** every key that has values, with its values *)
  mm_iter : ∀ {K V} `{C : Cmp K, D : Cmp V}, multimap K V C D → list (K * list V);
  mm_insert : ∀ {K V} `{C : Cmp K, D : Cmp V}, multimap K V C D → K → V → multimap K V C D;
  mm_remove : ∀ {K V} `{C : Cmp K, D : Cmp V}, multimap K V C D → K → V → multimap K V C D;
  mm_remove_all : ∀ {K V} `{C : Cmp K, D : Cmp V}, multimap K V C D → K → multimap K V C D;
  db_create : ∀ {T}, T → database T;
  db_begin_read : ∀ {T}, database T → T;
  db_begin_write : ∀ {T}, database T → T;
  db_commit : ∀ {T}, database T → T → database T;
}.

Abbreviation tbl K V := (table K V _).
Abbreviation mmap K V := (multimap K V _ _).

Class RedbOk `{Redb} : Prop := {
  tbl_iter_sorted : ∀ K V `{CmpOk K} (t : tbl K V),
    StronglySorted (key_lt fst) (tbl_iter t);
  tbl_iter_get : ∀ K V `{CmpOk K} (t : tbl K V) k v,
    (k, v) ∈ tbl_iter t ↔ tbl_get t k = Some v;
  tbl_get_empty : ∀ K V `{CmpOk K} k, tbl_get (tbl_empty : tbl K V) k = None;
  tbl_get_insert : ∀ K V `{CmpOk K} (t : tbl K V) k v k',
    tbl_get (tbl_insert t k v) k' = if eqb k k' then Some v else tbl_get t k';
  tbl_get_remove : ∀ K V `{CmpOk K} (t : tbl K V) k k',
    tbl_get (tbl_remove t k) k' = if eqb k k' then None else tbl_get t k';
  tbl_range_iter : ∀ K V `{CmpOk K} (t : tbl K V) b,
    tbl_range t b = List.filter (λ p, in_bounds b p.1) (tbl_iter t);
  tbl_get_retain_in : ∀ K V `{CmpOk K} (t : tbl K V) b p k,
    tbl_get (tbl_retain_in t b p) k =
      v ← tbl_get t k; if in_bounds b k && negb (p k v) then None else Some v;
  tbl_extract_fst : ∀ K V `{CmpOk K} (t : tbl K V) b p,
    (tbl_extract_from_if t b p).1 =
      List.filter (λ q, in_bounds b q.1 && p q.1 q.2) (tbl_iter t);
  tbl_get_extract : ∀ K V `{CmpOk K} (t : tbl K V) b p k,
    tbl_get (tbl_extract_from_if t b p).2 k =
      v ← tbl_get t k; if in_bounds b k && p k v then None else Some v;
  mm_get_sorted : ∀ K V `{CmpOk K, CmpOk V} (m : mmap K V) k,
    StronglySorted (key_lt id) (mm_get m k);
  mm_iter_get : ∀ K V `{CmpOk K, CmpOk V} (m : mmap K V) k vs,
    (k, vs) ∈ mm_iter m ↔ vs = mm_get m k ∧ vs ≠ [];
  mm_get_empty : ∀ K V `{CmpOk K, CmpOk V} k, mm_get (mm_empty : mmap K V) k = [];
  mm_get_insert : ∀ K V `{CmpOk K, CmpOk V} (m : mmap K V) k v k' v',
    v' ∈ mm_get (mm_insert m k v) k' ↔ (k' = k ∧ v' = v) ∨ v' ∈ mm_get m k';
  mm_get_remove : ∀ K V `{CmpOk K, CmpOk V} (m : mmap K V) k v k' v',
    v' ∈ mm_get (mm_remove m k v) k' ↔ ¬ (k' = k ∧ v' = v) ∧ v' ∈ mm_get m k';
  mm_get_remove_all : ∀ K V `{CmpOk K, CmpOk V} (m : mmap K V) k k' v',
    v' ∈ mm_get (mm_remove_all m k) k' ↔ k' ≠ k ∧ v' ∈ mm_get m k';
  db_read_create : ∀ T (t : T), db_begin_read (db_create t) = t;
  db_write_read : ∀ T (d : database T), db_begin_write d = db_begin_read d;
  db_read_commit : ∀ T (d : database T) (t : T), db_begin_read (db_commit d t) = t;
}.

(** ** Derived facts every component shares *)
Section tables.
Context `{RedbOk} {K V : Type} `{CmpOk K}.
Implicit Types t : tbl K V.

Lemma tbl_get_insert_eq t k v : tbl_get (tbl_insert t k v) k = Some v.
Proof. by rewrite tbl_get_insert, eqb_refl by apply _. Qed.

Lemma tbl_get_insert_ne t k v k' :
  k ≠ k' → tbl_get (tbl_insert t k v) k' = tbl_get t k'.
Proof.
  intros Hne. rewrite tbl_get_insert by apply _.
  destruct (eqb k k') eqn:Heq; [|done]. by apply eqb_eq in Heq.
Qed.

Lemma tbl_get_remove_eq t k : tbl_get (tbl_remove t k) k = None.
Proof. by rewrite tbl_get_remove, eqb_refl by apply _. Qed.

Lemma tbl_get_remove_ne t k k' :
  k ≠ k' → tbl_get (tbl_remove t k) k' = tbl_get t k'.
Proof.
  intros Hne. rewrite tbl_get_remove by apply _.
  destruct (eqb k k') eqn:Heq; [|done]. by apply eqb_eq in Heq.
Qed.

(** A table is determined, as far as iteration goes, by its lookups. *)
Lemma tbl_iter_ext t t' :
  (∀ k, tbl_get t k = tbl_get t' k) → tbl_iter t = tbl_iter t'.
Proof.
  intros Heq. apply (sorted_ext fst); [by apply tbl_iter_sorted, _..|].
  intros [k v]. rewrite !tbl_iter_get by apply _. by rewrite Heq.
Qed.

Lemma tbl_range_get t b k v :
  (k, v) ∈ tbl_range t b ↔ in_bounds b k = true ∧ tbl_get t k = Some v.
Proof.
  rewrite tbl_range_iter by apply _.
  rewrite elem_of_filter_list, tbl_iter_get by apply _. simpl. tauto.
Qed.

Lemma tbl_range_sorted t b : StronglySorted (key_lt fst) (tbl_range t b).
Proof.
  rewrite tbl_range_iter by apply _.
  apply sorted_filter. by apply tbl_iter_sorted, _.
Qed.

Lemma tbl_range_ext t b b' :
  (∀ k, in_bounds b k = in_bounds b' k) → tbl_range t b = tbl_range t b'.
Proof.
  intros Heq. rewrite !tbl_range_iter by apply _.
  apply List.filter_ext. intros [k v]. apply Heq.
Qed.

Lemma mm_get_NoDup {W} `{CmpOk W} (m : mmap K W) k : NoDup (mm_get m k).
Proof. eapply (sorted_NoDup id). by apply mm_get_sorted. Qed.
End tables.

#[export] Hint Rewrite @tbl_get_insert_eq @tbl_get_remove_eq @tbl_get_retain_in
  @tbl_get_extract using typeclasses eauto : store_db.

(** ** A concrete implementation: association lists kept in key order *)
Section list_redb.
Context {K V : Type} `{Cmp K}.

Fixpoint ins (k : K) (v : V) (l : list (K * V)) : list (K * V) :=
  match l with
  | [] => [(k, v)]
  | (k', v') :: l' =>
      match cmp k k' with
      | Lt => (k, v) :: l
      | Eq => (k, v) :: l'
      | Gt => (k', v') :: ins k v l'
      end
  end.
Definition norm (l : list (K * V)) : list (K * V) :=
  foldr (λ p acc, ins p.1 p.2 acc) [] l.
Fixpoint assoc (l : list (K * V)) (k : K) : option V :=
  match l with
  | [] => None
  | (k', v) :: l' => if eqb k' k then Some v else assoc l' k
  end.
End list_redb.

Section list_redb_facts.
Context {K V : Type} `{CmpOk K}.
Implicit Types l : list (K * V).

Lemma assoc_ins k v l k' :
  assoc (ins k v l) k' = if eqb k k' then Some v else assoc l k'.
Proof.
  induction l as [|[k1 v1] l IH]; simpl; [done|].
  destruct (cmp k k1) eqn:Hc; simpl; [|done|].
  - apply cmp_eq in Hc as ->. by destruct (eqb k1 k').
  - rewrite IH. destruct (eqb k k') eqn:Hk; [|done].
    apply eqb_eq in Hk as ->. unfold eqb. rewrite (cmp_antisym k' k1), Hc. done.
Qed.

Lemma elem_of_ins k v l p :
  p ∈ ins k v l → p = (k, v) ∨ p ∈ l.
Proof.
  induction l as [|[k1 v1] l IH]; simpl.
  { rewrite list_elem_of_singleton. tauto. }
  destruct (cmp k k1); rewrite ?elem_of_cons; naive_solver.
Qed.

Lemma ins_sorted k v l :
  StronglySorted (key_lt fst) l → StronglySorted (key_lt fst) (ins k v l).
Proof.
  induction l as [|[k1 v1] l IH]; simpl.
  { intros _. apply StronglySorted_cons. split; [done|constructor]. }
  intros Hs. pose proof Hs as [Hall Hl]%StronglySorted_cons.
  rewrite Forall_forall in Hall.
  destruct (cmp k k1) eqn:Hc.
  - apply cmp_eq in Hc as ->. apply StronglySorted_cons. split; [|done].
    apply Forall_forall. intros p Hp. by apply Hall.
  - apply StronglySorted_cons. split; [|done]. apply Forall_forall.
    apply ltb_lt in Hc.
    intros p [->|Hp]%elem_of_cons; unfold key_lt; simpl; [done|].
    eapply ltb_trans; [done|]. by apply Hall.
  - apply StronglySorted_cons. split; [|by apply IH]. apply Forall_forall.
    intros p [->|Hp]%elem_of_ins; [|by apply Hall].
    unfold key_lt. simpl. by apply ltb_lt, cmp_gt.
Qed.

Lemma norm_sorted l : StronglySorted (key_lt fst) (norm l).
Proof. induction l as [|p l IH]; simpl; [constructor|]. by apply ins_sorted. Qed.

Lemma assoc_sorted l k v :
  StronglySorted (key_lt fst) l → (k, v) ∈ l ↔ assoc l k = Some v.
Proof.
  induction l as [|[k1 v1] l IH]; simpl.
  { intros _. rewrite elem_of_nil. naive_solver. }
  intros Hs. pose proof Hs as [Hall Hl]%StronglySorted_cons.
  rewrite elem_of_cons. destruct (eqb k1 k) eqn:Hk.
  - apply eqb_eq in Hk as ->. split; [|naive_solver].
    intros [[= ->]|Hin]; [done|]. rewrite Forall_forall in Hall.
    specialize (Hall _ Hin). unfold key_lt in Hall. simpl in Hall.
    by rewrite ltb_irrefl in Hall.
  - rewrite IH by done. split; [|tauto].
    intros [[= -> ->]|?]; [|done]. by rewrite eqb_refl in Hk.
Qed.

Lemma assoc_filter (p : K * V → bool) l k :
  StronglySorted (key_lt fst) l →
  assoc (List.filter p l) k = v ← assoc l k; if p (k, v) then Some v else None.
Proof.
  intros Hs. destruct (assoc l k) as [v|] eqn:Hk; simpl.
  - apply assoc_sorted in Hk; [|done]. destruct (p (k, v)) eqn:Hp.
    + apply assoc_sorted; [by apply sorted_filter|]. by apply elem_of_filter_list.
    + destruct (assoc (List.filter p l) k) as [w|] eqn:Hw; [|done].
      apply assoc_sorted in Hw; [|by apply sorted_filter].
      apply elem_of_filter_list in Hw as [Hw Hpw].
      assert ((k, w) = (k, v)) as Heq by (by eapply (sorted_inj fst)).
      injection Heq as ->. congruence.
  - destruct (assoc (List.filter p l) k) as [w|] eqn:Hw; [|done].
    apply assoc_sorted in Hw; [|by apply sorted_filter].
    apply elem_of_filter_list in Hw as [Hw _].
    apply assoc_sorted in Hw; [|done]. congruence.
Qed.

Lemma assoc_norm l k : assoc (norm l) k = assoc l k.
Proof.
  induction l as [|[k1 v1] m IH]; simpl; [done|].
  rewrite assoc_ins. simpl. by rewrite IH.
Qed.
End list_redb_facts.

#[export, refine] Instance list_redb : Redb := {
  table K V _ := list (K * V);
  multimap K V _ _ := list ((K * V) * unit);
  database T := T;
  tbl_empty K V _ := [];
  tbl_iter K V _ t := norm t;
  tbl_get K V _ t k := assoc (norm t) k;
  tbl_insert K V _ t k v := ins k v (norm t);
  tbl_remove K V _ t k := List.filter (λ p, negb (eqb k p.1)) (norm t);
  tbl_range K V _ t b := List.filter (λ p, in_bounds b p.1) (norm t);
  tbl_retain_in K V _ t b p :=
    List.filter (λ q, negb (in_bounds b q.1 && negb (p q.1 q.2))) (norm t);
  tbl_extract_from_if K V _ t b p :=
    (List.filter (λ q, in_bounds b q.1 && p q.1 q.2) (norm t),
     List.filter (λ q, negb (in_bounds b q.1 && p q.1 q.2)) (norm t));
  mm_empty K V _ _ := [];
  mm_get K V _ _ m k := (λ p, p.1.2) <$> List.filter (λ p, eqb p.1.1 k) (norm m);
  mm_iter K V _ _ m := (λ p, (p.1, (λ q, q.1.2) <$> List.filter (λ q, eqb q.1.1 p.1) (norm m)))
    <$> norm ((λ p, (p.1.1, tt)) <$> norm m);
  mm_insert K V _ _ m k v := ins (k, v) tt (norm m);
  mm_remove K V _ _ m k v := List.filter (λ p, negb (eqb (k, v) p.1)) (norm m);
  mm_remove_all K V _ _ m k := List.filter (λ p, negb (eqb k p.1.1)) (norm m);
  db_create T t := t;
  db_begin_read T d := d;
  db_begin_write T d := d;
  db_commit T d t := t;
}.
Proof. Defined.

Section list_mm.
Context {K V : Type} `{CmpOk K, CmpOk V}.
Implicit Types m : list ((K * V) * unit).

Lemma list_mm_elem (l : list ((K * V) * unit)) k v :
  StronglySorted (key_lt fst) l →
  v ∈ (λ p : K * V * unit, p.1.2) <$> List.filter (λ p, eqb p.1.1 k) l ↔ assoc l (k, v) = Some tt.
Proof.
  intros Hs. rewrite <- assoc_sorted by done. rewrite list_elem_of_fmap. split.
  - intros ([[k' v'] []] & -> & [Hin Heq]%elem_of_filter_list). simpl in *.
    by apply eqb_eq in Heq as ->.
  - intros Hin. exists ((k, v), tt). split; [done|].
    apply elem_of_filter_list. split; [done|]. simpl. apply eqb_refl.
Qed.

Lemma list_mm_sorted (l : list ((K * V) * unit)) k :
  StronglySorted (key_lt fst) l →
  StronglySorted (key_lt id) ((λ p : K * V * unit, p.1.2) <$> List.filter (λ p, eqb p.1.1 k) l).
Proof.
  induction l as [|[[k1 v1] []] l IH]; [constructor|].
  intros [Hall Hs]%StronglySorted_cons. simpl.
  destruct (eqb k1 k) eqn:Hk; [|by apply IH]. apply eqb_eq in Hk as ->.
  simpl. apply StronglySorted_cons. split; [|by apply IH].
  apply Forall_forall. intros v ([[k' v'] []] & -> & [Hin Heq]%elem_of_filter_list)%list_elem_of_fmap.
  simpl in *. apply eqb_eq in Heq as ->.
  rewrite Forall_forall in Hall. specialize (Hall _ Hin).
  unfold key_lt in *. simpl in *. apply ltb_lt. apply ltb_lt in Hall.
  change (cmp_then (cmp k k) (cmp v1 v') = Lt) in Hall. by rewrite cmp_refl in Hall.
Qed.

Lemma assoc_unit (l : list (K * unit)) k : assoc l k = Some tt ↔ (k, tt) ∈ l.
Proof.
  induction l as [|[k1 []] l IH]; simpl; [by rewrite elem_of_nil|].
  rewrite elem_of_cons. destruct (eqb k1 k) eqn:Hk.
  - apply eqb_eq in Hk as ->. split; [by left|done].
  - rewrite IH. split; [by right|]. intros [[= ->]|?]; [|done]. by rewrite eqb_refl in Hk.
Qed.

Lemma list_mm_iter m k vs :
  (k, vs) ∈ ((λ p, (p.1, (λ q : K * V * unit, q.1.2) <$> List.filter (λ q, eqb q.1.1 p.1) (norm m)))
    <$> norm ((λ p : K * V * unit, (p.1.1, tt)) <$> norm m))
  ↔ vs = (λ q : K * V * unit, q.1.2) <$> List.filter (λ q, eqb q.1.1 k) (norm m) ∧ vs ≠ [].
Proof.
  rewrite list_elem_of_fmap.
  assert ((k, tt) ∈ norm ((λ p : K * V * unit, (p.1.1, tt)) <$> norm m) ↔
    List.filter (λ q : K * V * unit, eqb q.1.1 k) (norm m) ≠ []) as Hkey.
  { rewrite assoc_sorted, assoc_norm, assoc_unit, list_elem_of_fmap by apply norm_sorted. split.
    - intros ([[k' v] []] & [= ->] & Hin) Hnil.
      assert (((k', v), tt) ∈ List.filter (λ q : K * V * unit, eqb q.1.1 k') (norm m)) as Hf.
      { apply elem_of_filter_list. split; [done|apply eqb_refl]. }
      rewrite Hnil in Hf. by apply elem_of_nil in Hf.
    - intros Hne. destruct (List.filter _ (norm m)) as [|[[k' v] []] l] eqn:Hl; [done|].
      assert (((k', v), tt) ∈ List.filter (λ q : K * V * unit, eqb q.1.1 k) (norm m)) as Hf by (rewrite Hl; left).
      apply elem_of_filter_list in Hf as [Hf Hk]. apply eqb_eq in Hk. simpl in Hk. subst k'.
      by exists ((k, v), tt). }
  split.
  - intros ([k' []] & [= -> ->] & Hin). split; [done|]. simpl. apply Hkey in Hin.
    by intros ?%fmap_nil_inv.
  - intros [-> Hne]. exists (k, tt). split; [done|]. apply Hkey. intros Hnil. by rewrite Hnil in Hne.
Qed.
End list_mm.

#[export] Instance list_redb_ok : RedbOk.
Proof.
  split; simpl.
  - intros. apply norm_sorted.
  - intros. apply assoc_sorted, norm_sorted.
  - done.
  - intros. by rewrite assoc_norm, assoc_ins.
  - intros. rewrite assoc_norm, assoc_filter by apply norm_sorted. simpl.
    destruct (assoc (norm t) k') as [v|]; simpl; by destruct (eqb k k').
  - done.
  - intros. rewrite assoc_norm, assoc_filter by apply norm_sorted. simpl.
    destruct (assoc (norm t) k) as [v|]; simpl; [|done].
    by destruct (in_bounds b k && negb (p k v)).
  - done.
  - intros. rewrite assoc_norm, assoc_filter by apply norm_sorted. simpl.
    destruct (assoc (norm t) k) as [v|]; simpl; [|done].
    by destruct (in_bounds b k && p k v).
  - intros. apply list_mm_sorted, norm_sorted.
  - intros. apply list_mm_iter.
  - done.
  - intros. rewrite !list_mm_elem by apply norm_sorted.
    rewrite assoc_norm, assoc_ins.
    destruct (eqb (k, v) (k', v')) eqn:Heq.
    + apply eqb_eq in Heq. naive_solver.
    + split; [tauto|]. intros [[-> ->]|?]; [|done]. by rewrite eqb_refl in Heq.
  - intros. rewrite !list_mm_elem by apply norm_sorted.
    rewrite assoc_norm, assoc_filter by apply norm_sorted. simpl.
    destruct (assoc (norm m) (k', v')) as [[]|]; simpl; [|naive_solver].
    destruct (eqb (k, v) (k', v')) eqn:Heq; simpl.
    + apply eqb_eq in Heq. naive_solver.
    + split; [|done]. intros _. split; [|done]. intros [-> ->].
      by rewrite eqb_refl in Heq.
  - intros. rewrite !list_mm_elem by apply norm_sorted.
    rewrite assoc_norm, assoc_filter by apply norm_sorted. simpl.
    destruct (assoc (norm m) (k', v')) as [[]|]; simpl; [|naive_solver].
    destruct (eqb k k') eqn:Heq; simpl.
    + apply eqb_eq in Heq. naive_solver.
    + split; [|done]. intros _. split; [|done]. intros ->.
      by rewrite eqb_refl in Heq.
  - done.
  - done.
  - done.
Qed.
