(* ===== verification/Keys.v ===== *)
(** * Keys, key caches and namespace capabilities

    Models [src/keys.rs], [src/store/pubkeys.rs] and the capability part of
    [src/sync.rs].  Signatures, curve points and BLAKE3 come from other
    crates: they are the interface [Crypto], with what the code relies on
    in [CryptoOk]; [toy_crypto] is an implementation that satisfies the
    laws and computes. *)
From S2P Require Import Prelude.

Class Crypto := {
  SecretKey : Type;
  PublicKey : Type;
  (** a [BLAKE3] digest of a byte string *)
  blake3_hash : bytes → arr32;
  (** [iroh_blobs::Hash::EMPTY] *)
  Hash_EMPTY : arr32;
  sk_from_bytes : arr32 → SecretKey;
  sk_to_bytes : SecretKey → arr32;
  sk_public : SecretKey → PublicKey;
  sk_sign : SecretKey → bytes → arr64;
  pk_as_bytes : PublicKey → arr32;
  (** [PublicKey::from_bytes]: [None] is [KeyParsingError] *)
  pk_from_bytes : arr32 → option PublicKey;
  (** [PublicKey::verify]: [false] is [SignatureError] *)
  pk_verify : PublicKey → bytes → arr64 → bool;
}.

Class CryptoOk `{Crypto} : Prop := {
  hash_empty : Hash_EMPTY = blake3_hash [];
  sk_to_from : ∀ b, sk_to_bytes (sk_from_bytes b) = b;
  sk_from_to : ∀ sk, sk_from_bytes (sk_to_bytes sk) = sk;
  pk_from_as : ∀ pk, pk_from_bytes (pk_as_bytes pk) = Some pk;
  pk_as_from : ∀ b pk, pk_from_bytes b = Some pk → pk_as_bytes pk = b;
  verify_sign : ∀ sk m, pk_verify (sk_public sk) m (sk_sign sk m) = true;
}.

(** [AuthorId] and [NamespaceId] are newtypes of [[u8; 32]]; a content hash
    is 32 bytes as well and is ordered bytewise. *)
Abbreviation AuthorId := arr32.
Abbreviation NamespaceId := arr32.
Abbreviation PeerIdBytes := arr32.
Abbreviation Hash := arr32.

Section keys.
Context `{Crypto}.

Record Author := { author_signing_key : SecretKey }.
Record NamespaceSecret := { namespace_signing_key : SecretKey }.
Record AuthorPublicKey := { author_pk : PublicKey }.
Record NamespacePublicKey := { namespace_pk : PublicKey }.

Definition Author_from_bytes (b : arr32) : Author :=
  {| author_signing_key := sk_from_bytes b |}.
Definition Author_to_bytes (a : Author) : arr32 := sk_to_bytes (author_signing_key a).
Definition Author_public_key (a : Author) : AuthorPublicKey :=
  {| author_pk := sk_public (author_signing_key a) |}.
Definition Author_id (a : Author) : AuthorId := pk_as_bytes (author_pk (Author_public_key a)).
Definition Author_sign (a : Author) (msg : bytes) : arr64 :=
  sk_sign (author_signing_key a) msg.
Definition AuthorPublicKey_verify (k : AuthorPublicKey) (msg : bytes) (sig : arr64) : bool :=
  pk_verify (author_pk k) msg sig.

Definition NamespaceSecret_from_bytes (b : arr32) : NamespaceSecret :=
  {| namespace_signing_key := sk_from_bytes b |}.
Definition NamespaceSecret_to_bytes (n : NamespaceSecret) : arr32 :=
  sk_to_bytes (namespace_signing_key n).
Definition NamespaceSecret_public_key (n : NamespaceSecret) : NamespacePublicKey :=
  {| namespace_pk := sk_public (namespace_signing_key n) |}.
Definition NamespaceSecret_id (n : NamespaceSecret) : NamespaceId :=
  pk_as_bytes (namespace_pk (NamespaceSecret_public_key n)).
Definition NamespaceSecret_sign (n : NamespaceSecret) (msg : bytes) : arr64 :=
  sk_sign (namespace_signing_key n) msg.
Definition NamespacePublicKey_verify (k : NamespacePublicKey) (msg : bytes) (sig : arr64) : bool :=
  pk_verify (namespace_pk k) msg sig.

(** ** [MemPublicKeyStore]: a cache of expanded public keys *)
Abbreviation MemPublicKeyStore := (gmap arr32 PublicKey).

Definition mem_public_key (keys : MemPublicKeyStore) (b : arr32)
    : option PublicKey * MemPublicKeyStore :=
  match keys !! b with
  | Some id => (Some id, keys)
  | None =>
      match pk_from_bytes b with
      | Some id => (Some id, <[b := id]> keys)
      | None => (None, keys)
      end
  end.

(** [PublicKeyStore::namespace_key] and [author_key] over any source of
    public keys. *)
Definition namespace_key (public_key : arr32 → option PublicKey) (id : NamespaceId)
    : option NamespacePublicKey := Build_NamespacePublicKey <$> public_key id.
Definition author_key (public_key : arr32 → option PublicKey) (id : AuthorId)
    : option AuthorPublicKey := Build_AuthorPublicKey <$> public_key id.

Definition cache_wf (keys : MemPublicKeyStore) : Prop :=
  ∀ b pk, keys !! b = Some pk → pk_from_bytes b = Some pk.

Lemma cache_wf_empty : cache_wf ∅.
Proof. intros b pk. by rewrite lookup_empty. Qed.

(** The public-key cache is transparent: from a well-formed cache a
    lookup answers exactly what parsing the bytes answers, and leaves a
    well-formed cache that only grew. *)
Theorem mem_public_key_transparent (keys : MemPublicKeyStore) (b : arr32) :
  cache_wf keys →
  (mem_public_key keys b).1 = pk_from_bytes b
  ∧ cache_wf (mem_public_key keys b).2
  ∧ keys ⊆ (mem_public_key keys b).2.
Proof.
  intros Hwf. unfold mem_public_key. destruct (keys !! b) as [pk|] eqn:Hk.
  { simpl. by rewrite (Hwf b pk Hk). }
  destruct (pk_from_bytes b) as [pk|] eqn:Hp; simpl; [|done].
  split; [done|]. split; [|by apply insert_subseteq].
  intros b' pk'. destruct (decide (b = b')) as [->|Hne].
  - rewrite lookup_insert_eq. naive_solver.
  - rewrite lookup_insert_ne by done. apply Hwf.
Qed.

(** ** Capabilities *)
Inductive CapabilityKind := CkWrite | CkRead.
#[export] Instance CapabilityKind_eq_dec : EqDecision CapabilityKind.
Proof. solve_decision. Defined.

(** [#[repr(u8)]] with [Write = 1], [Read = 2], and [TryFromPrimitive]. *)
Definition kind_to_u8 (k : CapabilityKind) : N :=
  match k with CkWrite => 1 | CkRead => 2 end.
Definition kind_of_u8 (n : N) : option CapabilityKind :=
  if (n =? 1)%N then Some CkWrite else if (n =? 2)%N then Some CkRead else None.

Inductive Capability :=
| CapWrite (secret : NamespaceSecret)
| CapRead (id : NamespaceId).

Inductive ReadOnlyError := ReadOnly.
Inductive CapabilityError := NamespaceMismatch.

Definition Capability_id (c : Capability) : NamespaceId :=
  match c with CapWrite s => NamespaceSecret_id s | CapRead id => id end.
Definition Capability_secret_key (c : Capability) : result ReadOnlyError NamespaceSecret :=
  match c with CapWrite s => Ok s | CapRead _ => Err ReadOnly end.
Definition Capability_kind (c : Capability) : CapabilityKind :=
  match c with CapWrite _ => CkWrite | CapRead _ => CkRead end.
Definition Capability_raw (c : Capability) : N * arr32 :=
  (kind_to_u8 (Capability_kind c),
   match c with CapWrite s => NamespaceSecret_to_bytes s | CapRead id => id end).
Definition Capability_from_raw (kind : N) (b : arr32) : option Capability :=
  k ← kind_of_u8 kind;
  Some (match k with
        | CkWrite => CapWrite (NamespaceSecret_from_bytes b)
        | CkRead => CapRead b
        end).

(** [Capability::merge]: the new capability and whether it changed. *)
Definition Capability_merge (self other : Capability)
    : result CapabilityError (bool * Capability) :=
  if negb (eqb (Capability_id other) (Capability_id self)) then Err NamespaceMismatch
  else match self, other with
       | CapRead _, CapWrite _ => Ok (true, other)
       | _, _ => Ok (false, self)
       end.

(** How much a capability allows: merging takes the larger. *)
Definition cap_rank (c : Capability) : nat :=
  match c with CapRead _ => 0 | CapWrite _ => 1 end.

Lemma Capability_merge_cases (self other : Capability) :
  match Capability_merge self other with
  | Ok (changed, c) =>
      Capability_id other = Capability_id self
      ∧ Capability_id c = Capability_id self
      ∧ cap_rank c = max (cap_rank self) (cap_rank other)
      ∧ changed = (cap_rank self <? cap_rank other)
      ∧ Capability_merge c other = Ok (false, c)
  | Err NamespaceMismatch => Capability_id other ≠ Capability_id self
  | Panic => False
  end.
Proof.
  unfold Capability_merge.
  destruct (eqb (Capability_id other) (Capability_id self)) eqn:Hid; simpl.
  2: { intros Heq. rewrite Heq, eqb_refl in Hid. done. }
  apply eqb_eq in Hid.
  destruct self, other; simpl in *; rewrite ?Hid, ?eqb_refl by done; done.
Qed.

(** Merging never loses a capability: it fails exactly on a foreign
    namespace, otherwise it keeps the namespace, ends at the stronger of
    the two capabilities, reports a change exactly for a read-only
    capability merged with a writable one, and is idempotent. *)
Theorem Capability_merge_spec (self other : Capability) :
  match Capability_merge self other with
  | Ok (changed, c) =>
      Capability_id other = Capability_id self
      ∧ Capability_id c = Capability_id self
      ∧ cap_rank c = max (cap_rank self) (cap_rank other)
      ∧ changed = (cap_rank self <? cap_rank other)
      ∧ Capability_merge c other = Ok (false, c)
  | Err NamespaceMismatch => Capability_id other ≠ Capability_id self
  | Panic => False
  end.
Proof. apply Capability_merge_cases. Qed.

Lemma Capability_from_to_raw `{!CryptoOk} (c : Capability) :
  Capability_from_raw (Capability_raw c).1 (Capability_raw c).2 = Some c.
Proof.
  destruct c as [[sk]|id]; cbn; [|done].
  unfold NamespaceSecret_from_bytes, NamespaceSecret_to_bytes. simpl.
  by rewrite sk_from_to.
Qed.

(** The stored form of a capability reads back as the capability, and
    only the two kind bytes are accepted. *)
Theorem Capability_raw_roundtrip `{!CryptoOk} (c : Capability) :
  Capability_from_raw (Capability_raw c).1 (Capability_raw c).2 = Some c
  ∧ ∀ kind b, is_Some (Capability_from_raw kind b) ↔ kind = 1%N ∨ kind = 2%N.
Proof.
  split.
  - apply Capability_from_to_raw.
  - intros kind b. unfold Capability_from_raw, kind_of_u8.
    destruct (N.eqb_spec kind 1) as [->|]; [simpl; split; eauto|].
    destruct (N.eqb_spec kind 2) as [->|]; [simpl; split; eauto|].
    simpl. split; [by intros []|tauto].
Qed.
End keys.

(** ** An implementation of [Crypto] that computes

    A signature is the signer's key written twice, a digest is the reversed text cut
    or padded to 32 bytes; every law of [CryptoOk] holds. *)
Fixpoint pad (n : nat) (l : bytes) : arr n :=
  match n with
  | O => [#]
  | S n' => match l with [] => vcons x00 (pad n' []) | b :: l' => vcons b (pad n' l') end
  end.

#[export, refine] Instance toy_crypto : Crypto := {
  SecretKey := arr32;
  PublicKey := arr32;
  blake3_hash l := pad 32 (reverse l);
  Hash_EMPTY := pad 32 [];
  sk_from_bytes b := b;
  sk_to_bytes b := b;
  sk_public b := b;
  sk_sign sk m := pad 64 (vec_to_list sk ++ vec_to_list sk);
  pk_as_bytes b := b;
  pk_from_bytes b := Some b;
  pk_verify pk m s := eqb s (pad 64 (vec_to_list pk ++ vec_to_list pk));
}.
Proof. Defined.

#[export] Instance toy_crypto_ok : CryptoOk.
Proof.
  split; try done; simpl.
  - intros b pk [= ->]. done.
  - intros. apply eqb_refl.
Qed.

Lemma mem_public_key_transparent_witness :
  (mem_public_key ∅ (arr_rep 32 x07)).1 = pk_from_bytes (arr_rep 32 x07).
Proof.
  exact (proj1 (mem_public_key_transparent ∅ (arr_rep 32 x07) cache_wf_empty)).
Defined.

Lemma Capability_raw_roundtrip_witness :
  Capability_from_raw 1 (arr_rep 32 x07) =
    Some (CapWrite (NamespaceSecret_from_bytes (arr_rep 32 x07))).
Proof.
  exact (proj1 (Capability_raw_roundtrip
    (CapWrite (NamespaceSecret_from_bytes (arr_rep 32 x07))))).
Defined.
