(* ===== verification/Entry.v ===== *)
(** * Records, identifiers and signed entries

    Models the data part of [src/sync.rs]: [Record], [RecordIdentifier],
    [Entry], [EntrySignature], [SignedEntry], [RejectId], their orders,
    their canonical bytes, signing and verification. *)
From S2P Require Import Prelude Keys.

(** ** [RecordIdentifier]

    The source keeps one byte string of at least 64 bytes (namespace,
    author, key); the record below is that string cut at 32 and 64.
    [ri_bytes] is the string, [record_identifier_from_bytes] the only way
    in from outside, and the accessors of the source are slices of the
    string ([ri_namespace_slice] and its siblings). *)
Record RecordIdentifier := {
  ri_namespace : NamespaceId;
  ri_author : AuthorId;
  ri_key : bytes;
}.

Definition RecordIdentifier_new (ns : NamespaceId) (author : AuthorId) (key : bytes)
    : RecordIdentifier :=
  {| ri_namespace := ns; ri_author := author; ri_key := key |}.

(** [as_bytes] / [as_ref]. *)
Definition ri_bytes (id : RecordIdentifier) : bytes :=
  vec_to_list (ri_namespace id) ++ vec_to_list (ri_author id) ++ ri_key id.

Definition ID_HEAD_BYTES : nat := 64.

Inductive DeserError := InvalidLength (n : nat).

Definition record_identifier_from_bytes (b : bytes) : result DeserError RecordIdentifier :=
  if length b <? ID_HEAD_BYTES then Err (InvalidLength (length b))
  else match arr_of 32 (take 32 b), arr_of 32 (take 32 (drop 32 b)) with
       | Some ns, Some author => Ok (RecordIdentifier_new ns author (drop 64 b))
       | _, _ => Panic
       end.

(** [self.0[a..b].try_into().unwrap()] on the raw bytes. *)
Definition ri_slice32 (from : nat) (b : bytes) : result DeserError arr32 :=
  if length b <? from + 32 then Panic
  else match arr_of 32 (take 32 (drop from b)) with Some v => Ok v | None => Panic end.

Definition ri_default : RecordIdentifier :=
  RecordIdentifier_new (arr_rep 32 x00) (arr_rep 32 x00) [].

#[export] Instance RecordIdentifier_cmp : Cmp RecordIdentifier :=
  λ x y, cmp (ri_bytes x) (ri_bytes y).
#[export] Instance RecordIdentifier_eq_dec : EqDecision RecordIdentifier.
Proof. solve_decision. Defined.

(** The tables of the store order their keys field by field. *)
Abbreviation RecordsId := (arr32 * arr32 * bytes)%type.
Definition ri_byte_tuple (id : RecordIdentifier) : RecordsId :=
  (ri_namespace id, ri_author id, ri_key id).
Definition ri_of_tuple (t : RecordsId) : RecordIdentifier :=
  RecordIdentifier_new t.1.1 t.1.2 t.2.

(** ** [Record] *)
Record DocRecord := {
  r_len : N;
  r_hash : Hash;
  r_timestamp : N;
}.
#[export] Instance DocRecord_eq_dec : EqDecision DocRecord.
Proof. solve_decision. Defined.

(** Ordering for entry values: the timestamp, then the content hash. *)
#[export] Instance DocRecord_cmp : Cmp DocRecord := λ x y,
  cmp_then (cmp (r_timestamp x) (r_timestamp y)) (cmp (r_hash x) (r_hash y)).

Record Entry := { e_id : RecordIdentifier; e_record : DocRecord }.
#[export] Instance Entry_eq_dec : EqDecision Entry.
Proof. solve_decision. Defined.

#[export] Instance Entry_cmp : Cmp Entry := λ x y,
  cmp_then (cmp (e_id x) (e_id y)) (cmp (e_record x) (e_record y)).

Record EntrySignature := { author_signature : arr64; namespace_signature : arr64 }.
#[export] Instance EntrySignature_eq_dec : EqDecision EntrySignature.
Proof. solve_decision. Defined.

Record SignedEntry := { se_signature : EntrySignature; se_entry : Entry }.
#[export] Instance SignedEntry_eq_dec : EqDecision SignedEntry.
Proof. solve_decision. Defined.
#[export] Instance SignedEntry_cmp : Cmp SignedEntry := λ x y, cmp (se_entry x) (se_entry y).

Definition Entry_namespace (e : Entry) : NamespaceId := ri_namespace (e_id e).
Definition Entry_author (e : Entry) : AuthorId := ri_author (e_id e).
Definition Entry_key (e : Entry) : bytes := ri_key (e_id e).
Definition Entry_content_hash (e : Entry) : Hash := r_hash (e_record e).
Definition Entry_content_len (e : Entry) : N := r_len (e_record e).
Definition Entry_timestamp (e : Entry) : N := r_timestamp (e_record e).

Definition se_id (e : SignedEntry) : RecordIdentifier := e_id (se_entry e).
Definition se_record (e : SignedEntry) : DocRecord := e_record (se_entry e).
Definition se_namespace (e : SignedEntry) : NamespaceId := Entry_namespace (se_entry e).
Definition se_author (e : SignedEntry) : AuthorId := Entry_author (se_entry e).
Definition se_key (e : SignedEntry) : bytes := Entry_key (se_entry e).
Definition se_timestamp (e : SignedEntry) : N := Entry_timestamp (se_entry e).
Definition se_content_hash (e : SignedEntry) : Hash := Entry_content_hash (se_entry e).
Definition se_content_len (e : SignedEntry) : N := Entry_content_len (se_entry e).

(** ** Canonical bytes *)
Definition RecordIdentifier_encode (id : RecordIdentifier) (out : bytes) : bytes :=
  out ++ ri_bytes id.
Definition DocRecord_encode (r : DocRecord) (out : bytes) : bytes :=
  out ++ u64_bytes (r_len r) ++ vec_to_list (r_hash r) ++ u64_bytes (r_timestamp r).
Definition Entry_encode (e : Entry) (out : bytes) : bytes :=
  DocRecord_encode (e_record e) (RecordIdentifier_encode (e_id e) out).
Definition Entry_to_vec (e : Entry) : bytes := Entry_encode e [].

(** The identity of a refused entry, echoed to its sender. *)
Record RejectId := {
  rj_author : AuthorId;
  rj_key : bytes;
  rj_timestamp : N;
  rj_content_hash : Hash;
}.
#[export] Instance RejectId_eq_dec : EqDecision RejectId.
Proof. solve_decision. Defined.

Definition se_reject_id (e : SignedEntry) : RejectId := {|
  rj_author := se_author e;
  rj_key := se_key e;
  rj_timestamp := se_timestamp e;
  rj_content_hash := se_content_hash e;
|}.

Inductive ValidationFailure :=
| InvalidNamespace
| BadSignature
| TooFarInTheFuture
| InvalidEmptyEntry
| Unauthorized
| NotAdmitted.
#[export] Instance ValidationFailure_eq_dec : EqDecision ValidationFailure.
Proof. solve_decision. Defined.

Inductive SignedEntryVerifyError := VerifyKeyParsing | VerifySignature.

Section entries.
Context `{Crypto}.

(** [Record::new]: a debug build checks the length against the hash; the
    rest of the library models a release build, where the constructor
    always succeeds ([DocRecord_new_release]). *)
Definition DocRecord_new (debug_assertions : bool) (hash : Hash) (len ts : N)
    : result DeserError DocRecord :=
  if debug_assertions && negb (negb (len =? 0)%N || eqb hash Hash_EMPTY) then Panic
  else Ok {| r_len := len; r_hash := hash; r_timestamp := ts |}.
Definition DocRecord_empty (ts : N) : DocRecord :=
  {| r_len := 0; r_hash := Hash_EMPTY; r_timestamp := ts |}.
Definition DocRecord_is_empty (r : DocRecord) : bool := eqb (r_hash r) Hash_EMPTY.
Definition se_is_empty (e : SignedEntry) : bool := DocRecord_is_empty (se_record e).

Definition Entry_new_empty (id : RecordIdentifier) (now : N) : Entry :=
  {| e_id := id; e_record := DocRecord_empty now |}.

Definition Entry_validate_empty (e : Entry) : result ValidationFailure unit :=
  match eqb (Entry_content_hash e) Hash_EMPTY, (Entry_content_len e =? 0)%N with
  | true, true => Ok tt
  | false, false => Ok tt
  | true, false => Err InvalidEmptyEntry
  | false, true => Err InvalidEmptyEntry
  end.

(** ** Signing and verification *)
Definition EntrySignature_from_entry (e : Entry) (ns : NamespaceSecret) (author : Author)
    : EntrySignature :=
  let b := Entry_to_vec e in
  {| author_signature := Author_sign author b;
     namespace_signature := NamespaceSecret_sign ns b |}.

Definition EntrySignature_verify (s : EntrySignature) (e : Entry)
    (ns : NamespacePublicKey) (author : AuthorPublicKey) : bool :=
  let b := Entry_to_vec e in
  NamespacePublicKey_verify ns b (namespace_signature s)
  && AuthorPublicKey_verify author b (author_signature s).

Definition SignedEntry_from_entry (e : Entry) (ns : NamespaceSecret) (author : Author)
    : SignedEntry :=
  {| se_signature := EntrySignature_from_entry e ns author; se_entry := e |}.

Definition SignedEntry_from_parts (ns : NamespaceSecret) (author : Author) (key : bytes)
    (r : DocRecord) : SignedEntry :=
  let id := RecordIdentifier_new (NamespaceSecret_id ns) (Author_id author) key in
  SignedEntry_from_entry {| e_id := id; e_record := r |} ns author.

Definition SignedEntry_verify (public_key : arr32 → option PublicKey) (e : SignedEntry)
    : result SignedEntryVerifyError unit :=
  match namespace_key public_key (se_namespace e) with
  | None => Err VerifyKeyParsing
  | Some ns =>
      match author_key public_key (se_author e) with
      | None => Err VerifyKeyParsing
      | Some author =>
          if EntrySignature_verify (se_signature e) (se_entry e) ns author
          then Ok tt else Err VerifySignature
      end
  end.

(** [SignedEntry::as_fingerprint]: the bytes hashed, and the digest. *)
Definition se_fingerprint_input (e : SignedEntry) : bytes :=
  vec_to_list (se_namespace e) ++ vec_to_list (se_author e) ++ se_key e
  ++ u64_bytes (se_timestamp e) ++ vec_to_list (se_content_hash e).
Definition se_fingerprint (e : SignedEntry) : arr32 := blake3_hash (se_fingerprint_input e).
End entries.

Lemma DocRecord_new_release `{Crypto} hash len ts :
  DocRecord_new false hash len ts = Ok {| r_len := len; r_hash := hash; r_timestamp := ts |}.
Proof. done. Qed.

(** ** Orders *)
Lemma list_cmp_app_same {A} `{CmpOk A} (l k m : list A) :
  cmp (l ++ k) (l ++ m) = cmp k m.
Proof.
  induction l as [|x l IH]; simpl; [done|].
  change (cmp_then (cmp x x) (cmp (l ++ k) (l ++ m)) = cmp k m).
  by rewrite cmp_refl.
Qed.

Lemma list_cmp_app_len {A} `{CmpOk A} (l l' k k' : list A) :
  length l = length l' →
  cmp (l ++ k) (l' ++ k') = cmp_then (cmp l l') (cmp k k').
Proof.
  revert l'. induction l as [|x l IH]; intros [|y l'] Hlen; simplify_eq/=; [done|].
  change (cmp_then (cmp x y) (cmp (l ++ k) (l' ++ k')) =
    cmp_then (cmp_then (cmp x y) (cmp l l')) (cmp k k')).
  rewrite IH by done. by destruct (cmp x y).
Qed.

Lemma ri_cmp_tuple (x y : RecordIdentifier) :
  cmp x y = cmp (ri_byte_tuple x) (ri_byte_tuple y).
Proof.
  change (cmp (ri_bytes x) (ri_bytes y) =
    cmp_then (cmp_then (cmp (ri_namespace x) (ri_namespace y))
      (cmp (ri_author x) (ri_author y))) (cmp (ri_key x) (ri_key y))).
  unfold ri_bytes. rewrite !list_cmp_app_len by (by rewrite !length_vec_to_list).
  by destruct (cmp (ri_namespace x) (ri_namespace y)) eqn:Hn; unfold cmp, arr_cmp in Hn; rewrite Hn.
Qed.

Lemma ri_of_to_tuple (id : RecordIdentifier) : ri_of_tuple (ri_byte_tuple id) = id.
Proof. by destruct id. Qed.
Lemma ri_to_of_tuple (t : RecordsId) : ri_byte_tuple (ri_of_tuple t) = t.
Proof. by destruct t as [[??]?]. Qed.

#[export] Instance RecordIdentifier_cmp_ok : CmpOk RecordIdentifier.
Proof.
  split.
  - intros x y. rewrite ri_cmp_tuple, cmp_eq. split; [|by intros ->].
    intros Heq. by rewrite <- (ri_of_to_tuple x), <- (ri_of_to_tuple y), Heq.
  - intros x y. rewrite !ri_cmp_tuple. apply cmp_antisym.
  - intros x y z. rewrite !ri_cmp_tuple. apply cmp_trans.
Qed.

(** The byte order the reconciliation uses on identifiers is the field
    order (namespace, author, key) in which the record table keeps its
    rows. *)
Theorem record_identifier_order (x y : RecordIdentifier) :
  cmp x y = cmp (ri_byte_tuple x) (ri_byte_tuple y)
  ∧ (cmp x y = Eq ↔ x = y).
Proof. split; [apply ri_cmp_tuple|apply cmp_eq]. Qed.

(** Identifiers enter from outside exactly when they carry the 64-byte
    head: bytes of an identifier parse back to it, what parses prints back
    to the same bytes, shorter input is refused with its length, and the
    unchecked slices every accessor takes are then always in range. *)
Theorem record_identifier_bytes (b : bytes) (id : RecordIdentifier) :
  record_identifier_from_bytes (ri_bytes id) = Ok id
  ∧ (record_identifier_from_bytes b = Ok id ↔ b = ri_bytes id)
  ∧ (record_identifier_from_bytes b = Err (InvalidLength (length b)) ↔ length b < 64)
  ∧ record_identifier_from_bytes b ≠ Panic
  ∧ ri_slice32 0 (ri_bytes id) = Ok (ri_namespace id)
  ∧ ri_slice32 32 (ri_bytes id) = Ok (ri_author id)
  ∧ drop 64 (ri_bytes id) = ri_key id.
Proof.
  assert (∀ i, take 32 (ri_bytes i) = vec_to_list (ri_namespace i)) as Hns.
  { intros i. unfold ri_bytes.
    rewrite <- (length_vec_to_list (ri_namespace i)) at 1. by rewrite take_app_length. }
  assert (∀ i, drop 32 (ri_bytes i) = vec_to_list (ri_author i) ++ ri_key i) as Hd32.
  { intros i. unfold ri_bytes.
    rewrite <- (length_vec_to_list (ri_namespace i)) at 1. by rewrite drop_app_length. }
  assert (∀ i, take 32 (drop 32 (ri_bytes i)) = vec_to_list (ri_author i)) as Hau.
  { intros i. rewrite Hd32.
    rewrite <- (length_vec_to_list (ri_author i)) at 1. by rewrite take_app_length. }
  assert (∀ i, drop 64 (ri_bytes i) = ri_key i) as Hkey.
  { intros i. change 64 with (32 + 32). rewrite <- drop_drop, Hd32.
    rewrite <- (length_vec_to_list (ri_author i)) at 1. by rewrite drop_app_length. }
  assert (∀ i, length (ri_bytes i) = 64 + length (ri_key i)) as Hlen.
  { intros i. unfold ri_bytes. rewrite !length_app, !length_vec_to_list. lia. }
  assert (∀ i, record_identifier_from_bytes (ri_bytes i) = Ok i) as Hrt.
  { intros i. unfold record_identifier_from_bytes.
    rewrite (proj2 (Nat.ltb_ge _ _)) by (rewrite Hlen; unfold ID_HEAD_BYTES; lia).
    rewrite Hns, Hau, !arr_of_to, Hkey. by destruct i. }
  split_and!; [apply Hrt| | | | | |apply Hkey].
  - split; [|by intros ->]. unfold record_identifier_from_bytes.
    destruct (length b <? ID_HEAD_BYTES); [done|].
    destruct (arr_of 32 (take 32 b)) as [ns|] eqn:Hn; [|done].
    destruct (arr_of 32 (take 32 (drop 32 b))) as [au|] eqn:Ha; [|done].
    intros [= <-]. unfold ri_bytes. simpl.
    apply arr_of_Some in Hn as ->. apply arr_of_Some in Ha as ->.
    change 64 with (32 + 32). rewrite <- drop_drop. by rewrite !take_drop.
  - unfold record_identifier_from_bytes.
    destruct (Nat.ltb_spec (length b) ID_HEAD_BYTES) as [Hlt|Hge].
    + split; [done|]. intros _. done.
    + unfold ID_HEAD_BYTES in Hge. split; [|lia].
      destruct (arr_of 32 (take 32 b)), (arr_of 32 (take 32 (drop 32 b))); done.
  - unfold record_identifier_from_bytes.
    destruct (Nat.ltb_spec (length b) ID_HEAD_BYTES) as [Hlt|Hge]; [done|].
    unfold ID_HEAD_BYTES in Hge.
    destruct (proj2 (arr_of_is_Some 32 (take 32 b))) as [ns ->].
    { rewrite length_take. lia. }
    destruct (proj2 (arr_of_is_Some 32 (take 32 (drop 32 b)))) as [au ->]; [|done].
    rewrite length_take, length_drop. lia.
  - unfold ri_slice32. rewrite (proj2 (Nat.ltb_ge _ _)) by (rewrite Hlen; lia).
    by rewrite drop_0, Hns, arr_of_to.
  - unfold ri_slice32. rewrite (proj2 (Nat.ltb_ge _ _)) by (rewrite Hlen; lia).
    by rewrite Hau, arr_of_to.
Qed.

Lemma DocRecord_cmp_tuple (x y : DocRecord) :
  cmp x y = cmp (r_timestamp x, r_hash x) (r_timestamp y, r_hash y).
Proof. done. Qed.

Lemma DocRecord_cmp_antisym (x y : DocRecord) : cmp y x = CompOpp (cmp x y).
Proof. rewrite !DocRecord_cmp_tuple. apply cmp_antisym. Qed.

Lemma DocRecord_leb_trans (x y z : DocRecord) :
  leb x y = true → leb y z = true → leb x z = true.
Proof.
  unfold leb. rewrite !DocRecord_cmp_tuple.
  set (a := (r_timestamp x, r_hash x)). set (b := (r_timestamp y, r_hash y)).
  set (c := (r_timestamp z, r_hash z)).
  destruct (cmp a b) eqn:Hab; [|intros _|done].
  - apply cmp_eq in Hab as ->. done.
  - destruct (cmp b c) eqn:Hbc; [|intros _|done].
    + apply cmp_eq in Hbc as <-. by rewrite Hab.
    + by rewrite (cmp_trans a b c).
Qed.

(** ** The signed bytes determine the entry *)
Definition record_wf (r : DocRecord) : Prop :=
  (r_len r < u64_max)%N ∧ (r_timestamp r < u64_max)%N.

Lemma app_inj_len_r {A} (l k l' k' : list A) :
  length k = length k' → l ++ k = l' ++ k' → l = l' ∧ k = k'.
Proof. intros Hlen Heq. by apply app_inj_2. Qed.

Lemma Entry_to_vec_eq (e : Entry) :
  Entry_to_vec e = ri_bytes (e_id e) ++ u64_bytes (r_len (e_record e))
    ++ vec_to_list (r_hash (e_record e)) ++ u64_bytes (r_timestamp (e_record e)).
Proof. done. Qed.

(** The canonical encoding signed by author and namespace is
    unambiguous: two entries with 64-bit lengths and timestamps that encode
    to the same bytes are the same entry, so one signature never covers two
    entries. *)
Theorem Entry_to_vec_inj (e e' : Entry) :
  record_wf (e_record e) → record_wf (e_record e') →
  Entry_to_vec e = Entry_to_vec e' → e = e'.
Proof.
  intros [Hl Ht] [Hl' Ht'] Heq. rewrite !Entry_to_vec_eq in Heq.
  apply app_inj_len_r in Heq as [Hid Heq].
  2: { rewrite !length_app. unfold u64_bytes. by rewrite !length_be_bytes, !length_vec_to_list. }
  apply app_inj_1 in Heq as [Hlen Heq]; [|unfold u64_bytes; by rewrite !length_be_bytes].
  apply app_inj_1 in Heq as [Hhash Hts]; [|by rewrite !length_vec_to_list].
  apply u64_bytes_inj in Hlen; [|done|done]. apply u64_bytes_inj in Hts; [|done|done].
  apply vec_to_list_inj2 in Hhash.
  destruct e as [id [len hash ts]], e' as [id' [len' hash' ts']]; simpl in *.
  subst. f_equal. apply (proj1 (cmp_eq id id')).
  unfold cmp, RecordIdentifier_cmp. rewrite Hid. apply cmp_refl.
Qed.

Section sign_facts.
Context `{CryptoOk}.

Lemma from_parts_verifies (ns : NamespaceSecret) (a : Author) (key : bytes) (r : DocRecord) :
  SignedEntry_verify pk_from_bytes (SignedEntry_from_parts ns a key r) = Ok tt.
Proof.
  unfold SignedEntry_verify, SignedEntry_from_parts, se_namespace, se_author, Entry_namespace,
    Entry_author. simpl.
  unfold namespace_key, author_key, NamespaceSecret_id, Author_id. rewrite !pk_from_as. simpl.
  unfold EntrySignature_verify, NamespacePublicKey_verify, AuthorPublicKey_verify. simpl.
  unfold NamespaceSecret_sign, Author_sign. by rewrite !verify_sign.
Qed.

(** What a holder of both secrets signs verifies: an entry built for
    a namespace and an author with their secret keys passes verification
    against the public keys its own identifier names. *)
Theorem signed_entry_verifies (ns : NamespaceSecret) (a : Author) (key : bytes) (r : DocRecord) :
  SignedEntry_verify pk_from_bytes (SignedEntry_from_parts ns a key r) = Ok tt.
Proof. apply from_parts_verifies. Qed.
End sign_facts.

Definition demo_entry (k : byte) (ts : N) : Entry := {|
  e_id := RecordIdentifier_new (arr_rep 32 x01) (arr_rep 32 x02) [k];
  e_record := {| r_len := 3; r_hash := arr_rep 32 x09; r_timestamp := ts |};
|}.

Definition demo_signed (k : byte) (ts : N) : SignedEntry :=
  SignedEntry_from_entry (demo_entry k ts)
    (NamespaceSecret_from_bytes (arr_rep 32 x01)) (Author_from_bytes (arr_rep 32 x02)).

Lemma Entry_to_vec_inj_witness :
  Entry_to_vec (demo_entry x41 7) = Entry_to_vec (demo_entry x41 7) ∧
  demo_entry x41 7 = demo_entry x41 7.
Proof.
  split; [done|].
  apply (Entry_to_vec_inj (demo_entry x41 7) (demo_entry x41 7)); [done|done|done].
Defined.

Lemma signed_entry_verifies_witness :
  SignedEntry_verify pk_from_bytes (SignedEntry_from_parts
    (NamespaceSecret_from_bytes (arr_rep 32 x01)) (Author_from_bytes (arr_rep 32 x02))
    [x41] (DocRecord_empty 5)) = Ok tt.
Proof. apply signed_entry_verifies. Defined.
