(* ===== verification/Heads.v ===== *)
(** * Author heads

    Models [src/heads.rs]: the latest timestamp per author, its merge, the
    news comparison that drives a sync after a report, and the size-limited
    encoding of a report.  [postcard] is a parameter: a serializer of lists
    of (timestamp, author) pairs with its size and its parser. *)
From S2P Require Import Prelude Keys.

Abbreviation AuthorHeads := (gmap arr32 N).

(** [postcard::to_stdvec], [postcard::from_bytes] and
    [postcard::experimental::serialized_size] at one type. *)
Class Postcard (A : Type) := {
  pc_to_stdvec : A → bytes;
  pc_from_bytes : bytes → option A;
  pc_size : A → nat;
}.
Class PostcardOk (A : Type) `{Postcard A} : Prop := {
  pc_roundtrip : ∀ x : A, pc_from_bytes (pc_to_stdvec x) = Some x;
  pc_size_length : ∀ x : A, pc_size x = length (pc_to_stdvec x);
}.

Definition heads_insert (author : AuthorId) (ts : N) (h : AuthorHeads) : AuthorHeads :=
  match h !! author with
  | Some t => <[author := N.max t ts]> h
  | None => <[author := ts]> h
  end.

Definition heads_get (author : AuthorId) (h : AuthorHeads) : option N := h !! author.
Definition heads_len (h : AuthorHeads) : nat := size h.
Definition heads_is_empty (h : AuthorHeads) : bool := heads_len h =? 0.
Definition heads_iter (h : AuthorHeads) : list (AuthorId * N) := btree_iter h.

(** [AuthorHeads::has_news_for]: the number of authors we are ahead on. *)
Definition ahead (other : AuthorHeads) (p : AuthorId * N) : bool :=
  match heads_get p.1 other with Some theirs => (theirs <? p.2)%N | None => true end.
Definition has_news_for (self other : AuthorHeads) : option nat :=
  let updates := foldl (λ n p, if ahead other p then S n else n) 0 (heads_iter self) in
  if updates =? 0 then None else Some updates.

Definition heads_merge (self other : AuthorHeads) : AuthorHeads :=
  foldl (λ h p, heads_insert p.1 p.2 h) self (heads_iter other).

(** ** Encoding *)
Section encoding.
Context `{Postcard (list (N * AuthorId))}.

Definition by_timestamp (self : AuthorHeads) : gmap N AuthorId :=
  foldl (λ m p, <[p.2 := p.1]> m) ∅ (heads_iter self).

(** The loop over [by_timestamp.into_iter().rev()]. *)
Fixpoint encode_items (limit : option nat) (items : list (N * AuthorId))
    (todo : list (N * AuthorId)) : list (N * AuthorId) :=
  match todo with
  | [] => items
  | p :: todo' =>
      let items' := items ++ [p] in
      match limit with
      | Some l => if l <? pc_size items' then items else encode_items limit items' todo'
      | None => encode_items limit items' todo'
      end
  end.

Definition heads_encode (self : AuthorHeads) (limit : option nat) : bytes :=
  pc_to_stdvec (encode_items limit [] (reverse (btree_iter (by_timestamp self)))).

Definition heads_decode (b : bytes) : option AuthorHeads :=
  items ← pc_from_bytes b;
  Some (foldl (λ h (p : N * AuthorId), heads_insert p.2 p.1 h) ∅ items).
End encoding.

(** ** Lookups *)
Definition opt_max (x y : option N) : option N := union_with (λ a b, Some (N.max a b)) x y.

Lemma heads_insert_lookup a ts h b :
  heads_insert a ts h !! b = if decide (a = b) then opt_max (h !! b) (Some ts) else h !! b.
Proof.
  unfold heads_insert. destruct (decide (a = b)) as [->|Hne].
  - destruct (h !! b) as [t|] eqn:Hb; by rewrite lookup_insert_eq.
  - by destruct (h !! a); rewrite lookup_insert_ne.
Qed.

Lemma opt_max_assoc x y z : opt_max x (opt_max y z) = opt_max (opt_max x y) z.
Proof. destruct x, y, z; simpl; try done. unfold opt_max; simpl. f_equal. lia. Qed.
Lemma opt_max_comm x y : opt_max x y = opt_max y x.
Proof. destruct x, y; simpl; try done. unfold opt_max; simpl. f_equal. lia. Qed.
Lemma opt_max_idemp x : opt_max x x = x.
Proof. destruct x; simpl; try done. unfold opt_max; simpl. f_equal. lia. Qed.
Lemma opt_max_None_r x : opt_max x None = x.
Proof. by destruct x. Qed.

Lemma fold_insert_lookup (l : list (AuthorId * N)) (h : AuthorHeads) b :
  NoDup l.*1 →
  foldl (λ h p, heads_insert p.1 p.2 h) h l !! b
    = opt_max (h !! b) ((list_to_map l : AuthorHeads) !! b).
Proof.
  revert h. induction l as [|[a ts] l IH]; intros h Hnd.
  { simpl. by rewrite lookup_empty, opt_max_None_r. }
  simpl in Hnd. apply NoDup_cons in Hnd as [Hnin Hnd].
  simpl. rewrite IH by done. rewrite heads_insert_lookup.
  destruct (decide (a = b)) as [->|Hne]; simpl.
  - rewrite lookup_insert_eq, (not_elem_of_list_to_map_1 l b) by done.
    by rewrite opt_max_None_r.
  - by rewrite lookup_insert_ne.
Qed.

Lemma list_to_map_iter (h : AuthorHeads) : list_to_map (heads_iter h) = h.
Proof.
  unfold heads_iter. rewrite (list_to_map_proper _ (map_to_list h)).
  - apply list_to_map_to_list.
  - apply btree_iter_NoDup.
  - apply btree_iter_perm.
Qed.

Lemma heads_merge_lookup self other b :
  heads_merge self other !! b = opt_max (self !! b) (other !! b).
Proof.
  unfold heads_merge. rewrite fold_insert_lookup by apply btree_iter_NoDup.
  by rewrite list_to_map_iter.
Qed.

(** Merging author heads is the pointwise maximum, hence commutative,
    associative and idempotent: replicas that exchange heads in any order
    and any number of times end with the same heads. *)
Theorem heads_merge_join (x y z : AuthorHeads) :
  (∀ a, heads_merge x y !! a = opt_max (x !! a) (y !! a))
  ∧ heads_merge x y = heads_merge y x
  ∧ heads_merge x (heads_merge y z) = heads_merge (heads_merge x y) z
  ∧ heads_merge x x = x.
Proof.
  split; [apply heads_merge_lookup|].
  split_and!; apply map_eq; intros a; rewrite !heads_merge_lookup.
  - apply opt_max_comm.
  - apply opt_max_assoc.
  - apply opt_max_idemp.
Qed.

(** Heads [x] tell nothing new to [y]. *)
Definition heads_le (x y : AuthorHeads) : Prop :=
  ∀ a t, x !! a = Some t → ∃ t', y !! a = Some t' ∧ (t <= t')%N.

Lemma count_fold other (l : list (AuthorId * N)) n :
  foldl (λ n p, if ahead other p then S n else n) n l = n + length (List.filter (ahead other) l).
Proof.
  revert n. induction l as [|p l IH]; intros n; simpl; [lia|].
  rewrite IH. destruct (ahead other p); simpl; lia.
Qed.

Lemma has_news_count self other :
  has_news_for self other =
    match length (List.filter (ahead other) (heads_iter self)) with
    | 0 => None | S n => Some (S n) end.
Proof.
  unfold has_news_for. rewrite count_fold. simpl.
  by destruct (length (List.filter (ahead other) (heads_iter self))).
Qed.

Lemma has_news_None (self o : AuthorHeads) : has_news_for self o = None ↔ heads_le self o.
Proof.
  rewrite has_news_count. split.
  - intros Hz a t Ha.
    destruct (List.filter (ahead o) (heads_iter self)) as [|q l] eqn:Hf; [|done].
    destruct (ahead o (a, t)) eqn:Hah.
    + apply elem_of_btree_iter in Ha.
      assert ((a, t) ∈ List.filter (ahead o) (heads_iter self)) as Hin
        by (by apply elem_of_filter_list).
      rewrite Hf in Hin. by apply elem_of_nil in Hin.
    + unfold ahead, heads_get in Hah. simpl in Hah.
      destruct (o !! a) as [t'|]; [|done]. exists t'. split; [done|].
      apply N.ltb_ge in Hah. lia.
  - intros Hle.
    destruct (List.filter (ahead o) (heads_iter self)) as [|[a t] l] eqn:Hf; [done|].
    assert ((a, t) ∈ List.filter (ahead o) (heads_iter self)) as Hin
      by (rewrite Hf; left).
    apply elem_of_filter_list in Hin as [Hin Hah].
    apply elem_of_btree_iter in Hin. destruct (Hle a t Hin) as (t' & Ht' & Hlt).
    unfold ahead, heads_get in Hah. simpl in Hah. rewrite Ht' in Hah.
    apply N.ltb_lt in Hah. lia.
Qed.

(** [has_news_for] reports news exactly when some author's head is
    missing on the other side or older there, counts the authors that are
    ahead, and reports none once the heads have been merged. *)
Theorem has_news_for_spec (self other : AuthorHeads) :
  (has_news_for self other = None ↔ heads_le self other)
  ∧ (∀ n, has_news_for self other = Some n →
       n = length (List.filter (ahead other) (heads_iter self)))
  ∧ has_news_for self (heads_merge other self) = None.
Proof.
  split_and!; [apply has_news_None| |].
  - intros n. rewrite has_news_count.
    destruct (length (List.filter (ahead other) (heads_iter self))) eqn:Hl; [done|].
    by intros [= <-].
  - apply has_news_None. intros a t Ha. rewrite heads_merge_lookup, Ha.
    destruct (other !! a) as [t'|]; simpl; eexists; (split; [done|lia]).
Qed.

(** ** What the encoding keeps *)
Definition distinct_ts (h : AuthorHeads) : Prop :=
  ∀ a b t, h !! a = Some t → h !! b = Some t → a = b.

Lemma fold_ts_lookup (l : list (AuthorId * N)) (m : gmap N AuthorId) t a :
  foldl (λ m p, <[p.2 := p.1]> m) m l !! t = Some a → (a, t) ∈ l ∨ m !! t = Some a.
Proof.
  revert m. induction l as [|[b u] l IH]; intros m; simpl; [tauto|].
  intros [Hin|Hm]%IH; [left; by right|].
  destruct (decide (u = t)) as [->|Hne].
  - rewrite lookup_insert_eq in Hm. injection Hm as ->. left. left.
  - rewrite lookup_insert_ne in Hm by done. by right.
Qed.

Lemma fold_ts_lookup_inv (l : list (AuthorId * N)) (m : gmap N AuthorId) t a :
  (∀ b, (b, t) ∈ l → b = a) → (a, t) ∈ l ∨ m !! t = Some a →
  foldl (λ m p, <[p.2 := p.1]> m) m l !! t = Some a.
Proof.
  revert m. induction l as [|[b u] l IH]; intros m Hu Hin; simpl.
  { destruct Hin as [Hin|?]; [by apply elem_of_nil in Hin|done]. }
  apply IH.
  { intros c Hc. apply Hu. by right. }
  destruct (decide (u = t)) as [->|Hne].
  - right. rewrite lookup_insert_eq. f_equal. apply Hu. left.
  - rewrite lookup_insert_ne by done.
    destruct Hin as [[[= -> ->]|Hin]%elem_of_cons|Hm]; [done|by left|by right].
Qed.

Lemma by_timestamp_lookup_1 h t a : by_timestamp h !! t = Some a → h !! a = Some t.
Proof.
  intros [Hin|He]%fold_ts_lookup; [by apply elem_of_btree_iter|].
  by rewrite lookup_empty in He.
Qed.

Section encoding_facts.
Context `{PostcardOk (list (N * AuthorId))}.
Implicit Types items todo : list (N * AuthorId).

Lemma encode_items_prefix limit items todo :
  ∃ k, encode_items limit items todo = items ++ take k todo.
Proof.
  revert items. induction todo as [|p todo IH]; intros items; simpl.
  { exists 0. by rewrite app_nil_r. }
  destruct (IH (items ++ [p])) as [k Hk].
  assert (∃ k', encode_items limit (items ++ [p]) todo = items ++ take k' (p :: todo)) as Hrec.
  { exists (S k). rewrite Hk. simpl. by rewrite <- app_assoc. }
  destruct limit as [l|]; [|done].
  destruct (l <? pc_size (items ++ [p])); [|done].
  exists 0. by rewrite app_nil_r.
Qed.

Lemma encode_items_size l items todo :
  pc_size items ≤ l → pc_size (encode_items (Some l) items todo) ≤ l.
Proof.
  revert items. induction todo as [|p todo IH]; intros items Hle; simpl; [done|].
  destruct (Nat.ltb_spec l (pc_size (items ++ [p]))) as [|Hge]; [done|]. by apply IH.
Qed.

Lemma encode_items_all items todo : encode_items None items todo = items ++ todo.
Proof.
  revert items. induction todo as [|p todo IH]; intros items; simpl.
  - by rewrite app_nil_r.
  - rewrite IH. by rewrite <- app_assoc.
Qed.

Lemma fold_decode_lookup items (h : AuthorHeads) b t :
  foldl (λ h (p : N * AuthorId), heads_insert p.2 p.1 h) h items !! b = Some t →
  (t, b) ∈ items ∨ h !! b = Some t.
Proof.
  revert h. induction items as [|[u a] items IH]; intros h; simpl; [tauto|].
  intros [Hin|Hh]%IH; [left; by right|].
  rewrite heads_insert_lookup in Hh. destruct (decide (a = b)) as [->|]; [|by right].
  destruct (h !! b) as [v|]; simpl in Hh; injection Hh as <-.
  - destruct (N.max_spec v u) as [[_ ->]|[_ ->]]; [left; left|by right].
  - left. left.
Qed.

Lemma fold_decode_mono items (h : AuthorHeads) b t :
  (t, b) ∈ items ∨ (∃ u, h !! b = Some u ∧ (t <= u)%N) →
  ∃ u, foldl (λ h (p : N * AuthorId), heads_insert p.2 p.1 h) h items !! b = Some u ∧ (t <= u)%N.
Proof.
  revert h. induction items as [|[v a] items IH]; intros h Hin; simpl.
  { destruct Hin as [Hin|?]; [by apply elem_of_nil in Hin|done]. }
  apply IH. destruct Hin as [[[= -> ->]|Hin]%elem_of_cons|(u & Hu & Hle)].
  - right. rewrite heads_insert_lookup, decide_True by done.
    destruct (h !! a) as [w|]; simpl; eexists; (split; [done|lia]).
  - by left.
  - right. rewrite heads_insert_lookup. destruct (decide (a = b)) as [->|]; [|eauto].
    rewrite Hu. simpl. eexists. split; [done|lia].
Qed.

(** A report decodes to true heads: whatever the limit, every head
    it carries is a head of the sender, newer heads go in before older
    ones, and when the empty report fits the limit the report does. *)
Theorem heads_encode_sound (h : AuthorHeads) (limit : option nat) :
  ∃ h', heads_decode (heads_encode h limit) = Some h'
    ∧ h' ⊆ h
    ∧ (∀ a t b u, h' !! a = Some t → by_timestamp h !! u = Some b →
         h' !! b = None → (u < t)%N)
    ∧ (∀ l, limit = Some l → pc_size (@nil (N * AuthorId)) ≤ l →
         length (heads_encode h limit) ≤ l).
Proof.
  unfold heads_encode, heads_decode.
  destruct (encode_items_prefix limit [] (reverse (btree_iter (by_timestamp h)))) as [k Hk].
  set (items := encode_items limit [] _) in *. simpl in Hk.
  rewrite pc_roundtrip. simpl. eexists. split; [done|].
  assert (∀ t a, (t, a) ∈ items → by_timestamp h !! t = Some a) as Hsub.
  { intros t a Hin. rewrite Hk in Hin. apply elem_of_take in Hin as (i & Hi & _).
    apply list_elem_of_lookup_2, elem_of_reverse, elem_of_btree_iter in Hi. done. }
  split_and!.
  - apply map_subseteq_spec. intros a t [Hin|He]%fold_decode_lookup.
    + by apply by_timestamp_lookup_1, Hsub.
    + by rewrite lookup_empty in He.
  - intros a t b u [Hin|He]%fold_decode_lookup Hb Hnone; [|by rewrite lookup_empty in He].
    set (L := btree_iter (by_timestamp h)) in *.
    assert ((u, b) ∈ reverse L) as HinL by (by apply elem_of_reverse, elem_of_btree_iter).
    assert ((u, b) ∉ items) as Hnin.
    { intros Hi. destruct (fold_decode_mono items ∅ b u (or_introl Hi)) as (w & Hw & _).
      congruence. }
    rewrite Hk in Hin, Hnin.
    rewrite <- (take_drop k (reverse L)) in HinL.
    apply elem_of_app in HinL as [?|HinL]; [done|].
    assert (StronglySorted (key_lt fst) L) as Hs by apply btree_iter_sorted.
    rewrite <- (reverse_involutive L) in Hs.
    rewrite <- (take_drop k (reverse L)), reverse_app in Hs.
    assert (key_lt fst (u, b) (t, a)) as Hlt.
    { eapply StronglySorted_app_1_elem_of; [done| |]; by apply elem_of_reverse. }
    unfold key_lt in Hlt. simpl in Hlt. apply ltb_lt in Hlt.
    by apply N.compare_lt_iff in Hlt.
  - intros l -> Hle. rewrite <- pc_size_length. by apply encode_items_size.
Qed.

(** Encoding without a limit keeps every head exactly when no two
    authors have the same timestamp: the encoder goes through a map keyed
    by timestamp, so of authors that tie only one is reported. *)
Theorem heads_encode_lossless (h : AuthorHeads) :
  heads_decode (heads_encode h None) = Some h ↔ distinct_ts h.
Proof.
  unfold heads_encode, heads_decode. rewrite encode_items_all, pc_roundtrip. simpl.
  set (L := reverse (btree_iter (by_timestamp h))).
  assert (∀ t a, (t, a) ∈ L ↔ by_timestamp h !! t = Some a) as HL.
  { intros t a. unfold L. by rewrite elem_of_reverse, elem_of_btree_iter. }
  split.
  - intros [= Heq] a b t Ha Hb. rewrite <- Heq in Ha, Hb.
    apply fold_decode_lookup in Ha as [Ha|Ha]; [|by rewrite lookup_empty in Ha].
    apply fold_decode_lookup in Hb as [Hb|Hb]; [|by rewrite lookup_empty in Hb].
    apply HL in Ha, Hb. congruence.
  - intros Hd. f_equal. apply map_eq. intros a.
    assert (∀ t, h !! a = Some t → (t, a) ∈ L) as Hin.
    { intros t Ha. apply HL. apply fold_ts_lookup_inv.
      - intros b Hb%elem_of_btree_iter. by eapply Hd.
      - left. by apply elem_of_btree_iter. }
    assert (∀ t, (t, a) ∈ L → h !! a = Some t) as Hout.
    { intros t Ht%HL. by apply by_timestamp_lookup_1. }
    destruct (foldl _ ∅ L !! a) as [t|] eqn:Hf.
    + apply fold_decode_lookup in Hf as [Hf|Hf]; [|by rewrite lookup_empty in Hf].
      symmetry. by apply Hout.
    + destruct (h !! a) as [t|] eqn:Ha; [|done].
      destruct (fold_decode_mono L ∅ a t) as (u & Hu & _); [by left; apply Hin|].
      congruence.
Qed.
End encoding_facts.

(** ** A serializer that computes: one byte per bit of the numbering of the
    type *)
Fixpoint pos_to_bytes (p : positive) : bytes :=
  match p with
  | xH => []
  | xO p' => x00 :: pos_to_bytes p'
  | xI p' => x01 :: pos_to_bytes p'
  end.
Fixpoint pos_of_bytes (b : bytes) : option positive :=
  match b with
  | [] => Some xH
  | x00 :: b' => xO <$> pos_of_bytes b'
  | x01 :: b' => xI <$> pos_of_bytes b'
  | _ => None
  end.

Lemma pos_of_to_bytes (p : positive) : pos_of_bytes (pos_to_bytes p) = Some p.
Proof. induction p as [p IH|p IH|]; simpl; by rewrite ?IH. Qed.

Definition toy_postcard (A : Type) `{Countable A} : Postcard A := {|
  pc_to_stdvec x := pos_to_bytes (encode x);
  pc_from_bytes b := p ← pos_of_bytes b; decode p;
  pc_size x := length (pos_to_bytes (encode x));
|}.

Lemma toy_postcard_ok (A : Type) `{Countable A} : @PostcardOk A (toy_postcard A).
Proof.
  split; [|done]. intros x. simpl. rewrite pos_of_to_bytes. simpl. apply decode_encode.
Qed.

#[export] Instance heads_postcard : Postcard (list (N * AuthorId)) := toy_postcard _.
#[export] Instance heads_postcard_ok : PostcardOk (list (N * AuthorId)) := toy_postcard_ok _.

Definition demo_heads : AuthorHeads :=
  <[arr_rep 32 x01 := 7%N]> (<[arr_rep 32 x02 := 7%N]> ∅).

Lemma heads_encode_sound_witness :
  ∃ h', heads_decode (heads_encode demo_heads (Some 900)) = Some h' ∧ h' ⊆ demo_heads.
Proof.
  destruct (heads_encode_sound demo_heads (Some 900)) as (h' & Hd & Hs & _).
  exists h'. exact (conj Hd Hs).
Defined.

(** Two authors that tie: the report is lossy. *)
Lemma heads_encode_lossless_witness :
  heads_decode (heads_encode demo_heads None) ≠ Some demo_heads.
Proof.
  intros Hd%(proj1 (heads_encode_lossless demo_heads)).
  assert (arr_rep 32 x01 = arr_rep 32 x02) as Heq.
  { apply (Hd _ _ 7%N); [apply lookup_insert_eq|].
    unfold demo_heads. rewrite lookup_insert_ne by discriminate. apply lookup_insert_eq. }
  discriminate Heq.
Defined.
