(* ===== verification/Query.v ===== *)
(** * Download policies, filters and queries

    Models [src/store.rs] (download policies, key and author filters, the
    query builder and the query) and [src/store/util.rs] (the choice of an
    index for a query and the selector of the latest entry per key).
    Strings are their UTF-8 bytes; [hex] is another crate and a parameter. *)
From S2P Require Import Prelude Keys Entry.

(** ** UTF-8, as [String::from_utf8] checks it *)
Definition in_range (lo hi : N) (b : byte) : bool :=
  (lo <=? byte_val b)%N && (byte_val b <=? hi)%N.
Definition utf8_cont (b : byte) : bool := in_range 128 191 b.

(** The second byte that may follow a lead byte, and how many plain
    continuation bytes come after it; [None] for an invalid lead byte. *)
Definition utf8_lead (b : byte) : option (N * N * nat) :=
  let v := byte_val b in
  if in_range 194 223 b then Some (128%N, 191%N, 0)
  else if (v =? 224)%N then Some (160%N, 191%N, 1)
  else if in_range 225 236 b || in_range 238 239 b then Some (128%N, 191%N, 1)
  else if (v =? 237)%N then Some (128%N, 159%N, 1)
  else if (v =? 240)%N then Some (144%N, 191%N, 2)
  else if in_range 241 243 b then Some (128%N, 191%N, 2)
  else if (v =? 244)%N then Some (128%N, 143%N, 2)
  else None.

(** The ranges the next bytes must be in; [] between two characters. *)
Fixpoint utf8_go (pending : list (N * N)) (l : bytes) : bool :=
  match pending, l with
  | [], [] => true
  | _ :: _, [] => false
  | (lo, hi) :: p, b :: l' => in_range lo hi b && utf8_go p l'
  | [], b :: l' =>
      if in_range 0 127 b then utf8_go [] l'
      else match utf8_lead b with
           | Some (lo, hi, n) => utf8_go ((lo, hi) :: repeat (128%N, 191%N) n) l'
           | None => false
           end
  end.
Definition utf8_valid (l : bytes) : bool := utf8_go [] l.

(** [str::split_once] at a one-byte character. *)
Fixpoint split_once (c : byte) (l : bytes) : option (bytes * bytes) :=
  match l with
  | [] => None
  | b :: l' =>
      if eqb b c then Some ([], l')
      else '(x, y) ← split_once c l'; Some (b :: x, y)
  end.

(** [":"], and the words of the textual form *)
Definition colon : byte := x3a.
Definition str_prefix : bytes := [x70; x72; x65; x66; x69; x78].
Definition str_exact : bytes := [x65; x78; x61; x63; x74].
Definition str_utf8 : bytes := [x75; x74; x66; x38].
Definition str_hex : bytes := [x68; x65; x78].

(** The [hex] crate. *)
Class Hex := {
  hex_encode : bytes → bytes;
  hex_decode : bytes → option bytes;
}.
Class HexOk `{Hex} : Prop := {
  hex_decode_encode : ∀ b, hex_decode (hex_encode b) = Some b;
}.

(** ** Download policies *)
Inductive FilterKind :=
| FkPrefix (prefix : bytes)
| FkExact (expected : bytes).

Definition FilterKind_matches (f : FilterKind) (key : bytes) : bool :=
  match f with
  | FkPrefix prefix => starts_with key prefix
  | FkExact expected => eqb expected key
  end.

Inductive DownloadPolicy :=
| NothingExcept (patterns : list FilterKind)
| EverythingExcept (patterns : list FilterKind).
Definition DownloadPolicy_default : DownloadPolicy := EverythingExcept [].

Definition DownloadPolicy_matches (p : DownloadPolicy) (e : Entry) : bool :=
  let key := Entry_key e in
  match p with
  | NothingExcept patterns => existsb (λ f, FilterKind_matches f key) patterns
  | EverythingExcept patterns => forallb (λ f, negb (FilterKind_matches f key)) patterns
  end.

Inductive FilterParseError :=
| MissingKind
| MissingEncoding
| BadKind (found : bytes)
| BadEncoding (found : bytes)
| BadHex.

Section filter_text.
Context `{Hex}.

Definition FilterKind_fmt (f : FilterKind) : bytes :=
  let '(kind, b) := match f with
                    | FkPrefix b => (str_prefix, b)
                    | FkExact b => (str_exact, b)
                    end in
  let '(encoding, repr) := if utf8_valid b then (str_utf8, b) else (str_hex, hex_encode b) in
  kind ++ [colon] ++ encoding ++ [colon] ++ repr.

Definition FilterKind_from_str (s : bytes) : result FilterParseError FilterKind :=
  match split_once colon s with
  | None => Err MissingKind
  | Some (kind, rest) =>
      match split_once colon rest with
      | None => Err MissingEncoding
      | Some (encoding, rest') =>
          is_exact ← (if eqb kind str_exact then Ok true
                      else if eqb kind str_prefix then Ok false
                      else Err (BadKind kind));
          decoded ← (if eqb encoding str_utf8 then Ok rest'
                     else if eqb encoding str_hex
                          then result_of_option BadHex (hex_decode rest')
                          else Err (BadEncoding encoding));
          Ok (if is_exact : bool then FkExact decoded else FkPrefix decoded)
      end
  end.
End filter_text.

(** ** Queries *)
Inductive SortDirection := Asc | Desc.
Inductive SortBy := SbKeyAuthor | SbAuthorKey.
Inductive KeyFilter := KfAny | KfExact (k : bytes) | KfPrefix (p : bytes).
Inductive AuthorFilter := AfAny | AfExact (a : AuthorId).

Definition KeyFilter_matches (f : KeyFilter) (key : bytes) : bool :=
  match f with
  | KfAny => true
  | KfExact k => eqb k key
  | KfPrefix p => starts_with key p
  end.
Definition AuthorFilter_matches (f : AuthorFilter) (author : AuthorId) : bool :=
  match f with AfAny => true | AfExact a => eqb a author end.

Record FlatQuery := { fq_sort_by : SortBy }.
Record SingleLatestPerKeyQuery := SLPK {}.
Inductive QueryKind :=
| Flat (q : FlatQuery)
| SingleLatestPerKey (q : SingleLatestPerKeyQuery).

Record QueryBuilder (K : Type) := {
  qb_kind : K;
  qb_filter_author : AuthorFilter;
  qb_filter_key : KeyFilter;
  qb_limit : option N;
  qb_offset : N;
  qb_include_empty : bool;
  qb_sort_direction : SortDirection;
}.
Arguments qb_kind {K}.
Arguments qb_filter_author {K}.
Arguments qb_filter_key {K}.
Arguments qb_limit {K}.
Arguments qb_offset {K}.
Arguments qb_include_empty {K}.
Arguments qb_sort_direction {K}.

Record Query := {
  q_kind : QueryKind;
  q_filter_author : AuthorFilter;
  q_filter_key : KeyFilter;
  q_limit : option N;
  q_offset : N;
  q_include_empty : bool;
  q_sort_direction : SortDirection;
}.

Section builder.
Context {K : Type}.
Implicit Types b : QueryBuilder K.

Definition qb_new (kind : K) : QueryBuilder K :=
  {| qb_kind := kind; qb_filter_author := AfAny; qb_filter_key := KfAny;
     qb_limit := None; qb_offset := 0; qb_include_empty := false;
     qb_sort_direction := Asc |}.
Definition with_include_empty b : QueryBuilder K :=
  {| qb_kind := qb_kind b; qb_filter_author := qb_filter_author b;
     qb_filter_key := qb_filter_key b; qb_limit := qb_limit b; qb_offset := qb_offset b;
     qb_include_empty := true; qb_sort_direction := qb_sort_direction b |}.
Definition with_key (f : KeyFilter) b : QueryBuilder K :=
  {| qb_kind := qb_kind b; qb_filter_author := qb_filter_author b;
     qb_filter_key := f; qb_limit := qb_limit b; qb_offset := qb_offset b;
     qb_include_empty := qb_include_empty b; qb_sort_direction := qb_sort_direction b |}.
Definition with_key_exact (key : bytes) b : QueryBuilder K := with_key (KfExact key) b.
Definition with_key_prefix (key : bytes) b : QueryBuilder K := with_key (KfPrefix key) b.
Definition with_author (a : AuthorId) b : QueryBuilder K :=
  {| qb_kind := qb_kind b; qb_filter_author := AfExact a;
     qb_filter_key := qb_filter_key b; qb_limit := qb_limit b; qb_offset := qb_offset b;
     qb_include_empty := qb_include_empty b; qb_sort_direction := qb_sort_direction b |}.
Definition with_limit (n : N) b : QueryBuilder K :=
  {| qb_kind := qb_kind b; qb_filter_author := qb_filter_author b;
     qb_filter_key := qb_filter_key b; qb_limit := Some n; qb_offset := qb_offset b;
     qb_include_empty := qb_include_empty b; qb_sort_direction := qb_sort_direction b |}.
Definition with_offset (n : N) b : QueryBuilder K :=
  {| qb_kind := qb_kind b; qb_filter_author := qb_filter_author b;
     qb_filter_key := qb_filter_key b; qb_limit := qb_limit b; qb_offset := n;
     qb_include_empty := qb_include_empty b; qb_sort_direction := qb_sort_direction b |}.
Definition with_direction (k : K) (d : SortDirection) b : QueryBuilder K :=
  {| qb_kind := k; qb_filter_author := qb_filter_author b;
     qb_filter_key := qb_filter_key b; qb_limit := qb_limit b; qb_offset := qb_offset b;
     qb_include_empty := qb_include_empty b; qb_sort_direction := d |}.
Definition build_as (kind : QueryKind) b : Query :=
  {| q_kind := kind; q_filter_author := qb_filter_author b;
     q_filter_key := qb_filter_key b; q_limit := qb_limit b; q_offset := qb_offset b;
     q_include_empty := qb_include_empty b; q_sort_direction := qb_sort_direction b |}.
End builder.

Definition Query_all : QueryBuilder FlatQuery := qb_new {| fq_sort_by := SbAuthorKey |}.
Definition Query_single_latest_per_key : QueryBuilder SingleLatestPerKeyQuery := qb_new SLPK.
Definition Query_author (a : AuthorId) : QueryBuilder FlatQuery := with_author a Query_all.
Definition Query_key_exact (key : bytes) : QueryBuilder FlatQuery := with_key_exact key Query_all.
Definition Query_key_prefix (p : bytes) : QueryBuilder FlatQuery := with_key_prefix p Query_all.
Definition flat_sort_by (s : SortBy) (d : SortDirection) (b : QueryBuilder FlatQuery)
    : QueryBuilder FlatQuery := with_direction {| fq_sort_by := s |} d b.
Definition single_sort_direction (d : SortDirection) (b : QueryBuilder SingleLatestPerKeyQuery)
    : QueryBuilder SingleLatestPerKeyQuery := with_direction (qb_kind b) d b.
Definition flat_build (b : QueryBuilder FlatQuery) : Query := build_as (Flat (qb_kind b)) b.
Definition single_build (b : QueryBuilder SingleLatestPerKeyQuery) : Query :=
  build_as (SingleLatestPerKey (qb_kind b)) b.

(** ** The index a query runs on *)
Inductive IndexKind :=
| IkAuthorKey (range : AuthorFilter) (key_filter : KeyFilter)
| IkKeyAuthor (range : KeyFilter) (author_filter : AuthorFilter) (latest_per_key : bool).

Definition IndexKind_from (q : Query) : IndexKind :=
  match q_kind q with
  | Flat details =>
      match q_filter_author q, fq_sort_by details with
      | AfAny, SbKeyAuthor => IkKeyAuthor (q_filter_key q) AfAny false
      | _, _ => IkAuthorKey (q_filter_author q) (q_filter_key q)
      end
  | SingleLatestPerKey _ => IkKeyAuthor (q_filter_key q) (q_filter_author q) true
  end.

(** ** The selector of the latest entry per key *)
Inductive SelectorRes :=
| SrFinished
| SrContinue
| SrSome (e : SignedEntry).

Abbreviation LatestPerKeySelector := (option SignedEntry).

Definition selector_push (s : LatestPerKeySelector) (entry : option SignedEntry)
    : SelectorRes * LatestPerKeySelector :=
  match entry with
  | None =>
      match s with
      | Some e => (SrSome e, None)
      | None => (SrFinished, None)
      end
  | Some entry =>
      match s with
      | None => (SrContinue, Some entry)
      | Some last =>
          if eqb (se_key last) (se_key entry)
          then (SrContinue,
                if (se_timestamp last <? se_timestamp entry)%N then Some entry else Some last)
          else (SrSome last, Some entry)
      end
  end.

(** ** Facts *)
Lemma split_once_app (c : byte) (l k : bytes) :
  c ∉ l → split_once c (l ++ [c] ++ k) = Some (l, k).
Proof.
  induction l as [|b l IH]; intros Hnin; simpl.
  - by rewrite eqb_refl.
  - rewrite not_elem_of_cons in Hnin. destruct Hnin as [Hne Hnin].
    destruct (eqb b c) eqn:Heq; [by apply eqb_eq in Heq as ->|].
    change (c :: k) with ([c] ++ k). by rewrite IH.
Qed.

Lemma split_once_Some (c : byte) (s x y : bytes) :
  split_once c s = Some (x, y) → s = x ++ [c] ++ y ∧ c ∉ x.
Proof.
  revert x. induction s as [|b s IH]; intros x; simpl; [done|].
  destruct (eqb b c) eqn:Heq.
  - apply eqb_eq in Heq as ->. intros [= <- <-]. split; [done|]. apply not_elem_of_nil.
  - destruct (split_once c s) as [[x' y']|]; [|done]. simpl. intros [= <- <-].
    destruct (IH x' eq_refl) as [-> Hnin]. split; [done|].
    rewrite not_elem_of_cons. split; [|done].
    intros ->. by rewrite eqb_refl in Heq.
Qed.

Section filter_facts.
Context `{HexOk}.

(** The textual form of a download filter reads back as the filter, for
    text and for arbitrary bytes; and whatever parses has the written form
    kind, colon, encoding, colon, data. *)
Theorem filter_kind_roundtrip (f : FilterKind) (s : bytes) :
  FilterKind_from_str (FilterKind_fmt f) = Ok f
  ∧ (∀ g, FilterKind_from_str s = Ok g →
       ∃ enc data, s = (match g with FkPrefix _ => str_prefix | FkExact _ => str_exact end)
         ++ [colon] ++ enc ++ [colon] ++ data
         ∧ ((enc = str_utf8 ∧ (g = FkPrefix data ∨ g = FkExact data))
            ∨ (enc = str_hex ∧ ∃ b, hex_decode data = Some b ∧ (g = FkPrefix b ∨ g = FkExact b)))).
Proof.
  split.
  - assert (∀ kind enc repr, colon ∉ kind → colon ∉ enc →
      split_once colon (kind ++ [colon] ++ enc ++ [colon] ++ repr) = Some (kind, enc ++ [colon] ++ repr)
      ∧ split_once colon (enc ++ [colon] ++ repr) = Some (enc, repr)) as Hsplit.
    { intros. by rewrite !split_once_app. }
    unfold FilterKind_fmt, FilterKind_from_str.
    destruct f as [b|b]; (destruct (utf8_valid b);
      [edestruct (Hsplit) as [-> ->]; [| |done]
      |edestruct (Hsplit) as [-> ->];
        [| |cbn -[hex_decode hex_encode]; by rewrite hex_decode_encode]]);
      by apply (bool_decide_unpack _).
  - intros g. unfold FilterKind_from_str.
    destruct (split_once colon s) as [[kind rest]|] eqn:H1; [|done].
    destruct (split_once colon rest) as [[enc data]|] eqn:H2; [|done].
    apply split_once_Some in H1 as [-> _]. apply split_once_Some in H2 as [-> _].
    intros Hg. exists enc, data.
    destruct (eqb kind str_exact) eqn:Hk1; [apply eqb_eq in Hk1 as ->|];
      [|destruct (eqb kind str_prefix) eqn:Hk2; [apply eqb_eq in Hk2 as ->|done]];
      (destruct (eqb enc str_utf8) eqn:He1;
        [apply eqb_eq in He1 as ->; injection Hg as <-; eauto|];
       destruct (eqb enc str_hex) eqn:He2; [apply eqb_eq in He2 as ->|done];
       cbn in Hg; destruct (hex_decode data) as [b|]; [|done];
       injection Hg as <-; eauto 10).
Qed.
End filter_facts.

(** ** What the selector selects

    [selector_run] pushes a whole sequence and then the end of it; the
    query iterator interleaves the same pushes with its own counters. *)
Fixpoint selector_run (s : LatestPerKeySelector) (l : list SignedEntry) : list SignedEntry :=
  match l with
  | [] => match selector_push s None with
          | (SrSome e, _) => [e]
          | _ => []
          end
  | e :: l' =>
      let '(r, s') := selector_push s (Some e) in
      match r with
      | SrSome x => x :: selector_run s' l'
      | _ => selector_run s' l'
      end
  end.

Definition latest_in (x : SignedEntry) (l : list SignedEntry) : Prop :=
  ∃ l1 l2, l = l1 ++ x :: l2
    ∧ (∀ y, y ∈ l1 → se_key y = se_key x → (se_timestamp y < se_timestamp x)%N)
    ∧ (∀ y, y ∈ l2 → se_key y = se_key x → (se_timestamp y <= se_timestamp x)%N).

Lemma latest_in_nil x : ¬ latest_in x [].
Proof. intros (l1 & l2 & Heq & _). by destruct l1. Qed.

Lemma latest_in_cons x a l :
  latest_in x (a :: l) ↔
    (x = a ∧ ∀ y, y ∈ l → se_key y = se_key a → (se_timestamp y <= se_timestamp a)%N)
    ∨ (latest_in x l ∧ (se_key a = se_key x → (se_timestamp a < se_timestamp x)%N)).
Proof.
  split.
  - intros ([|b l1] & l2 & Heq & H1 & H2); simplify_eq/=.
    + by left.
    + right. split; [|apply H1; left].
      exists l1, l2. split; [done|]. split; [|done]. intros y Hy. apply H1. by right.
  - intros [[-> Hall]|[(l1 & l2 & -> & H1 & H2) Ha]].
    + exists [], l. split; [done|]. split; [by intros y ?%elem_of_nil|done].
    + exists (a :: l1), l2. split; [done|]. split; [|done].
      intros y [->|Hy]%elem_of_cons; [done|by apply H1].
Qed.

Lemma latest_in_elem x l : latest_in x l → x ∈ l.
Proof. intros (l1 & l2 & -> & _). set_solver. Qed.

Section selector_facts.
Context (R : relation bytes) `{!StrictOrder R}.

Definition key_ordered (x y : SignedEntry) : Prop :=
  se_key x = se_key y ∨ R (se_key x) (se_key y).

Lemma key_ordered_trans x y z : key_ordered x y → key_ordered y z → key_ordered x z.
Proof.
  unfold key_ordered. intros [E|Hxy] [E'|Hyz]; rewrite ?E, <- ?E'; eauto. right. by transitivity (se_key y).
Qed.

Lemma selector_run_elem a l x :
  StronglySorted key_ordered (a :: l) →
  x ∈ selector_run (Some a) l ↔ latest_in x (a :: l).
Proof.
  revert a. induction l as [|b l IH]; intros a Hs; simpl.
  { rewrite latest_in_cons, list_elem_of_singleton. split.
    - intros ->. left. split; [done|]. by intros y ?%elem_of_nil.
    - intros [[-> _]|[[]%latest_in_nil _]]. done. }
  apply StronglySorted_cons in Hs as [Ha Hs].
  pose proof Hs as [Hb Hl]%StronglySorted_cons.
  rewrite Forall_forall in Ha, Hb.
  rewrite latest_in_cons, (latest_in_cons x b l).
  destruct (eqb (se_key a) (se_key b)) eqn:Heq.
  - apply eqb_eq in Heq.
    destruct (N.ltb_spec (se_timestamp a) (se_timestamp b)) as [Hlt|Hge].
    + rewrite IH, latest_in_cons by done. split.
      * intros Hx. right. split; [done|]. intros Hk. rewrite Heq in Hk.
        destruct Hx as [[-> _]|[_ Hx]]; [done|]. specialize (Hx Hk). lia.
      * intros [[-> Hall]|[? _]]; [|done].
        assert (se_timestamp b <= se_timestamp a)%N by (apply Hall; [left|done]). lia.
    + rewrite IH, latest_in_cons.
      2: { apply StronglySorted_cons. split; [|done]. apply Forall_forall. intros y Hy.
        apply Ha. by right. }
      split.
      * intros [[-> Hall]|[Hx Hk]].
        -- left. split; [done|]. intros y [->|Hy]%elem_of_cons; auto.
        -- right. split; [|done]. right. split; [done|]. intros Hbx.
           rewrite Heq in Hk. specialize (Hk Hbx). lia.
      * intros [[-> Hall]|[[[-> _]|[Hx _]] Hk]].
        -- left. split; [done|]. intros y Hy. apply Hall. by right.
        -- specialize (Hk Heq). lia.
        -- by right.
  - assert (se_key a ≠ se_key b) as Hne by (intros E; by rewrite E, eqb_refl in Heq).
    assert (∀ y, y ∈ b :: l → se_key y ≠ se_key a) as Hdiff.
    { assert (R (se_key a) (se_key b)) as Hab by (destruct (Ha b) as [?|?]; [left|done|done]).
      intros y [->|Hy]%elem_of_cons E; [done|].
      destruct (Hb y Hy) as [Hby|Hby]; [congruence|].
      apply (irreflexivity R (se_key a)). transitivity (se_key b); [done|]. congruence. }
    rewrite elem_of_cons, IH, (latest_in_cons x b l) by done. split.
    + intros [->|Hx].
      * left. split; [done|]. intros y Hy E. by destruct (Hdiff y Hy).
      * right. split; [done|]. intros E. exfalso.
        apply (Hdiff x); [|done]. apply latest_in_elem. by apply latest_in_cons.
    + intros [[-> _]|[Hx _]]; [by left|by right].
Qed.

Lemma selector_run_sorted a l :
  StronglySorted key_ordered (a :: l) →
  StronglySorted (λ x y, R (se_key x) (se_key y)) (selector_run (Some a) l).
Proof.
  revert a. induction l as [|b l IH]; intros a Hs; simpl.
  { repeat constructor. }
  apply StronglySorted_cons in Hs as [Ha Hs].
  pose proof Hs as [Hb Hl]%StronglySorted_cons.
  rewrite Forall_forall in Ha, Hb.
  destruct (eqb (se_key a) (se_key b)) eqn:Heq.
  - destruct (se_timestamp a <? se_timestamp b)%N; apply IH; [done|].
    apply StronglySorted_cons. split; [|done]. apply Forall_forall. intros y Hy.
    apply Ha. by right.
  - assert (R (se_key a) (se_key b)) as Hab.
    { destruct (Ha b) as [E|?]; [left| |done]. by rewrite E, eqb_refl in Heq. }
    apply StronglySorted_cons. split; [|by apply IH].
    apply Forall_forall. intros x Hx%(selector_run_elem _ _ _ Hs)%latest_in_elem.
    apply elem_of_cons in Hx as [->|Hx]; [done|].
    destruct (Hb x Hx) as [<-|?]; [done|]. by transitivity (se_key b).
Qed.

Lemma selector_run_latest (l : list SignedEntry) :
  StronglySorted key_ordered l →
  StronglySorted (λ x y, R (se_key x) (se_key y)) (selector_run None l)
  ∧ ∀ x, x ∈ selector_run None l ↔ latest_in x l.
Proof.
  destruct l as [|a l]; intros Hs; simpl.
  - split; [constructor|]. intros x. rewrite elem_of_nil. split; [done|apply latest_in_nil].
  - split; [by apply selector_run_sorted|]. intros x. by apply selector_run_elem.
Qed.

(** On entries that arrive grouped by key, in either direction, the
    selector yields one entry per key, in the order of the keys, and that
    entry is the first of those with the newest timestamp of its key. *)
Theorem selector_latest (l : list SignedEntry) :
  StronglySorted key_ordered l →
  StronglySorted (λ x y, R (se_key x) (se_key y)) (selector_run None l)
  ∧ ∀ x, x ∈ selector_run None l ↔ latest_in x l.
Proof. apply selector_run_latest. Qed.
End selector_facts.

(** A hexadecimal encoding that computes: two digits per byte. *)
Definition hex_digit (n : N) : byte := byte_of (if (n <? 10)%N then 48 + n else 87 + n).
Definition hex_value (b : byte) : option N :=
  if in_range 48 57 b then Some (byte_val b - 48)%N
  else if in_range 97 102 b then Some (byte_val b - 87)%N
  else None.
Fixpoint toy_hex_decode (l : bytes) : option bytes :=
  match l with
  | [] => Some []
  | [_] => None
  | h :: d :: l' =>
      x ← hex_value h; y ← hex_value d; r ← toy_hex_decode l'; Some (byte_of (16 * x + y) :: r)
  end.
#[export] Instance toy_hex : Hex := {|
  hex_encode l := mjoin ((λ b, [hex_digit (byte_val b / 16); hex_digit (byte_val b mod 16)]) <$> l);
  hex_decode := toy_hex_decode;
|}.

Lemma toy_hex_byte (c : byte) (l : bytes) :
  toy_hex_decode (hex_digit (byte_val c / 16) :: hex_digit (byte_val c mod 16) :: l) =
    r ← toy_hex_decode l; Some (c :: r).
Proof. by destruct c. Qed.

#[export] Instance toy_hex_ok : HexOk.
Proof.
  split. intros b. unfold hex_decode, hex_encode, toy_hex. induction b as [|c b IH]; [done|].
  etrans; [apply toy_hex_byte|].
  etrans; [exact (f_equal (λ o, r ← o; Some (c :: r)) IH)|done].
Qed.

Lemma filter_kind_roundtrip_witness :
  FilterKind_from_str (FilterKind_fmt (FkPrefix [x61; xff])) = Ok (FkPrefix [x61; xff]).
Proof. exact (proj1 (filter_kind_roundtrip (FkPrefix [x61; xff]) [])). Defined.

Lemma selector_latest_witness :
  latest_in (demo_signed x41 9) [demo_signed x41 7; demo_signed x41 9; demo_signed x42 1].
Proof.
  apply (proj2 (selector_latest (λ x y, ltb x y = true)
    [demo_signed x41 7; demo_signed x41 9; demo_signed x42 1]
    ltac:(repeat constructor; first [left; reflexivity|right; reflexivity]))).
  left.
Defined.
