(* ===== verification/Bounds.v ===== *)
(** * Bounds on the record tables

    Models [src/store/fs/bounds.rs]: the key ranges with which the store
    scans a namespace, an author, or a key prefix, in the record table
    (ordered by namespace, author, key) and in the by-key index (ordered by
    namespace, key, author). *)
From S2P Require Import Prelude Redb Keys Entry Query.

Abbreviation RecordsByKeyId := (arr32 * bytes * arr32)%type.
Abbreviation RecordsBounds := (bound RecordsId * bound RecordsId)%type.
Abbreviation ByKeyBounds := (bound RecordsByKeyId * bound RecordsByKeyId)%type.

(** ** [increment_by_one]

    The source walks the bytes from the last to the first and stops at the
    first that is not 255; here the tail is treated before the head.  The
    result is the flag and the bytes left in the buffer. *)
Definition byte_succ (b : byte) : byte := byte_of (byte_val b + 1).
Definition inc_step (b : byte) : bool * byte :=
  if eqb b xff then (false, x00) else (true, byte_succ b).

Fixpoint increment_by_one (value : bytes) : bool * bytes :=
  match value with
  | [] => (false, [])
  | b :: l =>
      let '(fin, l') := increment_by_one l in
      if fin : bool then (true, b :: l')
      else let '(fin', b') := inc_step b in (fin', b' :: l')
  end.

(** The same on a fixed-size array. *)
Fixpoint increment_array {n} (value : arr n) : bool * arr n :=
  match value with
  | [#] => (false, [#])
  | vcons b v =>
      let '(fin, v') := increment_array v in
      if fin : bool then (true, vcons b v')
      else let '(fin', b') := inc_step b in (fin', vcons b' v')
  end.

Definition zero32 : arr32 := arr_rep 32 x00.
Definition ff32 : arr32 := arr_rep 32 xff.

(** ** [RecordsBounds] *)
Definition namespace_start (ns : NamespaceId) : bound RecordsId := Included (ns, zero32, []).
Definition namespace_end (ns : NamespaceId) : bound RecordsId :=
  let '(fin, ns_end) := increment_array ns in
  if fin : bool then Excluded (ns_end, zero32, []) else Unbounded.

Definition RecordsBounds_new (start end_ : bound RecordsId) : RecordsBounds := (start, end_).
Definition RecordsBounds_namespace (ns : NamespaceId) : RecordsBounds :=
  RecordsBounds_new (namespace_start ns) (namespace_end ns).
Definition RecordsBounds_from_start (ns : NamespaceId) (end_ : bound RecordsId) : RecordsBounds :=
  RecordsBounds_new (namespace_start ns) end_.
Definition RecordsBounds_to_end (ns : NamespaceId) (start : bound RecordsId) : RecordsBounds :=
  RecordsBounds_new start (namespace_end ns).

Definition RecordsBounds_author_key (ns : NamespaceId) (author : AuthorId) (m : KeyFilter)
    : RecordsBounds :=
  let key_is_exact := match m with KfExact _ => true | _ => false end in
  let key := match m with KfAny => [] | KfExact key => key | KfPrefix prefix => prefix end in
  let start := (ns, author, key) in
  let end_ :=
    if key_is_exact : bool then Included start
    else let '(b, key_end) := increment_by_one key in
         if b : bool then Excluded (ns, author, key_end)
         else let '(b, author_end) := increment_array author in
              if b : bool then Excluded (ns, author_end, [])
              else let '(b, ns_end) := increment_array ns in
                   if b : bool then Excluded (ns_end, zero32, []) else Unbounded in
  (Included start, end_).

Definition RecordsBounds_author_prefix (ns : NamespaceId) (author : AuthorId) (prefix : bytes)
    : RecordsBounds := RecordsBounds_author_key ns author (KfPrefix prefix).

(** ** [ByKeyBounds] *)
Definition ByKeyBounds_namespace (ns : NamespaceId) : ByKeyBounds :=
  let start := Included (ns, [], zero32) in
  let '(b, ns_end) := increment_array ns in
  (start, if b : bool then Excluded (ns_end, [], zero32) else Unbounded).

Definition ByKeyBounds_new (ns : NamespaceId) (matcher : KeyFilter) : ByKeyBounds :=
  match matcher with
  | KfAny => ByKeyBounds_namespace ns
  | KfExact key => (Included (ns, key, zero32), Included (ns, key, ff32))
  | KfPrefix prefix =>
      let start := Included (ns, prefix, zero32) in
      let '(b, key_end) := increment_by_one prefix in
      let end_ :=
        if b : bool then Excluded (ns, key_end, zero32)
        else let '(b, ns_end) := increment_array ns in
             if b : bool then Excluded (ns_end, [], zero32) else Unbounded in
      (start, end_)
  end.

(** ** Bytes and the increment *)
Lemma byte_ltb (x y : byte) : ltb x y = (byte_val x <? byte_val y)%N.
Proof. unfold ltb, cmp, byte_cmp, N.ltb. done. Qed.

Lemma byte_val_succ (b : byte) : b ≠ xff → byte_val (byte_succ b) = (byte_val b + 1)%N.
Proof.
  intros Hne. unfold byte_succ. rewrite byte_val_of. apply N.mod_small.
  pose proof (byte_val_bound b). destruct (decide (byte_val b = 255%N)) as [He|]; [|lia].
  destruct Hne. by apply byte_val_inj.
Qed.

Lemma list_ltb_cons {A} `{CmpOk A} (x y : A) (l k : list A) :
  ltb (x :: l) (y :: k) = ltb x y || (eqb x y && ltb l k).
Proof.
  unfold ltb, eqb. change (cmp (x :: l) (y :: k)) with (cmp_then (cmp x y) (cmp l k)).
  by destruct (cmp x y).
Qed.

Lemma ltb_nil_r {A} `{CmpOk A} (l : list A) : ltb l [] = false.
Proof. by destruct l. Qed.

Lemma inc_step_false b b' : inc_step b = (false, b') ↔ b = xff ∧ b' = x00.
Proof.
  unfold inc_step. destruct (eqb b xff) eqn:Hb.
  - apply eqb_eq in Hb as ->. naive_solver.
  - split; [done|]. intros [-> _]. by rewrite eqb_refl in Hb.
Qed.
Lemma inc_step_true b b' : inc_step b = (true, b') ↔ b ≠ xff ∧ b' = byte_succ b.
Proof.
  unfold inc_step. destruct (eqb b xff) eqn:Hb.
  - apply eqb_eq in Hb as ->. naive_solver.
  - split; [|naive_solver]. intros [= <-]. split; [|done].
    intros ->. by rewrite eqb_refl in Hb.
Qed.

Lemma increment_false l l' :
  increment_by_one l = (false, l') →
  l = repeat xff (length l) ∧ l' = repeat x00 (length l).
Proof.
  revert l'. induction l as [|b l IH]; intros l'; simpl; [by intros [= <-]|].
  destruct (increment_by_one l) as [[] m] eqn:Hm; [done|].
  destruct (inc_step b) as [[] b'] eqn:Hb; [done|]. intros [= <-].
  apply inc_step_false in Hb as [-> ->]. destruct (IH m eq_refl) as [-> ->].
  by rewrite !repeat_length.
Qed.

Lemma increment_true l l' :
  increment_by_one l = (true, l') →
  ∃ q c n, l = q ++ c :: repeat xff n ∧ c ≠ xff ∧ l' = q ++ byte_succ c :: repeat x00 n.
Proof.
  revert l'. induction l as [|b l IH]; intros l'; simpl; [done|].
  destruct (increment_by_one l) as [[] m] eqn:Hm.
  - intros [= <-]. destruct (IH m eq_refl) as (q & c & n & -> & Hc & ->).
    by exists (b :: q), c, n.
  - destruct (inc_step b) as [[] b'] eqn:Hb; [|done]. intros [= <-].
    apply inc_step_true in Hb as [Hb ->]. apply increment_false in Hm as [Hl ->].
    exists [], b, (length l). by rewrite <- Hl.
Qed.

Lemma increment_array_list {n} (v : arr n) :
  increment_by_one (vec_to_list v) =
    ((increment_array v).1, vec_to_list (increment_array v).2).
Proof.
  induction v as [|b n v IH]; simpl; [done|]. rewrite IH.
  destruct (increment_array v) as [[] w]; simpl; [done|]. by destruct (inc_step b).
Qed.

Lemma list_leb_cons {A} `{CmpOk A} (x y : A) (l k : list A) :
  leb (x :: l) (y :: k) = ltb x y || (eqb x y && leb l k).
Proof.
  unfold leb, ltb, eqb. change (cmp (x :: l) (y :: k)) with (cmp_then (cmp x y) (cmp l k)).
  by destruct (cmp x y).
Qed.

Lemma byte_eqb_neq (x y : byte) : x ≠ y → eqb x y = false.
Proof. intros Hne. destruct (eqb x y) eqn:He; [by apply eqb_eq in He|done]. Qed.

Lemma byte_ltb_ff (b : byte) : ltb xff b = false.
Proof.
  rewrite byte_ltb. apply N.ltb_ge. change (byte_val xff) with 255%N. apply byte_val_bound.
Qed.

(** The successor is the least byte above. *)
Lemma byte_ltb_succ (b d : byte) : b ≠ xff → ltb d (byte_succ b) = leb d b.
Proof.
  intros Hb. rewrite leb_negb_ltb, !byte_ltb, byte_val_succ by done.
  destruct (N.ltb_spec (byte_val d) (byte_val b + 1)), (N.ltb_spec (byte_val b) (byte_val d));
    simpl; lia.
Qed.

Lemma byte_ltb_00 (b : byte) : ltb b x00 = false.
Proof. rewrite byte_ltb. apply N.ltb_ge. change (byte_val x00) with 0%N. lia. Qed.

(** What is below a run of zeros is a shorter run of zeros. *)
Lemma ltb_zeros (u : bytes) n :
  ltb u (repeat x00 n) = true ↔ ∃ m, m < n ∧ u = repeat x00 m.
Proof.
  revert u. induction n as [|n IH]; intros u; simpl.
  { rewrite ltb_nil_r. split; [done|]. intros (m & ? & _). lia. }
  destruct u as [|d u]; [split; [intros _; exists 0; split; [lia|done]|done]|].
  rewrite list_ltb_cons, byte_ltb_00. simpl. rewrite andb_true_iff, eqb_eq, IH. split.
  - intros [-> (m & Hm & ->)]. exists (S m). split; [lia|done].
  - intros ([|m] & Hm & Hu); [done|]. injection Hu as -> ->. split; [done|].
    exists m. split; [lia|done].
Qed.

Lemma ltb_zeros_length (u : bytes) n : length u = n → ltb u (repeat x00 n) = false.
Proof.
  intros Hlen. destruct (ltb u (repeat x00 n)) eqn:Hlt; [|done].
  apply ltb_zeros in Hlt as (m & Hm & ->). rewrite repeat_length in Hlen. lia.
Qed.

(** What is at or above a run of 255 starts with it. *)
Lemma leb_ffs (u : bytes) n : leb (repeat xff n) u = starts_with u (repeat xff n).
Proof.
  revert u. induction n as [|n IH]; intros u; simpl; [by destruct u|].
  destruct u as [|d u]; [done|].
  rewrite list_leb_cons, byte_ltb_ff, IH. simpl. f_equal.
  destruct (eqb d xff) eqn:Hd.
  - apply eqb_eq in Hd as ->. apply eqb_refl.
  - destruct (eqb xff d) eqn:Hd'; [|done]. apply eqb_eq in Hd' as <-. by rewrite eqb_refl in Hd.
Qed.

(** On buffers of one length the incremented buffer is the successor; a
    buffer that cannot be incremented is the greatest. *)
Lemma increment_next l k :
  length l = length k →
  match increment_by_one l with
  | (true, l') => ltb k l' = leb k l
  | (false, _) => ltb l k = false
  end.
Proof.
  revert k. induction l as [|b l IH]; intros [|d k] Hlen; simplify_eq/=; [done|].
  specialize (IH k Hlen). destruct (increment_by_one l) as [[] m] eqn:Hm.
  { by rewrite list_ltb_cons, list_leb_cons, IH. }
  apply increment_false in Hm as [_ ->].
  destruct (inc_step b) as [[] b'] eqn:Hb.
  - apply inc_step_true in Hb as [Hb ->].
    rewrite list_ltb_cons, list_leb_cons, byte_ltb_succ by done.
    rewrite (leb_negb_ltb k l), IH, ltb_zeros_length by done.
    rewrite andb_false_r, orb_false_r, andb_true_r.
    unfold leb, ltb, eqb. by destruct (cmp d b).
  - apply inc_step_false in Hb as [-> ->].
    rewrite list_ltb_cons, byte_ltb_ff, IH. simpl. by rewrite andb_false_r.
Qed.

Lemma increment_array_next {n} (v w : arr n) :
  match increment_array v with
  | (true, v') => ltb w v' = leb w v
  | (false, _) => ltb v w = false
  end.
Proof.
  pose proof (increment_next (vec_to_list v) (vec_to_list w)) as Hn.
  rewrite increment_array_list in Hn. rewrite !length_vec_to_list in Hn.
  specialize (Hn eq_refl). by destruct (increment_array v) as [[] v'].
Qed.

(** ** What a prefix scan covers *)

(** The keys beyond the prefix that the scan of [p] reaches: with [n]
    trailing bytes 255, the [n] keys made of the incremented byte and fewer
    than [n] zeros. *)
Definition overreach (p k : bytes) : Prop :=
  ∃ q c n m, p = q ++ c :: repeat xff n ∧ c ≠ xff ∧ m < n
    ∧ k = q ++ byte_succ c :: repeat x00 m.

Lemma repeat_no_other (b c : byte) n q l : repeat b n = q ++ c :: l → c = b.
Proof.
  intros Heq. apply (repeat_spec n b). rewrite Heq. apply in_or_app. right. by left.
Qed.

Lemma overreach_cons b t d u :
  (increment_by_one t).1 = true → overreach (b :: t) (d :: u) ↔ b = d ∧ overreach t u.
Proof.
  intros Ht. split.
  - intros ([|x q] & c & n & m & Hp & Hc & Hm & Hk); simplify_eq/=.
    + destruct (increment_by_one (repeat xff n)) as [[] l'] eqn:Hi; [|done].
      apply increment_true in Hi as (q & c' & j & Hq & Hne & _).
      by apply repeat_no_other in Hq.
    + split; [done|]. by exists q, c, n, m.
  - intros [-> (q & c & n & m & -> & Hc & Hm & ->)]. by exists (d :: q), c, n, m.
Qed.

Lemma overreach_last b n d u :
  b ≠ xff →
  overreach (b :: repeat xff n) (d :: u) ↔ d = byte_succ b ∧ ∃ m, m < n ∧ u = repeat x00 m.
Proof.
  intros Hb. split.
  - intros ([|x q] & c & j & m & Hp & Hc & Hm & Hk);
      injection Hp as -> Hp; injection Hk as -> Hk.
    + apply (f_equal length) in Hp. rewrite !repeat_length in Hp. subst j. eauto.
    + by apply repeat_no_other in Hp.
  - intros [-> (m & Hm & ->)]. by exists [], b, n, m.
Qed.

Lemma overreach_nil p : ¬ overreach p [].
Proof. intros ([|x q] & c & n & m & _ & _ & _ & Hk); done. Qed.

Lemma byte_succ_ne (b : byte) : b ≠ xff → byte_succ b ≠ b.
Proof. intros Hb E. apply (f_equal byte_val) in E. rewrite byte_val_succ in E by done. lia. Qed.

Lemma increment_span p k :
  match increment_by_one p with
  | (true, p') => leb p k && ltb k p' = true ↔ starts_with k p = true ∨ overreach p k
  | (false, _) => leb p k = starts_with k p
  end.
Proof.
  revert k. induction p as [|b t IH]; intros k; simpl; [by destruct k|].
  destruct (increment_by_one t) as [[] t'] eqn:Ht.
  - destruct k as [|d u].
    { split; [done|]. by intros [?|?%overreach_nil]. }
    rewrite overreach_cons by (by rewrite Ht).
    rewrite list_leb_cons, list_ltb_cons.
    specialize (IH u). simpl in IH.
    destruct (eqb b d) eqn:Hbd.
    + apply eqb_eq in Hbd as ->. rewrite !ltb_irrefl, !eqb_refl. simpl. rewrite IH. naive_solver.
    + assert (b ≠ d) as Hne by (intros ->; by rewrite eqb_refl in Hbd).
      rewrite (eqb_sym d b), Hbd. simpl. rewrite !orb_false_r. split.
      * intros [Hlt Hlt']%andb_true_iff. by rewrite (ltb_asym b d) in Hlt'.
      * naive_solver.
  - pose proof (increment_false _ _ Ht) as [Hff Hz].
    specialize (IH (tail k)) as IHt.
    destruct (inc_step b) as [[] b'] eqn:Hb.
    + apply inc_step_true in Hb as [Hb ->].
      destruct k as [|d u].
      { split; [done|]. by intros [?|?%overreach_nil]. }
      simpl in IHt. rewrite Hff at 3. rewrite overreach_last by done.
      rewrite list_leb_cons, list_ltb_cons, IHt, Hz.
      rewrite byte_ltb_succ, andb_true_iff, !orb_true_iff, !andb_true_iff by done.
      rewrite ltb_zeros, !eqb_eq. split.
      * intros [[Hlt|[-> Hs]] H2].
        -- destruct H2 as [Hle|[-> Hm]]; [|by right].
           exfalso. rewrite leb_negb_ltb, Hlt in Hle. done.
        -- by left.
      * rewrite leb_negb_ltb. intros [[-> Hs]|[-> Hm]].
        -- rewrite ltb_irrefl. tauto.
        -- split; [left|by right].
           rewrite byte_ltb, byte_val_succ by done. apply N.ltb_lt. lia.
    + apply inc_step_false in Hb as [-> ->].
      destruct k as [|d u]; [done|].
      rewrite list_leb_cons, byte_ltb_ff. simpl in *. rewrite IHt.
      by rewrite (eqb_sym xff d).
Qed.

(** ** Scans on the three-part keys *)
Section pairs.
Context {A B : Type} `{CmpOk A, CmpOk B}.

Lemma pair_ltb (x x' : A) (y y' : B) :
  ltb (x, y) (x', y') = ltb x x' || (eqb x x' && ltb y y').
Proof.
  unfold ltb, eqb. change (cmp (x, y) (x', y')) with (cmp_then (cmp x x') (cmp y y')).
  by destruct (cmp x x').
Qed.

Lemma pair_leb (x x' : A) (y y' : B) :
  leb (x, y) (x', y') = ltb x x' || (eqb x x' && leb y y').
Proof.
  unfold ltb, leb, eqb. change (cmp (x, y) (x', y')) with (cmp_then (cmp x x') (cmp y y')).
  by destruct (cmp x x').
Qed.

Lemma leb_ltb_eqb (x x' : A) : leb x x' = ltb x x' || eqb x x'.
Proof. unfold ltb, leb, eqb. by destruct (cmp x x'). Qed.

(** Two-sided: only the pairs with the given first component remain. *)
Lemma pair_between (x w : A) (y z v : B) :
  leb (x, y) (w, v) && ltb (w, v) (x, z) = eqb w x && (leb y v && ltb v z).
Proof.
  rewrite pair_leb, pair_ltb. unfold ltb at 1 2, eqb. rewrite (cmp_antisym x w).
  destruct (cmp x w); simpl; rewrite ?andb_false_r, ?andb_true_r; done.
Qed.

Lemma pair_from_to (x w : A) (y v : B) :
  leb (x, y) (w, v) && leb w x = eqb w x && leb y v.
Proof.
  rewrite pair_leb. unfold ltb at 1, leb at 2, eqb. rewrite (cmp_antisym x w).
  destruct (cmp x w); simpl; rewrite ?andb_false_r, ?andb_true_r; done.
Qed.

Definition is_least (y : B) : Prop := ∀ y', ltb y' y = false.
Definition is_greatest (y : B) : Prop := ∀ y', ltb y y' = false.

Lemma pair_leb_least (x w : A) (y v : B) : is_least y → leb (x, y) (w, v) = leb x w.
Proof.
  intros Hy. rewrite pair_leb, leb_negb_ltb, (leb_ltb_eqb x w), (Hy v). simpl.
  by rewrite andb_true_r.
Qed.

Lemma pair_ltb_least (x w : A) (y v : B) : is_least y → ltb (w, v) (x, y) = ltb w x.
Proof.
  intros Hy. rewrite pair_ltb, (Hy v), andb_false_r. apply orb_false_r.
Qed.

Lemma pair_leb_greatest (x w : A) (y v : B) : is_greatest y → leb (w, v) (x, y) = leb w x.
Proof.
  intros Hy. rewrite pair_leb, (leb_negb_ltb v y), (leb_ltb_eqb w x), (Hy v). simpl.
  by rewrite andb_true_r.
Qed.
End pairs.

Lemma least_nil : is_least (@nil byte).
Proof. intros l. apply ltb_nil_r. Qed.
Lemma least_zeros n : is_least (arr_rep n x00).
Proof.
  intros v. unfold ltb, cmp, arr_cmp. change (ltb (vec_to_list v) (vec_to_list (arr_rep n x00)) = false).
  unfold arr_rep. assert (vec_to_list (vreplicate n x00) = repeat x00 n) as ->.
  { clear v. induction n as [|n IH]; simpl; [done|]. by rewrite IH. }
  apply ltb_zeros_length, length_vec_to_list.
Qed.
Lemma greatest_ffs n : is_greatest (arr_rep n xff).
Proof.
  intros v. change (ltb (vec_to_list (arr_rep n xff)) (vec_to_list v) = false).
  induction v as [|d n v IH]; [done|].
  change (ltb (xff :: vec_to_list (arr_rep n xff)) (d :: vec_to_list v) = false).
  rewrite list_ltb_cons, byte_ltb_ff, IH. by rewrite andb_false_r.
Qed.
#[export] Hint Resolve least_nil least_zeros greatest_ffs : store_db.

Lemma below_namespace_end (ns n : NamespaceId) (a : AuthorId) (k : bytes) :
  below (namespace_end ns) (n, a, k) = leb n ns.
Proof.
  unfold namespace_end. pose proof (increment_array_next ns n) as Hn.
  destruct (increment_array ns) as [[] v]; simpl.
  - by rewrite !pair_ltb_least by auto with store_db.
  - by rewrite leb_negb_ltb, Hn.
Qed.

Lemma above_namespace_start (ns n : NamespaceId) (a : AuthorId) (k : bytes) :
  above (namespace_start ns) (n, a, k) = leb ns n.
Proof. simpl. by rewrite !pair_leb_least by auto with store_db. Qed.

Lemma leb_both_eqb {A} `{CmpOk A} (x y : A) : leb x y && leb y x = eqb y x.
Proof. unfold leb, eqb. rewrite (cmp_antisym y x). by destruct (cmp y x). Qed.

Lemma namespace_bounds_in (ns : NamespaceId) (id : RecordsId) :
  in_bounds (RecordsBounds_namespace ns) id = eqb id.1.1 ns.
Proof.
  destruct id as [[n a] k]. unfold in_bounds. cbn [fst snd RecordsBounds_namespace RecordsBounds_new].
  by rewrite above_namespace_start, below_namespace_end, leb_both_eqb.
Qed.

(** The namespace scans are exact: the scan of a namespace covers its
    identifiers and no others, and the two half-open scans cut it at the
    given bound. *)
Theorem namespace_bounds_exact (ns n : NamespaceId) (a : AuthorId) (k : bytes) (b : bound RecordsId) :
  in_bounds (RecordsBounds_namespace ns) (n, a, k) = eqb n ns
  ∧ in_bounds (RecordsBounds_from_start ns b) (n, a, k) = leb ns n && below b (n, a, k)
  ∧ in_bounds (RecordsBounds_to_end ns b) (n, a, k) = above b (n, a, k) && leb n ns.
Proof.
  unfold in_bounds. cbn [fst snd RecordsBounds_namespace RecordsBounds_from_start
    RecordsBounds_to_end RecordsBounds_new].
  rewrite above_namespace_start, below_namespace_end. by rewrite leb_both_eqb.
Qed.

(** The keys a scan for a key filter covers. *)
Definition key_scan (m : KeyFilter) (k : bytes) : Prop :=
  match m with
  | KfAny => True
  | KfExact key => k = key
  | KfPrefix p => starts_with k p = true ∨ overreach p k
  end.

Lemma author_key_upper (ns n : NamespaceId) (a a' : AuthorId) (k : bytes) :
  below (let '(b, author_end) := increment_array a in
         if b : bool then Excluded (ns, author_end, [])
         else let '(b, ns_end) := increment_array ns in
              if b : bool then Excluded (ns_end, zero32, []) else Unbounded) (n, a', k)
  = leb (n, a') (ns, a).
Proof.
  pose proof (increment_array_next a a') as Ha. pose proof (increment_array_next ns n) as Hn.
  destruct (increment_array a) as [[] av] eqn:Hav; simpl.
  { rewrite pair_ltb_least by auto with store_db. by rewrite pair_ltb, pair_leb, Ha. }
  assert (is_greatest a) as Hg.
  { intros w. pose proof (increment_array_next a w) as Hw. by rewrite Hav in Hw. }
  rewrite pair_leb_greatest by done.
  destruct (increment_array ns) as [[] nv]; simpl.
  - by rewrite !pair_ltb_least by auto with store_db.
  - by rewrite leb_negb_ltb, Hn.
Qed.

Lemma scan_all_prefix (k : bytes) : key_scan (KfPrefix []) k.
Proof. by left. Qed.

Lemma author_key_bounds_in (ns n : NamespaceId) (a a' : AuthorId) (m : KeyFilter) (k : bytes) :
  in_bounds (RecordsBounds_author_key ns a m) (n, a', k) = true
  ↔ n = ns ∧ a' = a ∧ key_scan m k.
Proof.
  assert (∀ p, in_bounds (RecordsBounds_author_key ns a (KfPrefix p)) (n, a', k) = true
    ↔ n = ns ∧ a' = a ∧ key_scan (KfPrefix p) k) as Hprefix.
  { intros p. unfold in_bounds, RecordsBounds_author_key. cbn [fst snd above].
    pose proof (increment_span p k) as Hp. destruct (increment_by_one p) as [[] p'] eqn:Hinc.
    - cbn [below]. rewrite pair_between, andb_true_iff, Hp, eqb_eq. simpl. naive_solver.
    - rewrite author_key_upper, pair_from_to, andb_true_iff, Hp, eqb_eq. simpl.
      assert (¬ overreach p k) as Hno.
      { intros (q & c & j & i & -> & Hc & _).
        apply increment_false in Hinc as [Hff _]. symmetry in Hff.
        by apply repeat_no_other in Hff. }
      naive_solver. }
  destruct m as [|key|p]; [|clear Hprefix|apply Hprefix].
  - change (RecordsBounds_author_key ns a KfAny) with (RecordsBounds_author_key ns a (KfPrefix [])).
    rewrite Hprefix. pose proof (scan_all_prefix k). simpl in *. tauto.
  - unfold in_bounds, RecordsBounds_author_key. cbn [fst snd above below].
    rewrite leb_both_eqb, eqb_eq. simpl. naive_solver.
Qed.

Lemma by_key_bounds_in (ns n : NamespaceId) (a : AuthorId) (m : KeyFilter) (k : bytes) :
  in_bounds (ByKeyBounds_new ns m) (n, k, a) = true ↔ n = ns ∧ key_scan m k.
Proof.
  unfold in_bounds.
  assert (∀ p, leb (ns, p) (n, k) && leb n ns = true ↔ n = ns ∧ leb p k = true) as Hfrom.
  { intros p. by rewrite pair_from_to, andb_true_iff, eqb_eq. }
  pose proof (increment_array_next ns n) as Hn.
  assert (∀ b, below (if (increment_array ns).1 then
      Excluded ((increment_array ns).2, [], zero32) else Unbounded : bound RecordsByKeyId) (n, k, b)
      = leb n ns) as Hend.
  { intros b. destruct (increment_array ns) as [[] v]; simpl.
    - by rewrite !pair_ltb_least by auto with store_db.
    - by rewrite leb_negb_ltb, Hn. }
  destruct m as [|key|p]; simpl.
  - unfold ByKeyBounds_namespace. specialize (Hend a).
    destruct (increment_array ns) as [b v]. cbn [fst snd] in *. rewrite Hend. simpl.
    rewrite !pair_leb_least by auto with store_db. rewrite leb_both_eqb, eqb_eq. tauto.
  - rewrite (pair_leb_least (ns, key)), (pair_leb_greatest (ns, key)) by auto with store_db.
    rewrite leb_both_eqb, eqb_eq. naive_solver.
  - pose proof (increment_span p k) as Hp. destruct (increment_by_one p) as [[] p'] eqn:Hinc.
    + simpl. rewrite pair_leb_least, pair_ltb_least by auto with store_db.
      rewrite pair_between, andb_true_iff, Hp, eqb_eq. done.
    + specialize (Hend a). destruct (increment_array ns) as [b v]. cbn [fst snd] in *.
      rewrite Hend. simpl. rewrite pair_leb_least by auto with store_db.
      rewrite Hfrom, Hp. split; [naive_solver|].
      intros [-> [?|(q & c & j & i & -> & Hc & _)]]; [done|].
      apply increment_false in Hinc as [Hff _]. symmetry in Hff.
      by apply repeat_no_other in Hff.
Qed.

(** C40: the scans of the record table and of the by-key index are exact up
    to [overreach]: the author scan covers the keys of that author in that
    namespace that the filter asks for, the by-key scan those of every author
    of the namespace, all of them, and beyond them only the keys [overreach]
    describes. *)
Theorem scan_bounds_exact (ns n : NamespaceId) (a a' : AuthorId) (m : KeyFilter) (k : bytes) :
  (in_bounds (RecordsBounds_author_key ns a m) (n, a', k) = true
   ↔ n = ns ∧ a' = a ∧ key_scan m k)
  ∧ (in_bounds (ByKeyBounds_new ns m) (n, k, a') = true ↔ n = ns ∧ key_scan m k).
Proof. split; [apply author_key_bounds_in|apply by_key_bounds_in]. Qed.

Lemma overreach_not_prefix p k : overreach p k → starts_with k p = false.
Proof.
  intros (q & c & n & m & -> & Hc & _ & ->).
  destruct (starts_with _ _) eqn:Hs; [|done]. apply starts_with_spec in Hs as [l Hl].
  rewrite <- app_assoc in Hl. apply app_inv_head in Hl. injection Hl as Hb _.
  by destruct (byte_succ_ne c).
Qed.

(** Exactly the prefixes that end in a byte 255 after a smaller byte are
    scanned too far: for any other prefix the scan is the set of keys with
    that prefix, and for these there is a key in the scan that does not have
    the prefix. *)
Theorem prefix_scan_overreach (ns : NamespaceId) (a : AuthorId) (p : bytes) :
  (∃ k, in_bounds (RecordsBounds_author_prefix ns a p) (ns, a, k) = true
        ∧ starts_with k p = false)
  ↔ ∃ q c n, p = q ++ c :: repeat xff (S n) ∧ c ≠ xff.
Proof.
  unfold RecordsBounds_author_prefix. split.
  - intros (k & (_ & _ & Hk)%author_key_bounds_in & Hn). simpl in Hk.
    destruct Hk as [?|(q & c & [|n] & m & -> & Hc & Hm & _)]; [congruence|lia|].
    by exists q, c, n.
  - intros (q & c & n & -> & Hc). exists (q ++ [byte_succ c]).
    assert (overreach (q ++ c :: repeat xff (S n)) (q ++ [byte_succ c])) as Ho.
    { exists q, c, (S n), 0. split_and!; [done|done|lia|done]. }
    split; [|by apply overreach_not_prefix].
    apply author_key_bounds_in. split_and!; [done|done|]. by right.
Qed.

(** ** The increment as arithmetic *)
Lemma be_val_cons b l : be_val (b :: l) = (byte_val b * 256 ^ N.of_nat (length l) + be_val l)%N.
Proof.
  unfold be_val. simpl. assert (∀ acc, be_val_ acc l = (acc * 256 ^ N.of_nat (length l) + be_val_ 0 l)%N) as Hacc.
  { induction l as [|c l IH]; intros acc; simpl length; simpl be_val_; [simpl; lia|].
    rewrite IH, (IH (0 * 256 + byte_val c)%N), Nat2N.inj_succ, N.pow_succ_r'. lia. }
  by rewrite Hacc.
Qed.

(** [increment_by_one] is the successor of a big-endian number of fixed
    width: it keeps the length, adds one, and reports failure exactly on the
    number that is all 255, which it leaves as zero. *)
Theorem increment_by_one_spec (l : bytes) :
  let '(fin, l') := increment_by_one l in
  length l' = length l
  ∧ (fin = true → be_val l' = (be_val l + 1)%N)
  ∧ (fin = false ↔ l = repeat xff (length l))
  ∧ (fin = false → be_val l' = 0%N ∧ (be_val l + 1 = 256 ^ N.of_nat (length l))%N).
Proof.
  induction l as [|b l IH]; [done|]. simpl increment_by_one. simpl length.
  destruct (increment_by_one l) as [[] m].
  - destruct IH as (Hlen & Hval & Hff & _). split_and!; [simpl; lia| | |done].
    + intros _. rewrite !be_val_cons, Hval, Hlen by done. lia.
    + split; [done|]. simpl. intros [= _ Hl]. by apply Hff in Hl.
  - destruct IH as (Hlen & _ & Hff & Hz). destruct (Hz eq_refl) as [Hm Hl].
    destruct (inc_step b) as [[] b'] eqn:Hb.
    + apply inc_step_true in Hb as [Hb ->]. split_and!; [simpl; lia| | |done].
      * intros _. rewrite !be_val_cons, Hlen, byte_val_succ, Hm by done. lia.
      * split; [done|]. simpl. by intros [= ? _].
    + apply inc_step_false in Hb as [-> ->]. split_and!; [simpl; lia|done| |].
      * split; [|done]. intros _. simpl. f_equal. by apply Hff.
      * intros _. rewrite !be_val_cons, Nat2N.inj_succ, N.pow_succ_r'.
        change (byte_val x00) with 0%N. change (byte_val xff) with 255%N. lia.
Qed.
