(* ===== verification/Ranger.v ===== *)
(** * Range-based set reconciliation

    Models [src/ranger.rs]: ranges, fingerprints, messages, the store
    interface the reconciliation runs against, insertion with prefix
    deletion, and the processing of a message.  The interface is
    [RangerStore] (the source's [Store] trait); what an implementation
    promises is [RangerStoreOk], stated on an abstract content, and
    discharged by the store of the repository in StoreInstance. *)
From S2P Require Import Prelude.

(** ** Ranges *)
Record Range (K : Type) := { rg_x : K; rg_y : K }.
Arguments Build_Range {K} _ _.
Arguments rg_x {K} _.
Arguments rg_y {K} _.

Definition range_is_all {K} `{Cmp K} (r : Range K) : bool := eqb (rg_x r) (rg_y r).
Definition range_contains {K} `{Cmp K} (r : Range K) (t : K) : bool :=
  match cmp (rg_x r) (rg_y r) with
  | Eq => true
  | Lt => leb (rg_x r) t && ltb t (rg_y r)
  | Gt => leb (rg_x r) t || ltb t (rg_y r)
  end.

(** ** Fingerprints: 32 bytes, combined by exclusive or *)
Definition byte_xor (a b : byte) : byte := byte_of (N.lxor (byte_val a) (byte_val b)).
Abbreviation Fingerprint := arr32.
Definition fp_xor (a b : Fingerprint) : Fingerprint := vzip_with byte_xor a b.

(** ** Entries *)
Inductive ContentStatus := Complete | Incomplete | Missing.
Inductive ValidateOutcome := Accept | Drop | Reject.

Class RangeEntry (E K V R : Type) := {
  re_key : E → K;
  re_value : E → V;
  re_reject_id : E → R;
  re_fingerprint : E → Fingerprint;
  (** [blake3::hash(&[])] *)
  re_fp_empty : Fingerprint;
}.

(** ** Messages *)
Record RangeFingerprint (K : Type) := { rf_range : Range K; rf_fingerprint : Fingerprint }.
Arguments Build_RangeFingerprint {K} _ _.
Arguments rf_range {K} _.
Arguments rf_fingerprint {K} _.

Record RangeItem (E K : Type) := {
  ri_range : Range K;
  ri_values : list (E * ContentStatus);
  ri_have_local : bool;
}.
Arguments Build_RangeItem {E K} _ _ _.
Arguments ri_range {E K} _.
Arguments ri_values {E K} _.
Arguments ri_have_local {E K} _.

Inductive MessagePart (E K R : Type) :=
| MpFingerprint (fp : RangeFingerprint K)
| MpItem (item : RangeItem E K)
| MpRejected (id : R).
Arguments MpFingerprint {E K R} _.
Arguments MpItem {E K R} _.
Arguments MpRejected {E K R} _.

Abbreviation Message E K R := (list (MessagePart E K R)).

Definition part_values {E K R} (p : MessagePart E K R) : option (list (E * ContentStatus)) :=
  match p with
  | MpFingerprint _ => None
  | MpItem item => Some (ri_values item)
  | MpRejected _ => None
  end.
Definition part_rejected {E K R} (p : MessagePart E K R) : option R :=
  match p with MpRejected id => Some id | _ => None end.
Definition message_values {E K R} (m : Message E K R) : list (E * ContentStatus) :=
  mjoin (omap part_values m).
Definition message_value_count {E K R} (m : Message E K R) : nat := length (message_values m).

Record SyncConfig := { max_set_size : nat; split_factor : nat }.
Definition SyncConfig_default : SyncConfig := {| max_set_size := 1; split_factor := 2 |}.

Inductive InsertOutcome := NotInserted | Inserted (removed : nat).

(** ** The store interface

    Iterators are the lists they yield. *)
Class RangerStore (S E K V Err : Type) := {
  rs_get_first : ST S Err K;
  rs_get_fingerprint : Range K → ST S Err Fingerprint;
  rs_entry_put : E → ST S Err unit;
  rs_get_range : Range K → ST S Err (list E);
  rs_prefixes_of : K → ST S Err (list E);
  rs_remove_prefix_filtered : K → (V → bool) → ST S Err nat;
}.

Section ranger.
Context {S E K V R Err W : Type}.
Context `{Cmp K, Cmp V, !RangeEntry E K V R, !RangerStore S E K V Err}.

Definition rs_get_range_len (r : Range K) : ST S Err nat :=
  l ← rs_get_range r; mret (length l).

(** [Message::init]. *)
Definition initial_message : ST S Err (Message E K R) :=
  x ← rs_get_first;
  let range := Build_Range x x in
  fingerprint ← rs_get_fingerprint range;
  mret [MpFingerprint (Build_RangeFingerprint range fingerprint)].

(** ** Insertion *)
Definition would_insert (entry : E) : ST S Err bool :=
  ps ← rs_prefixes_of (re_key entry);
  mret (forallb (λ p, negb (leb (re_value entry) (re_value p))) ps).

Definition put (entry : E) : ST S Err InsertOutcome :=
  w ← would_insert entry;
  if negb w then mret NotInserted
  else
    removed ← rs_remove_prefix_filtered (re_key entry) (λ value, geb (re_value entry) value);
    _ ← rs_entry_put entry;
    mret (Inserted removed).

(** ** Processing a message

    The callbacks act on a world [W] beside the store: [on_insert_cb]
    changes it, [content_status_cb] reads it, [validate_cb] sees the store. *)
Context (config : SyncConfig).
Context (validate_cb : S → E → ContentStatus → ValidateOutcome).
Context (on_insert_cb : S → E → ContentStatus → W → W).
Context (content_status_cb : W → E → ContentStatus).

Definition store_op {A} (m : ST S Err A) : ST (S * W) Err A :=
  st_zoom fst (λ s p, (s, p.2)) m.

Definition with_status (es : list E) : ST (S * W) Err (list (E * ContentStatus)) :=
  st_gets (λ p, (λ e, (e, content_status_cb p.2 e)) <$> es).

(** The peer's set already has our entry, or supersedes it. *)
Definition superseded_by (values : list (E * ContentStatus)) (our_entry : E) : bool :=
  existsb (λ v, eqb (re_key our_entry) (re_key v.1)
                && geb (re_value v.1) (re_value our_entry)) values.

Definition item_diff (item : RangeItem E K)
    : ST (S * W) Err (option (list (E * ContentStatus))) :=
  if ri_have_local item then mret None
  else
    ours ← store_op (rs_get_range (ri_range item));
    d ← with_status (List.filter (λ e, negb (superseded_by (ri_values item) e)) ours);
    mret (Some d).

(** One incoming value; the parts echoed to the sender. *)
Definition store_value (v : E * ContentStatus) : ST (S * W) Err (Message E K R) :=
  let '(entry, content_status) := v in
  outcome ← st_gets (λ p, validate_cb p.1 entry content_status);
  match outcome with
  | Accept =>
      insert ← store_op (put entry);
      match insert with
      | Inserted _ =>
          _ ← st_modify (λ p, (p.1, on_insert_cb p.1 entry content_status p.2));
          mret []
      | NotInserted => mret []
      end
  | Drop => mret []
  | Reject =>
      w ← store_op (would_insert entry);
      mret (if w : bool then [MpRejected (re_reject_id entry)] else [])
  end.

Definition store_values (out : Message E K R) (values : list (E * ContentStatus))
    : ST (S * W) Err (Message E K R) :=
  st_fold (λ out v, ps ← store_value v; mret (out ++ ps)) out values.

Definition process_item (out : Message E K R) (item : RangeItem E K)
    : ST (S * W) Err (Message E K R) :=
  diff ← item_diff item;
  out ← store_values out (ri_values item);
  match diff with
  | Some diff =>
      if length diff =? 0 then mret out
      else mret (out ++ [MpItem (Build_RangeItem (ri_range item) diff true)])
  | None => mret out
  end.

(** The number of leading entries below [x]. *)
Fixpoint count_below (x : K) (es : list E) : nat :=
  match es with
  | [] => 0
  | el :: es' => if geb (re_key el) x then 0 else Datatypes.S (count_below x es')
  end.

Definition pivot_offset (num_local_values start_index i : nat) : nat :=
  let i := i mod split_factor config in
  let offset := (num_local_values * (i + 1)) / split_factor config in
  (start_index + offset) mod num_local_values.

Definition pivot (r : Range K) (num_local_values start_index i : nat) : ST S Err K :=
  es ← rs_get_range r;
  match es !! pivot_offset num_local_values start_index i with
  | Some e => mret (re_key e)
  | None => st_panic
  end.

(** The ranges between successive pivots, for [i] in [0..count]. *)
Definition pivot_ranges (r : Range K) (num_local_values start_index count : nat)
    : ST S Err (list (Range K)) :=
  st_fold (λ acc i,
    x ← pivot r num_local_values start_index i;
    y ← pivot r num_local_values start_index (i + 1);
    mret (if negb (eqb x y) then acc ++ [Build_Range x y] else acc)) [] (seq 0 count).

Definition split_ranges (r : Range K) (num_local_values start_index : nat)
    : ST S Err (list (Range K)) :=
  if split_factor config =? 0 then st_panic
  else if range_is_all r then pivot_ranges r num_local_values start_index (split_factor config)
  else
    p0 ← pivot r num_local_values start_index 0;
    if split_factor config <? 2 then st_panic
    else
      mid ← pivot_ranges r num_local_values start_index (split_factor config - 2);
      pl ← pivot r num_local_values start_index (split_factor config - 2);
      mret (Build_Range (rg_x r) p0 :: mid ++ [Build_Range pl (rg_y r)]).

(** The answer for one sub-range, and whether it holds anything. *)
Definition range_part (range : Range K) : ST (S * W) Err (bool * MessagePart E K R) :=
  chunk ← store_op (rs_get_range range);
  fingerprint ← store_op (rs_get_fingerprint range);
  if max_set_size config <? length chunk
  then mret (negb (length chunk =? 0), MpFingerprint (Build_RangeFingerprint range fingerprint))
  else
    values ← with_status chunk;
    mret (negb (length chunk =? 0), MpItem (Build_RangeItem range values false)).

Definition range_parts (ranges : list (Range K)) : ST (S * W) Err (nat * Message E K R) :=
  st_fold (λ acc range,
    p ← range_part range;
    mret (if p.1 : bool then Datatypes.S acc.1 else acc.1, acc.2 ++ [p.2])) (0, []) ranges.

Definition process_fingerprint (out : Message E K R) (fp : RangeFingerprint K)
    : ST (S * W) Err (Message E K R) :=
  let range := rf_range fp in
  local_fingerprint ← store_op (rs_get_fingerprint range);
  if eqb local_fingerprint (rf_fingerprint fp) then mret out
  else
    num_local_values ← store_op (rs_get_range_len range);
    if (num_local_values <=? 1) || eqb (rf_fingerprint fp) re_fp_empty then
      es ← store_op (rs_get_range range);
      values ← with_status es;
      mret (out ++ [MpItem (Build_RangeItem range values false)])
    else
      es ← store_op (rs_get_range range);
      ranges ← store_op (split_ranges range num_local_values (count_below (rg_x range) es));
      parts ← range_parts ranges;
      (* debug_assert!(non_empty > 1) *)
      if negb (1 <? parts.1) then st_panic
      else mret (out ++ parts.2).

Definition message_items (m : Message E K R) : list (RangeItem E K) :=
  omap (λ p, match p with MpItem item => Some item | _ => None end) m.
Definition message_fingerprints (m : Message E K R) : list (RangeFingerprint K) :=
  omap (λ p, match p with MpFingerprint fp => Some fp | _ => None end) m.

Definition process_message (message : Message E K R)
    : ST (S * W) Err (option (Message E K R)) :=
  out ← st_fold process_item [] (message_items message);
  out ← st_fold process_fingerprint out (message_fingerprints message);
  mret (if negb (length out =? 0) then Some out else None).
End ranger.

(** ** What a store promises

    The content a session reads ([rs_view]) may be a frozen snapshot; the
    content writes act on ([rs_live]) is current.  [rs_listed p k] says that
    [prefixes_of k] lists the live entry [p], [rs_covered k k'] that
    [remove_prefix_filtered k] looks at the entry at [k']. *)
Class RangerModel (S E K : Type) := {
  rs_inv : S → Prop;
  rs_view : S → list E;
  rs_live : S → K → option E;
  rs_key_ok : S → K → Prop;
  rs_entry_ok : S → E → Prop;
  rs_listed : E → K → bool;
  rs_covered : K → K → bool;
}.

Definition range_ok {S E K} `{RangerModel S E K} (s : S) (r : Range K) : Prop :=
  rg_x r = rg_y r ∨ (rs_key_ok s (rg_x r) ∧ rs_key_ok s (rg_y r)).

(** A state after operations that change no content. *)
Record rs_same {S E K} `{RangerModel S E K} (s s' : S) : Prop := {
  same_inv : rs_inv s';
  same_view : rs_view s' = rs_view s;
  same_live : ∀ k, rs_live s' k = rs_live s k;
  same_key_ok : ∀ k, rs_key_ok s' k ↔ rs_key_ok s k;
  same_entry_ok : ∀ e, rs_entry_ok s' e ↔ rs_entry_ok s e;
}.

(** A state after writes: the content may differ, what is admissible not. *)
Record rs_wrote {S E K} `{RangerModel S E K} (s s' : S) : Prop := {
  wrote_inv : rs_inv s';
  wrote_key_ok : ∀ k, rs_key_ok s' k ↔ rs_key_ok s k;
  wrote_entry_ok : ∀ e, rs_entry_ok s' e ↔ rs_entry_ok s e;
}.

Definition in_range {E K V R} `{Cmp K, !RangeEntry E K V R} (r : Range K) (e : E) : bool :=
  range_contains r (re_key e).
Definition range_fingerprint {E K V R} `{!RangeEntry E K V R} (es : list E) : Fingerprint :=
  foldl (λ fp e, fp_xor fp (re_fingerprint e)) re_fp_empty es.

Class RangerStoreOk (S E K V R Err : Type)
    `{Cmp K, Cmp V, !RangeEntry E K V R, !RangerStore S E K V Err, !RangerModel S E K} : Prop := {
  rs_view_sorted : ∀ s, rs_inv s → StronglySorted (key_lt re_key) (rs_view s);
  rs_view_key_ok : ∀ s e, rs_inv s → e ∈ rs_view s → rs_key_ok s (re_key e);
  rs_live_key : ∀ s k e, rs_inv s → rs_live s k = Some e → re_key e = k;
  rs_get_first_ok : ∀ s, rs_inv s → wp rs_get_first s (λ k s', rs_same s s'
    ∧ match rs_view s with e :: _ => k = re_key e | [] => True end);
  rs_get_range_ok : ∀ s r, rs_inv s → range_ok s r →
    wp (rs_get_range r) s (λ es s', es = List.filter (in_range r) (rs_view s) ∧ rs_same s s');
  rs_get_fingerprint_ok : ∀ s r, rs_inv s → range_ok s r →
    wp (rs_get_fingerprint r) s (λ fp s',
      fp = range_fingerprint (List.filter (in_range r) (rs_view s)) ∧ rs_same s s');
  rs_prefixes_of_ok : ∀ s k, rs_inv s → wp (rs_prefixes_of k) s (λ ps s',
    (∀ p, p ∈ ps ↔ rs_live s (re_key p) = Some p ∧ rs_listed p k = true) ∧ rs_same s s');
  rs_remove_ok : ∀ s k f, rs_inv s → wp (rs_remove_prefix_filtered k f) s (λ n s',
    rs_wrote s s' ∧ ∀ k', rs_live s' k' =
      e ← rs_live s k'; if rs_covered k k' && f (re_value e) then None else Some e);
  rs_entry_put_ok : ∀ s e, rs_inv s → rs_entry_ok s e → wp (rs_entry_put e) s (λ _ s',
    rs_wrote s s' ∧ ∀ k', rs_live s' k' = if eqb (re_key e) k' then Some e else rs_live s k');
  (** the order of values is total *)
  rs_value_antisym : ∀ v w : V, cmp w v = CompOpp (cmp v w);
  rs_listed_covered : ∀ e k, rs_listed e k = true → rs_covered (re_key e) k = true;
}.

(** ** Ranges as arcs of a circle *)
Section arcs.
Context {K : Type} `{CmpOk K}.
Implicit Types x y m t : K.

Abbreviation arc x y := (range_contains (Build_Range x y)).

Lemma arc_def x y t :
  arc x y t = if ltb x y then leb x t && ltb t y
              else if ltb y x then leb x t || ltb t y else true.
Proof.
  unfold range_contains. simpl.
  assert (ltb y x = match cmp x y with Gt => true | _ => false end) as ->.
  { unfold ltb. rewrite (cmp_antisym x y). by destruct (cmp x y). }
  assert (ltb x y = match cmp x y with Lt => true | _ => false end) as -> by done.
  by destruct (cmp x y).
Qed.

Lemma arc_start x y : arc x y x = true.
Proof. rewrite arc_def, leb_refl. destruct (ltb x y) eqn:Hl; [done|]. by destruct (ltb y x). Qed.

Lemma arc_all x t : arc x x t = true.
Proof. by rewrite arc_def, ltb_irrefl. Qed.

Lemma arc_end x y : x ≠ y → arc x y y = false.
Proof.
  intros Hne. rewrite arc_def, ltb_irrefl, leb_negb_ltb.
  destruct (ltb x y) eqn:Hxy; [apply andb_false_r|].
  destruct (ltb y x) eqn:Hyx; [done|]. by destruct Hne; apply ltb_total.
Qed.

(** Decide a statement about arcs by the order of all the points. *)
Ltac arc_brute :=
  rewrite ?arc_def in *; ord_norm;
  repeat match goal with
  | a : K, b : K |- _ => lazymatch goal with
      | _ : ltb a b = _ |- _ => fail
      | _ => ord_tri a b
      end
  end;
  rewrite ?ltb_irrefl in *;
  repeat match goal with
  | E : ltb ?a ?b = _ |- _ => rewrite ?E in *; clear E
  end; simpl in *; try done.

(** A point inside an arc cuts it in two. *)
Lemma arc_cut x y m t :
  arc x y m = true → m ≠ x →
  arc x y t = arc x m t || arc m y t ∧ arc x m t && arc m y t = false.
Proof. intros Hm Hne. arc_brute. Qed.

(** Points in circular order towards [y]. *)
Definition onward (y a b : K) : Prop := arc a y b = true ∧ a ≠ b.

Lemma onward_back y a b : onward y a b → arc b y a = false.
Proof.
  intros [Hab Hne]. destruct (arc_cut a y b a Hab) as [_ Hx]; [congruence|].
  by rewrite arc_start in Hx.
Qed.

(** The ranges between successive cut points. *)
Fixpoint pieces (x : K) (ms : list K) (y : K) : list (Range K) :=
  match ms with
  | [] => [Build_Range x y]
  | m :: ms' => Build_Range x m :: pieces m ms' y
  end.
Fixpoint chain (x : K) (ms : list K) (y : K) : Prop :=
  match ms with
  | [] => True
  | m :: ms' => onward y x m ∧ chain m ms' y
  end.

(** Every point of [r], and no other, is in exactly one of [rs]. *)
Definition covers (rs : list (Range K)) (r : Range K) : Prop :=
  ∀ t, length (List.filter (λ q, range_contains q t) rs) = if range_contains r t then 1 else 0.

Lemma pieces_cover x ms y : chain x ms y → covers (pieces x ms y) (Build_Range x y).
Proof.
  revert x. induction ms as [|m ms IH]; intros x; simpl.
  { intros _ t. simpl. by destruct (arc x y t). }
  intros [[Hm Hne] Hc] t. simpl. specialize (IH m Hc t).
  destruct (arc_cut x y m t Hm) as [-> Hx]; [congruence|].
  destruct (arc x m t); simpl in *.
  - by rewrite IH, Hx.
  - exact IH.
Qed.

Lemma covers_single r : covers [r] r.
Proof. intros t. simpl. by destruct (range_contains r t). Qed.

(** Increasing positions in a circularly ordered list are a chain. *)
Lemma chain_lookup (y : K) (ks : list K) (f : nat → nat) (g : nat → K) a n :
  StronglySorted (onward y) ks →
  (∀ i, a ≤ i ≤ a + n → ks !! f i = Some (g i)) →
  (∀ i, a ≤ i < a + n → f i < f (S i)) →
  chain (g a) (g <$> seq (S a) n) y.
Proof.
  intros Hs. revert a. induction n as [|n IH]; intros a Hg Hf; simpl; [done|].
  split.
  - assert (ks !! f a = Some (g a)) as Ha by (apply Hg; lia).
    assert (ks !! f (S a) = Some (g (S a))) as Hb by (apply Hg; lia).
    assert (f a < f (S a)) as Hlt by (apply Hf; lia).
    rewrite <- (take_drop (f (S a)) ks) in Hs.
    eapply StronglySorted_app_1_elem_of; [exact Hs| |].
    + apply elem_of_take. eauto.
    + apply list_elem_of_lookup. exists 0. rewrite lookup_drop. by rewrite Nat.add_0_r.
  - apply IH; intros i Hi; [apply Hg|apply Hf]; lia.
Qed.

Lemma chain_lookup_from (x y : K) (ks : list K) (f : nat → nat) (g : nat → K) n :
  StronglySorted (onward y) ks → Forall (λ k, arc x y k = true) ks →
  0 < f 0 →
  (∀ i, i ≤ n → ks !! f i = Some (g i)) → (∀ i, i < n → f i < f (S i)) →
  chain x (g <$> seq 0 (S n)) y.
Proof.
  intros Hs Hall Hpos Hg Hf. simpl. split.
  2: { apply (chain_lookup y ks f); [done|intros; apply Hg; lia|intros; apply Hf; lia]. }
  assert (ks !! f 0 = Some (g 0)) as Hg0 by (apply Hg; lia).
  rewrite Forall_forall in Hall.
  split; [by apply Hall; eapply list_elem_of_lookup_2|].
  intros ->. destruct ks as [|k ks]; [done|].
  apply StronglySorted_cons in Hs as [Hk _]. rewrite Forall_forall in Hk.
  destruct (f 0) as [|j]; [lia|]. simpl in Hg0.
  apply list_elem_of_lookup_2 in Hg0. pose proof (Hk _ Hg0) as Hon.
  apply onward_back in Hon. rewrite Hall in Hon by left. done.
Qed.

(** ** The rotation that starts at [x] *)
Lemma onward_up x y a b :
  ltb a x = ltb b x → arc x y a = true → arc x y b = true → ltb a b = true → onward y a b.
Proof.
  intros Hx Ha Hb Hab. split; [|intros ->; by rewrite ltb_irrefl in Hab].
  arc_brute.
Qed.

Lemma onward_wrap x y a b :
  ltb a x = false → ltb b x = true → arc x y a = true → arc x y b = true → onward y a b.
Proof.
  intros Hax Hbx Ha Hb. split; [|congruence]. arc_brute.
Qed.

Lemma StronglySorted_impl_elem {A} (P Q : relation A) (l : list A) :
  (∀ a b, a ∈ l → b ∈ l → P a b → Q a b) → StronglySorted P l → StronglySorted Q l.
Proof.
  induction l as [|a l IH]; intros Himp Hs; [constructor|].
  apply StronglySorted_cons in Hs as [Ha Hs]. apply StronglySorted_cons.
  rewrite Forall_forall in Ha |- *. split.
  - intros b Hb. apply Himp; [left|by right|by apply Ha].
  - apply IH; [|done]. intros b c Hb Hc. apply Himp; by right.
Qed.

Lemma rotate_onward x y (low high : list K) :
  StronglySorted (key_lt id) (low ++ high) →
  Forall (λ k, ltb k x = true) low → Forall (λ k, ltb k x = false) high →
  Forall (λ k, arc x y k = true) (low ++ high) →
  StronglySorted (onward y) (high ++ low).
Proof.
  intros Hs Hlow Hhigh Hall. rewrite Forall_app in Hall. destruct Hall as [Hal Hah].
  rewrite Forall_forall in Hlow, Hhigh, Hal, Hah.
  apply StronglySorted_app in Hs as (_ & Hl & Hh). apply StronglySorted_app. split_and!.
  - intros a b Ha Hb. apply (onward_wrap x); auto.
  - apply (StronglySorted_impl_elem (key_lt id)); [|done].
    intros a b Ha Hb Hab. apply (onward_up x); auto. by rewrite !Hhigh.
  - apply (StronglySorted_impl_elem (key_lt id)); [|done].
    intros a b Ha Hb Hab. apply (onward_up x); auto. by rewrite !Hlow.
Qed.

Lemma lookup_rotate (low high : list K) j :
  j < length low + length high →
  (high ++ low) !! j = (low ++ high) !! ((length low + j) mod (length low + length high)).
Proof.
  intros Hj. destruct (decide (j < length high)) as [Hlt|Hge].
  - rewrite Nat.mod_small by lia. rewrite lookup_app_l by done.
    rewrite lookup_app_r by lia. f_equal. lia.
  - replace (length low + j) with (j - length high + 1 * (length low + length high)) by lia.
    rewrite Nat.Div0.mod_add, Nat.mod_small by lia.
    rewrite lookup_app_r by lia. rewrite lookup_app_l by lia. done.
Qed.

(** A sorted list cut at [x]. *)
Fixpoint low_keys (x : K) (ks : list K) : list K :=
  match ks with
  | [] => []
  | k :: ks' => if geb k x then [] else k :: low_keys x ks'
  end.

Lemma low_keys_cut x ks :
  StronglySorted (key_lt id) ks →
  ∃ high, ks = low_keys x ks ++ high
    ∧ Forall (λ k, ltb k x = true) (low_keys x ks) ∧ Forall (λ k, ltb k x = false) high.
Proof.
  induction ks as [|k ks IH]; intros Hs; simpl; [by exists []|].
  apply StronglySorted_cons in Hs as [Hk Hs]. rewrite geb_negb_ltb.
  destruct (ltb k x) eqn:Hlt; simpl.
  - destruct (IH Hs) as (high & Heq & Hl & Hh). exists high.
    split_and!; [by f_equal|by constructor|done].
  - exists (k :: ks). split_and!; [done|constructor|constructor; [done|]].
    rewrite Forall_forall in Hk |- *. intros k' Hk'. specialize (Hk k' Hk').
    unfold key_lt, id in Hk. destruct (ltb k' x) eqn:Hlt'; [|done].
    rewrite (ltb_trans k k' x) in Hlt; done.
Qed.

(** The circular view of a sorted list from [x], by position. *)
Lemma circular_view x y (ks : list K) :
  StronglySorted (key_lt id) ks → Forall (λ k, arc x y k = true) ks →
  ∃ R, StronglySorted (onward y) R ∧ Forall (λ k, arc x y k = true) R
    ∧ ∀ j, j < length ks → R !! j = ks !! ((length (low_keys x ks) + j) mod length ks).
Proof.
  intros Hs Hall. destruct (low_keys_cut x ks Hs) as (high & Heq & Hl & Hh).
  exists (high ++ low_keys x ks). remember (low_keys x ks) as low. subst ks.
  split_and!.
  - by apply (rotate_onward x).
  - rewrite Forall_app in Hall |- *. tauto.
  - intros j. rewrite length_app. apply lookup_rotate.
Qed.
End arcs.

(** ** The pivots *)
Definition pivot_step (n k i : nat) : nat := (n * (i + 1)) / k.

Lemma pivot_step_lt n k i : 0 < k → k ≤ n → pivot_step n k i < pivot_step n k (S i).
Proof.
  intros Hk Hn. unfold pivot_step.
  assert ((n * (i + 1)) / k + 1 ≤ (n * (S i + 1)) / k); [|lia].
  rewrite <- Nat.div_add by lia. apply Nat.Div0.div_le_mono. lia.
Qed.

Lemma pivot_step_bound n k i : 0 < k → 0 < n → i + 1 < k → pivot_step n k i < n.
Proof. intros Hk Hn Hi. apply Nat.Div0.div_lt_upper_bound. nia. Qed.

Lemma pivot_step_last n k : 0 < k → pivot_step n k (k - 1) = n.
Proof. intros Hk. unfold pivot_step. replace (k - 1 + 1) with k by lia. by apply Nat.div_mul; lia. Qed.

Lemma pivot_step_pos n k i : 0 < k → k ≤ n → 0 < pivot_step n k i.
Proof.
  intros Hk Hn. unfold pivot_step.
  apply Nat.div_str_pos. nia.
Qed.

Lemma pivot_step_le n k i : 0 < k → i < k → pivot_step n k i ≤ n.
Proof.
  intros Hk Hi. unfold pivot_step. apply Nat.Div0.div_le_upper_bound. nia.
Qed.

Lemma pivot_step_mono n k i j : 0 < k → i ≤ j → pivot_step n k i ≤ pivot_step n k j.
Proof. intros Hk Hij. apply Nat.Div0.div_le_mono. nia. Qed.

Section pivot_facts.
Context {K : Type} `{CmpOk K}.
Context (k : nat) (x y : K) (ks : list K).
Context (Hk : 2 ≤ k) (Hn : k ≤ length ks).
Context (Hsorted : StronglySorted (key_lt id) ks).
Context (Hall : Forall (λ t, range_contains (Build_Range x y) t = true) ks).

(** [p i] is the key the pivot [i] selects. *)
Context (p : nat → K).
Context (Hp : ∀ i, i < k →
  ks !! ((length (low_keys x ks) + pivot_step (length ks) k i) mod length ks) = Some (p i)).

(** The pivots of a proper range cut it in circular order. *)
Lemma pivots_chain : chain x (p <$> seq 0 (k - 1)) y.
Proof.
  destruct (circular_view x y ks Hsorted Hall) as (R & Hs & HR & Hl).
  replace (k - 1) with (S (k - 2)) by lia.
  apply (chain_lookup_from x y R (pivot_step (length ks) k)); [done|done| | |].
  - apply pivot_step_pos; lia.
  - intros i Hi. rewrite Hl by (apply pivot_step_bound; lia). apply Hp. lia.
  - intros i Hi. apply pivot_step_lt; lia.
Qed.

(** Seen from the first pivot, the others are in circular order. *)
Lemma pivots_chain_all : chain (p 0) (p <$> seq 1 (k - 1)) (p 0).
Proof.
  set (n := length ks) in *. set (a := length (low_keys x ks)) in *.
  set (j0 := (a + pivot_step n k 0) mod n).
  assert (ks !! j0 = Some (p 0)) as Hp0 by (apply Hp; lia).
  destruct (circular_view (p 0) (p 0) ks Hsorted) as (R & Hs & HR & Hl).
  { apply Forall_forall. intros t _. apply arc_all. }
  assert (length (low_keys (p 0) ks) = j0) as Hj0.
  { destruct (low_keys_cut (p 0) ks Hsorted) as (high & Heq & Hlo & Hhi).
    remember (low_keys (p 0) ks) as low eqn:Hlow. clear Hlow.
    assert (j0 < n) as Hlt by (by eapply lookup_lt_Some).
    rewrite Forall_forall in Hlo, Hhi.
    destruct (lt_eq_lt_dec j0 (length low)) as [[Hc|Hc]|Hc]; [|done|].
    - exfalso. rewrite Heq in Hp0. rewrite lookup_app_l in Hp0 by done.
      apply list_elem_of_lookup_2, Hlo in Hp0. by rewrite ltb_irrefl in Hp0.
    - exfalso. (* the first high key is strictly below [p 0] *)
      destruct (lookup_lt_is_Some_2 ks (length low)) as [t Ht]; [lia|].
      assert (t ∈ high) as Hth.
      { rewrite Heq, lookup_app_r, Nat.sub_diag in Ht by done. by eapply list_elem_of_lookup_2. }
      rewrite <- (take_drop j0 ks) in Hsorted.
      assert (key_lt id t (p 0)) as Hlt'.
      { eapply StronglySorted_app_1_elem_of; [exact Hsorted| |].
        - apply elem_of_take. eauto.
        - apply list_elem_of_lookup. exists 0. rewrite lookup_drop. by rewrite Nat.add_0_r. }
      unfold key_lt, id in Hlt'. by rewrite Hhi in Hlt'. }
  apply (chain_lookup (p 0) R (λ i, pivot_step n k i - pivot_step n k 0)); [done| |].
  - intros i Hi. pose proof (pivot_step_pos n k 0). pose proof (pivot_step_le n k i).
    pose proof (pivot_step_mono n k 0 i).
    rewrite Hl by (fold n; lia). rewrite <- (Hp i) by lia. f_equal.
    rewrite Hj0. unfold j0. fold n. rewrite Nat.Div0.add_mod_idemp_l. f_equal. lia.
  - intros i Hi. pose proof (pivot_step_lt n k i). pose proof (pivot_step_mono n k 0 i). lia.
Qed.
End pivot_facts.

Lemma pieces_seq {K} (p : nat → K) (y : K) a n :
  pieces (p a) (p <$> seq (S a) n) y =
    ((λ i, Build_Range (p i) (p (S i))) <$> seq a n) ++ [Build_Range (p (a + n)) y].
Proof.
  revert a. induction n as [|n IH]; intros a; simpl; [by rewrite Nat.add_0_r|].
  rewrite IH. by rewrite Nat.add_succ_r.
Qed.

(** ** The reconciliation against a store that keeps its promises *)
Section ranger_facts.
Context {S E K V R Err W : Type}.
Context `{CmpOk K, Cmp V, !RangeEntry E K V R, !RangerStore S E K V Err, !RangerModel S E K}.
Context `{!RangerStoreOk S E K V R Err}.
Context (config : SyncConfig).
Implicit Types (s : S) (r : Range K) (e : E).

Lemma rs_same_refl s : rs_inv s → rs_same s s.
Proof. by split. Qed.

Lemma rs_same_trans s1 s2 s3 : rs_same s1 s2 → rs_same s2 s3 → rs_same s1 s3.
Proof.
  intros [Hi1 Hv1 Hl1 Hk1 He1] [Hi2 Hv2 Hl2 Hk2 He2]. split; [done|congruence| | |].
  - intros k. by rewrite Hl2.
  - intros k. by rewrite Hk2.
  - intros e. by rewrite He2.
Qed.

Lemma range_ok_same s s' r : rs_same s s' → range_ok s' r ↔ range_ok s r.
Proof. intros Hs. unfold range_ok. by rewrite !(same_key_ok _ _ Hs). Qed.

(** The entries of the view that a range holds. *)
Definition local s r : list E := List.filter (in_range r) (rs_view s).

Lemma local_same s s' r : rs_same s s' → local s' r = local s r.
Proof. intros Hs. unfold local. by rewrite (same_view _ _ Hs). Qed.

Lemma local_keys_sorted s r : rs_inv s → StronglySorted (key_lt id) (re_key <$> local s r).
Proof.
  intros Hi. pose proof (sorted_filter re_key (in_range r) _ (rs_view_sorted s Hi)) as Hs.
  unfold local. revert Hs. generalize (List.filter (in_range r) (rs_view s)).
  intros l. induction l as [|e l IH]; intros Hs; simpl; [constructor|].
  apply StronglySorted_cons in Hs as [He Hs]. apply StronglySorted_cons.
  split; [|by apply IH]. apply Forall_forall.
  intros k (e' & -> & He')%list_elem_of_fmap. by apply (proj1 (Forall_forall _ _) He).
Qed.

Lemma local_in_range s r :
  Forall (λ t, range_contains (Build_Range (rg_x r) (rg_y r)) t = true) (re_key <$> local s r).
Proof.
  apply Forall_forall. intros k (e & -> & He)%list_elem_of_fmap.
  apply elem_of_filter_list in He as [_ He]. by destruct r.
Qed.

Lemma count_below_low x (es : list E) : count_below x es = length (low_keys x (re_key <$> es)).
Proof.
  induction es as [|e es IH]; simpl; [done|]. destruct (geb (re_key e) x); simpl; [done|].
  by rewrite IH.
Qed.

Section split.
Context (s0 : S) (r : Range K).
Context (Hinv0 : rs_inv s0) (Hr0 : range_ok s0 r).

Let es := local s0 r.
Let n := length es.
Let start := count_below (rg_x r) es.
Let k := split_factor config.
(** The key the pivot [i] selects. *)
Let p (i : nat) : K :=
  default (rg_x r) ((re_key <$> es) !! pivot_offset config n start i).

Context (Hk : 2 ≤ k) (Hn : k ≤ n).

Lemma pivot_offset_lookup i :
  (re_key <$> es) !! pivot_offset config n start i = Some (p i).
Proof.
  unfold p. destruct (lookup_lt_is_Some_2 (re_key <$> es) (pivot_offset config n start i))
    as [t ->]; [|done].
  rewrite length_fmap. fold n. apply Nat.mod_upper_bound. lia.
Qed.

Lemma pivot_offset_step i : i < k →
  pivot_offset config n start i = (start + pivot_step n k i) mod n.
Proof. intros Hi. unfold pivot_offset. fold k. by rewrite (Nat.mod_small i k). Qed.

Lemma pivot_wrap : p k = p 0.
Proof.
  unfold p, pivot_offset. fold k. rewrite Nat.Div0.mod_same, Nat.Div0.mod_0_l. done.
Qed.

Lemma pivots_selected i : i < k →
  (re_key <$> es) !! ((length (low_keys (rg_x r) (re_key <$> es))
    + pivot_step (length (re_key <$> es)) k i) mod length (re_key <$> es)) = Some (p i).
Proof.
  intros Hi. rewrite length_fmap. fold n. rewrite <- count_below_low. fold start.
  rewrite <- pivot_offset_step by done. apply pivot_offset_lookup.
Qed.

Lemma pivot_local i : ∃ e, e ∈ es ∧ re_key e = p i.
Proof.
  pose proof (pivot_offset_lookup i) as Hp. apply list_elem_of_lookup_2 in Hp.
  apply list_elem_of_fmap in Hp as (e & -> & He). eauto.
Qed.

Lemma pivot_wp s i : rs_same s0 s →
  wp (pivot config r n start i) s (λ t s', t = p i ∧ rs_same s0 s').
Proof.
  intros Hs. unfold pivot. wp_step.
  eapply wp_mono.
  { apply rs_get_range_ok; [apply Hs|by rewrite (range_ok_same s0 s)]. }
  intros es' s' [-> Hs']. fold (local s r). rewrite (local_same s0 s) by done. fold es.
  pose proof (pivot_offset_lookup i) as Hl. rewrite list_lookup_fmap in Hl.
  destruct (es !! pivot_offset config n start i) as [e|]; [|done]. simpl in Hl.
  wp_step. split; [congruence|]. by eapply rs_same_trans.
Qed.

Lemma pivot_ranges_wp s count : rs_same s0 s →
  (∀ i, i < count → p i ≠ p (i + 1)) →
  wp (pivot_ranges config r n start count) s (λ rs s',
    rs = ((λ i, Build_Range (p i) (p (Datatypes.S i))) <$> seq 0 count) ∧ rs_same s0 s').
Proof.
  intros Hs Hne. unfold pivot_ranges.
  eapply wp_mono; [apply wp_fold with (I := λ done rs s',
    rs = ((λ i, Build_Range (p i) (p (Datatypes.S i))) <$> done) ∧ rs_same s0 s')|].
  - intros l1 i l2 b s' Heq [-> Hs']. wp_step.
    eapply wp_mono; [by apply pivot_wp|]. intros x s1 [-> Hs1]. wp_step.
    eapply wp_mono; [by apply pivot_wp|]. intros y s2 [-> Hs2]. wp_step.
    assert (i < count) as Hi.
    { assert (i ∈ seq 0 count) as Hin by (rewrite Heq; set_solver).
      apply elem_of_seq in Hin. lia. }
    specialize (Hne i Hi). destruct (eqb (p i) (p (i + 1))) eqn:Hpe; [by apply eqb_eq in Hpe|].
    simpl. rewrite fmap_app. rewrite Nat.add_1_r. done.
  - done.
  - done.
Qed.

Lemma mod_shift_ne (c a b m : nat) : a < b → b < a + m → (c + a) mod m ≠ (c + b) mod m.
Proof.
  intros Hab Hb Heq.
  pose proof (Nat.div_mod_eq (c + a) m). pose proof (Nat.div_mod_eq (c + b) m).
  assert (b - a = m * ((c + b) / m) - m * ((c + a) / m)) as Hd by lia.
  rewrite <- Nat.mul_sub_distr_l in Hd.
  destruct ((c + b) / m - (c + a) / m) as [|q]; [lia|]. nia.
Qed.

Lemma pivots_distinct i j : i < j → j < k → p i ≠ p j.
Proof.
  intros Hij Hj Heq.
  pose proof (pivot_offset_lookup i) as Hi'. pose proof (pivot_offset_lookup j) as Hj'.
  rewrite Heq in Hi'.
  assert (NoDup (re_key <$> es)) as Hnd
    by (apply (sorted_NoDup id), local_keys_sorted, Hinv0).
  pose proof (NoDup_lookup _ _ _ _ Hnd Hi' Hj') as Hoff.
  rewrite !pivot_offset_step in Hoff by lia. revert Hoff.
  pose proof (pivot_step_pos n k i). pose proof (pivot_step_le n k j).
  pose proof (pivot_step_lt n k i). pose proof (pivot_step_mono n k (Datatypes.S i) j).
  apply mod_shift_ne; lia.
Qed.

(** What a cut of the range gives. *)
Definition good_cut (rs : list (Range K)) : Prop :=
  2 ≤ length rs ∧ covers rs r
  ∧ ∀ q, q ∈ rs → range_ok s0 q ∧ ∃ e, e ∈ es ∧ in_range q e = true.

Lemma pivot_key_ok i : rs_key_ok s0 (p i).
Proof.
  destruct (pivot_local i) as (e & He & <-). apply rs_view_key_ok; [done|].
  by apply elem_of_filter_list in He as [? _].
Qed.

Lemma pieces_good x ms y :
  chain x ms y → r = Build_Range x y ∨ (x = y ∧ rg_x r = rg_y r) →
  (∃ e, e ∈ es ∧ in_range (Build_Range x (hd y ms)) e = true) →
  (∀ m, m ∈ ms → ∃ i, m = p i) →
  (ms ≠ [] → rs_key_ok s0 x ∧ rs_key_ok s0 y) → 1 ≤ length ms →
  good_cut (pieces x ms y).
Proof.
  intros Hc Hrxy Hfst Hms Hxy Hlen. split_and!.
  - clear -Hlen. destruct ms as [|m ms]; simpl in *; [lia|]. destruct ms; simpl; lia.
  - intros t. rewrite (pieces_cover x ms y) by done.
    destruct Hrxy as [->|[-> Hall]]; [done|]. destruct r as [rx ry]. simpl in Hall.
    subst ry. by rewrite !arc_all.
  - assert (Hxy' : rs_key_ok s0 x ∧ rs_key_ok s0 y) 
      by (apply Hxy; destruct ms; simpl in *; [lia|done]).
    clear Hc Hrxy Hxy Hlen. destruct Hxy' as [Hx Hy]. revert x Hx Hfst.
    induction ms as [|m ms IH]; intros x Hx Hfst q; simpl.
    + rewrite list_elem_of_singleton. intros ->. split; [right; done|done].
    + destruct (Hms m) as [i Hi]; [left|].
      assert (rs_key_ok s0 m) as Hm by (rewrite Hi; apply pivot_key_ok).
      intros [->|Hq]%elem_of_cons; [split; [right; done|done]|].
      apply (IH (λ m' Hm', Hms m' (list_elem_of_further _ _ _ Hm')) m); [done| |done].
      destruct (pivot_local i) as (e & He & Hke). exists e. split; [done|].
      unfold in_range. rewrite Hke, <- Hi. apply arc_start.
Qed.
Lemma pivots_are_pivots (l : list nat) m : m ∈ p <$> l → ∃ i, m = p i.
Proof. intros (i & -> & _)%list_elem_of_fmap. eauto. Qed.

Lemma start_local x y : x = p 0 → ∃ e, e ∈ es ∧ in_range (Build_Range x y) e = true.
Proof.
  intros ->. destruct (pivot_local 0) as (e & He & Hke). exists e. split; [done|].
  unfold in_range. rewrite Hke. apply arc_start.
Qed.

Lemma split_all_good : rg_x r = rg_y r →
  good_cut ((λ i, Build_Range (p i) (p (Datatypes.S i))) <$> seq 0 k).
Proof.
  intros Hall.
  assert ((λ i, Build_Range (p i) (p (Datatypes.S i))) <$> seq 0 k =
    pieces (p 0) (p <$> seq 1 (k - 1)) (p 0)) as ->.
  { rewrite (pieces_seq p (p 0) 0 (k - 1)). replace k with (Datatypes.S (k - 1)) at 1 by lia.
    rewrite seq_S, fmap_app. simpl. replace (Datatypes.S (k - 1)) with k by lia.
    by rewrite pivot_wrap. }
  apply pieces_good.
  - apply (pivots_chain_all k (rg_x r) (re_key <$> es)); [done| | |apply pivots_selected].
    + by rewrite length_fmap.
    + by apply local_keys_sorted.
  - by right.
  - by apply start_local.
  - intros m Hm. by eapply pivots_are_pivots.
  - intros _. split; apply pivot_key_ok.
  - rewrite length_fmap, length_seq. lia.
Qed.

(** The first piece of a proper range holds the first entry at or after [x]
    on the circle. *)
Lemma split_proper_good : rg_x r ≠ rg_y r →
  good_cut (Build_Range (rg_x r) (p 0)
    :: ((λ i, Build_Range (p i) (p (Datatypes.S i))) <$> seq 0 (k - 2))
    ++ [Build_Range (p (k - 2)) (rg_y r)]).
Proof.
  intros Hxy.
  assert (chain (rg_x r) (p <$> seq 0 (k - 1)) (rg_y r)) as Hc.
  { apply (pivots_chain k (rg_x r) (rg_y r) (re_key <$> es)); [done| | | |apply pivots_selected].
    - by rewrite length_fmap.
    - by apply local_keys_sorted.
    - apply local_in_range. }
  assert (Build_Range (rg_x r) (p 0)
    :: ((λ i, Build_Range (p i) (p (Datatypes.S i))) <$> seq 0 (k - 2))
    ++ [Build_Range (p (k - 2)) (rg_y r)] =
    pieces (rg_x r) (p <$> seq 0 (k - 1)) (rg_y r)) as ->.
  { replace (k - 1) with (Datatypes.S (k - 2)) by lia.
    change (pieces (rg_x r) (p <$> seq 0 (Datatypes.S (k - 2))) (rg_y r)) with
      (Build_Range (rg_x r) (p 0) :: pieces (p 0) (p <$> seq 1 (k - 2)) (rg_y r)).
    by rewrite (pieces_seq p (rg_y r) 0 (k - 2)). }
  apply pieces_good; [done|left; by destruct r| | | |].
  - replace (k - 1) with (Datatypes.S (k - 2)) by lia. simpl.
    destruct (circular_view (rg_x r) (rg_y r) (re_key <$> es)) as (Rl & HRs & HRa & HRl);
      [by apply local_keys_sorted|apply local_in_range|].
    rewrite length_fmap in HRl. fold n in HRl.
    destruct (Rl !! 0) as [t|] eqn:Ht.
    2: { rewrite HRl in Ht by lia. apply lookup_ge_None in Ht. rewrite length_fmap in Ht.
      fold n in Ht. pose proof (Nat.mod_upper_bound
        (length (low_keys (rg_x r) (re_key <$> es)) + 0) n). lia. }
    pose proof Ht as Hte. rewrite HRl in Hte by lia.
    apply list_elem_of_lookup_2, list_elem_of_fmap in Hte as (e & -> & He).
    exists e. split; [done|].
    assert (onward (rg_y r) (re_key e) (p 0)) as Hon.
    { destruct Rl as [|t' Rl]; [done|]. simpl in Ht. injection Ht as ->.
      apply StronglySorted_cons in HRs as [HRs _].
      pose proof (pivots_selected 0) as H0p. rewrite length_fmap in H0p. fold n in H0p.
      rewrite <- HRl in H0p by (try apply pivot_step_bound; lia).
      pose proof (pivot_step_pos n k 0).
      destruct (pivot_step n k 0) as [|j]; [lia|]. simpl in H0p.
      apply (proj1 (Forall_forall _ _) HRs). eapply list_elem_of_lookup_2. apply H0p. lia. }
    apply onward_back in Hon.
    replace (k - 1) with (Datatypes.S (k - 2)) in Hc by lia. simpl in Hc.
    destruct Hc as [[Hp0 Hne] _].
    destruct (arc_cut (rg_x r) (rg_y r) (p 0) (re_key e) Hp0) as [Hcut _]; [congruence|].
    rewrite Hon, orb_false_r in Hcut. unfold in_range. rewrite <- Hcut.
    apply elem_of_filter_list in He as [_ He]. unfold in_range in He. by destruct r.
  - intros m Hm. by eapply pivots_are_pivots.
  - intros _. by destruct Hr0 as [|[??]].
  - rewrite length_fmap, length_seq. lia.
Qed.

Lemma split_ranges_wp s : rs_same s0 s →
  wp (split_ranges config r n start) s (λ rs s', good_cut rs ∧ rs_same s0 s').
Proof.
  intros Hs. unfold split_ranges. fold k.
  destruct (Nat.eqb_spec k 0); [lia|].
  destruct (range_is_all r) eqn:Hall; unfold range_is_all in Hall.
  - apply eqb_eq in Hall. eapply wp_mono; [apply pivot_ranges_wp; [done|]|].
    + intros i Hi. rewrite Nat.add_1_r. destruct (decide (Datatypes.S i = k)) as [Hik|Hne].
      * rewrite Hik, pivot_wrap. apply not_eq_sym, pivots_distinct; lia.
      * apply pivots_distinct; lia.
    + intros rs s' [-> Hs']. split; [by apply split_all_good|done].
  - assert (rg_x r ≠ rg_y r) as Hxy by (intros Heq; by rewrite Heq, eqb_refl in Hall).
    wp_step. eapply wp_mono; [by apply pivot_wp|]. intros p0 s1 [-> Hs1].
    rewrite (proj2 (Nat.ltb_ge k 2)) by lia.
    wp_step. eapply wp_mono; [apply pivot_ranges_wp; [done|]|].
    + intros i Hi. rewrite Nat.add_1_r. apply pivots_distinct; lia.
    + intros mid s2 [-> Hs2]. wp_step. eapply wp_mono; [by apply pivot_wp|].
      intros pl s3 [-> Hs3]. wp_step. split; [by apply split_proper_good|done].
Qed.
(** *** Counting: every piece of a good cut is smaller than the range *)
Lemma sum_count (rs : list (Range K)) (l : list E) :
  sum_list_with (λ q, length (List.filter (in_range q) l)) rs =
  sum_list_with (λ e, length (List.filter (λ q, in_range q e) rs)) l.
Proof.
  induction l as [|e l IH]; simpl.
  - induction rs as [|q rs IH]; simpl; [done|exact IH].
  - rewrite <- IH. clear IH. induction rs as [|q rs IH]; simpl; [done|].
    rewrite IH. destruct (in_range q e); simpl; lia.
Qed.

Lemma covers_count (rs : list (Range K)) :
  covers rs r → sum_list_with (λ q, length (local s0 q)) rs = length (local s0 r).
Proof.
  intros Hc. unfold local. rewrite sum_count. induction (rs_view s0) as [|e l IH]; simpl; [done|].
  rewrite IH. unfold in_range at 1 3. rewrite (Hc (re_key e)).
  by destruct (range_contains r (re_key e)).
Qed.

Lemma good_cut_smaller rs q : good_cut rs → q ∈ rs → length (local s0 q) < length (local s0 r).
Proof.
  intros (Hlen & Hc & Hall) Hq. rewrite <- (covers_count rs Hc).
  assert (∀ q', q' ∈ rs → 1 ≤ length (local s0 q')) as Hone.
  { intros q' Hq'. destruct (Hall q' Hq') as (_ & e & He & Hin).
    apply elem_of_filter_list in He as [He _].
    assert (e ∈ local s0 q') as Hl by by apply elem_of_filter_list.
    destruct (local s0 q'); [by apply elem_of_nil in Hl|simpl; lia]. }
  apply list_elem_of_split in Hq as (l1 & l2 & ->). rewrite sum_list_with_app. simpl.
  rewrite length_app in Hlen. simpl in Hlen.
  destruct l1 as [|q' l1]; [destruct l2 as [|q' l2]; simpl in *; [lia|]|simpl].
  - specialize (Hone q' ltac:(set_solver)). lia.
  - specialize (Hone q' ltac:(set_solver)). lia.
Qed.
End split.

(** ** Answering a fingerprint *)
Context (content_status_cb : W → E → ContentStatus).

Definition part_range (p : MessagePart E K R) : option (Range K) :=
  match p with
  | MpFingerprint f => Some (rf_range f)
  | MpItem item => Some (ri_range item)
  | MpRejected _ => None
  end.

(** A part tells the truth about the view: a fingerprint part carries the
    fingerprint of its range and stands for more than [max_set_size] entries;
    an item part carries exactly the entries of its range and asks for the
    peer's. *)
Definition part_faithful (s : S) (w : W) (p : MessagePart E K R) : Prop :=
  match p with
  | MpFingerprint f =>
      rf_fingerprint f = range_fingerprint (local s (rf_range f))
      ∧ max_set_size config < length (local s (rf_range f))
  | MpItem item =>
      ri_values item = (λ e, (e, content_status_cb w e)) <$> local s (ri_range item)
      ∧ ri_have_local item = false
  | MpRejected _ => False
  end.

(** A fingerprint part stands for fewer entries than [r] holds. *)
Definition part_smaller (s : S) (r : Range K) (p : MessagePart E K R) : Prop :=
  match p with
  | MpFingerprint f => length (local s (rf_range f)) < length (local s r)
  | _ => True
  end.

Lemma store_op_wp {A} (m : ST S Err A) (p : S * W) (Q : A → S * W → Prop) :
  wp m p.1 (λ a s', Q a (s', p.2)) → wp (store_op m) p Q.
Proof. intros Hm. by apply wp_zoom. Qed.

Lemma get_local_wp s0 s r : rs_same s0 s → range_ok s0 r →
  wp (rs_get_range r) s (λ es s', es = local s0 r ∧ rs_same s0 s').
Proof.
  intros Hs Hr. eapply wp_mono.
  { apply rs_get_range_ok; [apply Hs|by apply (range_ok_same s0)]. }
  intros es s' [-> Hs']. split; [|by eapply rs_same_trans].
  apply (local_same s0 s r Hs).
Qed.

Lemma get_range_wp s0 (p : S * W) r : rs_same s0 p.1 → range_ok s0 r →
  wp (store_op (rs_get_range r)) p (λ es p',
    es = local s0 r ∧ rs_same s0 p'.1 ∧ p'.2 = p.2).
Proof.
  intros Hs Hr. apply store_op_wp. eapply wp_mono; [by apply get_local_wp|].
  by intros es s' [-> Hs'].
Qed.

Lemma get_fingerprint_wp s0 (p : S * W) r : rs_same s0 p.1 → range_ok s0 r →
  wp (store_op (rs_get_fingerprint r)) p (λ fp p',
    fp = range_fingerprint (local s0 r) ∧ rs_same s0 p'.1 ∧ p'.2 = p.2).
Proof.
  intros Hs Hr. apply store_op_wp. eapply wp_mono.
  { apply rs_get_fingerprint_ok; [apply Hs|by apply (range_ok_same s0)]. }
  intros es s' [-> Hs']. split_and!; [|by eapply rs_same_trans|done].
  f_equal. apply (local_same s0 p.1 r Hs).
Qed.

Lemma range_part_wp s0 (p : S * W) q : rs_same s0 p.1 → range_ok s0 q →
  wp (range_part config content_status_cb q) p (λ bp p',
    bp.1 = negb (length (local s0 q) =? 0) ∧ part_range bp.2 = Some q
    ∧ part_faithful s0 p.2 bp.2 ∧ rs_same s0 p'.1 ∧ p'.2 = p.2).
Proof.
  intros Hs Hr. unfold range_part. wp_step.
  eapply wp_mono; [by apply (get_range_wp s0)|]. intros es p1 (-> & Hs1 & Hw1). wp_step.
  eapply wp_mono; [by apply (get_fingerprint_wp s0)|]. intros fp p2 (-> & Hs2 & Hw2).
  destruct (Nat.ltb_spec (max_set_size config) (length (local s0 q))) as [Hlt|Hge].
  - wp_step. split; [done|]. split; [done|]. split; [by split|]. split; [done|congruence].
  - wp_step. unfold with_status. wp_step. wp_step.
    split; [done|]. split; [done|]. split; [|split; [done|congruence]].
    split; [|done]. simpl. by rewrite Hw2, Hw1.
Qed.

Lemma range_parts_wp s0 (p : S * W) rs : rs_same s0 p.1 →
  (∀ q, q ∈ rs → range_ok s0 q ∧ 1 ≤ length (local s0 q)) →
  wp (range_parts config content_status_cb rs) p (λ np p',
    np.1 = length rs ∧ Forall2 (λ q pt, part_range pt = Some q) rs np.2
    ∧ Forall (part_faithful s0 p.2) np.2 ∧ rs_same s0 p'.1 ∧ p'.2 = p.2).
Proof.
  intros Hs Hrs. unfold range_parts.
  apply wp_fold with (I := λ done np p', np.1 = length done
    ∧ Forall2 (λ q pt, part_range pt = Some q) done np.2
    ∧ Forall (part_faithful s0 p.2) np.2 ∧ rs_same s0 p'.1 ∧ p'.2 = p.2).
  2: { split_and!; [done|constructor|constructor|done|done]. }
  intros l1 q l2 [n ps] p' Heq (Hlen & Hps & Hf & Hs' & Hw'). simpl in *.
  destruct (Hrs q) as [Hq Hone]; [rewrite Heq; set_solver|].
  wp_step. eapply wp_mono; [by apply (range_part_wp s0)|].
  intros [b pt] p2 (Hb & Hpr & Hpf & Hs2 & Hw2). simpl in *. wp_step.
  assert (b = true) as -> by (rewrite Hb; destruct (length (local s0 q)); [lia|done]).
  simpl. rewrite Hw' in Hpf. split_and!.
  - rewrite length_app. simpl. lia.
  - apply Forall2_app; [done|]. by constructor.
  - apply Forall_app. split; [done|]. by constructor.
  - done.
  - congruence.
Qed.

Lemma process_fingerprint_wp (out : Message E K R) (fp : RangeFingerprint K) (p : S * W) :
  2 ≤ split_factor config →
  split_factor config = 2 ∨ split_factor config ≤ length (local p.1 (rf_range fp)) →
  rs_inv p.1 → range_ok p.1 (rf_range fp) →
  wp (process_fingerprint config content_status_cb out fp) p (λ out' p',
    ∃ ps, out' = out ++ ps
      ∧ (if eqb (range_fingerprint (local p.1 (rf_range fp))) (rf_fingerprint fp) then ps = []
         else ∃ rs, Forall2 (λ q pt, part_range pt = Some q) rs ps ∧ covers rs (rf_range fp)
           ∧ Forall (range_ok p.1) rs ∧ Forall (part_faithful p.1 p.2) ps ∧ Forall (part_smaller p.1 (rf_range fp)) ps)
      ∧ rs_same p.1 p'.1 ∧ p'.2 = p.2).
Proof.
  intros Hk Hkn Hinv Hr. pose proof (rs_same_refl p.1 Hinv) as Hs.
  unfold process_fingerprint. wp_step.
  eapply wp_mono; [by apply (get_fingerprint_wp p.1)|]. intros lf p1 (-> & Hs1 & Hw1).
  destruct (eqb _ (rf_fingerprint fp)).
  { wp_step. exists []. by rewrite app_nil_r. }
  wp_step. unfold rs_get_range_len. apply store_op_wp. wp_step.
  eapply wp_mono; [by apply (get_local_wp p.1)|]. intros es s2 [-> Hs2]. wp_step.
  destruct (Nat.leb_spec (length (local p.1 (rf_range fp))) 1) as [Hle|Hgt];
    [|destruct (eqb (rf_fingerprint fp) re_fp_empty)]; cbn [orb].
  1, 2: wp_step; eapply wp_mono; [by apply (get_range_wp p.1)|]; intros es p3 (-> & Hs3 & Hw3);
    wp_step; unfold with_status; wp_step; wp_step; eexists; split; [done|]; (split; [|split; [done|by etrans]]);
    exists [rf_range fp]; split_and!; [by constructor|by apply covers_single|by constructor| |by constructor];
    constructor; [|constructor]; split; [|done]; simpl in *; by rewrite Hw3, Hw1.
  wp_step. eapply wp_mono; [by apply (get_range_wp p.1)|]. intros es p3 (-> & Hs3 & Hw3).
  wp_step. apply store_op_wp.
  eapply wp_mono; [apply (split_ranges_wp p.1 (rf_range fp) Hinv Hr Hk); [lia|exact Hs3]|].
  intros rs s4 [Hcut Hs4]. wp_step.
  eapply wp_mono; [apply (range_parts_wp p.1 (s4, p3.2) rs Hs4)|].
  { intros q Hq. destruct Hcut as (_ & _ & Hall). destruct (Hall q Hq) as (Hqr & e & He & Hin).
    split; [done|]. apply elem_of_filter_list in He as [He _].
    assert (e ∈ local p.1 q) as Hl by by apply elem_of_filter_list.
    destruct (local p.1 q); [by apply elem_of_nil in Hl|simpl; lia]. }
  intros [n ps] p5 (Hn & Hps & Hf & Hs5 & Hw5). simpl in *.
  pose proof Hcut as (Hlen & Hcov & _).
  rewrite Hn, (proj2 (Nat.ltb_lt 1 (length rs))) by lia. simpl. wp_step.
  exists ps. split; [done|]. split; [|split; [done|congruence]].
  exists rs. split_and!; [done|done| |by rewrite <- Hw1, <- Hw3|].
  { apply Forall_forall. intros q Hq. by apply Hcut. }
  apply Forall_forall. intros pt Hpt. destruct (list_elem_of_lookup_1 _ _ Hpt) as [i Hi].
  destruct (Forall2_lookup_r _ _ _ _ _ Hps Hi) as (q & Hq & Hpq).
  destruct pt as [f|item|id]; simpl in *; [|done|done]. injection Hpq as ->.
  eapply (good_cut_smaller p.1 (rf_range fp)); try done; [lia|]. by eapply list_elem_of_lookup_2.
Qed.

(** C6: the answer to a fingerprint is complete and true: with equal
    fingerprints nothing is sent; otherwise the parts sent cut the range so
    that every key of it is in exactly one part, each part carries the
    entries or the fingerprint of the local view for its own range, and a
    part that is answered with a fingerprint again stands for strictly fewer
    local entries, so the exchange comes to an end.  No step panics: the
    pivots exist and the split is never degenerate. *)
Theorem fingerprint_reply (out : Message E K R) (fp : RangeFingerprint K) (p : S * W) :
  2 ≤ split_factor config →
  split_factor config = 2 ∨ split_factor config ≤ length (local p.1 (rf_range fp)) →
  rs_inv p.1 → range_ok p.1 (rf_range fp) →
  wp (process_fingerprint config content_status_cb out fp) p (λ out' p',
    ∃ ps, out' = out ++ ps
      ∧ (if eqb (range_fingerprint (local p.1 (rf_range fp))) (rf_fingerprint fp) then ps = []
         else ∃ rs, Forall2 (λ q pt, part_range pt = Some q) rs ps ∧ covers rs (rf_range fp)
           ∧ Forall (range_ok p.1) rs ∧ Forall (part_faithful p.1 p.2) ps ∧ Forall (part_smaller p.1 (rf_range fp)) ps)
      ∧ rs_same p.1 p'.1 ∧ p'.2 = p.2).
Proof. apply process_fingerprint_wp. Qed.

(** ** Insertion *)

(** Some live entry that [prefixes_of] lists for [e] is at least as new. *)
Definition superseded (s : S) (e : E) : Prop :=
  ∃ q, rs_live s (re_key q) = Some q ∧ rs_listed q (re_key e) = true
    ∧ leb (re_value e) (re_value q) = true.

Lemma superseded_same s s' e : rs_same s s' → superseded s' e ↔ superseded s e.
Proof. intros Hs. unfold superseded. by setoid_rewrite (same_live _ _ Hs). Qed.

Lemma would_insert_wp s e : rs_inv s →
  wp (would_insert e) s (λ b s',
    (if b then ¬ superseded s e else superseded s e) ∧ rs_same s s').
Proof.
  intros Hinv. unfold would_insert. wp_step.
  eapply wp_mono; [by apply rs_prefixes_of_ok|]. intros ps s' [Hps Hs]. wp_step.
  split; [|done]. destruct (forallb _ ps) eqn:Hall.
  - rewrite forallb_forall in Hall. intros (q & Hq & Hl & Hle).
    specialize (Hall q). rewrite Hle in Hall. by discriminate Hall; apply list_elem_of_In, Hps.
  - apply forallb_false in Hall as (q & Hq & Hle). apply Hps in Hq as [Hq Hl].
    exists q. split_and!; [done|done|]. by apply negb_false_iff.
Qed.

Lemma rs_same_wrote s s' : rs_same s s' → rs_wrote s s'.
Proof. by intros []. Qed.
Lemma rs_wrote_trans s1 s2 s3 : rs_wrote s1 s2 → rs_wrote s2 s3 → rs_wrote s1 s3.
Proof.
  intros [Hi1 Hk1 He1] [Hi2 Hk2 He2]. split; [done| |].
  - intros k. by rewrite Hk2.
  - intros e. by rewrite He2.
Qed.

(** The live content after [e] has been taken in. *)
Definition live_after_put (s : S) (e : E) (k : K) : option E :=
  if eqb (re_key e) k then Some e
  else c ← rs_live s k;
    if rs_covered (re_key e) k && geb (re_value e) (re_value c) then None else Some c.

Lemma put_wp s e : rs_inv s → rs_entry_ok s e →
  wp (put e) s (λ o s', rs_wrote s s' ∧
    match o with
    | NotInserted => superseded s e ∧ ∀ k, rs_live s' k = rs_live s k
    | Inserted _ => ¬ superseded s e ∧ ∀ k, rs_live s' k = live_after_put s e k
    end).
Proof.
  intros Hinv He. unfold put. wp_step.
  eapply wp_mono; [by apply would_insert_wp|]. intros w s1 [Hw Hs1].
  destruct w; cbn [negb].
  - wp_step. eapply wp_mono; [apply rs_remove_ok, Hs1|]. intros n s2 [Hw2 Hl2].
    wp_step. eapply wp_mono.
    { apply rs_entry_put_ok; [apply Hw2|]. by rewrite (wrote_entry_ok _ _ Hw2), (same_entry_ok _ _ Hs1). }
    intros _ s3 [Hw3 Hl3]. wp_step. split.
    { eapply rs_wrote_trans; [by apply rs_same_wrote|]. by eapply rs_wrote_trans. }
    split; [by apply Hw|]. intros k. rewrite Hl3, Hl2, (same_live _ _ Hs1). done.
  - wp_step. split; [by apply rs_same_wrote|]. split; [done|apply Hs1].
Qed.

(** The store holds nothing that a listed prefix supersedes. *)
Definition prefix_clean (s : S) : Prop :=
  ∀ q c, rs_live s (re_key q) = Some q → rs_live s (re_key c) = Some c →
    rs_listed q (re_key c) = true → re_key q ≠ re_key c →
    leb (re_value c) (re_value q) = false.

Lemma put_prefix_clean s e : rs_inv s → rs_entry_ok s e → prefix_clean s →
  wp (put e) s (λ _ s', prefix_clean s').
Proof.
  intros Hinv He Hc. eapply wp_mono; [by apply put_wp|].
  intros [|n] s' [Hw [Hsup Hl]].
  { intros q c. rewrite !Hl. apply Hc. }
  intros q c. rewrite !Hl. unfold live_after_put.
  destruct (eqb (re_key e) (re_key q)) eqn:Heq, (eqb (re_key e) (re_key c)) eqn:Hec;
    rewrite ?eqb_eq in *.
  - congruence.
  - intros [= <-] Hlc Hlist _. destruct (rs_live s (re_key c)) as [c'|]; [|done].
    simpl in Hlc. rewrite (rs_listed_covered _ _ Hlist) in Hlc. simpl in Hlc.
    unfold geb, leb in *. rewrite (rs_value_antisym (re_value e)).
    destruct (cmp (re_value e) (re_value c')) eqn:Hv; [done| |done].
    injection Hlc as <-. by rewrite Hv.
  - intros Hlq [= <-] Hlist _. destruct (rs_live s (re_key q)) as [q'|] eqn:Hq; [|done].
    simpl in Hlq. destruct (rs_covered _ _ && _); [done|]. injection Hlq as ->.
    destruct (leb (re_value e) (re_value q)) eqn:Hle; [|done]. destruct Hsup. by exists q.
  - intros Hlq Hlc. destruct (rs_live s (re_key q)) as [q'|] eqn:Hq; [|done].
    destruct (rs_live s (re_key c)) as [c'|] eqn:Hc'; [|done].
    simpl in *. destruct (rs_covered _ (re_key q) && _); [done|].
    destruct (rs_covered _ (re_key c) && _); [done|]. injection Hlq as ->.
    injection Hlc as ->. by apply Hc.
Qed.

(** [put] refuses an entry exactly when a live entry at its key or at a
    listed prefix is at least as new, and then changes nothing; otherwise the
    entry becomes live, the covered entries that are not newer disappear, and
    everything else stays.  Either way a store in which every live entry is
    newer than each of its listed prefixes remains one. *)
Theorem put_spec s e : rs_inv s → rs_entry_ok s e →
  wp (put e) s (λ o s', rs_wrote s s' ∧
    match o with
    | NotInserted => superseded s e ∧ ∀ k, rs_live s' k = rs_live s k
    | Inserted _ => ¬ superseded s e ∧ ∀ k, rs_live s' k = live_after_put s e k
    end)
  ∧ (prefix_clean s → wp (put e) s (λ _ s', prefix_clean s')).
Proof. intros Hinv He. split; [by apply put_wp|]. intros Hc. by apply put_prefix_clean. Qed.

(** ** Processing a whole message *)
Context (validate_cb : S → E → ContentStatus → ValidateOutcome).
Context (on_insert_cb : S → E → ContentStatus → W → W).
(** Accepted entries are admissible for the store the message arrives at;
    writes do not change what is admissible. *)
Context (s0 : S).
Context (Hvalid : ∀ s e c, rs_inv s → validate_cb s e c = Accept → rs_entry_ok s0 e).

(** [p'] is reached from [p] by storing only values of [vs] that were
    accepted when they arrived. *)
Definition stored_from (vs : list (E * ContentStatus)) (s s' : S) : Prop :=
  rs_wrote s s' ∧ ∀ k e, rs_live s' k = Some e → rs_live s k = Some e
    ∨ ∃ c t, (e, c) ∈ vs ∧ rs_inv t ∧ validate_cb t e c = Accept.

(** The part names a refused value that the store would have taken in. *)
Definition rejection_of (vs : list (E * ContentStatus)) (pt : MessagePart E K R) : Prop :=
  ∃ e c t t', pt = MpRejected (re_reject_id e) ∧ (e, c) ∈ vs ∧ rs_inv t
    ∧ validate_cb t e c = Reject ∧ rs_same t t' ∧ ¬ superseded t e.

Lemma stored_from_refl vs s : rs_inv s → stored_from vs s s.
Proof. intros Hs. split; [by split|]. by left. Qed.
Lemma stored_from_trans vs s1 s2 s3 :
  stored_from vs s1 s2 → stored_from vs s2 s3 → stored_from vs s1 s3.
Proof.
  intros [Hw1 H1s] [Hw2 H2s]. split; [by eapply rs_wrote_trans|].
  intros k e [He|?]%H2s; [by apply H1s|by right].
Qed.
Lemma stored_from_same vs s s' : rs_same s s' → stored_from vs s s'.
Proof.
  intros Hs. split; [by apply rs_same_wrote|]. intros k e. rewrite (same_live _ _ Hs). by left.
Qed.
Lemma stored_from_sub vs vs' s s' :
  (∀ v, v ∈ vs → v ∈ vs') → stored_from vs s s' → stored_from vs' s s'.
Proof.
  intros Hsub [Hw Hst]. split; [done|].
  intros k e [?|(c & t & Hin & ?)]%Hst; [by left|]. right. exists c, t. split; [by apply Hsub|done].
Qed.

Lemma live_after_put_from vs s s' e c : rs_wrote s s' → rs_inv s →
  (e, c) ∈ vs → validate_cb s e c = Accept →
  (∀ k, rs_live s' k = live_after_put s e k) → stored_from vs s s'.
Proof.
  intros Hw Hinv Hin Hv Hl. split; [done|]. intros k e'. rewrite Hl. unfold live_after_put.
  destruct (eqb (re_key e) k); [intros [= <-]; right; by exists c, s|].
  destruct (rs_live s k) as [c'|]; [|done]. simpl.
  destruct (rs_covered (re_key e) k && _); [done|]. by left.
Qed.

(** What taking in one value does to the store and the rest of the state, and
    the parts it sends back.  An accepted value that nothing live supersedes
    becomes live, the covered entries that are not newer go, and the caller's
    callback runs; an accepted value that is superseded changes nothing.  A
    dropped value changes nothing.  A rejected one changes nothing either and
    is named to the sender unless the store would not have taken it. *)
Definition takes_value (v : E * ContentStatus) (p : S * W) (ps : Message E K R) (p' : S * W) : Prop :=
  match validate_cb p.1 v.1 v.2 with
  | Accept => rs_wrote p.1 p'.1 ∧ ps = []
      ∧ (superseded p.1 v.1 ∧ (∀ k, rs_live p'.1 k = rs_live p.1 k) ∧ p'.2 = p.2
         ∨ ¬ superseded p.1 v.1 ∧ (∀ k, rs_live p'.1 k = live_after_put p.1 v.1 k)
           ∧ p'.2 = on_insert_cb p'.1 v.1 v.2 p.2)
  | Drop => p' = p ∧ ps = []
  | Reject => rs_same p.1 p'.1 ∧ p'.2 = p.2
      ∧ (superseded p.1 v.1 ∧ ps = []
         ∨ ¬ superseded p.1 v.1 ∧ ps = [MpRejected (re_reject_id v.1)])
  end.

(** The values are taken in one after the other, in order. *)
Inductive takes_values : list (E * ContentStatus) → S * W → Message E K R → S * W → Prop :=
| takes_nil p : takes_values [] p [] p
| takes_cons v vs p ps p1 qs p' :
    takes_value v p ps p1 → takes_values vs p1 qs p' → takes_values (v :: vs) p (ps ++ qs) p'.

Lemma takes_values_snoc vs v p ps p1 qs p' :
  takes_values vs p ps p1 → takes_value v p1 qs p' → takes_values (vs ++ [v]) p (ps ++ qs) p'.
Proof.
  intros Hvs Hv. induction Hvs as [p|u us p rs p2 ss p3 Hu Hus IH]; simpl.
  - rewrite <- (app_nil_r qs). econstructor; [done|constructor].
  - rewrite <- app_assoc. econstructor; [done|by apply IH].
Qed.

Lemma store_value_wp vs v (p : S * W) : rs_wrote s0 p.1 → v ∈ vs →
  wp (store_value validate_cb on_insert_cb v) p (λ ps p',
    takes_value v p ps p' ∧ stored_from vs p.1 p'.1 ∧ Forall (rejection_of vs) ps).
Proof.
  destruct v as [e c]. intros Hw0 Hin. pose proof (wrote_inv _ _ Hw0) as Hinv.
  unfold takes_value, store_value. wp_step. wp_step.
  destruct (validate_cb p.1 e c) eqn:Hv; simpl; rewrite ?Hv.
  - wp_step. apply store_op_wp.
    eapply wp_mono; [apply put_wp; [done|]; apply (wrote_entry_ok _ _ Hw0); by eapply Hvalid|].
    intros [|n] s' [Hw [Hsup Hl]].
    + wp_step. split; [split_and!; [done|done|by left]|].
      split; [|constructor]. split; [done|]. intros k e'. simpl. rewrite Hl. by left.
    + wp_step. wp_step. wp_step. split; [split_and!; [done|done|by right]|].
      split; [|constructor]. by eapply live_after_put_from.
  - wp_step. split_and!; [done|done|by apply stored_from_refl|constructor].
  - wp_step. apply store_op_wp. eapply wp_mono; [by apply would_insert_wp|].
    intros w s' [Hw Hs]. wp_step.
    split; [split_and!; [done|done|destruct w; [by right|by left]]|].
    split; [by apply stored_from_same|].
    destruct w; [|constructor]. constructor; [|constructor].
    exists e, c, p.1, s'. done.
Qed.

Lemma store_values_wp out vs (p : S * W) : rs_wrote s0 p.1 →
  wp (store_values validate_cb on_insert_cb out vs) p (λ out' p',
    ∃ ps, out' = out ++ ps ∧ takes_values vs p ps p'
      ∧ stored_from vs p.1 p'.1 ∧ Forall (rejection_of vs) ps).
Proof.
  intros Hw0. unfold store_values.
  apply wp_fold with (I := λ l out' p',
    ∃ ps, out' = out ++ ps ∧ takes_values l p ps p'
      ∧ stored_from vs p.1 p'.1 ∧ Forall (rejection_of vs) ps).
  2: { exists []. rewrite app_nil_r.
    split_and!; [done|constructor|apply stored_from_refl, (wrote_inv _ _ Hw0)|constructor]. }
  intros l1 v l2 out' p' Heq (ps & -> & Htk & Hst & Hps). wp_step.
  eapply wp_mono; [apply (store_value_wp vs v p');
    [eapply rs_wrote_trans; [done|apply Hst]|rewrite Heq; set_solver]|].
  intros qs p2 (Htk2 & Hst2 & Hqs). wp_step. exists (ps ++ qs). rewrite app_assoc.
  split_and!; [done|by eapply takes_values_snoc|by eapply stored_from_trans|by apply Forall_app].
Qed.

(** The local entries of the range that the peer's values do not supersede. *)
Definition diff_of (p : S * W) (item : RangeItem E K) : list (E * ContentStatus) :=
  (λ e, (e, content_status_cb p.2 e)) <$>
    List.filter (λ e, negb (superseded_by (ri_values item) e)) (local p.1 (ri_range item)).

Lemma item_diff_wp (item : RangeItem E K) (p : S * W) : rs_inv p.1 →
  (ri_have_local item = false → range_ok p.1 (ri_range item)) →
  wp (item_diff content_status_cb item) p (λ d p', rs_same p.1 p'.1 ∧ p'.2 = p.2
    ∧ d = if ri_have_local item then None else Some (diff_of p item)).
Proof.
  intros Hinv Hr. unfold item_diff. destruct (ri_have_local item).
  { wp_step. split_and!; [by apply rs_same_refl|done|done]. }
  wp_step. eapply wp_mono; [apply (get_range_wp p.1); [by apply rs_same_refl|by apply Hr]|].
  intros es p1 (-> & Hs1 & Hw1). wp_step. unfold with_status. wp_step. wp_step.
  split_and!; [done|done|]. unfold diff_of. by rewrite Hw1.
Qed.

Lemma process_item_wp (out : Message E K R) (item : RangeItem E K) (p : S * W) :
  rs_wrote s0 p.1 → (ri_have_local item = false → range_ok p.1 (ri_range item)) →
  wp (process_item validate_cb on_insert_cb content_status_cb out item) p (λ out' p',
    ∃ p1 rejs, rs_same p.1 p1.1 ∧ p1.2 = p.2 ∧ takes_values (ri_values item) p1 rejs p'
      ∧ Forall (rejection_of (ri_values item)) rejs
      ∧ stored_from (ri_values item) p.1 p'.1
      ∧ out' = out ++ rejs ++
          (if ri_have_local item || (length (diff_of p item) =? 0) then []
           else [MpItem (Build_RangeItem (ri_range item) (diff_of p item) true)])).
Proof.
  intros Hw0 Hr. pose proof (wrote_inv _ _ Hw0) as Hinv. unfold process_item. wp_step.
  eapply wp_mono; [by apply item_diff_wp|]. intros d p1 (Hs1 & Hw1 & ->). wp_step.
  eapply wp_mono; [apply store_values_wp; eapply rs_wrote_trans; [done|by apply rs_same_wrote]|].
  intros out' p2 (rejs & -> & Htk & Hst & Hrej).
  assert (stored_from (ri_values item) p.1 p2.1) as Hst'
    by (eapply stored_from_trans; [by apply stored_from_same|done]).
  destruct (ri_have_local item); simpl.
  { wp_step. exists p1, rejs. by rewrite app_nil_r. }
  destruct (length (diff_of p item) =? 0); wp_step; exists p1, rejs.
  - by rewrite app_nil_r.
  - by rewrite app_assoc.
Qed.

(** C22: an item part is taken in and answered.  Its values are taken in one
    after the other ([takes_value]): a value that validation accepts becomes
    live, prunes what it covers and runs the callback unless it is
    superseded, and then changes nothing; a dropped or rejected one changes
    nothing, and the rejections sent back name exactly the rejected values
    that nothing supersedes.  So the only new live entries are accepted
    values of the item.  When the peer asks for our side of the range it
    gets exactly the entries the view had there before that its values do
    not supersede. *)
Theorem item_reply (out : Message E K R) (item : RangeItem E K) (p : S * W) :
  rs_wrote s0 p.1 → (ri_have_local item = false → range_ok p.1 (ri_range item)) →
  wp (process_item validate_cb on_insert_cb content_status_cb out item) p (λ out' p',
    ∃ p1 rejs, rs_same p.1 p1.1 ∧ p1.2 = p.2 ∧ takes_values (ri_values item) p1 rejs p'
      ∧ Forall (rejection_of (ri_values item)) rejs
      ∧ stored_from (ri_values item) p.1 p'.1
      ∧ out' = out ++ rejs ++
          (if ri_have_local item || (length (diff_of p item) =? 0) then []
           else [MpItem (Build_RangeItem (ri_range item) (diff_of p item) true)])).
Proof. apply process_item_wp. Qed.

(** Every range the message asks about is one of this replica. *)
Definition message_ok (s : S) (m : Message E K R) : Prop :=
  (∀ item, MpItem item ∈ m → ri_have_local item = false → range_ok s (ri_range item))
  ∧ (∀ fp, MpFingerprint fp ∈ m → range_ok s (rf_range fp)).

Lemma range_ok_wrote s s' r : rs_wrote s s' → range_ok s' r ↔ range_ok s r.
Proof. intros Hs. unfold range_ok. by rewrite !(wrote_key_ok _ _ Hs). Qed.

Lemma elem_of_message_items (m : Message E K R) item : item ∈ message_items m ↔ MpItem item ∈ m.
Proof.
  unfold message_items. rewrite list_elem_of_omap. split.
  - intros ([f|i|id] & Hp & Heq); simplify_eq/=. done.
  - intros Hi. by exists (MpItem item).
Qed.
Lemma elem_of_message_fingerprints (m : Message E K R) fp :
  fp ∈ message_fingerprints m ↔ MpFingerprint fp ∈ m.
Proof.
  unfold message_fingerprints. rewrite list_elem_of_omap. split.
  - intros ([f|i|id] & Hp & Heq); simplify_eq/=. done.
  - intros Hi. by exists (MpFingerprint fp).
Qed.

Lemma item_values_message (m : Message E K R) item v :
  MpItem item ∈ m → v ∈ ri_values item → v ∈ message_values m.
Proof.
  intros Hi Hv. unfold message_values. apply list_elem_of_join. exists (ri_values item).
  split; [done|]. apply list_elem_of_omap. by exists (MpItem item).
Qed.

Lemma process_message_wp (m : Message E K R) (p : S * W) :
  split_factor config = 2 → rs_wrote s0 p.1 → message_ok p.1 m →
  wp (process_message config validate_cb on_insert_cb content_status_cb m) p (λ reply p',
    stored_from (message_values m) p.1 p'.1
    ∧ reply ≠ Some []
    ∧ ∀ id, MpRejected id ∈ default [] reply → rejection_of (message_values m) (MpRejected id)).
Proof.
  intros Hk Hw0 [Hitems Hfps]. pose proof (wrote_inv _ _ Hw0) as Hinv.
  unfold process_message. wp_step.
  eapply wp_mono.
  { apply wp_fold with (I := λ _ out p', stored_from (message_values m) p.1 p'.1
      ∧ ∀ id, MpRejected id ∈ out → rejection_of (message_values m) (MpRejected id)).
    2: { split; [by apply stored_from_refl|]. by intros id ?%elem_of_nil. }
    intros l1 item l2 out p1 Heq [Hst Hrej].
    assert (MpItem item ∈ m) as Hm by (apply elem_of_message_items; rewrite Heq; set_solver).
    eapply wp_mono.
    { apply process_item_wp; [eapply rs_wrote_trans; [done|apply Hst]|]. intros Hh. rewrite (range_ok_wrote p.1); [|apply Hst].
      by apply Hitems. }
    intros out' p2 (p0 & rejs & _ & _ & _ & Hrejs & Hst2 & ->). split.
    { eapply stored_from_trans; [done|]. eapply stored_from_sub; [|done].
      intros v. by apply item_values_message. }
    rewrite Forall_forall in Hrejs.
    intros id [Hid|[Hid|Hid]%elem_of_app]%elem_of_app; [by apply Hrej| |].
    - destruct (Hrejs _ Hid) as (e & c & t & t' & He & Hin & Ht).
      exists e, c, t, t'. split; [done|]. split; [by eapply item_values_message|done].
    - exfalso. destruct (ri_have_local item || _); set_solver. }
  intros out p1 [Hst Hrej]. wp_step. eapply wp_mono.
  { apply wp_fold with (I := λ _ out p', stored_from (message_values m) p.1 p'.1
      ∧ ∀ id, MpRejected id ∈ out → rejection_of (message_values m) (MpRejected id)).
    2: { done. }
    intros l1 fp l2 out2 p2 Heq [Hst2 Hrej2].
    assert (MpFingerprint fp ∈ m) as Hm
      by (apply elem_of_message_fingerprints; rewrite Heq; set_solver).
    eapply wp_mono.
    { apply process_fingerprint_wp; [lia|by left|apply Hst2|].
      rewrite (range_ok_wrote p.1); [|apply Hst2]. by apply Hfps. }
    intros out3 p3 (ps & -> & Hps & Hs3 & _). split.
    { eapply stored_from_trans; [done|]. by apply stored_from_same. }
    intros id [Hid|Hid]%elem_of_app; [by apply Hrej2|]. exfalso.
    destruct (eqb _ _); [subst ps; by apply elem_of_nil in Hid|].
    destruct Hps as (rs & _ & _ & _ & Hf & _). by apply (proj1 (Forall_forall _ _) Hf) in Hid. }
  intros out2 p2 [Hst2 Hrej2]. wp_step. split; [done|].
  destruct out2 as [|pt out2]; simpl; [split; [done|by intros id ?%elem_of_nil]|].
  split; [done|exact Hrej2].
Qed.

(** A well-formed message is processed to the end: with the split
    factor of the default configuration there is neither an error nor a
    panic, whatever the message holds; the only entries that become live are
    accepted values of the message, and every rejection in the answer names
    a refused value of the message that the store would have taken in. *)
Theorem process_message_safe (m : Message E K R) (p : S * W) :
  split_factor config = 2 → rs_wrote s0 p.1 → message_ok p.1 m →
  wp (process_message config validate_cb on_insert_cb content_status_cb m) p (λ reply p',
    stored_from (message_values m) p.1 p'.1
    ∧ reply ≠ Some []
    ∧ ∀ id, MpRejected id ∈ default [] reply → rejection_of (message_values m) (MpRejected id)).
Proof. apply process_message_wp. Qed.
End ranger_facts.
