(* ===== verification/Converge.v ===== *)
(** * What an exchange achieves

    Two sides of [src/ranger.rs] that process each other's messages, each
    serving from a view that its writes do not change, as the sessions of
    [src/sync.rs] do.  Proved here: the exchange ends after at most one
    message more than there are entries on both sides together, every entry
    that one side has and the other lacks is sent, and where keys are
    independent the two sides end with the same content. *)
From S2P Require Import Prelude Ranger.

Section converge.
Context {S E K V R Er W : Type}.
Context `{CmpOk K, Cmp V, !RangeEntry E K V R, !RangerStore S E K V Er, !RangerModel S E K}.
Context `{!RangerStoreOk S E K V R Er}.
Context (config : SyncConfig).
(** The sides are numbered by booleans; each has its own callbacks. *)
Context (validate_cb : bool → S → E → ContentStatus → ValidateOutcome).
Context (on_insert_cb : bool → S → E → ContentStatus → W → W).
Context (content_status_cb : bool → W → E → ContentStatus).
Implicit Types (s : S) (r : Range K) (e : E) (d : bool) (m out : Message E K R) (p : S * W).

(** ** The exchange *)

(** A side and the values it has received so far. *)
Abbreviation Peer := ((S * W) * list (E * ContentStatus))%type.
Record Sides := { on_true : Peer; on_false : Peer }.
Definition side d (σ : Sides) : Peer := if d then on_true σ else on_false σ.
Definition set_side d (x : Peer) (σ : Sides) : Sides :=
  if d then {| on_true := x; on_false := on_false σ |} else {| on_true := on_true σ; on_false := x |}.

Lemma side_set d x σ : side d (set_side d x σ) = x.
Proof. by destruct d. Qed.
Lemma side_set_other d x σ : side (negb d) (set_side d x σ) = side (negb d) σ.
Proof. by destruct d. Qed.

Definition receive d m : ST (S * W) Er (option (Message E K R)) :=
  process_message config (validate_cb d) (on_insert_cb d) (content_status_cb d) m.

(** [m] is on its way to [d]; [None] if the fuel does not last. *)
Fixpoint exchange (fuel : nat) d m (σ : Sides) : option (result Er Sides) :=
  match fuel with
  | 0 => None
  | Datatypes.S fuel =>
      let '(res, p) := receive d m (side d σ).1 in
      let σ := set_side d (p, (side d σ).2 ++ message_values m) σ in
      match res with
      | Ok None => Some (Ok σ)
      | Ok (Some reply) => exchange fuel (negb d) reply σ
      | Err e => Some (Err e)
      | Panic => Some Panic
      end
  end.

(** [d] opens the exchange. *)
Definition reconcile (fuel : nat) d (σ : Sides) : option (result Er Sides) :=
  let '(res, p) := store_op initial_message (side d σ).1 in
  let σ := set_side d (p, (side d σ).2) σ in
  match res with
  | Ok m => exchange fuel (negb d) m σ
  | Err e => Some (Err e)
  | Panic => Some Panic
  end.

(** ** Views

    The entries of a view in a range. *)
Definition loc (view : list E) r : list E := List.filter (in_range r) view.

(** The answer of a side with [view] to [m]: every entry asked for is
    answered or superseded by a value of the message, every key of a range
    whose fingerprint differs is in some part of the answer, and no part
    comes from nowhere. *)
Definition faithful_part (view : list E) (pt : MessagePart E K R) : Prop :=
  match pt with
  | MpFingerprint f => rf_fingerprint f = range_fingerprint (loc view (rf_range f))
  | MpItem i => ri_have_local i = false ∧ (ri_values i).*1 = loc view (ri_range i)
  | MpRejected _ => False
  end.

Definition narrower (view : list E) r' r : Prop :=
  length (loc view r') < length (loc view r)
  ∧ ∀ k, range_contains r' k = true → range_contains r k = true.

(** Where a part of an answer comes from. *)
Definition part_from (key_ok : K → Prop) (view : list E) m (pt : MessagePart E K R) : Prop :=
  match pt with
  | MpRejected _ => ∃ i, MpItem i ∈ m
  | MpItem i =>
      if ri_have_local i
      then (∃ i', MpItem i' ∈ m ∧ ri_have_local i' = false) ∧ (ri_values i).*1 ⊆ view
      else (∃ f, MpFingerprint f ∈ m) ∧ faithful_part view pt
        ∧ (rg_x (ri_range i) = rg_y (ri_range i) ∨ key_ok (rg_x (ri_range i)) ∧ key_ok (rg_y (ri_range i)))
  | MpFingerprint f =>
      faithful_part view pt
      ∧ (rg_x (rf_range f) = rg_y (rf_range f) ∨ key_ok (rg_x (rf_range f)) ∧ key_ok (rg_y (rf_range f)))
      ∧ ∃ f', MpFingerprint f' ∈ m ∧ narrower view (rf_range f) (rf_range f')
  end.

Definition item_answered (view : list E) out (i : RangeItem E K) : Prop :=
  ri_have_local i = false → ∀ e, e ∈ loc view (ri_range i) →
    superseded_by (ri_values i) e = true ∨ ∃ i', MpItem i' ∈ out ∧ e ∈ (ri_values i').*1.
Definition fingerprint_answered (view : list E) out (f : RangeFingerprint K) : Prop :=
  eqb (range_fingerprint (loc view (rf_range f))) (rf_fingerprint f) = true
  ∨ ∀ k, range_contains (rf_range f) k = true →
      ∃ pt r, pt ∈ out ∧ part_range pt = Some r ∧ range_contains r k = true ∧ faithful_part view pt.

Record answer (key_ok : K → Prop) (view : list E) m out : Prop := {
  an_items : ∀ i, MpItem i ∈ m → item_answered view out i;
  an_fingerprints : ∀ f, MpFingerprint f ∈ m → fingerprint_answered view out f;
  an_parts : ∀ pt, pt ∈ out → part_from key_ok view m pt;
}.

(** A side whose reads are frozen: an invariant that every operation of the
    store keeps and that fixes the view and the admissible keys. *)
Record frozen_view (fixed : S → Prop) (view : list E) (key_ok : K → Prop) : Prop := {
  fv_view : ∀ s, fixed s → rs_view s = view;
  fv_key_ok : ∀ s k, fixed s → rs_inv s → (rs_key_ok s k ↔ key_ok k);
  fv_get_range : ∀ r, preserves fixed (rs_get_range r);
  fv_get_fingerprint : ∀ r, preserves fixed (rs_get_fingerprint r);
  fv_get_first : preserves fixed rs_get_first;
  fv_prefixes_of : ∀ k, preserves fixed (rs_prefixes_of k);
  fv_remove : ∀ k f, preserves fixed (rs_remove_prefix_filtered k f);
  fv_put : ∀ e, preserves fixed (rs_entry_put e);
}.

(** ** One message *)
Section side.
Context (fixed : S → Prop) (view : list E) (key_ok : K → Prop) (Hfix : frozen_view fixed view key_ok).
Context (d : bool).

Definition fixed_p (p : S * W) : Prop := fixed p.1.

Lemma pr_store_op {A} (mo : ST S Er A) : preserves fixed mo → preserves fixed_p (store_op mo).
Proof. intros Hm. by apply (pr_zoom fixed_p fixed). Qed.
Lemma pr_with_status es : preserves (E:=Er) fixed_p (with_status (content_status_cb d) es).
Proof. apply pr_gets. Qed.
Lemma pr_would_insert e : preserves fixed (would_insert e).
Proof. unfold would_insert. preserves_auto. apply Hfix. Qed.
Lemma pr_put e : preserves fixed (put e).
Proof.
  unfold put. apply pr_bind; [apply pr_would_insert|]. intros w. preserves_auto; apply Hfix.
Qed.
Lemma pr_pivot r n st i : preserves fixed (pivot config r n st i).
Proof. unfold pivot. preserves_auto. apply Hfix. Qed.
Lemma pr_pivot_ranges r n st c : preserves fixed (pivot_ranges config r n st c).
Proof. unfold pivot_ranges. preserves_auto; apply pr_pivot. Qed.
Lemma pr_split_ranges r n st : preserves fixed (split_ranges config r n st).
Proof. unfold split_ranges. preserves_auto; first [apply pr_pivot|apply pr_pivot_ranges]. Qed.

Lemma pr_store_value v : preserves fixed_p (store_value (validate_cb d) (on_insert_cb d) v).
Proof.
  destruct v as [e c]. unfold store_value. preserves_auto.
  - apply pr_store_op, pr_put.
  - apply pr_modify. by intros p.
  - apply pr_store_op, pr_would_insert.
Qed.
Lemma pr_item_diff i : preserves fixed_p (item_diff (content_status_cb d) i).
Proof.
  unfold item_diff. preserves_auto; [apply pr_store_op, Hfix|apply pr_with_status].
Qed.
Lemma pr_process_item out i :
  preserves fixed_p (process_item (validate_cb d) (on_insert_cb d) (content_status_cb d) out i).
Proof.
  unfold process_item, store_values. preserves_auto; [apply pr_item_diff|apply pr_store_value].
Qed.
Lemma pr_process_fingerprint out f :
  preserves fixed_p (process_fingerprint config (content_status_cb d) out f).
Proof.
  unfold process_fingerprint, rs_get_range_len, range_parts, range_part. preserves_auto.
  all: first [apply pr_with_status|apply pr_store_op]; preserves_auto; first [apply Hfix|apply pr_split_ranges].
Qed.
Lemma pr_receive m : preserves fixed_p (receive d m).
Proof.
  unfold receive, process_message. preserves_auto; [apply pr_process_item|apply pr_process_fingerprint].
Qed.

(** Now what the answer is. *)
Context (s0 : S) (Hsplit : split_factor config = 2).
Context (Hvalid : ∀ s e c, rs_inv s → validate_cb d s e c = Accept → rs_entry_ok s0 e).

Definition range_key_ok r : Prop := rg_x r = rg_y r ∨ (key_ok (rg_x r) ∧ key_ok (rg_y r)).
Definition parts_ok m : Prop := ∀ pt, pt ∈ m →
  match pt with
  | MpFingerprint f => range_key_ok (rf_range f)
  | MpItem i => ri_have_local i = false → range_key_ok (ri_range i)
  | MpRejected _ => True
  end.

Lemma range_ok_key s r : fixed s → rs_inv s → range_ok s r ↔ range_key_ok r.
Proof. intros Hs Hi. unfold range_ok, range_key_ok. by rewrite !(fv_key_ok _ _ _ Hfix s). Qed.
Lemma local_loc s r : fixed s → local s r = loc view r.
Proof. intros Hs. unfold local, loc. by rewrite (fv_view _ _ _ Hfix s). Qed.

Lemma item_answered_app out ps i : item_answered view out i → item_answered view (out ++ ps) i.
Proof.
  intros Hi Hh e He. destruct (Hi Hh e He) as [?|(i' & Hi' & Hin)]; [by left|right].
  exists i'. split; [|done]. apply elem_of_app. by left.
Qed.
Lemma fingerprint_answered_app out ps f :
  fingerprint_answered view out f → fingerprint_answered view (out ++ ps) f.
Proof.
  intros [?|Hf]; [by left|right]. intros k Hk. destruct (Hf k Hk) as (pt & r & Hpt & ?).
  exists pt, r. split; [|done]. apply elem_of_app. by left.
Qed.

Lemma item_step m out i p : fixed p.1 → rs_wrote s0 p.1 → parts_ok m → MpItem i ∈ m →
  (∀ pt, pt ∈ out → part_from key_ok view m pt) →
  wp (process_item (validate_cb d) (on_insert_cb d) (content_status_cb d) out i) p (λ out' p',
    fixed p'.1 ∧ rs_wrote s0 p'.1 ∧ (∃ ps, out' = out ++ ps) ∧ item_answered view out' i
    ∧ ∀ pt, pt ∈ out' → part_from key_ok view m pt).
Proof.
  intros Hf Hw Hm Hi Hout. pose proof (wrote_inv _ _ Hw) as Hinv.
  eapply wp_mono.
  { apply wp_preserves; [apply (process_item_wp _ _ _ s0 Hvalid out i p Hw)|apply pr_process_item|exact Hf].
    intros Hh. apply range_ok_key; [done|done|]. by apply (Hm _ Hi). }
  intros out' p' [(q0 & rejs & _ & _ & _ & Hrej & Hst & ->) Hf'].
  assert (diff_of (content_status_cb d) p i =
    (λ e, (e, content_status_cb d p.2 e)) <$>
      List.filter (λ e, negb (superseded_by (ri_values i) e)) (loc view (ri_range i))) as Hdiff.
  { unfold diff_of. by rewrite local_loc. }
  split; [exact Hf'|]. split; [eapply rs_wrote_trans; [done|apply Hst]|]. split; [by eexists|]. split.
  - intros Hh e He. destruct (superseded_by (ri_values i) e) eqn:Hs; [by left|right].
    rewrite Hh. simpl. assert (e ∈ (diff_of (content_status_cb d) p i).*1) as Hin.
    { rewrite Hdiff, <- list_fmap_compose. apply list_elem_of_fmap. exists e. split; [done|].
      apply elem_of_filter_list. by rewrite Hs. }
    destruct (Nat.eqb_spec (length (diff_of (content_status_cb d) p i)) 0) as [Hz|Hz].
    { destruct (diff_of (content_status_cb d) p i); [by apply elem_of_nil in Hin|done]. }
    exists (Build_RangeItem (ri_range i) (diff_of (content_status_cb d) p i) true). split; [|exact Hin].
    rewrite !elem_of_app. right. right. by apply list_elem_of_singleton.
  - intros pt [Hpt|[Hpt|Hpt]%elem_of_app]%elem_of_app; [by apply Hout| |].
    + rewrite Forall_forall in Hrej. destruct (Hrej pt Hpt) as (e & c & t1 & t2 & -> & _). by exists i.
    + destruct (ri_have_local i) eqn:Hh; simpl in Hpt; [by apply elem_of_nil in Hpt|].
      destruct (length _ =? 0); [by apply elem_of_nil in Hpt|]. apply list_elem_of_singleton in Hpt as ->.
      split; [by exists i|]. cbn [ri_values]. rewrite Hdiff, <- list_fmap_compose.
      intros e (e' & -> & He')%list_elem_of_fmap. simpl. apply elem_of_filter_list in He' as [He' _].
      by apply elem_of_filter_list in He' as [? _].
Qed.

(** A part of an answer to a fingerprint. *)
Lemma part_faithful_loc s w pt : fixed s →
  part_faithful config (content_status_cb d) s w pt → faithful_part view pt.
Proof.
  intros Hs. destruct pt as [f|i|id]; simpl; [|intros [Hv Hh]; split; [done|]|done].
  - intros [-> _]. by rewrite local_loc.
  - by rewrite Hv, local_loc, <- list_fmap_compose, list_fmap_id.
Qed.

Lemma covers_part rs r : covers rs r →
  (∀ k, range_contains r k = true → ∃ q, q ∈ rs ∧ range_contains q k = true)
  ∧ ∀ q, q ∈ rs → ∀ k, range_contains q k = true → range_contains r k = true.
Proof.
  intros Hc. split.
  - intros k Hk. specialize (Hc k). rewrite Hk in Hc.
    destruct (List.filter (λ q, range_contains q k) rs) as [|q l] eqn:Hl; [done|].
    exists q. apply (elem_of_filter_list (λ q, range_contains q k)). rewrite Hl. left.
  - intros q Hq k Hk. specialize (Hc k). destruct (range_contains r k); [done|].
    assert (q ∈ List.filter (λ q, range_contains q k) rs) as Hin by by apply elem_of_filter_list.
    apply nil_length_inv in Hc. rewrite Hc in Hin. by apply elem_of_nil in Hin.
Qed.

Lemma fingerprint_step m out f p : fixed p.1 → rs_wrote s0 p.1 → parts_ok m → MpFingerprint f ∈ m →
  (∀ pt, pt ∈ out → part_from key_ok view m pt) →
  wp (process_fingerprint config (content_status_cb d) out f) p (λ out' p',
    fixed p'.1 ∧ rs_wrote s0 p'.1 ∧ (∃ ps, out' = out ++ ps) ∧ fingerprint_answered view out' f
    ∧ ∀ pt, pt ∈ out' → part_from key_ok view m pt).
Proof.
  intros Hf Hw Hm Hfp Hout. pose proof (wrote_inv _ _ Hw) as Hinv.
  eapply wp_mono.
  { apply wp_preserves; [apply process_fingerprint_wp|apply pr_process_fingerprint|exact Hf];
      [lia|by left|done|]. apply range_ok_key; [done|done|]. apply (Hm _ Hfp). }
  intros out' p' [(ps & -> & Hps & Hs & _) Hf'].
  split; [exact Hf'|]. split; [eapply rs_wrote_trans; [done|by apply rs_same_wrote]|].
  split; [by eexists|]. rewrite local_loc in Hps by done. unfold fingerprint_answered.
  destruct (eqb (range_fingerprint (loc view (rf_range f))) (rf_fingerprint f)) eqn:Heq.
  { subst ps. rewrite app_nil_r. split; [by left|done]. }
  destruct Hps as (rs & Hrs & Hcov & Hok & Hfaith & Hsmall). destruct (covers_part _ _ Hcov) as [Hin Hsub].
  split.
  - right. intros k Hk. destruct (Hin k Hk) as (q & Hq & Hqk).
    apply list_elem_of_lookup_1 in Hq as [j Hj].
    destruct (Forall2_lookup_l _ _ _ _ _ Hrs Hj) as (pt & Hpt & Hpr). apply list_elem_of_lookup_2 in Hpt.
    exists pt, q. split; [apply elem_of_app; by right|]. split; [done|]. split; [done|].
    rewrite Forall_forall in Hfaith. eapply part_faithful_loc; [exact Hf|]. by apply Hfaith.
  - intros pt [Hpt|Hpt]%elem_of_app; [by apply Hout|].
    rewrite Forall_forall in Hfaith. rewrite Forall_forall in Hsmall. rewrite Forall_forall in Hok.
    pose proof (Hfaith pt Hpt) as Hpf.
    pose proof (part_faithful_loc _ _ pt Hf Hpf) as Hpl. specialize (Hsmall pt Hpt).
    apply list_elem_of_lookup_1 in Hpt as [j Hj].
    destruct (Forall2_lookup_r _ _ _ _ _ Hrs Hj) as (q & Hq & Hpr). apply list_elem_of_lookup_2 in Hq.
    pose proof (proj1 (range_ok_key p.1 q Hf Hinv) (Hok q Hq)) as Hqok.
    destruct pt as [f'|i|id]; [|destruct Hpl as [Hh Hv]|done]; simpl in Hpr; injection Hpr as <-.
    + split; [done|]. split; [done|]. exists f. split; [done|]. split; [|by apply Hsub].
      simpl in Hsmall. by rewrite !local_loc in Hsmall.
    + unfold part_from. rewrite Hh. split; [by exists f|]. split; [by split|done].
Qed.

(** The whole message. *)
Lemma receive_wp m p : fixed p.1 → rs_wrote s0 p.1 → parts_ok m →
  wp (receive d m) p (λ reply p',
    fixed p'.1 ∧ rs_wrote s0 p'.1 ∧ reply ≠ Some [] ∧ answer key_ok view m (default [] reply)).
Proof.
  intros Hf Hw Hm. unfold receive, process_message. wp_step.
  eapply wp_mono.
  { apply wp_fold with (I := λ l out p', fixed p'.1 ∧ rs_wrote s0 p'.1
      ∧ (∀ i, i ∈ l → item_answered view out i) ∧ ∀ pt, pt ∈ out → part_from key_ok view m pt).
    2: { split_and!; [done|done|by intros i ?%elem_of_nil|by intros pt ?%elem_of_nil]. }
    intros l1 i l2 out p1 Heq (Hf1 & Hw1 & Hi1 & Hp1).
    assert (MpItem i ∈ m) as Him by (apply elem_of_message_items; rewrite Heq; set_solver).
    eapply wp_mono; [by apply (item_step m out i p1)|].
    intros out' p2 (Hf2 & Hw2 & [ps ->] & Hi2 & Hp2). split_and!; [done|done| |done].
    intros i' [Hin|Hin]%elem_of_app; [by apply item_answered_app, Hi1|].
    by apply list_elem_of_singleton in Hin as ->. }
  intros out p1 (Hf1 & Hw1 & Hi1 & Hp1). wp_step. eapply wp_mono.
  { apply wp_fold with (I := λ l out' p', fixed p'.1 ∧ rs_wrote s0 p'.1
      ∧ (∀ i, MpItem i ∈ m → item_answered view out' i)
      ∧ (∀ f, f ∈ l → fingerprint_answered view out' f)
      ∧ ∀ pt, pt ∈ out' → part_from key_ok view m pt).
    2: { split_and!; [done|done| |by intros i ?%elem_of_nil|done].
      intros i Hi. apply Hi1. by apply elem_of_message_items. }
    intros l1 f l2 out' p2 Heq (Hf2 & Hw2 & Hi2 & Hfp2 & Hp2).
    assert (MpFingerprint f ∈ m) as Hfm by (apply elem_of_message_fingerprints; rewrite Heq; set_solver).
    eapply wp_mono; [by apply (fingerprint_step m out' f p2)|].
    intros out3 p3 (Hf3 & Hw3 & [ps ->] & Hfp3 & Hp3). split_and!; [done|done| | |done].
    - intros i Hi. by apply item_answered_app, Hi2.
    - intros f' [Hin|Hin]%elem_of_app; [by apply fingerprint_answered_app, Hfp2|].
      by apply list_elem_of_singleton in Hin as ->. }
  intros out2 p2 (Hf2 & Hw2 & Hi2 & Hfp2 & Hp2). wp_step.
  assert (answer key_ok view m out2) as Han.
  { split; [done| |done]. intros f Hfm. by apply Hfp2, elem_of_message_fingerprints. }
  by destruct out2; split_and!.
Qed.
End side.

Lemma geb_leb_v (v w : V) : geb v w = leb w v.
Proof. unfold geb, leb. rewrite (rs_value_antisym (S:=S) (E:=E) (K:=K) (R:=R) (Err:=Er) v w). by destruct (cmp v w). Qed.
Lemma leb_total_v (v w : V) : leb v w = false → leb w v = true.
Proof. unfold leb. rewrite (rs_value_antisym (S:=S) (E:=E) (K:=K) (R:=R) (Err:=Er) v w). by destruct (cmp v w). Qed.

(** ** What a side holds

    On entries among which a key is listed exactly when it is covered, taking
    a value in is a join: a side that has received [P] holds, of the values
    in [P], those that no other one dominates. *)
Definition dominates (q e : E) : Prop :=
  rs_covered (re_key q) (re_key e) = true ∧ leb (re_value e) (re_value q) = true.

Section content.
Context (U : E → Prop) (key_ok : K → Prop).
Context (Hkey_ok : ∀ e, U e → key_ok (re_key e)).
Context (Hlisted_ok : ∀ q e, U e → rs_listed q (re_key e) = true → key_ok (re_key q)).
Context (Hlisted : ∀ q e, U q → U e → rs_listed q (re_key e) = rs_covered (re_key q) (re_key e)).
Context (Hdom_refl : ∀ e, U e → dominates e e).
Context (Hdom_trans : ∀ e1 e2 e3, U e1 → U e2 → U e3 → dominates e1 e2 → dominates e2 e3 → dominates e1 e3).

Record holds (P : E → Prop) (s : S) : Prop := {
  ho_inv : rs_inv s;
  ho_clean : prefix_clean s;
  ho_sound : ∀ k x, key_ok k → rs_live s k = Some x → P x;
  ho_top : ∀ e, P e → ∃ x, key_ok (re_key x) ∧ rs_live s (re_key x) = Some x ∧ dominates x e;
}.

Lemma holds_iff P Q s : (∀ e, P e ↔ Q e) → holds P s → holds Q s.
Proof.
  intros HPQ [Hi Hc Hs Ht]. split; [done|done| |].
  - intros k x Hk Hx. by eapply HPQ, Hs.
  - intros e He. by apply Ht, HPQ.
Qed.
Lemma holds_same P s s' : rs_same s s' → holds P s → holds P s'.
Proof.
  intros Hs [Hi Hc Hso Ht]. split; [apply Hs| | |].
  - intros q c. rewrite !(same_live _ _ Hs). apply Hc.
  - intros k x. rewrite (same_live _ _ Hs). apply Hso.
  - intros e He. setoid_rewrite (same_live _ _ Hs). by apply Ht.
Qed.

(** The same keys, with values that neither precedes the other. *)
Definition same_content (s s' : S) : Prop := ∀ k, key_ok k →
  match rs_live s k, rs_live s' k with
  | Some x, Some y => cmp (re_value x) (re_value y) = Eq
  | None, None => True
  | _, _ => False
  end.

(** Two stores that hold the same have the same content. *)
Section same.
Context (Hantisym : ∀ e1 e2, U e1 → U e2 → rs_covered (re_key e1) (re_key e2) = true →
  rs_covered (re_key e2) (re_key e1) = true → re_key e1 = re_key e2).
Context (P : E → Prop) (HP : ∀ e, P e → U e).

Lemma holds_same_live s s' k x : holds P s → holds P s' → key_ok k → rs_live s k = Some x →
  ∃ y, rs_live s' k = Some y ∧ cmp (re_value x) (re_value y) = Eq.
Proof.
  intros [Hi Hc Hs Ht] [Hi' _ Hs' Ht'] Hk Hx. pose proof (Hs _ _ Hk Hx) as Hsx.
  pose proof (rs_live_key _ _ _ Hi Hx) as <-.
  destruct (Ht' x Hsx) as (y & Hyk & Hy & Hyx). pose proof (Hs' _ _ Hyk Hy) as Hsy.
  destruct (Ht y Hsy) as (z & Hzk & Hz & Hzy). pose proof (Hs _ _ Hzk Hz) as Hsz.
  pose proof (Hdom_trans z y x (HP _ Hsz) (HP _ Hsy) (HP _ Hsx) Hzy Hyx) as [Hcov Hle].
  assert (re_key z = re_key x) as Hzx.
  { destruct (eqb (re_key z) (re_key x)) eqn:Heq; [by apply eqb_eq|].
    rewrite (Hc z x) in Hle; [done|done|done|by rewrite Hlisted; [|apply HP..]|].
    intros Hkk. rewrite Hkk, eqb_refl in Heq. done. }
  rewrite Hzx, Hx in Hz. injection Hz as ->. destruct Hyx as [Hc1 Hv1], Hzy as [Hc2 Hv2].
  exists y. split; [by rewrite (Hantisym z y (HP _ Hsz) (HP _ Hsy))|].
  unfold leb in Hv1, Hv2. rewrite (rs_value_antisym (S:=S) (E:=E) (K:=K) (R:=R) (Err:=Er) (re_value z) (re_value y)) in Hv2.
  by destruct (cmp (re_value z) (re_value y)).
Qed.
Lemma holds_same_content s s' : holds P s → holds P s' → same_content s s'.
Proof.
  intros Hs Hs' k Hk. destruct (rs_live s k) as [x|] eqn:Hx.
  - by destruct (holds_same_live s s' k x Hs Hs' Hk Hx) as (y & -> & ?).
  - destruct (rs_live s' k) as [y|] eqn:Hy; [|done].
    destruct (holds_same_live s' s k y Hs' Hs Hk Hy) as (x & Hx' & _). congruence.
Qed.
End same.

(** A live entry stays unless the new one replaces or covers it. *)
Lemma live_after_put_keeps s e y : rs_live s (re_key y) = Some y → ¬ superseded s e →
  U e → U y → live_after_put s e (re_key y) = Some y ∨ dominates e y.
Proof.
  intros Hy Hsup He Hu. unfold live_after_put. rewrite Hy. simpl.
  destruct (eqb (re_key e) (re_key y)) eqn:Hk.
  - apply eqb_eq in Hk. right. split; [rewrite <- Hk; by apply Hdom_refl|].
    destruct (leb (re_value y) (re_value e)) eqn:Hle; [done|]. destruct Hsup. exists y. split; [done|].
    rewrite Hlisted, Hk by done. split; [by apply Hdom_refl|]. by apply leb_total_v.
  - destruct (rs_covered (re_key e) (re_key y)) eqn:Hcov; [|by left]. simpl. rewrite geb_leb_v.
    destruct (leb (re_value y) (re_value e)) eqn:Hle; [by right|by left].
Qed.

Lemma put_holds P s e : (∀ x, P x → U x) → U e → rs_entry_ok s e → holds P s →
  wp (put e) s (λ _ s', rs_wrote s s' ∧ holds (λ x, P x ∨ x = e) s').
Proof.
  intros HP He Hok [Hi Hc Hso Ht]. eapply wp_mono.
  { apply wp_and; [by apply put_wp|by apply put_prefix_clean]. }
  intros o s' [[Hw Ho] Hc']. split; [done|]. destruct o as [|n]; destruct Ho as [Hsup Hl].
  - split; [apply Hw|done| |].
    + intros k x Hk. rewrite Hl. intros Hx. left. by eapply Hso.
    + setoid_rewrite Hl. intros x [Hx| ->]; [by apply Ht|].
      destruct Hsup as (q & Hq & Hli & Hle). exists q. split; [by eapply Hlisted_ok|]. split; [done|].
      split; [by apply rs_listed_covered|done].
  - assert (∀ y, dominates e y →
      ∃ x, key_ok (re_key x) ∧ rs_live s' (re_key x) = Some x ∧ dominates x y) as Hnew.
    { intros y Hy. exists e. split; [by apply Hkey_ok|]. split; [|done]. rewrite Hl.
      unfold live_after_put. by rewrite eqb_refl. }
    split; [apply Hw|done| |].
    + intros k x Hk. rewrite Hl. unfold live_after_put.
      destruct (eqb (re_key e) k); [intros [= <-]; by right|].
      destruct (rs_live s k) as [c|] eqn:Hc2; [|done]. simpl. destruct (_ && _); [done|].
      intros [= <-]. left. by eapply Hso.
    + intros x [Hx| ->]; [|by apply Hnew, Hdom_refl].
      destruct (Ht x Hx) as (y & Hyk & Hy & Hyx). pose proof (HP _ (Hso _ _ Hyk Hy)) as Hu.
      destruct (live_after_put_keeps s e y Hy Hsup He Hu) as [Hkeep|Hdom].
      * exists y. by rewrite Hl.
      * apply Hnew. by apply (Hdom_trans e y x); [| |apply HP| |].
Qed.

(** Storing the values of a message. *)
Context (d : bool) (s0 : S).
Context (Hvalid : ∀ s e c, rs_inv s → validate_cb d s e c = Accept → rs_entry_ok s0 e).
Context (Hsplit : split_factor config = 2).
Context (fixed : S → Prop) (view : list E) (Hfix : frozen_view fixed view key_ok).

Definition welcome (vs : list (E * ContentStatus)) : Prop := ∀ e c, (e, c) ∈ vs →
  U e ∧ ∀ s, fixed s → rs_inv s → validate_cb d s e c = Accept.
Definition stocked (P : E → Prop) (vs : list (E * ContentStatus)) (p : S * W) : Prop :=
  fixed p.1 ∧ rs_wrote s0 p.1 ∧ holds (λ e, P e ∨ e ∈ vs.*1) p.1.

Lemma stocked_nil P p : fixed p.1 → rs_wrote s0 p.1 → holds P p.1 → stocked P [] p.
Proof.
  intros Hf Hw Hh. split; [done|]. split; [done|]. eapply holds_iff; [|done].
  intros e. split; [by left|]. by intros [?|?%elem_of_nil].
Qed.

Lemma store_value_stocked P vs v p : (∀ e, P e → U e) → welcome (vs ++ [v]) → stocked P vs p →
  wp (store_value (validate_cb d) (on_insert_cb d) v) p (λ _ p', stocked P (vs ++ [v]) p').
Proof.
  intros HP Hwel (Hf & Hw & Hh). destruct v as [e c].
  destruct (Hwel e c) as [Hu Hacc]; [set_solver|]. unfold store_value. wp_step. wp_step.
  rewrite (Hacc _ Hf (wrote_inv _ _ Hw)). wp_step. apply store_op_wp. eapply wp_mono.
  { apply wp_preserves; [|apply (pr_put _ _ _ Hfix)|exact Hf].
    apply (put_holds (λ x, P x ∨ x ∈ vs.*1)); [| done| |done].
    - intros x [Hx|(y & -> & Hy)%list_elem_of_fmap]; [by apply HP|].
      destruct y as [y c']. apply (Hwel y c'). set_solver.
    - rewrite (wrote_entry_ok _ _ Hw). eapply Hvalid; [apply Hw|by apply Hacc, Hw]. }
  intros o s' [[Hw' Hh'] Hf'].
  assert (∀ w, stocked P (vs ++ [(e, c)]) (s', w)) as Hst.
  { intros w. split; [done|]. split; [by eapply rs_wrote_trans|]. eapply holds_iff; [|done].
    intros x. rewrite fmap_app, elem_of_app. simpl. rewrite list_elem_of_singleton. tauto. }
  destruct o; wp_step; [apply Hst|]. wp_step. wp_step. apply Hst.
Qed.

Lemma welcome_sub vs vs' : (∀ v, v ∈ vs → v ∈ vs') → welcome vs' → welcome vs.
Proof. intros Hsub Hwel e c Hin. by apply Hwel, Hsub. Qed.
Lemma stocked_same P vs p p' : rs_same p.1 p'.1 → fixed p'.1 → stocked P vs p → stocked P vs p'.
Proof.
  intros Hs Hf (_ & Hw & Hh). split; [done|]. split; [|by eapply holds_same].
  eapply rs_wrote_trans; [done|by apply rs_same_wrote].
Qed.

Lemma store_values_stocked P vs ws out p : (∀ e, P e → U e) → welcome (vs ++ ws) → stocked P vs p →
  wp (store_values (validate_cb d) (on_insert_cb d) out ws) p (λ _ p', stocked P (vs ++ ws) p').
Proof.
  intros HP Hwel Hst. unfold store_values.
  apply wp_fold with (I := λ l _ p', stocked P (vs ++ l) p'); [|by rewrite app_nil_r].
  intros l1 v l2 out' p' Heq Hst'. rewrite app_assoc. wp_step. eapply wp_mono.
  { apply (store_value_stocked P (vs ++ l1) v p'); [done| |done].
    eapply welcome_sub; [|done]. intros x. rewrite Heq. set_solver. }
  intros ps p2 Hst2. by wp_step.
Qed.

Lemma item_stocked P vs out i p : (∀ e, P e → U e) → welcome (vs ++ ri_values i) → stocked P vs p →
  (ri_have_local i = false → range_ok p.1 (ri_range i)) →
  wp (process_item (validate_cb d) (on_insert_cb d) (content_status_cb d) out i) p (λ _ p',
    stocked P (vs ++ ri_values i) p').
Proof.
  intros HP Hwel Hst Hr. unfold process_item. wp_step.
  eapply wp_mono.
  { apply wp_preserves; [by apply item_diff_wp; [apply Hst|]|apply (pr_item_diff _ _ _ Hfix)|apply Hst]. }
  intros df p1 [[Hs1 _] Hf1]. pose proof (stocked_same P vs p p1 Hs1 Hf1 Hst) as Hst1. wp_step. eapply wp_mono.
  { by apply (store_values_stocked P vs (ri_values i) out p1). }
  intros out' p2 Hst2. destruct df as [df|]; [|by wp_step]. by destruct (length df =? 0); wp_step.
Qed.

Lemma fingerprint_stocked P vs out f p : stocked P vs p → range_ok p.1 (rf_range f) →
  wp (process_fingerprint config (content_status_cb d) out f) p (λ _ p', stocked P vs p').
Proof.
  intros Hst Hr. eapply wp_mono.
  { apply wp_preserves; [apply process_fingerprint_wp|by eapply pr_process_fingerprint|apply Hst];
      [lia|by left|apply Hst|done]. }
  intros out' p' [(ps & _ & _ & Hs & _) Hf]. by apply (stocked_same P vs p).
Qed.

Lemma elem_of_item_values m v :
  v ∈ (message_items m ≫= ri_values) ↔ v ∈ message_values m.
Proof.
  unfold message_values, message_items. induction m as [|pt m IH]; [done|].
  destruct pt as [f|i|id]; simpl; [exact IH| |exact IH]. rewrite !elem_of_app. by rewrite IH.
Qed.

(** A message whose values are welcome leaves what it should. *)
Lemma receive_stocked P m p : (∀ e, P e → U e) → welcome (message_values m) →
  fixed p.1 → rs_wrote s0 p.1 → holds P p.1 → parts_ok key_ok m →
  wp (receive d m) p (λ _ p', stocked P (message_values m) p').
Proof.
  intros HP Hwel Hf Hw Hh Hm. unfold receive, process_message. wp_step.
  assert (∀ p r, fixed p.1 → rs_inv p.1 → range_key_ok key_ok r → range_ok p.1 r) as Hr.
  { intros p' r Hf' Hi' Hr. by apply (range_ok_key _ _ _ Hfix). }
  eapply wp_mono.
  { apply wp_fold with (I := λ l _ p', stocked P (l ≫= ri_values) p'); [|by apply stocked_nil].
    intros l1 i l2 out p1 Heq Hst. rewrite bind_app. simpl. rewrite app_nil_r.
    apply item_stocked; [done| |done|].
    - eapply welcome_sub; [|exact Hwel]. intros v Hv. apply elem_of_item_values. rewrite Heq, bind_app.
      simpl. set_solver.
    - intros Hhl. apply Hr; [apply Hst|apply Hst|]. apply (Hm (MpItem i)); [|done].
      apply elem_of_message_items. rewrite Heq. set_solver. }
  intros out p1 Hst1. wp_step. eapply wp_mono.
  { apply wp_fold with (I := λ _ _ p', stocked P (message_items m ≫= ri_values) p'); [|done].
    intros l1 f l2 out' p2 Heq Hst. apply fingerprint_stocked; [done|].
    apply Hr; [apply Hst|apply Hst|]. apply (Hm (MpFingerprint f)).
    apply elem_of_message_fingerprints. rewrite Heq. set_solver. }
  intros out2 p2 (Hf2 & Hw2 & Hh2).
  assert (stocked P (message_values m) p2) as Hst2.
  { split; [done|]. split; [done|]. eapply holds_iff; [|done]. intros e.
    rewrite !list_elem_of_fmap. by setoid_rewrite elem_of_item_values. }
  by destruct out2; wp_step.
Qed.
End content.

(** ** The exchange as a whole *)
Section both.
Context (Hsplit : split_factor config = 2).
Context (fixed : bool → S → Prop) (view : bool → list E) (key_ok : K → Prop).
Context (Hfix : ∀ d, frozen_view (fixed d) (view d) key_ok).
Context (s0 : bool → S).
Context (Hvalid : ∀ d s e c, rs_inv s → validate_cb d s e c = Accept → rs_entry_ok (s0 d) e).

(** Some entry of [l] is at the key of [e] and at least as new. *)
Definition held (l : list E) e : Prop :=
  ∃ e', e' ∈ l ∧ re_key e' = re_key e ∧ leb (re_value e) (re_value e') = true.

(** Equal fingerprints mean equal contents, for the ranges of these views. *)
Definition fingerprints_tell_views : Prop := ∀ d r,
  eqb (range_fingerprint (loc (view d) r)) (range_fingerprint (loc (view (negb d)) r)) = true →
  ∀ e, e ∈ loc (view d) r → held (view (negb d)) e.
Context (Hfp : fingerprints_tell_views).

Definition received d σ : list E := (side d σ).2.*1.
Definition settled d σ e : Prop := e ∈ received d σ ∨ held (view d) e.

(** How far a part is from being done. *)
Definition rank (pt : MessagePart E K R) : nat :=
  match pt with
  | MpFingerprint f => 3 + length (loc (view true) (rf_range f)) + length (loc (view false) (rf_range f))
  | MpItem i => if ri_have_local i then 1 else 2
  | MpRejected _ => 0
  end.

Definition honest (l : list E) (pt : MessagePart E K R) : Prop :=
  match pt with
  | MpItem i => if ri_have_local i then (ri_values i).*1 ⊆ l else faithful_part l pt
  | MpFingerprint _ => faithful_part l pt
  | MpRejected _ => True
  end.

(** A key is open if some part of the message stands for its range; otherwise
    what the sender has there is settled or on its way, and what the receiver
    has is settled. *)
Definition key_open d m (k : K) : Prop :=
  ∃ pt r, pt ∈ m ∧ part_range pt = Some r ∧ range_contains r k = true ∧ faithful_part (view (negb d)) pt.
Definition key_closing d m σ (k : K) : Prop :=
  (∀ e, e ∈ view (negb d) → re_key e = k →
     settled d σ e ∨ ∃ i, MpItem i ∈ m ∧ e ∈ (ri_values i).*1)
  ∧ ∀ e, e ∈ view d → re_key e = k → settled (negb d) σ e.

(** A message on its way to [d] that was made from the other side's view;
    [n] bounds the messages that are left. *)
Record flying (n : nat) d m σ : Prop := {
  if_fixed : ∀ d', fixed d' (side d' σ).1.1;
  if_wrote : ∀ d', rs_wrote (s0 d') (side d' σ).1.1;
  if_ok : parts_ok key_ok m;
  if_honest : ∀ pt, pt ∈ m → honest (view (negb d)) pt;
  if_sound : ∀ d', received d' σ ⊆ view (negb d');
  if_rank : ∀ pt, pt ∈ m → rank pt < n;
}.
Record in_flight (n : nat) d m σ : Prop := {
  if_flying : flying n d m σ;
  if_keys : ∀ k, key_open d m k ∨ key_closing d m σ k;
}.

Lemma message_values_item m v :
  v ∈ (message_values m).*1 ↔ ∃ i, MpItem i ∈ m ∧ v ∈ (ri_values i).*1.
Proof.
  unfold message_values. rewrite list_elem_of_fmap. split.
  - intros (x & -> & (l & Hx & (pt & Hpt & Hl)%list_elem_of_omap)%list_elem_of_join).
    destruct pt as [f|i|id]; simpl in Hl; [done| |done]. injection Hl as <-.
    exists i. split; [done|]. apply list_elem_of_fmap. by exists x.
  - intros (i & Hi & (x & -> & Hx)%list_elem_of_fmap). exists x. split; [done|].
    by eapply item_values_message.
Qed.

Lemma honest_values d m v : (∀ pt, pt ∈ m → honest (view (negb d)) pt) →
  v ∈ (message_values m).*1 → v ∈ view (negb d).
Proof.
  intros Hm (i & Hi & Hv)%message_values_item. specialize (Hm _ Hi). simpl in Hm.
  destruct (ri_have_local i); [by apply Hm|]. destruct Hm as [_ Hm]. rewrite Hm in Hv.
  by apply elem_of_filter_list in Hv as [? _].
Qed.

(** [e] is superseded by a value: the sender holds it too. *)
Lemma superseded_held d i e : honest (view (negb d)) (MpItem i) →
  superseded_by (ri_values i) e = true → held (view (negb d)) e.
Proof.
  intros Hh (v & Hv & [Hk Hle]%andb_true_iff)%existsb_exists.
  apply eqb_eq in Hk. exists v.1. rewrite geb_leb_v in Hle. split; [|split; [done|exact Hle]].
  apply (honest_values d [MpItem i]); [intros pt ->%list_elem_of_singleton; done|].
  apply message_values_item. exists i. split; [left|]. apply list_elem_of_fmap. exists v.
  split; [done|]. by apply list_elem_of_In.
Qed.

Lemma loc_key d r e : e ∈ view d → range_contains r (re_key e) = true → e ∈ loc (view d) r.
Proof. intros He Hr. by apply elem_of_filter_list. Qed.
Lemma loc_narrower l r r' : (∀ k, range_contains r' k = true → range_contains r k = true) →
  length (loc l r') ≤ length (loc l r).
Proof.
  intros Hsub. unfold loc, in_range. induction l as [|e l IH]; simpl; [done|].
  destruct (range_contains r' (re_key e)) eqn:Hr; [rewrite (Hsub _ Hr); simpl; lia|].
  destruct (range_contains r (re_key e)); simpl; lia.
Qed.

Lemma answer_rank d m out pt : answer key_ok (view d) m out → pt ∈ out →
  ∃ src, src ∈ m ∧ rank pt < rank src.
Proof.
  intros Han Hpt. pose proof (an_parts _ _ _ _ Han pt Hpt) as Hp. destruct pt as [f|i|id]; simpl in Hp.
  - destruct Hp as (_ & _ & f' & Hf' & Hlt & Hsub). exists (MpFingerprint f'). split; [done|]. simpl.
    pose proof (loc_narrower (view true) _ _ Hsub). pose proof (loc_narrower (view false) _ _ Hsub).
    destruct d; lia.
  - destruct (ri_have_local i) eqn:Hh; simpl; rewrite Hh.
    + destruct Hp as [(i' & Hi' & Hh') _]. exists (MpItem i'). simpl. rewrite Hh'. split; [done|lia].
    + destruct Hp as [[f Hf] _]. exists (MpFingerprint f). split; [done|]. simpl. lia.
  - destruct Hp as [i Hi]. exists (MpItem i). split; [done|]. simpl. destruct (ri_have_local i); lia.
Qed.

(** After a message. *)
Definition after d m p σ : Sides := set_side d (p, (side d σ).2 ++ message_values m) σ.

Lemma received_after d m p σ e : e ∈ received d (after d m p σ) ↔ e ∈ received d σ ∨ e ∈ (message_values m).*1.
Proof. unfold received, after. rewrite side_set. simpl. by rewrite fmap_app, elem_of_app. Qed.
Lemma received_after_other d m p σ : received (negb d) (after d m p σ) = received (negb d) σ.
Proof. unfold received, after. by rewrite side_set_other. Qed.
Lemma bool_side d d' : d' = d ∨ d' = negb d.
Proof. by destruct d, d'; [left|right|right|left]. Qed.
Lemma settled_after d m p σ d' e : settled d' σ e → settled d' (after d m p σ) e.
Proof.
  intros [Hr|?]; [left|by right].
  destruct (bool_side d d') as [-> | ->]; [apply received_after; by left|by rewrite received_after_other].
Qed.

Lemma keys_after n d m σ out p k : in_flight n d m σ → answer key_ok (view d) m out →
  key_open (negb d) out k ∨ key_closing (negb d) out (after d m p σ) k.
Proof.
  intros Hm Han. unfold key_open, key_closing. rewrite negb_involutive.
  destruct (if_keys _ _ _ _ Hm k) as [(pt & r & Hpt & Hr & Hk & Hfa)|[Hto Hfrom]].
  - destruct pt as [f|i|id]; [| |done]; simpl in Hr; injection Hr as <-.
    + destruct (an_fingerprints _ _ _ _ Han f Hpt) as [Heq|Hparts].
      * right. simpl in Hfa. rewrite Hfa in Heq. split.
        -- intros e He <-. left. right. apply (Hfp d (rf_range f)); [done|]. by apply loc_key.
        -- intros e He <-. right. pose proof (Hfp (negb d) (rf_range f)) as Hn. rewrite negb_involutive in Hn.
           apply Hn; [by rewrite eqb_sym|]. by apply loc_key.
      * left. destruct (Hparts k Hk) as (pt & r & ?). by exists pt, r.
    + right. destruct Hfa as [Hh Hv]. split.
      * intros e He <-. destruct (an_items _ _ _ _ Han i Hpt Hh e) as [Hs|?]; [by apply loc_key| |by right].
        left. right. apply (superseded_held d i); [|done]. by apply (if_honest _ _ _ _ (if_flying _ _ _ _ Hm)).
      * intros e He <-. left. apply received_after. right. apply message_values_item. exists i.
        split; [done|]. rewrite Hv. by apply loc_key.
  - right. split.
    + intros e He Hk. left. by apply settled_after, Hfrom.
    + intros e He Hk. destruct (Hto e He Hk) as [?|Hin]; [by apply settled_after|].
      left. apply received_after. right. by apply message_values_item.
Qed.

Lemma flying_after n d m σ out p : flying n d m σ → answer key_ok (view d) m out →
  fixed d p.1 → rs_wrote (s0 d) p.1 → flying (pred n) (negb d) out (after d m p σ).
Proof.
  intros Hm Han Hf Hw. split.
  - intros d'. unfold after. destruct (bool_side d d') as [-> | ->];
      [by rewrite side_set|rewrite side_set_other; apply Hm].
  - intros d'. unfold after. destruct (bool_side d d') as [-> | ->];
      [by rewrite side_set|rewrite side_set_other; apply Hm].
  - intros pt Hpt. pose proof (an_parts _ _ _ _ Han pt Hpt) as Hp. destruct pt as [f|i|id]; [| |done].
    + by destruct Hp as (_ & ? & _).
    + intros Hh. simpl in Hp. rewrite Hh in Hp. by destruct Hp as (_ & _ & ?).
  - intros pt Hpt. rewrite negb_involutive. pose proof (an_parts _ _ _ _ Han pt Hpt) as Hp.
    destruct pt as [f|i|id]; [by destruct Hp| |done]. simpl in *.
    destruct (ri_have_local i); [by destruct Hp|by destruct Hp as (_ & ? & _)].
  - intros d' e. destruct (bool_side d d') as [-> | ->].
    + intros [Hr|Hv]%received_after; [by apply (if_sound _ _ _ _ Hm)|].
      eapply honest_values; [apply (if_honest _ _ _ _ Hm)|done].
    + rewrite received_after_other. apply (if_sound _ _ _ _ Hm).
  - intros pt Hpt. destruct (answer_rank d m out pt Han Hpt) as (src & Hsrc & Hlt).
    pose proof (if_rank _ _ _ _ Hm src Hsrc). lia.
Qed.
Lemma in_flight_after n d m σ out p : in_flight n d m σ → answer key_ok (view d) m out →
  fixed d p.1 → rs_wrote (s0 d) p.1 → in_flight (pred n) (negb d) out (after d m p σ).
Proof.
  intros Hm Han Hf Hw. split; [by apply flying_after; [apply Hm|..]|]. intros k. by eapply keys_after.
Qed.

(** What an exchange ends with. *)
Record delivered σ : Prop := {
  dl_fixed : ∀ d, fixed d (side d σ).1.1;
  dl_wrote : ∀ d, rs_wrote (s0 d) (side d σ).1.1;
  dl_sound : ∀ d, received d σ ⊆ view (negb d);
  dl_settled : ∀ d e, e ∈ view (negb d) → settled d σ e;
}.

(** Nothing is left to say: everything has been delivered. *)
Lemma in_flight_done n d σ : in_flight n d [] σ → delivered σ.
Proof.
  intros Hm. split; try apply Hm. intros d' e He.
  destruct (if_keys _ _ _ _ Hm (re_key e)) as [(pt & r & Hpt & _)|[Hto Hfrom]]; [by apply elem_of_nil in Hpt|].
  destruct (bool_side d d') as [-> | ->].
  - destruct (Hto e He eq_refl) as [?|(i & Hi & _)]; [done|by apply elem_of_nil in Hi].
  - rewrite negb_involutive in He. by apply Hfrom.
Qed.

(** Enough fuel: an exchange of at most one message per entry and a few. *)
Definition enough_fuel : nat := length (view true) + length (view false) + 5.

(** Both sides as they are before the exchange. *)
Definition sides_ready σ : Prop := ∀ d,
  fixed d (side d σ).1.1 ∧ rs_wrote (s0 d) (side d σ).1.1 ∧ received d σ = [].

(** What a message leaves in the store was there or is a value of it that
    was accepted. *)
Lemma receive_stored n d m σ reply p : flying n d m σ → receive d m (side d σ).1 = (Ok reply, p) →
  stored_from (validate_cb d) (message_values m) (side d σ).1.1 p.1.
Proof.
  intros Hm Hrun. pose proof (if_fixed _ _ _ _ Hm d) as Hf. pose proof (if_wrote _ _ _ _ Hm d) as Hw.
  destruct (process_message_wp config (content_status_cb d) (validate_cb d) (on_insert_cb d) (s0 d) (Hvalid d)
    m (side d σ).1 Hsplit Hw) as (reply' & p' & Hrun' & Hst & _).
  - split; intros pt Hpt; [intros Hh|]; apply (range_ok_key _ _ _ (Hfix d)); try done; try apply (wrote_inv _ _ Hw);
      [by apply (if_ok _ _ _ _ Hm (MpItem pt))|by apply (if_ok _ _ _ _ Hm (MpFingerprint pt))].
  - unfold receive in Hrun. rewrite Hrun in Hrun'. by injection Hrun' as <- <-.
Qed.

(** What a run of [receive] establishes of one side, beside the answer. *)
Section keeping.
Context (J : bool → S → list E → Prop).
Context (Jsame : ∀ d s s' L, rs_same s s' → J d s L → J d s' L).
Context (Jstep : ∀ n d m σ reply p, in_flight n d m σ → receive d m (side d σ).1 = (Ok reply, p) →
  J d (side d σ).1.1 (received d σ) → J d p.1 (received d σ ++ (message_values m).*1)).
Definition sides_keep σ : Prop := ∀ d, J d (side d σ).1.1 (received d σ).

Lemma sides_keep_after n d m σ reply p : in_flight n d m σ →
  receive d m (side d σ).1 = (Ok reply, p) → sides_keep σ → sides_keep (after d m p σ).
Proof.
  intros Hm Hrun HJ d'. destruct (bool_side d d') as [-> | ->].
  - unfold received, after. rewrite side_set. simpl. rewrite fmap_app. by eapply Jstep.
  - rewrite received_after_other. unfold after. rewrite side_set_other. apply HJ.
Qed.

Lemma exchange_delivers fuel n d m σ : in_flight n d m σ → sides_keep σ → n < fuel →
  ∃ σ', exchange fuel d m σ = Some (Ok σ') ∧ delivered σ' ∧ sides_keep σ'.
Proof.
  revert n d m σ. induction fuel as [|fuel IH]; intros n d m σ Hm HJ Hn; [lia|].
  destruct (receive_wp (fixed d) (view d) key_ok (Hfix d) d (s0 d) Hsplit (Hvalid d) m (side d σ).1)
    as (reply & p & Hrun & Hf & Hw & Hne & Han); [apply Hm..|]. simpl. rewrite Hrun.
  pose proof (in_flight_after n d m σ (default [] reply) p Hm Han Hf Hw) as Hnext.
  pose proof (sides_keep_after n d m σ reply p Hm Hrun HJ) as HJ'.
  fold (after d m p σ). destruct reply as [out|]; simpl in *.
  - apply (IH (pred n)); [done|done|]. destruct n; [|lia]. destruct out as [|pt out]; [done|].
    pose proof (if_rank _ _ _ _ (if_flying _ _ _ _ Hnext) pt ltac:(left)). lia.
  - exists (after d m p σ). split; [done|]. split; [|done]. by apply in_flight_done in Hnext.
Qed.

Lemma initial_message_wp d σ : fixed d (side d σ).1.1 → rs_wrote (s0 d) (side d σ).1.1 →
  wp (store_op initial_message) (side d σ).1 (λ m p, fixed d p.1 ∧ rs_same (side d σ).1.1 p.1
    ∧ ∃ x, m = [MpFingerprint (Build_RangeFingerprint (Build_Range x x)
        (range_fingerprint (loc (view d) (Build_Range x x))))]).
Proof.
  intros Hf Hw. pose proof (wrote_inv _ _ Hw) as Hinv.
  apply store_op_wp. unfold initial_message. wp_step.
  eapply wp_mono; [apply wp_preserves; [by apply rs_get_first_ok|apply Hfix|exact Hf]|].
  intros x s1 [[Hs1 _] Hf1]. wp_step.
  eapply wp_mono; [apply wp_preserves; [apply rs_get_fingerprint_ok; [apply Hs1|by left]|apply Hfix|exact Hf1]|].
  intros fp s2 [[-> Hs2] Hf2]. wp_step. split; [exact Hf2|]. split; [by eapply rs_same_trans|].
  exists x. by rewrite (fv_view _ _ _ (Hfix d) s1 Hf1).
Qed.

Lemma opened_flying d σ x p : (∀ d', fixed d' (side d' σ).1.1) → (∀ d', rs_wrote (s0 d') (side d' σ).1.1) →
  (∀ d', received d' σ = []) → fixed d p.1 → rs_same (side d σ).1.1 p.1 →
  flying (pred enough_fuel) (negb d) [MpFingerprint (Build_RangeFingerprint (Build_Range x x)
      (range_fingerprint (loc (view d) (Build_Range x x))))] (set_side d (p, (side d σ).2) σ).
Proof.
  intros Hfx Hwr Hlog Hf Hs. split.
  - intros d'. destruct (bool_side d d') as [-> | ->]; [by rewrite side_set|by rewrite side_set_other].
  - intros d'. destruct (bool_side d d') as [-> | ->]; [|by rewrite side_set_other].
    rewrite side_set. eapply rs_wrote_trans; [apply Hwr|by apply rs_same_wrote].
  - intros pt ->%list_elem_of_singleton. by left.
  - intros pt ->%list_elem_of_singleton. simpl. by rewrite negb_involutive.
  - intros d' e. assert (received d' (set_side d (p, (side d σ).2) σ) = []) as ->; [|by intros ?%elem_of_nil].
    unfold received. destruct (bool_side d d') as [-> | ->];
      [rewrite side_set; apply Hlog|rewrite side_set_other; apply Hlog].
  - intros pt ->%list_elem_of_singleton. simpl. unfold enough_fuel.
    assert (∀ l : list E, length (loc l (Build_Range x x)) ≤ length l) as Hl.
    { intros l. unfold loc. induction l as [|e l IH]; simpl; [done|]. destruct (in_range _ e); simpl; lia. }
    pose proof (Hl (view true)). pose proof (Hl (view false)). lia.
Qed.

Lemma opened_in_flight d σ x p : (∀ d', fixed d' (side d' σ).1.1) → (∀ d', rs_wrote (s0 d') (side d' σ).1.1) →
  (∀ d', received d' σ = []) → fixed d p.1 → rs_same (side d σ).1.1 p.1 →
  in_flight (pred enough_fuel) (negb d) [MpFingerprint (Build_RangeFingerprint (Build_Range x x)
      (range_fingerprint (loc (view d) (Build_Range x x))))] (set_side d (p, (side d σ).2) σ).
Proof.
  intros. split; [by apply opened_flying|]. intros k. left. eexists _, _. split; [left|]. split; [done|].
  rewrite negb_involutive. split; [apply arc_all|done].
Qed.

Lemma reconcile_delivers fuel d σ : sides_ready σ → sides_keep σ → enough_fuel ≤ fuel →
  ∃ σ', reconcile fuel d σ = Some (Ok σ') ∧ delivered σ' ∧ sides_keep σ'.
Proof.
  intros Hready HJ Hfuel. unfold reconcile.
  destruct (initial_message_wp d σ) as (m & p & Hrun & Hf & Hs & x & ->); [apply Hready..|].
  rewrite Hrun. apply (exchange_delivers fuel (pred enough_fuel)).
  - apply opened_in_flight; [apply Hready..|done|done].
  - intros d'. unfold received. destruct (bool_side d d') as [-> | ->]; [|rewrite side_set_other; apply HJ].
    rewrite side_set. by eapply Jsame.
  - unfold enough_fuel in *. lia.
Qed.
End keeping.

(** Reconciliation ends and delivers.  Two sides whose reads are frozen
    exchange at most as many messages as there are entries on both, plus
    five, without error or panic; each side receives only entries of the
    other, and every entry of the other side that it does not already
    supersede at the same key. *)
Theorem reconciliation_delivers fuel d σ : sides_ready σ → enough_fuel ≤ fuel →
  ∃ σ', reconcile fuel d σ = Some (Ok σ') ∧ ∀ d',
    received d' σ' ⊆ view (negb d')
    ∧ ∀ e, e ∈ view (negb d') → e ∈ received d' σ' ∨ held (view d') e.
Proof.
  intros Hready Hfuel.
  destruct (reconcile_delivers (λ _ _ _, True)) with (fuel := fuel) (d := d) (σ := σ)
    as (σ' & Hrun & Hdel & _); [done..|].
  exists σ'. split; [done|]. intros d'. split; [by apply dl_sound|intros e; by apply dl_settled].
Qed.

(** *** Convergence

    Each side shows all it holds, takes in all the other shows, and among
    the entries of both a key is listed exactly when it is covered. *)
Definition shown e : Prop := ∃ d, e ∈ view d.
Record joinable : Prop := {
  jo_listed : ∀ q e, shown q → shown e → rs_listed q (re_key e) = rs_covered (re_key q) (re_key e);
  jo_listed_ok : ∀ q e, shown e → rs_listed q (re_key e) = true → key_ok (re_key q);
  jo_refl : ∀ e, shown e → rs_covered (re_key e) (re_key e) = true;
  jo_trans : ∀ e1 e2 e3, shown e1 → shown e2 → shown e3 → rs_covered (re_key e1) (re_key e2) = true →
    rs_covered (re_key e2) (re_key e3) = true → rs_covered (re_key e1) (re_key e3) = true;
  jo_antisym : ∀ e1 e2, shown e1 → shown e2 → rs_covered (re_key e1) (re_key e2) = true →
    rs_covered (re_key e2) (re_key e1) = true → re_key e1 = re_key e2;
  jo_value_trans : ∀ u v w : V, leb u v = true → leb v w = true → leb u w = true;
}.
Definition accepting : Prop := ∀ d s e c,
  rs_inv s → fixed d s → e ∈ view (negb d) → validate_cb d s e c = Accept.
Definition showing_all σ : Prop := ∀ d, prefix_clean (side d σ).1.1
  ∧ ∀ k e, key_ok k → rs_live (side d σ).1.1 k = Some e ↔ re_key e = k ∧ e ∈ view d.

Section joining.
Context (Hjoin : joinable) (Haccept : accepting) (Hshown_ok : ∀ e, shown e → key_ok (re_key e)).

Lemma dominates_refl e : shown e → dominates e e.
Proof.
  intros He. split; [by apply jo_refl|]. destruct (leb _ _) eqn:Hle; [done|].
  pose proof (leb_total_v _ _ Hle). congruence.
Qed.
Lemma dominates_trans e1 e2 e3 : shown e1 → shown e2 → shown e3 →
  dominates e1 e2 → dominates e2 e3 → dominates e1 e3.
Proof.
  intros He1 He2 He3 [Hc Hv] [Hc' Hv']. split; [by apply (jo_trans Hjoin e1 e2 e3)|].
  by eapply jo_value_trans.
Qed.

(** A side holds what it showed and what it has received. *)
Definition stock d s (L : list E) : Prop := holds key_ok (λ e, e ∈ view d ∨ e ∈ L) s.

Lemma in_flight_stock n d m σ reply p : in_flight n d m σ → receive d m (side d σ).1 = (Ok reply, p) →
  stock d (side d σ).1.1 (received d σ) → stock d p.1 (received d σ ++ (message_values m).*1).
Proof.
  intros Hm Hrun Hst. assert (∀ e, e ∈ view d ∨ e ∈ received d σ → shown e) as HP.
  { intros e [He|He]; [by exists d|]. exists (negb d). by apply (if_sound _ _ _ _ (if_flying _ _ _ _ Hm)). }
  destruct (receive_stocked shown key_ok Hshown_ok (jo_listed_ok Hjoin) (jo_listed Hjoin) dominates_refl dominates_trans d (s0 d) (Hvalid d)
    Hsplit (fixed d) (view d) (Hfix d) (λ e, e ∈ view d ∨ e ∈ received d σ) m (side d σ).1)
    as (reply' & p' & Hrun' & _ & _ & Hh); [done| |apply Hm..|done|apply Hm|].
  - intros e c Hin. assert (e ∈ view (negb d)) as He.
    { eapply honest_values; [apply (if_honest _ _ _ _ (if_flying _ _ _ _ Hm))|]. apply list_elem_of_fmap. by exists (e, c). }
    split; [by exists (negb d)|]. intros s Hf Hi. by apply Haccept.
  - rewrite Hrun in Hrun'. injection Hrun' as <- <-. eapply holds_iff; [|done].
    intros e. rewrite elem_of_app. tauto.
Qed.

(** A side that holds all that was shown. *)
Definition full : S → Prop := holds key_ok shown.

Lemma showing_stock d σ : sides_ready σ → showing_all σ → stock d (side d σ).1.1 (received d σ).
Proof.
  intros Hready Hall. destruct (Hready d) as (_ & Hw & ->), (Hall d) as [Hc Hl]. split; [apply Hw|done| |].
  - intros k x Hk Hx. left. by apply (Hl k).
  - intros e [He|He%elem_of_nil]; [|done]. assert (key_ok (re_key e)) by (apply Hshown_ok; by exists d).
    exists e. split; [done|]. split; [by apply Hl|]. apply dominates_refl. by exists d.
Qed.

(** What an exchange leaves on a side is full. *)
Lemma delivered_full d σ : delivered σ → stock d (side d σ).1.1 (received d σ) → full (side d σ).1.1.
Proof.
  intros Hdel [Hi Hc Hso Ht].
  assert (∀ e, e ∈ view d ∨ e ∈ received d σ → shown e) as HP.
  { intros e [He|He]; [by exists d|]. exists (negb d). by apply (dl_sound _ Hdel). }
  split; [done|done|intros k x Hk Hx; by eapply HP, Hso|].
  intros e [d' He]. destruct (bool_side d d') as [-> | ->]; [apply Ht; by left|].
  destruct (dl_settled _ Hdel d e He) as [Hr|(e' & He' & Hk & Hle)]; [apply Ht; by right|].
  destruct (Ht e' (or_introl He')) as (x & Hxk & Hx & Hxe).
  exists x. split; [done|]. split; [done|]. apply (dominates_trans x e' e); [by eapply HP, Hso|by exists d|by exists (negb d)|done|].
  split; [|done]. rewrite Hk. apply jo_refl; [done|by exists (negb d)].
Qed.

Lemma reconcile_converges fuel d σ : sides_ready σ → showing_all σ → enough_fuel ≤ fuel →
  ∃ σ', reconcile fuel d σ = Some (Ok σ') ∧ (∀ d', full (side d' σ').1.1)
    ∧ same_content key_ok (side true σ').1.1 (side false σ').1.1.
Proof.
  intros Hready Hall Hfuel. destruct (reconcile_delivers stock) with (fuel := fuel) (d := d) (σ := σ)
    as (σ' & Hrun & Hdel & Hst); [|apply in_flight_stock|done| |done|].
  - intros d' s s' L Hs. by apply holds_same.
  - intros d'. by apply showing_stock.
  - assert (∀ d', full (side d' σ').1.1) as Hfull by (intros d'; by apply delivered_full).
    exists σ'. split; [done|]. split; [done|]. apply (holds_same_content shown key_ok (jo_listed Hjoin) dominates_trans (jo_antisym Hjoin) shown); [done|apply Hfull..].
Qed.
End joining.

(** Reconciliation converges.  When each side shows all it holds and
    accepts what the other shows, the exchange ends with the same content on
    both sides: the same keys, each with entries of which neither is newer;
    every live entry was shown by one of the sides, and every entry that was
    shown is live or dominated by a live one. *)
Theorem reconciliation_converges fuel d σ : joinable → accepting →
  sides_ready σ → showing_all σ → enough_fuel ≤ fuel →
  ∃ σ', reconcile fuel d σ = Some (Ok σ')
    ∧ same_content key_ok (side true σ').1.1 (side false σ').1.1
    ∧ ∀ d', (∀ k x, key_ok k → rs_live (side d' σ').1.1 k = Some x → shown x)
      ∧ ∀ e, shown e → ∃ x, key_ok (re_key x) ∧ rs_live (side d' σ').1.1 (re_key x) = Some x
          ∧ dominates x e.
Proof.
  intros Hj Ha Hr Hs Hf. assert (∀ e, shown e → key_ok (re_key e)) as Hok.
  { intros e [d' He]. destruct (Hr d') as (Hfd & Hw & _). rewrite <- (fv_key_ok _ _ _ (Hfix d') _ _ Hfd (wrote_inv _ _ Hw)).
    apply rs_view_key_ok; [apply Hw|]. by rewrite (fv_view _ _ _ (Hfix d') _ Hfd). }
  destruct (reconcile_converges Hj Ha Hok fuel d σ Hr Hs Hf) as (σ' & Hrun & Hfull & Hsame).
  exists σ'. split; [done|]. split; [done|]. intros d'. split; apply (Hfull d').
Qed.
End both.
End converge.
