(* ===== verification/Info.v ===== *)
(** * In-memory information about an open replica

    Models the first part of [src/sync.rs]: insert events, the subscribers
    of a replica, and [ReplicaInfo].  What lies outside the process is the
    [World]: the channels events are sent to and the calls made to the
    rejection observer, in order.  A channel or an observer is known by a
    number (the source compares channels by address). *)
From S2P Require Import Prelude Keys Entry Ranger.

Inductive Event :=
| LocalInsert (namespace : NamespaceId) (entry : SignedEntry)
| RemoteInsert (namespace : NamespaceId) (entry : SignedEntry) (from : PeerIdBytes)
    (should_download : bool) (remote_content_status : ContentStatus).

Inductive InsertOrigin :=
| Local
| Sync (from : PeerIdBytes) (remote_content_status : ContentStatus).

Abbreviation ChannelId := N.
Abbreviation ObserverId := N.

Record Channel := { ch_closed : bool; ch_queue : list Event }.
Record World := {
  w_channels : gmap ChannelId Channel;
  w_observed : list (ObserverId * (NamespaceId * RejectId * PeerIdBytes));
}.

(** [tx.send(event).await.is_ok()]: a closed channel refuses the event. *)
Definition channel_send (tx : ChannelId) (ev : Event) (w : World) : bool * World :=
  match w_channels w !! tx with
  | Some ch =>
      if ch_closed ch then (false, w)
      else (true, {| w_channels := <[tx := {| ch_closed := false; ch_queue := ch_queue ch ++ [ev] |}]>
                       (w_channels w);
                     w_observed := w_observed w |})
  | None => (false, w)
  end.

(** ** [Subscribers] *)
Abbreviation Subscribers := (list ChannelId).

Definition subs_subscribe (sender : ChannelId) (s : Subscribers) : Subscribers := s ++ [sender].
Definition subs_unsubscribe (sender : ChannelId) (s : Subscribers) : Subscribers :=
  List.filter (λ c, negb (c =? sender)%N) s.
(** Send to everyone, keep those that took the event. *)
Fixpoint subs_send (ev : Event) (s : Subscribers) (w : World) : Subscribers * World :=
  match s with
  | [] => ([], w)
  | tx :: s' =>
      let '(ok, w1) := channel_send tx ev w in
      let '(s'', w2) := subs_send ev s' w1 in
      (if ok : bool then tx :: s'' else s'', w2)
  end.
Definition subs_len (s : Subscribers) : nat := length s.
Definition subs_send_with (ev : Event) (s : Subscribers) (w : World) : Subscribers * World :=
  match s with [] => (s, w) | _ => subs_send ev s w end.

(** ** [ReplicaInfo] *)
Inductive InsertError :=
| IeStore
| IeValidation (f : ValidationFailure)
| NewerEntryExists
| EntryIsEmpty
| IeReadOnly
| IeClosed.
#[export] Instance InsertError_eq_dec : EqDecision InsertError.
Proof. solve_decision. Defined.

Section info.
Context `{Crypto}.

Record ReplicaInfo := {
  i_capability : Capability;
  i_subscribers : Subscribers;
  i_content_status_cb : option (Hash → ContentStatus);
  i_capability_validator : option (SignedEntry → PeerIdBytes → ValidateOutcome);
  i_rejection_observer : option ObserverId;
  i_closed : bool;
}.

Definition ReplicaInfo_new (capability : Capability) : ReplicaInfo := {|
  i_capability := capability;
  i_subscribers := [];
  i_content_status_cb := None;
  i_capability_validator := None;
  i_rejection_observer := None;
  i_closed := false;
|}.

Definition set_subscribers (s : Subscribers) (i : ReplicaInfo) : ReplicaInfo := {|
  i_capability := i_capability i; i_subscribers := s;
  i_content_status_cb := i_content_status_cb i;
  i_capability_validator := i_capability_validator i;
  i_rejection_observer := i_rejection_observer i; i_closed := i_closed i |}.

Definition info_subscribe (sender : ChannelId) (i : ReplicaInfo) : ReplicaInfo :=
  set_subscribers (subs_subscribe sender (i_subscribers i)) i.
Definition info_unsubscribe (sender : ChannelId) (i : ReplicaInfo) : ReplicaInfo :=
  set_subscribers (subs_unsubscribe sender (i_subscribers i)) i.
Definition info_subscribers_count (i : ReplicaInfo) : nat := subs_len (i_subscribers i).

Definition set_content_status_callback (cb : Hash → ContentStatus) (i : ReplicaInfo)
    : bool * ReplicaInfo :=
  match i_content_status_cb i with
  | Some _ => (false, i)
  | None => (true, {| i_capability := i_capability i; i_subscribers := i_subscribers i;
      i_content_status_cb := Some cb; i_capability_validator := i_capability_validator i;
      i_rejection_observer := i_rejection_observer i; i_closed := i_closed i |})
  end.
Definition set_capability_validator (v : SignedEntry → PeerIdBytes → ValidateOutcome)
    (i : ReplicaInfo) : bool * ReplicaInfo :=
  match i_capability_validator i with
  | Some _ => (false, i)
  | None => (true, {| i_capability := i_capability i; i_subscribers := i_subscribers i;
      i_content_status_cb := i_content_status_cb i; i_capability_validator := Some v;
      i_rejection_observer := i_rejection_observer i; i_closed := i_closed i |})
  end.
Definition set_rejection_observer (o : ObserverId) (i : ReplicaInfo) : bool * ReplicaInfo :=
  match i_rejection_observer i with
  | Some _ => (false, i)
  | None => (true, {| i_capability := i_capability i; i_subscribers := i_subscribers i;
      i_content_status_cb := i_content_status_cb i;
      i_capability_validator := i_capability_validator i;
      i_rejection_observer := Some o; i_closed := i_closed i |})
  end.

Definition info_closed (i : ReplicaInfo) : bool := i_closed i.
Definition ensure_open (i : ReplicaInfo) : result InsertError unit :=
  if info_closed i then Err IeClosed else Ok tt.
Definition info_merge_capability (c : Capability) (i : ReplicaInfo)
    : result CapabilityError (bool * ReplicaInfo) :=
  '(changed, cap) ← Capability_merge (i_capability i) c;
  Ok (changed, {| i_capability := cap; i_subscribers := i_subscribers i;
      i_content_status_cb := i_content_status_cb i;
      i_capability_validator := i_capability_validator i;
      i_rejection_observer := i_rejection_observer i; i_closed := i_closed i |}).
End info.

(** ** Delivery *)
Definition chan_open (w : World) (c : ChannelId) : bool :=
  match w_channels w !! c with Some ch => negb (ch_closed ch) | None => false end.
Definition chan_queue (w : World) (c : ChannelId) : list Event :=
  match w_channels w !! c with Some ch => ch_queue ch | None => [] end.

Lemma channel_send_spec tx ev w :
  (channel_send tx ev w).1 = chan_open w tx
  ∧ (∀ c, chan_open (channel_send tx ev w).2 c = chan_open w c)
  ∧ (∀ c, chan_queue (channel_send tx ev w).2 c =
       chan_queue w c ++ (if decide (c = tx) then if chan_open w tx then [ev] else [] else []))
  ∧ w_observed (channel_send tx ev w).2 = w_observed w.
Proof.
  unfold channel_send, chan_open, chan_queue.
  destruct (w_channels w !! tx) as [[[] q]|] eqn:Htx; simpl;
    (split_and!; [done| | |done]); intros c; try done.
  all: try (destruct (decide (c = tx)); by rewrite app_nil_r).
  - destruct (decide (c = tx)) as [->|Hne].
    + by rewrite lookup_insert_eq, Htx.
    + by rewrite lookup_insert_ne.
  - destruct (decide (c = tx)) as [->|Hne].
    + by rewrite lookup_insert_eq, Htx.
    + by rewrite lookup_insert_ne, app_nil_r.
Qed.

(** An event reaches every subscriber that is still listening, once per
    subscription, after what its channel already held; subscribers whose
    channel is closed are forgotten, the others kept in order; no other
    channel and no other part of the world is touched. *)
Theorem subscribers_delivery (ev : Event) (s : Subscribers) (w : World) :
  let '(s', w') := subs_send ev s w in
  s' = List.filter (chan_open w) s
  ∧ (∀ c, chan_open w' c = chan_open w c)
  ∧ (∀ c, chan_queue w' c = chan_queue w c ++
       (if chan_open w c then repeat ev (count_occ N.eq_dec s c) else []))
  ∧ w_observed w' = w_observed w.
Proof.
  revert w. induction s as [|tx s IH]; intros w; simpl.
  { split_and!; try done. intros c. destruct (chan_open w c); by rewrite app_nil_r. }
  destruct (channel_send_spec tx ev w) as (Hok & Hopen & Hq & Hobs).
  destruct (channel_send tx ev w) as [ok w1]. simpl in *.
  specialize (IH w1). destruct (subs_send ev s w1) as [s'' w2].
  destruct IH as (-> & Ho2 & Hq2 & Hobs2). split_and!.
  - rewrite Hok. rewrite (List.filter_ext _ _ Hopen). by destruct (chan_open w tx).
  - intros c. by rewrite Ho2, Hopen.
  - intros c. rewrite Hq2, Hq, Hopen, <- app_assoc. f_equal.
    destruct (decide (c = tx)) as [->|Hne].
    + destruct (N.eq_dec tx tx) as [|]; [|done]. by destruct (chan_open w tx).
    + destruct (N.eq_dec tx c) as [|]; [congruence|]. done.
  - congruence.
Qed.
