(* ===== verification/Store.v ===== *)
(** * The store: tables, transactions and table operations

    Models [src/store/fs/tables.rs] and the [Store] of [src/store/fs.rs]:
    the seven tables, the write transaction that batches operations until it
    is too old or something asks for a snapshot, and every operation on the
    tables except the reconciliation interface (StoreInstance), queries
    (QueryIter) and migrations (Migrations).

    What a caller sees is [view]; which transaction is open, and what has
    been committed, is bookkeeping that [modify_spec] and [tables_spec] hide
    from every other proof. *)
From S2P Require Import Prelude Redb Keys Entry Heads Query Bounds Ranger Info.

(** ** Rows *)
(** (timestamp, namespace signature, author signature, length, hash) *)
Abbreviation RecordsValue := (N * arr64 * arr64 * N * arr32)%type.
Abbreviation LatestPerAuthorKey := (arr32 * arr32)%type.
Abbreviation LatestPerAuthorValue := (N * bytes)%type.
Abbreviation Nanos := N.

Definition PEERS_PER_DOC_CACHE_SIZE : nat := 5.
(** [MAX_COMMIT_DELAY], 500 ms in nanoseconds. *)
Definition MAX_COMMIT_DELAY : N := 500000000.

Inductive ImportNamespaceOutcome := ImInserted | ImUpgraded | ImNoChange.
Inductive OpenError := OpenNotFound | OpenOther.

Inductive StoreErr :=
| ErrReplicaNotClosed
| ErrDocumentNotCreated
| ErrBadCapability
| ErrCapability (e : CapabilityError)
| ErrPostcard
| ErrForeignBoundary
| ErrClosed.

Section tables.
Context `{Redb}.

Record Tables := {
  records : table RecordsId RecordsValue _;
  records_by_key : table RecordsByKeyId unit _;
  namespaces : table arr32 (N * arr32) _;
  latest_per_author : table LatestPerAuthorKey LatestPerAuthorValue _;
  namespace_peers : multimap arr32 (Nanos * PeerIdBytes) _ _;
  download_policy : table arr32 bytes _;
  authors : table arr32 arr32 _;
}.

Definition set_records r (t : Tables) : Tables :=
  {| records := r; records_by_key := records_by_key t; namespaces := namespaces t;
     latest_per_author := latest_per_author t; namespace_peers := namespace_peers t;
     download_policy := download_policy t; authors := authors t |}.
Definition set_records_by_key r (t : Tables) : Tables :=
  {| records := records t; records_by_key := r; namespaces := namespaces t;
     latest_per_author := latest_per_author t; namespace_peers := namespace_peers t;
     download_policy := download_policy t; authors := authors t |}.
Definition set_namespaces r (t : Tables) : Tables :=
  {| records := records t; records_by_key := records_by_key t; namespaces := r;
     latest_per_author := latest_per_author t; namespace_peers := namespace_peers t;
     download_policy := download_policy t; authors := authors t |}.
Definition set_latest_per_author r (t : Tables) : Tables :=
  {| records := records t; records_by_key := records_by_key t; namespaces := namespaces t;
     latest_per_author := r; namespace_peers := namespace_peers t;
     download_policy := download_policy t; authors := authors t |}.
Definition set_namespace_peers r (t : Tables) : Tables :=
  {| records := records t; records_by_key := records_by_key t; namespaces := namespaces t;
     latest_per_author := latest_per_author t; namespace_peers := r;
     download_policy := download_policy t; authors := authors t |}.
Definition set_download_policy_table r (t : Tables) : Tables :=
  {| records := records t; records_by_key := records_by_key t; namespaces := namespaces t;
     latest_per_author := latest_per_author t; namespace_peers := namespace_peers t;
     download_policy := r; authors := authors t |}.
Definition set_authors r (t : Tables) : Tables :=
  {| records := records t; records_by_key := records_by_key t; namespaces := namespaces t;
     latest_per_author := latest_per_author t; namespace_peers := namespace_peers t;
     download_policy := download_policy t; authors := r |}.

(** [Tables::new] on a fresh database. *)
Definition Tables_empty : Tables :=
  {| records := tbl_empty; records_by_key := tbl_empty; namespaces := tbl_empty;
     latest_per_author := tbl_empty; namespace_peers := mm_empty;
     download_policy := tbl_empty; authors := tbl_empty |}.

Record TransactionAndTables := {
  tx_tables : Tables;
  tx_since : N;
  tx_dirty : bool;
}.

Inductive CurrentTransaction :=
| CtNone
| CtRead (t : Tables)
| CtWrite (w : TransactionAndTables).
End tables.

Section store.
Context `{Redb, Crypto, Postcard DownloadPolicy}.

(** [st_clock] is the environment: the reading of the monotonic clock that
    the operations compare with the age of the transaction. *)
Record Store := {
  st_db : database Tables;
  st_transaction : CurrentTransaction;
  st_open_replicas : gset NamespaceId;
  st_pubkeys : gmap arr32 PublicKey;
  st_clock : N;
}.

Definition set_db d (s : Store) : Store :=
  {| st_db := d; st_transaction := st_transaction s; st_open_replicas := st_open_replicas s;
     st_pubkeys := st_pubkeys s; st_clock := st_clock s |}.
Definition set_transaction t (s : Store) : Store :=
  {| st_db := st_db s; st_transaction := t; st_open_replicas := st_open_replicas s;
     st_pubkeys := st_pubkeys s; st_clock := st_clock s |}.
Definition set_open_replicas o (s : Store) : Store :=
  {| st_db := st_db s; st_transaction := st_transaction s; st_open_replicas := o;
     st_pubkeys := st_pubkeys s; st_clock := st_clock s |}.
Definition set_pubkeys k (s : Store) : Store :=
  {| st_db := st_db s; st_transaction := st_transaction s;
     st_open_replicas := st_open_replicas s; st_pubkeys := k; st_clock := st_clock s |}.

Abbreviation SM := (ST Store StoreErr).

(** ** Transactions *)
Definition TransactionAndTables_new (t : Tables) (now : N) : TransactionAndTables :=
  {| tx_tables := t; tx_since := now; tx_dirty := false |}.
Definition mark_dirty (w : TransactionAndTables) : TransactionAndTables :=
  {| tx_tables := tx_tables w; tx_since := tx_since w; tx_dirty := true |}.
Definition set_tx_tables t (w : TransactionAndTables) : TransactionAndTables :=
  {| tx_tables := t; tx_since := tx_since w; tx_dirty := tx_dirty w |}.

(** [std::mem::take(&mut self.transaction)]. *)
Definition take_transaction : SM CurrentTransaction := λ s,
  (Ok (st_transaction s), set_transaction CtNone s).

Definition finish_write (w : TransactionAndTables) : SM unit :=
  if negb (tx_dirty w) then mret tt
  else st_modify (λ s, set_db (db_commit (st_db s) (tx_tables w)) s).

Definition flush : SM unit :=
  t ← take_transaction;
  match t with
  | CtWrite w => finish_write w
  | _ => mret tt
  end.

Definition begin_write : SM TransactionAndTables :=
  st_gets (λ s, TransactionAndTables_new (db_begin_write (st_db s)) (st_clock s)).
Definition begin_read : SM Tables := st_gets (λ s, db_begin_read (st_db s)).

Definition current_write_transaction : SM TransactionAndTables :=
  now ← st_gets st_clock;
  t ← take_transaction;
  match t with
  | CtWrite w =>
      if (now - tx_since w <=? MAX_COMMIT_DELAY)%N then mret w
      else _ ← finish_write w; begin_write
  | _ => begin_write
  end.

Definition snapshot : SM Tables :=
  t ← take_transaction;
  tables ← match t with
           | CtNone => begin_read
           | CtWrite w => _ ← finish_write w; begin_read
           | CtRead tables => mret tables
           end;
  _ ← st_modify (set_transaction (CtRead tables));
  mret tables.

Definition snapshot_owned : SM Tables :=
  _ ← flush;
  t ← st_gets st_transaction;
  match t with
  | CtNone => begin_read
  | _ => st_panic
  end.

Definition tables : SM Tables :=
  w ← current_write_transaction;
  _ ← st_modify (set_transaction (CtWrite w));
  mret (tx_tables w).

(** [with_tables_mut]: the writes made before an error stay. *)
Definition with_tables_mut {A} (w : TransactionAndTables) (f : ST Tables StoreErr A) : SM A :=
  λ s, let '(r, t') := f (tx_tables w) in
       (r, set_transaction (CtWrite (set_tx_tables t' (mark_dirty w))) s).

Definition modify {A} (f : ST Tables StoreErr A) : SM A :=
  w ← current_write_transaction;
  _ ← st_modify (set_transaction (CtWrite w));
  with_tables_mut w f.

(** ** Records *)
Definition into_entry (key : RecordsId) (value : RecordsValue) : SignedEntry :=
  let '(namespace, author, k) := key in
  let '(timestamp, namespace_sig, author_sig, len, hash) := value in
  {| se_signature := {| author_signature := author_sig; namespace_signature := namespace_sig |};
     se_entry := {| e_id := RecordIdentifier_new namespace author k;
                    e_record := {| r_len := len; r_hash := hash; r_timestamp := timestamp |} |} |}.

(** The row an entry is stored as. *)
Definition record_row (e : SignedEntry) : RecordsValue :=
  (se_timestamp e, namespace_signature (se_signature e), author_signature (se_signature e),
   se_content_len e, se_content_hash e).

Definition get_exact_in (t : table RecordsId RecordsValue _) (ns : NamespaceId) (a : AuthorId)
    (key : bytes) (include_empty : bool) : option SignedEntry :=
  let id := (ns, a, key) in
  entry ← (into_entry id <$> tbl_get t id);
  if include_empty || negb (se_is_empty entry) then Some entry else None.

Definition get_exact (ns : NamespaceId) (a : AuthorId) (key : bytes) (include_empty : bool)
    : SM (option SignedEntry) :=
  t ← tables; mret (get_exact_in (records t) ns a key include_empty).

Definition retract_entry (ns : NamespaceId) (a : AuthorId) (key : bytes) (up_to_timestamp : N)
    : SM bool :=
  modify (
    t ← st_get;
    match tbl_get (records t) (ns, a, key) with
    | None => mret false
    | Some value =>
        let '(timestamp, _, _, _, _) := value in
        if (up_to_timestamp <? timestamp)%N then mret false
        else
          _ ← st_modify (λ t, set_records (tbl_remove (records t) (ns, a, key)) t);
          _ ← st_modify (λ t,
            set_records_by_key (tbl_remove (records_by_key t) (ns, key, a)) t);
          mret true
    end).

Definition content_hashes : SM (list Hash) :=
  t ← snapshot_owned;
  mret ((λ p : RecordsId * RecordsValue, se_content_hash (into_entry p.1 p.2))
    <$> tbl_iter (records t)).

(** ** Heads *)
Definition LatestIterator_new (t : table LatestPerAuthorKey LatestPerAuthorValue _)
    (ns : NamespaceId) : list (AuthorId * N * bytes) :=
  (λ p : LatestPerAuthorKey * LatestPerAuthorValue, (p.1.2, p.2.1, p.2.2))
    <$> tbl_range t (Included (ns, zero32), Included (ns, ff32)).

Definition get_latest_for_each_author (ns : NamespaceId) : SM (list (AuthorId * N * bytes)) :=
  t ← tables; mret (LatestIterator_new (latest_per_author t) ns).

Definition has_news_for_us (ns : NamespaceId) (heads : AuthorHeads) : SM (option nat) :=
  latest ← get_latest_for_each_author ns;
  let our_heads : AuthorHeads :=
    foldl (λ h (e : AuthorId * N * bytes), heads_insert e.1.1 e.1.2 h) ∅ latest in
  mret (has_news_for heads our_heads).

(** ** Namespaces *)
Definition parse_capability (v : N * arr32) : option Capability := Capability_from_raw v.1 v.2.

Definition load_replica_info (ns : NamespaceId) : ST Store OpenError ReplicaInfo := λ s,
  match tables s with
  | (Ok t, s1) =>
      match tbl_get (namespaces t) ns with
      | Some db_value =>
          match parse_capability db_value with
          | Some namespace =>
              let info := ReplicaInfo_new namespace in
              (Ok info, set_open_replicas
                ({[Capability_id (i_capability info)]} ∪ st_open_replicas s1) s1)
          | None => (Err OpenOther, s1)
          end
      | None => (Err OpenNotFound, s1)
      end
  | (Err _, s1) => (Err OpenOther, s1)
  | (Panic, s1) => (Panic, s1)
  end.

Definition close_replica (ns : NamespaceId) : SM unit :=
  st_modify (λ s, set_open_replicas (st_open_replicas s ∖ {[ns]}) s).

Definition list_namespaces : SM (list (option (NamespaceId * CapabilityKind))) :=
  t ← snapshot;
  mret ((λ p : arr32 * (N * arr32),
    c ← parse_capability p.2; Some (Capability_id c, Capability_kind c))
    <$> tbl_iter (namespaces t)).

Definition import_namespace (capability : Capability) : SM ImportNamespaceOutcome :=
  modify (
    t ← st_get;
    res ← match tbl_get (namespaces t) (Capability_id capability) with
          | Some existing =>
              match parse_capability existing with
              | None => st_err ErrBadCapability
              | Some existing =>
                  m ← st_lift (map_err ErrCapability (Capability_merge existing capability));
                  mret (m.2, if m.1 : bool then ImUpgraded else ImNoChange)
              end
          | None => mret (capability, ImInserted)
          end;
    let '(capability, outcome) := res in
    _ ← st_modify (λ t,
      set_namespaces (tbl_insert (namespaces t) (Capability_id capability)
        (Capability_raw capability)) t);
    mret outcome).

Definition remove_replica (ns : NamespaceId) : SM unit :=
  open ← st_gets st_open_replicas;
  if decide (ns ∈ open) then st_err ErrReplicaNotClosed
  else modify (
    _ ← st_modify (λ t, set_records
      (tbl_retain_in (records t) (RecordsBounds_namespace ns) (λ _ _, false)) t);
    _ ← st_modify (λ t, set_records_by_key
      (tbl_retain_in (records_by_key t) (ByKeyBounds_namespace ns) (λ _ _, false)) t);
    _ ← st_modify (λ t, set_namespaces (tbl_remove (namespaces t) ns) t);
    _ ← st_modify (λ t, set_namespace_peers (mm_remove_all (namespace_peers t) ns) t);
    st_modify (λ t, set_download_policy_table (tbl_remove (download_policy t) ns) t)).

(** ** Authors *)
Definition get_author (id : AuthorId) : SM (option Author) :=
  t ← tables; mret (Author_from_bytes <$> tbl_get (authors t) id).
Definition import_author (a : Author) : SM unit :=
  modify (st_modify (λ t,
    set_authors (tbl_insert (authors t) (Author_id a) (Author_to_bytes a)) t)).
Definition delete_author (id : AuthorId) : SM unit :=
  modify (st_modify (λ t, set_authors (tbl_remove (authors t) id) t)).
Definition list_authors : SM (list Author) :=
  t ← snapshot; mret ((λ p : arr32 * arr32, Author_from_bytes p.2) <$> tbl_iter (authors t)).

(** ** Peers *)
Definition peers_insert ns nanos peer (t : Tables) : Tables :=
  set_namespace_peers (mm_insert (namespace_peers t) ns (nanos, peer)) t.
Definition peers_remove ns nanos peer (t : Tables) : Tables :=
  set_namespace_peers (mm_remove (namespace_peers t) ns (nanos, peer)) t.

(** The loop over the remaining peers: their number and the first earlier
    time of [peer]. *)
Definition scan_peers (peer : PeerIdBytes) (l : list (Nanos * PeerIdBytes)) : nat * option Nanos :=
  foldl (λ acc r, (S acc.1,
    match acc.2 with
    | None => if eqb r.2 peer then Some r.1 else None
    | Some n => Some n
    end)) (1, None) l.

Definition register_useful_peer (nanos : Nanos) (ns : NamespaceId) (peer : PeerIdBytes) : SM unit :=
  modify (
    t ← st_get;
    _ ← st_ensure (match tbl_get (namespaces t) ns with Some _ => true | None => false end)
          ErrDocumentNotCreated;
    match mm_get (namespace_peers t) ns with
    | [] => st_modify (peers_insert ns nanos peer)
    | (oldest_nanos, oldest_peer) :: rest =>
        if eqb oldest_peer peer then
          _ ← st_modify (peers_remove ns oldest_nanos oldest_peer);
          st_modify (peers_insert ns nanos peer)
        else
          let '(len, prev_peer_nanos) := scan_peers peer rest in
          match prev_peer_nanos with
          | Some prev_nanos =>
              _ ← st_modify (peers_remove ns prev_nanos peer);
              st_modify (peers_insert ns nanos peer)
          | None =>
              _ ← st_modify (peers_insert ns nanos peer);
              let len := S len in
              if PEERS_PER_DOC_CACHE_SIZE <? len
              then st_modify (peers_remove ns oldest_nanos oldest_peer)
              else mret tt
          end
    end).

Definition get_sync_peers (ns : NamespaceId) : SM (option (list PeerIdBytes)) :=
  t ← tables;
  let peers := snd <$> reverse (mm_get (namespace_peers t) ns) in
  mret (match peers with [] => None | _ => Some peers end).

(** ** Download policies *)
Definition set_download_policy (ns : NamespaceId) (policy : DownloadPolicy) : SM unit :=
  modify (
    t ← st_get;
    _ ← st_ensure (match tbl_get (namespaces t) ns with Some _ => true | None => false end)
          ErrDocumentNotCreated;
    let value := pc_to_stdvec policy in
    st_modify (λ t, set_download_policy_table (tbl_insert (download_policy t) ns value) t)).

Definition get_download_policy (ns : NamespaceId) : SM DownloadPolicy :=
  t ← tables;
  match tbl_get (download_policy t) ns with
  | None => mret DownloadPolicy_default
  | Some value => st_lift (result_of_option ErrPostcard (pc_from_bytes value))
  end.

(** ** Keys *)
Definition store_public_key (b : arr32) : SM (option PublicKey) := λ s,
  let '(r, k) := mem_public_key (st_pubkeys s) b in (Ok r, set_pubkeys k s).

(** ** What a caller sees *)
Definition committed (s : Store) : Tables := db_begin_read (st_db s).
Definition view (s : Store) : Tables :=
  match st_transaction s with
  | CtNone => committed s
  | CtRead t => t
  | CtWrite w => tx_tables w
  end.

(** A read transaction shows the committed state, and a write transaction
    through which nothing was written too. *)
Definition store_wf (s : Store) : Prop :=
  match st_transaction s with
  | CtNone => True
  | CtRead t => t = committed s
  | CtWrite w => tx_dirty w = false → tx_tables w = committed s
  end.

Definition store_same_rest (s s' : Store) : Prop :=
  st_open_replicas s' = st_open_replicas s ∧ st_pubkeys s' = st_pubkeys s
  ∧ st_clock s' = st_clock s.
End store.

(** ** Transactions are transparent *)
Section store_facts.
Context `{RedbOk, Crypto, Postcard DownloadPolicy}.
Implicit Types s : Store.

(** What every operation does to the bookkeeping: the state stays
    well-formed, the rest of the store is untouched, and the database shows
    what it showed before or what was visible before, never something in
    between. *)
Record bookkeeping (s s' : Store) : Prop := {
  bk_wf : store_wf s';
  bk_rest : store_same_rest s s';
  bk_committed : committed s' = committed s ∨ committed s' = view s;
}.

Lemma store_same_rest_refl s : store_same_rest s s.
Proof. done. Qed.

Lemma finish_write_spec s w :
  ∃ s', finish_write w s = (Ok tt, s') ∧ st_transaction s' = st_transaction s
    ∧ store_same_rest s s'
    ∧ committed s' = if tx_dirty w then tx_tables w else committed s.
Proof.
  unfold finish_write. destruct (tx_dirty w); simpl; eexists; (split; [done|]).
  - split_and!; [done|done|]. unfold committed. simpl. apply db_read_commit.
  - done.
Qed.

Lemma current_write_transaction_spec s : store_wf s →
  ∃ w s', current_write_transaction s = (Ok w, s')
    ∧ tx_tables w = view s
    ∧ (tx_dirty w = false → view s = committed s')
    ∧ store_same_rest s s' ∧ (committed s' = committed s ∨ committed s' = view s).
Proof.
  intros Hwf. unfold current_write_transaction, take_transaction, begin_write, view, committed in *.
  unfold store_wf in Hwf. st_red. destruct (st_transaction s) as [|t|w] eqn:Ht; st_red.
  - eexists _, _. split; [done|]. simpl. rewrite db_write_read by apply _.
    split_and!; [done|done|done|by left].
  - eexists _, _. split; [done|]. simpl. rewrite db_write_read by apply _. rewrite Hwf.
    split_and!; [done|done|done|by left].
  - destruct (N.leb _ _).
    { eexists _, _. split; [done|]. simpl. split_and!; [done|done|done|by left]. }
    destruct (finish_write_spec (set_transaction CtNone s) w) as (s1 & Hf & Ht1 & Hr1 & Hc1).
    st_red. rewrite Hf. st_red. eexists _, _. split; [done|]. simpl.
    rewrite db_write_read by apply _. unfold committed in Hc1. rewrite Hc1. simpl in *.
    destruct (tx_dirty w); [split_and!; [done|done|done|by right]|].
    rewrite Hwf by done. split_and!; [done|done|done|by left].
Qed.

Lemma tables_spec s : store_wf s →
  wp tables s (λ t s', t = view s ∧ view s' = view s ∧ bookkeeping s s').
Proof.
  intros Hwf. destruct (current_write_transaction_spec s Hwf) as (w & s1 & Hw & Hv & Hd & Hr & Hc).
  exists (tx_tables w), (set_transaction (CtWrite w) s1).
  split; [unfold tables, mbind, ST_bind; by rewrite Hw|].
  split_and!; [done|done|]. split; [|done|done]. unfold store_wf. simpl. intros Hnd.
  rewrite Hv. by apply Hd.
Qed.

Lemma modify_spec {A} (f : ST Tables StoreErr A) s : store_wf s →
  ∃ s', modify f s = ((f (view s)).1, s') ∧ view s' = (f (view s)).2 ∧ bookkeeping s s'.
Proof.
  intros Hwf. destruct (current_write_transaction_spec s Hwf) as (w & s1 & Hw & Hv & Hd & Hr & Hc).
  unfold modify, mbind, ST_bind. rewrite Hw. st_red. unfold with_tables_mut. rewrite Hv.
  destruct (f (view s)) as [r t'] eqn:Hf. eexists. split; [done|]. simpl.
  split; [done|]. by split.
Qed.

Lemma flush_spec s : store_wf s →
  ∃ s', flush s = (Ok tt, s') ∧ st_transaction s' = CtNone ∧ view s' = view s
    ∧ committed s' = view s ∧ bookkeeping s s'.
Proof.
  intros Hwf. unfold flush, take_transaction. st_red.
  unfold store_wf in Hwf. destruct (st_transaction s) as [|t|w] eqn:Ht.
  - eexists. split; [done|]. assert (committed (set_transaction CtNone s) = view s) as Hc.
    { unfold view. by rewrite Ht. }
    split_and!; [done|exact Hc|exact Hc|]. split; [done|done|by right].
  - eexists. split; [done|]. assert (committed (set_transaction CtNone s) = view s) as Hc.
    { unfold view. rewrite Ht. by rewrite Hwf. }
    split_and!; [done|exact Hc|exact Hc|]. split; [done|done|by right].
  - destruct (finish_write_spec (set_transaction CtNone s) w) as (s1 & Hf & Ht1 & Hr1 & Hc1).
    exists s1. split; [done|]. simpl in Ht1.
    assert (committed s1 = view s) as Hc.
    { rewrite Hc1. unfold view. rewrite Ht. destruct (tx_dirty w); [done|]. by rewrite Hwf. }
    split_and!; [done| |exact Hc|].
    + unfold view at 1. by rewrite Ht1.
    + split; [unfold store_wf; by rewrite Ht1|done|by right].
Qed.

Lemma snapshot_owned_spec s : store_wf s →
  ∃ s', snapshot_owned s = (Ok (view s), s') ∧ view s' = view s
    ∧ committed s' = view s ∧ bookkeeping s s'.
Proof.
  intros Hwf. destruct (flush_spec s Hwf) as (s1 & Hf & Ht & Hv & Hc & Hb).
  exists s1. split; [|done]. unfold snapshot_owned. st_red. rewrite Hf. st_red.
  rewrite Ht. unfold begin_read. st_red. unfold committed in Hc. by rewrite Hc.
Qed.

Lemma snapshot_spec s : store_wf s →
  ∃ s', snapshot s = (Ok (view s), s') ∧ view s' = view s
    ∧ committed s' = view s ∧ bookkeeping s s'.
Proof.
  intros Hwf. pose proof Hwf as Hwf'. unfold store_wf in Hwf.
  unfold snapshot, take_transaction, begin_read. st_red.
  destruct (st_transaction s) as [|t|w] eqn:Ht.
  - st_red. eexists. split; [unfold view; by rewrite Ht|]. unfold view, committed. rewrite Ht. simpl.
    split_and!; [done|done|]. split; [done|done|by left].
  - st_red. eexists. split; [unfold view; by rewrite Ht|]. unfold view. rewrite Ht. simpl.
    split_and!; [done|done|]. split; [done|done|by left].
  - destruct (finish_write_spec (set_transaction CtNone s) w) as (s1 & Hf & Ht1 & Hr1 & Hc1).
    st_red. rewrite Hf. st_red.
    assert (db_begin_read (st_db s1) = view s) as Hc.
    { unfold committed in Hc1. rewrite Hc1. unfold view. rewrite Ht.
      destruct (tx_dirty w); [done|]. by rewrite Hwf. }
    eexists. split; [by rewrite Hc|]. unfold committed, view at 1. simpl.
    split_and!; [done|done|]. split; [done|done|]. right. done.
Qed.

(** C24: batching is invisible and loses nothing.  Whatever transaction is
    open and however old it is, a write acts on exactly what callers see and
    what they see next is its result, its error included; the database on
    disk shows either what it showed or what was visible before the write,
    never part of one; and a flush or a snapshot makes everything visible
    durable without changing it. *)
Theorem transactions_transparent {A} (f : ST Tables StoreErr A) s : store_wf s →
  (∃ s', modify f s = ((f (view s)).1, s') ∧ view s' = (f (view s)).2 ∧ store_wf s'
     ∧ (committed s' = committed s ∨ committed s' = view s))
  ∧ (∃ s', flush s = (Ok tt, s') ∧ view s' = view s ∧ committed s' = view s ∧ store_wf s')
  ∧ (∃ s', snapshot s = (Ok (view s), s') ∧ view s' = view s ∧ committed s' = view s ∧ store_wf s')
  ∧ (∃ s', snapshot_owned s = (Ok (view s), s') ∧ view s' = view s ∧ committed s' = view s
       ∧ store_wf s').
Proof.
  intros Hwf. split_and!.
  - destruct (modify_spec f s Hwf) as (s' & ? & ? & []). by exists s'.
  - destruct (flush_spec s Hwf) as (s' & ? & ? & ? & ? & []). by exists s'.
  - destruct (snapshot_spec s Hwf) as (s' & ? & ? & ? & []). by exists s'.
  - destruct (snapshot_owned_spec s Hwf) as (s' & ? & ? & ? & []). by exists s'.
Qed.

(** [modify] with the run of its closure already known. *)
Lemma modify_run {A} (f : ST Tables StoreErr A) s r t : store_wf s → f (view s) = (r, t) →
  ∃ s', modify f s = (r, s') ∧ view s' = t ∧ bookkeeping s s'.
Proof.
  intros Hwf Hf. destruct (modify_spec f s Hwf) as (s' & Hm & Hv & Hb).
  rewrite Hf in Hm, Hv. by exists s'.
Qed.
End store_facts.

(** Run the [modify] of the goal from the well-formed state [s]: the new
    state [s'], what is visible in it, and the bookkeeping. *)
Tactic Notation "run_modify" ident(s) "with" hyp(Hwf) "as" ident(s') ident(Hv) ident(Hb) :=
  match goal with
  | |- context [modify ?f s] =>
      let Hm := fresh "Hm" in
      destruct (modify_spec f s Hwf) as (s' & Hm & Hv & Hb); rewrite Hm; clear Hm;
      st_red in Hv; st_red
  end.

(** ** Operations on the tables *)
Section ops.
Context `{RedbOk, Crypto, Postcard DownloadPolicy}.
Implicit Types (s : Store) (t : Tables).

Lemma by_key_namespace_in (ns : NamespaceId) (id : RecordsByKeyId) :
  in_bounds (ByKeyBounds_namespace ns) id = eqb id.1.1 ns.
Proof.
  destruct id as [[n k] a]. simpl.
  pose proof (by_key_bounds_in ns n a KfAny k) as Hb. simpl in Hb.
  destruct (eqb n ns) eqn:Hn.
  - apply eqb_eq in Hn as ->. by apply Hb.
  - destruct Hb as [Hb _]. destruct (in_bounds _ _); [|done]. destruct (Hb eq_refl) as [-> _].
    by rewrite eqb_refl in Hn.
Qed.

(** The tables without the records, index rows, capability, peers and policy
    of a namespace. *)
Record without_replica (ns : NamespaceId) (t t' : Tables) : Prop := {
  wr_records : ∀ id, tbl_get (records t') id =
    if eqb id.1.1 ns then None else tbl_get (records t) id;
  wr_by_key : ∀ id, tbl_get (records_by_key t') id =
    if eqb id.1.1 ns then None else tbl_get (records_by_key t) id;
  wr_namespaces : ∀ n, tbl_get (namespaces t') n =
    if eqb ns n then None else tbl_get (namespaces t) n;
  wr_peers : ∀ n p, p ∈ mm_get (namespace_peers t') n ↔
    n ≠ ns ∧ p ∈ mm_get (namespace_peers t) n;
  wr_policy : ∀ n, tbl_get (download_policy t') n =
    if eqb ns n then None else tbl_get (download_policy t) n;
  wr_authors : authors t' = authors t;
  wr_latest : latest_per_author t' = latest_per_author t;
}.

(** A replica is removed only while it is closed; then its records,
    index rows, capability, peers and download policy are gone, and nothing
    of any other namespace is.  The author heads of the namespace stay
    behind. *)
Theorem remove_replica_spec s (ns : NamespaceId) : store_wf s →
  if decide (ns ∈ st_open_replicas s) then remove_replica ns s = (Err ErrReplicaNotClosed, s)
  else ∃ s', remove_replica ns s = (Ok tt, s') ∧ without_replica ns (view s) (view s')
         ∧ bookkeeping s s'.
Proof.
  intros Hwf. unfold remove_replica. rewrite st_gets_bind.
  destruct (decide (ns ∈ st_open_replicas s)) as [|_]; [done|].
  match goal with |- context [modify ?f s] =>
    destruct (modify_spec f s Hwf) as (s' & Hm & Hv & Hb); rewrite Hm end.
  rewrite !st_modify_bind in Hv. rewrite !st_modify_bind.
  exists s'. split; [done|]. split; [|done]. rewrite Hv.
  split; simpl; try done.
  - intros id. rewrite tbl_get_retain_in, namespace_bounds_in by apply _.
    destruct (tbl_get (records (view s)) id); simpl; by destruct (eqb id.1.1 ns).
  - intros id. rewrite tbl_get_retain_in, by_key_namespace_in by apply _.
    destruct (tbl_get (records_by_key (view s)) id); simpl; by destruct (eqb id.1.1 ns).
  - intros n. by rewrite tbl_get_remove by apply _.
  - intros n p. apply mm_get_remove_all; apply _.
  - intros n. by rewrite tbl_get_remove by apply _.
Qed.

(** Retraction removes exactly the named record, and only when it is not
    newer than the bound: the record and its index row disappear together,
    every other record, and the author heads, are untouched; otherwise
    nothing changes. *)
Theorem retract_entry_spec s ns a key bound : store_wf s →
  ∃ b s', retract_entry ns a key bound s = (Ok b, s')
    ∧ (b = true ↔ ∃ v, tbl_get (records (view s)) (ns, a, key) = Some v
                       ∧ (v.1.1.1.1 <= bound)%N)
    ∧ (∀ id, tbl_get (records (view s')) id =
         if b && eqb (ns, a, key) id then None else tbl_get (records (view s)) id)
    ∧ (∀ id, tbl_get (records_by_key (view s')) id =
         if b && eqb (ns, key, a) id then None else tbl_get (records_by_key (view s)) id)
    ∧ latest_per_author (view s') = latest_per_author (view s)
    ∧ bookkeeping s s'.
Proof.
  intros Hwf. unfold retract_entry. run_modify s with Hwf as s' Hv Hb. revert Hv.
  destruct (tbl_get (records (view s)) (ns, a, key)) as [[[[[ts nsig] asig] len] hash]|] eqn:Hg.
  - destruct (N.ltb_spec bound ts) as [Hlt|Hge].
    + intros Hv. exists false, s'. rewrite Hv. split_and!; [done| |done|done|done|done].
      split; [done|]. intros (v & [= <-] & Hle). simpl in Hle. lia.
    + intros Hv. exists true, s'. rewrite Hv. split_and!; [done|split; [eauto|done]| | |done|done]; intros id; simpl;
        by rewrite tbl_get_remove by apply _.
  - intros Hv. exists false, s'. rewrite Hv. split_and!; [done| |done|done|done|done].
    split; [done|]. by intros (v & ? & _).
Qed.

(** ** Namespaces *)

(** Every stored capability parses and is stored under its own id. *)
Definition namespaces_wf t : Prop :=
  ∀ id v, tbl_get (namespaces t) id = Some v →
    ∃ c, parse_capability v = Some c ∧ Capability_id c = id.

(** The stored capability of a namespace. *)
Definition stored_capability t (id : NamespaceId) : option Capability :=
  tbl_get (namespaces t) id ≫= parse_capability.

Definition import_outcome (old : option Capability) (new : Capability) : ImportNamespaceOutcome :=
  match old with
  | None => ImInserted
  | Some c => if cap_rank c <? cap_rank new then ImUpgraded else ImNoChange
  end.

Lemma merge_same_id (c d : Capability) : Capability_id c = Capability_id d →
  ∃ m, Capability_merge c d = Ok (cap_rank c <? cap_rank d, m)
    ∧ Capability_id m = Capability_id d ∧ cap_rank m = max (cap_rank c) (cap_rank d).
Proof.
  intros Hid. pose proof (Capability_merge_cases c d) as Hm.
  destruct (Capability_merge c d) as [[b m]|[]|]; [|by rewrite Hid in Hm|done].
  destruct Hm as (_ & Hm & Hr & -> & _). exists m. split; [done|]. split; [congruence|done].
Qed.

Lemma stored_capability_insert t c id : CryptoOk →
  stored_capability (set_namespaces (tbl_insert (namespaces t) (Capability_id c) (Capability_raw c)) t) id
    = if eqb (Capability_id c) id then Some c else stored_capability t id.
Proof.
  intros Hc. unfold stored_capability. simpl. rewrite tbl_get_insert by apply _.
  destruct (eqb (Capability_id c) id); [|done]. simpl. unfold parse_capability.
  apply Capability_from_to_raw.
Qed.

Lemma namespaces_wf_insert t c : CryptoOk → namespaces_wf t →
  namespaces_wf (set_namespaces (tbl_insert (namespaces t) (Capability_id c) (Capability_raw c)) t).
Proof.
  intros Hc Hwf id v. simpl. rewrite tbl_get_insert by apply _.
  destruct (eqb (Capability_id c) id) eqn:Hid; [|apply Hwf].
  apply eqb_eq in Hid as <-. intros [= <-]. exists c. split; [|done].
  apply Capability_from_to_raw.
Qed.

(** C39: importing a capability never loses one.  With every stored
    capability under its own id, an import always succeeds; the namespace
    ends with the stronger of the stored and the imported capability, the
    outcome says which of the three cases it was, no other namespace
    changes, and the table stays well-formed. *)
Theorem import_namespace_spec s (c : Capability) : CryptoOk → store_wf s →
  namespaces_wf (view s) →
  ∃ s' c', import_namespace c s =
      (Ok (import_outcome (stored_capability (view s) (Capability_id c)) c), s')
    ∧ stored_capability (view s') (Capability_id c) = Some c'
    ∧ cap_rank c' = max (cap_rank c)
        (default 0 (cap_rank <$> stored_capability (view s) (Capability_id c)))
    ∧ (∀ id, id ≠ Capability_id c → stored_capability (view s') id = stored_capability (view s) id)
    ∧ namespaces_wf (view s') ∧ bookkeeping s s'.
Proof.
  intros Hc Hwf Hns. unfold import_namespace. run_modify s with Hwf as s' Hv Hb. revert Hv.
  assert (∀ c' id, Capability_id c' = Capability_id c → id ≠ Capability_id c →
    eqb (Capability_id c') id = false) as Hne.
  { intros c' id Hid Hne. destruct (eqb (Capability_id c') id) eqn:He; [|done].
    apply eqb_eq in He. congruence. }
  unfold stored_capability at 1 3.
  destruct (tbl_get (namespaces (view s)) (Capability_id c)) as [v|] eqn:Hg.
  - destruct (Hns _ _ Hg) as (old & Hp & Hid). simpl. rewrite Hp.
    destruct (merge_same_id old c Hid) as (m & -> & Hmid & Hmr). simpl. intros Hv.
    exists s', m. rewrite Hv. split_and!.
    + by destruct (cap_rank old <? cap_rank c).
    + by rewrite stored_capability_insert, Hmid, eqb_refl.
    + rewrite Hmr. lia.
    + intros id Hne'. rewrite stored_capability_insert by done. by rewrite (Hne m).
    + by apply namespaces_wf_insert.
    + done.
  - simpl. intros Hv. exists s', c. rewrite Hv. split_and!.
    + done.
    + by rewrite stored_capability_insert, eqb_refl.
    + lia.
    + intros id Hne'. rewrite stored_capability_insert by done. by rewrite (Hne c).
    + by apply namespaces_wf_insert.
    + done.
Qed.

(** ** Useful peers *)

(** The peers of a document: at most five, each once. *)
Definition peers_ok (l : list (Nanos * PeerIdBytes)) : Prop :=
  NoDup (snd <$> l) ∧ length l ≤ PEERS_PER_DOC_CACHE_SIZE.

(** The row evicted for a new peer, if any. *)
Definition evicted (l : list (Nanos * PeerIdBytes)) (peer : PeerIdBytes)
    : option (Nanos * PeerIdBytes) :=
  if decide (peer ∈ snd <$> l) then None
  else if length l =? PEERS_PER_DOC_CACHE_SIZE then head l else None.

Lemma scan_peers_spec peer (l : list (Nanos * PeerIdBytes)) k o :
  NoDup (snd <$> l) → o = None ∨ peer ∉ snd <$> l →
  ∃ o', foldl (λ acc r, (S acc.1, match acc.2 with
      | None => if eqb r.2 peer then Some r.1 else None | Some n => Some n end)) (k, o) l
    = (k + length l, o')
  ∧ ∀ n, o' = Some n ↔ o = Some n ∨ (n, peer) ∈ l.
Proof.
  revert k o. induction l as [|[n p] l IH]; intros k o Hnd Ho; simpl.
  { exists o. rewrite Nat.add_0_r. split; [done|]. intros n. rewrite elem_of_nil. tauto. }
  simpl in Hnd. apply NoDup_cons in Hnd as [Hnin Hnd].
  destruct (eqb p peer) eqn:Hp.
  - apply eqb_eq in Hp as ->. destruct o as [m|].
    { destruct Ho as [|Ho]; [done|]. simpl in Ho. set_solver. }
    destruct (IH (S k) (Some n) Hnd) as (o' & Hf & Ho'); [by right|].
    exists o'. split; [rewrite Hf; f_equal; lia|]. intros m. rewrite Ho', elem_of_cons.
    split; [naive_solver|]. intros [?|[[= ->]|Hin]]; [done|by left|].
    destruct Hnin. apply list_elem_of_fmap. by exists (m, peer).
  - destruct (IH (S k) o Hnd) as (o' & Hf & Ho').
    { destruct Ho as [|Ho]; [by left|right]. simpl in Ho. set_solver. }
    exists o'. split.
    { destruct o; (etrans; [exact Hf|]); f_equal; lia. }
    intros m. rewrite Ho', elem_of_cons. split; [naive_solver|].
    intros [?|[[= -> ->]|?]]; [tauto| |tauto]. by rewrite eqb_refl in Hp.
Qed.

(** The rows after a registration. *)
Definition registered (l : list (Nanos * PeerIdBytes)) nanos peer (r : Nanos * PeerIdBytes) : Prop :=
  r = (nanos, peer) ∨ (r ∈ l ∧ r.2 ≠ peer ∧ Some r ≠ evicted l peer).

Lemma registered_ok (l l' : list (Nanos * PeerIdBytes)) nanos peer :
  peers_ok l → NoDup l' → (∀ r, r ∈ l' ↔ registered l nanos peer r) → peers_ok l'.
Proof.
  intros [Hnd Hlen] Hnd' Hl'.
  set (keep := List.filter (λ r, negb (eqb r.2 peer)
    && negb (bool_decide (Some r = evicted l peer))) l).
  assert (l' ≡ₚ (nanos, peer) :: keep) as Hperm.
  { apply NoDup_Permutation; [done| |].
    - apply NoDup_cons. split.
      + intros [_ Hk]%elem_of_filter_list. simpl in Hk. by rewrite eqb_refl in Hk.
      + apply NoDup_fmap_1 in Hnd. by eapply sublist_NoDup, filter_sublist.
    - intros r. rewrite Hl', elem_of_cons. unfold keep, registered.
      rewrite elem_of_filter_list, andb_true_iff, !negb_true_iff, bool_decide_eq_false.
      split; [|]; intros [->|(Hin & Hp)]; try (by left); right; (split; [done|]).
      + destruct Hp as [Hp Hev]. split; [|done].
        destruct (eqb r.2 peer) eqn:He; [by apply eqb_eq in He|done].
      + destruct Hp as [Hp Hev]. split; [|done]. intros E. by rewrite E, eqb_refl in Hp. }
  assert (keep `sublist_of` l) as Hsub by apply filter_sublist.
  unfold peers_ok. rewrite Hperm. simpl. split.
  - apply NoDup_cons. split.
    + intros (r & Hr & [_ Hk]%elem_of_filter_list)%list_elem_of_fmap.
      by rewrite <- Hr, eqb_refl in Hk.
    + eapply sublist_NoDup; [exact Hnd|]. by apply fmap_sublist.
  - apply Nat.le_succ_l. destruct (decide (peer ∈ snd <$> l)) as [Hin|Hnin].
    { apply list_elem_of_fmap in Hin as (r & Hr & Hin). eapply Nat.lt_le_trans; [|exact Hlen].
      apply (filter_length_lt _ _ r Hin). by rewrite <- Hr, eqb_refl. }
    destruct (decide (length l = PEERS_PER_DOC_CACHE_SIZE)) as [Hfull|Hfew].
    2: { pose proof (sublist_length _ _ Hsub). unfold PEERS_PER_DOC_CACHE_SIZE in *. lia. }
    rewrite <- Hfull. destruct l as [|r l]; [done|].
    apply (filter_length_lt _ _ r); [left|]. unfold evicted.
    rewrite decide_False by done. rewrite Hfull. simpl.
    rewrite bool_decide_eq_true_2 by done. apply andb_false_r.
Qed.

Lemma peers_insert_elem ns nanos peer t n r :
  r ∈ mm_get (namespace_peers (peers_insert ns nanos peer t)) n ↔
    (n = ns ∧ r = (nanos, peer)) ∨ r ∈ mm_get (namespace_peers t) n.
Proof. simpl. apply mm_get_insert; apply _. Qed.
Lemma peers_remove_elem ns nanos peer t n r :
  r ∈ mm_get (namespace_peers (peers_remove ns nanos peer t)) n ↔
    ¬ (n = ns ∧ r = (nanos, peer)) ∧ r ∈ mm_get (namespace_peers t) n.
Proof. simpl. apply mm_get_remove; apply _. Qed.

Lemma peers_nodup t n : NoDup (mm_get (namespace_peers t) n).
Proof. apply mm_get_NoDup; apply _. Qed.

Lemma peer_row_unique (l : list (Nanos * PeerIdBytes)) n m p :
  NoDup (snd <$> l) → (n, p) ∈ l → (m, p) ∈ l → n = m.
Proof.
  intros Hnd Hn Hm. apply list_elem_of_lookup_1 in Hn as [i Hi], Hm as [j Hj].
  assert (i = j) as ->.
  { apply (NoDup_lookup _ _ _ p Hnd); rewrite list_lookup_fmap; [by rewrite Hi|by rewrite Hj]. }
  congruence.
Qed.

Lemma evicted_present l peer : peer ∈ snd <$> l → evicted l peer = None.
Proof. intros Hin. unfold evicted. by rewrite decide_True. Qed.

(** Replacing the row of a peer that is present. *)
Lemma registered_replace (l : list (Nanos * PeerIdBytes)) nanos peer old r :
  NoDup (snd <$> l) → (old, peer) ∈ l →
  registered l nanos peer r ↔ r = (nanos, peer) ∨ (¬ r = (old, peer) ∧ r ∈ l).
Proof.
  intros Hnd Hold. unfold registered. rewrite evicted_present.
  2: { apply list_elem_of_fmap. by exists (old, peer). }
  split; (intros [?|Hr]; [by left|right]).
  - destruct Hr as (Hin & Hne & _). split; [by intros ->|done].
  - destruct Hr as [Hne Hin]. split_and!; [done| |done].
    intros Heq. destruct r as [n p]. simpl in Heq. subst p.
    by rewrite (peer_row_unique l n old peer) in Hne.
Qed.

(** Registering a useful peer keeps the peers of a document a set of at
    most five: on an existing document the peer ends with the given time and
    one row, the other rows stay, except that a new peer on a full list
    displaces the oldest; other documents are untouched, and without a
    document nothing is stored. *)
Theorem register_useful_peer_spec s nanos ns peer : store_wf s →
  peers_ok (mm_get (namespace_peers (view s)) ns) →
  match tbl_get (namespaces (view s)) ns with
  | None => ∃ s', register_useful_peer nanos ns peer s = (Err ErrDocumentNotCreated, s')
      ∧ view s' = view s ∧ bookkeeping s s'
  | Some _ => ∃ s', register_useful_peer nanos ns peer s = (Ok tt, s') ∧ bookkeeping s s'
      ∧ peers_ok (mm_get (namespace_peers (view s')) ns)
      ∧ ∀ n r, r ∈ mm_get (namespace_peers (view s')) n ↔
          if decide (n = ns) then registered (mm_get (namespace_peers (view s)) ns) nanos peer r
          else r ∈ mm_get (namespace_peers (view s)) n
  end.
Proof.
  intros Hwf Hok. unfold register_useful_peer. run_modify s with Hwf as s' Hv Hb. revert Hv.
  destruct (tbl_get (namespaces (view s)) ns) as [v|]; [|intros Hv; by exists s'].
  set (l := mm_get (namespace_peers (view s)) ns) in *.
  assert (∀ t' : Tables, view s' = t' → (∀ n r, r ∈ mm_get (namespace_peers t') n ↔
      if decide (n = ns) then registered l nanos peer r
      else r ∈ mm_get (namespace_peers (view s)) n) →
    bookkeeping s s' ∧ peers_ok (mm_get (namespace_peers (view s')) ns)
    ∧ ∀ n r, r ∈ mm_get (namespace_peers (view s')) n ↔
        if decide (n = ns) then registered l nanos peer r
        else r ∈ mm_get (namespace_peers (view s)) n) as Hfin.
  { intros t' Hv Hmem. rewrite Hv. split_and!; [done| |exact Hmem].
    eapply registered_ok; [exact Hok|apply peers_nodup|]. intros r. rewrite Hmem.
    by rewrite decide_True. }
  pose proof Hok as [Hnd Hlen].
  assert (Hl : mm_get (namespace_peers (view s)) ns = l) by done. clearbody l.
  destruct l as [|[on op] rest].
  { cbn [fst snd]. intros Hv. exists s'. split; [done|]. apply (Hfin _ Hv). intros n r.
    rewrite peers_insert_elem. destruct (decide (n = ns)) as [->|]; [|tauto].
    rewrite Hl. unfold registered. set_solver. }
  assert (∀ old, (old, peer) ∈ (on, op) :: rest → ∀ n r,
    r ∈ mm_get (namespace_peers (peers_insert ns nanos peer (peers_remove ns old peer (view s)))) n ↔
      if decide (n = ns) then registered ((on, op) :: rest) nanos peer r
      else r ∈ mm_get (namespace_peers (view s)) n) as Hrepl.
  { intros old Hold n r. rewrite peers_insert_elem, peers_remove_elem.
    destruct (decide (n = ns)) as [->|]; [|tauto].
    rewrite Hl, (registered_replace _ nanos peer old) by done. tauto. }
  destruct (eqb op peer) eqn:Hop.
  { apply eqb_eq in Hop as ->. cbn [fst snd]. intros Hv. exists s'. split; [done|]. apply (Hfin _ Hv).
    apply Hrepl. left. }
  simpl in Hnd. apply NoDup_cons in Hnd as [Hnin Hnd'].
  destruct (scan_peers_spec peer rest 1 None Hnd') as (prev & Hscan & Hprev); [by left|].
  unfold scan_peers. rewrite Hscan. destruct prev as [prev|].
  { cbn [fst snd]. intros Hv. exists s'. split; [done|]. apply (Hfin _ Hv). apply Hrepl. right.
    by destruct (proj1 (Hprev prev) eq_refl). }
  assert (peer ∉ snd <$> (on, op) :: rest) as Hnew.
  { simpl. rewrite elem_of_cons. intros [->|Hin]; [by rewrite eqb_refl in Hop|].
    apply list_elem_of_fmap in Hin as ([n p] & Hp & Hin). simpl in Hp. subst p.
    by assert (None = Some n) by (apply Hprev; by right). }
  assert (∀ r, registered ((on, op) :: rest) nanos peer r ↔
    r = (nanos, peer) ∨ (r ∈ (on, op) :: rest ∧ Some r ≠ evicted ((on, op) :: rest) peer)) as Hreg.
  { intros r. unfold registered. split; [intros [?|(?&_&?)]; [by left|by right]|]. intros [?|[Hin Hev]]; [by left|right].
    split_and!; [done| |done]. intros E. destruct Hnew. rewrite <- E. by apply list_elem_of_fmap_2. }
  unfold evicted in Hreg. rewrite decide_False in Hreg by done.
  assert (length ((on, op) :: rest) = 1 + length rest) as Hlr by done.
  destruct (Nat.ltb_spec PEERS_PER_DOC_CACHE_SIZE (S (1 + length rest))) as [Hfull|Hfew];
    cbn [fst snd]; intros Hv; exists s'; (split; [done|]); apply (Hfin _ Hv); intros n r.
  - rewrite (proj2 (Nat.eqb_eq _ _)) in Hreg by lia. simpl head in Hreg.
    rewrite peers_remove_elem, peers_insert_elem.
    destruct (decide (n = ns)) as [->|]; [|tauto]. rewrite Hl, Hreg. split.
    + intros [Hne [[_ ->]|Hin]]; [by left|]. right. split; [done|]. intros [= ->]. tauto.
    + intros [->|[Hin Hne]].
      * split; [|by left]. intros [_ [= _ ->]]. by rewrite eqb_refl in Hop.
      * split; [|by right]. intros [_ ->]. done.
  - rewrite (proj2 (Nat.eqb_neq _ _)) in Hreg by (rewrite Hlr; lia).
    rewrite peers_insert_elem. destruct (decide (n = ns)) as [->|]; [|tauto].
    rewrite Hl, Hreg. split.
    + intros [[_ ->]|Hin]; [by left|by right].
    + intros [->|[Hin _]]; [by left|by right].
Qed.

(** ** Heads *)
Lemma latest_bounds (ns n : NamespaceId) (a : AuthorId) :
  in_bounds (Included (ns, zero32), Included (ns, ff32)) (n, a) = eqb n ns.
Proof.
  unfold in_bounds. simpl. rewrite (pair_leb_least ns), (pair_leb_greatest ns) by auto with store_db.
  apply leb_both_eqb.
Qed.

(** The heads the store keeps for a namespace. *)
Definition stored_heads t (ns : NamespaceId) : AuthorHeads :=
  foldl (λ h (e : AuthorId * N * bytes), heads_insert e.1.1 e.1.2 h) ∅
    (LatestIterator_new (latest_per_author t) ns).

Lemma stored_heads_lookup t ns a :
  stored_heads t ns !! a = fst <$> tbl_get (latest_per_author t) (ns, a).
Proof.
  unfold stored_heads.
  set (l := LatestIterator_new (latest_per_author t) ns).
  assert (∀ h : AuthorHeads, foldl (λ h (e : AuthorId * N * bytes), heads_insert e.1.1 e.1.2 h) h l
    = foldl (λ h p, heads_insert p.1 p.2 h) h (fst <$> l)) as ->.
  { generalize l. clear. induction l as [|e l IH]; intros h; [done|]. apply IH. }
  assert (∀ b ts, (b, ts) ∈ fst <$> l ↔ ∃ k, tbl_get (latest_per_author t) (ns, b) = Some (ts, k)) as Hl.
  { intros b ts. unfold l, LatestIterator_new. rewrite <- list_fmap_compose, list_elem_of_fmap. split.
    - intros ([[n b'] [ts' k]] & [= -> ->] & Hin). apply tbl_range_get in Hin as [Hb Hg].
      rewrite latest_bounds, eqb_eq in Hb. subst n. by exists k.
    - intros (k & Hk). exists ((ns, b), (ts, k)). split; [done|]. apply tbl_range_get.
      by rewrite latest_bounds, eqb_refl. }
  assert (NoDup (fst <$> l).*1) as Hnd.
  { unfold l, LatestIterator_new. rewrite <- !list_fmap_compose.
    pose proof (tbl_range_sorted (latest_per_author t)
      (Included (ns, zero32), Included (ns, ff32))) as Hs.
    apply NoDup_fmap_2_strong; [|by apply (sorted_NoDup fst)].
    intros [[n b] v] [[n' b'] v'] Hx Hy Heq. simpl in Heq. subst b'.
    apply (sorted_inj fst _ _ _ Hs Hx Hy). simpl.
    apply tbl_range_get in Hx as [Hx _], Hy as [Hy _].
    rewrite latest_bounds, eqb_eq in Hx, Hy. congruence. }
  rewrite fold_insert_lookup, lookup_empty by done.
  destruct (tbl_get (latest_per_author t) (ns, a)) as [[ts k]|] eqn:Hg; simpl.
  - rewrite (elem_of_list_to_map_1 _ a ts); [done|done|]. apply Hl. eauto.
  - rewrite not_elem_of_list_to_map_1; [done|].
    intros ([b ts] & -> & Hin)%list_elem_of_fmap. apply Hl in Hin as [k Hk]. simpl in Hg. congruence.
Qed.

(** The heads report of a peer is news exactly when it names an author
    whose latest stored timestamp in this namespace is missing or older. *)
Theorem has_news_for_us_spec s ns heads : store_wf s →
  ∃ r s', has_news_for_us ns heads s = (Ok r, s')
    ∧ (r = None ↔ ∀ a ts, heads !! a = Some ts →
         ∃ ts' k, tbl_get (latest_per_author (view s)) (ns, a) = Some (ts', k) ∧ (ts <= ts')%N)
    ∧ view s' = view s ∧ bookkeeping s s'.
Proof.
  intros Hwf. destruct (tables_spec s Hwf) as (t & s' & Ht & -> & Hv & Hb).
  exists (has_news_for heads (stored_heads (view s) ns)), s'.
  split; [unfold has_news_for_us, get_latest_for_each_author; st_red; by rewrite Ht|].
  split; [|done]. rewrite has_news_None. unfold heads_le.
  setoid_rewrite stored_heads_lookup. split; intros Hle a ts Ha.
  - destruct (Hle a ts Ha) as (ts' & Hg & Hlt).
    destruct (tbl_get (latest_per_author (view s)) (ns, a)) as [[ts2 k]|]; [|done].
    simpl in Hg. injection Hg as ->. eauto.
  - destruct (Hle a ts Ha) as (ts' & k & -> & Hlt). simpl. eauto.
Qed.
End ops.

(** ** A store that computes *)
Definition fk_code (f : FilterKind) : bool * bytes :=
  match f with FkPrefix b => (true, b) | FkExact b => (false, b) end.
Definition fk_decode (p : bool * bytes) : FilterKind :=
  if p.1 then FkPrefix p.2 else FkExact p.2.
#[export] Instance FilterKind_eq_dec : EqDecision FilterKind.
Proof. solve_decision. Defined.
#[export] Instance FilterKind_countable : Countable FilterKind.
Proof. apply (inj_countable' fk_code fk_decode). by intros []. Defined.

Definition dp_code (p : DownloadPolicy) : bool * list FilterKind :=
  match p with NothingExcept l => (true, l) | EverythingExcept l => (false, l) end.
Definition dp_decode (p : bool * list FilterKind) : DownloadPolicy :=
  if p.1 then NothingExcept p.2 else EverythingExcept p.2.
#[export] Instance DownloadPolicy_eq_dec : EqDecision DownloadPolicy.
Proof. solve_decision. Defined.
#[export] Instance DownloadPolicy_countable : Countable DownloadPolicy.
Proof. apply (inj_countable' dp_code dp_decode). by intros []. Defined.

#[export] Instance policy_postcard : Postcard DownloadPolicy := toy_postcard _.
#[export] Instance policy_postcard_ok : PostcardOk DownloadPolicy := toy_postcard_ok _.

Definition demo_ns : NamespaceId := arr_rep 32 x01.
Definition demo_author : AuthorId := arr_rep 32 x02.
Definition demo_peer (b : byte) : PeerIdBytes := arr_rep 32 b.
Definition demo_row (ts : N) : RecordsValue :=
  (ts, arr_rep 64 x00, arr_rep 64 x00, 3%N, arr_rep 32 x09).

(** One document with one record, one peer and one head. *)
Definition demo_tables : Tables := {|
  records := tbl_insert tbl_empty (demo_ns, demo_author, [x41]) (demo_row 7);
  records_by_key := tbl_insert tbl_empty (demo_ns, [x41], demo_author) tt;
  namespaces := tbl_insert tbl_empty demo_ns (2%N, demo_ns);
  latest_per_author := tbl_insert tbl_empty (demo_ns, demo_author) (7%N, [x41]);
  namespace_peers := mm_insert mm_empty demo_ns (5%N, demo_peer x0a);
  download_policy := tbl_empty;
  authors := tbl_empty;
|}.
Definition demo_store : Store := {|
  st_db := db_create demo_tables; st_transaction := CtNone;
  st_open_replicas := ∅; st_pubkeys := ∅; st_clock := 0 |}.

Lemma demo_store_wf : store_wf demo_store.
Proof. done. Qed.

Lemma transactions_transparent_witness :
  ∃ s', flush demo_store = (Ok tt, s') ∧ view s' = view demo_store
    ∧ committed s' = view demo_store ∧ store_wf s'.
Proof.
  exact (proj1 (proj2 (transactions_transparent (A:=unit) (mret tt) demo_store demo_store_wf))).
Defined.

Lemma remove_replica_spec_witness :
  ∃ s', remove_replica demo_ns demo_store = (Ok tt, s')
    ∧ without_replica demo_ns (view demo_store) (view s').
Proof.
  pose proof (remove_replica_spec demo_store demo_ns demo_store_wf) as Hr.
  destruct (decide (demo_ns ∈ st_open_replicas demo_store)) as [Hin|_].
  - by apply elem_of_empty in Hin.
  - destruct Hr as (s' & Heq & Hw & _). exists s'. exact (conj Heq Hw).
Defined.

Lemma retract_entry_spec_witness :
  ∃ b s', retract_entry demo_ns demo_author [x41] 7 demo_store = (Ok b, s')
    ∧ (b = true ↔ ∃ v, tbl_get (records (view demo_store)) (demo_ns, demo_author, [x41]) = Some v
         ∧ (v.1.1.1.1 <= 7)%N).
Proof.
  destruct (retract_entry_spec demo_store demo_ns demo_author [x41] 7 demo_store_wf)
    as (b & s' & Heq & Hb & _).
  exists b, s'. exact (conj Heq Hb).
Defined.

Lemma demo_namespaces_wf : namespaces_wf (view demo_store).
Proof.
  intros id v. change (tbl_get (tbl_insert (tbl_empty : tbl arr32 (N * arr32)) demo_ns (2%N, demo_ns)) id
    = Some v → ∃ c, parse_capability v = Some c ∧ Capability_id c = id).
  rewrite tbl_get_insert, tbl_get_empty by apply _.
  destruct (eqb demo_ns id) eqn:Hid; [|done]. apply eqb_eq in Hid as <-.
  intros [= <-]. by exists (CapRead demo_ns).
Qed.

Lemma import_namespace_spec_witness :
  ∃ s' c', import_namespace (CapWrite (NamespaceSecret_from_bytes demo_ns)) demo_store =
      (Ok (import_outcome (stored_capability (view demo_store) demo_ns)
        (CapWrite (NamespaceSecret_from_bytes demo_ns))), s')
    ∧ stored_capability (view s') demo_ns = Some c'.
Proof.
  destruct (import_namespace_spec demo_store (CapWrite (NamespaceSecret_from_bytes demo_ns))
    _ demo_store_wf demo_namespaces_wf) as (s' & c' & Heq & Hc & _).
  exists s', c'. exact (conj Heq Hc).
Defined.

Lemma demo_peers_ok : peers_ok (mm_get (namespace_peers (view demo_store)) demo_ns).
Proof.
  assert (mm_get (namespace_peers (view demo_store)) demo_ns = [(5%N, demo_peer x0a)]) as ->
    by (vm_compute; reflexivity).
  split; simpl; [|unfold PEERS_PER_DOC_CACHE_SIZE; lia].
  apply NoDup_singleton.
Qed.

Lemma register_useful_peer_spec_witness :
  match tbl_get (namespaces (view demo_store)) demo_ns with
  | None => True
  | Some _ => ∃ s', register_useful_peer 9 demo_ns (demo_peer x0b) demo_store = (Ok tt, s')
      ∧ peers_ok (mm_get (namespace_peers (view s')) demo_ns)
  end.
Proof.
  pose proof (register_useful_peer_spec demo_store 9 demo_ns (demo_peer x0b)
    demo_store_wf demo_peers_ok) as Hr.
  destruct (tbl_get (namespaces (view demo_store)) demo_ns); [|exact I].
  destruct Hr as (s' & Heq & _ & Hok & _). exists s'. exact (conj Heq Hok).
Defined.

Lemma has_news_for_us_spec_witness :
  ∃ r s', has_news_for_us demo_ns (<[demo_author := 9%N]> ∅) demo_store = (Ok r, s')
    ∧ view s' = view demo_store.
Proof.
  destruct (has_news_for_us_spec demo_store demo_ns (<[demo_author := 9%N]> ∅) demo_store_wf)
    as (r & s' & Heq & _ & Hv & _).
  exists r, s'. exact (conj Heq Hv).
Defined.
