(* ===== verification/StoreInstance.v ===== *)
(** * The store as the reconciliation sees it

    Models the second half of [src/store/fs.rs] ([StoreInstance] and its
    implementation of the reconciliation interface, [ParentIterator],
    [range_pair], [first_record]) with the record iterator of
    [src/store/fs/ranges.rs], and discharges [RangerStoreOk]: everything
    Ranger proves of an abstract store holds of this one. *)
From S2P Require Import Prelude Redb Keys Entry Heads Query Bounds Ranger Info Store.

#[export] Instance SignedEntry_range `{Crypto} :
    RangeEntry SignedEntry RecordIdentifier DocRecord RejectId := {|
  re_key := se_id;
  re_value := se_record;
  re_reject_id := se_reject_id;
  re_fingerprint := se_fingerprint;
  re_fp_empty := blake3_hash [];
|}.

Section instance.
Context `{Redb, Crypto, Postcard DownloadPolicy}.

Record StoreInstance := {
  si_namespace : NamespaceId;
  si_store : Store;
  si_session_snapshot : option Tables;
}.
Definition StoreInstance_new (ns : NamespaceId) (s : Store) : StoreInstance :=
  {| si_namespace := ns; si_store := s; si_session_snapshot := None |}.
Definition with_session_snapshot (ns : NamespaceId) (s : Store) (snap : option Tables)
    : StoreInstance :=
  {| si_namespace := ns; si_store := s; si_session_snapshot := snap |}.
Definition set_si_store (s : Store) (i : StoreInstance) : StoreInstance :=
  {| si_namespace := si_namespace i; si_store := s;
     si_session_snapshot := si_session_snapshot i |}.

Abbreviation IM := (ST StoreInstance StoreErr).
Definition on_store {A} (m : ST Store StoreErr A) : IM A := st_zoom si_store set_si_store m.

Abbreviation RecordsTable := (table RecordsId RecordsValue _).

(** [RecordsRange::with_bounds], as the entries it yields. *)
Definition RecordsRange_with_bounds (t : RecordsTable) (b : RecordsBounds) : list SignedEntry :=
  (λ p, into_entry p.1 p.2) <$> tbl_range t b.

Definition first_record (t : RecordsTable) (b : RecordsBounds) : option RecordIdentifier :=
  (λ p, ri_of_tuple p.1) <$> head (tbl_range t b).

Definition range_pair (t : RecordsTable) (b : RecordsBounds) (wrap : option RecordsBounds)
    : list SignedEntry * option (list SignedEntry) :=
  (RecordsRange_with_bounds t b, RecordsRange_with_bounds t <$> wrap).

(** The table reads are served from: the session's snapshot if it has one. *)
Definition read_records : IM RecordsTable :=
  snap ← st_gets si_session_snapshot;
  match snap with
  | Some t => mret (records t)
  | None => t ← on_store tables; mret (records t)
  end.

Definition inst_get_first : IM RecordIdentifier :=
  ns ← st_gets si_namespace;
  t ← read_records;
  mret (default ri_default (first_record t (RecordsBounds_namespace ns))).

Definition get_range_bounds (ns : NamespaceId) (range : Range RecordIdentifier)
    : RecordsBounds * option RecordsBounds :=
  match cmp (rg_x range) (rg_y range) with
  | Eq => (RecordsBounds_namespace ns, None)
  | Lt => (RecordsBounds_new (Included (ri_byte_tuple (rg_x range)))
             (Excluded (ri_byte_tuple (rg_y range))), None)
  | Gt => (RecordsBounds_from_start ns (Excluded (ri_byte_tuple (rg_y range))),
           Some (RecordsBounds_to_end ns (Included (ri_byte_tuple (rg_x range)))))
  end.

Definition boundary_foreign (ns : NamespaceId) (range : Range RecordIdentifier) : bool :=
  match cmp (rg_x range) (rg_y range) with
  | Eq => false
  | _ => negb (eqb (ri_namespace (rg_x range)) ns && eqb (ri_namespace (rg_y range)) ns)
  end.

Definition inst_get_range (range : Range RecordIdentifier) : IM (list SignedEntry) :=
  ns ← st_gets si_namespace;
  if boundary_foreign ns range then st_err ErrForeignBoundary
  else
    let '(bounds, wrap_bounds) := get_range_bounds ns range in
    t ← read_records;
    let '(iter, wrap_iter) := range_pair t bounds wrap_bounds in
    mret (iter ++ default [] wrap_iter).

Definition inst_get_fingerprint (range : Range RecordIdentifier) : IM Fingerprint :=
  elements ← inst_get_range range;
  mret (range_fingerprint elements).

Definition entry_put_tables (e : SignedEntry) : ST Tables StoreErr unit :=
  let id := se_id e in
  _ ← st_modify (λ t, set_records
        (tbl_insert (records t) (ri_namespace id, ri_author id, ri_key id) (record_row e)) t);
  _ ← st_modify (λ t, set_records_by_key
        (tbl_insert (records_by_key t) (ri_namespace id, ri_key id, ri_author id) tt) t);
  st_modify (λ t, set_latest_per_author
        (tbl_insert (latest_per_author t) (ri_namespace id, ri_author id)
          (se_timestamp e, ri_key id)) t).

Definition inst_entry_put (e : SignedEntry) : IM unit := on_store (modify (entry_put_tables e)).

(** The loop of [parents], on the reversed key: popping the last byte is
    taking the tail. *)
Fixpoint parents_loop (t : RecordsTable) (ns : NamespaceId) (a : AuthorId) (rkey : bytes)
    : list SignedEntry :=
  match rkey with
  | [] => []
  | _ :: rkey' =>
      let res := parents_loop t ns a rkey' in
      match get_exact_in t ns a (reverse rkey) false with
      | Some entry => entry :: res
      | None => res
      end
  end.
Definition parents (t : RecordsTable) (ns : NamespaceId) (a : AuthorId) (key : bytes)
    : list SignedEntry := reverse (parents_loop t ns a (reverse key)).

Definition inst_prefixes_of (id : RecordIdentifier) : IM (list SignedEntry) :=
  t ← on_store tables;
  mret (parents (records t) (ri_namespace id) (ri_author id) (ri_key id)).

Definition row_record (v : RecordsValue) : DocRecord :=
  let '(timestamp, _, _, len, hash) := v in
  {| r_len := len; r_hash := hash; r_timestamp := timestamp |}.

Definition inst_remove_prefix_filtered (id : RecordIdentifier) (predicate : DocRecord → bool)
    : IM nat :=
  let bounds := RecordsBounds_author_prefix (ri_namespace id) (ri_author id) (ri_key id) in
  on_store (modify (
    t ← st_get;
    let '(removed, r) := tbl_extract_from_if (records t) bounds (λ _ v, predicate (row_record v)) in
    _ ← st_modify (set_records r);
    mret (length removed))).

#[export] Instance StoreInstance_ranger :
    RangerStore StoreInstance SignedEntry RecordIdentifier DocRecord StoreErr := {|
  rs_get_first := inst_get_first;
  rs_get_fingerprint := inst_get_fingerprint;
  rs_entry_put := inst_entry_put;
  rs_get_range := inst_get_range;
  rs_prefixes_of := inst_prefixes_of;
  rs_remove_prefix_filtered := inst_remove_prefix_filtered;
|}.

(** ** The content *)

(** Every record has its row in the by-key index. *)
Definition index_complete (t : Tables) : Prop :=
  ∀ ns a k v, tbl_get (records t) (ns, a, k) = Some v →
    tbl_get (records_by_key t) (ns, k, a) = Some tt.

Definition read_source (i : StoreInstance) : Tables :=
  match si_session_snapshot i with Some t => t | None => view (si_store i) end.

#[export] Instance StoreInstance_model : RangerModel StoreInstance SignedEntry RecordIdentifier := {|
  rs_inv i := store_wf (si_store i) ∧ index_complete (view (si_store i))
    ∧ cache_wf (st_pubkeys (si_store i));
  rs_view i := RecordsRange_with_bounds (records (read_source i))
    (RecordsBounds_namespace (si_namespace i));
  rs_live i k := into_entry (ri_byte_tuple k) <$>
    tbl_get (records (view (si_store i))) (ri_byte_tuple k);
  rs_key_ok i k := ri_namespace k = si_namespace i;
  rs_entry_ok i e := se_namespace e = si_namespace i;
  rs_listed p k := eqb (ri_namespace (se_id p)) (ri_namespace k)
    && eqb (ri_author (se_id p)) (ri_author k)
    && negb (length (ri_key (se_id p)) =? 0) && starts_with (ri_key k) (ri_key (se_id p))
    && negb (se_is_empty p);
  rs_covered k k' := in_bounds
    (RecordsBounds_author_prefix (ri_namespace k) (ri_author k) (ri_key k)) (ri_byte_tuple k');
|}.
End instance.

(** ** The store keeps the promises of the interface *)
Section instance_facts.
Context `{RedbOk, Crypto, Postcard DownloadPolicy}.
Implicit Types (i : StoreInstance) (e : SignedEntry) (k : RecordIdentifier) (t : Tables).

Lemma into_entry_id id v : se_id (into_entry id v) = ri_of_tuple id.
Proof. by destruct id as [[??]?], v as [[[[??]?]?]?]. Qed.
Lemma into_entry_record id v : se_record (into_entry id v) = row_record v.
Proof. by destruct id as [[??]?], v as [[[[??]?]?]?]. Qed.
Lemma into_entry_row e : into_entry (ri_byte_tuple (se_id e)) (record_row e) = e.
Proof. by destruct e as [[??] [[???] [???]]]. Qed.
Lemma row_into_entry id v : record_row (into_entry id v) = v.
Proof. by destruct id as [[??]?], v as [[[[??]?]?]?]. Qed.

Lemma ri_ltb_tuple (x y : RecordIdentifier) : ltb x y = ltb (ri_byte_tuple x) (ri_byte_tuple y).
Proof. unfold ltb. by rewrite ri_cmp_tuple. Qed.
Lemma ri_leb_tuple (x y : RecordIdentifier) : leb x y = leb (ri_byte_tuple x) (ri_byte_tuple y).
Proof. unfold leb. by rewrite ri_cmp_tuple. Qed.

Lemma filter_fmap {A B} (f : A → B) (p : B → bool) (l : list A) :
  List.filter p (f <$> l) = f <$> List.filter (λ x, p (f x)) l.
Proof.
  induction l as [|x l IH]; [done|]. rewrite fmap_cons. simpl. rewrite IH.
  by destruct (p (f x)).
Qed.

Lemma leb_antisym_eq {A} `{CmpOk A} (x y : A) : leb x y = true → leb y x = true → x = y.
Proof. intros Hxy Hyx. symmetry. apply eqb_eq. rewrite <- leb_both_eqb. by rewrite Hxy, Hyx. Qed.

Lemma ltb_leb {A} `{CmpOk A} (x y : A) : ltb x y = true → leb x y = true.
Proof. rewrite leb_negb_ltb. intros Hlt%ltb_asym. by rewrite Hlt. Qed.

Lemma pair_leb_fst {A B} `{CmpOk A, CmpOk B} (p q : A * B) :
  leb p q = true → leb p.1 q.1 = true.
Proof.
  destruct p as [x y], q as [x' y']. rewrite pair_leb, orb_true_iff, andb_true_iff, eqb_eq. simpl.
  intros [?|[-> _]]; [by apply ltb_leb|apply leb_refl].
Qed.

Lemma tuple_leb_ns (id id' : RecordsId) : leb id id' = true → leb id.1.1 id'.1.1 = true.
Proof. intros Hle. by apply pair_leb_fst, pair_leb_fst. Qed.

Lemma ltb_leb_trans {A} `{CmpOk A} (x y z : A) :
  ltb x y = true → leb y z = true → ltb x z = true.
Proof.
  rewrite leb_ltb_eqb, orb_true_iff, eqb_eq. intros Hxy [Hyz|<-]; [|done].
  by apply (ltb_trans x y z).
Qed.

(** *** Ranges *)
Lemma range_rows (t : table RecordsId RecordsValue _) ns (r : Range RecordIdentifier) :
  boundary_foreign ns r = false →
  tbl_range t (get_range_bounds ns r).1
    ++ default [] (tbl_range t <$> (get_range_bounds ns r).2)
  = List.filter (λ p, range_contains r (ri_of_tuple p.1)) (tbl_range t (RecordsBounds_namespace ns)).
Proof.
  destruct r as [x y]. unfold boundary_foreign, get_range_bounds, range_contains. simpl.
  assert (∀ b p, p ∈ tbl_range t b ↔ in_bounds b p.1 = true ∧ tbl_get t p.1 = Some p.2) as Hin.
  { intros b [id v]. apply tbl_range_get. }
  assert (∀ id, leb x (ri_of_tuple id) = leb (ri_byte_tuple x) id) as Hx.
  { intros id. by rewrite ri_leb_tuple, ri_to_of_tuple. }
  assert (∀ id, ltb (ri_of_tuple id) y = ltb id (ri_byte_tuple y)) as Hy.
  { intros id. by rewrite ri_ltb_tuple, ri_to_of_tuple. }
  destruct (cmp x y) eqn:Hc; intros Hf;
    [|apply negb_false_iff, andb_true_iff in Hf as [Hfx Hfy]; apply eqb_eq in Hfx, Hfy..].
  - rewrite app_nil_r. symmetry. rewrite forallb_filter_id; [done|]. by apply forallb_forall.
  - rewrite app_nil_r. apply (sorted_ext fst); [apply tbl_range_sorted|apply sorted_filter, tbl_range_sorted|].
    intros [id v]. rewrite elem_of_filter_list, !Hin, namespace_bounds_in. simpl.
    unfold in_bounds. simpl. rewrite Hx, Hy, !andb_true_iff, eqb_eq. split; [|tauto].
    intros [[Hl Hr] Hg]. split_and!; [|done|done|done].
    apply tuple_leb_ns in Hl. apply ltb_leb, tuple_leb_ns in Hr. simpl in Hl, Hr.
    rewrite Hfx in Hl. rewrite Hfy in Hr. by apply leb_antisym_eq.
  - assert (ltb (ri_byte_tuple y) (ri_byte_tuple x) = true) as Hyx.
    { rewrite <- ri_ltb_tuple. by apply ltb_lt, cmp_gt. }
    apply (sorted_ext fst); [|apply sorted_filter, tbl_range_sorted|].
    + simpl. apply StronglySorted_app. split_and!; [|apply tbl_range_sorted..].
      intros [id v] [id' v'] [Hb _]%Hin [Hb' _]%Hin. unfold key_lt, in_bounds in *. simpl in *.
      apply andb_true_iff in Hb as [_ Hb], Hb' as [Hb' _].
      apply (ltb_leb_trans id (ri_byte_tuple x)); [|done]. by apply (ltb_trans id (ri_byte_tuple y)).
    + intros [[[n a] k] v]. simpl.
      rewrite elem_of_app, elem_of_filter_list, !Hin, namespace_bounds_in. cbn [fst snd].
      unfold in_bounds. cbn [fst snd RecordsBounds_from_start RecordsBounds_to_end RecordsBounds_new].
      rewrite above_namespace_start, below_namespace_end. cbn [above below].
      rewrite Hx, Hy, !andb_true_iff, orb_true_iff, eqb_eq. split.
      * intros [[[Hn Hl] Hg]|[[Hl Hn] Hg]]; (split; [split; [|done]|tauto]).
        -- apply ltb_leb, tuple_leb_ns in Hl. simpl in Hl. rewrite Hfy in Hl. by apply leb_antisym_eq.
        -- apply tuple_leb_ns in Hl. simpl in Hl. rewrite Hfx in Hl. by apply leb_antisym_eq.
      * intros [[-> Hg] Hor]. rewrite leb_refl. tauto.
Qed.

Lemma range_entries (t : table RecordsId RecordsValue _) ns (r : Range RecordIdentifier) :
  boundary_foreign ns r = false →
  RecordsRange_with_bounds t (get_range_bounds ns r).1
    ++ default [] (RecordsRange_with_bounds t <$> (get_range_bounds ns r).2)
  = List.filter (in_range r) (RecordsRange_with_bounds t (RecordsBounds_namespace ns)).
Proof.
  intros Hf. unfold RecordsRange_with_bounds at 3. rewrite filter_fmap.
  transitivity ((λ p, into_entry p.1 p.2) <$> (tbl_range t (get_range_bounds ns r).1
    ++ default [] (tbl_range t <$> (get_range_bounds ns r).2))).
  { rewrite fmap_app. f_equal. by destruct (get_range_bounds ns r).2. }
  rewrite range_rows by done. f_equal. apply List.filter_ext. intros [id v].
  unfold in_range. simpl. by rewrite into_entry_id.
Qed.

Lemma namespace_entries_sorted (t : table RecordsId RecordsValue _) ns :
  StronglySorted (key_lt re_key) (RecordsRange_with_bounds t (RecordsBounds_namespace ns)).
Proof.
  unfold RecordsRange_with_bounds. pose proof (tbl_range_sorted t (RecordsBounds_namespace ns)) as Hs.
  induction (tbl_range t (RecordsBounds_namespace ns)) as [|[id v] l IH]; [constructor|].
  apply StronglySorted_cons in Hs as [Hall Hs]. rewrite fmap_cons. apply StronglySorted_cons.
  split; [|by apply IH]. apply Forall_forall. intros e ([id' v'] & -> & Hin)%list_elem_of_fmap.
  rewrite Forall_forall in Hall. specialize (Hall _ Hin). unfold key_lt in *. simpl in *.
  by rewrite ri_ltb_tuple, !into_entry_id, !ri_to_of_tuple.
Qed.

Lemma elem_of_namespace_entries (t : table RecordsId RecordsValue _) ns e :
  e ∈ RecordsRange_with_bounds t (RecordsBounds_namespace ns) ↔
    se_namespace e = ns ∧ tbl_get t (ri_byte_tuple (se_id e)) = Some (record_row e).
Proof.
  unfold RecordsRange_with_bounds. rewrite list_elem_of_fmap. split.
  - intros ([id v] & -> & Hin). apply tbl_range_get in Hin as [Hb Hg].
    rewrite namespace_bounds_in, eqb_eq in Hb. simpl.
    rewrite into_entry_id, ri_to_of_tuple, row_into_entry. split; [|done].
    by destruct id as [[??]?], v as [[[[??]?]?]?].
  - intros [Hns Hg]. exists (ri_byte_tuple (se_id e), record_row e). split.
    + symmetry. apply into_entry_row.
    + apply tbl_range_get. split; [|done]. rewrite namespace_bounds_in. apply eqb_eq. exact Hns.
Qed.

(** *** Parents *)
Lemma prefix_snoc_inv {A} (l k : list A) (x : A) :
  k `prefix_of` l ++ [x] → k = l ++ [x] ∨ k `prefix_of` l.
Proof.
  intros [r Hr]. destruct r as [|y r _] using rev_ind; [left; by rewrite app_nil_r in Hr|right].
  rewrite app_assoc in Hr. apply app_inj_tail in Hr as [-> _]. by exists r.
Qed.

Lemma get_exact_in_Some (t : table RecordsId RecordsValue _) ns a key b e :
  get_exact_in t ns a key b = Some e ↔
    (∃ v, tbl_get t (ns, a, key) = Some v ∧ e = into_entry (ns, a, key) v)
    ∧ (b || negb (se_is_empty e) = true).
Proof.
  unfold get_exact_in. destruct (tbl_get t (ns, a, key)) as [v|];
    cbn [mbind option_bind fmap option_fmap option_map].
  - destruct (b || negb (se_is_empty (into_entry (ns, a, key) v))) eqn:Hb.
    + split; [intros Heq; injection Heq as <-; eauto|].
      intros [(w & Hw & ->) _]. by injection Hw as ->.
    + split; [done|]. intros [(w & [= <-] & ->) Hc]. congruence.
  - split; [done|]. by intros [(w & ? & _) _].
Qed.

Lemma elem_of_parents_loop (t : table RecordsId RecordsValue _) ns a rkey e :
  e ∈ parents_loop t ns a rkey ↔
    ∃ key, key ≠ [] ∧ key `prefix_of` reverse rkey ∧ get_exact_in t ns a key false = Some e.
Proof.
  induction rkey as [|b rkey IH]; simpl.
  { rewrite elem_of_nil. split; [done|]. intros (key & Hne & Hp & _).
    rewrite reverse_nil in Hp. by apply prefix_nil_inv in Hp. }
  assert (e ∈ (match get_exact_in t ns a (reverse (b :: rkey)) false with
    | Some entry => entry :: parents_loop t ns a rkey | None => parents_loop t ns a rkey end) ↔
    get_exact_in t ns a (reverse (b :: rkey)) false = Some e ∨ e ∈ parents_loop t ns a rkey) as ->.
  { destruct (get_exact_in t ns a (reverse (b :: rkey)) false); rewrite ?elem_of_cons; naive_solver. }
  rewrite IH, reverse_cons. split.
  - intros [Hg|(key & Hne & Hp & Hg)].
    + exists (reverse rkey ++ [b]). split_and!; [by destruct (reverse rkey)|done|done].
    + exists key. split_and!; [done|by apply prefix_app_r|done].
  - intros (key & Hne & [->|Hp]%prefix_snoc_inv & Hg); [by left|right]. by exists key.
Qed.

Lemma elem_of_parents (t : table RecordsId RecordsValue _) ns a key e :
  e ∈ parents t ns a key ↔
    tbl_get t (ri_byte_tuple (se_id e)) = Some (record_row e)
    ∧ se_namespace e = ns ∧ se_author e = a ∧ se_key e ≠ []
    ∧ se_key e `prefix_of` key ∧ se_is_empty e = false.
Proof.
  unfold parents. rewrite elem_of_reverse, elem_of_parents_loop, reverse_involutive. split.
  - intros (k & Hne & Hp & [(v & Hg & ->) Hem]%get_exact_in_Some).
    rewrite into_entry_id, ri_to_of_tuple, row_into_entry. simpl in Hem.
    apply negb_true_iff in Hem. by destruct v as [[[[??]?]?]?].
  - intros (Hg & Hns & Ha & Hne & Hp & Hem). exists (se_key e). split; [done|]. split; [done|].
    apply get_exact_in_Some. rewrite Hem. split; [|done]. exists (record_row e).
    assert ((ns, a, se_key e) = ri_byte_tuple (se_id e)) as -> by (by rewrite <- Hns, <- Ha).
    split; [done|]. by rewrite into_entry_row.
Qed.

(** *** The operations *)
Lemma on_store_wp {A} (m : ST Store StoreErr A) i (Q : A → StoreInstance → Prop) :
  wp m (si_store i) (λ a s', Q a (set_si_store s' i)) → wp (on_store m) i Q.
Proof. intros Hm. by apply wp_zoom. Qed.

Lemma same_of_view i s' : rs_inv i → bookkeeping (si_store i) s' →
  view s' = view (si_store i) → rs_same i (set_si_store s' i).
Proof.
  intros (Hwf & Hidx & Hc) Hb Hv. destruct (bk_rest _ _ Hb) as (_ & Hpk & _). split; simpl.
  - rewrite Hv, Hpk. split; [apply Hb|done].
  - unfold read_source. simpl. by rewrite Hv.
  - intros k. by rewrite Hv.
  - done.
  - done.
Qed.

Lemma tables_inst_wp i : rs_inv i →
  wp (on_store tables) i (λ t i', t = view (si_store i) ∧ rs_same i i').
Proof.
  intros Hinv. apply on_store_wp. eapply wp_mono; [apply tables_spec, Hinv|].
  intros t s' (-> & Hv & Hb). split; [done|]. by apply same_of_view.
Qed.

Lemma inst_same_refl i : rs_inv i → rs_same i i.
Proof. by split. Qed.

Lemma read_records_wp i : rs_inv i →
  wp read_records i (λ rt i', rt = records (read_source i) ∧ rs_same i i').
Proof.
  intros Hinv. unfold read_records, read_source. wp_step. wp_step.
  destruct (si_session_snapshot i) as [t|].
  - wp_step. split; [done|]. by apply inst_same_refl.
  - wp_step. eapply wp_mono; [by apply tables_inst_wp|]. intros t i' [-> Hs].
    wp_step. done.
Qed.

Lemma range_ok_not_foreign i r : range_ok i r → boundary_foreign (si_namespace i) r = false.
Proof.
  unfold boundary_foreign. intros [Heq|[Hx Hy]].
  - by rewrite Heq, cmp_refl.
  - simpl in Hx, Hy. rewrite Hx, Hy, eqb_refl. by destruct (cmp (rg_x r) (rg_y r)).
Qed.

Lemma inst_get_range_wp i r : rs_inv i → boundary_foreign (si_namespace i) r = false →
  wp (inst_get_range r) i (λ es i', es = List.filter (in_range r) (rs_view i) ∧ rs_same i i').
Proof.
  intros Hinv Hf. unfold inst_get_range. wp_step. wp_step. rewrite Hf.
  pose proof (range_entries (records (read_source i)) (si_namespace i) r Hf) as Hes.
  destruct (get_range_bounds (si_namespace i) r) as [b wb]. simpl in Hes.
  wp_step. eapply wp_mono; [by apply read_records_wp|]. intros t i' [-> Hs].
  unfold range_pair. wp_step. split; [exact Hes|done].
Qed.

(** Writing through [modify]. *)
Lemma modify_inst_wp {A} (f : ST Tables StoreErr A) i a t' : rs_inv i →
  f (view (si_store i)) = (Ok a, t') → index_complete t' →
  wp (on_store (modify f)) i (λ b i', b = a ∧ rs_wrote i i' ∧ view (si_store i') = t'
    ∧ si_namespace i' = si_namespace i ∧ si_session_snapshot i' = si_session_snapshot i).
Proof.
  intros (Hwf & Hidx & Hc) Hf Hidx'. apply on_store_wp.
  destruct (modify_spec f (si_store i) Hwf) as (s' & Hm & Hv & Hb). rewrite Hf in Hm, Hv.
  exists a, s'. split; [done|]. split_and!; try done.
  destruct (bk_rest _ _ Hb) as (_ & Hpk & _).
  split; [|done|done]. simpl. rewrite Hv, Hpk. split; [apply Hb|done].
Qed.

Definition put_tables e t : Tables :=
  set_latest_per_author (tbl_insert (latest_per_author t) (se_namespace e, se_author e)
    (se_timestamp e, se_key e))
  (set_records_by_key (tbl_insert (records_by_key t) (se_namespace e, se_key e, se_author e) tt)
  (set_records (tbl_insert (records t) (ri_byte_tuple (se_id e)) (record_row e)) t)).

Lemma entry_put_tables_run e t : entry_put_tables e t = (Ok tt, put_tables e t).
Proof. done. Qed.

Lemma put_tables_index e t : index_complete t → index_complete (put_tables e t).
Proof.
  intros Hidx ns a k v. simpl. rewrite !tbl_get_insert by apply _.
  destruct (eqb (ri_byte_tuple (se_id e)) (ns, a, k)) eqn:Heq.
  - apply eqb_eq in Heq. injection Heq as <- <- <-. intros _. by rewrite eqb_refl.
  - intros Hg. destruct (eqb (se_namespace e, se_key e, se_author e) (ns, k, a)); [done|].
    by eapply Hidx.
Qed.

Definition remove_tables (k : RecordIdentifier) (f : DocRecord → bool) t : nat * Tables :=
  let r := tbl_extract_from_if (records t)
    (RecordsBounds_author_prefix (ri_namespace k) (ri_author k) (ri_key k))
    (λ _ v, f (row_record v)) in
  (length r.1, set_records r.2 t).

Lemma remove_tables_index k f t : index_complete t → index_complete (remove_tables k f t).2.
Proof.
  intros Hidx ns a key v. simpl. rewrite tbl_get_extract by apply _.
  destruct (tbl_get (records t) (ns, a, key)) as [w|] eqn:Hg; [|done]. intros _.
  by eapply Hidx.
Qed.

Lemma tuple_key_eq (k k' : RecordIdentifier) :
  eqb (ri_byte_tuple k) (ri_byte_tuple k') = eqb k k'.
Proof. unfold eqb. by rewrite ri_cmp_tuple. Qed.

#[export] Instance StoreInstance_ranger_ok :
  RangerStoreOk StoreInstance SignedEntry RecordIdentifier DocRecord RejectId StoreErr.
Proof.
  split.
  - intros i _. apply namespace_entries_sorted.
  - intros i e _ He. by apply elem_of_namespace_entries in He as [? _].
  - intros i k e _ Hl. simpl in Hl. apply fmap_Some in Hl as (v & _ & ->).
    change (se_id (into_entry (ri_byte_tuple k) v) = k). by rewrite into_entry_id, ri_of_to_tuple.
  - intros i Hinv. simpl. unfold inst_get_first. wp_step. wp_step. wp_step.
    eapply wp_mono; [by apply read_records_wp|]. intros t i' [-> Hs]. wp_step.
    split; [done|]. unfold first_record, RecordsRange_with_bounds.
    destruct (tbl_range _ _) as [|[id v] l]; [done|].
    change (ri_of_tuple id = se_id (into_entry id v)). by rewrite into_entry_id.
  - intros i r Hinv Hr. by apply inst_get_range_wp, range_ok_not_foreign.
  - intros i r Hinv Hr. simpl. unfold inst_get_fingerprint. wp_step.
    eapply wp_mono; [by apply inst_get_range_wp, range_ok_not_foreign|].
    intros es i' [-> Hs]. wp_step. done.
  - intros i k Hinv. simpl. unfold inst_prefixes_of. wp_step.
    eapply wp_mono; [by apply tables_inst_wp|]. intros t i' [-> Hs]. wp_step.
    split; [|done]. intros p. rewrite elem_of_parents.
    rewrite !andb_true_iff, !eqb_eq, !negb_true_iff, Nat.eqb_neq, starts_with_spec.
    assert (into_entry (ri_byte_tuple (se_id p)) <$>
      tbl_get (records (view (si_store i))) (ri_byte_tuple (se_id p)) = Some p ↔
      tbl_get (records (view (si_store i))) (ri_byte_tuple (se_id p)) = Some (record_row p)) as ->.
    { destruct (tbl_get (records (view (si_store i))) (ri_byte_tuple (se_id p))) as [v|];
        cbn [fmap option_fmap option_map]; [|done].
      split; intros Heq; apply (inj Some) in Heq.
      - rewrite <- (row_into_entry (ri_byte_tuple (se_id p)) v). by rewrite Heq.
      - by rewrite Heq, into_entry_row. }
    assert (length (ri_key (se_id p)) ≠ 0 ↔ se_key p ≠ []) as ->
      by (change (ri_key (se_id p)) with (se_key p); destruct (se_key p); simpl; naive_solver lia).
    naive_solver.
  - intros i k f Hinv. simpl. unfold inst_remove_prefix_filtered.
    pose proof Hinv as (_ & Hidx & _). eapply wp_mono.
    { apply (modify_inst_wp _ i (remove_tables k f (view (si_store i))).1
        (remove_tables k f (view (si_store i))).2 Hinv); [|by apply remove_tables_index].
      unfold remove_tables. st_red. by destruct (tbl_extract_from_if _ _ _). }
    intros n i' (-> & Hw & Hv & _). split; [done|]. intros k'. simpl. rewrite Hv. simpl.
    rewrite tbl_get_extract by apply _.
    destruct (tbl_get (records (view (si_store i))) (ri_byte_tuple k')) as [v|]; [|done].
    cbn [mbind option_bind fmap option_fmap option_map]. rewrite into_entry_record. by destruct (in_bounds _ _ && f (row_record v)).
  - intros i e Hinv _. simpl. pose proof Hinv as (_ & Hidx & _). eapply wp_mono.
    { apply (modify_inst_wp _ i tt (put_tables e (view (si_store i))) Hinv); [done|].
      by apply put_tables_index. }
    intros _ i' (_ & Hw & Hv & _). split; [done|]. intros k'. simpl. rewrite Hv. simpl.
    rewrite tbl_get_insert, tuple_key_eq by apply _.
    destruct (eqb (se_id e) k') eqn:Hk; [|done]. apply eqb_eq in Hk as <-.
    cbn [fmap option_fmap option_map]. by rewrite into_entry_row.
  - intros v w. apply DocRecord_cmp_antisym.
  - intros e k. simpl. rewrite !andb_true_iff, !eqb_eq. intros [[[[-> ->] _] Hs] _].
    destruct k as [n a key]. apply author_key_bounds_in. simpl. split_and!; [done|done|by left].
Qed.

(** ** What the store does, in terms of its tables *)

(** A range read serves this replica only.  A range with a boundary of
    another namespace is refused and nothing is read; any other range yields
    exactly the replica's entries in it, in key order (first the part below
    [y] when the range wraps around), every one of this namespace, and
    changes nothing a caller can see. *)
Theorem get_range_spec i (r : Range RecordIdentifier) : rs_inv i →
  if boundary_foreign (si_namespace i) r
  then inst_get_range r i = (Err ErrForeignBoundary, i)
  else wp (inst_get_range r) i (λ es i',
    (∀ e, e ∈ es ↔ in_range r e = true ∧ se_namespace e = si_namespace i
       ∧ tbl_get (records (read_source i)) (ri_byte_tuple (se_id e)) = Some (record_row e))
    ∧ StronglySorted (key_lt re_key) es ∧ rs_same i i').
Proof.
  intros Hinv. destruct (boundary_foreign (si_namespace i) r) eqn:Hf.
  - unfold inst_get_range. st_red. by rewrite Hf.
  - eapply wp_mono; [by apply inst_get_range_wp|]. intros es i' [-> Hs]. split_and!; [| |done].
    + intros e. rewrite elem_of_filter_list. simpl. rewrite elem_of_namespace_entries. tauto.
    + apply (sorted_filter re_key), namespace_entries_sorted.
Qed.

(** A live record of [e]'s author that [put] compares [e] with, and that is
    at least as new. *)
Definition superseding t e q : Prop :=
  tbl_get (records t) (ri_byte_tuple (se_id q)) = Some (record_row q)
  ∧ se_namespace q = se_namespace e ∧ se_author q = se_author e
  ∧ se_key q ≠ [] ∧ se_key q `prefix_of` se_key e ∧ se_is_empty q = false
  ∧ leb (se_record e) (se_record q) = true.

Lemma live_get i q :
  rs_live i (se_id q) = Some q ↔
    tbl_get (records (view (si_store i))) (ri_byte_tuple (se_id q)) = Some (record_row q).
Proof.
  simpl. destruct (tbl_get _ (ri_byte_tuple (se_id q))) as [v|];
    cbn [fmap option_fmap option_map]; [|done].
  split; intros Heq; apply (inj Some) in Heq.
  - rewrite <- (row_into_entry (ri_byte_tuple (se_id q)) v). by rewrite Heq.
  - by rewrite Heq, into_entry_row.
Qed.

Lemma superseded_superseding i e :
  superseded i e ↔ ∃ q, superseding (view (si_store i)) e q.
Proof.
  unfold superseded, superseding. apply exist_proper. intros q.
  change (re_key q) with (se_id q). rewrite live_get. simpl.
  rewrite !andb_true_iff, !eqb_eq, !negb_true_iff, Nat.eqb_neq, starts_with_spec.
  change (ri_key (se_id q)) with (se_key q).
  assert (length (se_key q) ≠ 0 ↔ se_key q ≠ []) as -> by (destruct (se_key q); simpl; naive_solver lia).
  naive_solver.
Qed.

Definition put_effect t e t' : Prop :=
  (∀ id, tbl_get (records t') id =
     if eqb (ri_byte_tuple (se_id e)) id then Some (record_row e)
     else v ← tbl_get (records t) id;
       if in_bounds (RecordsBounds_author_prefix (se_namespace e) (se_author e) (se_key e)) id
          && geb (se_record e) (row_record v)
       then None else Some v)
  ∧ tbl_get (latest_per_author t') (se_namespace e, se_author e) = Some (se_timestamp e, se_key e).

Lemma would_insert_inst_wp i e : rs_inv i →
  wp (would_insert e) i (λ b i', (if b then ¬ superseded i e else superseded i e)
    ∧ rs_inv i' ∧ view (si_store i') = view (si_store i)).
Proof.
  intros Hinv. eapply wp_mono; [apply wp_and; [by apply would_insert_wp|]|].
  { instantiate (1 := λ _ i', view (si_store i') = view (si_store i)).
    unfold would_insert. wp_step. simpl. unfold inst_prefixes_of. wp_step. apply on_store_wp.
    eapply wp_mono; [apply tables_spec, Hinv|]. intros t s' (-> & Hv & Hb). wp_step. by wp_step. }
  intros b i' [[Hb Hs] Hv]. split_and!; [done|apply Hs|done].
Qed.

Lemma put_inst_wp i e : rs_inv i →
  wp (put e) i (λ o i', rs_inv i' ∧
    if o is Inserted n then (¬ ∃ q, superseding (view (si_store i)) e q)
        ∧ put_effect (view (si_store i)) e (view (si_store i'))
    else (∃ q, superseding (view (si_store i)) e q)
        ∧ view (si_store i') = view (si_store i)).
Proof.
  intros Hinv. unfold put. wp_step. eapply wp_mono; [by apply would_insert_inst_wp|].
  intros b i1 (Hb & Hinv1 & Hv1). 
  destruct b; rewrite superseded_superseding in Hb; cbn [negb]; [|by wp_step].
  wp_step. pose proof Hinv1 as (_ & Hidx1 & _).
  set (f := λ v, geb (re_value e) v).
  eapply wp_mono.
  { apply (modify_inst_wp _ i1 (remove_tables (re_key e) f (view (si_store i1))).1
      (remove_tables (re_key e) f (view (si_store i1))).2 Hinv1); [|by apply remove_tables_index].
    unfold remove_tables. st_red. by destruct (tbl_extract_from_if _ _ _). }
  intros n i2 (-> & Hw2 & Hv2 & _). wp_step. pose proof (wrote_inv _ _ Hw2) as (_ & Hidx2 & _).
  eapply wp_mono.
  { apply (modify_inst_wp _ i2 tt (put_tables e (view (si_store i2)))); [apply Hw2|done|].
    by apply put_tables_index. }
  intros _ i3 (_ & Hw3 & Hv3 & _). wp_step. split; [apply Hw3|]. split; [done|].
  rewrite Hv3, Hv2, Hv1. split.
  - intros id. simpl. rewrite tbl_get_insert by apply _.
    destruct (eqb (ri_byte_tuple (se_id e)) id); [done|]. by rewrite tbl_get_extract by apply _.
  - simpl. by rewrite tbl_get_insert, eqb_refl by apply _.
Qed.

(** C8: an insertion into the store.  It is refused exactly when a live,
    non-empty record of the same author at a non-empty prefix of the key
    (the key itself included) is at least as new, and then nothing visible
    changes; otherwise the record is stored, the records of the author that
    the prefix scan reaches and that are not newer are gone, all other
    records stay, and the author's head becomes this entry.  The by-key
    index stays complete. *)
Theorem store_put_spec i e : rs_inv i →
  wp (put e) i (λ o i', rs_inv i' ∧
    if o is Inserted n then (¬ ∃ q, superseding (view (si_store i)) e q)
        ∧ put_effect (view (si_store i)) e (view (si_store i'))
    else (∃ q, superseding (view (si_store i)) e q)
        ∧ view (si_store i') = view (si_store i)).
Proof. apply put_inst_wp. Qed.

(** Deletion markers do not protect against older entries.  If every
    record of the author at a prefix of the key, the key itself included, is
    a deletion marker or sits at the empty key, the entry is taken in
    whatever its timestamp: a deletion made by a newer marker is undone by
    any older entry that arrives after it. *)
Theorem tombstones_do_not_supersede i e : rs_inv i →
  (∀ q, tbl_get (records (view (si_store i))) (ri_byte_tuple (se_id q)) = Some (record_row q) →
     se_key q `prefix_of` se_key e → se_is_empty q = true ∨ se_key q = []) →
  wp (put e) i (λ o i', o ≠ NotInserted
    ∧ tbl_get (records (view (si_store i'))) (ri_byte_tuple (se_id e)) = Some (record_row e)).
Proof.
  intros Hinv Hall. eapply wp_mono; [by apply put_inst_wp|].
  intros [|n] i' [_ Ho].
  - destruct Ho as [(q & Hq & _ & _ & Hne & Hp & Hem & _) _].
    destruct (Hall q Hq Hp); congruence.
  - destruct Ho as [_ [Hr _]]. split; [done|]. by rewrite Hr, eqb_refl.
Qed.

(** ** Session snapshots *)

(** A step that leaves the namespace and the snapshot of the instance. *)
Definition keeps_frame {A} (m : ST StoreInstance StoreErr A) : Prop :=
  ∀ i, si_namespace (m i).2 = si_namespace i
    ∧ si_session_snapshot (m i).2 = si_session_snapshot i.

Lemma keeps_ret {A} (a : A) : keeps_frame (mret a).
Proof. done. Qed.
Lemma keeps_bind {A B} (m : ST StoreInstance StoreErr A) (f : A → ST StoreInstance StoreErr B) :
  keeps_frame m → (∀ a, keeps_frame (f a)) → keeps_frame (m ≫= f).
Proof.
  intros Hm Hf i. destruct (Hm i) as [Hn Hs]. unfold mbind, ST_bind.
  destruct (m i) as [[a|e|] i']; simpl in *; [|done|done].
  destruct (Hf a i') as [-> ->]. done.
Qed.
Lemma keeps_on_store {A} (m : ST Store StoreErr A) : keeps_frame (on_store m).
Proof. intros i. unfold on_store, st_zoom. by destruct (m (si_store i)). Qed.

Lemma put_keeps e : keeps_frame (put e).
Proof.
  apply keeps_bind.
  - apply keeps_bind; [|intros; apply keeps_ret].
    apply keeps_bind; [apply keeps_on_store|intros; apply keeps_ret].
  - intros [|]; simpl; [|apply keeps_ret].
    apply keeps_bind; [apply keeps_on_store|]. intros n.
    apply keeps_bind; [apply keeps_on_store|]. intros []. apply keeps_ret.
Qed.

(** A session reads from its snapshot, frozen: with a snapshot set, what
    any range read, any fingerprint and the first key answer is the same
    before and after any insertion, and so is the range check; the
    comparison that decides about insertion is made on the live records
    instead ([store_put_spec]). *)
Theorem session_snapshot_frozen i e (r : Range RecordIdentifier) t :
  si_session_snapshot i = Some t →
  let i' := (put e i).2 in
  (inst_get_range r i').1 = (inst_get_range r i).1
  ∧ (inst_get_fingerprint r i').1 = (inst_get_fingerprint r i).1
  ∧ (inst_get_first i').1 = (inst_get_first i).1
  ∧ si_session_snapshot i' = Some t.
Proof.
  intros Hsnap i'. destruct (put_keeps e i) as [Hns Hs]. fold i' in Hns, Hs.
  rewrite Hsnap in Hs.
  assert (∀ j, si_session_snapshot j = Some t → si_namespace j = si_namespace i →
    inst_get_range r j = (let '(b, wb) := get_range_bounds (si_namespace i) r in
      if boundary_foreign (si_namespace i) r then Err ErrForeignBoundary
      else Ok (RecordsRange_with_bounds (records t) b
        ++ default [] (RecordsRange_with_bounds (records t) <$> wb)), j)) as Hrange.
  { intros j Hj Hnj. unfold inst_get_range, read_records. st_red. rewrite Hnj.
    destruct (boundary_foreign (si_namespace i) r); destruct (get_range_bounds (si_namespace i) r);
      [done|]. by rewrite Hj. }
  unfold inst_get_fingerprint, mbind, ST_bind. rewrite (Hrange i' Hs Hns), (Hrange i Hsnap eq_refl).
  split_and!; [done| | |done].
  - destruct (get_range_bounds _ _). by destruct (boundary_foreign _ _).
  - unfold inst_get_first, read_records. st_red. by rewrite Hs, Hsnap, Hns.
Qed.
End instance_facts.

(** ** Concrete instances *)
Lemma demo_index : index_complete demo_tables.
Proof.
  intros ns a k v. change (tbl_get (tbl_insert (tbl_empty : tbl RecordsId RecordsValue)
    (demo_ns, demo_author, [x41]) (demo_row 7)) (ns, a, k) = Some v →
    tbl_get (tbl_insert (tbl_empty : tbl RecordsByKeyId unit) (demo_ns, [x41], demo_author) tt)
      (ns, k, a) = Some tt).
  rewrite !tbl_get_insert, !tbl_get_empty by apply _.
  destruct (eqb (demo_ns, demo_author, [x41]) (ns, a, k)) eqn:Heq; [|done].
  apply eqb_eq in Heq. injection Heq as <- <- <-. intros _. by rewrite eqb_refl.
Qed.

Definition demo_instance : StoreInstance := StoreInstance_new demo_ns demo_store.
Definition demo_session : StoreInstance :=
  with_session_snapshot demo_ns demo_store (Some demo_tables).

Lemma demo_instance_inv : rs_inv demo_instance.
Proof. exact (conj demo_store_wf (conj demo_index cache_wf_empty)). Qed.

Lemma get_range_spec_witness :
  inst_get_range (Build_Range (RecordIdentifier_new (arr_rep 32 x05) demo_author [])
    (RecordIdentifier_new demo_ns demo_author [])) demo_instance
  = (Err ErrForeignBoundary, demo_instance).
Proof.
  exact (get_range_spec demo_instance
    (Build_Range (RecordIdentifier_new (arr_rep 32 x05) demo_author [])
      (RecordIdentifier_new demo_ns demo_author [])) demo_instance_inv).
Defined.

Lemma store_put_spec_witness :
  wp (put (demo_signed x42 9)) demo_instance (λ o i', rs_inv i' ∧
    if o is Inserted n
    then (¬ ∃ q, superseding (view (si_store demo_instance)) (demo_signed x42 9) q)
        ∧ put_effect (view (si_store demo_instance)) (demo_signed x42 9) (view (si_store i'))
    else (∃ q, superseding (view (si_store demo_instance)) (demo_signed x42 9) q)
        ∧ view (si_store i') = view (si_store demo_instance)).
Proof. exact (store_put_spec demo_instance (demo_signed x42 9) demo_instance_inv). Defined.

(** A document whose only record is a deletion marker at time 9. *)
Definition tombstone_tables : Tables :=
  set_records (tbl_insert tbl_empty (demo_ns, demo_author, [x41])
    (9%N, arr_rep 64 x00, arr_rep 64 x00, 0%N, Hash_EMPTY)) demo_tables.
Definition tombstone_instance : StoreInstance :=
  StoreInstance_new demo_ns {| st_db := db_create tombstone_tables; st_transaction := CtNone;
    st_open_replicas := ∅; st_pubkeys := ∅; st_clock := 0 |}.

Lemma tombstone_record id v :
  tbl_get (records tombstone_tables) id = Some v →
  id = (demo_ns, demo_author, [x41]) ∧ v = (9%N, arr_rep 64 x00, arr_rep 64 x00, 0%N, Hash_EMPTY).
Proof.
  change (tbl_get (tbl_insert (tbl_empty : tbl RecordsId RecordsValue)
    (demo_ns, demo_author, [x41]) (9%N, arr_rep 64 x00, arr_rep 64 x00, 0%N, Hash_EMPTY)) id
    = Some v → id = (demo_ns, demo_author, [x41])
      ∧ v = (9%N, arr_rep 64 x00, arr_rep 64 x00, 0%N, Hash_EMPTY)).
  rewrite tbl_get_insert, tbl_get_empty by apply _.
  destruct (eqb (demo_ns, demo_author, [x41]) id) eqn:Heq; [|done].
  apply eqb_eq in Heq as <-. by intros [= <-].
Qed.

Lemma tombstone_instance_inv : rs_inv tombstone_instance.
Proof.
  split; [exact I|]. split; [|exact cache_wf_empty]. intros ns a k v Hg.
  destruct (tombstone_record (ns, a, k) v Hg) as [Heq _]. injection Heq as -> -> ->.
  change (tbl_get (tbl_insert (tbl_empty : tbl RecordsByKeyId unit)
    (demo_ns, [x41], demo_author) tt) (demo_ns, [x41], demo_author) = Some tt).
  apply tbl_get_insert_eq.
Qed.

(** An entry of time 5 replaces the deletion marker of time 9. *)
Lemma tombstones_do_not_supersede_witness :
  wp (put (demo_signed x41 5)) tombstone_instance (λ o i', o ≠ NotInserted
    ∧ tbl_get (records (view (si_store i'))) (ri_byte_tuple (se_id (demo_signed x41 5)))
      = Some (record_row (demo_signed x41 5))).
Proof.
  apply (tombstones_do_not_supersede tombstone_instance (demo_signed x41 5) tombstone_instance_inv).
  intros q Hq _. left. destruct (tombstone_record _ _ Hq) as [_ Hrow].
  apply (f_equal snd) in Hrow. unfold se_is_empty, DocRecord_is_empty. apply eqb_eq.
  exact Hrow.
Defined.

Lemma session_snapshot_frozen_witness :
  (inst_get_first (put (demo_signed x42 9) demo_session).2).1 = (inst_get_first demo_session).1.
Proof.
  exact (proj1 (proj2 (proj2 (session_snapshot_frozen demo_session (demo_signed x42 9)
    (Build_Range ri_default ri_default) demo_tables eq_refl)))).
Defined.

(** The theorems of Ranger, at this store. *)
Lemma demo_wrote : rs_wrote demo_instance demo_instance.
Proof. split; [exact demo_instance_inv|done|done]. Qed.

Lemma demo_range_all : range_ok demo_instance (Build_Range ri_default ri_default).
Proof. by left. Qed.

Lemma fingerprint_reply_witness :
  wp (process_fingerprint SyncConfig_default (λ (_ : unit) (_ : SignedEntry), Missing)
    [] (Build_RangeFingerprint (Build_Range ri_default ri_default) (arr_rep 32 x00)))
    (demo_instance, tt) (λ out' p', rs_same demo_instance p'.1).
Proof.
  destruct (fingerprint_reply SyncConfig_default (λ (_ : unit) (_ : SignedEntry), Missing)
    [] (Build_RangeFingerprint (Build_Range ri_default ri_default) (arr_rep 32 x00))
    (demo_instance, tt) (le_n 2) (or_introl eq_refl) demo_instance_inv demo_range_all)
    as (out & p' & Heq & ps & _ & _ & Hs & _).
  exists out, p'. exact (conj Heq Hs).
Defined.

Lemma put_spec_witness :
  wp (put (demo_signed x42 9)) demo_instance (λ o s', rs_wrote demo_instance s').
Proof.
  destruct (proj1 (put_spec demo_instance (demo_signed x42 9) demo_instance_inv eq_refl))
    as (o & s' & Heq & Hw & _).
  exists o, s'. exact (conj Heq Hw).
Defined.

Definition demo_validate (i : StoreInstance) (e : SignedEntry) (c : ContentStatus)
    : ValidateOutcome :=
  if eqb (se_namespace e) demo_ns then Accept else Reject.

Lemma demo_validate_ok (i : StoreInstance) (e : SignedEntry) (c : ContentStatus) :
  rs_inv i → demo_validate i e c = Accept → rs_entry_ok demo_instance e.
Proof.
  intros _. unfold demo_validate. destruct (eqb _ _) eqn:Hns; [|done]. intros _.
  by apply eqb_eq in Hns.
Qed.

Definition demo_item : RangeItem SignedEntry RecordIdentifier :=
  Build_RangeItem (Build_Range ri_default ri_default) [(demo_signed x42 9, Missing)] false.

Lemma item_reply_witness :
  wp (process_item demo_validate (λ _ _ _ (w : unit), w) (λ (_ : unit) (_ : SignedEntry), Missing)
    [] demo_item) (demo_instance, tt) (λ _ p',
      stored_from demo_validate (ri_values demo_item) demo_instance p'.1).
Proof.
  destruct (item_reply (λ (_ : unit) (_ : SignedEntry), Missing) demo_validate
    (λ _ _ _ (w : unit), w) demo_instance demo_validate_ok [] demo_item (demo_instance, tt)
    demo_wrote (λ _, demo_range_all)) as (out & p' & Heq & p1 & rejs & _ & _ & _ & _ & Hst & _).
  exists out, p'. exact (conj Heq Hst).
Defined.

Lemma process_message_safe_witness :
  wp (process_message SyncConfig_default demo_validate (λ _ _ _ (w : unit), w)
    (λ (_ : unit) (_ : SignedEntry), Missing) [MpItem demo_item])
    (demo_instance, tt) (λ reply p',
      stored_from demo_validate (message_values (R := RejectId) [MpItem demo_item])
        demo_instance p'.1).
Proof.
  destruct (process_message_safe SyncConfig_default (λ (_ : unit) (_ : SignedEntry), Missing)
    demo_validate (λ _ _ _ (w : unit), w) demo_instance demo_validate_ok [MpItem demo_item]
    (demo_instance, tt) eq_refl demo_wrote) as (out & p' & Heq & Hst & _).
  - split.
    + intros item [[= ->]|[]%elem_of_nil]%elem_of_cons _. exact demo_range_all.
    + intros fp [[=]|[]%elem_of_nil]%elem_of_cons.
  - exists out, p'. exact (conj Heq Hst).
Defined.
