(* ===== verification/Migrations.v ===== *)
(** * Migrations of the database

    Models [src/store/fs/migrations.rs], [src/store/fs/migrate_redb_v2_tuples.rs]
    and the opening of a store in [src/store/fs.rs]: the four migrations that
    run whenever a store is opened, each in a transaction of its own, and the
    copy of a database of the old file format, with the states in which a
    crash can leave the directory.  Proved: what each migration leaves in the
    tables, that an interrupted run is completed by the next one, and what
    opening finds after a crash. *)
From S2P Require Import Prelude Redb Keys Entry Heads Query Bounds Ranger Info Store StoreInstance.

Section migrations.
Context `{Redb, Crypto, Postcard DownloadPolicy}.

(** The database file: the tables of Store, and the table [namespaces-1] of
    earlier versions where it exists. *)
Record Disk := {
  dk_tables : Tables;
  dk_namespaces_v1 : option (table arr32 arr32 _);
}.
Definition set_dk_tables (t : Tables) (d : Disk) : Disk :=
  {| dk_tables := t; dk_namespaces_v1 := dk_namespaces_v1 d |}.

Inductive MigrateOutcome := MoSkip | MoExecute (rows : nat).

Definition tbl_is_empty {K V} `{Cmp K} (t : tbl K V) : bool :=
  match tbl_iter t with [] => true | _ => false end.

(** ** The migrations *)
Abbreviation HeadsMap := (gmap (arr32 * arr32) (N * bytes)).
Definition heads_row (heads : HeadsMap) (row : RecordsId * RecordsValue) : HeadsMap :=
  let '((namespace, author, key), (timestamp, _, _, _, _)) := row in
  match heads !! (namespace, author) with
  | Some e => if (e.1 <=? timestamp)%N then <[(namespace, author) := (timestamp, key)]> heads else heads
  | None => <[(namespace, author) := (timestamp, key)]> heads
  end.

Definition migration_001_populate_latest_table (d : Disk) : MigrateOutcome * Disk :=
  let t := dk_tables d in
  if negb (tbl_is_empty (latest_per_author t)) || tbl_is_empty (records t) then (MoSkip, d)
  else
    let heads := foldl heads_row ∅ (tbl_iter (records t)) in
    let latest := foldl (λ l p, tbl_insert l p.1 p.2) (latest_per_author t) (map_to_list heads) in
    (MoExecute (size heads), set_dk_tables (set_latest_per_author latest t) d).

Definition v1_row (acc : nat * tbl arr32 (N * arr32)) (row : arr32 * arr32)
    : nat * tbl arr32 (N * arr32) :=
  let capability := CapWrite (NamespaceSecret_from_bytes row.2) in
  (S acc.1, tbl_insert acc.2 (Capability_id capability) (Capability_raw capability)).

Definition migration_002_namespaces_populate_v2 (d : Disk) : MigrateOutcome * Disk :=
  let t := dk_tables d in
  match dk_namespaces_v1 d with
  | None => (MoSkip, d)
  | Some v1 =>
      let '(entries, v2) := foldl v1_row (0, namespaces t) (tbl_iter v1) in
      (MoExecute entries, set_dk_tables (set_namespaces v2 t) d)
  end.

Definition migration_003_namespaces_delete_v1 (d : Disk) : MigrateOutcome * Disk :=
  match dk_namespaces_v1 d with
  | None => (MoSkip, d)
  | Some _ => (MoExecute 1, {| dk_tables := dk_tables d; dk_namespaces_v1 := None |})
  end.

Definition index_row (acc : nat * tbl RecordsByKeyId unit) (row : RecordsId * RecordsValue)
    : nat * tbl RecordsByKeyId unit :=
  let '(namespace, author, key) := row.1 in
  (S acc.1, tbl_insert acc.2 (namespace, key, author) tt).

Definition migration_004_populate_by_key_index (d : Disk) : MigrateOutcome * Disk :=
  let t := dk_tables d in
  if negb (tbl_is_empty (records_by_key t)) then (MoSkip, d)
  else
    let '(len, by_key) := foldl index_row (0, records_by_key t) (tbl_iter (records t)) in
    (MoExecute len, set_dk_tables (set_records_by_key by_key t) d).

(** One migration in one write transaction, dropped if there is nothing to
    do. *)
Definition run_migration (db : database Disk) (f : Disk → MigrateOutcome * Disk) : database Disk :=
  let '(outcome, d) := f (db_begin_write db) in
  match outcome with MoExecute _ => db_commit db d | MoSkip => db end.

Definition migrations : list (Disk → MigrateOutcome * Disk) :=
  [migration_001_populate_latest_table; migration_002_namespaces_populate_v2;
   migration_003_namespaces_delete_v1; migration_004_populate_by_key_index].
Definition run_migrations (db : database Disk) : database Disk := foldl run_migration db migrations.

(** [Store::new_impl]: [Tables::new] creates the tables that are missing,
    empty. *)
Definition Store_new_impl (now : N) (db : database Disk) : Store :=
  {| st_db := db_create (dk_tables (db_begin_read (run_migrations db)));
     st_transaction := CtNone; st_open_replicas := ∅; st_pubkeys := ∅; st_clock := now |}.
Definition Disk_empty : Disk := {| dk_tables := Tables_empty; dk_namespaces_v1 := None |}.
Definition Store_memory (now : N) : Store := Store_new_impl now (db_create Disk_empty).

(** ** Databases of the old file format

    The tables of such a file, those it has. *)
Record OldDisk := {
  od_authors : option (table arr32 arr32 _);
  od_namespaces_v1 : option (table arr32 arr32 _);
  od_namespaces : option (table arr32 (N * arr32) _);
  od_download_policy : option (table arr32 bytes _);
  od_namespace_peers : option (multimap arr32 (Nanos * PeerIdBytes) _ _);
  od_records : option (table RecordsId RecordsValue _);
  od_latest_per_author : option (table LatestPerAuthorKey LatestPerAuthorValue _);
  od_records_by_key : option (table RecordsByKeyId unit _);
}.

(** The macros [migrate_table] and [migrate_multimap_table]. *)
Definition migrate_table {K V} `{Cmp K} (old : option (tbl K V)) (new : tbl K V) : tbl K V :=
  match old with
  | Some old_t => foldl (λ t p, tbl_insert t p.1 p.2) new (tbl_iter old_t)
  | None => new
  end.
Definition migrate_multimap_table {K V} `{Cmp K, Cmp V} (old : option (mmap K V)) (new : mmap K V)
    : mmap K V :=
  match old with
  | Some old_t => foldl (λ m p, foldl (λ m v, mm_insert m p.1 v) m p.2) new (mm_iter old_t)
  | None => new
  end.

Definition migrate_tables (old : OldDisk) : Disk := {|
  dk_tables := {|
    records := migrate_table (od_records old) tbl_empty;
    records_by_key := migrate_table (od_records_by_key old) tbl_empty;
    namespaces := migrate_table (od_namespaces old) tbl_empty;
    latest_per_author := migrate_table (od_latest_per_author old) tbl_empty;
    namespace_peers := migrate_multimap_table (od_namespace_peers old) mm_empty;
    download_policy := migrate_table (od_download_policy old) tbl_empty;
    authors := migrate_table (od_authors old) tbl_empty;
  |};
  dk_namespaces_v1 := (λ v1, migrate_table (Some v1) tbl_empty) <$> od_namespaces_v1 old;
|}.

(** The directory: the database, the temporary file next to it, the backup. *)
Inductive DbFile := OldFormat (old : OldDisk) | NewFormat (db : database Disk).
Record Files := {
  fl_source : option DbFile;
  fl_target : option DbFile;
  fl_backup : option DbFile;
}.

(** What [migrate_redb_v2_tuples::run] goes through: the temporary database
    is created, filled and committed, then the source is renamed to the
    backup, then the temporary file takes its place. *)
Definition run_states (old : OldDisk) (fs : Files) : list Files :=
  let created := NewFormat (db_create Disk_empty) in
  let filled := NewFormat (db_commit (db_create Disk_empty) (migrate_tables old)) in
  [ {| fl_source := fl_source fs; fl_target := Some created; fl_backup := fl_backup fs |};
    {| fl_source := fl_source fs; fl_target := Some filled; fl_backup := fl_backup fs |};
    {| fl_source := None; fl_target := Some filled; fl_backup := fl_source fs |};
    {| fl_source := Some filled; fl_target := None; fl_backup := fl_source fs |} ].
Definition redb_v2_tuples_run (old : OldDisk) (fs : Files) : Files := default fs (last (run_states old fs)).

(** [open_database]: a file that is not there is created. *)
Definition open_database (fs : Files) : DbFile * Files :=
  match fl_source fs with
  | Some f => (f, fs)
  | None =>
      let f := NewFormat (db_create Disk_empty) in
      (f, {| fl_source := Some f; fl_target := fl_target fs; fl_backup := fl_backup fs |})
  end.

Inductive PersistentErr := PeNeedsMigration | PeTableTypeMismatch.
(** Opening a database file runs its migrations. *)
Definition open_store (now : N) (db : database Disk) (fs : Files) : result PersistentErr Store * Files :=
  (Ok (Store_new_impl now db),
   {| fl_source := Some (NewFormat (run_migrations db)); fl_target := fl_target fs;
      fl_backup := fl_backup fs |}).
(** [Store::persistent]; [migration] is the feature [redb-v2-migration]. *)
Definition Store_persistent (migration : bool) (now : N) (fs : Files)
    : result PersistentErr Store * Files :=
  match open_database fs with
  | (NewFormat db, fs) => open_store now db fs
  | (OldFormat old, fs) =>
      if migration then
        match open_database (redb_v2_tuples_run old fs) with
        | (NewFormat db, fs) => open_store now db fs
        | (OldFormat _, fs) => (Err PeTableTypeMismatch, fs)
        end
      else (Err PeNeedsMigration, fs)
  end.
End migrations.

Section migration_facts.
Context `{RedbOk, Crypto, Postcard DownloadPolicy}.
Implicit Types (d : Disk).

(** A migration on the database it finds. *)
Definition migrate (f : Disk → MigrateOutcome * Disk) d : Disk :=
  let '(outcome, d') := f d in match outcome with MoExecute _ => d' | MoSkip => d end.
Definition migrated d : Disk := foldl (λ d f, migrate f d) d migrations.

Lemma run_migration_read db f : db_begin_read (run_migration db f) = migrate f (db_begin_read db).
Proof.
  unfold run_migration, migrate. rewrite db_write_read. destruct (f (db_begin_read db)) as [[|n] d];
    [done|apply db_read_commit].
Qed.
Lemma run_list_read fs db :
  db_begin_read (foldl run_migration db fs) = foldl (λ d f, migrate f d) (db_begin_read db) fs.
Proof. revert db. induction fs as [|f fs IH]; intros db; simpl; [done|]. by rewrite IH, run_migration_read. Qed.
Lemma run_migrations_read db : db_begin_read (run_migrations db) = migrated (db_begin_read db).
Proof. apply run_list_read. Qed.

Lemma tbl_is_empty_true {K V} `{CmpOk K} (t : tbl K V) :
  tbl_is_empty t = true ↔ ∀ k, tbl_get t k = None.
Proof.
  unfold tbl_is_empty. split.
  - intros Hi k. destruct (tbl_get t k) as [v|] eqn:Hk; [|done]. apply tbl_iter_get in Hk; [|apply _..].
    destruct (tbl_iter t); [by apply elem_of_nil in Hk|done].
  - intros Hk. destruct (tbl_iter t) as [|[k v] l] eqn:Hl; [done|].
    assert ((k, v) ∈ tbl_iter t) as Hin by (rewrite Hl; left).
    apply tbl_iter_get in Hin; [|apply _..]. by rewrite Hk in Hin.
Qed.

(** Filling a table row by row. *)
Lemma fill_get {K V} `{CmpOk K} (l : list (K * V)) (t : tbl K V) k : NoDup l.*1 →
  (∀ v, (k, v) ∈ l → tbl_get (foldl (λ t p, tbl_insert t p.1 p.2) t l) k = Some v)
  ∧ ((∀ v, (k, v) ∉ l) → tbl_get (foldl (λ t p, tbl_insert t p.1 p.2) t l) k = tbl_get t k).
Proof.
  revert t. induction l as [|[k1 v1] l IH]; intros t; simpl.
  { intros _. split; [by intros v ?%elem_of_nil|done]. }
  intros [Hni Hnd]%NoDup_cons. destruct (IH (tbl_insert t k1 v1) Hnd) as [Hin Hout]. split.
  - intros v [[= -> ->]|Hv]%elem_of_cons; [|by apply Hin]. rewrite Hout; [apply tbl_get_insert_eq|].
    intros v Hv. destruct Hni. apply list_elem_of_fmap. by exists (k1, v).
  - intros Hno. rewrite Hout.
    + apply tbl_get_insert_ne. intros ->. apply (Hno v1). left.
    + intros v Hv. apply (Hno v). by right.
Qed.

Lemma tbl_iter_keys {K V} `{CmpOk K} (t : tbl K V) : NoDup (tbl_iter t).*1.
Proof.
  pose proof (tbl_iter_sorted K V t) as Hs. induction (tbl_iter t) as [|[k v] l IH]; simpl; [constructor|].
  apply StronglySorted_cons in Hs as [Hall Hs]. apply NoDup_cons. split; [|by apply IH].
  intros ([k' v'] & -> & Hin)%list_elem_of_fmap. rewrite Forall_forall in Hall. specialize (Hall _ Hin).
  unfold key_lt in Hall. simpl in Hall. by rewrite ltb_irrefl in Hall.
Qed.

Lemma migrate_table_get {K V} `{CmpOk K} (old : option (tbl K V)) k :
  tbl_get (migrate_table old tbl_empty) k = t ← old; tbl_get t k.
Proof.
  destruct old as [t|]; simpl; [|by apply tbl_get_empty, _].
  destruct (fill_get (tbl_iter t) tbl_empty k (tbl_iter_keys t)) as [Hin Hout].
  destruct (tbl_get t k) as [v|] eqn:Hk.
  - apply Hin. by apply tbl_iter_get; [apply _..|].
  - rewrite Hout; [by apply tbl_get_empty, _|]. intros v Hv. apply tbl_iter_get in Hv; [|apply _..]. congruence.
Qed.

(** *** The latest table *)
Definition row_timestamp (v : RecordsValue) : N := v.1.1.1.1.
(** Of the rows of an author the one with the greatest timestamp, and of
    those the one with the greatest key. *)
Definition newest_row (rows : list (RecordsId * RecordsValue)) (ns : NamespaceId) (a : AuthorId)
    (head : option (N * bytes)) : Prop :=
  match head with
  | None => ∀ k v, ((ns, a, k), v) ∉ rows
  | Some (ts, k) => (∃ v, ((ns, a, k), v) ∈ rows ∧ row_timestamp v = ts)
      ∧ ∀ k' v', ((ns, a, k'), v') ∈ rows →
          (row_timestamp v' < ts)%N ∨ row_timestamp v' = ts ∧ leb k' k = true
  end.

Lemma heads_row_step (rows : list (RecordsId * RecordsValue)) (h : gmap (arr32 * arr32) (N * bytes)) (n a : arr32) (k : bytes) (v : RecordsValue) :
  (∀ ns a, newest_row rows ns a (h !! (ns, a))) →
  (∀ k' v', ((n, a, k'), v') ∈ rows → ltb k' k = true) →
  ∀ ns a', newest_row (rows ++ [((n, a, k), v)]) ns a' (heads_row h ((n, a, k), v) !! (ns, a')).
Proof.
  intros Hh Hlt ns a'. pose proof (Hh ns a') as Hold. destruct v as [[[[ts sn] sa] len] hash]. simpl.
  assert (∀ k' v', ((ns, a', k'), v') ∈ rows ++ [((n, a, k), (ts, sn, sa, len, hash))] ↔
    ((ns, a', k'), v') ∈ rows ∨ (ns = n ∧ a' = a) ∧ k' = k ∧ v' = (ts, sn, sa, len, hash)) as Hrows.
  { intros k' v'. rewrite elem_of_app, list_elem_of_singleton. split; [|by intros [?|([-> ->] & -> & ->)]; [left|right]].
    intros [?|[= -> -> -> ->]]; [by left|by right]. }
  destruct (decide ((ns, a') = (n, a))) as [[= -> ->]|Hne].
  - assert (newest_row (rows ++ [((n, a, k), (ts, sn, sa, len, hash))]) n a (Some (ts, k)) ∨
      ∃ e, h !! (n, a) = Some e ∧ (ts < e.1)%N) as Hcase.
    { destruct (h !! (n, a)) as [[ts' k']|] eqn:He; [destruct (N.lt_ge_cases ts ts') as [?|Hge]; [right; by eexists|]|];
        left; (split; [eexists; rewrite Hrows; split; [by right|done]|]); intros k2 v2 [Hin|(_ & -> & ->)]%Hrows;
        try (right; split; [done|apply leb_refl]).
      - destruct Hold as [_ Hmax]. pose proof (ltb_leb _ _ (Hlt k2 v2 Hin)). specialize (Hmax k2 v2 Hin).
        destruct (N.lt_trichotomy (row_timestamp v2) ts) as [?|[?|?]]; [by left|by right|lia].
      - by destruct (Hold k2 v2). }
    destruct (h !! (n, a)) as [[ts' k']|] eqn:He.
    + simpl; destruct (N.leb_spec ts' ts) as [Hle|Hgt]; simpl.
      * rewrite lookup_insert_eq. destruct Hcase as [?|(e & [= <-] & Hlt')]; [done|simpl in Hlt'; lia].
      * rewrite He. destruct Hold as [(v & Hv & Hts) Hmax]. split.
        -- exists v. rewrite Hrows. split; [by left|done].
        -- intros k2 v2 [Hin|(_ & -> & ->)]%Hrows; [by apply Hmax|]. left. exact Hgt.
    + rewrite lookup_insert_eq. by destruct Hcase as [?|(e & ? & _)].
  - assert (heads_row h ((n, a, k), (ts, sn, sa, len, hash)) !! (ns, a') = h !! (ns, a')) as Hsame.
    { simpl. destruct (h !! (n, a)) as [[ts' k']|]; simpl; [destruct (ts' <=? ts)%N|]; by rewrite ?lookup_insert_ne. }
    simpl in Hsame. rewrite Hsame. destruct (h !! (ns, a')) as [[ts' k']|]; simpl.
    + destruct Hold as [(v & Hv & Hts) Hmax]. split; [exists v; rewrite Hrows; split; [by left|done]|].
      intros k2 v2 [Hin|([-> ->] & _)]%Hrows; [by apply Hmax|done].
    + intros k2 v2 [Hin|([-> ->] & _)]%Hrows; [by apply (Hold k2 v2)|done].
Qed.

Lemma heads_fold rows : StronglySorted (key_lt fst) rows →
  ∀ ns a, newest_row rows ns a (foldl heads_row ∅ rows !! (ns, a)).
Proof.
  induction rows as [|[[[n a] k] v] rows IH] using rev_ind; intros Hs.
  { intros ns a. simpl. rewrite lookup_empty. intros k v ?%elem_of_nil. done. }
  apply StronglySorted_app in Hs as (Hlt & Hs & _). rewrite foldl_app. simpl.
  apply heads_row_step; [by apply IH|]. intros k' v' Hin.
  specialize (Hlt _ _ Hin ltac:(left)). unfold key_lt in Hlt. simpl in Hlt.
  by rewrite pair_ltb, eqb_refl, ltb_irrefl in Hlt.
Qed.

Lemma migrated_latest d (ns : NamespaceId) (a : AuthorId) :
  let t := dk_tables d in
  let t' := dk_tables (migrate migration_001_populate_latest_table d) in
  if tbl_is_empty (latest_per_author t)
  then newest_row (tbl_iter (records t)) ns a (tbl_get (latest_per_author t') (ns, a))
  else t' = t.
Proof.
  intros t t'. unfold t', migrate, migration_001_populate_latest_table. fold t.
  destruct (tbl_is_empty (latest_per_author t)) eqn:Hl; simpl; [|done].
  pose proof (proj1 (tbl_is_empty_true (latest_per_author t)) Hl) as Hnone.
  destruct (tbl_is_empty (records t)) eqn:Hr; simpl.
  { fold t. rewrite Hnone. intros k v Hin. apply tbl_iter_get in Hin; [|apply _..].
    by rewrite (proj1 (tbl_is_empty_true (records t)) Hr) in Hin. }
  pose proof (heads_fold (tbl_iter (records t)) (tbl_iter_sorted _ _ _) ns a) as Hh.
  set (h := foldl heads_row ∅ (tbl_iter (records t))) in *.
  destruct (fill_get (map_to_list h) (latest_per_author t) (ns, a) (NoDup_fst_map_to_list h)) as [Hin Hout].
  destruct (h !! (ns, a)) as [[ts k]|] eqn:Hk.
  - by rewrite (Hin (ts, k) (proj2 (elem_of_map_to_list _ _ _) Hk)).
  - rewrite Hout, Hnone; [done|]. intros v Hv%elem_of_map_to_list. congruence.
Qed.

(** *** The namespaces of the first version *)
Definition v1_capability (secret : arr32) : Capability := CapWrite (NamespaceSecret_from_bytes secret).

Lemma v1_fold (l : list (arr32 * arr32)) n (t : tbl arr32 (N * arr32)) id :
  let t' := (foldl v1_row (n, t) l).2 in
  (∃ k s, (k, s) ∈ l ∧ Capability_id (v1_capability s) = id
    ∧ tbl_get t' id = Some (Capability_raw (v1_capability s)))
  ∨ (∀ k s, (k, s) ∈ l → Capability_id (v1_capability s) ≠ id) ∧ tbl_get t' id = tbl_get t id.
Proof.
  simpl. revert n t. induction l as [|[k1 s1] l IH]; intros n t; simpl.
  { right. split; [by intros k s ?%elem_of_nil|done]. }
  change (CapWrite (NamespaceSecret_from_bytes s1)) with (v1_capability s1).
  destruct (IH (S n) (tbl_insert t (Capability_id (v1_capability s1)) (Capability_raw (v1_capability s1))))
    as [(k & s & Hin & ?)|[Hno Hget]].
  { left. exists k, s. split; [by right|done]. }
  destruct (decide (Capability_id (v1_capability s1) = id)) as [<-|Hne].
  - left. exists k1, s1. split; [left|]. split; [done|]. etrans; [exact Hget|]. apply tbl_get_insert_eq.
  - right. split; [intros k s [[= -> ->]|Hin]%elem_of_cons; [done|by eapply Hno]|].
    etrans; [exact Hget|]. by apply tbl_get_insert_ne.
Qed.

Definition v1_rows d : list (arr32 * arr32) :=
  match dk_namespaces_v1 d with Some v1 => tbl_iter v1 | None => [] end.

Lemma migration_002_tables d :
  dk_tables (migrate migration_002_namespaces_populate_v2 d)
  = set_namespaces (foldl v1_row (0, namespaces (dk_tables d)) (v1_rows d)).2 (dk_tables d)
  ∧ dk_namespaces_v1 (migrate migration_002_namespaces_populate_v2 d) = dk_namespaces_v1 d.
Proof.
  unfold migrate, migration_002_namespaces_populate_v2, v1_rows.
  destruct (dk_namespaces_v1 d) as [v1|] eqn:Hv; simpl; [|by destruct (dk_tables d)].
  destruct (foldl v1_row _ _); simpl. by rewrite Hv.
Qed.

Lemma migration_003_eq d : migrate migration_003_namespaces_delete_v1 d
  = {| dk_tables := dk_tables d; dk_namespaces_v1 := None |}.
Proof.
  unfold migrate, migration_003_namespaces_delete_v1. destruct d as [t [v1|]]; done.
Qed.

(** *** The by-key index *)
Lemma index_fold (l : list (RecordsId * RecordsValue)) n (t : tbl RecordsByKeyId unit)
    (ns : NamespaceId) (k : bytes) (a : AuthorId) :
  tbl_get (foldl index_row (n, t) l).2 (ns, k, a)
  = if existsb (λ p, eqb p.1 (ns, a, k)) l then Some tt else tbl_get t (ns, k, a).
Proof.
  revert n t. induction l as [|[[[n1 a1] k1] v1] l IH]; intros n t; [done|].
  change (foldl index_row (n, t) ((n1, a1, k1, v1) :: l))
    with (foldl index_row (S n, tbl_insert t (n1, k1, a1) tt) l).
  rewrite IH. simpl existsb.
  destruct (existsb _ l); [by rewrite orb_true_r|]. rewrite orb_false_r.
  destruct (eqb (n1, a1, k1) (ns, a, k)) eqn:Heq.
  - apply eqb_eq in Heq. injection Heq as -> -> ->. apply tbl_get_insert_eq.
  - apply tbl_get_insert_ne. intros [= -> -> ->]. by rewrite eqb_refl in Heq.
Qed.

Lemma migrated_index d (ns : NamespaceId) (k : bytes) (a : AuthorId) :
  let t := dk_tables d in
  let t' := dk_tables (migrate migration_004_populate_by_key_index d) in
  if tbl_is_empty (records_by_key t)
  then tbl_get (records_by_key t') (ns, k, a) = (λ _, tt) <$> tbl_get (records t) (ns, a, k)
  else t' = t.
Proof.
  intros t t'. unfold t', migrate, migration_004_populate_by_key_index. fold t.
  destruct (tbl_is_empty (records_by_key t)) eqn:Hi; simpl; [|done].
  pose proof (index_fold (tbl_iter (records t)) 0 (records_by_key t) ns k a) as Hget.
  destruct (foldl index_row _ _) as [n by_key]; simpl in *. rewrite Hget.
  destruct (existsb _ (tbl_iter (records t))) eqn:He.
  - apply existsb_exists in He as ([id v] & Hin%list_elem_of_In & Heq). apply eqb_eq in Heq. simpl in Heq. subst id.
    apply tbl_iter_get in Hin; [|apply _..]. by rewrite Hin.
  - rewrite (proj1 (tbl_is_empty_true _) Hi). destruct (tbl_get (records t) (ns, a, k)) as [v|] eqn:Hv; [|done].
    apply tbl_iter_get in Hv; [|apply _..]. exfalso. apply not_true_iff_false in He. apply He.
    apply existsb_exists. exists ((ns, a, k), v). split; [by apply list_elem_of_In|apply eqb_refl].
Qed.

(** *** All of them *)
Abbreviation m1 := (migrate migration_001_populate_latest_table).
Abbreviation m2 := (migrate migration_002_namespaces_populate_v2).
Abbreviation m3 := (migrate migration_003_namespaces_delete_v1).
Abbreviation m4 := (migrate migration_004_populate_by_key_index).

Lemma m1_frame d : dk_namespaces_v1 (m1 d) = dk_namespaces_v1 d
  ∧ dk_tables (m1 d) = set_latest_per_author (latest_per_author (dk_tables (m1 d))) (dk_tables d).
Proof.
  unfold migrate, migration_001_populate_latest_table.
  destruct (negb _ || _); simpl; [|done]. by destruct (dk_tables d).
Qed.
Lemma m4_frame d : dk_namespaces_v1 (m4 d) = dk_namespaces_v1 d
  ∧ dk_tables (m4 d) = set_records_by_key (records_by_key (dk_tables (m4 d))) (dk_tables d).
Proof.
  unfold migrate, migration_004_populate_by_key_index.
  destruct (negb _); simpl; [by destruct (dk_tables d)|]. by destruct (foldl _ _ _).
Qed.

Record upgraded d d' : Prop := {
  up_records : records (dk_tables d') = records (dk_tables d);
  up_authors : authors (dk_tables d') = authors (dk_tables d);
  up_peers : namespace_peers (dk_tables d') = namespace_peers (dk_tables d);
  up_policies : download_policy (dk_tables d') = download_policy (dk_tables d);
  up_v1 : dk_namespaces_v1 d' = None;
  (** every secret of the first version, as a write capability *)
  up_namespaces : ∀ id,
    (∃ k s, (k, s) ∈ v1_rows d ∧ Capability_id (v1_capability s) = id
       ∧ tbl_get (namespaces (dk_tables d')) id = Some (Capability_raw (v1_capability s)))
    ∨ (∀ k s, (k, s) ∈ v1_rows d → Capability_id (v1_capability s) ≠ id)
       ∧ tbl_get (namespaces (dk_tables d')) id = tbl_get (namespaces (dk_tables d)) id;
  up_latest : if tbl_is_empty (latest_per_author (dk_tables d))
    then ∀ ns a, newest_row (tbl_iter (records (dk_tables d))) ns a
           (tbl_get (latest_per_author (dk_tables d')) (ns, a))
    else latest_per_author (dk_tables d') = latest_per_author (dk_tables d);
  up_index : if tbl_is_empty (records_by_key (dk_tables d))
    then ∀ ns a k, tbl_get (records_by_key (dk_tables d')) (ns, k, a)
           = (λ _, tt) <$> tbl_get (records (dk_tables d)) (ns, a, k)
    else records_by_key (dk_tables d') = records_by_key (dk_tables d);
}.

Lemma migrated_upgraded d : upgraded d (migrated d).
Proof.
  change (migrated d) with (m4 (m3 (m2 (m1 d)))).
  destruct (m4_frame (m3 (m2 (m1 d)))) as [Hv4 Ht4]. destruct (migration_002_tables (m1 d)) as [Ht2 Hv2].
  destruct (m1_frame d) as [Hv1 Ht1].
  assert (dk_tables (m3 (m2 (m1 d))) = dk_tables (m2 (m1 d))) as Ht3 by by rewrite migration_003_eq.
  assert (v1_rows (m1 d) = v1_rows d) as Hrows by (unfold v1_rows; by rewrite Hv1).
  split.
  - by rewrite Ht4, Ht3, Ht2, Ht1.
  - by rewrite Ht4, Ht3, Ht2, Ht1.
  - by rewrite Ht4, Ht3, Ht2, Ht1.
  - by rewrite Ht4, Ht3, Ht2, Ht1.
  - by rewrite Hv4, migration_003_eq.
  - intros id. rewrite Ht4, Ht3, Ht2. simpl. rewrite Hrows, Ht1. apply v1_fold.
  - rewrite Ht4, Ht3, Ht2. simpl. destruct (tbl_is_empty _) eqn:He.
    + intros ns a. pose proof (migrated_latest d ns a) as Hl. simpl in Hl. by rewrite He in Hl.
    + pose proof (migrated_latest d zero32 zero32) as Hl. simpl in Hl. rewrite He in Hl. by rewrite Hl.
  - assert (records_by_key (dk_tables (m3 (m2 (m1 d)))) = records_by_key (dk_tables d)) as Hb
      by (by rewrite Ht3, Ht2, Ht1).
    assert (records (dk_tables (m3 (m2 (m1 d)))) = records (dk_tables d)) as Hr by (by rewrite Ht3, Ht2, Ht1).
    rewrite <- Hb. destruct (tbl_is_empty _) eqn:He.
    + intros ns a k. pose proof (migrated_index (m3 (m2 (m1 d))) ns k a) as Hi. simpl in Hi.
      rewrite He in Hi. by rewrite <- Hr.
    + pose proof (migrated_index (m3 (m2 (m1 d))) zero32 [] zero32) as Hi. simpl in Hi. rewrite He in Hi.
      by rewrite Hi.
Qed.

(** C28: opening a store upgrades its database.  Whatever version the
    database is of, after the migrations the records, authors, peers and
    download policies are as before; every namespace secret of the first
    version is a write capability under its public id and every other
    namespace is as before; the table of the first version is gone; if the
    heads were missing, each author's is his record with the greatest
    timestamp, and of those with the greatest key; if the by-key index was
    missing, it has exactly one row per record. *)
Theorem run_migrations_spec db :
  upgraded (db_begin_read db) (db_begin_read (run_migrations db)).
Proof. rewrite run_migrations_read. apply migrated_upgraded. Qed.

(** *** An interrupted run

    Databases that differ at most in how the namespaces table came about. *)
Definition disk_equiv d d' : Prop :=
  dk_namespaces_v1 d = dk_namespaces_v1 d'
  ∧ set_namespaces tbl_empty (dk_tables d) = set_namespaces tbl_empty (dk_tables d')
  ∧ ∀ id, tbl_get (namespaces (dk_tables d)) id = tbl_get (namespaces (dk_tables d')) id.
#[export] Instance disk_equiv_equivalence : Equivalence disk_equiv.
Proof.
  split; [by intros d|by intros d d' (? & ? & ?)|].
  intros d d' d'' (Hv & Ht & Hg) (Hv' & Ht' & Hg'). split; [congruence|]. split; [congruence|].
  intros id. by rewrite Hg.
Qed.

#[export] Instance m3_proper : Proper (disk_equiv ==> disk_equiv) m3.
Proof. intros d d' (_ & Ht & Hg). rewrite !migration_003_eq. by split_and!. Qed.
#[export] Instance m4_proper : Proper (disk_equiv ==> disk_equiv) m4.
Proof.
  intros [[r b n l p dp a] v] [[r' b' n' l' p' dp' a'] v'] (Hv & Ht & Hg). simpl in *.
  injection Ht as <- <- <- <- <- <-. subst v'.
  unfold migrate, migration_004_populate_by_key_index. simpl. destruct (negb (tbl_is_empty b)); [done|].
  destruct (foldl index_row (0, b) (tbl_iter r)). done.
Qed.

(** A migration that has been made has nothing left to do. *)
Definition has_latest d : Prop :=
  tbl_is_empty (latest_per_author (dk_tables d)) = false ∨ tbl_is_empty (records (dk_tables d)) = true.
Definition has_index d : Prop :=
  tbl_is_empty (records_by_key (dk_tables d)) = false ∨ tbl_is_empty (records (dk_tables d)) = true.

Lemma m1_done d : has_latest d → m1 d = d.
Proof.
  unfold migrate, migration_001_populate_latest_table.
  intros [-> | ->]; simpl; [done|]. by rewrite orb_true_r.
Qed.
Lemma m2_done d : dk_namespaces_v1 d = None → m2 d = d.
Proof. unfold migrate, migration_002_namespaces_populate_v2. by intros ->. Qed.
Lemma m3_done d : dk_namespaces_v1 d = None → m3 d = d.
Proof. unfold migrate, migration_003_namespaces_delete_v1. by intros ->. Qed.
Lemma m4_done d : has_index d → m4 d = d.
Proof.
  unfold migrate, migration_004_populate_by_key_index. intros [-> | Hr]; simpl; [done|].
  destruct (negb _); [done|]. unfold tbl_is_empty in Hr. destruct (tbl_iter (records (dk_tables d))); [|done].
  simpl. by destruct d as [[] ?].
Qed.

Lemma some_row {K V} `{CmpOk K} (t : tbl K V) : tbl_is_empty t = false → ∃ k v, tbl_get t k = Some v.
Proof.
  unfold tbl_is_empty. intros Hi. destruct (tbl_iter t) as [|[k v] l] eqn:Hl; [done|].
  exists k, v. apply tbl_iter_get; [apply _..|]. rewrite Hl. left.
Qed.

Lemma m1_has_latest d : has_latest (m1 d).
Proof.
  destruct (m1_frame d) as [_ Ht]. unfold has_latest.
  destruct (tbl_is_empty (records (dk_tables (m1 d)))) eqn:Hr; [by right|left].
  rewrite Ht in Hr. simpl in Hr. destruct (some_row _ Hr) as ([[ns a] k] & v & Hv).
  pose proof (migrated_latest d ns a) as Hl. simpl in Hl.
  destruct (tbl_is_empty (latest_per_author (dk_tables d))) eqn:He; [|by rewrite Hl].
  apply not_true_iff_false. intros Hno. rewrite (proj1 (tbl_is_empty_true _) Hno) in Hl.
  destruct (Hl k v). by apply tbl_iter_get; [apply _..|].
Qed.
Lemma m4_has_index d : has_index (m4 d).
Proof.
  destruct (m4_frame d) as [_ Ht]. unfold has_index.
  destruct (tbl_is_empty (records (dk_tables (m4 d)))) eqn:Hr; [by right|left].
  rewrite Ht in Hr. simpl in Hr. destruct (some_row _ Hr) as ([[ns a] k] & v & Hv).
  pose proof (migrated_index d ns k a) as Hl. simpl in Hl.
  destruct (tbl_is_empty (records_by_key (dk_tables d))) eqn:He; [|by rewrite Hl].
  apply not_true_iff_false. intros Hno. by rewrite (proj1 (tbl_is_empty_true _) Hno), Hv in Hl.
Qed.

(** Reading the rows over another table gives the same, where one of the
    rows decides or the tables agree. *)
Lemma v1_fold_same (l : list (arr32 * arr32)) n (t t' : tbl arr32 (N * arr32)) id :
  tbl_get t id = tbl_get t' id ∨ (∃ k s, (k, s) ∈ l ∧ Capability_id (v1_capability s) = id) →
  tbl_get (foldl v1_row (n, t) l).2 id = tbl_get (foldl v1_row (n, t') l).2 id.
Proof.
  revert n t t'. induction l as [|[k1 s1] l IH]; intros n t t'.
  - intros [?|(k & s & ?%elem_of_nil & _)]; done.
  - intros Hc. apply IH. simpl. destruct (decide (Capability_id (v1_capability s1) = id)) as [<-|Hne].
    + left. by rewrite !tbl_get_insert_eq.
    + destruct Hc as [Hg|(k & s & [[= -> ->]|Hin]%elem_of_cons & Hid)]; [|done|right; by exists k, s].
      left. by rewrite !tbl_get_insert_ne.
Qed.

Lemma m2_twice d : disk_equiv (m2 (m2 d)) (m2 d).
Proof.
  destruct (migration_002_tables d) as [Ht Hv]. destruct (migration_002_tables (m2 d)) as [Ht' Hv'].
  split; [congruence|]. rewrite Ht', Ht. split; [done|]. simpl.
  assert (v1_rows (m2 d) = v1_rows d) as -> by (unfold v1_rows; by rewrite Hv). intros id.
  set (t := namespaces (dk_tables d)). generalize (v1_rows d) as l. intros l.
  destruct (v1_fold l 0 t id) as [(k & s & Hin & Hid & _)|[_ Hget]]; apply v1_fold_same; [right; by exists k, s|by left].
Qed.

Lemma has_latest_frame d d' : records (dk_tables d') = records (dk_tables d) →
  latest_per_author (dk_tables d') = latest_per_author (dk_tables d) → has_latest d → has_latest d'.
Proof. unfold has_latest. by intros -> ->. Qed.

Lemma migrated_resume n d :
  disk_equiv (migrated (foldl (λ d f, migrate f d) d (take n migrations))) (migrated d).
Proof.
  assert (∀ d, migrated d = m4 (m3 (m2 (m1 d)))) as Hm by done.
  assert (has_latest (m2 (m1 d))) as Hl2.
  { destruct (migration_002_tables (m1 d)) as [Ht _]. eapply has_latest_frame; [| |apply m1_has_latest];
      by rewrite Ht. }
  assert (has_latest (m3 (m2 (m1 d)))) as Hl3.
  { eapply has_latest_frame; [| |exact Hl2]; by rewrite migration_003_eq. }
  assert (has_latest (m4 (m3 (m2 (m1 d))))) as Hl4.
  { destruct (m4_frame (m3 (m2 (m1 d)))) as [_ Ht]. eapply has_latest_frame; [| |exact Hl3]; by rewrite Ht. }
  assert (dk_namespaces_v1 (m3 (m2 (m1 d))) = None) as Hv3 by (by rewrite migration_003_eq).
  assert (dk_namespaces_v1 (m4 (m3 (m2 (m1 d)))) = None) as Hv4 by (rewrite <- Hv3; apply m4_frame).
  destruct n as [|[|[|[|n]]]].
  - done.
  - simpl. rewrite !Hm, (m1_done (m1 d)); [done|apply m1_has_latest].
  - simpl. rewrite !Hm, (m1_done (m2 (m1 d))) by done. by apply m4_proper, m3_proper, m2_twice.
  - simpl. rewrite !Hm, (m1_done _ Hl3), (m2_done _ Hv3), (m3_done _ Hv3). done.
  - assert (take (S (S (S (S n)))) migrations = migrations) as -> by (simpl; by rewrite take_nil).
    change (foldl (λ d f, migrate f d) d migrations) with (m4 (m3 (m2 (m1 d)))).
    rewrite !Hm, (m1_done _ Hl4), (m2_done _ Hv4), (m3_done _ Hv4), (m4_done (m4 _)); [done|apply m4_has_index].
Qed.

(** C27: an interrupted upgrade is completed.  Each migration commits on its
    own; after a crash between any two of them, or with all of them made,
    running all of them again ends with the same database as one
    uninterrupted run, so running them at every start is harmless. *)
Theorem migrations_resume n db :
  disk_equiv (db_begin_read (run_migrations (foldl run_migration db (take n migrations))))
    (db_begin_read (run_migrations db)).
Proof. rewrite !run_migrations_read, run_list_read. apply migrated_resume. Qed.

(** *** The old file format *)
Lemma mm_fill_inner {K V} `{CmpOk K, CmpOk V} (vs : list V) (m : mmap K V) k k' v' :
  v' ∈ mm_get (foldl (λ m v, mm_insert m k v) m vs) k' ↔ (k' = k ∧ v' ∈ vs) ∨ v' ∈ mm_get m k'.
Proof.
  revert m. induction vs as [|v vs IH]; intros m; simpl; [rewrite elem_of_nil; tauto|].
  rewrite IH, mm_get_insert, elem_of_cons by apply _. naive_solver.
Qed.
Lemma mm_fill {K V} `{CmpOk K, CmpOk V} (l : list (K * list V)) (m : mmap K V) k v :
  v ∈ mm_get (foldl (λ m p, foldl (λ m v, mm_insert m p.1 v) m p.2) m l) k
  ↔ (∃ vs, (k, vs) ∈ l ∧ v ∈ vs) ∨ v ∈ mm_get m k.
Proof.
  revert m. induction l as [|[k1 vs1] l IH]; intros m; simpl; [setoid_rewrite elem_of_nil; naive_solver|].
  rewrite IH, mm_fill_inner. setoid_rewrite elem_of_cons. naive_solver.
Qed.
Lemma migrate_multimap_get {K V} `{CmpOk K, CmpOk V} (old : option (mmap K V)) k v :
  v ∈ mm_get (migrate_multimap_table old mm_empty) k ↔ ∃ m, old = Some m ∧ v ∈ mm_get m k.
Proof.
  destruct old as [m|]; simpl; [|rewrite mm_get_empty by apply _; rewrite elem_of_nil; naive_solver].
  rewrite mm_fill, mm_get_empty, elem_of_nil by apply _. split.
  - intros [(vs & Hin & Hv)|?]; [|done]. apply mm_iter_get in Hin as [-> _]; [|apply _..]. by exists m.
  - intros (m' & [= <-] & Hv). left. exists (mm_get m k). split; [|done]. apply mm_iter_get; [apply _..|].
    split; [done|]. intros Hnil. rewrite Hnil in Hv. by apply elem_of_nil in Hv.
Qed.

(** The tables of [d] have what those of the old file have. *)
Record copied (old : OldDisk) d : Prop := {
  cp_records : ∀ id, tbl_get (records (dk_tables d)) id = t ← od_records old; tbl_get t id;
  cp_index : ∀ id, tbl_get (records_by_key (dk_tables d)) id = t ← od_records_by_key old; tbl_get t id;
  cp_namespaces : ∀ id, tbl_get (namespaces (dk_tables d)) id = t ← od_namespaces old; tbl_get t id;
  cp_latest : ∀ id, tbl_get (latest_per_author (dk_tables d)) id = t ← od_latest_per_author old; tbl_get t id;
  cp_peers : ∀ ns v, v ∈ mm_get (namespace_peers (dk_tables d)) ns ↔
    ∃ m, od_namespace_peers old = Some m ∧ v ∈ mm_get m ns;
  cp_policies : ∀ ns, tbl_get (download_policy (dk_tables d)) ns = t ← od_download_policy old; tbl_get t ns;
  cp_authors : ∀ a, tbl_get (authors (dk_tables d)) a = t ← od_authors old; tbl_get t a;
  cp_v1 : match dk_namespaces_v1 d, od_namespaces_v1 old with
    | Some v1, Some v1' => ∀ id, tbl_get v1 id = tbl_get v1' id
    | None, None => True
    | _, _ => False
    end;
}.

Lemma migrate_tables_copied old : copied old (migrate_tables old).
Proof.
  split; simpl; intros; try apply migrate_table_get; [by apply migrate_multimap_get|].
  destruct (od_namespaces_v1 old) as [v1|]; simpl; [|done]. intros id. exact (migrate_table_get (Some v1) id).
Qed.

Lemma open_store_view now db fs s fs' : open_store now db fs = (Ok s, fs') →
  view s = dk_tables (migrated (db_begin_read db)).
Proof. intros [= <- _]. unfold view, committed. simpl. by rewrite db_read_create, run_migrations_read. Qed.

(** C29: changing the file format loses nothing.  Opening a database of the
    old format copies every row, keeps the old file as the backup, and opens
    the migrated copy.  In every state in which a crash can leave the
    directory, the old file is still there, as the source or the backup; and
    opening again ends with the same content, unless the crash came between
    the two renames: then there is no source, and opening creates an empty
    database beside the backup and the finished copy. *)
Theorem format_change_safe now old fs : fl_source fs = Some (OldFormat old) →
  copied old (migrate_tables old)
  ∧ (∃ s fs', Store_persistent true now fs = (Ok s, fs')
       ∧ view s = dk_tables (migrated (migrate_tables old)) ∧ fl_backup fs' = Some (OldFormat old))
  ∧ ∀ crash, crash ∈ run_states old fs →
      (fl_source crash = Some (OldFormat old) ∨ fl_backup crash = Some (OldFormat old))
      ∧ ∃ s fs', Store_persistent true now crash = (Ok s, fs')
          ∧ view s = dk_tables (migrated (if fl_source crash then migrate_tables old else Disk_empty)).
Proof.
  intros Hsrc. split; [apply migrate_tables_copied|].
  assert (∀ fs, fl_source fs = Some (OldFormat old) → ∃ s fs', Store_persistent true now fs = (Ok s, fs')
    ∧ view s = dk_tables (migrated (migrate_tables old)) ∧ fl_backup fs' = Some (OldFormat old)) as Hopen.
  { clear fs Hsrc. intros fs Hsrc. unfold Store_persistent, open_database. rewrite Hsrc. simpl. do 2 eexists.
    split; [done|]. split; [|exact Hsrc].
    unfold view, committed. simpl. by rewrite db_read_create, run_migrations_read, db_read_commit. }
  split; [by apply Hopen|]. intros crash Hc. unfold run_states in Hc.
  repeat rewrite elem_of_cons in Hc. rewrite elem_of_nil in Hc.
  destruct Hc as [->|[->|[->|[->|[]]]]]; simpl; rewrite Hsrc; simpl.
  - split; [by left|]. destruct (Hopen {| fl_source := Some (OldFormat old);
      fl_target := Some (NewFormat (db_create Disk_empty)); fl_backup := fl_backup fs |} eq_refl) as (s & fs' & Ho & Hv & _).
    by exists s, fs'.
  - split; [by left|]. destruct (Hopen {| fl_source := Some (OldFormat old);
      fl_target := Some (NewFormat (db_commit (db_create Disk_empty) (migrate_tables old)));
      fl_backup := fl_backup fs |} eq_refl) as (s & fs' & Ho & Hv & _).
    by exists s, fs'.
  - split; [by right|]. do 2 eexists. split; [done|].
    unfold view, committed. simpl. by rewrite db_read_create, run_migrations_read, db_read_create.
  - split; [by right|]. do 2 eexists. split; [done|].
    unfold view, committed. simpl. by rewrite db_read_create, run_migrations_read, db_read_commit.
Qed.

(** An opened store is well formed.  A store opened from a database
    whose by-key index is complete or missing, or created in memory, is in
    the invariant that all theorems about the store start from, whichever
    document an instance is made for. *)
Theorem opened_store_inv now db (ns : NamespaceId) :
  index_complete (dk_tables (db_begin_read db))
    ∨ tbl_is_empty (records_by_key (dk_tables (db_begin_read db))) = true →
  rs_inv (StoreInstance_new ns (Store_new_impl now db))
  ∧ rs_inv (StoreInstance_new ns (Store_memory now)).
Proof.
  assert (∀ db', index_complete (dk_tables (db_begin_read db'))
    ∨ tbl_is_empty (records_by_key (dk_tables (db_begin_read db'))) = true →
    rs_inv (StoreInstance_new ns (Store_new_impl now db'))) as Hopen.
  { intros db' Hidx. split; [done|]. split; [|apply cache_wf_empty].
    unfold view, committed. simpl. rewrite db_read_create, run_migrations_read. intros n a k v.
    pose proof (migrated_upgraded (db_begin_read db')) as Hup. pose proof (up_index _ _ Hup) as Hi.
    rewrite (up_records _ _ Hup). intros Hv. destruct (tbl_is_empty _) eqn:He.
    - by rewrite Hi, Hv.
    - rewrite Hi. destruct Hidx as [Hidx|?]; [|done]. by eapply Hidx. }
  intros Hidx. split; [by apply Hopen|]. apply Hopen. right. rewrite db_read_create. simpl.
  apply tbl_is_empty_true. intros k. by apply tbl_get_empty, _.
Qed.
End migration_facts.

(** ** A database of the first version *)
Definition demo_old : OldDisk := {|
  od_authors := None; od_namespaces := None; od_download_policy := None; od_namespace_peers := None;
  od_namespaces_v1 := Some (tbl_insert tbl_empty demo_ns demo_ns);
  od_records := Some (tbl_insert (tbl_insert tbl_empty (demo_ns, demo_author, [x41]) (demo_row 7))
    (demo_ns, demo_author, [x42]) (demo_row 7));
  od_latest_per_author := None; od_records_by_key := None;
|}.
Definition demo_files : Files :=
  {| fl_source := Some (OldFormat demo_old); fl_target := None; fl_backup := None |}.

Lemma format_change_safe_witness :
  copied demo_old (migrate_tables demo_old)
  ∧ ∃ s fs', Store_persistent true 0 demo_files = (Ok s, fs') ∧ fl_backup fs' = Some (OldFormat demo_old).
Proof.
  destruct (format_change_safe 0 demo_old demo_files eq_refl) as (Hc & (s & fs' & Ho & _ & Hb) & _).
  split; [exact Hc|]. exists s, fs'. exact (conj Ho Hb).
Defined.

(** The run, evaluated: of two records with the same time the one with the
    greater key is the head, and the namespace secret is a capability. *)
Lemma run_migrations_spec_witness :
  upgraded (migrate_tables demo_old)
    (db_begin_read (run_migrations (db_create (migrate_tables demo_old))))
  ∧ tbl_get (latest_per_author (dk_tables (migrated (migrate_tables demo_old)))) (demo_ns, demo_author)
    = Some (7%N, [x42])
  ∧ tbl_get (namespaces (dk_tables (migrated (migrate_tables demo_old)))) demo_ns = Some (1%N, demo_ns).
Proof.
  split; [exact (run_migrations_spec (db_create (migrate_tables demo_old)))|].
  split; vm_compute; reflexivity.
Defined.

Lemma migrations_resume_witness :
  disk_equiv (db_begin_read (run_migrations (foldl run_migration (db_create (migrate_tables demo_old)) (take 2 migrations))))
    (db_begin_read (run_migrations (db_create (migrate_tables demo_old)))).
Proof. exact (migrations_resume 2 (db_create (migrate_tables demo_old))). Defined.

Lemma opened_store_inv_witness :
  rs_inv (StoreInstance_new demo_ns (Store_new_impl 0 (db_create (migrate_tables demo_old))))
  ∧ rs_inv (StoreInstance_new demo_ns (Store_memory 0)).
Proof. exact (opened_store_inv 0 (db_create (migrate_tables demo_old)) demo_ns (or_intror eq_refl)). Defined.
