(* ===== verification/Texts.v ===== *)
(** * Texts: keys and tickets as strings

    Models the textual forms of [src/keys.rs] and [src/ticket.rs].  The hex
    and base32 codecs come from other crates and are the interfaces [Hex] and
    [TicketText]; tickets are encoded with postcard ([Heads]).  Proved: what
    is printed is read back, and which tickets are not. *)
From Stdlib Require Import String.
From S2P Require Import Prelude Keys Heads.

(** [hex::encode] and [hex::decode_to_slice]. *)
Class Hex := {
  hex_encode : bytes → string;
  hex_decode_to_slice : ∀ n : nat, string → option (arr n);
}.
Class HexOk `{Hex} : Prop := {
  hex_roundtrip : ∀ n (b : arr n), hex_decode_to_slice n (hex_encode (vec_to_list b)) = Some b;
  (** two characters per byte *)
  hex_length : ∀ b, String.length (hex_encode b) = 2 * length b;
  hex_prefix : ∀ b b', substring 0 (2 * length b) (hex_encode (b ++ b')) = hex_encode b;
  (** a text of another length is refused *)
  hex_decode_length : ∀ n s (b : arr n), hex_decode_to_slice n s = Some b → String.length s = 2 * n;
}.

Lemma substring_length_le n s : String.length (substring 0 n s) ≤ n.
Proof. induction s as [|c s IH] in n |- *; destruct n; simpl; [lia..|]. specialize (IH n). lia. Qed.

Section texts.
Context `{Crypto, Hex}.

(** ** Printing *)
Definition Author_display (a : Author) : string := hex_encode (vec_to_list (Author_to_bytes a)).
Definition NamespaceSecret_display (n : NamespaceSecret) : string :=
  hex_encode (vec_to_list (NamespaceSecret_to_bytes n)).
Definition AuthorPublicKey_as_bytes (k : AuthorPublicKey) : arr32 := pk_as_bytes (author_pk k).
Definition NamespacePublicKey_as_bytes (k : NamespacePublicKey) : arr32 := pk_as_bytes (namespace_pk k).
Definition AuthorPublicKey_display (k : AuthorPublicKey) : string :=
  hex_encode (vec_to_list (AuthorPublicKey_as_bytes k)).
Definition NamespacePublicKey_display (k : NamespacePublicKey) : string :=
  hex_encode (vec_to_list (NamespacePublicKey_as_bytes k)).
Definition AuthorId_display (id : AuthorId) : string := hex_encode (vec_to_list id).
Definition NamespaceId_display (id : NamespaceId) : string := hex_encode (vec_to_list id).

Definition debug_form (name inner : string) : string := append name (append "(" (append inner ")")).
Definition NamespaceSecret_debug (n : NamespaceSecret) : string :=
  debug_form "Namespace" (NamespaceSecret_display n).
Definition NamespaceId_debug (id : NamespaceId) : string :=
  debug_form "NamespaceId" (hex_encode (vec_to_list id)).
Definition AuthorId_debug (id : AuthorId) : string := debug_form "AuthorId" (hex_encode (vec_to_list id)).
Definition Author_debug (a : Author) : string := debug_form "Author" (Author_display a).
Definition NamespacePublicKey_debug (k : NamespacePublicKey) : string :=
  debug_form "NamespacePublicKey" (NamespacePublicKey_display k).
Definition AuthorPublicKey_debug (k : AuthorPublicKey) : string :=
  debug_form "AuthorPublicKey" (AuthorPublicKey_display k).

(** The first ten characters. *)
Definition AuthorId_fmt_short (id : AuthorId) : string := substring 0 10 (hex_encode (vec_to_list id)).
Definition NamespaceId_fmt_short (id : NamespaceId) : string :=
  substring 0 10 (hex_encode (vec_to_list id)).

(** ** Parsing *)
Inductive ParseKeyError := PkHex | PkKeyParsing.
Definition parse_hex_array (s : string) : result ParseKeyError arr32 :=
  result_of_option PkHex (hex_decode_to_slice 32 s).
Definition Author_from_str (s : string) : result ParseKeyError Author :=
  Author_from_bytes <$> parse_hex_array s.
Definition NamespaceSecret_from_str (s : string) : result ParseKeyError NamespaceSecret :=
  NamespaceSecret_from_bytes <$> parse_hex_array s.
Definition AuthorPublicKey_from_bytes (b : arr32) : option AuthorPublicKey :=
  Build_AuthorPublicKey <$> pk_from_bytes b.
Definition NamespacePublicKey_from_bytes (b : arr32) : option NamespacePublicKey :=
  Build_NamespacePublicKey <$> pk_from_bytes b.
Definition AuthorPublicKey_from_str (s : string) : result ParseKeyError AuthorPublicKey :=
  match parse_hex_array s with
  | Ok b => result_of_option PkKeyParsing (AuthorPublicKey_from_bytes b)
  | Err e => Err e
  | Panic => Panic
  end.
Definition NamespacePublicKey_from_str (s : string) : result ParseKeyError NamespacePublicKey :=
  match parse_hex_array s with
  | Ok b => result_of_option PkKeyParsing (NamespacePublicKey_from_bytes b)
  | Err e => Err e
  | Panic => Panic
  end.
Definition AuthorId_into_public_key (id : AuthorId) : option AuthorPublicKey :=
  AuthorPublicKey_from_bytes id.
Definition NamespaceId_into_public_key (id : NamespaceId) : option NamespacePublicKey :=
  NamespacePublicKey_from_bytes id.
Definition AuthorId_from_str (s : string) : result ParseKeyError AuthorId :=
  AuthorPublicKey_as_bytes <$> AuthorPublicKey_from_str s.
Definition NamespaceId_from_str (s : string) : result ParseKeyError NamespaceId :=
  NamespacePublicKey_as_bytes <$> NamespacePublicKey_from_str s.
End texts.

(** ** Tickets

    [EndpointAddr] is not of this repository. *)
Section tickets.
Context `{Crypto} {EndpointAddr : Type}.

Record DocTicket := { tk_capability : Capability; tk_nodes : list EndpointAddr }.
Definition DocTicket_new (capability : Capability) (peers : list EndpointAddr) : DocTicket :=
  {| tk_capability := capability; tk_nodes := peers |}.
Inductive TicketWireFormat := Variant0 (t : DocTicket).
End tickets.
Arguments DocTicket {_} _.
Arguments TicketWireFormat {_} _.

Inductive TicketParseError := TpEncoding | TpPostcard | TpVerificationFailed.

(** [iroh_tickets]: the prefix of the kind and the base32 text. *)
Class TicketText := {
  ticket_text : string → bytes → string;
  ticket_bytes : string → string → option bytes;
}.
Class TicketTextOk `{TicketText} : Prop := {
  ticket_text_roundtrip : ∀ kind b, ticket_bytes kind (ticket_text kind b) = Some b;
}.

Section ticket_text.
Context `{Crypto} {EndpointAddr : Type} `{Postcard (TicketWireFormat EndpointAddr), TicketText}.

Definition DocTicket_KIND : string := "doc".
Definition DocTicket_encode_bytes (t : DocTicket EndpointAddr) : bytes := pc_to_stdvec (Variant0 t).
Definition DocTicket_decode_bytes (b : bytes) : result TicketParseError (DocTicket EndpointAddr) :=
  match pc_from_bytes b with
  | None => Err TpPostcard
  | Some (Variant0 res) =>
      match tk_nodes res with
      | [] => Err TpVerificationFailed
      | _ => Ok res
      end
  end.
Definition DocTicket_display (t : DocTicket EndpointAddr) : string :=
  ticket_text DocTicket_KIND (DocTicket_encode_bytes t).
Definition DocTicket_from_str (s : string) : result TicketParseError (DocTicket EndpointAddr) :=
  match ticket_bytes DocTicket_KIND s with
  | None => Err TpEncoding
  | Some b => DocTicket_decode_bytes b
  end.
End ticket_text.

(** ** What is printed is read back *)
Section text_facts.
Context `{CryptoOk, HexOk}.

Lemma parse_hex_display (b : arr32) : parse_hex_array (hex_encode (vec_to_list b)) = Ok b.
Proof. unfold parse_hex_array. by rewrite hex_roundtrip. Qed.

(** A text of which only a part was written names no author. *)
Lemma torn_author_text (id : AuthorId) n : n < 64 →
  AuthorId_from_str (substring 0 n (AuthorId_display id)) = Err PkHex.
Proof.
  intros Hn. unfold AuthorId_from_str, AuthorPublicKey_from_str, parse_hex_array.
  destruct (hex_decode_to_slice 32 _) as [b|] eqn:Hd; [|done].
  apply hex_decode_length in Hd. pose proof (substring_length_le n (AuthorId_display id)). lia.
Qed.

Lemma author_id_text (id : AuthorId) : AuthorId_from_str (AuthorId_display id)
  = if pk_from_bytes id then Ok id else Err PkKeyParsing.
Proof.
  unfold AuthorId_from_str, AuthorPublicKey_from_str, AuthorId_display, AuthorPublicKey_from_bytes.
  rewrite parse_hex_display. destruct (pk_from_bytes id) as [pk|] eqn:Hp; [|done]. simpl.
  unfold AuthorPublicKey_as_bytes. simpl. by rewrite (pk_as_from id pk).
Qed.
Lemma namespace_id_text (id : NamespaceId) : NamespaceId_from_str (NamespaceId_display id)
  = if pk_from_bytes id then Ok id else Err PkKeyParsing.
Proof.
  unfold NamespaceId_from_str, NamespacePublicKey_from_str, NamespaceId_display, NamespacePublicKey_from_bytes.
  rewrite parse_hex_display. destruct (pk_from_bytes id) as [pk|] eqn:Hp; [|done]. simpl.
  unfold NamespacePublicKey_as_bytes. simpl. by rewrite (pk_as_from id pk).
Qed.

(** Keys survive their textual form.  Printing and parsing gives back the
    author, the namespace secret and both public keys; an id parses exactly
    if its bytes are a valid public key, and then to itself - so the id of an
    author, and of a namespace secret, always does. *)
Theorem key_texts_roundtrip :
  (∀ a : Author, Author_from_str (Author_display a) = Ok a)
  ∧ (∀ n : NamespaceSecret, NamespaceSecret_from_str (NamespaceSecret_display n) = Ok n)
  ∧ (∀ k : AuthorPublicKey, AuthorPublicKey_from_str (AuthorPublicKey_display k) = Ok k)
  ∧ (∀ k : NamespacePublicKey, NamespacePublicKey_from_str (NamespacePublicKey_display k) = Ok k)
  ∧ (∀ id : AuthorId, AuthorId_from_str (AuthorId_display id)
       = if pk_from_bytes id then Ok id else Err PkKeyParsing)
  ∧ (∀ id : NamespaceId, NamespaceId_from_str (NamespaceId_display id)
       = if pk_from_bytes id then Ok id else Err PkKeyParsing)
  ∧ (∀ a : Author, AuthorId_from_str (AuthorId_display (Author_id a)) = Ok (Author_id a))
  ∧ (∀ n : NamespaceSecret, NamespaceId_from_str (NamespaceId_display (NamespaceSecret_id n))
       = Ok (NamespaceSecret_id n)).
Proof.
  split_and!.
  - intros [sk]. unfold Author_from_str, Author_display. rewrite parse_hex_display. simpl.
    unfold Author_from_bytes, Author_to_bytes. simpl. by rewrite sk_from_to.
  - intros [sk]. unfold NamespaceSecret_from_str, NamespaceSecret_display. rewrite parse_hex_display. simpl.
    unfold NamespaceSecret_from_bytes, NamespaceSecret_to_bytes. simpl. by rewrite sk_from_to.
  - intros [pk]. unfold AuthorPublicKey_from_str, AuthorPublicKey_display. rewrite parse_hex_display.
    unfold AuthorPublicKey_from_bytes, AuthorPublicKey_as_bytes. simpl. by rewrite pk_from_as.
  - intros [pk]. unfold NamespacePublicKey_from_str, NamespacePublicKey_display. rewrite parse_hex_display.
    unfold NamespacePublicKey_from_bytes, NamespacePublicKey_as_bytes. simpl. by rewrite pk_from_as.
  - apply author_id_text.
  - apply namespace_id_text.
  - intros a. rewrite author_id_text. unfold Author_id. by rewrite pk_from_as.
  - intros n. rewrite namespace_id_text. unfold NamespaceSecret_id. by rewrite pk_from_as.
Qed.

(** The short form shows five bytes: ids that agree in these have the same. *)
Theorem fmt_short_five_bytes (id id' : AuthorId) :
  take 5 (vec_to_list id) = take 5 (vec_to_list id') →
  AuthorId_fmt_short id = AuthorId_fmt_short id'
  ∧ AuthorId_fmt_short id = hex_encode (take 5 (vec_to_list id)).
Proof.
  assert (∀ id : arr32, AuthorId_fmt_short id = hex_encode (take 5 (vec_to_list id))) as Hs.
  { clear id id'. intros id. unfold AuthorId_fmt_short.
    pose proof (hex_prefix (take 5 (vec_to_list id)) (drop 5 (vec_to_list id))) as Hp.
    rewrite take_drop, length_take, length_vec_to_list in Hp. exact Hp. }
  intros Heq. split; [|apply Hs]. by rewrite !Hs, Heq.
Qed.
End text_facts.

Section ticket_facts.
Context `{Crypto} {EndpointAddr : Type} `{PostcardOk (TicketWireFormat EndpointAddr), TicketTextOk}.

Lemma ticket_read_back (t : DocTicket EndpointAddr) :
  DocTicket_from_str (DocTicket_display t)
  = match tk_nodes t with [] => Err TpVerificationFailed | _ => Ok t end.
Proof.
  unfold DocTicket_from_str, DocTicket_display, DocTicket_decode_bytes, DocTicket_encode_bytes.
  by rewrite ticket_text_roundtrip, pc_roundtrip.
Qed.

(** A ticket survives its text, unless it names no peer: then it prints,
    but what it prints is refused. *)
Theorem ticket_roundtrip (t : DocTicket EndpointAddr) :
  DocTicket_from_str (DocTicket_display t)
  = match tk_nodes t with [] => Err TpVerificationFailed | _ => Ok t end.
Proof. apply ticket_read_back. Qed.
End ticket_facts.

(** ** Codecs that compute *)
Definition hex_digit (n : N) : Ascii.ascii :=
  Ascii.ascii_of_N (if (n <? 10)%N then 48 + n else 87 + n)%N.
Definition hex_value (c : Ascii.ascii) : option N :=
  let n := Ascii.N_of_ascii c in
  if (48 <=? n)%N && (n <? 58)%N then Some (n - 48)%N
  else if (97 <=? n)%N && (n <? 103)%N then Some (n - 87)%N
  else if (65 <=? n)%N && (n <? 71)%N then Some (n - 55)%N
  else None.
Fixpoint hex_text (b : bytes) : string :=
  match b with
  | [] => EmptyString
  | x :: b => String (hex_digit (byte_val x / 16)) (String (hex_digit (byte_val x mod 16)) (hex_text b))
  end.
Fixpoint hex_read (s : string) : option bytes :=
  match s with
  | EmptyString => Some []
  | String c (String d s) =>
      hi ← hex_value c; lo ← hex_value d; b ← hex_read s; Some (byte_of (hi * 16 + lo) :: b)
  | _ => None
  end.
#[export] Instance real_hex : Hex := {|
  hex_encode := hex_text;
  hex_decode_to_slice n s := b ← hex_read s; arr_of n b;
|}.

Lemma hex_byte (x : byte) :
  hex_value (hex_digit (byte_val x / 16)) = Some (byte_val x / 16)%N
  ∧ hex_value (hex_digit (byte_val x mod 16)) = Some (byte_val x mod 16)%N
  ∧ byte_of (byte_val x / 16 * 16 + byte_val x mod 16) = x.
Proof. destruct x; vm_compute; auto. Qed.

Lemma hex_text_prefix (b b' : bytes) :
  substring 0 (length b + (length b + 0)) (hex_text (b ++ b')) = hex_text b.
Proof.
  induction b as [|x b IH]; [simpl; destruct (hex_text b'); reflexivity|].
  replace (length (x :: b) + (length (x :: b) + 0)) with (S (S (length b + (length b + 0)))) by (simpl; lia).
  change (hex_text ((x :: b) ++ b')) with
    (String (hex_digit (byte_val x / 16)) (String (hex_digit (byte_val x mod 16)) (hex_text (b ++ b')))).
  simpl substring. rewrite IH. done.
Qed.

Lemma hex_read_text (b : bytes) : hex_read (hex_text b) = Some b.
Proof.
  induction b as [|x b IH]; [done|]. simpl. destruct (hex_byte x) as (-> & -> & Hx). simpl.
  rewrite IH. simpl. by rewrite Hx.
Qed.

Lemma hex_read_length_both s :
  (∀ b, hex_read s = Some b → String.length s = 2 * length b)
  ∧ (∀ c b, hex_read (String c s) = Some b → String.length (String c s) = 2 * length b).
Proof.
  induction s as [|d s [IH1 IH2]]; (split; [|]).
  - by intros b [= <-].
  - done.
  - apply IH2.
  - intros c b. simpl. destruct (hex_value c), (hex_value d); try done. simpl.
    destruct (hex_read s) as [b'|] eqn:Hs; [|done]. intros [= <-]. specialize (IH1 b' eq_refl). simpl. lia.
Qed.

#[export] Instance real_hex_ok : HexOk.
Proof.
  split; simpl.
  - intros n b. rewrite hex_read_text. simpl. apply arr_of_to.
  - induction b as [|x b IH]; [done|]. simpl. rewrite IH. lia.
  - apply hex_text_prefix.
  - intros n s b. destruct (hex_read s) as [l|] eqn:Hs; [|done]. simpl. intros Hb.
    apply (proj1 (hex_read_length_both s)) in Hs. by rewrite Hs, (proj1 (arr_of_is_Some n l) (mk_is_Some _ _ Hb)).
Qed.

Lemma key_texts_roundtrip_witness :
  Author_from_str (Author_display (Author_from_bytes (arr_rep 32 xab))) = Ok (Author_from_bytes (arr_rep 32 xab)).
Proof. exact (proj1 key_texts_roundtrip (Author_from_bytes (arr_rep 32 xab))). Defined.
Lemma fmt_short_five_bytes_witness :
  AuthorId_fmt_short (arr_rep 32 xab) = "ababababab"%string
  ∧ AuthorId_fmt_short (arr_rep 32 xab) = hex_encode (take 5 (vec_to_list (arr_rep 32 xab))).
Proof.
  split; [vm_compute; reflexivity|].
  exact (proj2 (fmt_short_five_bytes (arr_rep 32 xab) (arr_rep 32 xab) eq_refl)).
Defined.

(** A postcard format of tickets with 32-byte addresses, by the storage form
    of the capability; the text of a ticket as hex. *)
#[local] Instance ticket_code_postcard : Postcard (N * arr32 * list arr32) := toy_postcard _.
#[local] Instance ticket_code_postcard_ok : PostcardOk (N * arr32 * list arr32) := toy_postcard_ok _.
#[export] Instance ticket_postcard : Postcard (TicketWireFormat arr32) := {|
  pc_to_stdvec w := let '(Variant0 t) := w in pc_to_stdvec (Capability_raw (tk_capability t), tk_nodes t);
  pc_from_bytes b :=
    p ← pc_from_bytes b : option (N * arr32 * list arr32);
    c ← Capability_from_raw p.1.1 p.1.2;
    Some (Variant0 (DocTicket_new c p.2));
  pc_size w := let '(Variant0 t) := w in pc_size (Capability_raw (tk_capability t), tk_nodes t);
|}.
#[export] Instance ticket_postcard_ok : PostcardOk (TicketWireFormat arr32).
Proof.
  split; intros [[c l]].
  - change (pc_from_bytes (pc_to_stdvec (Variant0 {| tk_capability := c; tk_nodes := l |})))
      with (p ← pc_from_bytes (pc_to_stdvec (Capability_raw c, l)) : option (N * arr32 * list arr32);
            c ← Capability_from_raw p.1.1 p.1.2; Some (Variant0 (DocTicket_new c p.2))).
    rewrite pc_roundtrip. cbn [mbind option_bind fst snd]. by rewrite (Capability_from_to_raw c).
  - exact (pc_size_length (Capability_raw c, l)).
Qed.
#[export] Instance hex_ticket_text : TicketText :=
  {| ticket_text _ := hex_text; ticket_bytes _ := hex_read |}.
#[export] Instance hex_ticket_text_ok : TicketTextOk.
Proof. split. intros kind b. apply hex_read_text. Qed.

Definition demo_ticket (nodes : list arr32) : DocTicket arr32 :=
  DocTicket_new (CapRead (arr_rep 32 x01)) nodes.
Lemma ticket_roundtrip_witness :
  DocTicket_from_str (DocTicket_display (demo_ticket [arr_rep 32 x07])) = Ok (demo_ticket [arr_rep 32 x07])
  ∧ DocTicket_from_str (DocTicket_display (demo_ticket [])) = Err TpVerificationFailed.
Proof.
  exact (conj (ticket_roundtrip (demo_ticket [arr_rep 32 x07])) (ticket_roundtrip (demo_ticket []))).
Defined.
