(* ===== verification/Filter.v ===== *)
(** * Sessions that see a part of a replica

    Models [src/filter.rs]: the decision of the access provider, and the
    store narrowed to the entries a peer may see.  A narrowed store keeps the
    promises of the reconciliation interface for its own view, so Ranger's
    theorems hold of filtered sessions; the last section shows what a peer
    can, and cannot, find out about the entries it may not see. *)
From S2P Require Import Prelude Redb Keys Entry Heads Query Bounds Ranger Info Store StoreInstance.

Abbreviation EntryFilter := (SignedEntry → bool).

Inductive SessionAccess := Full | Filtered (f : EntryFilter) | Deny.
Inductive SessionRole := AcceptRole | DialRole.

Record SessionStore (S : Type) := { ss_inner : S; ss_filter : option EntryFilter }.
Arguments Build_SessionStore {S} _ _.
Arguments ss_inner {S} _.
Arguments ss_filter {S} _.

Definition SessionStore_new {S} (inner : S) (filter : option EntryFilter) : SessionStore S :=
  Build_SessionStore inner filter.
Definition set_ss_inner {S} (i : S) (s : SessionStore S) : SessionStore S :=
  Build_SessionStore i (ss_filter s).

Definition admitted (filter : option EntryFilter) (entry : SignedEntry) : bool :=
  match filter with None => true | Some f => f entry end.

Section session_store.
Context `{Crypto} {S Err : Type} `{!RangerStore S SignedEntry RecordIdentifier DocRecord Err}.

Definition on_inner {A} (m : ST S Err A) : ST (SessionStore S) Err A :=
  st_zoom ss_inner set_ss_inner m.

Definition full_range : Range RecordIdentifier := Build_Range ri_default ri_default.

Definition ss_get_first : ST (SessionStore S) Err RecordIdentifier :=
  filter ← st_gets ss_filter;
  match filter with
  | None => on_inner rs_get_first
  | Some f =>
      es ← on_inner (rs_get_range full_range);
      mret (match List.find f es with Some e => se_id e | None => ri_default end)
  end.

(** [FilteredIter], as the entries it yields. *)
Definition FilteredIter (filter : option EntryFilter) (es : list SignedEntry) : list SignedEntry :=
  List.filter (admitted filter) es.

Definition ss_get_range (range : Range RecordIdentifier)
    : ST (SessionStore S) Err (list SignedEntry) :=
  es ← on_inner (rs_get_range range);
  filter ← st_gets ss_filter;
  mret (FilteredIter filter es).

Definition ss_get_fingerprint (range : Range RecordIdentifier) : ST (SessionStore S) Err Fingerprint :=
  filter ← st_gets ss_filter;
  match filter with
  | None => on_inner (rs_get_fingerprint range)
  | Some _ =>
      es ← ss_get_range range;
      mret (foldl (λ fp e, fp_xor fp (re_fingerprint e)) re_fp_empty es)
  end.

#[export] Instance SessionStore_ranger :
    RangerStore (SessionStore S) SignedEntry RecordIdentifier DocRecord Err := {|
  rs_get_first := ss_get_first;
  rs_get_fingerprint := ss_get_fingerprint;
  rs_entry_put e := on_inner (rs_entry_put e);
  rs_get_range := ss_get_range;
  rs_prefixes_of k := on_inner (rs_prefixes_of k);
  rs_remove_prefix_filtered k f := on_inner (rs_remove_prefix_filtered k f);
|}.

(** What the narrowed store shows: the admitted part of the view; what it
    writes is the whole store. *)
#[export] Instance SessionStore_model `{!RangerModel S SignedEntry RecordIdentifier} :
    RangerModel (SessionStore S) SignedEntry RecordIdentifier := {|
  rs_inv s := rs_inv (ss_inner s);
  rs_view s := List.filter (admitted (ss_filter s)) (rs_view (ss_inner s));
  rs_live s := rs_live (ss_inner s);
  rs_key_ok s := rs_key_ok (ss_inner s);
  rs_entry_ok s := rs_entry_ok (ss_inner s);
  rs_listed := rs_listed;
  rs_covered := rs_covered;
|}.
End session_store.

(** ** The narrowed store keeps the promises of the interface *)
Section session_ok.
Context `{Crypto} {S Err : Type} `{!RangerStore S SignedEntry RecordIdentifier DocRecord Err}.
Context `{!RangerModel S SignedEntry RecordIdentifier}.
Context `{!RangerStoreOk S SignedEntry RecordIdentifier DocRecord RejectId Err}.
Implicit Types s : SessionStore S.

Lemma set_inner_same s i : rs_same (ss_inner s) i → rs_same s (set_ss_inner i s).
Proof. intros [Hinv Hv Hl Hk He]. split; simpl; [done| |done..]. by rewrite Hv. Qed.

Lemma set_inner_wrote s i : rs_wrote (ss_inner s) i → rs_wrote s (set_ss_inner i s).
Proof. intros [Hinv Hk He]. by split. Qed.

Lemma on_inner_wp {A} (m : ST S Err A) s (Q : A → SessionStore S → Prop) :
  wp m (ss_inner s) (λ a i, Q a (set_ss_inner i s)) → wp (on_inner m) s Q.
Proof. intros Hm. by apply wp_zoom. Qed.

Lemma filter_filter_comm {A} (p q : A → bool) (l : list A) :
  List.filter p (List.filter q l) = List.filter q (List.filter p l).
Proof.
  induction l as [|x l IH]; [done|]. simpl.
  destruct (p x) eqn:Hp, (q x) eqn:Hq; simpl; rewrite ?Hp, ?Hq, IH; done.
Qed.

Lemma find_filter {A} (p : A → bool) (l : list A) : List.find p l = head (List.filter p l).
Proof. induction l as [|x l IH]; [done|]. simpl. by destruct (p x). Qed.

Lemma in_full_range (l : list SignedEntry) : List.filter (in_range full_range) l = l.
Proof. apply forallb_filter_id. apply forallb_forall. intros e _. by rewrite <- (arc_all ri_default (re_key e)). Qed.

Lemma filter_admit_all (l : list SignedEntry) : List.filter (admitted None) l = l.
Proof. apply forallb_filter_id. by apply forallb_forall. Qed.

Lemma ss_get_range_wp s r : rs_inv s → range_ok s r →
  wp (ss_get_range r) s (λ es s', es = List.filter (in_range r) (rs_view s) ∧ rs_same s s').
Proof.
  intros Hinv Hr. unfold ss_get_range. wp_step. apply on_inner_wp.
  eapply wp_mono; [apply (rs_get_range_ok (R:=RejectId)); [exact Hinv|exact Hr]|].
  intros es i [-> Hs]. wp_step. wp_step. wp_step.
  split; [apply filter_filter_comm|by apply set_inner_same].
Qed.

#[export] Instance SessionStore_ok :
  RangerStoreOk (SessionStore S) SignedEntry RecordIdentifier DocRecord RejectId Err.
Proof.
  split.
  - intros s Hinv. apply sorted_filter. exact (rs_view_sorted (R:=RejectId) (Err:=Err) (ss_inner s) Hinv).
  - intros s e Hinv [He _]%elem_of_filter_list. exact (rs_view_key_ok (R:=RejectId) (Err:=Err) (ss_inner s) e Hinv He).
  - intros s k e Hinv Hl. exact (rs_live_key (R:=RejectId) (Err:=Err) (ss_inner s) k e Hinv Hl).
  - intros s Hinv. simpl. unfold ss_get_first. wp_step. wp_step.
    destruct (ss_filter s) as [f|] eqn:Hf.
    + wp_step. apply on_inner_wp.
      eapply wp_mono; [apply (rs_get_range_ok (R:=RejectId)); [exact Hinv|by left]|].
      intros es i [-> Hs]. wp_step. split; [by apply set_inner_same|].
      rewrite in_full_range, find_filter. simpl.
      change (admitted (Some f)) with f. by destruct (List.filter f (rs_view (ss_inner s))).
    + apply on_inner_wp. eapply wp_mono; [apply (rs_get_first_ok (R:=RejectId)); exact Hinv|].
      intros k i [Hs Hk]. split; [by apply set_inner_same|]. simpl.
      rewrite filter_admit_all. done.
  - intros s r Hinv Hr. by apply ss_get_range_wp.
  - intros s r Hinv Hr. simpl. unfold ss_get_fingerprint. wp_step. wp_step.
    destruct (ss_filter s) as [f|] eqn:Hf.
    + wp_step. eapply wp_mono; [by apply ss_get_range_wp|]. intros es s' [-> Hs]. wp_step.
      simpl. by rewrite Hf.
    + apply on_inner_wp. eapply wp_mono; [apply (rs_get_fingerprint_ok (R:=RejectId)); [exact Hinv|exact Hr]|].
      intros fp i [-> Hs]. split; [|by apply set_inner_same]. simpl.
      rewrite filter_admit_all. done.
  - intros s k Hinv. simpl. apply on_inner_wp.
    eapply wp_mono; [apply (rs_prefixes_of_ok (R:=RejectId)); exact Hinv|].
    intros ps i [Hps Hs]. split; [exact Hps|by apply set_inner_same].
  - intros s k f Hinv. simpl. apply on_inner_wp.
    eapply wp_mono; [apply (rs_remove_ok (R:=RejectId)); exact Hinv|].
    intros n i [Hw Hl]. split; [by apply set_inner_wrote|exact Hl].
  - intros s e Hinv He. simpl. apply on_inner_wp.
    eapply wp_mono; [apply (rs_entry_put_ok (R:=RejectId)); [exact Hinv|exact He]|].
    intros [] i [Hw Hl]. split; [by apply set_inner_wrote|exact Hl].
  - apply DocRecord_cmp_antisym.
  - intros e k Hl. exact (rs_listed_covered (R:=RejectId) (S:=S) (Err:=Err) e k Hl).
Qed.
End session_ok.

(** ** What a message run depends on

    Two runs of [process_message] whose stores answer range reads alike
    answer alike, refusals aside.  [LS] relates the stores, [LW] the worlds
    of the callbacks, [good] is what every entry read satisfies. *)
Section two_runs.
Context {S E K V R Err W : Type}.
Context `{Cmp K, Cmp V, !RangeEntry E K V R, !RangerStore S E K V Err}.
Context (config : SyncConfig).
Context (validate_cb : S → E → ContentStatus → ValidateOutcome).
Context (on_insert_cb : S → E → ContentStatus → W → W).
Context (content_status_cb : W → E → ContentStatus).
Context (LS : S → S → Prop) (LW : W → W → Prop) (good : E → Prop).

Definition both (p1 p2 : S * W) : Prop := LS p1.1 p2.1 ∧ LW p1.2 p2.2.

(** The parts of a reply that carry range data. *)
Definition disclosed (m : Message E K R) : Message E K R :=
  List.filter (λ p, if part_rejected p then false else true) m.
Definition good_message (m : Message E K R) : Prop := ∀ v, v ∈ message_values m → good v.1.

Definition alike {A} (P : A → Prop) (a b : A) : Prop := a = b ∧ P a.
Definition alike_replies (m1 m2 : Message E K R) : Prop :=
  disclosed m1 = disclosed m2 ∧ good_message m1.

Context (Hrange : ∀ r, st_rel LS (alike (Forall good)) (rs_get_range r) (rs_get_range r)).
Context (Hfp : ∀ r, st_rel LS eq (rs_get_fingerprint r) (rs_get_fingerprint r)).
Context (Hstatus : ∀ w1 w2 e, LW w1 w2 → content_status_cb w1 e = content_status_cb w2 e).
Context (Hvalue : ∀ v, st_rel both (λ ps qs, disclosed ps = [] ∧ disclosed qs = [])
  (store_value validate_cb on_insert_cb v) (store_value validate_cb on_insert_cb v)).

Lemma rel_store_op {A} (Q : A → A → Prop) (m1 m2 : ST S Err A) :
  st_rel LS Q m1 m2 → st_rel both Q (store_op m1) (store_op m2).
Proof.
  intros Hm. apply (rel_zoom LS); [by intros ?? [? _]| |done].
  intros ???? [_ ?] ?. by split.
Qed.

Lemma message_values_app (m1 m2 : Message E K R) :
  message_values (m1 ++ m2) = message_values m1 ++ message_values m2.
Proof. unfold message_values. by rewrite omap_app, join_app. Qed.

Lemma disclosed_app (m1 m2 : Message E K R) : disclosed (m1 ++ m2) = disclosed m1 ++ disclosed m2.
Proof. apply List.filter_app. Qed.

Lemma disclosed_nil_values (m : Message E K R) : disclosed m = [] → message_values m = [].
Proof. induction m as [|[f|i|id] m IH]; try done. Qed.

Lemma alike_app m1 m2 n1 n2 :
  alike_replies m1 m2 → alike_replies n1 n2 → alike_replies (m1 ++ n1) (m2 ++ n2).
Proof.
  intros [Hm Hgm] [Hn Hgn]. split; [by rewrite !disclosed_app, Hm, Hn|].
  intros v. rewrite message_values_app, elem_of_app. intros [?|?]; auto.
Qed.

Lemma alike_refused ps qs : disclosed ps = [] → disclosed qs = [] → alike_replies ps qs.
Proof.
  intros Hp Hq. split; [congruence|]. intros v. rewrite disclosed_nil_values by done.
  by intros ?%elem_of_nil.
Qed.

Lemma alike_item r (vs : list (E * ContentStatus)) b : Forall (good ∘ fst) vs →
  alike_replies [MpItem (Build_RangeItem r vs b)] [MpItem (Build_RangeItem r vs b)].
Proof.
  intros Hvs. split; [done|]. intros v. unfold message_values. simpl.
  rewrite app_nil_r. rewrite Forall_forall in Hvs. apply Hvs.
Qed.

Lemma rel_with_status es : Forall good es →
  st_rel both (alike (Forall (good ∘ fst)))
    (with_status (Err:=Err) content_status_cb es) (with_status content_status_cb es).
Proof.
  intros Hes p1 p2 [HS HW]. split; [|by split]. split.
  - apply map_ext. intros e. f_equal. by apply Hstatus.
  - rewrite Forall_fmap. exact Hes.
Qed.

Lemma rel_item_diff item :
  st_rel both (alike (λ d, Forall (good ∘ fst) (default [] d)))
    (item_diff content_status_cb item) (item_diff content_status_cb item).
Proof.
  unfold item_diff. destruct (ri_have_local item); [by apply rel_ret|].
  eapply rel_bind; [apply rel_store_op, Hrange|]. intros es ? [<- Hes].
  eapply rel_bind; [apply rel_with_status|].
  - rewrite Forall_forall in Hes |- *. intros e [He _]%elem_of_filter_list. by apply Hes.
  - intros vs ? [<- Hvs]. by apply rel_ret.
Qed.

Lemma rel_process_item item out1 out2 : alike_replies out1 out2 →
  st_rel both alike_replies
    (process_item validate_cb on_insert_cb content_status_cb out1 item)
    (process_item validate_cb on_insert_cb content_status_cb out2 item).
Proof.
  intros Hout. unfold process_item. eapply rel_bind; [apply rel_item_diff|].
  intros diff ? [<- Hd]. eapply rel_bind.
  { unfold store_values. apply (rel_fold _ alike_replies); [|exact Hout].
    intros v o1 o2 _ Ho. eapply rel_bind; [apply Hvalue|].
    intros ps qs [Hps Hqs]. apply rel_ret, alike_app; [done|]. by apply alike_refused. }
  intros o1 o2 Ho. destruct diff as [d|]; [|by apply rel_ret].
  destruct (length d =? 0); apply rel_ret; [done|].
  apply alike_app; [done|]. by apply alike_item.
Qed.

Lemma rel_pivot r n start i : st_rel LS eq (pivot config r n start i) (pivot config r n start i).
Proof.
  unfold pivot. eapply rel_bind; [apply Hrange|]. intros es ? [<- _].
  destruct (es !! _); [by apply rel_ret|]. by intros s1 s2 _.
Qed.

Lemma rel_pivot_ranges r n start c :
  st_rel LS eq (pivot_ranges config r n start c) (pivot_ranges config r n start c).
Proof.
  unfold pivot_ranges. apply rel_fold; [|done]. intros i a ? _ <-.
  eapply rel_bind; [apply rel_pivot|]. intros x ? <-.
  eapply rel_bind; [apply rel_pivot|]. intros y ? <-. by apply rel_ret.
Qed.

Lemma rel_split_ranges r n start :
  st_rel LS eq (split_ranges config r n start) (split_ranges config r n start).
Proof.
  unfold split_ranges. destruct (split_factor config =? 0); [by intros ???|].
  destruct (range_is_all r); [apply rel_pivot_ranges|].
  eapply rel_bind; [apply rel_pivot|]. intros x ? <-.
  destruct (split_factor config <? 2); [by intros ???|].
  eapply rel_bind; [apply rel_pivot_ranges|]. intros mid ? <-.
  eapply rel_bind; [apply rel_pivot|]. intros y ? <-. by apply rel_ret.
Qed.

Lemma rel_range_part q :
  st_rel both (alike (λ r, good_message [r.2]))
    (range_part (R:=R) config content_status_cb q) (range_part config content_status_cb q).
Proof.
  unfold range_part. eapply rel_bind; [apply rel_store_op, Hrange|]. intros es ? [<- Hes].
  eapply rel_bind; [apply rel_store_op, Hfp|]. intros fp ? <-.
  destruct (max_set_size config <? length es).
  { apply rel_ret. split; [done|]. by intros v ?%elem_of_nil. }
  eapply rel_bind; [by apply rel_with_status|]. intros vs ? [<- Hvs]. apply rel_ret.
  split; [done|]. by apply alike_item.
Qed.

Lemma rel_process_fingerprint fp out1 out2 : alike_replies out1 out2 →
  st_rel both alike_replies (process_fingerprint config content_status_cb out1 fp)
    (process_fingerprint config content_status_cb out2 fp).
Proof.
  intros Hout. unfold process_fingerprint.
  eapply rel_bind; [apply rel_store_op, Hfp|]. intros lf ? <-.
  destruct (eqb lf (rf_fingerprint fp)); [by apply rel_ret|].
  eapply rel_bind.
  { apply rel_store_op. unfold rs_get_range_len. eapply rel_bind; [apply Hrange|].
    intros es ? [<- _]. by apply (rel_ret _ eq). }
  intros n ? <-. destruct ((n <=? 1) || _).
  { eapply rel_bind; [apply rel_store_op, Hrange|]. intros es ? [<- Hes].
    eapply rel_bind; [by apply rel_with_status|]. intros vs ? [<- Hvs].
    apply rel_ret, alike_app; [done|]. by apply alike_item. }
  eapply rel_bind; [apply rel_store_op, Hrange|]. intros es ? [<- Hes].
  eapply rel_bind; [apply rel_store_op, rel_split_ranges|]. intros rs ? <-.
  eapply rel_bind.
  { unfold range_parts. apply (rel_fold _ (alike (λ a, good_message a.2))).
    2: { split; [done|]. by intros v ?%elem_of_nil. }
    intros q a ? _ [<- Ha]. eapply rel_bind; [apply rel_range_part|]. intros b ? [<- Hb].
    apply rel_ret. split; [done|]. intros v. cbn [snd].
    rewrite message_values_app, elem_of_app. intros [?|?]; auto. }
  intros parts ? [<- Hparts]. destruct (negb (1 <? parts.1)); [by intros ???|].
  by apply rel_ret, alike_app.
Qed.

Lemma rel_process_message m :
  st_rel both (λ r1 r2, alike_replies (default [] r1) (default [] r2))
    (process_message config validate_cb on_insert_cb content_status_cb m)
    (process_message config validate_cb on_insert_cb content_status_cb m).
Proof.
  unfold process_message. eapply rel_bind.
  { apply (rel_fold _ alike_replies); [|split; [done|by intros v ?%elem_of_nil]].
    intros item o1 o2 _. apply rel_process_item. }
  intros o1 o2 Ho. eapply rel_bind.
  { apply (rel_fold _ alike_replies); [|exact Ho]. intros fp p1 p2 _. apply rel_process_fingerprint. }
  intros p1 p2 Hp. apply rel_ret. by destruct p1, p2.
Qed.
End two_runs.

(** ** What a filtered session gives away *)
Section egress.
Context `{Crypto} {S Err W : Type} `{!RangerStore S SignedEntry RecordIdentifier DocRecord Err}.
Context (config : SyncConfig).
Context (validate_cb : SessionStore S → SignedEntry → ContentStatus → ValidateOutcome).
Context (on_insert_cb : SessionStore S → SignedEntry → ContentStatus → W → W).
Context (content_status_cb : W → SignedEntry → ContentStatus).
Implicit Types (s : SessionStore S) (e : SignedEntry).

Lemma ss_would_insert e s : would_insert (K:=RecordIdentifier) e s = on_inner (would_insert e) s.
Proof.
  unfold would_insert, on_inner, st_zoom, mbind, ST_bind. simpl.
  unfold on_inner, st_zoom. by destruct (rs_prefixes_of (se_id e) (ss_inner s)) as [[?|?|] ?].
Qed.

Lemma ss_put e s : put (K:=RecordIdentifier) e s = on_inner (put e) s.
Proof.
  unfold put at 1, mbind at 1, ST_bind at 1. rewrite ss_would_insert.
  unfold on_inner at 2, st_zoom, put, mbind at 3, ST_bind at 3. unfold on_inner at 1, st_zoom.
  destruct (would_insert e (ss_inner s)) as [[[|]|?|] i]; try done.
  unfold mbind, ST_bind. cbn [negb]. simpl. unfold on_inner, st_zoom. simpl.
  destruct (rs_remove_prefix_filtered _ _ i) as [[n|?|] i']; try done. simpl.
  by destruct (rs_entry_put e i') as [[[]|?|] i''].
Qed.

(** A value put into the store, or refused, answers with refusals only. *)
Lemma store_value_disclosed (p : SessionStore S * W) v :
  match store_value (R:=RejectId) validate_cb on_insert_cb v p with
  | (Ok ps, _) => disclosed ps = []
  | _ => True
  end.
Proof.
  destruct v as [e c]. unfold store_value. rewrite st_gets_bind.
  destruct (validate_cb p.1 e c); [| |]; unfold mbind, ST_bind, store_op, st_zoom.
  - destruct (put e p.1) as [[[|]|?|] s']; done.
  - done.
  - by destruct (would_insert e p.1) as [[[|]|?|] s'].
Qed.

Lemma store_value_filter (p : SessionStore S * W) v :
  ss_filter (store_value (R:=RejectId) validate_cb on_insert_cb v p).2.1 = ss_filter p.1.
Proof.
  destruct v as [e c]. unfold store_value. rewrite st_gets_bind.
  destruct (validate_cb p.1 e c); [| |]; unfold mbind, ST_bind, store_op, st_zoom.
  - rewrite ss_put. unfold on_inner, st_zoom. by destruct (put e _) as [[[|]|?|] s'].
  - done.
  - rewrite ss_would_insert. unfold on_inner, st_zoom.
    by destruct (would_insert e _) as [[[|]|?|] s'].
Qed.

(** The same run twice. *)
Definition filtered_by (f : EntryFilter) (s1 s2 : SessionStore S) : Prop :=
  s1 = s2 ∧ ss_filter s1 = Some f.

Lemma on_inner_rel {A} f (Q : A → A → Prop) (m : ST S Err A) : (∀ a, Q a a) →
  st_rel (filtered_by f) Q (on_inner m) (on_inner m).
Proof.
  intros HQ s ? [<- Hf]. unfold on_inner, st_zoom.
  by destruct (m (ss_inner s)) as [[a|e|] i].
Qed.

Lemma filtered_range f r : st_rel (filtered_by f) (alike (Forall (λ e, f e = true)))
  (ss_get_range r) (ss_get_range r).
Proof.
  unfold ss_get_range. eapply rel_bind; [by apply (on_inner_rel f eq)|]. intros es ? <-.
  intros s ? [<- Hf]. rewrite st_gets_bind. split; [|done]. split; [done|].
  rewrite Hf. apply Forall_forall. by intros e [_ He]%elem_of_filter_list.
Qed.

Lemma filtered_fingerprint f r :
  st_rel (filtered_by f) eq (ss_get_fingerprint r) (ss_get_fingerprint r).
Proof.
  intros s ? [<- Hf]. unfold ss_get_fingerprint. rewrite st_gets_bind, Hf.
  assert (st_rel (filtered_by f) eq (es ← ss_get_range r;
    mret (foldl (λ fp e, fp_xor fp (re_fingerprint e)) re_fp_empty es)) (es ← ss_get_range r;
    mret (foldl (λ fp e, fp_xor fp (re_fingerprint e)) re_fp_empty es))) as Hrel.
  { eapply rel_bind; [apply filtered_range|]. intros es ? [<- _]. by apply rel_ret. }
  by apply Hrel.
Qed.

Lemma filtered_value f v :
  st_rel (both (filtered_by f) eq) (λ ps qs, disclosed ps = [] ∧ disclosed qs = [])
    (store_value (R:=RejectId) validate_cb on_insert_cb v) (store_value validate_cb on_insert_cb v).
Proof.
  intros [s w] [s2 w2] [[Heq Hf] Hw]. simpl in *. subst s2 w2.
  pose proof (store_value_disclosed (s, w) v) as Hd. pose proof (store_value_filter (s, w) v) as Hk.
  destruct (store_value _ _ v (s, w)) as [[ps|e|] [s' w']]; simpl in *; [|..|done].
  - split; [done|]. repeat split; simpl; congruence.
  - repeat split; simpl; congruence.
Qed.

Lemma filtered_values f m (p : SessionStore S * W) : ss_filter p.1 = Some f →
  match process_message (R:=RejectId) config validate_cb on_insert_cb content_status_cb m p with
  | (Ok reply, _) => good_message (λ e, f e = true) (default [] reply)
  | _ => True
  end.
Proof.
  intros Hf. destruct p as [s w].
  pose proof (rel_process_message config validate_cb on_insert_cb content_status_cb
    (filtered_by f) eq (λ e, f e = true) (filtered_range f) (filtered_fingerprint f)
    (λ w1 w2 e Hw, f_equal (λ w, content_status_cb w e) Hw) (filtered_value f)
    m (s, w) (s, w) (conj (conj eq_refl Hf) eq_refl)) as Hrel.
  destruct (process_message _ _ _ _ _ _) as [[r|e|] p']; [|done..]. by destruct Hrel as [[_ ?] _].
Qed.

Context `{!RangerModel S SignedEntry RecordIdentifier}.
Context `{!RangerStoreOk S SignedEntry RecordIdentifier DocRecord RejectId Err}.
Context (s0 : SessionStore S).
Context (Hvalid : ∀ s e c, rs_inv s → validate_cb s e c = Accept → rs_entry_ok s0 e).

(** C14: a filtered session sends admitted entries only.  Whatever message
    the peer sends, the session's reply is computed without error or panic,
    and every entry in it passes the session's filter, over any store that
    keeps the promises of the interface. *)
Theorem session_sends_admitted f m (p : SessionStore S * W) :
  ss_filter p.1 = Some f → split_factor config = 2 → rs_wrote s0 p.1 → message_ok p.1 m →
  wp (process_message config validate_cb on_insert_cb content_status_cb m) p (λ reply p',
    rs_inv p'.1 ∧ ∀ v, v ∈ message_values (default [] reply) → f v.1 = true).
Proof.
  intros Hf Hk Hinv Hm. pose proof (filtered_values f m p Hf) as Hv.
  destruct (process_message_wp config content_status_cb validate_cb on_insert_cb s0 Hvalid m p
    Hk Hinv Hm) as (reply & p' & Heq & Hst & _).
  rewrite Heq in Hv. exists reply, p'. split; [done|]. split; [apply Hst|exact Hv].
Qed.

(** A refusal reads the whole store.  For one refused value the answer
    tells whether some live entry, admitted by the session's filter or not,
    supersedes the value: the filter does not enter into it. *)
Theorem refusals_read_whole_store range e c (p : SessionStore S * W) :
  rs_inv p.1 → validate_cb p.1 e c = Reject →
  wp (process_message config validate_cb on_insert_cb content_status_cb
      [MpItem (Build_RangeItem range [(e, c)] true)]) p (λ reply p',
    rs_inv p'.1
    ∧ ((superseded (ss_inner p.1) e ∧ reply = None)
      ∨ (¬ superseded (ss_inner p.1) e ∧ reply = Some [MpRejected (re_reject_id e)]))).
Proof.
  intros Hinv Hv. unfold process_message. wp_step. simpl. wp_step.
  unfold process_item. wp_step. wp_step. wp_step. unfold store_values. simpl. wp_step. wp_step. wp_step. wp_step.
  rewrite Hv. wp_step. wp_step.
  eapply wp_mono; [by apply would_insert_wp|]. intros b s' [Hb Hs].
  destruct b; repeat wp_step; simpl; (split; [apply Hs|]); [by right|by left].
Qed.
End egress.

(** ** What a filtered session hides *)
Section hiding.
Context `{RedbOk, Crypto, Postcard DownloadPolicy} {W : Type}.
Context (config : SyncConfig).
Context (validate_cb : SessionStore StoreInstance → SignedEntry → ContentStatus → ValidateOutcome).
Context (on_insert_cb : SessionStore StoreInstance → SignedEntry → ContentStatus → W → W).
Context (content_status_cb : SignedEntry → ContentStatus).

(** Two sessions of one replica, each with a snapshot, whose snapshots agree
    on the admitted entries; nothing is assumed of the other entries, nor of
    the live stores. *)
Record indistinguishable (f : EntryFilter) (s1 s2 : SessionStore StoreInstance) : Prop := {
  ind_inv1 : rs_inv (ss_inner s1);
  ind_inv2 : rs_inv (ss_inner s2);
  ind_filter1 : ss_filter s1 = Some f;
  ind_filter2 : ss_filter s2 = Some f;
  ind_namespace : si_namespace (ss_inner s1) = si_namespace (ss_inner s2);
  ind_views : ∃ t1 t2, si_session_snapshot (ss_inner s1) = Some t1
    ∧ si_session_snapshot (ss_inner s2) = Some t2
    ∧ FilteredIter (Some f) (RecordsRange_with_bounds (records t1)
        (RecordsBounds_namespace (si_namespace (ss_inner s1))))
      = FilteredIter (Some f) (RecordsRange_with_bounds (records t2)
        (RecordsBounds_namespace (si_namespace (ss_inner s1))));
}.

Lemma snapshot_get_range (i : StoreInstance) t r : si_session_snapshot i = Some t →
  inst_get_range r i =
    if boundary_foreign (si_namespace i) r then (Err ErrForeignBoundary, i)
    else (Ok (List.filter (in_range r)
      (RecordsRange_with_bounds (records t) (RecordsBounds_namespace (si_namespace i)))), i).
Proof.
  intros Ht. unfold inst_get_range, read_records. st_red.
  destruct (boundary_foreign (si_namespace i) r) eqn:Hf; [done|].
  pose proof (range_entries (records t) (si_namespace i) r Hf) as Hes.
  destruct (get_range_bounds (si_namespace i) r) as [b wb]. rewrite Ht. simpl in *.
  by rewrite Hes.
Qed.

Lemma hidden_range f r : st_rel (indistinguishable f) (alike (Forall (λ e, f e = true)))
  (ss_get_range r) (ss_get_range r).
Proof.
  intros s1 s2 Hi. pose proof Hi as [_ _ Hf1 Hf2 Hns (t1 & t2 & Ht1 & Ht2 & Hv)].
  unfold ss_get_range, mbind, ST_bind, on_inner, st_zoom. simpl.
  rewrite (snapshot_get_range _ t1 r Ht1), (snapshot_get_range _ t2 r Ht2), <- Hns.
  destruct s1 as [i1 f1], s2 as [i2 f2]. simpl in *. subst f1 f2.
  destruct (boundary_foreign (si_namespace i1) r); unfold set_ss_inner; simpl; [done|].
  split; [|done]. unfold FilteredIter in *. rewrite !(filter_filter_comm _ (in_range r)), Hv.
  split; [done|]. apply Forall_forall. by intros e [[_ He]%elem_of_filter_list _]%elem_of_filter_list.
Qed.

Lemma hidden_fingerprint f r : st_rel (indistinguishable f) eq
  (ss_get_fingerprint r) (ss_get_fingerprint r).
Proof.
  assert (st_rel (indistinguishable f) eq (es ← ss_get_range r;
    mret (foldl (λ fp e, fp_xor fp (re_fingerprint e)) re_fp_empty es)) (es ← ss_get_range r;
    mret (foldl (λ fp e, fp_xor fp (re_fingerprint e)) re_fp_empty es))) as Hrel.
  { eapply rel_bind; [apply hidden_range|]. intros es ? [<- _]. by apply rel_ret. }
  intros s1 s2 Hi. specialize (Hrel s1 s2 Hi). unfold ss_get_fingerprint.
  rewrite !st_gets_bind, (ind_filter1 f s1 s2 Hi), (ind_filter2 f s1 s2 Hi). exact Hrel.
Qed.

Lemma would_insert_keeps e : keeps_frame (would_insert e).
Proof.
  apply keeps_bind; [|intros; apply keeps_ret].
  apply keeps_bind; [apply keeps_on_store|intros; apply keeps_ret].
Qed.

Lemma indistinguishable_step f s1 s2 i1 i2 : indistinguishable f s1 s2 →
  rs_inv i1 → rs_inv i2 →
  si_namespace i1 = si_namespace (ss_inner s1) ∧ si_session_snapshot i1 = si_session_snapshot (ss_inner s1) →
  si_namespace i2 = si_namespace (ss_inner s2) ∧ si_session_snapshot i2 = si_session_snapshot (ss_inner s2) →
  indistinguishable f (set_ss_inner i1 s1) (set_ss_inner i2 s2).
Proof.
  intros [_ _ Hf1 Hf2 Hns Hv] Hi1 Hi2 [Hn1 Hs1] [Hn2 Hs2]. split; try done; simpl.
  - congruence.
  - by rewrite Hs1, Hs2, Hn1.
Qed.

(** The outcome of one value on one store: refusals only, whatever it does. *)
Lemma store_value_frame (s : SessionStore StoreInstance) (w : W) v : rs_inv (ss_inner s) →
  ∃ ps i w', store_value (R:=RejectId) validate_cb on_insert_cb v (s, w) = (Ok ps, (set_ss_inner i s, w'))
    ∧ disclosed ps = [] ∧ rs_inv i ∧ si_namespace i = si_namespace (ss_inner s)
    ∧ si_session_snapshot i = si_session_snapshot (ss_inner s).
Proof.
  intros Hinv. destruct v as [e c]. unfold store_value. rewrite st_gets_bind. destruct s as [i0 f0].
  destruct (validate_cb (Build_SessionStore i0 f0, w).1 e c);
    unfold mbind, ST_bind, store_op, st_zoom; simpl in *.
  - rewrite ss_put. unfold on_inner, st_zoom. simpl.
    destruct (put_inst_wp i0 e Hinv) as (o & i & Heq & Hi & _). rewrite Heq.
    pose proof (put_keeps e i0) as Hk. rewrite Heq in Hk.
    destruct o; eexists _, i, _; (split; [done|]); exact (conj eq_refl (conj Hi Hk)).
  - eexists _, i0, _. split; [done|]. exact (conj eq_refl (conj Hinv (conj eq_refl eq_refl))).
  - rewrite ss_would_insert. unfold on_inner, st_zoom. simpl.
    destruct (would_insert_inst_wp i0 e Hinv) as (b & i & Heq & _ & Hi & _). rewrite Heq.
    pose proof (would_insert_keeps e i0) as Hk. rewrite Heq in Hk.
    destruct b; eexists _, i, _; (split; [done|]); exact (conj eq_refl (conj Hi Hk)).
Qed.

Lemma hidden_value f v :
  st_rel (both (indistinguishable f) (λ _ _ : W, True)) (λ ps qs, disclosed ps = [] ∧ disclosed qs = [])
    (store_value (R:=RejectId) validate_cb on_insert_cb v) (store_value validate_cb on_insert_cb v).
Proof.
  intros [s1 w1] [s2 w2] [Hi _]. simpl in Hi.
  destruct (store_value_frame s1 w1 v (ind_inv1 _ _ _ Hi)) as (ps & i1 & w1' & -> & Hp & Hv1 & Hk1).
  destruct (store_value_frame s2 w2 v (ind_inv2 _ _ _ Hi)) as (qs & i2 & w2' & -> & Hq & Hv2 & Hk2).
  split; [done|]. split; [|done]. by apply indistinguishable_step.
Qed.

(** C9: a filtered session with a snapshot hides what its filter refuses.
    Two sessions whose snapshots have the same admitted entries, however
    different their other entries and their live stores are, answer any
    message alike: with the same error, or with the same fingerprints,
    ranges and entries.  Only refusals of values the peer itself sent may
    differ. *)
Theorem session_hides_refused f m s1 s2 (w1 w2 : W) : indistinguishable f s1 s2 →
  match (process_message (R:=RejectId) config validate_cb on_insert_cb (λ _, content_status_cb) m (s1, w1)).1,
    (process_message (R:=RejectId) config validate_cb on_insert_cb (λ _, content_status_cb) m (s2, w2)).1 with
  | Ok r1, Ok r2 => disclosed (default [] r1) = disclosed (default [] r2)
  | Err e1, Err e2 => e1 = e2
  | Panic, Panic => True
  | _, _ => False
  end.
Proof.
  intros Hi.
  pose proof (rel_process_message config validate_cb on_insert_cb (λ _ : W, content_status_cb)
    (indistinguishable f) (λ _ _ : W, True) (λ e, f e = true) (hidden_range f) (hidden_fingerprint f)
    (λ _ _ _ _, eq_refl) (hidden_value f) m (s1, w1) (s2, w2) (conj Hi I)) as Hrel.
  destruct (process_message _ _ _ _ m (s1, w1)) as [[r1|e1|] p1],
    (process_message _ _ _ _ m (s2, w2)) as [[r2|e2|] p2]; simpl; try done.
  - by destruct Hrel as [[? _] _].
  - by destruct Hrel.
Qed.

Lemma hidden_first f : st_rel (indistinguishable f) eq (ss_get_first (S:=StoreInstance)) ss_get_first.
Proof.
  intros s1 s2 Hi. pose proof Hi as [_ _ Hf1 Hf2 Hns (t1 & t2 & Ht1 & Ht2 & Hv)].
  unfold ss_get_first. rewrite !st_gets_bind, Hf1, Hf2.
  unfold mbind, ST_bind, on_inner, st_zoom. cbn [rs_get_range StoreInstance_ranger].
  rewrite (snapshot_get_range _ t1 full_range Ht1), (snapshot_get_range _ t2 full_range Ht2), <- Hns.
  change (boundary_foreign (si_namespace (ss_inner s1)) full_range) with false. cbv iota beta.
  rewrite !in_full_range, !find_filter. change (FilteredIter (Some f)) with (List.filter f) in Hv.
  rewrite Hv. by destruct s1, s2.
Qed.

(** The first message of a filtered session hides what its filter
    refuses too: it starts at the first admitted entry, and two such sessions
    send the same one. *)
Theorem initial_message_hides_refused f s1 s2 : indistinguishable f s1 s2 →
  match (initial_message (E:=SignedEntry) (R:=RejectId) s1).1,
    (initial_message (E:=SignedEntry) (R:=RejectId) s2).1 with
  | Ok m1, Ok m2 => m1 = m2
  | Err e1, Err e2 => e1 = e2
  | Panic, Panic => True
  | _, _ => False
  end.
Proof.
  intros Hi.
  assert (st_rel (indistinguishable f) eq
    (initial_message (S:=SessionStore StoreInstance) (E:=SignedEntry) (R:=RejectId))
    initial_message) as Hrel.
  { unfold initial_message. eapply rel_bind; [apply hidden_first|]. intros x ? <-.
    eapply rel_bind; [apply hidden_fingerprint|]. intros fp ? <-. by apply rel_ret. }
  specialize (Hrel s1 s2 Hi).
  destruct (initial_message s1) as [[r1|e1|] p1], (initial_message s2) as [[r2|e2|] p2]; simpl; try done.
  all: by destruct Hrel.
Qed.
End hiding.

(** ** Concrete sessions *)
Definition demo_validate_session (s : SessionStore StoreInstance) (e : SignedEntry)
    (c : ContentStatus) : ValidateOutcome :=
  if eqb (se_namespace e) demo_ns then Accept else Reject.
Definition refuse_all (s : SessionStore StoreInstance) (e : SignedEntry) (c : ContentStatus)
    : ValidateOutcome := Reject.

(** A session that sees only entries with a key other than [x41]. *)
Definition demo_filter : EntryFilter := λ e, negb (eqb (se_key e) [x41]).
Definition demo_filtered : SessionStore StoreInstance :=
  SessionStore_new demo_session (Some demo_filter).

Lemma demo_validate_session_ok (s : SessionStore StoreInstance) e c :
  rs_inv s → demo_validate_session s e c = Accept → rs_entry_ok demo_filtered e.
Proof.
  intros _. unfold demo_validate_session. destruct (eqb _ _) eqn:Hns; [|done]. intros _.
  by apply eqb_eq in Hns.
Qed.

Lemma demo_filtered_wrote : rs_wrote demo_filtered demo_filtered.
Proof. split; [exact demo_instance_inv|done|done]. Qed.

Lemma demo_filtered_ok m : message_ok (R:=RejectId) demo_filtered [MpFingerprint m] ↔ range_ok demo_filtered (rf_range m).
Proof.
  split.
  - intros [_ Hf]. apply Hf. by left.
  - intros Hr. split.
    + intros item [[=]|[]%elem_of_nil]%elem_of_cons.
    + intros fp [[= ->]|[]%elem_of_nil]%elem_of_cons. exact Hr.
Qed.

Definition demo_ask : RangeFingerprint RecordIdentifier :=
  Build_RangeFingerprint (Build_Range ri_default ri_default) (arr_rep 32 x00).

Lemma session_sends_admitted_witness :
  wp (process_message SyncConfig_default demo_validate_session (λ _ _ _ (w : unit), w)
    (λ (_ : unit) (_ : SignedEntry), Missing) [MpFingerprint demo_ask]) (demo_filtered, tt)
    (λ reply p', rs_inv p'.1 ∧ ∀ v,
      v ∈ message_values (R:=RejectId) (default [] reply) → demo_filter v.1 = true).
Proof.
  apply (session_sends_admitted SyncConfig_default demo_validate_session (λ _ _ _ (w : unit), w)
    (λ (_ : unit) (_ : SignedEntry), Missing) demo_filtered demo_validate_session_ok demo_filter
    [MpFingerprint demo_ask] (demo_filtered, tt) eq_refl eq_refl demo_filtered_wrote).
  apply demo_filtered_ok. by left.
Defined.

Lemma refusals_read_whole_store_witness :
  wp (process_message SyncConfig_default refuse_all (λ _ _ _ (w : unit), w)
    (λ (_ : unit) (_ : SignedEntry), Missing)
    [MpItem (Build_RangeItem (Build_Range ri_default ri_default) [(demo_signed x41 5, Missing)] true)])
    (demo_filtered, tt) (λ reply p', rs_inv p'.1
      ∧ ((superseded (ss_inner demo_filtered) (demo_signed x41 5) ∧ reply = None)
        ∨ (¬ superseded (ss_inner demo_filtered) (demo_signed x41 5)
           ∧ reply = Some [MpRejected (re_reject_id (demo_signed x41 5))]))).
Proof.
  exact (refusals_read_whole_store SyncConfig_default refuse_all (λ _ _ _ (w : unit), w)
    (λ (_ : unit) (_ : SignedEntry), Missing) (Build_Range ri_default ri_default)
    (demo_signed x41 5) Missing (demo_filtered, tt) demo_instance_inv eq_refl).
Defined.

(** The same session over a replica without the hidden entry. *)
Definition empty_tables : Tables := set_records tbl_empty demo_tables.
Definition demo_without : SessionStore StoreInstance :=
  SessionStore_new (with_session_snapshot demo_ns demo_store (Some empty_tables)) (Some demo_filter).

Lemma demo_indistinguishable : indistinguishable demo_filter demo_filtered demo_without.
Proof.
  split; [exact demo_instance_inv|exact demo_instance_inv|done|done|done|].
  exists demo_tables, empty_tables. split; [done|]. split; [done|]. vm_compute. reflexivity.
Qed.

Lemma session_hides_refused_witness :
  match (process_message (R:=RejectId) SyncConfig_default demo_validate_session (λ _ _ _ (w : unit), w)
      (λ (_ : unit) (_ : SignedEntry), Missing) [MpFingerprint demo_ask] (demo_filtered, tt)).1,
    (process_message (R:=RejectId) SyncConfig_default demo_validate_session (λ _ _ _ (w : unit), w)
      (λ (_ : unit) (_ : SignedEntry), Missing) [MpFingerprint demo_ask] (demo_without, tt)).1 with
  | Ok r1, Ok r2 => disclosed (default [] r1) = disclosed (default [] r2)
  | Err e1, Err e2 => e1 = e2
  | Panic, Panic => True
  | _, _ => False
  end.
Proof.
  exact (session_hides_refused SyncConfig_default demo_validate_session (λ _ _ _ (w : unit), w)
    (λ _, Missing) demo_filter [MpFingerprint demo_ask] demo_filtered demo_without tt tt
    demo_indistinguishable).
Defined.

Lemma initial_message_hides_refused_witness :
  match (initial_message (E:=SignedEntry) (R:=RejectId) demo_filtered).1,
    (initial_message (E:=SignedEntry) (R:=RejectId) demo_without).1 with
  | Ok m1, Ok m2 => m1 = m2
  | Err e1, Err e2 => e1 = e2
  | Panic, Panic => True
  | _, _ => False
  end.
Proof.
  exact (initial_message_hides_refused demo_filter demo_filtered demo_without
    demo_indistinguishable).
Defined.
