(* ===== verification/QueryIter.v ===== *)
(** * Running a query

    Models [src/store/fs/query.rs] ([QueryIterator]) with the filtered ranges
    of [src/store/fs/ranges.rs] and [Store::get_many] of
    [src/store/fs.rs].  The iterator is the state machine of the source, with
    its offset and count; [query_result] is what a query means, and
    [query_iterator_correct] says the iterator yields it, in full.  A range of
    the store is the list of its rows; reading a row does not fail. *)
From S2P Require Import Prelude Redb Keys Entry Heads Query Bounds Ranger Info Store StoreInstance.

(** ** Filtered ranges *)
Section ranges.
Context {A T : Type}.

(** [Range::next] and [Range::next_back]. *)
Definition range_step (direction : SortDirection) (l : list A) : option (A * list A) :=
  match direction with
  | Asc => match l with [] => None | x :: l' => Some (x, l') end
  | Desc => match reverse l with [] => None | x :: l' => Some (x, reverse l') end
  end.

(** The loop of [next_filter_map]; [fuel] bounds its steps. *)
Fixpoint next_filter_map_fuel (fuel : nat) (direction : SortDirection) (filter_map : A → option T)
    (l : list A) : option T * list A :=
  match fuel with
  | 0 => (None, l)
  | S fuel =>
      match range_step direction l with
      | None => (None, l)
      | Some (res, l') =>
          match filter_map res with
          | None => next_filter_map_fuel fuel direction filter_map l'
          | Some item => (Some item, l')
          end
      end
  end.
Definition next_filter_map (direction : SortDirection) (filter_map : A → option T) (l : list A)
    : option T * list A := next_filter_map_fuel (S (length l)) direction filter_map l.
End ranges.

Section query.
Context `{Redb, Crypto, Postcard DownloadPolicy}.

Abbreviation RecordsTable := (table RecordsId RecordsValue _).

Definition value_is_empty (value : RecordsValue) : bool :=
  let '(_, _, _, _, hash) := value in eqb hash Hash_EMPTY.

(** [RecordsRange::next_filtered]. *)
Definition records_next_filtered (direction : SortDirection)
    (filter : RecordsId → RecordsValue → bool) (range : list (RecordsId * RecordsValue))
    : option SignedEntry * list (RecordsId * RecordsValue) :=
  next_filter_map direction
    (λ p, if filter p.1 p.2 then Some (into_entry p.1 p.2) else None) range.

(** [RecordsByKeyRange::next_filtered]: each row is looked up in the records
    table; a row without a record is skipped. *)
Definition by_key_entry (t : RecordsTable) (filter : RecordsByKeyId → bool)
    (p : RecordsByKeyId * unit) : option SignedEntry :=
  if negb (filter p.1) then None
  else
    let '(namespace, key, author) := p.1 in
    into_entry (namespace, author, key) <$> tbl_get t (namespace, author, key).
Definition by_key_next_filtered (direction : SortDirection) (t : RecordsTable)
    (filter : RecordsByKeyId → bool) (range : list (RecordsByKeyId * unit))
    : option SignedEntry * list (RecordsByKeyId * unit) :=
  next_filter_map direction (by_key_entry t filter) range.

Inductive QueryRange :=
| QrAuthorKey (range : list (RecordsId * RecordsValue)) (key_filter : KeyFilter)
| QrKeyAuthor (records_table : RecordsTable) (range : list (RecordsByKeyId * unit))
    (author_filter : AuthorFilter) (selector : option LatestPerKeySelector).

Record QueryIterator := {
  qi_range : QueryRange;
  qi_query : Query;
  qi_offset : N;
  qi_count : N;
}.

Definition QueryIterator_new (t : Tables) (ns : NamespaceId) (query : Query) : QueryIterator :=
  let range :=
    match IndexKind_from query with
    | IkAuthorKey range key_filter =>
        let '(bounds, filter) :=
          match range with
          | AfExact author => (RecordsBounds_author_key ns author key_filter, KfAny)
          | AfAny => (RecordsBounds_namespace ns, key_filter)
          end in
        QrAuthorKey (tbl_range (records t) bounds) filter
    | IkKeyAuthor range author_filter latest_per_key =>
        QrKeyAuthor (records t) (tbl_range (records_by_key t) (ByKeyBounds_new ns range))
          author_filter (if latest_per_key then Some None else None)
    end in
  {| qi_range := range; qi_query := query; qi_offset := 0; qi_count := 0 |}.

(** The inner loop of the by-key case: pull a row, push it into the selector,
    skip empty entries. *)
Fixpoint key_author_next (fuel : nat) (direction : SortDirection) (include_empty : bool)
    (t : RecordsTable) (author_filter : AuthorFilter) (range : list (RecordsByKeyId * unit))
    (selector : option LatestPerKeySelector) : option SignedEntry * QueryRange :=
  match fuel with
  | 0 => (None, QrKeyAuthor t range author_filter selector)
  | S fuel =>
      let '(next, range) := by_key_next_filtered direction t
        (λ id, AuthorFilter_matches author_filter id.2) range in
      let emit (next : option SignedEntry) (selector : option LatestPerKeySelector) :=
        if negb include_empty && match next with Some e => se_is_empty e | None => false end
        then key_author_next fuel direction include_empty t author_filter range selector
        else (next, QrKeyAuthor t range author_filter selector) in
      match selector with
      | None => emit next None
      | Some sel =>
          let '(res, sel) := selector_push sel next in
          match res with
          | SrContinue =>
              key_author_next fuel direction include_empty t author_filter range (Some sel)
          | SrFinished => emit None (Some sel)
          | SrSome res => emit (Some res) (Some sel)
          end
      end
  end.

Definition query_range_next (q : Query) (r : QueryRange) : option SignedEntry * QueryRange :=
  match r with
  | QrAuthorKey range key_filter =>
      let '(next, range) := records_next_filtered (q_sort_direction q)
        (λ id value, KeyFilter_matches key_filter id.2
           && (q_include_empty q || negb (value_is_empty value))) range in
      (next, QrAuthorKey range key_filter)
  | QrKeyAuthor t range author_filter selector =>
      key_author_next (S (S (2 * length range))) (q_sort_direction q) (q_include_empty q) t
        author_filter range selector
  end.

(** The outer loop of [next]: skip up to the offset. *)
Fixpoint qi_loop (fuel : nat) (it : QueryIterator) : option SignedEntry * QueryIterator :=
  match fuel with
  | 0 => (None, it)
  | S fuel =>
      let '(next, range) := query_range_next (qi_query it) (qi_range it) in
      if (qi_offset it <? q_offset (qi_query it))%N && match next with Some _ => true | None => false end
      then qi_loop fuel {| qi_range := range; qi_query := qi_query it;
        qi_offset := (qi_offset it + 1)%N; qi_count := qi_count it |}
      else (next, {| qi_range := range; qi_query := qi_query it;
        qi_offset := qi_offset it; qi_count := (qi_count it + 1)%N |})
  end.

Definition range_size (r : QueryRange) : nat :=
  match r with
  | QrAuthorKey range _ => length range
  | QrKeyAuthor _ range _ selector =>
      length range + match selector with Some (Some _) => 1 | _ => 0 end
  end.

Definition qi_next (it : QueryIterator) : option SignedEntry * QueryIterator :=
  if match q_limit (qi_query it) with Some limit => (limit <=? qi_count it)%N | None => false end
  then (None, it)
  else qi_loop (S (range_size (qi_range it))) it.

(** Draining an iterator. *)
Fixpoint qi_collect (fuel : nat) (it : QueryIterator) : list SignedEntry :=
  match fuel with
  | 0 => []
  | S fuel => match qi_next it with
              | (None, _) => []
              | (Some e, it') => e :: qi_collect fuel it'
              end
  end.

Definition get_many (ns : NamespaceId) (query : Query) : ST Store StoreErr QueryIterator :=
  t ← snapshot_owned;
  mret (QueryIterator_new t ns query).

(** ** What a query means *)
Definition directed {A} (d : SortDirection) (l : list A) : list A :=
  match d with Asc => l | Desc => reverse l end.

(** The entries a range still holds, in the order of the query. *)
Definition range_entries_left (q : Query) (r : QueryRange) : list SignedEntry :=
  match r with
  | QrAuthorKey range key_filter =>
      omap (λ p, if KeyFilter_matches key_filter p.1.2
                    && (q_include_empty q || negb (value_is_empty p.2))
                 then Some (into_entry p.1 p.2) else None) (directed (q_sort_direction q) range)
  | QrKeyAuthor t range author_filter selector =>
      let found := omap (by_key_entry t (λ id, AuthorFilter_matches author_filter id.2))
        (directed (q_sort_direction q) range) in
      List.filter (λ e, q_include_empty q || negb (se_is_empty e))
        match selector with None => found | Some sel => selector_run sel found end
  end.

Definition take_limit {A} (limit : option N) (count : N) (l : list A) : list A :=
  match limit with
  | None => l
  | Some limit => take (N.to_nat (limit - count)) l
  end.

Definition query_result (t : Tables) (ns : NamespaceId) (q : Query) : list SignedEntry :=
  take_limit (q_limit q) 0
    (drop (N.to_nat (q_offset q)) (range_entries_left q (qi_range (QueryIterator_new t ns q)))).

(** What an iterator will still yield. *)
Definition qi_left (it : QueryIterator) : list SignedEntry :=
  take_limit (q_limit (qi_query it)) (qi_count it)
    (drop (N.to_nat (q_offset (qi_query it) - qi_offset it))
      (range_entries_left (qi_query it) (qi_range it))).
End query.

(** ** The iterator yields the result *)
Section range_facts.
Context {A T : Type}.

Lemma directed_step (d : SortDirection) (l : list A) :
  match range_step d l with
  | None => directed d l = []
  | Some (x, l') => directed d l = x :: directed d l' ∧ length l = S (length l')
  end.
Proof.
  destruct d; simpl; [by destruct l|]. destruct (reverse l) as [|x k] eqn:Hr; [done|].
  rewrite reverse_involutive. split; [done|].
  apply (f_equal length) in Hr. rewrite length_reverse in Hr. by rewrite length_reverse.
Qed.

Lemma next_filter_map_fuel_spec fuel d (f : A → option T) l : length l < fuel →
  let '(r, l') := next_filter_map_fuel fuel d f l in
  r = head (omap f (directed d l)) ∧ omap f (directed d l') = tail (omap f (directed d l))
  ∧ length l' + (if r then 1 else 0) ≤ length l.
Proof.
  revert l. induction fuel as [|fuel IH]; intros l Hlt; [lia|]. simpl.
  pose proof (directed_step d l) as Hs. destruct (range_step d l) as [[x l']|].
  2: { rewrite Hs. simpl. split_and!; [done|done|lia]. }
  destruct Hs as [Hd Hl]. rewrite Hd. simpl. destruct (f x) as [y|]; simpl.
  - split_and!; [done|done|lia].
  - specialize (IH l' ltac:(lia)). destruct (next_filter_map_fuel fuel d f l') as [r l''].
    destruct IH as (-> & -> & Hle). split_and!; [done|done|]. destruct (head _); lia.
Qed.

Lemma next_filter_map_spec d (f : A → option T) l :
  let '(r, l') := next_filter_map d f l in
  r = head (omap f (directed d l)) ∧ omap f (directed d l') = tail (omap f (directed d l))
  ∧ length l' + (if r then 1 else 0) ≤ length l.
Proof. apply next_filter_map_fuel_spec. lia. Qed.
End range_facts.

Section query_facts.
Context `{RedbOk, Crypto, Postcard DownloadPolicy}.
Implicit Types (t : Tables) (q : Query) (it : QueryIterator).

Abbreviation RecordsTable := (table RecordsId RecordsValue _).

Lemma head_Some {A} (l : list A) x : Some x = head l → l = x :: tail l.
Proof. destruct l; [done|]. by intros [= ->]. Qed.
Lemma head_None {A} (l : list A) : None = head l → l = [].
Proof. by destruct l. Qed.

Lemma selector_push_some s e :
  let '(r, s') := selector_push s (Some e) in
  match r with SrFinished => False | _ => s' ≠ None end.
Proof.
  simpl. destruct s as [last|]; [|done]. destruct (eqb _ _); [|done].
  by destruct (_ <? _)%N.
Qed.

Definition pending (selector : option LatestPerKeySelector) : nat :=
  match selector with Some (Some _) => 1 | _ => 0 end.

Lemma key_author_next_spec fuel q (t : RecordsTable) af range selector :
  2 * length range + pending selector < fuel →
  let '(r, qr) := key_author_next fuel (q_sort_direction q) (q_include_empty q) t af range selector in
  let left := range_entries_left q (QrKeyAuthor t range af selector) in
  r = head left ∧ range_entries_left q qr = tail left.
Proof.
  revert range selector. induction fuel as [|fuel IH]; intros range selector Hlt; [lia|].
  cbn [key_author_next]. unfold by_key_next_filtered.
  pose proof (next_filter_map_spec (q_sort_direction q)
    (by_key_entry t (λ id, AuthorFilter_matches af id.2)) range) as Hn.
  destruct (next_filter_map _ _ range) as [next range'].
  destruct Hn as (Hnext & Hleft & Hlen). cbn [range_entries_left].
  set (found := omap (by_key_entry t (λ id, AuthorFilter_matches af id.2))
    (directed (q_sort_direction q) range)) in *.
  set (keep := λ e, q_include_empty q || negb (se_is_empty e)).
  assert (∀ e, negb (q_include_empty q) && se_is_empty e = negb (keep e)) as Hskip.
  { intros e. unfold keep. by rewrite negb_orb, negb_involutive. }
  destruct next as [e|].
  - apply head_Some in Hnext. rewrite Hnext in Hleft |- *. cbn [tail] in Hleft.
    destruct selector as [s|].
    + pose proof (selector_push_some s e) as Hpush. cbn [selector_run].
      destruct (selector_push s (Some e)) as [[| |x] s']; [done| |].
      * specialize (IH range' (Some s') ltac:(simpl in *; destruct s'; lia)).
        destruct (key_author_next fuel _ _ t af range' (Some s')). cbn [range_entries_left] in IH.
        by rewrite Hleft in IH.
      * rewrite Hskip. simpl. fold (keep x). destruct (keep x) eqn:Hk; simpl.
        -- by rewrite Hleft.
        -- specialize (IH range' (Some s') ltac:(simpl in *; destruct s'; lia)).
           destruct (key_author_next fuel _ _ t af range' (Some s')). cbn [range_entries_left] in IH.
           by rewrite Hleft in IH.
    + rewrite Hskip. simpl. fold (keep e). destruct (keep e) eqn:Hk; simpl; [by rewrite Hleft|].
      specialize (IH range' None ltac:(simpl in *; lia)).
      destruct (key_author_next fuel _ _ t af range' None). cbn [range_entries_left] in IH.
      by rewrite Hleft in IH.
  - apply head_None in Hnext. rewrite Hnext in Hleft |- *. cbn [tail] in Hleft.
    destruct selector as [[x|]|]; simpl.
    + rewrite Hskip. fold (keep x). destruct (keep x) eqn:Hk; simpl; [by rewrite Hleft|].
      specialize (IH range' (Some None) ltac:(simpl in *; lia)).
      destruct (key_author_next fuel _ _ t af range' (Some None)). cbn [range_entries_left] in IH.
      by rewrite Hleft in IH.
    + rewrite andb_false_r. simpl. by rewrite Hleft.
    + rewrite andb_false_r. simpl. by rewrite Hleft.
Qed.

Lemma query_range_next_spec q qr :
  let '(r, qr') := query_range_next q qr in
  r = head (range_entries_left q qr) ∧ range_entries_left q qr' = tail (range_entries_left q qr).
Proof.
  destruct qr as [range kf|t range af selector]; cbn [query_range_next].
  - unfold records_next_filtered. cbn [range_entries_left].
    pose proof (next_filter_map_spec (q_sort_direction q) (λ p : RecordsId * RecordsValue,
      if KeyFilter_matches kf p.1.2 && (q_include_empty q || negb (value_is_empty p.2))
      then Some (into_entry p.1 p.2) else None) range) as Hn.
    destruct (next_filter_map _ _ range). by destruct Hn as (? & ? & _).
  - apply key_author_next_spec. unfold pending. destruct selector as [[x|]|]; simpl; lia.
Qed.

Lemma omap_length {A B} (f : A → option B) (l : list A) : length (omap f l) ≤ length l.
Proof.
  induction l as [|x l IH]; [done|]. cbn [omap list_omap length].
  change (list_omap _ _ f l) with (omap f l). destruct (f x); cbn [length]; lia.
Qed.
Lemma filter_length {A} (f : A → bool) (l : list A) : length (List.filter f l) ≤ length l.
Proof. induction l as [|x l IH]; simpl; [done|]. destruct (f x); simpl; lia. Qed.
Lemma directed_length {A} d (l : list A) : length (directed d l) = length l.
Proof. destruct d; [done|apply length_reverse]. Qed.
Lemma selector_run_length s l :
  length (selector_run s l) ≤ length l + match s with Some _ => 1 | None => 0 end.
Proof.
  revert s. induction l as [|e l IH]; intros s; [by destruct s; simpl; lia|]. cbn [selector_run].
  unfold selector_push. destruct s as [last|]; [|specialize (IH (Some e)); simpl in *; lia].
  destruct (eqb _ _); [destruct (_ <? _)%N|]; simpl;
    [specialize (IH (Some e))|specialize (IH (Some last))|specialize (IH (Some e))]; simpl in *; lia.
Qed.

Lemma range_size_spec q qr : length (range_entries_left q qr) ≤ range_size qr.
Proof.
  destruct qr as [range kf|t range af selector]; simpl.
  - etrans; [apply omap_length|]. by rewrite directed_length.
  - etrans; [apply filter_length|].
    pose proof (omap_length (by_key_entry t (λ id, AuthorFilter_matches af id.2))
      (directed (q_sort_direction q) range)) as Hf. rewrite directed_length in Hf.
    destruct selector as [s|]; [|lia]. etrans; [apply selector_run_length|]. destruct s; lia.
Qed.

(** The loop of [next] returns the next entry past the offset. *)
Lemma qi_loop_spec fuel it : length (range_entries_left (qi_query it) (qi_range it)) < fuel →
  let '(r, it') := qi_loop fuel it in
  let rest := drop (N.to_nat (q_offset (qi_query it) - qi_offset it))
    (range_entries_left (qi_query it) (qi_range it)) in
  r = head rest ∧ qi_query it' = qi_query it ∧ qi_count it' = (qi_count it + 1)%N
  ∧ drop (N.to_nat (q_offset (qi_query it) - qi_offset it'))
      (range_entries_left (qi_query it) (qi_range it')) = tail rest.
Proof.
  revert it. induction fuel as [|fuel IH]; intros [range q off cnt] Hlt; [simpl in *; lia|].
  cbn [qi_loop qi_range qi_query qi_offset qi_count] in *.
  pose proof (query_range_next_spec q range) as Hn.
  destruct (query_range_next q range) as [next range']. destruct Hn as [Hnext Hleft].
  destruct (N.ltb_spec off (q_offset q)) as [Hoff|Hoff].
  - destruct next as [e|]; cbn [andb].
    + apply head_Some in Hnext. rewrite Hnext in Hlt, Hleft |- *. simpl in Hlt, Hleft.
      specialize (IH {| qi_range := range'; qi_query := q; qi_offset := (off + 1)%N; qi_count := cnt |}).
      cbn [qi_range qi_query qi_offset qi_count] in IH. rewrite Hleft in IH.
      specialize (IH ltac:(lia)). destruct (qi_loop fuel _) as [r it'].
      replace (N.to_nat (q_offset q - off)) with (S (N.to_nat (q_offset q - (off + 1)))) by lia.
      simpl. exact IH.
    + apply head_None in Hnext. rewrite Hnext in Hleft |- *. simpl.
      rewrite Hleft. simpl. by rewrite !drop_nil.
  - replace (N.to_nat (q_offset q - off)) with 0 by lia. cbn [andb]. simpl.
    split_and!; [by rewrite drop_0|done|done|].
    replace (N.to_nat (q_offset q - off)) with 0 by lia. by rewrite !drop_0.
Qed.

Lemma qi_next_spec it :
  let '(r, it') := qi_next it in r = head (qi_left it) ∧ qi_left it' = tail (qi_left it).
Proof.
  unfold qi_next, qi_left at 1 3, take_limit. destruct it as [range q off cnt].
  cbn [qi_range qi_query qi_offset qi_count].
  pose proof (range_size_spec q range) as Hsize.
  pose proof (qi_loop_spec (S (range_size range))
    {| qi_range := range; qi_query := q; qi_offset := off; qi_count := cnt |}) as Hl.
  cbn [qi_range qi_query qi_offset qi_count] in Hl. specialize (Hl ltac:(lia)).
  destruct (qi_loop _ _) as [r it'].
  destruct Hl as (Hr & Hq & Hc & Hrest).
  destruct (q_limit q) as [limit|] eqn:Hlim.
  - destruct (N.leb_spec limit cnt) as [Hle|Hgt].
    + replace (N.to_nat (limit - cnt)) with 0 by lia. simpl. split; [done|].
      unfold qi_left, take_limit. simpl. rewrite Hlim.
      by replace (N.to_nat (limit - cnt)) with 0 by lia.
    + replace (N.to_nat (limit - cnt)) with (S (N.to_nat (limit - (cnt + 1)))) by lia.
      unfold qi_left, take_limit. rewrite Hq, Hlim, Hc, Hrest. rewrite Hr.
      destruct (drop (N.to_nat (q_offset q - off)) _); simpl; [by rewrite !take_nil|done].
  - unfold qi_left, take_limit. rewrite Hq, Hlim, Hrest. done.
Qed.

Lemma qi_collect_left fuel it : length (qi_left it) < fuel → qi_collect fuel it = qi_left it.
Proof.
  revert it. induction fuel as [|fuel IH]; intros it Hlt; [lia|]. simpl.
  pose proof (qi_next_spec it) as Hn. destruct (qi_next it) as [r it']. destruct Hn as [Hr Hleft].
  destruct r as [e|].
  - apply head_Some in Hr. rewrite Hr in Hlt |- *. simpl in Hlt. rewrite IH, Hleft; [done|].
    rewrite Hleft. lia.
  - by apply head_None in Hr as ->.
Qed.
End query_facts.

(** ** The result in terms of the tables *)
Section result_facts.
Context `{RedbOk, Crypto, Postcard DownloadPolicy}.
Implicit Types (t : Tables) (q : Query) (e : SignedEntry).

Definition before {A} `{Cmp A} (d : SortDirection) (x y : A) : Prop :=
  match d with Asc => ltb x y = true | Desc => ltb y x = true end.

#[export] Instance before_strict {A} `{CmpOk A} d : StrictOrder (before (A:=A) d).
Proof. destruct d; [apply ltb_strict|apply gtb_strict]. Qed.

Lemma sorted_directed {A K} `{CmpOk K} (f : A → K) (d : SortDirection) (l : list A) :
  StronglySorted (key_lt f) l → StronglySorted (λ x y, before d (f x) (f y)) (directed d l).
Proof.
  destruct d; [done|]. unfold directed. induction l as [|x l IH]; [constructor|].
  intros [Hall Hl]%StronglySorted_cons. rewrite reverse_cons. apply StronglySorted_app.
  rewrite Forall_forall in Hall. split_and!; [|by apply IH|by repeat constructor].
  intros y z Hy ->%list_elem_of_singleton. rewrite elem_of_reverse in Hy. exact (Hall y Hy).
Qed.

Lemma elem_of_directed {A} d (l : list A) x : x ∈ directed d l ↔ x ∈ l.
Proof. destruct d; [done|apply elem_of_reverse]. Qed.

Lemma sorted_omap {A B K} (R : relation K) (g : A → K) (h : B → K) (f : A → option B) (l : list A) :
  (∀ a b, f a = Some b → h b = g a) →
  StronglySorted (λ x y, R (g x) (g y)) l → StronglySorted (λ x y, R (h x) (h y)) (omap f l).
Proof.
  intros Hf. induction l as [|a l IH]; [constructor|]. intros [Hall Hl]%StronglySorted_cons.
  simpl. destruct (f a) as [b|] eqn:Hb; [|by apply IH]. apply StronglySorted_cons.
  split; [|by apply IH]. rewrite Forall_forall in Hall. apply Forall_forall.
  intros b' (a' & Ha' & Hb')%list_elem_of_omap. rewrite (Hf _ _ Hb), (Hf _ _ Hb'). by apply Hall.
Qed.

(** The entry is a record of the replica. *)
Definition in_replica t (ns : NamespaceId) e : Prop :=
  se_namespace e = ns ∧ tbl_get (records t) (ri_byte_tuple (se_id e)) = Some (record_row e).

Definition by_key_tuple e : RecordsByKeyId := (se_namespace e, se_key e, se_author e).

Lemma by_key_entry_Some t (f : RecordsByKeyId → bool) p e :
  by_key_entry (records t) f p = Some e ↔
    f p.1 = true ∧ by_key_tuple e = p.1
    ∧ tbl_get (records t) (ri_byte_tuple (se_id e)) = Some (record_row e).
Proof.
  destruct p as [[[n k] a] []]. unfold by_key_entry. cbn [fst].
  destruct (f (n, k, a)); cbn [negb]; [|split; [done|by intros [? _]]].
  destruct (tbl_get (records t) (n, a, k)) as [v|] eqn:Hg; cbn [fmap option_fmap option_map]; split.
  - intros Heq. apply (inj Some) in Heq. subst e. rewrite into_entry_id, ri_to_of_tuple, row_into_entry.
    split_and!; [done| |done]. by destruct v as [[[[??]?]?]?].
  - intros (_ & Hk & Hr). injection Hk as <- <- <-. f_equal.
    change (tbl_get (records t) (ri_byte_tuple (se_id e)) = Some v) in Hg. rewrite Hr in Hg.
    injection Hg as <-. apply into_entry_row.
  - done.
  - intros (_ & Hk & Hr). injection Hk as <- <- <-.
    change (tbl_get (records t) (ri_byte_tuple (se_id e)) = None) in Hg. congruence.
Qed.

Definition by_key_found t ns (kf : KeyFilter) (af : AuthorFilter) d : list SignedEntry :=
  omap (by_key_entry (records t) (λ id, AuthorFilter_matches af id.2))
    (directed d (tbl_range (records_by_key t) (ByKeyBounds_new ns kf))).

Lemma elem_of_by_key_found t ns kf af d e : index_complete t →
  e ∈ by_key_found t ns kf af d ↔
    in_replica t ns e ∧ AuthorFilter_matches af (se_author e) = true ∧ key_scan kf (se_key e).
Proof.
  intros Hidx. unfold by_key_found. rewrite list_elem_of_omap. split.
  - intros ([id u] & Hin & (Hf & Hid & Hg)%by_key_entry_Some). rewrite elem_of_directed in Hin.
    apply tbl_range_get in Hin as [Hb _]. simpl in Hf, Hid. subst id.
    apply by_key_bounds_in in Hb as [Hns Hk]. done.
  - intros [[Hns Hg] [Hf Hk]]. exists (by_key_tuple e, tt). split.
    + rewrite elem_of_directed. apply tbl_range_get. split; [by apply by_key_bounds_in|].
      eapply Hidx. exact Hg.
    + by apply by_key_entry_Some.
Qed.

Lemma by_key_found_sorted t ns kf af d :
  StronglySorted (λ x y, before d (by_key_tuple x) (by_key_tuple y)) (by_key_found t ns kf af d).
Proof.
  apply (sorted_omap (before d) fst).
  - by intros p e (_ & ? & _)%by_key_entry_Some.
  - apply (sorted_directed fst), tbl_range_sorted.
Qed.

Lemma value_is_empty_row e : value_is_empty (record_row e) = se_is_empty e.
Proof. by destruct e as [[??] [? [???]]]. Qed.

(** The record rows of an author-ordered query. *)
Definition author_key_found t ns q : list SignedEntry :=
  let '(bounds, kf) := match q_filter_author q with
    | AfExact author => (RecordsBounds_author_key ns author (q_filter_key q), KfAny)
    | AfAny => (RecordsBounds_namespace ns, q_filter_key q) end in
  range_entries_left q (QrAuthorKey (tbl_range (records t) bounds) kf).

Lemma author_key_entry_Some q kf (p : RecordsId * RecordsValue) e :
  (if KeyFilter_matches kf p.1.2 && (q_include_empty q || negb (value_is_empty p.2))
   then Some (into_entry p.1 p.2) else None) = Some e ↔
  p = (ri_byte_tuple (se_id e), record_row e) ∧ KeyFilter_matches kf (se_key e) = true
  ∧ (q_include_empty q = true ∨ se_is_empty e = false).
Proof.
  destruct p as [[[n a] k] v]. cbn [fst snd].
  assert (∀ b, (if b : bool then Some (into_entry (n, a, k) v) else None) = Some e
    ↔ b = true ∧ into_entry (n, a, k) v = e) as -> by (intros [|]; naive_solver).
  rewrite andb_true_iff, orb_true_iff, negb_true_iff. split.
  - intros [[Hk He] <-]. rewrite into_entry_id, ri_to_of_tuple, row_into_entry.
    split; [done|]. destruct v as [[[[??]?]?]?]. done.
  - intros (Hp & Hk & He). injection Hp as -> -> -> ->. rewrite value_is_empty_row.
    split; [done|]. apply into_entry_row.
Qed.

Lemma elem_of_author_key_found t ns q e :
  e ∈ author_key_found t ns q ↔
    in_replica t ns e ∧ AuthorFilter_matches (q_filter_author q) (se_author e) = true
    ∧ match q_filter_author q with
      | AfAny => KeyFilter_matches (q_filter_key q) (se_key e) = true
      | AfExact _ => key_scan (q_filter_key q) (se_key e) end
    ∧ (q_include_empty q = true ∨ se_is_empty e = false).
Proof.
  unfold author_key_found.
  destruct (q_filter_author q) as [|a]; cbn [range_entries_left]; rewrite list_elem_of_omap;
    setoid_rewrite author_key_entry_Some; setoid_rewrite elem_of_directed; split.
  - intros (p & Hin & -> & Hk & He). apply tbl_range_get in Hin as [Hb Hg].
    rewrite namespace_bounds_in in Hb. by apply eqb_eq in Hb.
  - intros ([Hns Hg] & _ & Hk & He). exists (ri_byte_tuple (se_id e), record_row e).
    split; [|done]. apply tbl_range_get. split; [|done]. rewrite namespace_bounds_in.
    by apply eqb_eq.
  - intros (p & Hin & -> & Hk & He). apply tbl_range_get in Hin as [Hb Hg].
    apply author_key_bounds_in in Hb as (Hns & Ha & Hs).
    split_and!; [by split|by apply eqb_eq|exact Hs|exact He].
  - intros ([Hns Hg] & Ha & Hk & He). exists (ri_byte_tuple (se_id e), record_row e).
    split; [|done]. apply tbl_range_get. split; [|done]. apply eqb_eq in Ha.
    by apply author_key_bounds_in.
Qed.

Lemma author_key_found_sorted t ns q :
  StronglySorted (λ x y, before (q_sort_direction q) (ri_byte_tuple (se_id x)) (ri_byte_tuple (se_id y)))
    (author_key_found t ns q).
Proof.
  unfold author_key_found. destruct (match q_filter_author q with AfExact _ => _ | AfAny => _ end) as [b kf].
  apply (sorted_omap (before (q_sort_direction q)) fst).
  - intros p e Hp. by apply author_key_entry_Some in Hp as [-> _].
  - apply (sorted_directed fst), tbl_range_sorted.
Qed.
(** *** The results *)
Lemma pair_ltb_iff {A B} `{CmpOk A, CmpOk B} (x x' : A) (y y' : B) :
  ltb (x, y) (x', y') = true ↔ ltb x x' = true ∨ (x = x' ∧ ltb y y' = true).
Proof. by rewrite pair_ltb, orb_true_iff, andb_true_iff, eqb_eq. Qed.

Definition entry_before (d : SortDirection) (x y : SignedEntry) : Prop :=
  before d (by_key_tuple x) (by_key_tuple y).
#[local] Instance entry_before_strict d : StrictOrder (entry_before d).
Proof.
  unfold entry_before. split.
  - intros x Hx. by apply (irreflexivity (before d)) in Hx.
  - intros x y z Hxy Hyz. by transitivity (by_key_tuple y).
Qed.

Lemma by_key_before d x y : se_namespace x = se_namespace y →
  before d (by_key_tuple x) (by_key_tuple y) ↔
    before d (se_key x) (se_key y) ∨ (se_key x = se_key y ∧ before d (se_author x) (se_author y)).
Proof.
  unfold by_key_tuple. intros ->. destruct d; simpl; rewrite !pair_ltb_iff, ltb_irrefl;
    (split; [intros [[?|[_ ?]]|[Heq ?]]; [done|by left|right; by injection Heq]
            |intros [?|[-> ?]]; [left; by right|by right]]).
Qed.

Lemma sorted_weaken {A} (R R' : relation A) (l : list A) :
  (∀ x y, x ∈ l → y ∈ l → R x y → R' x y) → StronglySorted R l → StronglySorted R' l.
Proof.
  induction l as [|x l IH]; intros Hw; [constructor|]. intros [Hall Hl]%StronglySorted_cons.
  apply StronglySorted_cons. rewrite !Forall_forall in *. split.
  - intros y Hy. apply Hw; [by left|by right|by apply Hall].
  - apply IH; [|done]. intros y z Hy Hz. apply Hw; by right.
Qed.

Lemma StronglySorted_filter_list {A} (R : relation A) (p : A → bool) (l : list A) :
  StronglySorted R l → StronglySorted R (List.filter p l).
Proof.
  induction l as [|x l IH]; [done|]. intros [Hall Hl]%StronglySorted_cons. simpl.
  destruct (p x); [|by apply IH]. apply StronglySorted_cons. split; [|by apply IH].
  rewrite Forall_forall in *. intros y [Hy _]%elem_of_filter_list. by apply Hall.
Qed.

Lemma latest_in_sorted (R : relation SignedEntry) `{!StrictOrder R} x l : StronglySorted R l →
  latest_in x l ↔ x ∈ l ∧ ∀ y, y ∈ l → se_key y = se_key x → y ≠ x →
    (se_timestamp y < se_timestamp x)%N ∨ (se_timestamp y = se_timestamp x ∧ R x y).
Proof.
  intros Hs. split.
  - intros Hx. split; [by apply latest_in_elem|]. destruct Hx as (l1 & l2 & -> & H1' & H2').
    apply StronglySorted_app in Hs as (_ & _ & [Hall _]%StronglySorted_cons).
    rewrite Forall_forall in Hall. intros y [Hy|[->|Hy]%elem_of_cons]%elem_of_app Hk Hne; [left; by apply H1'|done|].
    specialize (H2' y Hy Hk). specialize (Hall y Hy).
    destruct (N.lt_trichotomy (se_timestamp y) (se_timestamp x)) as [?|[?|?]]; [by left|by right|lia].
  - intros [Hx Hall]. apply list_elem_of_split in Hx as (l1 & l2 & ->). exists l1, l2.
    apply StronglySorted_app in Hs as (Hl1 & _ & [Hl2 _]%StronglySorted_cons).
    rewrite Forall_forall in Hl2. split_and!; [done| |].
    + intros y Hy Hk. assert (R y x) as Hyx by (apply Hl1; [done|left]).
      destruct (Hall y) as [?|[_ Hxy]]; [set_solver|done| |done|].
      * intros ->. by apply (irreflexivity R x).
      * exfalso. apply (irreflexivity R x). by transitivity y.
    + intros y Hy Hk. specialize (Hl2 y Hy).
      destruct (Hall y) as [?|[? _]]; [set_solver|done| |lia|lia].
      intros ->. by apply (irreflexivity R x).
Qed.

Definition candidate t ns q e : Prop :=
  in_replica t ns e ∧ AuthorFilter_matches (q_filter_author q) (se_author e) = true
  ∧ key_scan (q_filter_key q) (se_key e).

Definition wanted q e : Prop := q_include_empty q = true ∨ se_is_empty e = false.

Lemma keep_wanted q e : q_include_empty q || negb (se_is_empty e) = true ↔ wanted q e.
Proof. unfold wanted. by rewrite orb_true_iff, negb_true_iff. Qed.

(** The window of the matching entries that limit and offset select. *)
Definition window q (full : list SignedEntry) : list SignedEntry :=
  take_limit (q_limit q) 0 (drop (N.to_nat (q_offset q)) full).

(** The keys and the order of a flat query depend on the index it runs on. *)
Definition flat_by_key q (f : FlatQuery) : bool :=
  match q_filter_author q, fq_sort_by f with AfAny, SbKeyAuthor => true | _, _ => false end.
Definition flat_key q (f : FlatQuery) (k : bytes) : Prop :=
  match q_filter_author q, fq_sort_by f with
  | AfAny, SbAuthorKey => KeyFilter_matches (q_filter_key q) k = true
  | _, _ => key_scan (q_filter_key q) k
  end.
Definition flat_before q (f : FlatQuery) (x y : SignedEntry) : Prop :=
  if flat_by_key q f then before (q_sort_direction q) (by_key_tuple x) (by_key_tuple y)
  else before (q_sort_direction q) (ri_byte_tuple (se_id x)) (ri_byte_tuple (se_id y)).

(** A flat query yields the window that its offset and limit cut out of
    all matching records of the replica: those of the wanted author whose key
    the filter asks for, deletion markers only on request, each once, in the
    order asked for. *)
Theorem flat_query_result t ns q f : index_complete t → q_kind q = Flat f →
  ∃ full, query_result t ns q = window q full
    ∧ (∀ e, e ∈ full ↔ in_replica t ns e
         ∧ AuthorFilter_matches (q_filter_author q) (se_author e) = true
         ∧ flat_key q f (se_key e) ∧ wanted q e)
    ∧ StronglySorted (flat_before q f) full.
Proof.
  intros Hidx Hkind. unfold query_result, window, QueryIterator_new, IndexKind_from. rewrite Hkind.
  destruct (flat_by_key q f) eqn:Hby; unfold flat_before; rewrite ?Hby.
  - unfold flat_by_key in Hby. unfold flat_key.
    destruct (q_filter_author q) eqn:Ha; [|done]. destruct (fq_sort_by f); [|done].
    eexists. split; [done|]. cbn [range_entries_left qi_range].
    fold (by_key_found t ns (q_filter_key q) AfAny (q_sort_direction q)). split.
    + intros e. rewrite elem_of_filter_list, elem_of_by_key_found, keep_wanted by done. simpl. tauto.
    + apply StronglySorted_filter_list, by_key_found_sorted.
  - exists (author_key_found t ns q). split_and!.
    + unfold author_key_found. f_equal. f_equal. unfold flat_by_key in Hby.
      destruct (q_filter_author q), (fq_sort_by f); done.
    + intros e. rewrite elem_of_author_key_found. unfold flat_key, flat_by_key, wanted in *.
      by destruct (q_filter_author q), (fq_sort_by f).
    + apply author_key_found_sorted.
Qed.

(** C25: the candidates of a latest-per-key query are the records of the wanted
    author at the keys that the scan for its key filter reaches ([key_scan]:
    the keys that match, and for a prefix that ends in a byte 255 those of
    [overreach]).  Before its offset and limit, the query yields one candidate
    per key, in the order of the keys: the newest, at equal times the one whose
    author comes first in the direction of the query; a key whose newest candidate is
    a deletion marker yields nothing unless empty records are asked for.  The
    author filter applies before the selection, so that another author's
    newer record does not hide a candidate. *)
Theorem latest_query_result t ns q k : index_complete t → q_kind q = SingleLatestPerKey k →
  ∃ full, query_result t ns q = window q full
    ∧ (∀ e, e ∈ full ↔ candidate t ns q e ∧ wanted q e
         ∧ ∀ y, candidate t ns q y → se_key y = se_key e → y ≠ e →
             (se_timestamp y < se_timestamp e)%N
             ∨ (se_timestamp y = se_timestamp e
                ∧ before (q_sort_direction q) (se_author e) (se_author y)))
    ∧ StronglySorted (λ x y, before (q_sort_direction q) (se_key x) (se_key y)) full.
Proof.
  intros Hidx Hkind. unfold query_result, window, QueryIterator_new, IndexKind_from. rewrite Hkind.
  eexists. split; [done|]. cbn [range_entries_left qi_range].
  fold (by_key_found t ns (q_filter_key q) (q_filter_author q) (q_sort_direction q)).
  set (found := by_key_found t ns (q_filter_key q) (q_filter_author q) (q_sort_direction q)).
  assert (∀ e, e ∈ found ↔ candidate t ns q e) as Hin by (intros e; by apply elem_of_by_key_found).
  pose proof (by_key_found_sorted t ns (q_filter_key q) (q_filter_author q) (q_sort_direction q)) as Hs.
  fold found in Hs.
  destruct (selector_run_latest (before (q_sort_direction q)) found) as [Hrs Hrin].
  { eapply sorted_weaken; [|exact Hs]. intros x y Hx%Hin Hy%Hin Hb.
    destruct Hx as [[Hx _] _], Hy as [[Hy _] _].
    apply by_key_before in Hb as [?|[? _]]; [by right|by left|congruence]. }
  split.
  - intros e. rewrite elem_of_filter_list, keep_wanted, Hrin.
    rewrite (latest_in_sorted (entry_before (q_sort_direction q))) by exact Hs.
    rewrite Hin. setoid_rewrite Hin.
    assert (∀ y, candidate t ns q e → candidate t ns q y → se_key y = se_key e →
      entry_before (q_sort_direction q) e y
      ↔ before (q_sort_direction q) (se_author e) (se_author y)) as Hb.
    { intros y [[He _] _] [[Hy _] _] Hk. unfold entry_before. rewrite by_key_before by congruence. split; [|by right].
      intros [Hkk|[_ ?]]; [|done]. rewrite Hk in Hkk.
      by apply (irreflexivity (before (q_sort_direction q))) in Hkk. }
    split.
    + intros [[He Hall] Hw]. split_and!; [done|done|]. intros y Hy Hk Hne.
      destruct (Hall y Hy Hk Hne) as [?|[? ?%Hb]]; [by left|by right|done..].
    + intros (He & Hw & Hall). split; [|done]. split; [done|]. intros y Hy Hk Hne.
      destruct (Hall y Hy Hk Hne) as [?|[? ?]]; [by left|right]. split; [done|]. by apply Hb.
  - by apply StronglySorted_filter_list.
Qed.

(** C18: running a query terminates and yields its result: the iterator that
    [get_many] hands out is served from the current content, and drained
    with any number of calls above the length of the result it yields
    [query_result] and then ends, whatever the limit, the offset, the order
    and the index. *)
Theorem query_iterator_correct s ns q : store_wf s →
  wp (get_many ns q) s (λ it s', view s' = view s
    ∧ (∀ fuel, length (query_result (view s) ns q) < fuel →
         qi_collect fuel it = query_result (view s) ns q)
    ∧ length (query_result (view s) ns q) ≤ range_size (qi_range it)).
Proof.
  intros Hwf. unfold get_many. wp_step.
  destruct (snapshot_owned_spec s Hwf) as (s' & Heq & Hv & _). exists (view s), s'.
  split; [done|]. wp_step. split; [done|].
  set (it := QueryIterator_new (view s) ns q).
  assert (qi_left it = query_result (view s) ns q) as Hl.
  { unfold qi_left, query_result. cbn [qi_query qi_count qi_offset it QueryIterator_new].
    by rewrite N.sub_0_r. }
  rewrite <- Hl. split; [intros fuel; apply qi_collect_left|].
  unfold qi_left. pose proof (range_size_spec (qi_query it) (qi_range it)).
  unfold take_limit. destruct (q_limit _); rewrite ?length_take, ?length_drop; lia.
Qed.
End result_facts.

(** ** Concrete queries *)
Definition demo_latest : Query := single_build Query_single_latest_per_key.
Definition demo_flat : Query := flat_build (with_limit 1 (Query_author demo_author)).

Lemma flat_query_result_witness :
  ∃ full, query_result demo_tables demo_ns demo_flat = window demo_flat full
    ∧ (∀ e, e ∈ full ↔ in_replica demo_tables demo_ns e
         ∧ AuthorFilter_matches (q_filter_author demo_flat) (se_author e) = true
         ∧ flat_key demo_flat {| fq_sort_by := SbAuthorKey |} (se_key e) ∧ wanted demo_flat e)
    ∧ StronglySorted (flat_before demo_flat {| fq_sort_by := SbAuthorKey |}) full.
Proof. exact (flat_query_result demo_tables demo_ns demo_flat _ demo_index eq_refl). Defined.

Lemma latest_query_result_witness :
  ∃ full, query_result demo_tables demo_ns demo_latest = window demo_latest full
    ∧ (∀ e, e ∈ full ↔ candidate demo_tables demo_ns demo_latest e ∧ wanted demo_latest e
         ∧ ∀ y, candidate demo_tables demo_ns demo_latest y → se_key y = se_key e → y ≠ e →
             (se_timestamp y < se_timestamp e)%N
             ∨ (se_timestamp y = se_timestamp e ∧ before Asc (se_author e) (se_author y)))
    ∧ StronglySorted (λ x y, before Asc (se_key x) (se_key y)) full.
Proof. exact (latest_query_result demo_tables demo_ns demo_latest SLPK demo_index eq_refl). Defined.

Lemma query_iterator_correct_witness :
  wp (get_many demo_ns demo_flat) demo_store (λ it s', view s' = view demo_store
    ∧ (∀ fuel, length (query_result (view demo_store) demo_ns demo_flat) < fuel →
         qi_collect fuel it = query_result (view demo_store) demo_ns demo_flat)
    ∧ length (query_result (view demo_store) demo_ns demo_flat) ≤ range_size (qi_range it)).
Proof. exact (query_iterator_correct demo_store demo_ns demo_flat demo_store_wf). Defined.

(** The one record of the demonstration replica, found both ways. *)
Example demo_queries :
  length (query_result demo_tables demo_ns demo_flat) = 1
  ∧ query_result demo_tables demo_ns demo_latest = query_result demo_tables demo_ns demo_flat.
Proof. split; vm_compute; reflexivity. Qed.
