(* ===== verification/Replica.v ===== *)
(** * Replicas

    Models the replica operations of [src/sync.rs]: local insertion and
    deletion, remote insertion, validation, and the processing of a
    reconciliation message with its callbacks.  A replica is a store instance
    with the information of Info; the [World] holds the channels and the
    observer's log.  The clock is an argument: [now] is what
    [system_time_now] answers.  The validators read public keys through the
    cache, whose growth has no visible effect
    ([Keys.mem_public_key_transparent]) and is left out here. *)
From S2P Require Import Prelude Redb Keys Entry Heads Query Bounds Ranger Info Store StoreInstance Filter.

(** [MAX_TIMESTAMP_FUTURE_SHIFT], in microseconds: ten minutes. *)
Definition MAX_TIMESTAMP_FUTURE_SHIFT : N := 10 * 60 * 1000000.
Definition MAX_REJECTIONS_PER_MESSAGE : nat := 1024.

Record SyncOutcome := {
  heads_received : AuthorHeads;
  num_recv : nat;
  num_sent : nat;
}.
Definition SyncOutcome_default : SyncOutcome :=
  {| heads_received := ∅; num_recv := 0; num_sent := 0 |}.

Inductive SyncError := SeInsert (e : InsertError) | SeStore (e : StoreErr).

Section replica.
Context `{Redb, Crypto, Postcard DownloadPolicy}.

Abbreviation CapabilityValidator := (SignedEntry → PeerIdBytes → ValidateOutcome).

Record Replica := { rp_store : StoreInstance; rp_info : ReplicaInfo; rp_world : World }.
Definition set_rp_store (s : StoreInstance) (r : Replica) : Replica :=
  {| rp_store := s; rp_info := rp_info r; rp_world := rp_world r |}.
Definition set_rp_info (i : ReplicaInfo) (r : Replica) : Replica :=
  {| rp_store := rp_store r; rp_info := i; rp_world := rp_world r |}.
Definition set_rp_world (w : World) (r : Replica) : Replica :=
  {| rp_store := rp_store r; rp_info := rp_info r; rp_world := w |}.

Definition Replica_new (store : StoreInstance) (info : ReplicaInfo) (w : World) : Replica :=
  {| rp_store := store; rp_info := info; rp_world := w |}.
Definition replica_id (r : Replica) : NamespaceId := Capability_id (i_capability (rp_info r)).
Definition replica_capability (r : Replica) : Capability := i_capability (rp_info r).
Definition replica_secret_key (r : Replica) : result ReadOnlyError NamespaceSecret :=
  Capability_secret_key (i_capability (rp_info r)).
Definition record_id (r : Replica) (key : bytes) (author : Author) : RecordIdentifier :=
  RecordIdentifier_new (Capability_id (i_capability (rp_info r))) (Author_id author) key.

(** What [PublicKeyStore::public_key] answers. *)
Definition public_key_of (s : StoreInstance) (b : arr32) : option PublicKey :=
  (mem_public_key (st_pubkeys (si_store s)) b).1.

Definition validate_entry (now : N) (public_key : arr32 → option PublicKey)
    (expected_namespace : NamespaceId) (entry : SignedEntry) (origin : InsertOrigin)
    (validator : option CapabilityValidator) : result ValidationFailure unit :=
  if negb (eqb (se_namespace entry) expected_namespace) then Err InvalidNamespace
  else if match origin with Local => false | Sync _ _ => true end
          && negb (is_ok (SignedEntry_verify public_key entry)) then Err BadSignature
  else if (now + MAX_TIMESTAMP_FUTURE_SHIFT <? se_timestamp entry)%N then Err TooFarInTheFuture
  else
    match origin, validator with
    | Sync from _, Some validate =>
        match validate entry from with
        | Accept => Ok tt
        | Drop => Err NotAdmitted
        | Reject => Err Unauthorized
        end
    | _, _ => Ok tt
    end.

Abbreviation RM := (ST Replica InsertError).

(** An operation on the store, its failure mapped to [InsertError::Store]. *)
Definition on_instance {A} (m : ST StoreInstance StoreErr A) : RM A := λ r,
  let '(x, s) := m (rp_store r) in (map_err (λ _, IeStore) x, set_rp_store s r).

(** [get_download_policy(..).unwrap_or_default()]. *)
Definition download_policy_or_default (ns : NamespaceId) : RM DownloadPolicy := λ r,
  let '(x, s) := on_store (get_download_policy ns) (rp_store r) in
  (match x with Ok p => Ok p | Err _ => Ok DownloadPolicy_default | Panic => Panic end,
   set_rp_store s r).

Definition notify (ev : Event) : RM unit := λ r,
  let '(subs, w) := subs_send ev (i_subscribers (rp_info r)) (rp_world r) in
  (Ok tt, set_rp_world w (set_rp_info (set_subscribers subs (rp_info r)) r)).

Definition replica_ensure_open : RM unit :=
  r ← st_get; st_lift (ensure_open (rp_info r)).

Definition insert_entry (now : N) (entry : SignedEntry) (origin : InsertOrigin) : RM nat :=
  namespace ← st_gets replica_id;
  r ← st_get;
  _ ← st_lift (map_err IeValidation (validate_entry now (public_key_of (rp_store r)) namespace
        entry origin (i_capability_validator (rp_info r))));
  outcome ← on_instance (put entry);
  match outcome with
  | NotInserted => st_err NewerEntryExists
  | Inserted removed =>
      insert_event ←
        match origin with
        | Local => mret (LocalInsert namespace entry)
        | Sync from remote_content_status =>
            download_policy ← download_policy_or_default namespace;
            mret (RemoteInsert namespace entry from
              (DownloadPolicy_matches download_policy (se_entry entry)) remote_content_status)
        end;
      _ ← notify insert_event;
      mret removed
  end.

(** [Record::new_current] reads the clock at [created]. *)
Definition insert (created now : N) (key : bytes) (author : Author) (hash : Hash) (len : N) : RM nat :=
  if (len =? 0)%N || eqb hash Hash_EMPTY then st_err EntryIsEmpty
  else
    _ ← replica_ensure_open;
    r ← st_get;
    let id := RecordIdentifier_new (replica_id r) (Author_id author) key in
    let record := {| r_len := len; r_hash := hash; r_timestamp := created |} in
    let entry := {| e_id := id; e_record := record |} in
    secret ← st_lift (map_err (λ _, IeReadOnly) (replica_secret_key r));
    insert_entry now (SignedEntry_from_entry entry secret author) Local.

Definition delete_prefix (created now : N) (prefix : bytes) (author : Author) : RM nat :=
  _ ← replica_ensure_open;
  r ← st_get;
  let id := RecordIdentifier_new (replica_id r) (Author_id author) prefix in
  let entry := Entry_new_empty id created in
  secret ← st_lift (map_err (λ _, IeReadOnly) (replica_secret_key r));
  insert_entry now (SignedEntry_from_entry entry secret author) Local.

Definition insert_remote_entry (now : N) (entry : SignedEntry) (received_from : PeerIdBytes)
    (content_status : ContentStatus) : RM nat :=
  _ ← replica_ensure_open;
  _ ← st_lift (map_err IeValidation (Entry_validate_empty (se_entry entry)));
  insert_entry now entry (Sync received_from content_status).

Definition hash_and_insert (created now : N) (key : bytes) (author : Author) (data : bytes) : RM Hash :=
  _ ← replica_ensure_open;
  let len := N.of_nat (length data) in
  let hash := blake3_hash data in
  _ ← insert created now key author hash len;
  mret hash.

(** ** Reconciliation *)
Definition sync_initial_message (filter : option EntryFilter)
    : ST Replica SyncError (Message SignedEntry RecordIdentifier RejectId) := λ r,
  match ensure_open (rp_info r) with
  | Ok _ =>
      let '(x, s) := initial_message (SessionStore_new (rp_store r) filter) in
      (map_err SeStore x, set_rp_store (ss_inner s) r)
  | Err e => (Err (SeInsert e), r)
  | Panic => (Panic, r)
  end.

(** The callbacks of [sync_process_message]. *)
Definition sync_validate (now : N) (my_namespace : NamespaceId) (from_peer : PeerIdBytes)
    (validator : option CapabilityValidator) (store : SessionStore StoreInstance)
    (entry : SignedEntry) (content_status : ContentStatus) : ValidateOutcome :=
  match validate_entry now (public_key_of (ss_inner store)) my_namespace entry
          (Sync from_peer content_status) validator with
  | Ok _ => Accept
  | Err Unauthorized => Reject
  | _ => Drop
  end.

Definition sync_on_insert (my_namespace : NamespaceId) (from_peer : PeerIdBytes)
    (download_policy : DownloadPolicy) (store : SessionStore StoreInstance) (entry : SignedEntry)
    (content_status : ContentStatus) (w : Subscribers * World) : Subscribers * World :=
  subs_send_with (RemoteInsert my_namespace entry from_peer
    (DownloadPolicy_matches download_policy (se_entry entry)) content_status) w.1 w.2.

Definition sync_content_status (cb : option (Hash → ContentStatus)) (entry : SignedEntry)
    : ContentStatus :=
  match cb with Some cb => cb (se_content_hash entry) | None => Missing end.

Definition outcome_received (values : list (SignedEntry * ContentStatus)) (state : SyncOutcome)
    : SyncOutcome :=
  {| heads_received := foldl (λ h v, heads_insert (se_author v.1) (se_timestamp v.1) h)
       (heads_received state) values;
     num_recv := num_recv state + length values;
     num_sent := num_sent state |}.
Definition outcome_sent (n : nat) (state : SyncOutcome) : SyncOutcome :=
  {| heads_received := heads_received state; num_recv := num_recv state;
     num_sent := num_sent state + n |}.

(** The first rejections of the message, reported to the observer. *)
Definition observe_rejections (my_namespace : NamespaceId) (from_peer : PeerIdBytes)
    (observer : option ObserverId) (message : Message SignedEntry RecordIdentifier RejectId)
    (w : World) : World :=
  match observer with
  | None => w
  | Some o =>
      {| w_channels := w_channels w;
         w_observed := w_observed w ++ ((λ id, (o, (my_namespace, id, from_peer)))
           <$> take MAX_REJECTIONS_PER_MESSAGE (omap part_rejected message)) |}
  end.

Definition sync_process_message (now : N)
    (message : Message SignedEntry RecordIdentifier RejectId) (from_peer : PeerIdBytes)
    (filter : option EntryFilter)
    : ST (Replica * SyncOutcome) SyncError (option (Message SignedEntry RecordIdentifier RejectId)) :=
  λ '(r, state),
  match ensure_open (rp_info r) with
  | Err e => (Err (SeInsert e), (r, state))
  | Panic => (Panic, (r, state))
  | Ok _ =>
      let my_namespace := replica_id r in
      let state := outcome_received (message_values message) state in
      let info := rp_info r in
      match download_policy_or_default my_namespace r with
      | (Ok download_policy, r) =>
          let w := observe_rejections my_namespace from_peer (i_rejection_observer info) message
                     (rp_world r) in
          let '(x, (s, (subs, w))) :=
            process_message SyncConfig_default
              (sync_validate now my_namespace from_peer (i_capability_validator info))
              (sync_on_insert my_namespace from_peer download_policy)
              (λ _, sync_content_status (i_content_status_cb info)) message
              (SessionStore_new (rp_store r) filter, (i_subscribers info, w)) in
          let r := {| rp_store := ss_inner s; rp_info := set_subscribers subs info;
                      rp_world := w |} in
          match x with
          | Ok (Some reply) => (Ok (Some reply), (r, outcome_sent (message_value_count reply) state))
          | Ok None => (Ok None, (r, state))
          | Err e => (Err (SeStore e), (r, state))
          | Panic => (Panic, (r, state))
          end
      | (Err e, r) => (Err (SeInsert e), (r, state))
      | (Panic, r) => (Panic, (r, state))
      end
  end.
End replica.

(** ** Facts *)
Section replica_facts.
Context `{RedbOk, Crypto, Postcard DownloadPolicy}.
Implicit Types (r : Replica) (e : SignedEntry).

Definition replica_view r : Tables := view (si_store (rp_store r)).
(** The store instance is one of the replica's namespace, and well-formed. *)
Definition replica_wf r : Prop :=
  rs_inv (rp_store r) ∧ si_namespace (rp_store r) = replica_id r.

Definition stored_policy (t : Tables) (ns : NamespaceId) : DownloadPolicy :=
  match tbl_get (download_policy t) ns with
  | None => DownloadPolicy_default
  | Some value => default DownloadPolicy_default (pc_from_bytes value)
  end.

Lemma download_policy_run ns r : replica_wf r →
  ∃ i, download_policy_or_default ns r = (Ok (stored_policy (replica_view r) ns), set_rp_store i r)
    ∧ rs_inv i ∧ view (si_store i) = replica_view r ∧ si_namespace i = si_namespace (rp_store r)
    ∧ si_session_snapshot i = si_session_snapshot (rp_store r).
Proof.
  intros [(Hwf & Hidx & Hc) _]. unfold download_policy_or_default, on_store, st_zoom, get_download_policy.
  destruct (tables_spec (si_store (rp_store r)) Hwf) as (t & s' & Ht & -> & Hv & Hb).
  unfold mbind, ST_bind. rewrite Ht. unfold stored_policy, replica_view.
  exists (set_si_store s' (rp_store r)).
  assert (rs_inv (set_si_store s' (rp_store r))) as Hi.
  { destruct (bk_rest _ _ Hb) as (_ & Hpk & _). simpl. rewrite Hv, Hpk. split; [apply Hb|done]. }
  destruct (tbl_get (download_policy (view (si_store (rp_store r)))) ns) as [value|];
    [destruct (pc_from_bytes value)|]; done.
Qed.

(** The event an insertion sends. *)
Definition insert_event (t : Tables) (ns : NamespaceId) e (origin : InsertOrigin) : Event :=
  match origin with
  | Local => LocalInsert ns e
  | Sync from st => RemoteInsert ns e from (DownloadPolicy_matches (stored_policy t ns) (se_entry e)) st
  end.

(** The replica after an insertion that took the entry in. *)
Record inserted r e (origin : InsertOrigin) r' : Prop := {
  ins_wf : replica_wf r';
  ins_put : put_effect (replica_view r) e (replica_view r');
  ins_sent : subs_send (insert_event (replica_view r') (replica_id r) e origin)
    (i_subscribers (rp_info r)) (rp_world r) = (i_subscribers (rp_info r'), rp_world r');
  ins_info : rp_info r' = set_subscribers (i_subscribers (rp_info r')) (rp_info r);
}.

(** The replica after an insertion that was refused: nothing to see. *)
Record untouched r r' : Prop := {
  unt_wf : replica_wf r';
  unt_view : replica_view r' = replica_view r;
  unt_info : rp_info r' = rp_info r;
  unt_world : rp_world r' = rp_world r;
}.

Lemma untouched_refl r : replica_wf r → untouched r r.
Proof. by split. Qed.

Definition insert_done r e (origin : InsertOrigin) (x : result InsertError nat) r' : Prop :=
  ((∃ q, superseding (replica_view r) e q) ∧ x = Err NewerEntryExists ∧ untouched r r')
  ∨ ((¬ ∃ q, superseding (replica_view r) e q) ∧ (∃ n, x = Ok n) ∧ inserted r e origin r').

Lemma insert_entry_run now e origin r : replica_wf r →
  match validate_entry now (public_key_of (rp_store r)) (replica_id r) e origin
          (i_capability_validator (rp_info r)) with
  | Ok _ => ∃ x r', insert_entry now e origin r = (x, r') ∧ insert_done r e origin x r'
  | Err f => insert_entry now e origin r = (Err (IeValidation f), r)
  | Panic => False
  end.
Proof.
  intros Hwf. unfold insert_entry. rewrite st_gets_bind, st_get_bind, st_lift_bind.
  destruct (validate_entry _ _ _ _ _ _) as [[]|f|] eqn:Hval; cbn [map_err]; [|done|].
  2: { revert Hval. unfold validate_entry. repeat case_match; done. }
  pose proof Hwf as [Hinv Hns].
  destruct (put_inst_wp (rp_store r) e Hinv) as (o & i & Hput & Hi & Ho).
  pose proof (put_keeps e (rp_store r)) as Hk. rewrite Hput in Hk. destruct Hk as [Hkn Hks].
  erewrite st_bind_run by (unfold on_instance; rewrite Hput; reflexivity). cbn [map_err].
  assert (replica_wf (set_rp_store i r)) as Hwf'
    by (split; [done|]; change (si_namespace i = replica_id r); simpl in Hkn; congruence).
  destruct o as [|n].
  - destruct Ho as [Hq Hv]. do 2 eexists. split; [done|]. left. split; [done|]. split; [done|].
    split; [done|exact Hv|done|done].
  - destruct Ho as [Hq Hpe].
    assert (∃ r2 ev, (match origin with
        | Local => mret (LocalInsert (replica_id r) e)
        | Sync from remote_content_status =>
            download_policy ← download_policy_or_default (replica_id r);
            mret (RemoteInsert (replica_id r) e from
              (DownloadPolicy_matches download_policy (se_entry e)) remote_content_status)
        end : ST Replica InsertError Event) (set_rp_store i r) = (Ok ev, r2)
      ∧ ev = insert_event (replica_view r2) (replica_id r) e origin
      ∧ replica_wf r2 ∧ replica_view r2 = view (si_store i) ∧ rp_info r2 = rp_info r
      ∧ rp_world r2 = rp_world r) as (r2 & ev & Hev & Hevd & Hwf2 & Hv2 & Hi2 & Hw2).
    { destruct origin as [|from st]; [by eexists _, _|].
      destruct (download_policy_run (replica_id r) (set_rp_store i r) Hwf')
        as (i2 & Hdp & Hinv2 & Hvi & Hn2 & _).
      unfold mbind, ST_bind. rewrite Hdp. do 2 eexists. split; [done|].
      simpl in *. split; [by rewrite <- Hvi|]. split; [|done]. split; [done|].
      simpl. unfold replica_id. simpl. change (si_namespace i2 = replica_id r). congruence. }
    rewrite (st_bind_run _ _ _ _ _ Hev).
    destruct (subs_send ev (i_subscribers (rp_info r)) (rp_world r)) as [subs w] eqn:Hs.
    erewrite st_bind_run by (unfold notify; rewrite Hi2, Hw2, Hs; reflexivity).
    do 2 eexists. split; [done|]. right. split; [done|]. split; [by eexists|].
    split; simpl.
    + destruct Hwf2 as [? Hn2]. split; [done|]. unfold replica_id in *. simpl. by rewrite Hn2, Hi2.
    + unfold replica_view in *. simpl. by rewrite Hv2.
    + rewrite <- Hs, Hevd. done.
    + done.
Qed.

(** *** Local writes *)

Lemma insert_run `{!CryptoOk} created now key author hash len r : replica_wf r →
  let run := insert created now key author hash len r in
  if (len =? 0)%N || eqb hash Hash_EMPTY then run = (Err EntryIsEmpty, r)
  else if i_closed (rp_info r) then run = (Err IeClosed, r)
  else match replica_secret_key r with
  | Ok secret =>
      let e := SignedEntry_from_parts secret author key
                 {| r_len := len; r_hash := hash; r_timestamp := created |} in
      SignedEntry_verify pk_from_bytes e = Ok tt
      ∧ if (now + MAX_TIMESTAMP_FUTURE_SHIFT <? created)%N
        then run = (Err (IeValidation TooFarInTheFuture), r)
        else ∃ x r', run = (x, r') ∧ insert_done r e Local x r'
  | _ => run = (Err IeReadOnly, r)
  end.
Proof.
  intros Hwf. cbv zeta. unfold insert.
  destruct ((len =? 0)%N || eqb hash Hash_EMPTY); [done|].
  unfold replica_ensure_open. unfold ensure_open, info_closed.
  destruct (i_closed (rp_info r)) eqn:Hc.
  { erewrite st_bind_run; [|rewrite st_get_bind, Hc; reflexivity]. done. }
  erewrite st_bind_run; [|rewrite st_get_bind, Hc; reflexivity]. cbv iota beta.
  rewrite st_get_bind, st_lift_bind.
  destruct (replica_secret_key r) as [secret|err|] eqn:Hs; cbn [map_err]; [|done|].
  2: { unfold replica_secret_key, Capability_secret_key in Hs. by destruct (i_capability _). }
  split; [apply from_parts_verifies|].
  assert (replica_id r = NamespaceSecret_id secret) as Hid.
  { unfold replica_id, replica_secret_key, Capability_secret_key in *.
    destruct (i_capability (rp_info r)); [|done]. by injection Hs as ->. }
  rewrite Hid. fold (SignedEntry_from_parts secret author key
    {| r_len := len; r_hash := hash; r_timestamp := created |}).
  set (e := SignedEntry_from_parts secret author key _).
  pose proof (insert_entry_run now e Local r Hwf) as Hrun.
  unfold validate_entry in Hrun. change (se_namespace e) with (NamespaceSecret_id secret) in Hrun.
  rewrite Hid, eqb_refl in Hrun. cbn [negb andb] in Hrun.
  change (se_timestamp e) with created in Hrun.
  by destruct (now + MAX_TIMESTAMP_FUTURE_SHIFT <? created)%N.
Qed.

(** C15: a local insertion, on every branch.  An empty entry, a closed or a
    read-only replica and a clock beyond the tolerance are refused and change
    nothing; otherwise the entry is built for this replica, signed with both
    secrets so that it verifies, and taken in exactly when no live record
    supersedes it: then the store has it in place of what it supersedes and
    every subscriber is sent one event for it; if it is superseded nothing
    visible changes. *)
Theorem insert_spec `{!CryptoOk} created now key author hash len r : replica_wf r →
  let run := insert created now key author hash len r in
  if (len =? 0)%N || eqb hash Hash_EMPTY then run = (Err EntryIsEmpty, r)
  else if i_closed (rp_info r) then run = (Err IeClosed, r)
  else match replica_secret_key r with
  | Ok secret =>
      let e := SignedEntry_from_parts secret author key
                 {| r_len := len; r_hash := hash; r_timestamp := created |} in
      SignedEntry_verify pk_from_bytes e = Ok tt
      ∧ if (now + MAX_TIMESTAMP_FUTURE_SHIFT <? created)%N
        then run = (Err (IeValidation TooFarInTheFuture), r)
        else ∃ x r', run = (x, r') ∧ insert_done r e Local x r'
  | _ => run = (Err IeReadOnly, r)
  end.
Proof. apply insert_run. Qed.

(** The deletion marker for a prefix. *)
Definition tombstone secret author prefix created : SignedEntry :=
  SignedEntry_from_parts secret author prefix (DocRecord_empty created).

(** *** Remote writes *)

(** What admits an entry that arrived from a peer. *)
Definition admissible now (ns : NamespaceId) (from : PeerIdBytes)
    (validator : option (SignedEntry → PeerIdBytes → ValidateOutcome)) e : Prop :=
  se_namespace e = ns ∧ SignedEntry_verify pk_from_bytes e = Ok tt
  ∧ (se_timestamp e <= now + MAX_TIMESTAMP_FUTURE_SHIFT)%N
  ∧ ∀ v, validator = Some v → v e from = Accept.

Lemma verify_ext (pk pk' : arr32 → option PublicKey) e :
  (∀ b, pk b = pk' b) → SignedEntry_verify pk e = SignedEntry_verify pk' e.
Proof. intros Heq. unfold SignedEntry_verify, namespace_key, author_key. by rewrite !Heq. Qed.

Lemma public_key_of_parse i b : cache_wf (st_pubkeys (si_store i)) → public_key_of i b = pk_from_bytes b.
Proof.
  intros Hc. unfold public_key_of, mem_public_key.
  destruct (st_pubkeys (si_store i) !! b) as [pk|] eqn:Hb; [by rewrite (Hc b pk Hb)|].
  by destruct (pk_from_bytes b).
Qed.

Lemma validate_entry_sync now i ns e from st validator : rs_inv i →
  validate_entry now (public_key_of i) ns e (Sync from st) validator = Ok tt ↔
    admissible now ns from validator e.
Proof.
  intros (_ & _ & Hc). unfold validate_entry, admissible.
  rewrite (verify_ext _ pk_from_bytes) by (intros; by apply public_key_of_parse).
  destruct (eqb (se_namespace e) ns) eqn:Hns; cbn [negb].
  2: { split; [done|]. intros [Heq _]. by rewrite Heq, eqb_refl in Hns. }
  apply eqb_eq in Hns. cbn [andb].
  destruct (SignedEntry_verify pk_from_bytes e) as [[]|f|]; cbn [is_ok negb];
    [|by (split; [|intros (_ & ? & _)])..].
  destruct (N.ltb_spec (now + MAX_TIMESTAMP_FUTURE_SHIFT) (se_timestamp e)).
  { split; [done|]. intros (_ & _ & ? & _). lia. }
  destruct validator as [v|]; [|by split].
  destruct (v e from) eqn:Hv.
  - split; [|done]. intros _. split_and!; [done|done|done|]. by intros v' [= <-].
  - split; [done|]. intros (_ & _ & _ & Ha). specialize (Ha v eq_refl). congruence.
  - split; [done|]. intros (_ & _ & _ & Ha). specialize (Ha v eq_refl). congruence.
Qed.

(** What a validator makes of an entry. *)
Definition validator_failure (validator : option (SignedEntry → PeerIdBytes → ValidateOutcome)) e from
    : option ValidationFailure :=
  match validator with
  | None => None
  | Some validate =>
      match validate e from with Accept => None | Drop => Some NotAdmitted | Reject => Some Unauthorized end
  end.

(** C16: an entry handed over by a peer, on every branch.  A closed replica,
    an entry whose length and hash disagree about being empty, one of another
    namespace, one whose signatures do not verify, one too far in the future
    and one that the validator drops or rejects are each refused with their own
    error, in this order, and change nothing.  Any other entry is admissible,
    and is stored exactly when no live record supersedes it. *)
Theorem insert_remote_entry_spec now e from st r : replica_wf r →
  let run := insert_remote_entry now e from st r in
  if i_closed (rp_info r) then run = (Err IeClosed, r)
  else if eqb (se_content_hash e) Hash_EMPTY && negb (se_content_len e =? 0)%N
       || negb (eqb (se_content_hash e) Hash_EMPTY) && (se_content_len e =? 0)%N
  then run = (Err (IeValidation InvalidEmptyEntry), r)
  else if negb (eqb (se_namespace e) (replica_id r)) then run = (Err (IeValidation InvalidNamespace), r)
  else if negb (is_ok (SignedEntry_verify pk_from_bytes e)) then run = (Err (IeValidation BadSignature), r)
  else if (now + MAX_TIMESTAMP_FUTURE_SHIFT <? se_timestamp e)%N
  then run = (Err (IeValidation TooFarInTheFuture), r)
  else match validator_failure (i_capability_validator (rp_info r)) e from with
  | Some f => run = (Err (IeValidation f), r)
  | None => admissible now (replica_id r) from (i_capability_validator (rp_info r)) e
      ∧ ∃ x r', run = (x, r') ∧ insert_done r e (Sync from st) x r'
  end.
Proof.
  intros Hwf. cbv zeta. unfold insert_remote_entry, replica_ensure_open, ensure_open, info_closed.
  destruct (i_closed (rp_info r)) eqn:Hc.
  { erewrite st_bind_run; [|rewrite st_get_bind, Hc; reflexivity]. done. }
  erewrite st_bind_run; [|rewrite st_get_bind, Hc; reflexivity]. cbv iota beta.
  rewrite st_lift_bind. unfold Entry_validate_empty.
  change (Entry_content_hash (se_entry e)) with (se_content_hash e).
  change (Entry_content_len (se_entry e)) with (se_content_len e).
  pose proof (insert_entry_run now e (Sync from st) r Hwf) as Hrun.
  pose proof (validate_entry_sync now (rp_store r) (replica_id r) e from st
    (i_capability_validator (rp_info r)) (proj1 Hwf)) as [Hadm _].
  revert Hrun Hadm. unfold validate_entry, validator_failure.
  rewrite (verify_ext _ pk_from_bytes) by (intros; apply public_key_of_parse, Hwf).
  destruct (eqb (se_content_hash e) Hash_EMPTY), (se_content_len e =? 0)%N; try done;
    destruct (eqb (se_namespace e) (replica_id r)); try done;
    destruct (is_ok (SignedEntry_verify pk_from_bytes e)); try done; cbn [negb andb];
    destruct (now + MAX_TIMESTAMP_FUTURE_SHIFT <? se_timestamp e)%N; try done;
    destruct (i_capability_validator (rp_info r)) as [v|]; try (destruct (v e from); try done);
    intros Hrun Hadm; (split; [by apply Hadm|exact Hrun]).
Qed.
(** *** Reconciliation *)
Lemma subs_send_observed ev s w : w_observed (subs_send ev s w).2 = w_observed w.
Proof.
  revert w. induction s as [|tx s IH]; intros w; [done|]. simpl.
  destruct (channel_send_spec tx ev w) as (_ & _ & _ & Hobs).
  destruct (channel_send tx ev w) as [ok w1]. simpl in Hobs. specialize (IH w1).
  destruct (subs_send ev s w1) as [s2 w2]. simpl in *. congruence.
Qed.

Lemma subs_send_with_observed ev s w : w_observed (subs_send_with ev s w).2 = w_observed w.
Proof. destruct s; [done|]. apply subs_send_observed. Qed.

(** Whatever the insert callback leaves true of the world stays true. *)
Lemma process_message_world {W} config validate_cb on_insert_cb content_status_cb (P : W → Prop) m
    (s : SessionStore StoreInstance) (w : W) :
  (∀ s e c w, P w → P (on_insert_cb s e c w)) → P w →
  match process_message (R:=RejectId) config validate_cb on_insert_cb content_status_cb m (s, w) with
  | (Ok _, p) | (Err _, p) => P p.2
  | (Panic, _) => True
  end.
Proof.
  intros HP Hw.
  pose proof (rel_process_message config validate_cb on_insert_cb content_status_cb
    eq (λ w1 w2, w1 = w2 ∧ P w1) (λ _ : SignedEntry, True)) as Hrel.
  assert (∀ {A} (m : ST (SessionStore StoreInstance) StoreErr A) (Q : A → A → Prop),
    (∀ a, Q a a) → st_rel eq Q m m) as Hdet.
  { intros A m' Q HQ s1 ? <-. by destruct (m' s1) as [[a|e|] s2]. }
  specialize (Hrel (λ rg : Range RecordIdentifier, Hdet _ _ _ (λ es, conj eq_refl (Forall_true _ _ (λ _, I))))).
  specialize (Hrel (λ rg : Range RecordIdentifier, Hdet _ _ _ (λ fp, eq_refl))).
  specialize (Hrel (λ w1 w2 e Hw, f_equal (λ w, content_status_cb w e) (proj1 Hw))).
  assert (∀ v, st_rel (both eq (λ w1 w2, w1 = w2 ∧ P w1)) (λ ps qs, disclosed ps = [] ∧ disclosed qs = [])
    (store_value (R:=RejectId) validate_cb on_insert_cb v) (store_value validate_cb on_insert_cb v)) as Hv.
  { intros v [s1 w1] [s2 w2] [Hs [Hw' HPw]]. simpl in *. subst s2 w2.
    pose proof (store_value_disclosed validate_cb on_insert_cb (s1, w1) v) as Hd.
    assert (P (store_value (R:=RejectId) validate_cb on_insert_cb v (s1, w1)).2.2) as HP'.
    { destruct v as [e c]. unfold store_value. rewrite st_gets_bind. simpl.
      destruct (validate_cb s1 e c); [| |]; unfold mbind, ST_bind, store_op, st_zoom; simpl.
      - destruct (put e s1) as [[[|]|?|] s']; simpl; auto.
      - done.
      - by destruct (would_insert e s1) as [[[|]|?|] s']. }
    destruct (store_value _ _ v (s1, w1)) as [[ps|err|] [s' w']]; simpl in *; [|by repeat split|done].
    by repeat split. }
  specialize (Hrel Hv m (s, w) (s, w) (conj eq_refl (conj eq_refl Hw))).
  destruct (process_message _ _ _ _ m (s, w)) as [[x|e|] p]; [| |done].
  - by destruct Hrel as [_ [_ [_ ?]]].
  - by destruct Hrel as [_ [_ [_ ?]]].
Qed.

Definition session_of r (filter : option EntryFilter) : SessionStore StoreInstance :=
  SessionStore_new (rp_store r) filter.

(** The records of the replica. *)
Definition holds r e : Prop :=
  tbl_get (records (replica_view r)) (ri_byte_tuple (se_id e)) = Some (record_row e).

Definition sync_accounted (m : Message SignedEntry RecordIdentifier RejectId)
    (reply : option (Message SignedEntry RecordIdentifier RejectId)) (st st' : SyncOutcome) : Prop :=
  num_recv st' = num_recv st + length (message_values m)
  ∧ num_sent st' = num_sent st + length (message_values (default [] reply))
  ∧ heads_received st' = foldl (λ h v, heads_insert (se_author v.1) (se_timestamp v.1) h)
      (heads_received st) (message_values m).

Lemma sync_process_run now m from filter r st : replica_wf r → i_closed (rp_info r) = false →
  message_ok (session_of r filter) m →
  ∃ reply r' st', sync_process_message now m from filter (r, st) = (Ok reply, (r', st'))
    ∧ replica_wf r'
    ∧ (∀ e, holds r' e → holds r e ∨ ∃ c, (e, c) ∈ message_values m
         ∧ admissible now (replica_id r) from (i_capability_validator (rp_info r)) e)
    ∧ sync_accounted m reply st st'
    ∧ w_observed (rp_world r') = w_observed (rp_world r) ++
        (if i_rejection_observer (rp_info r) is Some o
         then (λ id, (o, (replica_id r, id, from)))
                <$> take MAX_REJECTIONS_PER_MESSAGE (omap part_rejected m) else [])
    ∧ reply ≠ Some [].
Proof.
  intros Hwf Hc Hm. unfold sync_process_message, ensure_open, info_closed. rewrite Hc.
  destruct (download_policy_run (replica_id r) r Hwf) as (i & Hdp & Hi & Hv & Hn & Hsn).
  rewrite Hdp. cbn [rp_store set_rp_store rp_world].
  pose proof Hwf as [Hinv Hns].
  set (s0 := SessionStore_new i filter).
  set (validate := sync_validate now (replica_id r) from (i_capability_validator (rp_info r))).
  set (w0 := observe_rejections _ _ _ _ _).
  assert (∀ s e c, rs_inv s → validate s e c = Accept → admissible now (replica_id r) from
    (i_capability_validator (rp_info r)) e) as Hadm.
  { intros s e c Hs Ha. apply (validate_entry_sync now (ss_inner s) _ e from c); [exact Hs|].
    unfold validate, sync_validate in Ha. destruct (validate_entry _ _ _ _ _ _) as [[]|[]|]; done. }
  assert (∀ s e c, rs_inv s → validate s e c = Accept → rs_entry_ok s0 e) as Hvalid.
  { intros s e c Hs Ha. destruct (Hadm s e c Hs Ha) as [Hne _]. simpl. congruence. }
  assert (rs_wrote s0 s0) as Hw0 by (split; [exact Hi|done|done]).
  assert (message_ok s0 m) as Hm0.
  { destruct Hm as [Hm1 Hm2]. unfold message_ok, range_ok in *. simpl in *. by rewrite Hn. }
  set (on_insert := sync_on_insert _ _ _).
  set (status := λ _ : Subscribers * World, sync_content_status (i_content_status_cb (rp_info r))).
  destruct (process_message_wp SyncConfig_default status validate on_insert s0 Hvalid m
    (s0, (i_subscribers (rp_info r), w0)) eq_refl Hw0 Hm0)
    as (reply & [s' [subs w']] & Hrun & [Hw Hst] & Hne & _).
  pose proof (process_message_world SyncConfig_default validate on_insert status
    (λ p : Subscribers * World, w_observed p.2 = w_observed w0) m s0 (i_subscribers (rp_info r), w0)) as Hobs.
  rewrite Hrun in Hobs |- *. specialize (Hobs (λ s e c p Hp, eq_trans (subs_send_with_observed _ _ _) Hp) eq_refl).
  simpl in Hobs.
  assert (∀ e, tbl_get (records (view (si_store (ss_inner s')))) (ri_byte_tuple (se_id e)) = Some (record_row e) →
    holds r e ∨ ∃ c, (e, c) ∈ message_values m
      ∧ admissible now (replica_id r) from (i_capability_validator (rp_info r)) e) as Hstored.
  { intros e He%live_get. destruct (Hst (se_id e) e He) as [Hl|(c & t & Hin & Ht & Ha)].
    - left. apply (live_get i) in Hl. unfold holds. by rewrite <- Hv.
    - right. exists c. split; [done|]. by eapply Hadm. }
  set (r2 := {| rp_store := ss_inner s'; rp_info := set_subscribers subs (rp_info r); rp_world := w' |}).
  assert (replica_wf r2) as Hwf2.
  { split; [apply Hw|]. change (si_namespace (ss_inner s') = replica_id r).
    pose proof (wrote_key_ok _ _ Hw (RecordIdentifier_new (si_namespace i) (arr_rep 32 x00) [])) as [_ Hk].
    simpl in Hk. rewrite <- Hk by done. congruence. }
  assert (w_observed w' = w_observed (rp_world r) ++
    (if i_rejection_observer (rp_info r) is Some o then (λ id, (o, (replica_id r, id, from)))
       <$> take MAX_REJECTIONS_PER_MESSAGE (omap part_rejected m) else [])) as Hobs'.
  { rewrite Hobs. unfold w0, observe_rejections. destruct (i_rejection_observer (rp_info r)); [done|].
    by rewrite app_nil_r. }
  destruct reply as [reply|]; do 3 eexists; (split; [done|]); split_and!; try done.
Qed.

(** C5: reconciliation stores only what validation admits.  Processing a
    well-formed message on an open replica ends with a reply, never with an
    error or a panic; a record the replica holds afterwards was there before
    or is a value of the message that is admissible (this namespace, both
    signatures valid, not too far in the future, accepted by the validator);
    the entries received and sent are counted and the heads received are
    merged; the observer is told the first 1024 rejections, in order, and
    nothing else.  A closed replica refuses and keeps its state. *)
Theorem sync_process_message_spec now m from filter r st : replica_wf r →
  message_ok (session_of r filter) m →
  if i_closed (rp_info r)
  then sync_process_message now m from filter (r, st) = (Err (SeInsert IeClosed), (r, st))
  else ∃ reply r' st', sync_process_message now m from filter (r, st) = (Ok reply, (r', st'))
    ∧ replica_wf r'
    ∧ (∀ e, holds r' e → holds r e ∨ ∃ c, (e, c) ∈ message_values m
         ∧ admissible now (replica_id r) from (i_capability_validator (rp_info r)) e)
    ∧ sync_accounted m reply st st'
    ∧ w_observed (rp_world r') = w_observed (rp_world r) ++
        (if i_rejection_observer (rp_info r) is Some o
         then (λ id, (o, (replica_id r, id, from)))
                <$> take MAX_REJECTIONS_PER_MESSAGE (omap part_rejected m) else [])
    ∧ reply ≠ Some [].
Proof.
  intros Hwf Hm. destruct (i_closed (rp_info r)) eqn:Hc.
  - unfold sync_process_message, ensure_open, info_closed. by rewrite Hc.
  - by apply sync_process_run.
Qed.
(** One value that is accepted and not superseded is stored. *)
Lemma process_one_value {W} config validate_cb on_insert_cb content_status_cb range e c
    (s : SessionStore StoreInstance) (w : W) :
  rs_inv (ss_inner s) → validate_cb s e c = Accept →
  (¬ ∃ q, superseding (view (si_store (ss_inner s))) e q) →
  wp (process_message (R:=RejectId) config validate_cb on_insert_cb content_status_cb
      [MpItem (Build_RangeItem range [(e, c)] true)]) (s, w) (λ reply p,
    reply = None ∧ put_effect (view (si_store (ss_inner s))) e (view (si_store (ss_inner p.1)))).
Proof.
  intros Hinv Hv Hq. unfold process_message. wp_step. simpl. wp_step.
  unfold process_item. wp_step. wp_step. wp_step. unfold store_values. simpl.
  wp_step. wp_step. wp_step. wp_step. cbn [fst]. rewrite Hv. wp_step. unfold store_op. wp_step.
  destruct (put_inst_wp (ss_inner s) e Hinv) as (o & i & Hput & Hi & Ho).
  exists o, (set_ss_inner i s). split.
  { simpl. rewrite ss_put. unfold on_inner, st_zoom. by rewrite Hput. }
  destruct o as [|n]; [by destruct Ho|]. destruct Ho as [_ Hpe].
  repeat wp_step; simpl; done.
Qed.

(** Reconciliation does not check the length of a value against its hash.
    An entry whose length is zero but whose hash is not the empty one, or the
    other way round, is refused when it is handed over on its own, but stored
    when it arrives as a value of a reconciliation message. *)
Theorem reconciliation_admits_malformed now e c from range filter r st :
  replica_wf r → i_closed (rp_info r) = false →
  eqb (se_content_hash e) Hash_EMPTY ≠ (se_content_len e =? 0)%N →
  admissible now (replica_id r) from (i_capability_validator (rp_info r)) e →
  (¬ ∃ q, superseding (replica_view r) e q) →
  insert_remote_entry now e from c r = (Err (IeValidation InvalidEmptyEntry), r)
  ∧ ∃ r' st', sync_process_message now [MpItem (Build_RangeItem range [(e, c)] true)] from filter (r, st)
      = (Ok None, (r', st')) ∧ holds r' e.
Proof.
  intros Hwf Hc Hmal Hadm Hq. split.
  - unfold insert_remote_entry, replica_ensure_open, ensure_open, info_closed.
    erewrite st_bind_run; [|rewrite st_get_bind, Hc; reflexivity]. cbv iota beta.
    rewrite st_lift_bind. unfold Entry_validate_empty.
    change (Entry_content_hash (se_entry e)) with (se_content_hash e).
    change (Entry_content_len (se_entry e)) with (se_content_len e).
    by destruct (eqb (se_content_hash e) Hash_EMPTY), (se_content_len e =? 0)%N.
  - unfold sync_process_message, ensure_open, info_closed. rewrite Hc.
    destruct (download_policy_run (replica_id r) r Hwf) as (i & Hdp & Hi & Hv & Hn & Hsn).
    rewrite Hdp. cbn [rp_store set_rp_store rp_world]. rewrite <- Hv in Hq.
    set (w0 := observe_rejections _ _ _ _ _).
    destruct (process_one_value SyncConfig_default
      (sync_validate now (replica_id r) from (i_capability_validator (rp_info r)))
      (sync_on_insert (replica_id r) from (stored_policy (replica_view r) (replica_id r)))
      (λ _, sync_content_status (i_content_status_cb (rp_info r))) range e c
      (SessionStore_new i filter) (i_subscribers (rp_info r), w0) Hi) as (reply & [s' [subs w']] & Hrun & -> & Hpe).
    + unfold sync_validate. apply (validate_entry_sync now i (replica_id r) e from c) in Hadm; [|done].
      simpl. by rewrite Hadm.
    + exact Hq.
    + rewrite Hrun. do 2 eexists. split; [done|]. destruct Hpe as [Hr _]. unfold holds, replica_view. simpl in *.
      by rewrite Hr, eqb_refl.
Qed.
End replica_facts.

(** ** Concrete replicas *)
Definition demo_info : ReplicaInfo := ReplicaInfo_new (CapRead demo_ns).
Definition demo_world : World := {| w_channels := ∅; w_observed := [] |}.
Definition demo_replica : Replica := Replica_new demo_instance demo_info demo_world.
Definition demo_secret : NamespaceSecret := NamespaceSecret_from_bytes (arr_rep 32 x01).
Definition demo_author_key : Author := Author_from_bytes (arr_rep 32 x02).
Definition demo_writable : Replica :=
  Replica_new (StoreInstance_new (NamespaceSecret_id demo_secret) demo_store)
    (ReplicaInfo_new (CapWrite demo_secret)) demo_world.

Lemma demo_replica_wf : replica_wf demo_replica.
Proof. exact (conj demo_instance_inv eq_refl). Qed.
Lemma demo_writable_wf : replica_wf demo_writable.
Proof. exact (conj demo_instance_inv eq_refl). Qed.

(** The length is zero, the hash is not the empty one. *)
Definition demo_malformed : SignedEntry :=
  SignedEntry_from_parts demo_secret demo_author_key [x42]
    {| r_len := 0; r_hash := arr_rep 32 x09; r_timestamp := 9 |}.
Definition demo_remote : SignedEntry :=
  SignedEntry_from_parts demo_secret demo_author_key [x42]
    {| r_len := 3; r_hash := arr_rep 32 x09; r_timestamp := 9 |}.

Lemma demo_not_superseded e : se_key e = [x42] → ¬ ∃ q, superseding demo_tables e q.
Proof.
  intros He (q & Hq & _ & _ & Hne & Hp & _).
  assert (ri_byte_tuple (se_id q) = (demo_ns, demo_author, [x41])) as Hid.
  { revert Hq. change (tbl_get (tbl_insert (tbl_empty : tbl RecordsId RecordsValue)
      (demo_ns, demo_author, [x41]) (demo_row 7)) (ri_byte_tuple (se_id q)) = Some (record_row q) →
      ri_byte_tuple (se_id q) = (demo_ns, demo_author, [x41])).
    rewrite tbl_get_insert, tbl_get_empty by apply _.
    destruct (eqb (demo_ns, demo_author, [x41]) (ri_byte_tuple (se_id q))) eqn:Heq; [|done].
    by apply eqb_eq in Heq as <-. }
  assert (se_key q = [x41]) as Hk by (injection Hid as _ _ Hk; exact Hk).
  rewrite Hk, He in Hp. destruct Hp as [l Hl]. discriminate Hl.
Qed.

Lemma demo_admissible e : se_namespace e = demo_ns → SignedEntry_verify pk_from_bytes e = Ok tt →
  (se_timestamp e <= MAX_TIMESTAMP_FUTURE_SHIFT)%N →
  admissible 0 (replica_id demo_replica) (demo_peer x03) (i_capability_validator demo_info) e.
Proof. intros Hns Hv Hts. split_and!; [done|done|exact Hts|done]. Qed.

Lemma insert_spec_witness :
  let e := SignedEntry_from_parts demo_secret demo_author_key [x42]
    {| r_len := 3; r_hash := arr_rep 32 x09; r_timestamp := 5 |} in
  SignedEntry_verify pk_from_bytes e = Ok tt
  ∧ ∃ x r', insert 5 5 [x42] demo_author_key (arr_rep 32 x09) 3 demo_writable = (x, r')
      ∧ insert_done demo_writable e Local x r'.
Proof. exact (insert_spec 5 5 [x42] demo_author_key (arr_rep 32 x09) 3 demo_writable demo_writable_wf). Defined.


Lemma insert_remote_entry_spec_witness :
  admissible 0 (replica_id demo_replica) (demo_peer x03) None demo_remote
  ∧ ∃ x r', insert_remote_entry 0 demo_remote (demo_peer x03) Missing demo_replica = (x, r')
      ∧ insert_done demo_replica demo_remote (Sync (demo_peer x03) Missing) x r'.
Proof.
  exact (insert_remote_entry_spec 0 demo_remote (demo_peer x03) Missing demo_replica demo_replica_wf).
Defined.

Lemma demo_message_ok : message_ok (session_of demo_replica None)
  ([MpItem demo_item] : Message SignedEntry RecordIdentifier RejectId).
Proof.
  split.
  - intros item [[= ->]|[]%elem_of_nil]%elem_of_cons _. by left.
  - intros fp [[=]|[]%elem_of_nil]%elem_of_cons.
Qed.

Lemma sync_process_message_spec_witness :
  ∃ reply r' st', sync_process_message 0 [MpItem demo_item] (demo_peer x03) None
      (demo_replica, SyncOutcome_default) = (Ok reply, (r', st'))
    ∧ replica_wf r' ∧ sync_accounted [MpItem demo_item] reply SyncOutcome_default st'.
Proof.
  destruct (sync_process_message_spec 0 [MpItem demo_item] (demo_peer x03) None demo_replica
    SyncOutcome_default demo_replica_wf demo_message_ok) as (reply & r' & st' & Heq & Hwf & _ & Ha & _).
  exists reply, r', st'. exact (conj Heq (conj Hwf Ha)).
Defined.

Lemma reconciliation_admits_malformed_witness :
  insert_remote_entry 0 demo_malformed (demo_peer x03) Missing demo_replica
    = (Err (IeValidation InvalidEmptyEntry), demo_replica)
  ∧ ∃ r' st', sync_process_message 0
      [MpItem (Build_RangeItem (Build_Range ri_default ri_default) [(demo_malformed, Missing)] true)]
      (demo_peer x03) None (demo_replica, SyncOutcome_default) = (Ok None, (r', st'))
    ∧ holds r' demo_malformed.
Proof.
  apply (reconciliation_admits_malformed 0 demo_malformed Missing (demo_peer x03)
    (Build_Range ri_default ri_default) None demo_replica SyncOutcome_default demo_replica_wf eq_refl).
  - intros Heq. vm_compute in Heq. discriminate Heq.
  - apply demo_admissible; [reflexivity|apply from_parts_verifies|by apply N.leb_le].
  - apply demo_not_superseded. reflexivity.
Defined.
