(* ===== verification/Reconcile.v ===== *)
(** * Two replicas that reconcile

    The theorems of Converge at the sessions of [src/sync.rs] and
    [src/filter.rs]: each side serves the admitted part of the snapshot its
    session was opened with and takes in what [sync_validate] accepts.  Such
    an exchange ends, gives each peer exactly what the other's access
    decision admits and it lacks, and brings two unfiltered replicas to the
    same content. *)
From S2P Require Import Prelude Redb Keys Entry Heads Query Bounds Ranger Converge Info Store StoreInstance Filter Replica.

(** ** A session's view is frozen *)
Section session_view.
Context `{RedbOk, Crypto, Postcard DownloadPolicy}.
Implicit Types (s : SessionStore StoreInstance) (t : Tables) (f : option EntryFilter).

Definition session_frame (ns : NamespaceId) t f s : Prop :=
  si_namespace (ss_inner s) = ns ∧ si_session_snapshot (ss_inner s) = Some t ∧ ss_filter s = f.
Definition session_view (ns : NamespaceId) t f : list SignedEntry :=
  List.filter (admitted f) (RecordsRange_with_bounds (records t) (RecordsBounds_namespace ns)).

Lemma keeps_session_frame {A} ns t f (m : ST StoreInstance StoreErr A) :
  keeps_frame m → preserves (session_frame ns t f) (on_inner m).
Proof.
  intros Hm s (Hn & Hs & Hf). unfold on_inner, st_zoom. destruct (Hm (ss_inner s)) as [Hn' Hs'].
  destruct (m (ss_inner s)). unfold session_frame. simpl in *. split_and!; congruence.
Qed.
Lemma keeps_gets {A} (g : StoreInstance → A) : keeps_frame (st_gets g).
Proof. done. Qed.
Lemma keeps_read_records : keeps_frame read_records.
Proof.
  apply keeps_bind; [apply keeps_gets|]. intros [t|]; [apply keeps_ret|].
  apply keeps_bind; [apply keeps_on_store|intros t; apply keeps_ret].
Qed.
Lemma keeps_get_range r : keeps_frame (inst_get_range r).
Proof.
  apply keeps_bind; [apply keeps_gets|]. intros ns. destruct (boundary_foreign ns r); [done|].
  destruct (get_range_bounds ns r). apply keeps_bind; [apply keeps_read_records|].
  intros t. destruct (range_pair _ _ _). apply keeps_ret.
Qed.
Lemma keeps_get_first : keeps_frame inst_get_first.
Proof.
  apply keeps_bind; [apply keeps_gets|]. intros ns.
  apply keeps_bind; [apply keeps_read_records|intros t; apply keeps_ret].
Qed.

Lemma session_frozen ns t f :
  frozen_view (S:=SessionStore StoreInstance) (Er:=StoreErr) (V:=DocRecord)
    (session_frame ns t f) (session_view ns t f) (λ k, ri_namespace k = ns).
Proof.
  assert (∀ r, preserves (session_frame ns t f) (on_inner (inst_get_range r))) as Hrange.
  { intros r. apply keeps_session_frame, keeps_get_range. }
  assert (∀ r, preserves (session_frame ns t f) (ss_get_range r)) as Hsrange.
  { intros r. unfold ss_get_range. preserves_auto. apply Hrange. }
  split.
  - intros s (Hn & Hs & Hf). simpl. unfold session_view, read_source. by rewrite Hn, Hs, Hf.
  - intros s k (Hn & _) _. simpl. by rewrite Hn.
  - exact Hsrange.
  - intros r. unfold rs_get_fingerprint, SessionStore_ranger, ss_get_fingerprint. preserves_auto; [apply Hsrange|].
    apply keeps_session_frame, keeps_bind; [apply keeps_get_range|intros es; apply keeps_ret].
  - unfold rs_get_first, SessionStore_ranger, ss_get_first. preserves_auto; [apply Hrange|].
    apply keeps_session_frame, keeps_get_first.
  - intros k. apply keeps_session_frame, keeps_bind; [apply keeps_on_store|intros t'; apply keeps_ret].
  - intros k g. apply keeps_session_frame, keeps_on_store.
  - intros e. apply keeps_session_frame, keeps_on_store.
Qed.
End session_view.

(** ** Two sessions of one document *)
Section sessions.
Context `{RedbOk, Crypto, Postcard DownloadPolicy}.
Context (ns : NamespaceId) (now : bool → N) (peer : bool → PeerIdBytes).
Context (validator : bool → option (SignedEntry → PeerIdBytes → ValidateOutcome)) (policy : bool → DownloadPolicy).
Context (status : bool → option (Hash → ContentStatus)).
(** The session of each side: its instance, the snapshot it reads from and
    what it shows of it. *)
Context (inst : bool → StoreInstance) (snap : bool → Tables) (filter : bool → option EntryFilter).
Implicit Types (d : bool) (e : SignedEntry) (k : RecordIdentifier).

Abbreviation Sess := (SessionStore StoreInstance).
Definition sides_validate d : Sess → SignedEntry → ContentStatus → ValidateOutcome :=
  sync_validate (now d) ns (peer (negb d)) (validator d).
Definition sides_on_insert d
    : Sess → SignedEntry → ContentStatus → Subscribers * World → Subscribers * World :=
  sync_on_insert ns (peer (negb d)) (policy d).
Definition sides_status d (_ : Subscribers * World) : SignedEntry → ContentStatus :=
  sync_content_status (status d).

(** The whole exchange: [initial_message] of [d], then [process_message] in
    turns, at most [fuel] times. *)
Definition sync_exchange (fuel : nat) d (w : bool → Subscribers * World) :=
  let start d := ((SessionStore_new (inst d) (filter d), w d), []) in
  reconcile (V:=DocRecord) (K:=RecordIdentifier) (R:=RejectId) (Er:=StoreErr)
    SyncConfig_default sides_validate sides_on_insert sides_status fuel d
    {| on_true := start true; on_false := start false |}.

Definition sides_view d : list SignedEntry := session_view ns (snap d) (filter d).
Definition accepts d e : Prop := admissible (now d) ns (peer (negb d)) (validator d) e.

(** Each side is a session on the document with a snapshot. *)
Definition sessions_open : Prop := ∀ d, rs_inv (inst d) ∧ si_namespace (inst d) = ns
  ∧ si_session_snapshot (inst d) = Some (snap d).
(** Ranges in which the fingerprints agree hold the same entries, or newer
    ones on the other side. *)
Definition fingerprints_tell : Prop := ∀ d r,
  eqb (range_fingerprint (loc (sides_view d) r)) (range_fingerprint (loc (sides_view (negb d)) r)) = true →
  ∀ e, e ∈ loc (sides_view d) r → held (sides_view (negb d)) e.

Lemma sides_valid d (s : Sess) e c : sessions_open → rs_inv s → sides_validate d s e c = Accept →
  rs_entry_ok (SessionStore_new (inst d) (filter d)) e.
Proof.
  intros Hopen Hs Ha. destruct (Hopen d) as (_ & Hns & _).
  destruct (proj1 (validate_entry_sync (now d) (ss_inner s) ns e (peer (negb d)) c (validator d) Hs)) as [Hne _].
  { unfold sides_validate, sync_validate in Ha. by destruct (validate_entry _ _ _ _ _ _) as [[]|[]|]. }
  simpl. congruence.
Qed.
Lemma sides_accept d (s : Sess) e c : rs_inv s → accepts d e → sides_validate d s e c = Accept.
Proof.
  intros Hs Ha. unfold sides_validate, sync_validate.
  by rewrite (proj2 (validate_entry_sync (now d) (ss_inner s) ns e (peer (negb d)) c (validator d) Hs) Ha).
Qed.

Lemma sides_frozen d : frozen_view (S:=Sess) (Er:=StoreErr) (V:=DocRecord)
  (session_frame ns (snap d) (filter d)) (sides_view d) (λ k, ri_namespace k = ns).
Proof. apply session_frozen. Qed.

Abbreviation start w := ({| on_true := ((SessionStore_new (inst true) (filter true), w true), []);
  on_false := ((SessionStore_new (inst false) (filter false), w false), []) |}
  : Sides (S:=Sess) (E:=SignedEntry) (W:=Subscribers * World)).

Lemma start_side d (w : bool → Subscribers * World) :
  side d (start w) = ((SessionStore_new (inst d) (filter d), w d), []).
Proof. by destruct d. Qed.

Lemma start_ready w : sessions_open →
  sides_ready (λ d, session_frame ns (snap d) (filter d)) (λ d, SessionStore_new (inst d) (filter d)) (start w).
Proof.
  intros Hopen d. destruct (Hopen d) as (Hi & Hns & Hs). unfold received. rewrite start_side. simpl.
  split; [done|]. split; [|done]. by split.
Qed.

(** What a side's store has at any key was there at the start, or has been
    received and accepted. *)
Definition vetted d (s : Sess) (L : list SignedEntry) : Prop := ∀ k e,
  rs_live s k = Some e → rs_live (inst d) k = Some e ∨ e ∈ L ∧ accepts d e.

Lemma sides_accepted d (s : Sess) e c : rs_inv s → sides_validate d s e c = Accept → accepts d e.
Proof.
  intros Hs Ha. apply (validate_entry_sync (now d) (ss_inner s) ns e (peer (negb d)) c (validator d) Hs).
  unfold sides_validate, sync_validate in Ha. by destruct (validate_entry _ _ _ _ _ _) as [[]|[]|].
Qed.
Lemma vetted_step d s s' (m : Message SignedEntry RecordIdentifier RejectId) L : stored_from (sides_validate d) (message_values m) s s' →
  vetted d s L → vetted d s' (L ++ (message_values m).*1).
Proof.
  intros [_ Hst] HL k e [He|(c & t & Hin & Ht & Ha)]%Hst.
  - destruct (HL k e He) as [?|[? ?]]; [by left|]. right. split; [|done]. apply elem_of_app. by left.
  - right. split; [|by eapply sides_accepted]. apply elem_of_app. right. apply list_elem_of_fmap. by exists (e, c).
Qed.

(** C4: a sync session delivers exactly what it may.  Two sessions on one
    document, each serving the part of its snapshot that its access decision
    admits, end without error after at most as many messages as they show
    entries, plus five.  Each peer receives only entries that the other
    admits, and - if equal fingerprints of a range tell that neither lacks
    an entry of it - every one of those that it does not itself show at the
    same key with a value at least as new.  What its store then has at any
    key was there at the start, or has been received and passed the
    validation of sync entries: namespace, signature, clock and capability
    validator. *)
Theorem sync_session_delivers fuel d w : sessions_open → fingerprints_tell →
  length (sides_view true) + length (sides_view false) + 5 ≤ fuel →
  ∃ σ, sync_exchange fuel d w = Some (Ok σ) ∧ ∀ d',
    (∀ e, e ∈ received d' σ → e ∈ sides_view (negb d'))
    ∧ (∀ e, e ∈ sides_view (negb d') → e ∈ received d' σ ∨ held (sides_view d') e)
    ∧ ∀ k e, rs_live (ss_inner (side d' σ).1.1) k = Some e →
        rs_live (inst d') k = Some e
        ∨ e ∈ received d' σ ∧ admissible (now d') ns (peer (negb d')) (validator d') e.
Proof.
  intros Hopen Hfp Hfuel.
  destruct (reconcile_delivers SyncConfig_default sides_validate sides_on_insert sides_status eq_refl
    (λ d, session_frame ns (snap d) (filter d)) sides_view (λ k, ri_namespace k = ns) sides_frozen
    (λ d, SessionStore_new (inst d) (filter d)) (λ d s e c, sides_valid d s e c Hopen) Hfp
    vetted) with (fuel := fuel) (d := d) (σ := start w)
    as (σ & Hrun & Hdel & Hvet); [| |by apply start_ready| |done|].
  - intros d' s s' L Hs HL k e. rewrite (same_live _ _ Hs). apply HL.
  - intros n d' m σ reply p Hm Hrun. apply vetted_step.
    by eapply (receive_stored SyncConfig_default sides_validate sides_on_insert sides_status eq_refl _ _ _ sides_frozen
      _ (λ d s e c, sides_valid d s e c Hopen)); [apply Hm|].
  - intros d' k e. rewrite start_side. by left.
  - exists σ. split; [exact Hrun|]. intros d'.
    split; [apply (dl_sound _ _ _ _ Hdel)|]. split; [apply (dl_settled _ _ _ _ Hdel)|apply Hvet].
Qed.

(** *** Convergence

    An entry is regular if the store lets it supersede what it covers: it is
    not a deletion marker, its key is not empty and does not end in a byte
    255 (the scan of such a prefix reaches further than the prefix). *)
Definition regular e : Prop :=
  se_key e ≠ [] ∧ se_is_empty e = false ∧ last (se_key e) ≠ Some xff.

Lemma regular_covered q k : regular q → rs_covered (S:=Sess) (E:=SignedEntry) (se_id q) k = true ↔
  ri_namespace k = se_namespace q ∧ ri_author k = se_author q ∧ se_key q `prefix_of` ri_key k.
Proof.
  intros (_ & _ & Hff). simpl. unfold RecordsBounds_author_prefix.
  change (ri_byte_tuple k) with (ri_namespace k, ri_author k, ri_key k). rewrite author_key_bounds_in. simpl.
  rewrite starts_with_spec. split; [|by intuition auto]. intros (Hn & Ha & [Hp|Ho]); [done|]. destruct Hff.
  destruct Ho as (p & c & n & m & Hk & _ & Hm & _). change (ri_key (se_id q)) with (se_key q) in Hk.
  rewrite Hk. destruct n as [|n]; [lia|].
  rewrite <- (Nat.add_1_r n), repeat_app, app_comm_cons, app_assoc. simpl. apply last_snoc.
Qed.
Lemma regular_listed q k : regular q → rs_listed (S:=Sess) (E:=SignedEntry) q k = true ↔
  ri_namespace k = se_namespace q ∧ ri_author k = se_author q ∧ se_key q `prefix_of` ri_key k.
Proof.
  intros (Hk & He & _). simpl. rewrite !andb_true_iff, !eqb_eq, !negb_true_iff, Nat.eqb_neq, starts_with_spec.
  change (ri_key (se_id q)) with (se_key q). change (ri_namespace (se_id q)) with (se_namespace q).
  change (ri_author (se_id q)) with (se_author q).
  assert (length (se_key q) ≠ 0) by (by destruct (se_key q)). naive_solver.
Qed.

(** Among regular entries of one document, the store lists an entry for what
    it covers, and covering is a partial order. *)
Section regular.
Context (U : SignedEntry → Prop) (Hns : ∀ e, U e → se_namespace e = ns) (Hreg : ∀ e, U e → regular e).

Lemma regular_covers q e : U q → rs_covered (S:=Sess) (E:=SignedEntry) (re_key q) (re_key e) = true ↔
  se_namespace e = se_namespace q ∧ se_author e = se_author q ∧ se_key q `prefix_of` se_key e.
Proof. intros Hq. by apply (regular_covered q (se_id e)), Hreg. Qed.
Lemma regular_lists q e : U q → U e →
  rs_listed (S:=Sess) q (re_key e) = rs_covered (S:=Sess) (E:=SignedEntry) (re_key q) (re_key e).
Proof.
  intros Hq He. apply eq_true_iff_eq. rewrite regular_covers by done. by apply (regular_listed q (se_id e)), Hreg.
Qed.
Lemma listed_in_document q e : U e → rs_listed (S:=Sess) q (re_key e) = true → ri_namespace (re_key q) = ns.
Proof.
  intros He Hl. change (ri_namespace (se_id q) = ns). rewrite <- (Hns e He).
  apply andb_true_iff in Hl as [[[[Hn _]%andb_true_iff _]%andb_true_iff _]%andb_true_iff _].
  by apply eqb_eq in Hn.
Qed.
Lemma covers_refl e : U e → rs_covered (S:=Sess) (E:=SignedEntry) (re_key e) (re_key e) = true.
Proof. intros He. by apply regular_covers. Qed.
Lemma covers_trans e1 e2 e3 : U e1 → U e2 → U e3 →
  rs_covered (S:=Sess) (E:=SignedEntry) (re_key e1) (re_key e2) = true →
  rs_covered (S:=Sess) (E:=SignedEntry) (re_key e2) (re_key e3) = true →
  rs_covered (S:=Sess) (E:=SignedEntry) (re_key e1) (re_key e3) = true.
Proof.
  intros He1 He2 He3. rewrite !regular_covers by done. intros (-> & -> & ?) (-> & -> & ?).
  split; [done|]. split; [done|]. by etrans.
Qed.
Lemma covers_antisym e1 e2 : U e1 → U e2 →
  rs_covered (S:=Sess) (E:=SignedEntry) (re_key e1) (re_key e2) = true →
  rs_covered (S:=Sess) (E:=SignedEntry) (re_key e2) (re_key e1) = true → re_key e1 = re_key e2.
Proof.
  intros He1 He2. rewrite !regular_covers by done. intros (Hn & Ha & Hp) (_ & _ & Hp').
  pose proof (anti_symm prefix _ _ Hp Hp') as Hk. change (se_id e1 = se_id e2).
  rewrite <- (ri_of_to_tuple (se_id e1)), <- (ri_of_to_tuple (se_id e2)). f_equal.
  change ((se_namespace e1, se_author e1, se_key e1) = (se_namespace e2, se_author e2, se_key e2)). congruence.
Qed.
End regular.

(** The two sides show all they hold, each accepts all that the other
    shows, and all of it is regular. *)
Record converging : Prop := {
  cv_open : sessions_open;
  cv_fingerprints : fingerprints_tell;
  cv_full : ∀ d, filter d = None ∧ snap d = view (si_store (inst d));
  cv_clean : ∀ d, prefix_clean (inst d);
  cv_regular : ∀ d e, e ∈ sides_view d → regular e;
  cv_accepts : ∀ d e, e ∈ sides_view (negb d) → accepts d e;
}.

Lemma shown_namespace e : shown sides_view e → se_namespace e = ns.
Proof. by intros [d [[He _]%elem_of_namespace_entries _]%elem_of_filter_list]. Qed.

Lemma converging_joinable : converging →
  joinable (S:=Sess) (V:=DocRecord) sides_view (λ k, ri_namespace k = ns).
Proof.
  intros Hc. assert (∀ e, shown sides_view e → regular e) as Hreg by (intros e [d He]; by eapply cv_regular).
  pose proof shown_namespace as Hns. split.
  - by apply regular_lists.
  - intros q e. by apply (listed_in_document (shown sides_view)).
  - by apply covers_refl.
  - by apply covers_trans.
  - by apply covers_antisym.
  - apply DocRecord_leb_trans.
Qed.

Lemma converging_live d k e : converging → ri_namespace k = ns →
  rs_live (inst d) k = Some e ↔ se_id e = k ∧ e ∈ sides_view d.
Proof.
  intros Hc Hk. destruct (cv_full Hc d) as [Hf Hs]. unfold sides_view, session_view.
  rewrite Hf, Hs, filter_admit_all, elem_of_namespace_entries. split.
  - intros Hl. pose proof (rs_live_key (R:=RejectId) (Err:=StoreErr) (inst d) k e ltac:(apply Hc) Hl) as Hid.
    change (se_id e = k) in Hid. split; [done|]. split; [by rewrite <- Hk, <- Hid|].
    apply (live_get (inst d)). by rewrite Hid.
  - intros (<- & _ & Hg). by apply live_get.
Qed.

(** Two stores have the same records of the document: the same ids, with
    the same timestamps and content hashes. *)
Definition same_document t t' : Prop := ∀ a key,
  match tbl_get (records t) (ns, a, key), tbl_get (records t') (ns, a, key) with
  | Some v, Some v' => cmp (row_record v) (row_record v') = Eq
  | None, None => True
  | _, _ => False
  end.

Lemma same_content_document (s s' : Sess) :
  same_content (V:=DocRecord) (λ k, ri_namespace k = ns) s s' →
  same_document (view (si_store (ss_inner s))) (view (si_store (ss_inner s'))).
Proof.
  intros Hsame a key. specialize (Hsame (RecordIdentifier_new ns a key) eq_refl). simpl in Hsame.
  change (ri_byte_tuple (RecordIdentifier_new ns a key)) with (ns, a, key) in Hsame.
  destruct (tbl_get (records (view (si_store (ss_inner s)))) _) as [v|],
    (tbl_get (records (view (si_store (ss_inner s')))) _) as [v'|]; simpl in Hsame; try done.
  by rewrite <- (into_entry_record (ns, a, key) v), <- (into_entry_record (ns, a, key) v').
Qed.

(** [x] has the author and a prefix of the key of [e], and is at least as
    new: the store keeps [x] in the place of [e]. *)
Definition stands_for (x e : SignedEntry) : Prop :=
  se_author x = se_author e ∧ se_key x `prefix_of` se_key e ∧ leb (re_value e) (re_value x) = true.

(** C2: two replicas that reconcile converge.  Say each shows all its records
    of the document, accepts those of the other, has none that one of its own
    stands for, equal fingerprints of a range tell that neither lacks an
    entry of it, and no record is a deletion marker, has an empty key or one
    that ends in a byte 255.  Then one sync session, after at most as many
    messages as there are records, plus five, leaves both stores with the
    same records of the document: the same authors and keys, with equal
    timestamps and content hashes.  Each of them was on one of the sides; and
    every record of either side is still there, on both, or one that stands
    for it. *)
Theorem sync_session_converges fuel d w : converging →
  length (sides_view true) + length (sides_view false) + 5 ≤ fuel →
  ∃ σ, sync_exchange fuel d w = Some (Ok σ)
    ∧ same_document (view (si_store (ss_inner (on_true σ).1.1))) (view (si_store (ss_inner (on_false σ).1.1)))
    ∧ ∀ d', (∀ k e, ri_namespace k = ns → rs_live (ss_inner (side d' σ).1.1) k = Some e → shown sides_view e)
      ∧ ∀ d0 e, ri_namespace (se_id e) = ns → rs_live (inst d0) (se_id e) = Some e →
          ∃ x, rs_live (ss_inner (side d' σ).1.1) (se_id x) = Some x ∧ se_namespace x = ns ∧ stands_for x e.
Proof.
  intros Hc Hfuel. pose proof (cv_open Hc) as Hopen. pose proof (converging_joinable Hc) as Hjoin.
  destruct (reconcile_converges SyncConfig_default sides_validate sides_on_insert sides_status eq_refl
    (λ d, session_frame ns (snap d) (filter d)) sides_view (λ k, ri_namespace k = ns) sides_frozen
    (λ d, SessionStore_new (inst d) (filter d)) (λ d s e c, sides_valid d s e c Hopen) (cv_fingerprints Hc)
    Hjoin) with (fuel := fuel) (d := d) (σ := start w)
    as (σ & Hrun & Hfull & Hsame); [|apply shown_namespace|by apply start_ready| |done|].
  - intros d' s e c Hs _ He. apply sides_accept; [done|]. by apply cv_accepts.
  - intros d'. rewrite start_side. split; [apply (cv_clean Hc)|]. intros k e Hk. by apply converging_live.
  - exists σ. split; [exact Hrun|]. split; [by apply same_content_document|].
    intros d'. destruct (Hfull d') as [_ _ Hsh Htop]. split; [intros k e Hk Hl; by eapply Hsh|].
    intros d0 e Hns [_ He]%(converging_live d0); [|done|done].
    destruct (Htop e) as (x & Hxk & Hx & Hcov & Hle); [by exists d0|]. exists x. split; [done|]. split; [done|].
    destruct (Hsh _ x Hxk Hx) as [d1 Hx1].
    apply (regular_covered x (se_id e)) in Hcov as (_ & Ha & Hp); [|by apply (cv_regular Hc d1)].
    split; [by symmetry|]. by split.
Qed.
End sessions.

(** ** Two concrete replicas

    One has the key [A], the other the key [B]; they reconcile. *)
Definition demo_entry d : SignedEntry :=
  SignedEntry_from_parts demo_secret demo_author_key [if d : bool then x41 else x42]
    {| r_len := 3; r_hash := arr_rep 32 (if d then x09 else x0a); r_timestamp := if d then 5 else 9 |}.
Definition one_record (e : SignedEntry) : Tables :=
  set_records (tbl_insert tbl_empty (ri_byte_tuple (se_id e)) (record_row e))
    (set_records_by_key (tbl_insert tbl_empty (se_namespace e, se_key e, se_author e) tt) demo_tables).
Definition demo_side d : StoreInstance :=
  with_session_snapshot demo_ns {| st_db := db_create (one_record (demo_entry d));
    st_transaction := CtNone; st_open_replicas := ∅; st_pubkeys := ∅; st_clock := 0 |}
    (Some (one_record (demo_entry d))).
Definition demo_snap d : Tables := one_record (demo_entry d).
Definition demo_open_filter (d : bool) : option EntryFilter := None.
Definition demo_world_of (d : bool) : Subscribers * World := ([], demo_world).

Lemma one_record_get e id v : tbl_get (records (one_record e)) id = Some v →
  id = ri_byte_tuple (se_id e) ∧ v = record_row e.
Proof.
  change (tbl_get (tbl_insert (tbl_empty : tbl RecordsId RecordsValue)
    (ri_byte_tuple (se_id e)) (record_row e)) id = Some v → id = ri_byte_tuple (se_id e) ∧ v = record_row e).
  rewrite tbl_get_insert, tbl_get_empty by apply _.
  destruct (eqb (ri_byte_tuple (se_id e)) id) eqn:Heq; [|done]. apply eqb_eq in Heq as <-. by intros [= <-].
Qed.

Lemma demo_side_inv d : rs_inv (demo_side d).
Proof.
  split; [exact I|]. split; [|exact cache_wf_empty]. intros n a k v Hg.
  apply (one_record_get (demo_entry d)) in Hg as [Heq _].
  change (tbl_get (tbl_insert (tbl_empty : tbl RecordsByKeyId unit)
    (se_namespace (demo_entry d), se_key (demo_entry d), se_author (demo_entry d)) tt) (n, k, a) = Some tt).
  injection Heq as -> -> ->. apply tbl_get_insert_eq.
Qed.

Lemma demo_side_view d : sides_view demo_ns demo_snap demo_open_filter d = [demo_entry d].
Proof. destruct d; vm_compute; reflexivity. Qed.

Lemma demo_fingerprints : fingerprints_tell demo_ns demo_snap demo_open_filter.
Proof.
  intros d r. unfold loc. rewrite !demo_side_view. simpl.
  destruct (in_range r (demo_entry d)); [|by intros _ e ?%elem_of_nil].
  intros Heq. exfalso. revert Heq.
  destruct (in_range r (demo_entry (negb d))), d; vm_compute; discriminate.
Qed.

Lemma demo_converging : converging demo_ns (λ _, 0%N) (λ d, demo_peer (if d then x03 else x04))
  (λ _, None) demo_side demo_snap demo_open_filter.
Proof.
  split.
  - intros d. exact (conj (demo_side_inv d) (conj eq_refl eq_refl)).
  - exact demo_fingerprints.
  - done.
  - intros d q c Hq Hc _ Hne. destruct Hne. change (se_id q = se_id c).
    apply (live_get (demo_side d)) in Hq, Hc.
    apply (one_record_get (demo_entry d)) in Hq as [Hq _], Hc as [Hc _].
    by rewrite <- (ri_of_to_tuple (se_id q)), <- (ri_of_to_tuple (se_id c)), Hq, Hc.
  - intros d e. rewrite demo_side_view. intros ->%list_elem_of_singleton.
    destruct d; (split; [discriminate|]); split; (reflexivity || discriminate).
  - intros d e. rewrite demo_side_view. intros ->%list_elem_of_singleton.
    split; [by destruct d|]. split; [apply from_parts_verifies|]. split; [by destruct d|done].
Qed.

Lemma sync_session_delivers_witness :
  ∃ σ, sync_exchange demo_ns (λ _, 0%N) (λ d, demo_peer (if d then x03 else x04)) (λ _, None)
      (λ _, DownloadPolicy_default) (λ _, None) demo_side demo_open_filter 7 true demo_world_of
      = Some (Ok σ)
    ∧ demo_entry false ∈ received true σ.
Proof.
  destruct (sync_session_delivers demo_ns (λ _, 0%N) (λ d, demo_peer (if d then x03 else x04)) (λ _, None)
    (λ _, DownloadPolicy_default) (λ _, None) demo_side demo_snap demo_open_filter 7 true demo_world_of
    (cv_open _ _ _ _ _ _ _ demo_converging) demo_fingerprints) as (σ & Hrun & Hdel).
  - rewrite !demo_side_view. by apply le_n.
  - exists σ. split; [exact Hrun|]. destruct (Hdel true) as (_ & Hall & _).
    destruct (Hall (demo_entry false)) as [Hr|(e & He & Hk & _)]; [rewrite demo_side_view; left|exact Hr|].
    rewrite demo_side_view in He. apply list_elem_of_singleton in He as ->. discriminate Hk.
Defined.

Lemma sync_session_converges_witness :
  ∃ σ, sync_exchange demo_ns (λ _, 0%N) (λ d, demo_peer (if d then x03 else x04)) (λ _, None)
      (λ _, DownloadPolicy_default) (λ _, None) demo_side demo_open_filter 7 true demo_world_of
      = Some (Ok σ)
    ∧ same_document demo_ns (view (si_store (ss_inner (on_true σ).1.1)))
        (view (si_store (ss_inner (on_false σ).1.1)))
    ∧ ∃ x, rs_live (ss_inner (side true σ).1.1) (se_id x) = Some x ∧ stands_for x (demo_entry false).
Proof.
  destruct (sync_session_converges demo_ns (λ _, 0%N) (λ d, demo_peer (if d then x03 else x04)) (λ _, None)
    (λ _, DownloadPolicy_default) (λ _, None) demo_side demo_snap demo_open_filter 7 true demo_world_of
    demo_converging) as (σ & Hrun & Hsame & Hall).
  - rewrite !demo_side_view. by apply le_n.
  - exists σ. split; [exact Hrun|]. split; [exact Hsame|].
    destruct (proj2 (Hall true) false (demo_entry false)) as (x & Hx & _ & Hs); [reflexivity|vm_compute; reflexivity|].
    exists x. exact (conj Hx Hs).
Defined.
