(* ===== verification/SyncState.v ===== *)
(** * Which exchanges run with whom

    Models [src/engine/state.rs] with the decisions it returns from
    [src/net.rs]: for every syncing namespace and peer one slot, idle or
    running, with the reason or the role of the running exchange.  The clock
    is an argument ([now]); the result of a finished exchange is kept as an
    opaque value of type [R].  An endpoint id is its 32 bytes. *)
From S2P Require Import Prelude Keys Entry Filter.

Abbreviation EndpointId := arr32.

Inductive SyncReason := DirectJoin | NewNeighbor | ReasonSyncReport | Resync.
#[export] Instance SyncReason_eq_dec : EqDecision SyncReason.
Proof. solve_decision. Defined.

Inductive Origin := OrConnect (reason : SyncReason) | OrAccept.
#[export] Instance Origin_eq_dec : EqDecision Origin.
Proof. solve_decision. Defined.

Inductive SyncState :=
| Idle
| Running (start : N) (origin : Origin).

Inductive AbortReason := NotFound | AlreadySyncing | InternalServerError.
#[export] Instance AbortReason_eq_dec : EqDecision AbortReason.
Proof. solve_decision. Defined.

Inductive AcceptOutcome :=
| Allow (filter : option EntryFilter)
| RejectRequest (reason : AbortReason).

Inductive SyncDirection := DirAccept | DirConnect.
Definition expected_sync_direction (self_node_id other_node_id : EndpointId) : SyncDirection :=
  if ltb other_node_id self_node_id then DirAccept else DirConnect.

Section state.
Context {R : Type}.

Record PeerState := {
  ps_state : SyncState;
  ps_resync_requested : bool;
  ps_last_sync : option (N * R);
}.
Definition PeerState_default : PeerState :=
  {| ps_state := Idle; ps_resync_requested := false; ps_last_sync := None |}.

(** ** One slot *)
Definition set_sync_running (now : N) (origin : Origin) (p : PeerState) : PeerState :=
  {| ps_state := Running now origin; ps_resync_requested := false;
     ps_last_sync := ps_last_sync p |}.

Definition peer_finish (now : N) (origin : Origin) (res : R) (p : PeerState)
    : option (N * bool) * PeerState :=
  let start := match ps_state p with Running start _ => Some start | Idle => None end in
  let p := {| ps_state := Idle; ps_resync_requested := ps_resync_requested p;
              ps_last_sync := Some (now, res) |} in
  ((λ s, (s, ps_resync_requested p)) <$> start, p).

Definition peer_start_connect (now : N) (reason : SyncReason) (p : PeerState) : bool * PeerState :=
  match ps_state p with
  | Running _ _ =>
      (false, if bool_decide (reason = ReasonSyncReport)
              then {| ps_state := ps_state p; ps_resync_requested := true;
                      ps_last_sync := ps_last_sync p |}
              else p)
  | Idle => (true, set_sync_running now (OrConnect reason) p)
  end.

Definition peer_abort_connect (reason : SyncReason) (p : PeerState) : bool * PeerState :=
  match ps_state p with
  | Running _ (OrConnect running_reason) =>
      if bool_decide (running_reason = reason)
      then (true, {| ps_state := Idle; ps_resync_requested := ps_resync_requested p;
                     ps_last_sync := ps_last_sync p |})
      else (false, p)
  | _ => (false, p)
  end.

Definition peer_accept_request (now : N) (me node : EndpointId) (p : PeerState)
    : AcceptOutcome * PeerState :=
  let outcome :=
    match ps_state p with
    | Idle => Allow None
    | Running _ OrAccept => RejectRequest AlreadySyncing
    | Running _ (OrConnect _) =>
        match expected_sync_direction me node with
        | DirAccept => Allow None
        | DirConnect => RejectRequest AlreadySyncing
        end
    end in
  (outcome, match outcome with
            | Allow _ => set_sync_running now OrAccept p
            | RejectRequest _ => p
            end).

(** ** All namespaces *)
Record NamespaceState := { nss_nodes : gmap EndpointId PeerState; nss_may_emit_ready : bool }.
Definition NamespaceState_default : NamespaceState :=
  {| nss_nodes := ∅; nss_may_emit_ready := false |}.

Abbreviation NamespaceStates := (gmap NamespaceId NamespaceState).

Definition is_syncing (namespace : NamespaceId) (s : NamespaceStates) : bool :=
  match s !! namespace with Some _ => true | None => false end.

Definition states_insert (namespace : NamespaceId) (s : NamespaceStates) : NamespaceStates :=
  match s !! namespace with Some _ => s | None => <[namespace := NamespaceState_default]> s end.

Definition states_remove (namespace : NamespaceId) (s : NamespaceStates) : bool * NamespaceStates :=
  (is_syncing namespace s, delete namespace s).

(** [entry]: run [f] on the slot of a syncing namespace, made idle first if
    the peer is new. *)
Definition on_entry {A} (namespace : NamespaceId) (node : EndpointId) (none : A)
    (f : PeerState → A * PeerState) (s : NamespaceStates) : A * NamespaceStates :=
  match s !! namespace with
  | None => (none, s)
  | Some n =>
      let '(a, p) := f (default PeerState_default (nss_nodes n !! node)) in
      (a, <[namespace := {| nss_nodes := <[node := p]> (nss_nodes n);
                            nss_may_emit_ready := nss_may_emit_ready n |}]> s)
  end.

Definition start_connect (now : N) (namespace : NamespaceId) (node : EndpointId) (reason : SyncReason)
    : NamespaceStates → bool * NamespaceStates :=
  on_entry namespace node false (peer_start_connect now reason).
Definition abort_connect (namespace : NamespaceId) (node : EndpointId) (reason : SyncReason)
    : NamespaceStates → bool * NamespaceStates :=
  on_entry namespace node false (peer_abort_connect reason).
Definition accept_request (now : N) (me : EndpointId) (namespace : NamespaceId) (node : EndpointId)
    : NamespaceStates → AcceptOutcome * NamespaceStates :=
  on_entry namespace node (RejectRequest NotFound) (peer_accept_request now me node).
Definition finish (now : N) (namespace : NamespaceId) (node : EndpointId) (origin : Origin) (res : R)
    : NamespaceStates → option (N * bool) * NamespaceStates :=
  on_entry namespace node None (peer_finish now origin res).

Definition set_may_emit_ready (namespace : NamespaceId) (value : bool) (s : NamespaceStates)
    : option unit * NamespaceStates :=
  match s !! namespace with
  | None => (None, s)
  | Some n => (Some tt, <[namespace := {| nss_nodes := nss_nodes n; nss_may_emit_ready := value |}]> s)
  end.
Definition may_emit_ready (namespace : NamespaceId) (s : NamespaceStates)
    : option bool * NamespaceStates :=
  match s !! namespace with
  | None => (None, s)
  | Some n =>
      if nss_may_emit_ready n
      then (Some true, <[namespace := {| nss_nodes := nss_nodes n; nss_may_emit_ready := false |}]> s)
      else (Some false, s)
  end.
End state.
Arguments PeerState : clear implicits.
Arguments NamespaceState : clear implicits.

(** ** One slot as a state machine

    The events of a slot, in the order the live actor handles them. *)
Section slot_facts.
Context {R : Type}.
Implicit Types (p : PeerState R).

Inductive slot_op :=
| OpStart (now : N) (reason : SyncReason)
| OpAbort (reason : SyncReason)
| OpAccept (now : N) (me node : EndpointId)
| OpFinish (now : N) (origin : Origin) (res : R).

(** Whether the event started an exchange, and the slot afterwards. *)
Definition slot_step (op : slot_op) p : bool * PeerState R :=
  match op with
  | OpStart now reason => peer_start_connect now reason p
  | OpAbort reason => (false, (peer_abort_connect reason p).2)
  | OpAccept now me node =>
      let '(o, p') := peer_accept_request now me node p in
      (match o with Allow _ => true | RejectRequest _ => false end, p')
  | OpFinish now origin res => (false, (peer_finish now origin res p).2)
  end.

Definition running p : Prop := ps_state p ≠ Idle.

(** The exchange that runs hands out the report at its end, or another one
    starts before. *)
Definition hands_out (op : slot_op) p : bool :=
  match op with
  | OpFinish now origin res => match (peer_finish now origin res p).1 with Some (_, resync) => resync | None => false end
  | _ => false
  end.
Fixpoint syncs_again (ops : list slot_op) p : bool :=
  match ops with
  | [] => false
  | op :: ops => (slot_step op p).1 || hands_out op p || syncs_again ops (slot_step op p).2
  end.
Definition ends_exchange (op : slot_op) : Prop := match op with OpFinish _ _ _ => True | _ => False end.
Definition aborts (op : slot_op) : Prop := match op with OpAbort _ => True | _ => False end.

Lemma report_step op p : running p → ps_resync_requested p = true → ¬ aborts op →
  (slot_step op p).1 || hands_out op p = true
  ∨ ¬ ends_exchange op ∧ running (slot_step op p).2 ∧ ps_resync_requested (slot_step op p).2 = true.
Proof.
  destruct p as [[|start o] rs l]; [done|]. intros _ Hrs Hab. simpl in Hrs. subst rs.
  destruct op as [now r|r|now me node|now o' res]; simpl; [|by destruct Hab| |by left].
  - right. split; [tauto|]. by destruct (bool_decide _).
  - unfold peer_accept_request. simpl. destruct o as [r|]; [destruct (expected_sync_direction me node)|];
      [by left|right; by split_and!..].
Qed.
Lemma report_syncs_again ops : ∀ p, running p → ps_resync_requested p = true →
  Forall (λ op, ¬ aborts op) ops → Exists ends_exchange ops → syncs_again ops p = true.
Proof.
  induction ops as [|op ops IH]; intros p Hr Hq Hab Hex; [by inversion Hex|].
  apply Forall_cons in Hab as [Ha Hab]. simpl.
  destruct (report_step op p Hr Hq Ha) as [->|(Hne & Hr' & Hq')]; [done|].
  apply Exists_cons in Hex as [?|Hex]; [done|]. rewrite (IH _ Hr' Hq' Hab Hex). apply orb_true_r.
Qed.

(** C38: a sync report that arrives during an exchange leads to a sync, unless
    the dial in progress is aborted.  The dial that the report asks for is
    refused, but the slot remembers it: whatever happens to the slot from then
    on without an abort, by the first end of an exchange either another
    exchange has been started, which carries the news, or that end hands the
    request to sync again out to its caller.  An abort of the dial leaves the
    request in the idle slot and hands nothing out. *)
Theorem report_not_forgotten now p : running p →
  let p' := (peer_start_connect now ReasonSyncReport p).2 in
  (peer_start_connect now ReasonSyncReport p).1 = false ∧ running p'
  ∧ (∀ ops, Forall (λ op, ¬ aborts op) ops → Exists ends_exchange ops → syncs_again ops p' = true)
  ∧ (∀ reason, let '(cleared, p2) := peer_abort_connect reason p' in
       ps_resync_requested p2 = true ∧ (if cleared then ps_state p2 = Idle else p2 = p')).
Proof.
  intros Hrun. destruct p as [[|start o] rs l]; [done|]. cbn [peer_start_connect ps_state snd fst].
  split; [done|]. split; [done|]. split.
  - intros ops. by apply report_syncs_again.
  - intros reason. unfold peer_abort_connect. simpl. destruct o as [r|]; [|done]. by case_bool_decide.
Qed.

(** C37: who may start an exchange.  A dial starts only from an idle slot.  An
    incoming request is allowed from an idle slot, refused while we serve
    the peer already, and while we dial the peer ourselves it is allowed by
    exactly one of the two ends: when both dial at once, whatever the order
    of arrival, one request is allowed and the other refused. *)
Theorem exchange_start (now now' : N) (a b : EndpointId) p (q : PeerState R) sp sq rp rq reason :
  a ≠ b → ps_state p = Running sp (OrConnect rp) → ps_state q = Running sq (OrConnect rq) →
  ((peer_accept_request now a b p).1 = Allow None
     ↔ (peer_accept_request now' b a q).1 = RejectRequest AlreadySyncing)
  ∧ ((peer_accept_request now' b a q).1 = Allow None
     ↔ (peer_accept_request now a b p).1 = RejectRequest AlreadySyncing)
  ∧ (∀ r, (peer_start_connect (R:=R) now reason r).1 = true ↔ ps_state r = Idle)
  ∧ (∀ r, ps_state r = Idle → (peer_accept_request (R:=R) now a b r).1 = Allow None)
  ∧ (∀ r s, ps_state r = Running s OrAccept →
       peer_accept_request (R:=R) now a b r = (RejectRequest AlreadySyncing, r)).
Proof.
  intros Hne Hp Hq. unfold peer_accept_request at 1 2 3 4. rewrite Hp, Hq. unfold expected_sync_direction.
  assert (ltb b a = negb (ltb a b)) as Hflip.
  { destruct (ltb_tri a b) as [[-> ->]|[?|[-> ->]]]; done. }
  rewrite Hflip. split; [by destruct (ltb a b)|]. split; [by destruct (ltb a b)|]. split_and!.
  - intros [[|s o] rs l]; simpl; [done|]. split; [done|discriminate].
  - intros [st rs l] Hr. simpl in Hr. subst st. done.
  - intros [st rs l] s Hr. simpl in Hr. by subst st.
Qed.

(** A dial that the tie-break overrides is no longer tracked.  If the peer
    with the smaller id dials us while we dial it, its request takes our slot
    over; once that exchange ends the slot is idle and a new dial starts,
    although nothing has reported the end of the first dial. *)
Theorem overridden_dial_untracked (t1 t2 t3 t4 : N) (me node : EndpointId) p reason reason' res :
  ltb node me = true → ps_state p = Idle →
  let p1 := (peer_start_connect t1 reason p).2 in
  let p2 := (peer_accept_request t2 me node p1).2 in
  let p3 := (peer_finish t3 OrAccept res p2).2 in
  (peer_start_connect t1 reason p).1 = true
  ∧ (peer_accept_request t2 me node p1).1 = Allow None
  ∧ ps_state p3 = Idle
  ∧ (peer_start_connect t4 reason' p3).1 = true.
Proof.
  intros Hlt Hp. destruct p as [st rs l]. simpl in Hp. subst st. simpl.
  unfold peer_accept_request, expected_sync_direction. simpl. by rewrite Hlt.
Qed.

(** An aborted dial drops the report queued behind it: the slot goes idle
    with the request still set, nothing is returned that would start a sync,
    and the next exchange, whenever it comes, clears it. *)
Theorem abort_drops_report now later start reason reason' p :
  ps_state p = Running start (OrConnect reason) →
  let p1 := (peer_start_connect now ReasonSyncReport p).2 in
  let '(cleared, p2) := peer_abort_connect reason p1 in
  cleared = true ∧ ps_state p2 = Idle
  ∧ (peer_start_connect later reason' p2).1 = true
  ∧ ps_resync_requested (peer_start_connect later reason' p2).2 = false.
Proof.
  intros Hp. destruct p as [st rs l]. simpl in Hp. subst st. simpl.
  unfold peer_abort_connect. simpl. by rewrite bool_decide_eq_true_2.
Qed.
End slot_facts.

(** *** Namespaces *)
Section states_facts.
Context {R : Type}.
Implicit Types (s : gmap NamespaceId (NamespaceState R)).

Definition slot s (namespace : NamespaceId) (node : EndpointId) : option (PeerState R) :=
  (λ n, default PeerState_default (nss_nodes n !! node)) <$> s !! namespace.

(** The slots of different namespaces and peers are independent, and a
    namespace that is not syncing has none: an operation on a slot answers
    from that slot alone, changes no other slot and no syncing set, and on a
    namespace that is not syncing it answers no and changes nothing. *)
Theorem slots_independent {A} namespace node (none : A) f s :
  let '(a, s') := on_entry namespace node none f s in
  (match slot s namespace node with
   | None => a = none ∧ s' = s
   | Some p => a = (f p).1 ∧ slot s' namespace node = Some (f p).2
   end)
  ∧ (∀ ns, is_syncing ns s' = is_syncing ns s)
  ∧ (∀ ns nd, (ns, nd) ≠ (namespace, node) → slot s' ns nd = slot s ns nd).
Proof.
  unfold on_entry, slot, is_syncing. destruct (s !! namespace) as [n|] eqn:Hn; simpl; [|done].
  destruct (f (default PeerState_default (nss_nodes n !! node))) as [a p]. simpl. split_and!.
  - done.
  - rewrite lookup_insert_eq. simpl. by rewrite lookup_insert_eq.
  - intros ns. destruct (decide (namespace = ns)) as [->|Hne].
    + by rewrite lookup_insert_eq, Hn.
    + by rewrite lookup_insert_ne.
  - intros ns nd Hne. destruct (decide (namespace = ns)) as [->|Hns].
    + rewrite lookup_insert_eq, Hn. simpl. rewrite lookup_insert_ne; [done|]. congruence.
    + by rewrite lookup_insert_ne.
Qed.
End states_facts.

Definition demo_serving : PeerState unit :=
  {| ps_state := Running 0 OrAccept; ps_resync_requested := false; ps_last_sync := None |}.
Lemma report_not_forgotten_witness :
  syncs_again [OpStart 2 NewNeighbor; OpAccept 3 (arr_rep 32 x05) (arr_rep 32 x04); OpFinish 4 OrAccept tt]
    (peer_start_connect (R:=unit) 1 ReasonSyncReport demo_serving).2 = true.
Proof.
  apply (proj1 (proj2 (proj2 (report_not_forgotten (R:=unit) 1 demo_serving ltac:(discriminate))))).
  - repeat constructor; intros [].
  - do 2 apply Exists_cons_tl. by apply Exists_cons_hd.
Defined.

Definition demo_dialing : PeerState unit :=
  {| ps_state := Running 0 (OrConnect DirectJoin); ps_resync_requested := false;
     ps_last_sync := None |}.

Lemma exchange_start_witness :
  (peer_accept_request 1 (arr_rep 32 x05) (arr_rep 32 x04) demo_dialing).1 = Allow None
  ↔ (peer_accept_request 1 (arr_rep 32 x04) (arr_rep 32 x05) demo_dialing).1
    = RejectRequest AlreadySyncing.
Proof.
  refine (proj1 (exchange_start 1 1 (arr_rep 32 x05) (arr_rep 32 x04) demo_dialing demo_dialing
    0 0 DirectJoin DirectJoin DirectJoin _ eq_refl eq_refl)).
  intros Heq. apply (f_equal (λ v : arr32, vec_to_list v)) in Heq. vm_compute in Heq. discriminate Heq.
Defined.

Lemma overridden_dial_untracked_witness :
  (peer_start_connect (R:=unit) 1 DirectJoin PeerState_default).1 = true.
Proof.
  exact (proj1 (overridden_dial_untracked (R:=unit) 1 2 3 4 (arr_rep 32 x05) (arr_rep 32 x04)
    PeerState_default DirectJoin DirectJoin tt eq_refl eq_refl)).
Defined.

Lemma abort_drops_report_witness :
  let '(cleared, p2) := peer_abort_connect DirectJoin
    (peer_start_connect 1 ReasonSyncReport demo_dialing).2 in
  cleared = true ∧ ps_state p2 = Idle ∧ (peer_start_connect 2 NewNeighbor p2).1 = true
  ∧ ps_resync_requested (peer_start_connect 2 NewNeighbor p2).2 = false.
Proof. exact (abort_drops_report (R:=unit) 1 2 0 DirectJoin NewNeighbor demo_dialing eq_refl). Defined.
