(* ===== verification/Codec.v ===== *)
(** * Framing of the wire messages

    Models the codec of [src/net/codec.rs]: a frame is the length of the
    serialized message as four big-endian bytes, then the message.  The
    buffers of the framed streams are byte lists; [postcard] is the interface
    [Postcard]. *)
From S2P Require Import Prelude Keys Entry Heads Ranger SyncState.

Definition MAX_MESSAGE_SIZE : N := 1024 * 1024 * 1024.

Abbreviation ProtocolMessage := (Message SignedEntry RecordIdentifier RejectId).

Inductive WireMessage :=
| WmInit (namespace : NamespaceId) (message : ProtocolMessage)
| WmSync (message : ProtocolMessage)
| WmAbort (reason : AbortReason).

Inductive CodecError :=
| CeReceivedTooLarge (n : N)
| CeSendTooLarge (n : nat)
| CePostcard
| CeBufferFull.

Section codec.
Context `{Postcard WireMessage}.

(** The buffer is the state; [advance] drops what was read. *)
Definition SyncCodec_decode : ST bytes CodecError (option WireMessage) := λ src,
  if length src <? 4 then (Ok None, src)
  else
    let frame_len := be_val (take 4 src) in
    if (MAX_MESSAGE_SIZE <? frame_len)%N then (Err (CeReceivedTooLarge frame_len), src)
    else if (N.of_nat (length src) <? 4 + frame_len)%N then (Ok None, src)
    else match pc_from_bytes (take (N.to_nat frame_len) (drop 4 src)) with
         | None => (Err CePostcard, src)
         | Some message => (Ok (Some message), drop (4 + N.to_nat frame_len) src)
         end.

(** [postcard::to_slice(&item, &mut dst[4..])]. *)
Definition write_at_4 (payload dst : bytes) : result CodecError bytes :=
  if length dst <? 4 then Panic
  else if length (drop 4 dst) <? length payload then Err CeBufferFull
  else Ok (take 4 dst ++ payload ++ drop (4 + length payload) dst).

Definition SyncCodec_encode (item : WireMessage) : ST bytes CodecError unit := λ dst,
  let len := pc_size item in
  if (MAX_MESSAGE_SIZE <? N.of_nat len)%N then (Err (CeSendTooLarge len), dst)
  else if (2 ^ 32 <=? N.of_nat len)%N then (Panic, dst)
  else
    let dst := dst ++ be_bytes 4 (N.of_nat len) in
    let dst := if length dst <? 4 + len then resize (4 + len) x00 dst else dst in
    match write_at_4 (pc_to_stdvec item) dst with
    | Ok dst => (Ok tt, dst)
    | Err e => (Err e, dst)
    | Panic => (Panic, dst)
    end.

(** ** Reading a stream

    How a framed reader drives the decoder: after every chunk that arrives
    it decodes until the decoder asks for more. *)
Fixpoint drain (fuel : nat) : ST bytes CodecError (list WireMessage) :=
  match fuel with
  | 0 => mret []
  | S fuel =>
      m ← SyncCodec_decode;
      match m with
      | None => mret []
      | Some m => ms ← drain fuel; mret (m :: ms)
      end
  end.

Definition on_chunk (chunk : bytes) : ST bytes CodecError (list WireMessage) := λ buf,
  drain (S (length (buf ++ chunk))) (buf ++ chunk).

Fixpoint read_chunks (chunks : list bytes) : ST bytes CodecError (list WireMessage) :=
  match chunks with
  | [] => mret []
  | c :: cs => ms ← on_chunk c; ms' ← read_chunks cs; mret (ms ++ ms')
  end.
End codec.

(** ** Facts *)
Section codec_facts.
Context `{PostcardOk WireMessage}.
Implicit Types (m : WireMessage) (buf l : bytes).

Definition frame m : bytes := be_bytes 4 (N.of_nat (pc_size m)) ++ pc_to_stdvec m.
Definition sendable m : Prop := (N.of_nat (pc_size m) <= MAX_MESSAGE_SIZE)%N.

Lemma max_message_u32 : (MAX_MESSAGE_SIZE < 2 ^ 32)%N.
Proof. done. Qed.

Lemma frame_head m : sendable m → be_val (be_bytes 4 (N.of_nat (pc_size m))) = N.of_nat (pc_size m).
Proof.
  intros Hm. pose proof max_message_u32. unfold sendable in Hm.
  rewrite be_val_bytes, N.mod_small; [done|]. change (256 ^ N.of_nat 4)%N with (2 ^ 32)%N. lia.
Qed.

Lemma length_frame m : length (frame m) = 4 + pc_size m.
Proof. unfold frame. rewrite length_app, length_be_bytes, pc_size_length. lia. Qed.

Lemma encode_fresh m :
  SyncCodec_encode m [] =
    if (MAX_MESSAGE_SIZE <? N.of_nat (pc_size m))%N then (Err (CeSendTooLarge (pc_size m)), [])
    else (Ok tt, frame m).
Proof.
  unfold SyncCodec_encode. destruct (N.ltb_spec MAX_MESSAGE_SIZE (N.of_nat (pc_size m))) as [|Hle]; [done|].
  pose proof max_message_u32 as Hmax.
  destruct (N.leb_spec (2 ^ 32) (N.of_nat (pc_size m))); [lia|]. rewrite app_nil_l.
  set (dst := if _ <? _ then _ else _).
  assert (dst = be_bytes 4 (N.of_nat (pc_size m)) ++ replicate (pc_size m) x00) as ->.
  { subst dst. rewrite length_be_bytes. destruct (Nat.ltb_spec 4 (4 + pc_size m)).
    - rewrite resize_ge; rewrite length_be_bytes; [|lia]. f_equal. f_equal. lia.
    - assert (pc_size m = 0) as -> by lia. by rewrite app_nil_r. }
  unfold write_at_4. rewrite length_app, length_replicate, length_be_bytes.
  destruct (Nat.ltb_spec (4 + pc_size m) 4); [lia|].
  rewrite drop_app_length' by (by rewrite length_be_bytes). rewrite length_replicate, <- pc_size_length, Nat.ltb_irrefl.
  rewrite take_app_length' by (by rewrite length_be_bytes). unfold frame. do 2 f_equal.
  rewrite drop_ge; [by rewrite app_nil_r|]. rewrite length_app, length_be_bytes, length_replicate. lia.
Qed.

Lemma decode_frame m l : sendable m → SyncCodec_decode (frame m ++ l) = (Ok (Some m), l).
Proof.
  intros Hm. unfold SyncCodec_decode. rewrite length_app, length_frame.
  destruct (Nat.ltb_spec (4 + pc_size m + length l) 4); [lia|].
  assert (take 4 (frame m ++ l) = be_bytes 4 (N.of_nat (pc_size m))) as ->.
  { unfold frame. rewrite <- app_assoc. apply take_app_length'. by rewrite length_be_bytes. }
  rewrite frame_head by done. unfold sendable in Hm.
  destruct (N.ltb_spec MAX_MESSAGE_SIZE (N.of_nat (pc_size m))); [lia|].
  destruct (N.ltb_spec (N.of_nat (4 + pc_size m + length l)) (4 + N.of_nat (pc_size m))); [lia|].
  rewrite Nat2N.id.
  assert (take (pc_size m) (drop 4 (frame m ++ l)) = pc_to_stdvec m) as ->.
  { unfold frame. rewrite <- app_assoc, drop_app_length' by (by rewrite length_be_bytes).
    apply take_app_length'. by rewrite pc_size_length. }
  rewrite pc_roundtrip. by rewrite drop_app_length' by (by rewrite length_frame).
Qed.

(** What is not yet a whole frame is waited for. *)
Lemma decode_partial m l k : sendable m → l ++ k = frame m → k ≠ [] →
  SyncCodec_decode l = (Ok None, l).
Proof.
  intros Hm Hl Hk. assert (length l < length (frame m)) as Hlen.
  { rewrite <- Hl, length_app. destruct k; [done|simpl; lia]. }
  unfold SyncCodec_decode. destruct (Nat.ltb_spec (length l) 4) as [|H4]; [done|].
  assert (take 4 l = be_bytes 4 (N.of_nat (pc_size m))) as ->.
  { rewrite <- (take_app_le l k 4) by lia. rewrite Hl. apply take_app_length'. by rewrite length_be_bytes. }
  rewrite frame_head by done. unfold sendable in Hm. rewrite length_frame in Hlen.
  destruct (N.ltb_spec MAX_MESSAGE_SIZE (N.of_nat (pc_size m))); [lia|].
  destruct (N.ltb_spec (N.of_nat (length l)) (4 + N.of_nat (pc_size m))); [done|lia].
Qed.

(** [k] frames have been read, [rest] of the next is in the buffer. *)
Definition read_upto (ms : list WireMessage) (k : nat) (rest missing : bytes) : Prop :=
  rest ++ missing = mjoin (frame <$> drop k ms)
  ∧ (rest = [] ∨ ∃ m, ms !! k = Some m ∧ length rest < length (frame m)).

Lemma drain_frames ms fuel buf missing : Forall sendable ms →
  buf ++ missing = mjoin (frame <$> ms) → length buf < fuel →
  ∃ k rest, drain fuel buf = (Ok (take k ms), rest) ∧ read_upto ms k rest missing.
Proof.
  intros Hms. revert fuel buf. induction Hms as [|m ms Hm Hms IH]; intros fuel buf Hb Hf;
    destruct fuel as [|fuel]; try lia; cbn [fmap list_fmap mjoin list_join] in Hb.
  - apply app_eq_nil in Hb as [-> ->]. exists 0, []. split; [done|]. split; [done|by left].
  - destruct (decide (length (frame m) ≤ length buf)) as [Hle|Hgt].
    + assert (∃ b', buf = frame m ++ b') as [b' ->].
      { exists (drop (length (frame m)) buf). rewrite <- (take_drop (length (frame m)) buf) at 1. f_equal.
        rewrite <- (take_app_le buf missing) by done. rewrite Hb. by apply take_app_length'. }
      rewrite <- app_assoc in Hb. apply app_inv_head in Hb.
      rewrite length_app, length_frame in Hf.
      destruct (IH fuel b' Hb) as (k & rest & Hd & Hr); [lia|].
      exists (S k), rest. split; [|exact Hr]. simpl drain.
      erewrite st_bind_run by by apply decode_frame. cbv beta iota.
      by erewrite st_bind_run by exact Hd.
    + assert (∃ t, buf ++ t = frame m ∧ t ≠ []) as (t & Ht & Hne).
      { exists (drop (length buf) (frame m)). split.
        - rewrite <- (take_drop (length buf) (frame m)) at 2. f_equal.
          transitivity (take (length buf) (buf ++ missing)); [by rewrite take_app_length|].
          rewrite Hb, take_app_le by lia. done.
        - intros Hnil. apply (f_equal length) in Hnil. rewrite length_drop, length_nil in Hnil. lia. }
      exists 0, buf. split.
      * simpl drain. by erewrite st_bind_run by by eapply decode_partial.
      * split; [done|]. right. exists m. split; [done|lia].
Qed.

Lemma read_chunks_frames ms cs buf missing : Forall sendable ms →
  buf ++ mjoin cs ++ missing = mjoin (frame <$> ms) →
  (buf = [] ∨ ∃ m, head ms = Some m ∧ length buf < length (frame m)) →
  ∃ k rest, read_chunks cs buf = (Ok (take k ms), rest) ∧ read_upto ms k rest missing.
Proof.
  revert ms buf. induction cs as [|c cs IH]; intros ms buf Hms Hb Hlt; cbn [mjoin list_join] in Hb.
  - exists 0, buf. split; [done|]. split; [done|].
    destruct Hlt as [|(m & Hm & Hlen)]; [by left|]. right. exists m.
    destruct ms; [done|]. injection Hm as ->. done.
  - rewrite <- app_assoc, app_assoc in Hb.
    destruct (drain_frames ms (S (length (buf ++ c))) (buf ++ c) _ Hms Hb) as (k & rest & Hd & Hr & Hlt');
      [lia|].
    destruct (IH (drop k ms) rest) as (k' & rest' & Hrd & Hr' & Hlt'').
    + by apply Forall_drop.
    + done.
    + destruct Hlt' as [|(m & Hm & Hlen)]; [by left|]. right. exists m. split; [|done].
      rewrite <- (Nat.add_0_r k), <- lookup_drop in Hm.
      by destruct (drop k ms).
    + exists (k + k'), rest'. split.
      * simpl read_chunks. erewrite st_bind_run by exact Hd. cbv beta iota.
        erewrite st_bind_run by exact Hrd. unfold mret, ST_ret. do 2 f_equal. by rewrite take_take_drop.
      * split; [by rewrite <- drop_drop|]. destruct Hlt'' as [|(m & Hm & Hlen)]; [by left|].
        right. exists m. by rewrite lookup_drop in Hm.
Qed.

(** C35: framing is a round trip that keeps message boundaries, however the
    transport cuts the stream.  Messages are encoded one after the other, each
    into an empty buffer, and an initial part of the stream arrives in chunks
    of any sizes: the reader yields exactly the first messages, in order, as
    soon as the last byte of each is there; it never fails, and what is left
    in the buffer is less than the next frame. *)
Theorem codec_roundtrip ms frames chunks missing :
  Forall2 (λ m f, SyncCodec_encode m [] = (Ok tt, f)) ms frames →
  mjoin chunks ++ missing = mjoin frames →
  ∃ k rest, read_chunks chunks [] = (Ok (take k ms), rest)
    ∧ mjoin (take k frames) ++ rest = mjoin chunks
    ∧ (rest = [] ∨ ∃ f, frames !! k = Some f ∧ length rest < length f).
Proof.
  intros Henc Hs.
  assert (Forall sendable ms ∧ frames = frame <$> ms) as [Hms ->].
  { clear Hs. induction Henc as [|m f ms frames Hm _ IH]; [done|]. rewrite encode_fresh in Hm.
    destruct (N.ltb_spec MAX_MESSAGE_SIZE (N.of_nat (pc_size m))); [done|]. injection Hm as <-.
    destruct IH as [? ->]. split; [by constructor|done]. }
  destruct (read_chunks_frames ms chunks [] missing Hms Hs) as (k & rest & Hr & Hu & Hlt); [by left|].
  exists k, rest. split; [done|]. split.
  - apply (app_inv_tail missing). rewrite <- app_assoc, Hu, Hs, <- fmap_take.
    by rewrite <- join_app, <- fmap_app, take_drop.
  - destruct Hlt as [|(m & Hm & Hlen)]; [by left|]. right. exists (frame m).
    by rewrite list_lookup_fmap, Hm.
Qed.

(** C36: what the encoder refuses and what the decoder refuses.  Encoding never
    panics; it fails exactly on a message above the limit and then writes
    nothing.  Decoding never panics and never looks past the frame: it asks
    for more while the header or the announced body is incomplete, refuses a
    header above the limit as soon as the four bytes are there, and otherwise
    consumes exactly the frame if the body parses. *)
Theorem codec_bounds m src :
  SyncCodec_encode m [] =
    (if (MAX_MESSAGE_SIZE <? N.of_nat (pc_size m))%N then (Err (CeSendTooLarge (pc_size m)), [])
     else (Ok tt, be_bytes 4 (N.of_nat (pc_size m)) ++ pc_to_stdvec m))
  ∧ match SyncCodec_decode src with
    | (Ok None, src') => src' = src
        ∧ (length src < 4
           ∨ (N.of_nat (length src) < 4 + be_val (take 4 src) <= 4 + MAX_MESSAGE_SIZE)%N)
    | (Ok (Some m), src') => ∃ body, src = take 4 src ++ body ++ src'
        ∧ pc_from_bytes body = Some m ∧ N.of_nat (length body) = be_val (take 4 src)
        ∧ (be_val (take 4 src) <= MAX_MESSAGE_SIZE)%N
    | (Err (CeReceivedTooLarge n), src') => src' = src ∧ n = be_val (take 4 src)
        ∧ (MAX_MESSAGE_SIZE < n)%N
    | (Err CePostcard, src') => src' = src
        ∧ pc_from_bytes (take (N.to_nat (be_val (take 4 src))) (drop 4 src)) = None
    | _ => False
    end.
Proof.
  split; [apply encode_fresh|]. unfold SyncCodec_decode.
  destruct (Nat.ltb_spec (length src) 4) as [|H4]; [by split; [|left]|].
  destruct (N.ltb_spec MAX_MESSAGE_SIZE (be_val (take 4 src))) as [|Hle]; [done|].
  destruct (N.ltb_spec (N.of_nat (length src)) (4 + be_val (take 4 src))) as [|Hlen].
  { split; [done|right; lia]. }
  set (n := N.to_nat (be_val (take 4 src))).
  destruct (pc_from_bytes (take n (drop 4 src))) as [m'|] eqn:Hp; [|done].
  exists (take n (drop 4 src)). split_and!; [|done| |done].
  - rewrite <- drop_drop, take_drop. by rewrite take_drop.
  - rewrite length_take, length_drop. lia.
Qed.
End codec_facts.

(** ** A serialization that computes *)
#[export] Instance ContentStatus_eq_dec : EqDecision ContentStatus.
Proof. solve_decision. Defined.
#[export] Instance ContentStatus_countable : Countable ContentStatus.
Proof.
  apply (inj_countable'
    (λ s, match s with Complete => 0 | Incomplete => 1 | Missing => 2 end)
    (λ n, match n with 0 => Complete | 1 => Incomplete | _ => Missing end)).
  by intros [].
Defined.
#[export] Instance AbortReason_countable : Countable AbortReason.
Proof.
  apply (inj_countable'
    (λ s, match s with NotFound => 0 | AlreadySyncing => 1 | InternalServerError => 2 end)
    (λ n, match n with 0 => NotFound | 1 => AlreadySyncing | _ => InternalServerError end)).
  by intros [].
Defined.
#[export] Instance RecordIdentifier_countable : Countable RecordIdentifier.
Proof.
  apply (inj_countable' ri_byte_tuple ri_of_tuple). by intros [].
Defined.
#[export] Instance RejectId_countable : Countable RejectId.
Proof.
  apply (inj_countable' (λ r, (rj_author r, rj_key r, rj_timestamp r, rj_content_hash r))
    (λ '(a, k, t, h), Build_RejectId a k t h)). by intros [].
Defined.
#[export] Instance SignedEntry_countable : Countable SignedEntry.
Proof.
  apply (inj_countable'
    (λ e, (author_signature (se_signature e), namespace_signature (se_signature e), se_id e,
           r_len (se_record e), r_hash (se_record e), r_timestamp (se_record e)))
    (λ '(a, n, id, l, h, t), {|
       se_signature := {| author_signature := a; namespace_signature := n |};
       se_entry := {| e_id := id; e_record := {| r_len := l; r_hash := h; r_timestamp := t |} |} |})).
  by intros [[] [? []]].
Defined.

Abbreviation part_code := (option (RecordIdentifier * RecordIdentifier * arr32) +
  (RecordIdentifier * RecordIdentifier * list (SignedEntry * ContentStatus) * bool) + RejectId)%type.
Definition part_encode (p : MessagePart SignedEntry RecordIdentifier RejectId) : part_code :=
  match p with
  | MpFingerprint f => inl (inl (Some (rg_x (rf_range f), rg_y (rf_range f), rf_fingerprint f)))
  | MpItem i => inl (inr (rg_x (ri_range i), rg_y (ri_range i), ri_values i, ri_have_local i))
  | MpRejected id => inr id
  end.
Definition part_decode (c : part_code) : option (MessagePart SignedEntry RecordIdentifier RejectId) :=
  match c with
  | inl (inl (Some (x, y, f))) => Some (MpFingerprint (Build_RangeFingerprint (Build_Range x y) f))
  | inl (inl None) => None
  | inl (inr (x, y, v, b)) => Some (MpItem (Build_RangeItem (Build_Range x y) v b))
  | inr id => Some (MpRejected id)
  end.
#[export] Instance MessagePart_eq_dec : EqDecision (MessagePart SignedEntry RecordIdentifier RejectId).
Proof.
  intros p q. destruct (decide (part_encode p = part_encode q)) as [Heq|Hne].
  - left. apply (f_equal part_decode) in Heq.
    by destruct p as [[[] ?]|[[] ??]|?], q as [[[] ?]|[[] ??]|?]; simplify_eq/=.
  - right. by intros ->.
Defined.
#[export] Instance MessagePart_countable :
  Countable (MessagePart SignedEntry RecordIdentifier RejectId).
Proof. apply (inj_countable part_encode part_decode). by intros [[[] ?]|[[] ??]|?]. Defined.

Definition wire_encode (m : WireMessage)
    : (NamespaceId * ProtocolMessage) + ProtocolMessage + AbortReason :=
  match m with
  | WmInit ns m => inl (inl (ns, m)) | WmSync m => inl (inr m) | WmAbort r => inr r
  end.
Definition wire_decode (c : (NamespaceId * ProtocolMessage) + ProtocolMessage + AbortReason)
    : WireMessage :=
  match c with
  | inl (inl (ns, m)) => WmInit ns m | inl (inr m) => WmSync m | inr r => WmAbort r
  end.
#[export] Instance WireMessage_eq_dec : EqDecision WireMessage.
Proof. solve_decision. Defined.
#[export] Instance WireMessage_countable : Countable WireMessage.
Proof. apply (inj_countable' wire_encode wire_decode). by intros []. Defined.

#[export] Instance wire_postcard : Postcard WireMessage := toy_postcard _.
#[export] Instance wire_postcard_ok : PostcardOk WireMessage := toy_postcard_ok _.

(** Two frames, the second cut in the middle of its header. *)
Definition demo_wire : WireMessage := WmAbort AlreadySyncing.
Definition demo_frame : bytes := (SyncCodec_encode demo_wire []).2.
Lemma codec_roundtrip_witness :
  ∃ k rest, read_chunks [take 3 demo_frame; drop 3 demo_frame ++ take 2 demo_frame] []
      = (Ok (take k [demo_wire; demo_wire]), rest)
    ∧ mjoin (take k [demo_frame; demo_frame]) ++ rest
      = mjoin [take 3 demo_frame; drop 3 demo_frame ++ take 2 demo_frame]
    ∧ (rest = [] ∨ ∃ f, [demo_frame; demo_frame] !! k = Some f ∧ length rest < length f).
Proof.
  apply (codec_roundtrip _ _ _ (drop 2 demo_frame)); [|vm_compute; reflexivity].
  repeat constructor.
Defined.

Lemma codec_bounds_witness : (SyncCodec_encode demo_wire []).1 = Ok tt.
Proof. rewrite (proj1 (codec_bounds demo_wire [])). vm_compute. reflexivity. Defined.

(** The codec on concrete bytes. *)
Example demo_decode_waits : SyncCodec_decode [x00; x00; x00] = (Ok None, [x00; x00; x00]).
Proof. vm_compute. reflexivity. Qed.
Example demo_decode_refuses :
  (SyncCodec_decode [x80; x00; x00; x00; x01]).1 = Err (CeReceivedTooLarge 2147483648).
Proof. vm_compute. reflexivity. Qed.
Example demo_read_two :
  read_chunks [demo_frame ++ take 1 demo_frame; drop 1 demo_frame] [] = (Ok [demo_wire; demo_wire], []).
Proof. vm_compute. reflexivity. Qed.
