(* ===== verification/Net.v ===== *)
(** * The sync exchange over a connection

    Models [src/net.rs] and the two sides of the exchange of
    [src/net/codec.rs].  The sync actor is the interface [SyncService]; the
    connection is a script: what the reader yields (the end of the list is
    the end of the stream) and how each write and each step of the teardown
    ends.  Every awaited operation may also not end before the bound on the
    whole exchange: it is then [Elapsed], which unwinds to the timeout. *)
From S2P Require Import Prelude Keys Entry Heads Ranger Filter Replica SyncState Codec.

(** An awaited operation that does not answer: it failed, or the bound on the
    exchange elapsed while it ran. *)
Inductive Halt (E : Type) :=
| Fail (e : E)
| Elapsed.
Arguments Fail {E} _.
Arguments Elapsed {E}.

Definition halt_map {E E'} (f : E → E') (h : Halt E) : Halt E' :=
  match h with Fail e => Fail (f e) | Elapsed => Elapsed end.

(** The causes the source carries in an [anyhow::Error]; only logged. *)
Inductive Cause :=
| CaCodec (e : CodecError)
| CaTransport
| CaService
| CaUnexpectedInit
| CaDoubleInit
| CaSyncBeforeInit
| CaUnexpectedAbort
| CaClosedBeforeInit
| CaDenied
| CaTimeout.

(** ** Errors *)
Inductive AcceptError :=
| AeConnect (error : Cause)
| AeOpen (peer : EndpointId) (error : Cause)
| AeAbort (peer : EndpointId) (namespace : NamespaceId) (reason : AbortReason)
| AeSync (peer : EndpointId) (namespace : option NamespaceId) (error : Cause)
| AeClose (peer : EndpointId) (namespace : option NamespaceId) (error : Cause).

Inductive ConnectError :=
| CnConnect (error : Cause)
| CnRemoteAbort (reason : AbortReason)
| CnSync (error : Cause)
| CnClose (error : Cause).

Definition AcceptError_peer (e : AcceptError) : option EndpointId :=
  match e with
  | AeConnect _ => None
  | AeOpen peer _ => Some peer
  | AeSync peer _ _ => Some peer
  | AeClose peer _ _ => Some peer
  | AeAbort peer _ _ => Some peer
  end.
Definition AcceptError_namespace (e : AcceptError) : option NamespaceId :=
  match e with
  | AeConnect _ => None
  | AeOpen _ _ => None
  | AeSync _ namespace _ => namespace
  | AeClose _ namespace _ => namespace
  | AeAbort _ namespace _ => Some namespace
  end.

(** The timings are left out. *)
Record SyncFinished := {
  sf_namespace : NamespaceId;
  sf_peer : EndpointId;
  sf_outcome : SyncOutcome;
}.

(** What the exchange asks of the sync actor; [sv_session_end] is what
    dropping the session handle does. *)
Class SyncService (W SessionId : Type) := {
  sv_session_start : NamespaceId → ST W (Halt Cause) SessionId;
  sv_session_end : SessionId → W → W;
  sv_initial_message : NamespaceId → SessionId → option EntryFilter → ST W (Halt Cause) ProtocolMessage;
  sv_process_message : NamespaceId → ProtocolMessage → PeerIdBytes → SyncOutcome → SessionId →
    option EntryFilter → ST W (Halt Cause) (option ProtocolMessage * SyncOutcome);
}.

Inductive Read := RdMessage (m : WireMessage) | RdError (e : CodecError) | RdStall.
Inductive Step := StOk | StFail | StStall.

Section net.
Context {W SessionId : Type} `{Postcard WireMessage, !SyncService W SessionId}.

Record Conn := {
  cx_world : W;
  cx_reads : list Read;
  cx_writes : list Step;
  cx_sent : list WireMessage;
}.
Definition set_world w (c : Conn) : Conn :=
  {| cx_world := w; cx_reads := cx_reads c; cx_writes := cx_writes c; cx_sent := cx_sent c |}.
Definition set_reads l (c : Conn) : Conn :=
  {| cx_world := cx_world c; cx_reads := l; cx_writes := cx_writes c; cx_sent := cx_sent c |}.

(** [writer.send(m).await]: encoded into the drained buffer, then flushed. *)
Definition writer_send (m : WireMessage) : ST Conn (Halt Cause) unit := λ c,
  match SyncCodec_encode m [] with
  | (Ok _, _) =>
      let sent := {| cx_world := cx_world c; cx_reads := cx_reads c; cx_writes := tail (cx_writes c);
                     cx_sent := cx_sent c ++ [m] |} in
      let unsent := {| cx_world := cx_world c; cx_reads := cx_reads c;
                       cx_writes := tail (cx_writes c); cx_sent := cx_sent c |} in
      match head (cx_writes c) with
      | Some StFail => (Err (Fail CaTransport), unsent)
      | Some StStall => (Err Elapsed, unsent)
      | _ => (Ok tt, sent)
      end
  | (Err e, _) => (Err (Fail (CaCodec e)), c)
  | (Panic, _) => (Panic, c)
  end.

(** A step of the connection's setup or teardown. *)
Definition step_result {S E} (e : E) (s : Step) : ST S (Halt E) unit :=
  match s with StOk => mret tt | StFail => st_err (Fail e) | StStall => st_err Elapsed end.

(** The result of [m], held back as a value; the bound still unwinds. *)
Definition catch {S E A} (m : ST S (Halt E) A) : ST S (Halt E) (result E A) := λ s,
  let '(r, s') := m s in
  (match r with
   | Ok a => Ok (Ok a)
   | Err (Fail e) => Ok (Err e)
   | Err Elapsed => Err Elapsed
   | Panic => Panic
   end, s').

Definition on_service {E A} (f : Cause → E) (m : ST W (Halt Cause) A) : ST Conn (Halt E) A := λ c,
  let '(r, w) := m (cx_world c) in (map_err (halt_map f) r, set_world w c).
Definition send_or {E} (f : Cause → E) (m : WireMessage) : ST Conn (Halt E) unit := λ c,
  let '(r, c') := writer_send m c in (map_err (halt_map f) r, c').

(** The session handle lives until the end of [m], however it ends. *)
Definition with_session {E A} (session : SessionId) (m : ST Conn (Halt E) A) : ST Conn (Halt E) A :=
  λ c, let '(r, c') := m c in (r, set_world (sv_session_end session (cx_world c')) c').

(** ** The dialing side *)
Section alice.
Context (namespace : NamespaceId) (peer : EndpointId) (filter : option EntryFilter)
  (session : SessionId).

Fixpoint alice_loop (reads : list Read) (progress : SyncOutcome)
    : ST Conn (Halt ConnectError) SyncOutcome :=
  match reads with
  | [] => mret progress
  | rd :: reads' =>
      _ ← st_modify (set_reads reads');
      match rd with
      | RdStall => st_err Elapsed
      | RdError e => st_err (Fail (CnSync (CaCodec e)))
      | RdMessage (WmInit _ _) => st_err (Fail (CnSync CaUnexpectedInit))
      | RdMessage (WmAbort reason) => st_err (Fail (CnRemoteAbort reason))
      | RdMessage (WmSync msg) =>
          '(reply, progress) ← on_service CnSync
            (sv_process_message namespace msg peer progress session filter);
          match reply with
          | Some msg => _ ← send_or CnSync (WmSync msg); alice_loop reads' progress
          | None => mret progress
          end
      end
  end.
End alice.

Definition run_alice (namespace : NamespaceId) (peer : EndpointId) (filter : option EntryFilter)
    : ST Conn (Halt ConnectError) SyncOutcome :=
  session ← on_service CnSync (sv_session_start namespace);
  with_session session (
    message ← on_service CnSync (sv_initial_message namespace session filter);
    _ ← send_or CnSync (WmInit namespace message);
    c ← st_get;
    alice_loop namespace peer filter session (cx_reads c) SyncOutcome_default).

(** How the setup ([connect], [open_bi]) and the teardown ([finish],
    [stopped], [read_to_end]) of the streams end. *)
Record Setup := { su_connect : Step; su_open : Step }.
Record Teardown := { td_finish : Step; td_stopped : Step; td_read : Step }.

Definition connect_and_sync_inner (su : Setup) (td : Teardown) (namespace : NamespaceId)
    (peer : EndpointId) (filter : option EntryFilter) : ST Conn (Halt ConnectError) SyncFinished :=
  _ ← step_result (CnConnect CaTransport) (su_connect su);
  _ ← step_result (CnConnect CaTransport) (su_open su);
  res ← catch (run_alice namespace peer filter);
  _ ← step_result (CnClose CaTransport) (td_finish td);
  _ ← step_result (CnClose CaTransport) (td_stopped td);
  _ ← step_result (CnClose CaTransport) (td_read td);
  outcome ← st_lift (map_err Fail res);
  mret {| sf_namespace := namespace; sf_peer := peer; sf_outcome := outcome |}.

(** The bound on the whole exchange. *)
Definition timeout_to {A E} (e : E) (x : result (Halt E) A) : result E A :=
  map_err (λ h, match h with Fail e => e | Elapsed => e end) x.

Definition connect_and_sync (su : Setup) (td : Teardown) (namespace : NamespaceId)
    (peer : EndpointId) (filter : option EntryFilter) (c : Conn)
    : result ConnectError SyncFinished * Conn :=
  let '(res, c) := connect_and_sync_inner su td namespace peer filter c in
  (timeout_to (CnConnect CaTimeout) res, c).

(** ** The accepting side *)
Record BobState := {
  bs_namespace : option NamespaceId;
  bs_peer : EndpointId;
  bs_progress : SyncOutcome;
  bs_filter : option EntryFilter;
  bs_session : option (NamespaceId * SessionId);
}.
Definition BobState_new (peer : EndpointId) : BobState :=
  {| bs_namespace := None; bs_peer := peer; bs_progress := SyncOutcome_default;
     bs_filter := None; bs_session := None |}.
Definition set_bs_namespace n (b : BobState) : BobState :=
  {| bs_namespace := n; bs_peer := bs_peer b; bs_progress := bs_progress b;
     bs_filter := bs_filter b; bs_session := bs_session b |}.
Definition set_bs_progress p (b : BobState) : BobState :=
  {| bs_namespace := bs_namespace b; bs_peer := bs_peer b; bs_progress := p;
     bs_filter := bs_filter b; bs_session := bs_session b |}.
Definition set_bs_filter f (b : BobState) : BobState :=
  {| bs_namespace := bs_namespace b; bs_peer := bs_peer b; bs_progress := bs_progress b;
     bs_filter := f; bs_session := bs_session b |}.
Definition set_bs_session s (b : BobState) : BobState :=
  {| bs_namespace := bs_namespace b; bs_peer := bs_peer b; bs_progress := bs_progress b;
     bs_filter := bs_filter b; bs_session := s |}.

(** [b_accepted] is the cell that [handle_connection] keeps outside the
    bounded exchange. *)
Record Bob := { b_state : BobState; b_conn : Conn; b_accepted : option NamespaceId }.
Definition set_b_state s (b : Bob) : Bob :=
  {| b_state := s; b_conn := b_conn b; b_accepted := b_accepted b |}.
Definition set_b_conn c (b : Bob) : Bob :=
  {| b_state := b_state b; b_conn := c; b_accepted := b_accepted b |}.

Abbreviation BM := (ST Bob (Halt AcceptError)).

(** [BobState::fail]. *)
Definition bob_fail (s : BobState) (cause : Cause) : AcceptError :=
  AeSync (bs_peer s) (bs_namespace s) cause.

Section bob.
(** The decision of the caller: [None] is a callback that does not answer in
    time. *)
Context (accept_cb : NamespaceId → EndpointId → W → option AcceptOutcome * W).

(** The callback [handle_connection] passes on: the namespace is named when
    the decision is asked for. *)
Definition observed_accept_cb (namespace : NamespaceId) (peer : EndpointId) : BM AcceptOutcome := λ b,
  let accepted := match b_accepted b with Some n => Some n | None => Some namespace end in
  let '(o, w) := accept_cb namespace peer (cx_world (b_conn b)) in
  (match o with Some o => Ok o | None => Err Elapsed end,
   {| b_state := b_state b; b_conn := set_world w (b_conn b); b_accepted := accepted |}).

(** An operation on the connection; its failure is reported by [self.fail]. *)
Definition bob_do {A} (m : ST Conn (Halt Cause) A) : BM A := λ b,
  let '(r, c) := m (b_conn b) in
  (map_err (halt_map (bob_fail (b_state b))) r, set_b_conn c b).
Definition bob_modify (f : BobState → BobState) : BM unit := st_modify (λ b, set_b_state (f (b_state b)) b).

Definition process (namespace : NamespaceId) (message : ProtocolMessage) (session : SessionId)
    : BM (option ProtocolMessage * SyncOutcome) :=
  s ← st_gets b_state;
  bob_do (on_service id (sv_process_message namespace message (bs_peer s) (bs_progress s) session
    (bs_filter s))).

(** Session setup: the snapshot is frozen before the first message. *)
Definition start_session (namespace : NamespaceId) : BM SessionId :=
  session ← bob_do (on_service id (sv_session_start namespace));
  _ ← bob_modify (set_bs_session (Some (namespace, session)));
  mret session.

(** One message; [s] is the state it finds. *)
Definition bob_message (s : BobState) (msg : WireMessage)
    : BM (option ProtocolMessage * SyncOutcome) :=
  match msg, bs_session s with
  | WmInit namespace message, None =>
      _ ← bob_modify (set_bs_namespace (Some namespace));
      accept ← observed_accept_cb namespace (bs_peer s);
      _ ← match accept with
          | Allow filter => bob_modify (set_bs_filter filter)
          | RejectRequest reason =>
              _ ← bob_do (writer_send (WmAbort reason));
              st_err (Fail (AeAbort (bs_peer s) namespace reason))
          end;
      session ← start_session namespace;
      process namespace message session
  | WmSync msg, Some (namespace, session) => process namespace msg session
  | WmInit _ _, Some _ => st_err (Fail (bob_fail s CaDoubleInit))
  | WmSync _, None => st_err (Fail (bob_fail s CaSyncBeforeInit))
  | WmAbort _, _ => st_err (Fail (bob_fail s CaUnexpectedAbort))
  end.

Fixpoint run_rounds_loop (reads : list Read) : BM unit :=
  match reads with
  | [] => mret tt
  | rd :: reads' =>
      _ ← st_modify (λ b, set_b_conn (set_reads reads' (b_conn b)) b);
      s ← st_gets b_state;
      '(reply, progress) ←
        match rd with
        | RdStall => st_err Elapsed
        | RdError e => st_err (Fail (bob_fail s (CaCodec e)))
        | RdMessage msg => bob_message s msg
        end;
      _ ← bob_modify (set_bs_progress progress);
      match reply with
      | Some msg => _ ← bob_do (writer_send (WmSync msg)); run_rounds_loop reads'
      | None => mret tt
      end
  end.

Definition run_rounds : BM NamespaceId :=
  b ← st_get;
  _ ← run_rounds_loop (cx_reads (b_conn b));
  s ← st_gets b_state;
  match bs_namespace s with
  | Some namespace => mret namespace
  | None => st_err (Fail (bob_fail s CaClosedBeforeInit))
  end.

(** [BobState::run]: an exchange that ends badly says so, best effort. *)
Definition bob_run : BM NamespaceId :=
  res ← catch run_rounds;
  _ ← match res with
      | Err (AeAbort _ _ _) => mret tt
      | Err _ => λ b,
          let '(r, c) := writer_send (WmAbort InternalServerError) (b_conn b) in
          (match r with Err Elapsed => Err Elapsed | Panic => Panic | _ => Ok tt end, set_b_conn c b)
      | _ => mret tt
      end;
  st_lift (map_err Fail res).

Definition bob_closed (td : Teardown) (peer : EndpointId) (namespace : option NamespaceId) : BM unit :=
  _ ← step_result (AeClose peer namespace CaTransport) (td_finish td);
  _ ← step_result (AeClose peer namespace CaTransport) (td_stopped td);
  step_result (AeClose peer namespace CaTransport) (td_read td).

Definition handle_connection_inner (opened : Step) (td : Teardown) (peer : EndpointId)
    : BM SyncFinished :=
  _ ← step_result (AeOpen peer CaTransport) opened;
  res ← catch bob_run;
  s ← st_gets b_state;
  (* the session ends with the state it is part of *)
  _ ← st_modify (λ b, match bs_session s with
        | Some (_, session) =>
            set_b_conn (set_world (sv_session_end session (cx_world (b_conn b))) (b_conn b))
              (set_b_state (set_bs_session None s) b)
        | None => b
        end);
  closed ← catch (bob_closed td peer (bs_namespace s));
  namespace ← st_lift (map_err Fail (namespace ← res; _ ← closed; mret namespace));
  mret {| sf_namespace := namespace; sf_peer := peer; sf_outcome := bs_progress s |}.

Definition handle_connection (opened : Step) (td : Teardown) (peer : EndpointId) (c : Conn)
    : result AcceptError SyncFinished * Bob :=
  let '(res, b) := handle_connection_inner opened td peer
    {| b_state := BobState_new peer; b_conn := c; b_accepted := None |} in
  (* the bound drops the exchange, and its session with it *)
  let b := match res, bs_session (b_state b) with
           | Err Elapsed, Some (_, session) =>
               set_b_conn (set_world (sv_session_end session (cx_world (b_conn b))) (b_conn b)) b
           | _, _ => b
           end in
  (timeout_to (AeSync peer (b_accepted b) CaTimeout) res, b).
End bob.
End net.

(** ** What the exchange relies on

    The actor's answers arrive over a channel, so a call never panics here;
    [sv_held] are the sessions some handle still holds. *)
Class SyncServiceOk (W SessionId : Type) `{Countable SessionId, SyncService W SessionId} := {
  sv_held : W → gset SessionId;
  sv_start_ok ns w :
    match sv_session_start ns w with
    | (Ok id, w') => sv_held w' ⊆ {[id]} ∪ sv_held w
    | (Err _, w') => sv_held w' ⊆ sv_held w
    | (Panic, _) => False
    end;
  sv_end_ok id w : sv_held (sv_session_end id w) = sv_held w ∖ {[id]};
  sv_initial_ok ns id f w :
    match sv_initial_message ns id f w with
    | (Panic, _) => False
    | (_, w') => sv_held w' ⊆ sv_held w
    end;
  sv_process_ok ns m p o id f w :
    match sv_process_message ns m p o id f w with
    | (Panic, _) => False
    | (_, w') => sv_held w' ⊆ sv_held w
    end;
}.

Section net_facts.
Context {W SessionId : Type} `{Countable SessionId, Postcard WireMessage, !PostcardOk WireMessage,
  !SyncService W SessionId, !SyncServiceOk W SessionId}.
Context (accept_cb : NamespaceId → EndpointId → W → option AcceptOutcome * W).
Context (cb_held : ∀ ns peer w, sv_held (accept_cb ns peer w).2 ⊆ sv_held w).
Context (peer : EndpointId) (held : gset SessionId).
Implicit Types (b : Bob (W:=W) (SessionId:=SessionId)) (c : Conn (W:=W)).

(** *** The state of the accepting side

    The namespace the state names is the one the decision was asked for, and
    the sessions held are among those held before and the one of the state. *)
Definition session_of b : gset SessionId :=
  match bs_session (b_state b) with Some (_, id) => {[id]} | None => ∅ end.
Record bob_inv b : Prop := {
  bi_peer : bs_peer (b_state b) = peer;
  bi_named : bs_namespace (b_state b) = b_accepted b;
  bi_session : ∀ ns id, bs_session (b_state b) = Some (ns, id) → b_accepted b = Some ns;
  bi_held : sv_held (cx_world (b_conn b)) ⊆ session_of b ∪ held;
}.
(** At the start of a round a named namespace has its session. *)
Definition round_inv b : Prop :=
  bob_inv b ∧ (bs_session (b_state b) = None → b_accepted b = None).

(** How the accepting side fails. *)
Definition bob_error (h : Halt AcceptError) b : Prop :=
  bob_inv b
  ∧ match h with
    | Elapsed => True
    | Fail e => AcceptError_peer e = Some peer ∧ AcceptError_namespace e = b_accepted b
        ∧ ∀ ns reason, e = AeAbort peer ns reason →
            ∃ w w', accept_cb ns peer w = (Some (RejectRequest reason), w')
    end.

Lemma bob_inv_conn b c : bob_inv b → sv_held (cx_world c) ⊆ sv_held (cx_world (b_conn b)) →
  bob_inv (set_b_conn c b).
Proof. intros [] Hc. split; try done. simpl. by etrans. Qed.

Lemma bob_fail_error b cause : bob_inv b → bob_error (Fail (bob_fail (b_state b) cause)) b.
Proof. intros Hb. split; [done|]. split_and!; simpl; [by rewrite (bi_peer b Hb)|by apply bi_named|done]. Qed.

(** Operations on the connection that do not touch the sessions. *)
Lemma bob_do_triple {A} (m : ST Conn (Halt Cause) A) (P : Bob → Prop) :
  (∀ b, P b → bob_inv b) → (∀ b c, P b → sv_held (cx_world c) ⊆ sv_held (cx_world (b_conn b)) →
    P (set_b_conn c b)) →
  triple (λ _, True) m (λ _ _, True) (λ _ _, True) →
  (∀ c, sv_held (cx_world (m c).2) ⊆ sv_held (cx_world c)) →
  triple P (bob_do m) (λ _, P) bob_error.
Proof.
  intros HP Hset Hm Hh b Hb. specialize (Hm (b_conn b) I). specialize (Hh (b_conn b)). unfold bob_do.
  destruct (m (b_conn b)) as [[a|h|] c]; simpl in *; [by apply Hset|..|done].
  destruct h as [e|]; simpl.
  - assert (bob_inv (set_b_conn c b)) as Hb' by (apply bob_inv_conn; auto).
    by apply (bob_fail_error (set_b_conn c b)).
  - split; [|done]. apply bob_inv_conn; auto.
Qed.

Lemma writer_send_triple m (P : Conn → Prop) :
  (∀ c c', P c → cx_world c' = cx_world c → P c') →
  triple P (writer_send m) (λ _, P) (λ _, P).
Proof.
  intros HP c Hc. unfold writer_send. rewrite encode_fresh. destruct (_ <? _)%N; [done|].
  destruct (head (cx_writes c)) as [[]|]; by apply (HP c).
Qed.
Lemma writer_send_world m c : cx_world (writer_send m c).2 = cx_world c.
Proof.
  unfold writer_send. rewrite encode_fresh. destruct (_ <? _)%N; [done|].
  by destruct (head (cx_writes c)) as [[]|].
Qed.

Lemma bob_send_triple m (P : Bob → Prop) :
  (∀ b, P b → bob_inv b) → (∀ b c, P b → sv_held (cx_world c) ⊆ sv_held (cx_world (b_conn b)) →
    P (set_b_conn c b)) →
  triple P (bob_do (writer_send m)) (λ _, P) bob_error.
Proof.
  intros HP Hset. apply bob_do_triple; [done|done|by apply writer_send_triple|].
  intros c. by rewrite writer_send_world.
Qed.

Lemma on_service_triple {A} (m : ST W (Halt Cause) A) :
  (∀ w, match m w with (Panic, _) => False | _ => True end) →
  triple (λ _ : Conn, True) (on_service id m) (λ _ _, True) (λ _ _, True).
Proof.
  intros Hm c _. unfold on_service. specialize (Hm (cx_world c)).
  by destruct (m (cx_world c)) as [[a|[e|]|] w].
Qed.

Lemma process_triple ns msg id (P : Bob → Prop) :
  (∀ b, P b → bob_inv b) → (∀ b c, P b → sv_held (cx_world c) ⊆ sv_held (cx_world (b_conn b)) →
    P (set_b_conn c b)) →
  triple P (process ns msg id) (λ _, P) bob_error.
Proof.
  intros HP Hset. unfold process. apply tr_gets_bind. intros s.
  eapply tr_conseq; [apply (bob_do_triple _ P HP Hset)|by intros b []|done|done].
  - apply on_service_triple. intros w. pose proof (sv_process_ok ns msg (bs_peer s) (bs_progress s) id
      (bs_filter s) w) as Hk. by destruct (sv_process_message _ _ _ _ _ _ w) as [[]].
  - intros c. unfold on_service. pose proof (sv_process_ok ns msg (bs_peer s) (bs_progress s) id
      (bs_filter s) (cx_world c)) as Hk.
    by destruct (sv_process_message _ _ _ _ _ _ (cx_world c)) as [[]].
Qed.

Lemma round_inv_conn b c : round_inv b → sv_held (cx_world c) ⊆ sv_held (cx_world (b_conn b)) →
  round_inv (set_b_conn c b).
Proof. intros [Hb Hs] Hc. split; [by apply bob_inv_conn|done]. Qed.

(** The first round: the decision, and the session if it is allowed. *)
Definition named (ns : NamespaceId) b : Prop :=
  bob_inv b ∧ bs_session (b_state b) = None ∧ b_accepted b = Some ns.

Lemma named_conn ns b c : named ns b → sv_held (cx_world c) ⊆ sv_held (cx_world (b_conn b)) →
  named ns (set_b_conn c b).
Proof. intros (Hb & Hs & Ha) Hc. split; [by apply bob_inv_conn|done]. Qed.

Lemma ask_triple ns (b0 : Bob) :
  round_inv b0 → bs_session (b_state b0) = None →
  triple (λ b, b = set_b_state (set_bs_namespace (Some ns) (b_state b0)) b0)
    (observed_accept_cb accept_cb ns peer)
    (λ o b, named ns b ∧ ∃ w w', accept_cb ns peer w = (Some o, w')) bob_error.
Proof.
  intros [Hb Hn] Hs b ->. unfold observed_accept_cb. simpl. rewrite (Hn Hs).
  pose proof (cb_held ns peer (cx_world (b_conn b0))) as Hh.
  destruct (accept_cb ns peer (cx_world (b_conn b0))) as [o w'] eqn:Hcb. simpl in Hh.
  assert (named ns {| b_state := set_bs_namespace (Some ns) (b_state b0);
      b_conn := set_world w' (b_conn b0); b_accepted := Some ns |}) as Hnm.
  { destruct Hb as [H1 H2 H3 H5]. unfold session_of in H5. rewrite Hs in H5.
    split; [|done]. split; unfold session_of; simpl; rewrite ?Hs; try done.
    by etrans. }
  destruct o as [o|]; [|by split; [apply Hnm|]]. split; [done|]. by exists (cx_world (b_conn b0)), w'.
Qed.

Lemma start_triple ns :
  triple (named ns)
    (start_session ns) (λ _, round_inv) bob_error.
Proof.
  intros b (Hb & Hs & Ha). unfold start_session, mbind, ST_bind, bob_do, on_service.
  pose proof (sv_start_ok ns (cx_world (b_conn b))) as Hst.
  pose proof Hb as [H1 H2 H3 H5]. unfold session_of in H5. rewrite Hs in H5.
  destruct (sv_session_start ns (cx_world (b_conn b))) as [[sid|h|] w'] eqn:Hrun; simpl; [|..|done].
  - split; [|done].
    split; unfold session_of; simpl; [done|done| |].
    + intros ns' id' [= -> ->]. done.
    + etrans; [exact Hst|]. set_solver.
  - assert (bob_inv (set_b_conn (set_world w' (b_conn b)) b)) as Hb' by (by apply bob_inv_conn).
    destruct h as [e|]; simpl; [|by split].
    by apply (bob_fail_error (set_b_conn (set_world w' (b_conn b)) b)).
Qed.

Lemma state_error {A} cause s (P : Bob → Prop) (Q : A → Bob → Prop) : (∀ b, P b → bob_inv b) →
  triple (λ b, P b ∧ b_state b = s) (st_err (Fail (bob_fail s cause))) Q bob_error.
Proof. intros HP. apply tr_err. intros b [Hb <-]. by apply bob_fail_error, HP. Qed.

Lemma message_triple s msg :
  triple (λ b, round_inv b ∧ b_state b = s) (bob_message accept_cb s msg) (λ _, round_inv) bob_error.
Proof.
  assert (∀ b, round_inv b → bob_inv b) as Hinv by by intros b [].
  unfold bob_message. destruct msg as [ns message|message|reason];
    [|destruct (bs_session s) as [[ns id]|]|].
  - destruct (bs_session s) as [p|] eqn:Hs; [by apply state_error|].
    intros b0 [Hb0 Hst]. unfold bob_modify. rewrite st_modify_bind. subst s.
    revert b0 Hb0 Hs. intros b0 Hb0 Hs.
    assert (bs_peer (b_state b0) = peer) as -> by apply (bi_peer b0 (proj1 Hb0)).
    refine (tr_bind _ _ _ _ _ _ (ask_triple ns b0 Hb0 Hs) _ _ eq_refl). intros o.
    eapply tr_bind with (R := λ _, named ns).
    + destruct o as [f|reason].
      * intros b [Hb _]. destruct Hb as (Hb & Hn & Ha). split; [|done]. by destruct Hb.
      * eapply tr_bind with
          (R := λ _ b, named ns b ∧ ∃ w w', accept_cb ns peer w = (Some (RejectRequest reason), w')).
        { apply (bob_send_triple _ (λ b, named ns b
            ∧ ∃ w w', accept_cb ns peer w = (Some (RejectRequest reason), w'))); [by intros b [[]]|].
          intros b c [Hb Hw] Hc. split; [by apply named_conn|done]. }
        intros _. apply tr_err. intros b [(Hb & Hn & Ha) Hw]. split; [done|].
        split; [done|]. split; [done|]. intros ns' r' [= <- <-]. done.
    + intros _. eapply tr_bind; [apply start_triple|]. intros sid.
      apply (process_triple _ _ _ round_inv Hinv round_inv_conn).
  - eapply tr_conseq; [apply (process_triple ns message id round_inv Hinv round_inv_conn)|..]; try done.
    by intros b [].
  - by apply state_error.
  - by apply state_error.
Qed.

Lemma rounds_triple reads :
  triple round_inv (run_rounds_loop accept_cb reads) (λ _, bob_inv) bob_error.
Proof.
  assert (∀ b, round_inv b → bob_inv b) as Hinv by by intros b [].
  induction reads as [|rd reads IH]; [by apply tr_ret|]. simpl.
  eapply tr_bind with (R := λ _, round_inv).
  { apply tr_modify. intros b Hb. by apply round_inv_conn. }
  intros _. apply tr_gets_bind. intros s. eapply tr_bind with (R := λ _, round_inv).
  { destruct rd as [msg|e|]; [by apply message_triple|by apply state_error|].
    apply tr_err. intros b [[Hb _] _]. by split. }
  intros [reply progress]. eapply tr_bind with (R := λ _, round_inv).
  { apply tr_modify. intros b [[] Hs]. by split. }
  intros _. destruct reply as [msg|]; [|by apply tr_ret].
  eapply tr_bind; [apply (bob_send_triple _ round_inv Hinv round_inv_conn)|]. intros u. apply IH.
Qed.

Lemma run_rounds_triple :
  triple round_inv (run_rounds accept_cb)
    (λ ns b, bob_inv b ∧ b_accepted b = Some ns) bob_error.
Proof.
  unfold run_rounds. apply tr_get_bind. intros b0. eapply tr_bind with (R := λ _, bob_inv).
  { eapply tr_conseq; [apply rounds_triple|by intros b []|done|done]. }
  intros _. apply tr_gets_bind. intros s. destruct (bs_namespace s) as [ns|] eqn:Hs.
  - apply tr_ret. intros b [Hb <-]. split; [done|]. by rewrite <- (bi_named b Hb).
  - by apply state_error.
Qed.

(** *** The exchange and its teardown *)
Lemma tr_catch {S E A} (P : S → Prop) (m : ST S (Halt E) A) Q X : triple P m Q X →
  triple P (catch m)
    (λ r s, match r with Ok a => Q a s | Err e => X (Fail e) s | Panic => False end)
    (λ h s, h = Elapsed ∧ X Elapsed s).
Proof.
  intros Hm s HP. specialize (Hm s HP). unfold catch.
  destruct (m s) as [[a|[e|]|] s']; done.
Qed.

(** How the exchange ended, as a value. *)
Definition bob_result (r : result AcceptError NamespaceId) b : Prop :=
  match r with
  | Ok ns => bob_inv b ∧ b_accepted b = Some ns
  | Err e => bob_error (Fail e) b
  | Panic => False
  end.

Lemma bob_result_conn r b c : bob_result r b → cx_world c = cx_world (b_conn b) →
  bob_result r (set_b_conn c b).
Proof.
  intros Hr Hc. assert (sv_held (cx_world c) ⊆ sv_held (cx_world (b_conn b))) as Hh by by rewrite Hc.
  destruct r as [ns|e|]; simpl in *; [|..|done].
  - destruct Hr. split; [by apply bob_inv_conn|done].
  - destruct Hr as [Hb He]. split; [by apply bob_inv_conn|exact He].
Qed.

Lemma bob_run_triple :
  triple round_inv (bob_run accept_cb) (λ ns b, bob_inv b ∧ b_accepted b = Some ns) bob_error.
Proof.
  unfold bob_run. eapply tr_bind with (R := bob_result).
  { eapply tr_conseq; [apply tr_catch, run_rounds_triple|done|by intros [] b|].
    intros h b [-> Hb]. exact Hb. }
  intros res. eapply tr_bind with (R := λ _, bob_result res).
  - destruct res as [ns|e|]; [by apply tr_ret| |by intros b Hb].
    assert (triple (bob_result (Err e)) (λ b,
        let '(r, c) := writer_send (WmAbort InternalServerError) (b_conn b) in
        ((match r with Err Elapsed => Err Elapsed | Panic => Panic | _ => Ok tt end, set_b_conn c b)
          : result (Halt AcceptError) () * Bob))
      (λ _, bob_result (Err e)) bob_error) as Hsend.
    { intros b Hb.
      pose proof (writer_send_world (WmAbort InternalServerError) (b_conn b)) as Hw.
      pose proof (writer_send_triple (WmAbort InternalServerError) (λ _, True) (λ _ _ _ _, I)
        (b_conn b) I) as Hp.
      destruct (writer_send _ (b_conn b)) as [[u|[x|]|] c]; simpl in Hw, Hp; [| | |done].
      1-2: by apply bob_result_conn.
      split; [|done]. destruct (bob_result_conn (Err e) b c Hb Hw). done. }
    destruct e; try exact Hsend. by apply tr_ret.
  - intros _. apply tr_lift. intros b Hb. by destruct res.
Qed.

(** The end of a connection: nothing it held is left, and the result names
    the pair. *)
Definition connection_result (r : result AcceptError SyncFinished) b : Prop :=
  match r with
  | Ok f => sf_peer f = peer ∧ b_accepted b = Some (sf_namespace f)
  | Err e => AcceptError_peer e = Some peer ∧ AcceptError_namespace e = b_accepted b
      ∧ ∀ ns reason, e = AeAbort peer ns reason →
          ∃ w w', accept_cb ns peer w = (Some (RejectRequest reason), w')
  | Panic => False
  end.

Definition released b : Prop := bob_inv b ∧ bs_session (b_state b) = None.

Lemma step_triple {A} (P Q : Bob → Prop) (X : Halt A → Bob → Prop) e st :
  (∀ b, P b → X (Fail e) b) → (∀ b, P b → X Elapsed b) → (∀ b, P b → Q b) →
  triple P (step_result e st) (λ _, Q) X.
Proof. intros H1 H2 H3. destruct st; [by apply tr_ret|by apply tr_err|by apply tr_err]. Qed.

Lemma closed_triple td ns (P : Bob → Prop) :
  triple P (bob_closed td peer ns) (λ _, P) (λ h b, P b ∧ (∀ e, h = Fail e → e = AeClose peer ns CaTransport)).
Proof.
  unfold bob_closed.
  assert (∀ st, triple P (step_result (S:=Bob) (AeClose peer ns CaTransport) st) (λ _, P)
    (λ h b, P b ∧ (∀ e, h = Fail e → e = AeClose peer ns CaTransport))) as Hs.
  { intros st. apply step_triple; try done. by intros b Hb; split; [|intros e [=]]. }
  eapply tr_bind; [apply Hs|]. intros u. eapply tr_bind; [apply Hs|]. intros u'. apply Hs.
Qed.

Lemma inner_triple opened td :
  triple (λ b, round_inv b ∧ b_accepted b = None)
    (handle_connection_inner accept_cb opened td peer)
    (λ f b, released b ∧ connection_result (Ok f) b)
    (λ h b, bob_inv b ∧ ∀ e, h = Fail e → released b ∧ connection_result (Err e) b).
Proof.
  unfold handle_connection_inner.
  eapply tr_bind with (R := λ _, round_inv).
  { apply step_triple; [..|by intros b []].
    - intros b [[Hb Hn] Ha]. split; [done|]. intros e [= <-]. split; [|by split_and!].
      split; [done|]. destruct (bs_session (b_state b)) as [[ns id]|] eqn:Hs; [|done].
      pose proof (bi_session b Hb ns id Hs). congruence.
    - intros b [[Hb _] _]. by split. }
  intros _. eapply tr_bind with (R := bob_result).
  { eapply tr_conseq; [apply tr_catch, bob_run_triple|done|by intros [] b|].
    intros h b [-> [Hb _]]. by split. }
  intros res. apply tr_gets_bind. intros s.
  eapply tr_bind with (R := λ _ b, released b ∧ b_accepted b = bs_namespace s ∧ bob_result res b).
  { apply tr_modify. intros b [Hres Hs].
    assert (bob_inv b) as Hb by (destruct res; [apply Hres|apply Hres|done]).
    assert (b_accepted b = bs_namespace s) as Ha by by rewrite <- Hs, (bi_named b Hb).
    destruct (bs_session s) as [[ns id]|] eqn:Hss; [|by subst s].
    assert (∀ b', bob_inv b' → b_accepted b' = b_accepted b → bob_result res b') as Hkeep.
    { intros b' Hb' Ha'. destruct res as [n|e|]; simpl in *; [|..|done].
      - split; [done|]. rewrite Ha'. apply Hres.
      - split; [done|]. rewrite Ha'. apply Hres. }
    match goal with |- released ?x ∧ _ => set (b' := x) end.
    assert (bob_inv b') as Hb'.
    { destruct Hb as [H1 H2 H3 H5]. subst s. unfold session_of in H5. rewrite Hss in H5.
      split; unfold session_of; simpl; try done. rewrite sv_end_ok. set_solver. }
    split; [by split|]. split; [done|]. by apply Hkeep. }
  intros _. eapply tr_bind with
    (R := λ closed b, released b ∧ b_accepted b = bs_namespace s ∧ bob_result res b
      ∧ closed ≠ Panic ∧ ∀ e, closed = Err e → e = AeClose peer (bs_namespace s) CaTransport).
  { eapply tr_conseq; [apply tr_catch, (closed_triple td (bs_namespace s)
      (λ b, released b ∧ b_accepted b = bs_namespace s ∧ bob_result res b))|done|..].
    - intros [u|e|] b Hc; [| |done].
      + destruct Hc as (? & ? & ?). by split_and!.
      + destruct Hc as [(? & ? & ?) He]. split_and!; try done. intros e' [= <-]. by apply He.
    - intros h b [-> [[[Hb _] _] _]]. by split. }
  intros closed b (Hrel & Ha & Hres & Hp & Hc). destruct res as [ns|e|]; [destruct closed as [u|e|]|..].
  - simpl. split; [done|]. split; [done|apply Hres].
  - simpl. split; [apply Hrel|]. intros e' [= <-]. split; [done|].
    rewrite (Hc e eq_refl). by split_and!.
  - done.
  - simpl. split; [apply Hrel|]. intros e' [= <-]. split; [done|apply Hres].
  - done.
Qed.

End net_facts.

(** *** The dialing side *)
Section dial_facts.
Context {W SessionId : Type} `{Countable SessionId, Postcard WireMessage, !PostcardOk WireMessage,
  !SyncService W SessionId, !SyncServiceOk W SessionId}.
Context (peer : EndpointId).
Implicit Types (c : Conn (W:=W)).

Definition holds (hs : gset SessionId) c : Prop := sv_held (cx_world c) ⊆ hs.

Lemma on_service_holds {E A} (f : Cause → E) (m : ST W (Halt Cause) A) (hs : gset SessionId) :
  (∀ w, match m w with (Panic, _) => False | (_, w') => sv_held w' ⊆ sv_held w end) →
  triple (holds hs) (on_service f m) (λ _, holds hs) (λ _, holds hs).
Proof.
  intros Hm c Hc. unfold on_service. specialize (Hm (cx_world c)). unfold holds in *.
  destruct (m (cx_world c)) as [[a|h|] w]; simpl; [..|done]; by etrans.
Qed.

Lemma send_or_holds {E} (f : Cause → E) m (hs : gset SessionId) :
  triple (holds hs) (send_or f m) (λ _, holds hs) (λ _, holds hs).
Proof.
  intros c Hc. unfold send_or.
  pose proof (writer_send_triple m (holds hs)) as Hs.
  assert (∀ c c', holds hs c → cx_world c' = cx_world c → holds hs c') as Hw
    by (unfold holds; intros c1 c2 H1 ->; done).
  specialize (Hs Hw c Hc).
  by destruct (writer_send m c) as [[u|h|] c'].
Qed.

Lemma alice_loop_holds ns filter id reads progress (hs : gset SessionId) :
  triple (holds hs) (alice_loop ns peer filter id reads progress) (λ _, holds hs) (λ _, holds hs).
Proof.
  revert progress. induction reads as [|rd reads IH]; intros progress; [by apply tr_ret|]. simpl.
  eapply tr_bind; [by apply tr_modify with (Q := λ _, holds hs)|]. intros u.
  destruct rd as [[]|e|]; try by apply tr_err.
  eapply tr_bind; [apply on_service_holds; intros w; apply sv_process_ok|].
  intros [reply pr]. destruct reply as [msg|]; [|by apply tr_ret].
  eapply tr_bind; [apply send_or_holds|]. intros u'. apply IH.
Qed.

Lemma run_alice_holds ns filter (hs : gset SessionId) :
  triple (holds hs) (run_alice ns peer filter) (λ _, holds hs) (λ _, holds hs).
Proof.
  unfold run_alice.
  eapply tr_bind with (R := λ id c, holds ({[id]} ∪ hs) c).
  { intros c Hc. unfold on_service, holds in *. pose proof (sv_start_ok ns (cx_world c)) as Hs.
    destruct (sv_session_start ns (cx_world c)) as [[id|h|] w]; simpl; [| |done].
    - set_solver.
    - set_solver. }
  intros id c Hc. unfold with_session.
  assert (triple (holds ({[id]} ∪ hs))
    (message ← on_service CnSync (sv_initial_message ns id filter);
     _ ← send_or CnSync (WmInit ns message);
     c ← st_get;
     alice_loop ns peer filter id (cx_reads c) SyncOutcome_default)
    (λ _, holds ({[id]} ∪ hs)) (λ _, holds ({[id]} ∪ hs))) as Hm.
  { eapply tr_bind; [apply on_service_holds; intros w; apply sv_initial_ok|]. intros message.
    eapply tr_bind; [apply send_or_holds|]. intros u. apply tr_get_bind. intros c'.
    eapply tr_conseq; [apply alice_loop_holds|by intros s []|done|done]. }
  specialize (Hm c Hc). unfold holds in *.
  destruct ((on_service CnSync _ ≫= _) c) as [[r|h|] c']; simpl in *; [..|done];
    rewrite sv_end_ok; set_solver.
Qed.

Lemma connect_holds su td ns filter (hs : gset SessionId) :
  triple (holds hs) (connect_and_sync_inner su td ns peer filter) (λ _, holds hs) (λ _, holds hs).
Proof.
  unfold connect_and_sync_inner.
  assert (∀ e st, triple (holds hs) (step_result (E:=ConnectError) e st) (λ _, holds hs) (λ _, holds hs)) as Hst.
  { intros e st. destruct st; [by apply tr_ret|by apply tr_err|by apply tr_err]. }
  eapply tr_bind; [apply Hst|]. intros _u1. eapply tr_bind; [apply Hst|]. intros _u2.
  eapply tr_bind with (R := λ r c, holds hs c ∧ r ≠ Panic).
  { eapply tr_conseq; [apply tr_catch, (run_alice_holds ns filter hs)|done|by intros [] c|by intros h c []]. }
  intros res. apply tr_pure. intros Hres.
  eapply tr_bind; [apply Hst|]. intros _u3. eapply tr_bind; [apply Hst|]. intros _u4.
  eapply tr_bind; [apply Hst|]. intros _u5.
  eapply tr_bind with (R := λ _, holds hs); [|intros o; by apply tr_ret].
  apply tr_lift. by destruct res.
Qed.
End dial_facts.

Section net_claims.
Context {W SessionId : Type} `{Countable SessionId, Postcard WireMessage, !PostcardOk WireMessage,
  !SyncService W SessionId, !SyncServiceOk W SessionId}.
Context (accept_cb : NamespaceId → EndpointId → W → option AcceptOutcome * W).
Context (cb_held : ∀ ns peer w, sv_held (accept_cb ns peer w).2 ⊆ sv_held w).

Lemma handle_connection_run opened td peer (c : Conn) :
  let '(res, b) := handle_connection accept_cb opened td peer c in
  connection_result accept_cb peer res b ∧ sv_held (cx_world (b_conn b)) ⊆ sv_held (cx_world c).
Proof.
  unfold handle_connection. set (b0 := {| b_state := BobState_new peer; b_conn := c; b_accepted := None |}).
  assert (round_inv peer (sv_held (cx_world c)) b0 ∧ b_accepted b0 = None) as Hb0.
  { split; [|done]. split; [|done]. split; unfold session_of; simpl; try done; set_solver. }
  pose proof (inner_triple accept_cb cb_held peer (sv_held (cx_world c)) opened td b0 Hb0) as Hi.
  destruct (handle_connection_inner accept_cb opened td peer b0) as [[f|h|] b]; [..|done].
  - destruct Hi as [[Hb Hs] Hf]. split; [exact Hf|].
    etrans; [exact (bi_held _ _ _ Hb)|]. unfold session_of. rewrite Hs. set_solver.
  - destruct Hi as [Hb He]. destruct h as [e|]; simpl.
    + destruct (He e eq_refl) as [[_ Hs] Hr]. split; [exact Hr|].
      etrans; [exact (bi_held _ _ _ Hb)|]. unfold session_of. rewrite Hs. set_solver.
    + pose proof (bi_held _ _ _ Hb) as Hh.
      unfold session_of in Hh.
      destruct (bs_session (b_state b)) as [[ns id]|]; simpl; (split; [done|]).
      * rewrite sv_end_ok. set_solver.
      * set_solver.
Qed.

(** An accepted exchange always reports its pair.  However a connection
    ends - finished, failed at any step, refused, or cut by the bound while
    anything was awaited - the result of [handle_connection] names the peer,
    and it names the namespace for which the accept decision was asked, so
    that the caller can release the pair it registered when it allowed the
    request; and the result is an abort only if the decision was a refusal
    for that reason. *)
Theorem accept_result_names_pair opened td peer (c : Conn) :
  let '(res, b) := handle_connection accept_cb opened td peer c in
  match res with
  | Ok f => sf_peer f = peer ∧ b_accepted b = Some (sf_namespace f)
  | Err e => AcceptError_peer e = Some peer ∧ AcceptError_namespace e = b_accepted b
      ∧ ∀ ns reason, e = AeAbort peer ns reason →
          ∃ w w', accept_cb ns peer w = (Some (RejectRequest reason), w')
  | Panic => False
  end.
Proof.
  pose proof (handle_connection_run opened td peer c) as Hr.
  destruct (handle_connection accept_cb opened td peer c) as [res b]. apply Hr.
Qed.

(** C34: no session outlives its exchange: on both sides, on every path out of
    the exchange, every handle held afterwards was held before. *)
Theorem sessions_released su td opened ns peer filter (c : Conn) :
  sv_held (cx_world (connect_and_sync su td ns peer filter c).2) ⊆ sv_held (cx_world c)
  ∧ sv_held (cx_world (b_conn (handle_connection accept_cb opened td peer c).2)) ⊆ sv_held (cx_world c).
Proof.
  split.
  - unfold connect_and_sync.
    pose proof (connect_holds peer su td ns filter (sv_held (cx_world c)) c (reflexivity _)) as Hc.
    by destruct (connect_and_sync_inner su td ns peer filter c) as [[f|h|] c'].
  - pose proof (handle_connection_run opened td peer c) as Hr.
    destruct (handle_connection accept_cb opened td peer c) as [res b]. apply Hr.
Qed.

(** Whose error a failed exchange reports.  The accepting side reports the
    error of the exchange whatever the teardown does.  The dialing side does
    not: if the teardown fails too, its error replaces the peer's abort, and
    the caller can no longer tell that the peer was already syncing. *)
Theorem teardown_errors su td opened ns peer filter (c : Conn) :
  (∀ e b, bob_run accept_cb {| b_state := BobState_new peer; b_conn := c; b_accepted := None |}
       = (Err (Fail e), b) → opened = StOk →
     td_finish td ≠ StStall → td_stopped td ≠ StStall → td_read td ≠ StStall →
     (handle_connection accept_cb opened td peer c).1 = Err e)
  ∧ (∀ reason c', run_alice ns peer filter c = (Err (Fail (CnRemoteAbort reason)), c') →
     su = {| su_connect := StOk; su_open := StOk |} →
     (connect_and_sync su td ns peer filter c).1 =
       match td_finish td, td_stopped td, td_read td with
       | StOk, StOk, StOk => Err (CnRemoteAbort reason)
       | StFail, _, _ | StOk, StFail, _ | StOk, StOk, StFail => Err (CnClose CaTransport)
       | _, _, _ => Err (CnConnect CaTimeout)
       end).
Proof.
  split.
  - intros e b Hrun -> Hf Hs Hr. unfold handle_connection, handle_connection_inner.
    unfold step_result at 1. unfold mbind, ST_bind, mret, ST_ret, catch at 1. rewrite Hrun.
    unfold st_gets, st_modify.
    assert (∀ b' : Bob (W:=W) (SessionId:=SessionId), ∃ r, catch (bob_closed td peer (bs_namespace (b_state b))) b' = (Ok r, b')) as Hcl.
    { intros b'. unfold bob_closed, catch, step_result, mbind, ST_bind. revert Hf Hs Hr.
      destruct (td_finish td), (td_stopped td), (td_read td); intros ???; try done; by eexists. }
    match goal with |- context [catch (bob_closed _ _ _) ?b'] => destruct (Hcl b') as [r Hr'] end.
    rewrite Hr'. done.
  - intros reason c' Hrun ->. unfold connect_and_sync, connect_and_sync_inner. simpl.
    unfold mbind, ST_bind, mret, ST_ret, catch. rewrite Hrun. unfold step_result.
    by destruct (td_finish td), (td_stopped td), (td_read td).
Qed.
End net_claims.

(** ** The two sides together

    What an exchange is meant to be: starting from the dialing side's first
    message, the two actors process each other's replies in turn until one
    has none. *)
Section exchange.
Context {W SessionId : Type} `{Postcard WireMessage, !PostcardOk WireMessage, !SyncService W SessionId}.
Context (ns : NamespaceId) (a b : EndpointId) (fa fb : option EntryFilter) (ida idb : SessionId).
Implicit Types (m r : ProtocolMessage) (oa ob : SyncOutcome) (wa wb : W).

(** [rounds m oa wa ob wb ra rb oa' wa' ob' wb']: with [m] on its way to [b];
    [ra] and [rb] are the messages the sides still send. *)
Inductive rounds : ProtocolMessage → SyncOutcome → W → SyncOutcome → W →
    list ProtocolMessage → list ProtocolMessage → SyncOutcome → W → SyncOutcome → W → Prop :=
| rounds_b_done m oa wa ob wb ob' wb' :
    sv_process_message ns m a ob idb fb wb = (Ok (None, ob'), wb') →
    rounds m oa wa ob wb [] [] oa wa ob' wb'
| rounds_a_done m oa wa ob wb r ob' wb' oa' wa' :
    sv_process_message ns m a ob idb fb wb = (Ok (Some r, ob'), wb') →
    sv_process_message ns r b oa ida fa wa = (Ok (None, oa'), wa') →
    rounds m oa wa ob wb [] [r] oa' wa' ob' wb'
| rounds_step m oa wa ob wb r ob1 wb1 m' oa1 wa1 ra rb oa' wa' ob' wb' :
    sv_process_message ns m a ob idb fb wb = (Ok (Some r, ob1), wb1) →
    sv_process_message ns r b oa ida fa wa = (Ok (Some m', oa1), wa1) →
    rounds m' oa1 wa1 ob1 wb1 ra rb oa' wa' ob' wb' →
    rounds m oa wa ob wb (m' :: ra) (r :: rb) oa' wa' ob' wb'.

Definition incoming (ms : list ProtocolMessage) : list Read := (λ m, RdMessage (WmSync m)) <$> ms.
Definition clean (w : W) (sent : list WireMessage) : Conn (W:=W) :=
  {| cx_world := w; cx_reads := []; cx_writes := []; cx_sent := sent |}.
Definition deliverable (ms : list ProtocolMessage) : Prop := Forall (λ m, sendable (WmSync m)) ms.

Lemma writer_send_ok (m : WireMessage) (c : Conn (W:=W)) : sendable m → cx_writes c = [] →
  writer_send m c = (Ok tt, {| cx_world := cx_world c; cx_reads := cx_reads c; cx_writes := [];
                               cx_sent := cx_sent c ++ [m] |}).
Proof.
  intros Hm Hc. unfold writer_send. rewrite encode_fresh, Hc. unfold sendable in Hm.
  destruct (N.ltb_spec MAX_MESSAGE_SIZE (N.of_nat (pc_size m))); [lia|done].
Qed.

Lemma alice_rounds m oa wa ob wb ra rb oa' wa' ob' wb' :
  rounds m oa wa ob wb ra rb oa' wa' ob' wb' → deliverable ra →
  ∀ c, cx_world c = wa → cx_writes c = [] → cx_reads c = incoming rb →
  alice_loop ns b fa ida (incoming rb) oa c = (Ok oa', clean wa' (cx_sent c ++ (WmSync <$> ra))).
Proof.
  induction 1 as [m oa wa ob wb ob' wb' Hb|m oa wa ob wb r ob' wb' oa' wa' Hb Ha
    |m oa wa ob wb r ob1 wb1 m' oa1 wa1 ra rb oa' wa' ob' wb' Hb Ha Hr IH];
    intros Hd c Hw Hwr Hrd; simpl.
  - unfold mret, ST_ret. rewrite app_nil_r. destruct c; simpl in *. by subst.
  - unfold mbind, ST_bind, st_modify, on_service. simpl. rewrite Hw, Ha. simpl.
    unfold mret, ST_ret, clean, set_world, set_reads. simpl. by rewrite Hwr, app_nil_r.
  - apply Forall_cons in Hd as [Hm' Hd].
    unfold mbind, ST_bind, st_modify, on_service, send_or. simpl. rewrite Hw, Ha. simpl.
    rewrite writer_send_ok by done. simpl. rewrite IH by done. simpl.
    by rewrite <- app_assoc.
Qed.

Lemma bob_rounds accept_cb m oa wa ob wb ra rb oa' wa' ob' wb' :
  rounds m oa wa ob wb ra rb oa' wa' ob' wb' → deliverable rb →
  ∀ bob, bs_session (b_state bob) = Some (ns, idb) → bs_peer (b_state bob) = a →
    bs_filter (b_state bob) = fb → bs_progress (b_state bob) = ob →
    cx_world (b_conn bob) = wb → cx_writes (b_conn bob) = [] →
  run_rounds_loop accept_cb (incoming (m :: ra)) bob =
    (Ok tt, {| b_state := set_bs_progress ob' (b_state bob);
               b_conn := clean wb' (cx_sent (b_conn bob) ++ (WmSync <$> rb));
               b_accepted := b_accepted bob |}).
Proof.
  induction 1 as [m oa wa ob wb ob' wb' Hb|m oa wa ob wb r ob' wb' oa' wa' Hb Ha
    |m oa wa ob wb r ob1 wb1 m' oa1 wa1 ra rb oa' wa' ob' wb' Hb Ha Hr IH];
    intros Hd bob Hs Hp Hf Ho Hw Hwr.
  - simpl. unfold mbind, ST_bind, st_modify, st_gets. simpl. unfold bob_message. rewrite Hs.
    unfold process, bob_do, on_service, mbind, ST_bind, st_gets. simpl.
    rewrite Hp, Hf, Ho, Hw, Hb. simpl. unfold mret, ST_ret, set_b_conn, set_b_state, set_world, clean.
    simpl. by rewrite Hwr, app_nil_r.
  - apply Forall_cons in Hd as [Hr _]. simpl.
    unfold mbind, ST_bind, st_modify, st_gets. simpl. unfold bob_message. rewrite Hs.
    unfold process, bob_do, on_service, mbind, ST_bind, st_gets. simpl.
    rewrite Hp, Hf, Ho, Hw, Hb. simpl. by rewrite writer_send_ok.
  - apply Forall_cons in Hd as [Hr' Hd].
    change (incoming (m :: m' :: ra)) with (RdMessage (WmSync m) :: incoming (m' :: ra)).
    specialize (IH Hd). remember (incoming (m' :: ra)) as rest. simpl run_rounds_loop.
    unfold mbind, ST_bind, st_modify, st_gets. simpl. unfold bob_message. rewrite Hs.
    unfold process, bob_do, on_service, mbind, ST_bind, st_gets. simpl.
    rewrite Hp, Hf, Ho, Hw, Hb. simpl. rewrite writer_send_ok by done. simpl.
    rewrite IH by done. simpl. by rewrite <- app_assoc.
Qed.

Lemma alice_exchange (ca : Conn (W:=W)) wa0 wa1 wb1 m0 ra rb oa wa ob wb :
  sv_session_start ns (cx_world ca) = (Ok ida, wa0) →
  sv_initial_message ns ida fa wa0 = (Ok m0, wa1) →
  rounds m0 SyncOutcome_default wa1 SyncOutcome_default wb1 ra rb oa wa ob wb →
  sendable (WmInit ns m0) → deliverable ra →
  cx_writes ca = [] → cx_sent ca = [] → cx_reads ca = incoming rb →
  run_alice ns b fa ca = (Ok oa, clean (sv_session_end ida wa) (WmInit ns m0 :: (WmSync <$> ra))).
Proof.
  intros Hsa Hi Hr Hm0 Hda Hwa Hna Hra.
  unfold run_alice, with_session, on_service, send_or, mbind, ST_bind, st_get. rewrite Hsa. simpl.
  rewrite Hi. simpl. rewrite writer_send_ok by done. simpl. rewrite Hra.
  erewrite alice_rounds by done. simpl. by rewrite Hna.
Qed.

Lemma bob_exchange accept_cb (cb : Conn (W:=W)) wa1 wb0 wb1 m0 ra rb oa wa ob wb :
  accept_cb ns a (cx_world cb) = (Some (Allow fb), wb0) →
  sv_session_start ns wb0 = (Ok idb, wb1) →
  rounds m0 SyncOutcome_default wa1 SyncOutcome_default wb1 ra rb oa wa ob wb →
  deliverable rb → cx_writes cb = [] → cx_sent cb = [] →
  cx_reads cb = RdMessage (WmInit ns m0) :: incoming ra →
  bob_run accept_cb {| b_state := BobState_new a; b_conn := cb; b_accepted := None |}
    = (Ok ns, {| b_state := {| bs_namespace := Some ns; bs_peer := a; bs_progress := ob;
                               bs_filter := fb; bs_session := Some (ns, idb) |};
                 b_conn := clean wb (WmSync <$> rb); b_accepted := Some ns |}).
Proof.
  intros Hcb Hsb Hr Hdb Hwb Hnb Hrb.
  assert (run_rounds_loop accept_cb (cx_reads cb)
      {| b_state := BobState_new a; b_conn := cb; b_accepted := None |}
    = (Ok tt, {| b_state := {| bs_namespace := Some ns; bs_peer := a; bs_progress := ob;
                               bs_filter := fb; bs_session := Some (ns, idb) |};
                 b_conn := clean wb (WmSync <$> rb); b_accepted := Some ns |})) as Hrun.
  { rewrite Hrb.
    pose proof (bob_rounds accept_cb _ _ _ _ _ _ _ _ _ _ _ Hr Hdb
      {| b_state := {| bs_namespace := Some ns; bs_peer := a; bs_progress := SyncOutcome_default;
                       bs_filter := fb; bs_session := Some (ns, idb) |};
         b_conn := set_world wb1 cb; b_accepted := Some ns |}
      eq_refl eq_refl eq_refl eq_refl eq_refl Hwb) as Hb.
    simpl cx_sent in Hb. rewrite Hnb in Hb. refine (eq_trans _ Hb). simpl.
    unfold mbind, ST_bind, st_modify, st_gets. simpl.
    unfold bob_modify, observed_accept_cb, start_session, bob_do, on_service, process, mbind, ST_bind,
      st_modify, st_gets. simpl. rewrite Hcb. simpl. rewrite Hsb. simpl. done. }
  unfold bob_run, catch, run_rounds, mbind, ST_bind, st_get. simpl. rewrite Hrun. simpl. done.
Qed.

Definition setup_ok : Setup := {| su_connect := StOk; su_open := StOk |}.
Definition teardown_ok : Teardown := {| td_finish := StOk; td_stopped := StOk; td_read := StOk |}.

(** C13: the two sides of an exchange, each reading what the other sends,
    carry out the rounds and close their sessions.  If the decision allows
    the request, both sessions open, neither the streams nor the sync actors
    fail and every message fits a frame, then the dialing side fed with what
    the accepting side sends, and the accepting side fed with what the
    dialing side sends, both finish, and report the namespace, the peer and
    the outcome of the rounds; each has sent its messages of the rounds and
    read all of the other's, and left the store that the rounds left, with
    its session ended. *)
Theorem exchange_refines_rounds accept_cb (ca cb : Conn (W:=W)) wa0 wa1 wb0 wb1 m0 ra rb oa wa ob wb :
  sv_session_start ns (cx_world ca) = (Ok ida, wa0) →
  sv_initial_message ns ida fa wa0 = (Ok m0, wa1) →
  accept_cb ns a (cx_world cb) = (Some (Allow fb), wb0) →
  sv_session_start ns wb0 = (Ok idb, wb1) →
  rounds m0 SyncOutcome_default wa1 SyncOutcome_default wb1 ra rb oa wa ob wb →
  sendable (WmInit ns m0) → deliverable ra → deliverable rb →
  cx_writes ca = [] → cx_writes cb = [] → cx_sent ca = [] → cx_sent cb = [] →
  cx_reads ca = incoming rb → cx_reads cb = RdMessage (WmInit ns m0) :: incoming ra →
  connect_and_sync setup_ok teardown_ok ns b fa ca
    = (Ok {| sf_namespace := ns; sf_peer := b; sf_outcome := oa |},
       clean (sv_session_end ida wa) (WmInit ns m0 :: (WmSync <$> ra)))
  ∧ handle_connection accept_cb StOk teardown_ok a cb
    = (Ok {| sf_namespace := ns; sf_peer := a; sf_outcome := ob |},
       {| b_state := {| bs_namespace := Some ns; bs_peer := a; bs_progress := ob;
                        bs_filter := fb; bs_session := None |};
          b_conn := clean (sv_session_end idb wb) (WmSync <$> rb); b_accepted := Some ns |}).
Proof.
  intros Hsa Hi Hcb Hsb Hr Hm0 Hda Hdb Hwa Hwb Hna Hnb Hra Hrb. split.
  - unfold connect_and_sync, connect_and_sync_inner, catch. simpl. unfold mbind, ST_bind, mret, ST_ret.
    by rewrite (alice_exchange ca wa0 wa1 wb1 m0 ra rb oa wa ob wb).
  - unfold handle_connection, handle_connection_inner, catch. simpl. unfold mbind, ST_bind, mret, ST_ret.
    by rewrite (bob_exchange accept_cb cb wa1 wb0 wb1 m0 ra rb oa wa ob wb).
Qed.

(** The rounds, computed; [n] bounds their number. *)
Fixpoint rounds_run (n : nat) m oa wa ob wb
    : option (list ProtocolMessage * list ProtocolMessage * SyncOutcome * W * SyncOutcome * W) :=
  match n with
  | 0 => None
  | S n =>
      match sv_process_message ns m a ob idb fb wb with
      | (Ok (None, ob'), wb') => Some ([], [], oa, wa, ob', wb')
      | (Ok (Some r, ob1), wb1) =>
          match sv_process_message ns r b oa ida fa wa with
          | (Ok (None, oa'), wa') => Some ([], [r], oa', wa', ob1, wb1)
          | (Ok (Some m', oa1), wa1) =>
              match rounds_run n m' oa1 wa1 ob1 wb1 with
              | Some (ra, rb, oa', wa', ob', wb') => Some (m' :: ra, r :: rb, oa', wa', ob', wb')
              | None => None
              end
          | _ => None
          end
      | _ => None
      end
  end.
Lemma rounds_run_sound n m oa wa ob wb ra rb oa' wa' ob' wb' :
  rounds_run n m oa wa ob wb = Some (ra, rb, oa', wa', ob', wb') →
  rounds m oa wa ob wb ra rb oa' wa' ob' wb'.
Proof.
  induction n as [|n IH] in m, oa, wa, ob, wb, ra, rb |- *; [done|]. simpl.
  destruct (sv_process_message ns m a ob idb fb wb) as [[[[r|] ob1]|x|] wb1] eqn:Hb; [|..|done|done].
  2: { intros [= <- <- <- <- <- <-]. by apply rounds_b_done. }
  destruct (sv_process_message ns r b oa ida fa wa) as [[[[m'|] oa1]|x|] wa1] eqn:Ha; [|..|done|done].
  2: { intros [= <- <- <- <- <- <-]. by eapply rounds_a_done. }
  destruct (rounds_run n m' oa1 wa1 ob1 wb1) as [[[[[[ra1 rb1] ?] ?] ?] ?]|] eqn:Hr; [|done].
  intros [= <- <- <- <- <- <-]. eapply rounds_step; [done|done|]. by apply IH.
Qed.
Definition rounds_or (d : list ProtocolMessage * list ProtocolMessage * SyncOutcome * W * SyncOutcome * W)
    n m oa wa ob wb := default d (rounds_run n m oa wa ob wb).
Definition rounds_end n m oa wa ob wb : bool :=
  match rounds_run n m oa wa ob wb with Some _ => true | None => false end.
Lemma rounds_or_sound d n m oa wa ob wb : rounds_end n m oa wa ob wb = true →
  let r := rounds_or d n m oa wa ob wb in
  rounds m oa wa ob wb r.1.1.1.1.1 r.1.1.1.1.2 r.1.1.1.2 r.1.1.2 r.1.2 r.2.
Proof.
  unfold rounds_end, rounds_or. destruct (rounds_run n m oa wa ob wb) as [[[[[[? ?] ?] ?] ?] ?]|] eqn:Hr; [|done].
  intros _. by apply (rounds_run_sound n).
Qed.
End exchange.
