(* ===== verification/Actor.v ===== *)
(** * The sync actor

    Models [src/actor.rs]: the actor that owns the store and the open
    replicas, one handler per action, its housekeeping and its loop.  The
    reply of an action is its result; callers whose reply channel is gone see
    nothing.  Counters are [u64] with wrap-around.  Outside the actor are the
    channels of Info's [World], and the strong references to a session: its
    handle, and release messages of its own waiting in the queue. *)
From S2P Require Import Prelude Redb Keys Entry Heads Query Bounds Ranger Info Store StoreInstance Filter QueryIter Replica.

Record SyncSessionId := { sid_actor : N; sid_seq : N }.
#[export] Instance SyncSessionId_eq_dec : EqDecision SyncSessionId.
Proof. solve_decision. Defined.
#[export] Instance SyncSessionId_countable : Countable SyncSessionId.
Proof.
  apply (inj_countable' (λ i, (sid_actor i, sid_seq i)) (λ p, Build_SyncSessionId p.1 p.2)).
  by intros [].
Defined.

Record OpenOpts := { oo_sync : bool; oo_subscribe : option ChannelId }.
Definition OpenOpts_default : OpenOpts := {| oo_sync := false; oo_subscribe := None |}.
Definition opts_sync (o : OpenOpts) : OpenOpts :=
  {| oo_sync := true; oo_subscribe := oo_subscribe o |}.
Definition opts_subscribe (c : ChannelId) (o : OpenOpts) : OpenOpts :=
  {| oo_sync := oo_sync o; oo_subscribe := Some c |}.

Record OpenState := { os_sync : bool; os_subscribers : nat; os_handles : N }.

(** The strong references to the sessions. *)
Record SessionRefs := { sr_handles : gset SyncSessionId; sr_queued : list SyncSessionId }.
Definition strong_count (r : SessionRefs) (id : SyncSessionId) : nat :=
  (if bool_decide (id ∈ sr_handles r) then 1 else 0)
  + length (List.filter (λ i, bool_decide (i = id)) (sr_queued r)).
Definition refs_handle (id : SyncSessionId) (r : SessionRefs) : SessionRefs :=
  {| sr_handles := {[id]} ∪ sr_handles r; sr_queued := sr_queued r |}.
(** Dropping the handle; [sent] says whether the queue took the release. *)
Definition refs_drop (sent : bool) (id : SyncSessionId) (r : SessionRefs) : SessionRefs :=
  {| sr_handles := sr_handles r ∖ {[id]};
     sr_queued := if sent then sr_queued r ++ [id] else sr_queued r |}.
Fixpoint remove_one (id : SyncSessionId) (l : list SyncSessionId) : list SyncSessionId :=
  match l with
  | [] => []
  | i :: l' => if bool_decide (i = id) then l' else i :: remove_one id l'
  end.
Definition refs_release (id : SyncSessionId) (r : SessionRefs) : SessionRefs :=
  {| sr_handles := sr_handles r; sr_queued := remove_one id (sr_queued r) |}.

Inductive ActorErr :=
| AcNotOpen
| AcSyncDisabled
| AcAuthorNotFound
| AcForeignSession
| AcNotRegistered
| AcWrongNamespace
| AcReadOnly
| AcCapability (e : CapabilityError)
| AcOpen (e : OpenError)
| AcInsert (e : InsertError)
| AcSync (e : SyncError)
| AcStore (e : StoreErr).

Section actor.
Context `{Redb, Crypto, Postcard DownloadPolicy}.

Record OpenReplica := { or_info : ReplicaInfo; or_sync : bool; or_handles : N }.
Abbreviation OpenReplicas := (gmap NamespaceId OpenReplica).

Record SessionSnapshot := { sn_namespace : NamespaceId; sn_tables : Tables }.

Record Actor := {
  ac_actor_id : N;
  ac_store : Store;
  ac_states : OpenReplicas;
  ac_sessions : gmap SyncSessionId SessionSnapshot;
  ac_next_session_id : N;
  ac_last_session_sweep : N;
  ac_content_status_callback : option (Hash → ContentStatus);
  ac_capability_validator : option (SignedEntry → PeerIdBytes → ValidateOutcome);
  ac_rejection_observer : option ObserverId;
  ac_refs : SessionRefs;
  ac_world : World;
}.

Definition update_actor store states sessions next sweep refs world (a : Actor) : Actor := {|
  ac_actor_id := ac_actor_id a;
  ac_store := store;
  ac_states := states;
  ac_sessions := sessions;
  ac_next_session_id := next;
  ac_last_session_sweep := sweep;
  ac_content_status_callback := ac_content_status_callback a;
  ac_capability_validator := ac_capability_validator a;
  ac_rejection_observer := ac_rejection_observer a;
  ac_refs := refs;
  ac_world := world;
|}.
Definition set_ac_store s (a : Actor) : Actor :=
  update_actor s (ac_states a) (ac_sessions a) (ac_next_session_id a) (ac_last_session_sweep a)
    (ac_refs a) (ac_world a) a.
Definition set_ac_states s (a : Actor) : Actor :=
  update_actor (ac_store a) s (ac_sessions a) (ac_next_session_id a) (ac_last_session_sweep a)
    (ac_refs a) (ac_world a) a.
Definition set_ac_sessions s (a : Actor) : Actor :=
  update_actor (ac_store a) (ac_states a) s (ac_next_session_id a) (ac_last_session_sweep a)
    (ac_refs a) (ac_world a) a.
Definition set_ac_next n (a : Actor) : Actor :=
  update_actor (ac_store a) (ac_states a) (ac_sessions a) n (ac_last_session_sweep a)
    (ac_refs a) (ac_world a) a.
Definition set_ac_sweep t (a : Actor) : Actor :=
  update_actor (ac_store a) (ac_states a) (ac_sessions a) (ac_next_session_id a) t
    (ac_refs a) (ac_world a) a.
Definition set_ac_refs r (a : Actor) : Actor :=
  update_actor (ac_store a) (ac_states a) (ac_sessions a) (ac_next_session_id a)
    (ac_last_session_sweep a) r (ac_world a) a.

Definition spawn (actor_id : N) (store : Store) (now : N)
    (content_status_callback : option (Hash → ContentStatus))
    (capability_validator : option (SignedEntry → PeerIdBytes → ValidateOutcome))
    (rejection_observer : option ObserverId) (w : World) : Actor := {|
  ac_actor_id := actor_id;
  ac_store := store;
  ac_states := ∅;
  ac_sessions := ∅;
  ac_next_session_id := 0;
  ac_last_session_sweep := now;
  ac_content_status_callback := content_status_callback;
  ac_capability_validator := capability_validator;
  ac_rejection_observer := rejection_observer;
  ac_refs := {| sr_handles := ∅; sr_queued := [] |};
  ac_world := w;
|}.

Abbreviation AM := (ST Actor ActorErr).

Definition actor_store {E A} (f : E → ActorErr) (m : ST Store E A) : AM A := λ a,
  let '(r, s) := m (ac_store a) in (map_err f r, set_ac_store s a).

(** ** Open replicas *)
Definition get_open (namespace : NamespaceId) : AM OpenReplica := λ a,
  (result_of_option AcNotOpen (ac_states a !! namespace), a).
Definition put_open (namespace : NamespaceId) (o : OpenReplica) : AM unit :=
  st_modify (λ a, set_ac_states (<[namespace := o]> (ac_states a)) a).
Definition set_or_info i (o : OpenReplica) : OpenReplica :=
  {| or_info := i; or_sync := or_sync o; or_handles := or_handles o |}.
Definition set_or_sync b (o : OpenReplica) : OpenReplica :=
  {| or_info := or_info o; or_sync := b; or_handles := or_handles o |}.

Definition states_ensure_open (namespace : NamespaceId) : AM unit := λ a,
  (match ac_states a !! namespace with Some _ => Ok tt | None => Err AcNotOpen end, a).
Definition ensure_syncing (namespace : NamespaceId) : AM unit :=
  state ← get_open namespace; st_ensure (or_sync state) AcSyncDisabled.

(** Run [m] on the replica of [namespace]: its information is borrowed from
    the open replicas, its store instance is made by [mk]. *)
Definition replica_step {E A} (namespace : NamespaceId) (state : OpenReplica)
    (mk : NamespaceId → Store → StoreInstance) (f : E → ActorErr) (m : ST Replica E A) : AM A := λ a,
  let '(x, r) := m (Replica_new (mk (Capability_id (i_capability (or_info state))) (ac_store a))
                      (or_info state) (ac_world a)) in
  (map_err f x,
   update_actor (si_store (rp_store r)) (<[namespace := set_or_info (rp_info r) state]> (ac_states a))
     (ac_sessions a) (ac_next_session_id a) (ac_last_session_sweep a) (ac_refs a) (rp_world r) a).
Definition run_replica {E A} (namespace : NamespaceId) (mk : NamespaceId → Store → StoreInstance)
    (f : E → ActorErr) (m : ST Replica E A) : AM A :=
  state ← get_open namespace;
  replica_step namespace state mk f m.
Definition replica {E A} (namespace : NamespaceId) : (E → ActorErr) → ST Replica E A → AM A :=
  run_replica namespace StoreInstance_new.
Definition replica_if_syncing {E A} (namespace : NamespaceId) (snapshot : option Tables)
    (f : E → ActorErr) (m : ST Replica E A) : AM A :=
  _ ← ensure_syncing namespace;
  run_replica namespace (λ n s, with_session_snapshot n s snapshot) f m.

Definition wrapping_sub1 (n : N) : N := ((n + (u64_max - 1)) mod u64_max)%N.

Definition open_with (namespace : NamespaceId) (opts : OpenOpts) (open_cb : AM ReplicaInfo) : AM unit :=
  a ← st_get;
  match ac_states a !! namespace with
  | None =>
      info ← open_cb;
      let info := match oo_subscribe opts with Some c => info_subscribe c info | None => info end in
      put_open namespace {| or_info := info; or_sync := oo_sync opts; or_handles := 1 |}
  | Some state =>
      let info := match oo_subscribe opts with
                  | Some c => info_subscribe c (or_info state)
                  | None => or_info state
                  end in
      put_open namespace {| or_info := info; or_sync := or_sync state || oo_sync opts;
                            or_handles := u64_add (or_handles state) 1 |}
  end.

Definition states_close (namespace : NamespaceId) : AM bool :=
  a ← st_get;
  match ac_states a !! namespace with
  | None => mret true
  | Some state =>
      let handles := wrapping_sub1 (or_handles state) in
      if (handles =? 0)%N
      then _ ← st_modify (λ a, set_ac_states (delete namespace (ac_states a)) a); mret true
      else _ ← put_open namespace {| or_info := or_info state; or_sync := or_sync state;
                                     or_handles := handles |};
           mret false
  end.

(** ** The actor's own operations *)
Definition actor_open_cb (namespace : NamespaceId) : AM ReplicaInfo :=
  info ← actor_store AcOpen (load_replica_info namespace);
  a ← st_get;
  let info := match ac_content_status_callback a with
              | Some cb => (set_content_status_callback cb info).2 | None => info end in
  let info := match ac_capability_validator a with
              | Some v => (set_capability_validator v info).2 | None => info end in
  let info := match ac_rejection_observer a with
              | Some o => (set_rejection_observer o info).2 | None => info end in
  mret info.
Definition actor_open (namespace : NamespaceId) (opts : OpenOpts) : AM unit :=
  open_with namespace opts (actor_open_cb namespace).

Definition actor_close (namespace : NamespaceId) : AM bool :=
  res ← states_close namespace;
  if res : bool then
    _ ← st_modify (λ a, set_ac_sessions
      (base.filter (λ p, sn_namespace p.2 ≠ namespace) (ac_sessions a)) a);
    _ ← actor_store AcStore (close_replica namespace);
    mret true
  else mret false.

Definition close_all : AM unit :=
  _ ← st_modify (set_ac_sessions ∅);
  a ← st_get;
  _ ← st_modify (set_ac_states ∅);
  st_for ((map_to_list (ac_states a)).*1) (λ id, actor_store AcStore (close_replica id)).

(** The time since the last sweep is a difference of monotonic readings. *)
Definition reclaim_abandoned_sessions (now : N) : AM unit :=
  a ← st_get;
  if bool_decide (ac_sessions a = ∅) then mret tt
  else if (now - ac_last_session_sweep a <? MAX_COMMIT_DELAY)%N then mret tt
  else
    _ ← st_modify (set_ac_sweep now);
    st_modify (set_ac_sessions
      (base.filter (λ p, 0 < strong_count (ac_refs a) p.1) (ac_sessions a))).

Definition session_snapshot (sessions : gmap SyncSessionId SessionSnapshot) (actor_id : N)
    (session : SyncSessionId) (namespace : NamespaceId) : result ActorErr Tables :=
  if negb (sid_actor session =? actor_id)%N then Err AcForeignSession
  else match sessions !! session with
       | None => Err AcNotRegistered
       | Some entry =>
           if eqb (sn_namespace entry) namespace then Ok (sn_tables entry) else Err AcWrongNamespace
       end.

Definition session_replica {E A} (namespace : NamespaceId) (session : SyncSessionId)
    (f : E → ActorErr) (m : ST Replica E A) : AM A :=
  a ← st_get;
  snapshot ← st_lift (session_snapshot (ac_sessions a) (ac_actor_id a) session namespace);
  replica_if_syncing namespace (Some snapshot) f m.

Definition actor_get_author (id : AuthorId) : AM Author :=
  author ← actor_store AcStore (get_author id);
  st_lift (result_of_option AcAuthorNotFound author).

(** ** Actions

    One definition per handler; [created] and [now] are the readings of the
    wall clock, [nanos] the time of a registration. *)
Definition on_import_namespace (capability : Capability) : AM NamespaceId :=
  let id := Capability_id capability in
  outcome ← actor_store AcStore (import_namespace capability);
  _ ← match outcome with
      | ImUpgraded =>
          a ← st_get;
          match ac_states a !! id with
          | Some state =>
              m ← st_lift (map_err AcCapability (info_merge_capability capability (or_info state)));
              put_open id (set_or_info m.2 state)
          | None => mret tt
          end
      | _ => mret tt
      end;
  mret id.

Definition on_sync_session_end (session : SyncSessionId) : AM unit :=
  _ ← st_modify (λ a, set_ac_sessions (delete session (ac_sessions a)) a);
  st_modify (λ a, set_ac_refs (refs_release session (ac_refs a)) a).

Definition on_subscribe (namespace : NamespaceId) (sender : ChannelId) : AM unit :=
  state ← get_open namespace;
  put_open namespace (set_or_info (info_subscribe sender (or_info state)) state).
Definition on_unsubscribe (namespace : NamespaceId) (sender : ChannelId) : AM unit :=
  state ← get_open namespace;
  put_open namespace (set_or_info (info_unsubscribe sender (or_info state)) state).
Definition on_set_sync (namespace : NamespaceId) (sync : bool) : AM unit :=
  state ← get_open namespace;
  put_open namespace (set_or_sync sync state).

Definition on_insert_local (created now : N) (namespace : NamespaceId) (author : AuthorId)
    (key : bytes) (hash : Hash) (len : N) : AM unit :=
  author ← actor_get_author author;
  _ ← replica namespace AcInsert (insert created now key author hash len);
  mret tt.
Definition on_delete_prefix (created now : N) (namespace : NamespaceId) (author : AuthorId)
    (key : bytes) : AM nat :=
  author ← actor_get_author author;
  replica namespace AcInsert (delete_prefix created now key author).
Definition on_insert_remote (now : N) (namespace : NamespaceId) (entry : SignedEntry)
    (from : PeerIdBytes) (content_status : ContentStatus) : AM unit :=
  _ ← replica_if_syncing namespace None AcInsert (insert_remote_entry now entry from content_status);
  mret tt.

(** The new session and, in [ac_refs], the handle of its caller. *)
Definition on_sync_session_start (namespace : NamespaceId) : AM SyncSessionId :=
  _ ← ensure_syncing namespace;
  tables ← actor_store AcStore snapshot_owned;
  a ← st_get;
  let id := {| sid_actor := ac_actor_id a; sid_seq := ac_next_session_id a |} in
  _ ← st_modify (set_ac_next (u64_add (ac_next_session_id a) 1));
  _ ← st_modify (λ a, set_ac_sessions
        (<[id := {| sn_namespace := namespace; sn_tables := tables |}]> (ac_sessions a)) a);
  _ ← st_modify (λ a, set_ac_refs (refs_handle id (ac_refs a)) a);
  mret id.

Definition on_sync_initial_message (namespace : NamespaceId) (session : SyncSessionId)
    (filter : option EntryFilter) : AM (Message SignedEntry RecordIdentifier RejectId) :=
  session_replica namespace session AcSync (sync_initial_message filter).

(** A replica operation that threads the outcome of the exchange. *)
Definition with_outcome {A} (state : SyncOutcome) (m : ST (Replica * SyncOutcome) SyncError A)
    : ST Replica SyncError (A * SyncOutcome) := λ r,
  let '(x, (r', state')) := m (r, state) in ((λ a, (a, state')) <$> x, r').

Definition on_sync_process_message (now : N) (namespace : NamespaceId)
    (message : Message SignedEntry RecordIdentifier RejectId) (from : PeerIdBytes)
    (state : SyncOutcome) (session : SyncSessionId) (filter : option EntryFilter)
    : AM (option (Message SignedEntry RecordIdentifier RejectId) * SyncOutcome) :=
  session_replica namespace session AcSync
    (with_outcome state (sync_process_message now message from filter)).

Definition on_get_sync_peers (namespace : NamespaceId) : AM (option (list PeerIdBytes)) :=
  _ ← states_ensure_open namespace;
  actor_store AcStore (get_sync_peers namespace).
Definition on_register_useful_peer (nanos : N) (namespace : NamespaceId) (peer : PeerIdBytes)
    : AM unit := actor_store AcStore (register_useful_peer nanos namespace peer).
Definition on_get_exact (namespace : NamespaceId) (author : AuthorId) (key : bytes)
    (include_empty : bool) : AM (option SignedEntry) :=
  _ ← states_ensure_open namespace;
  actor_store AcStore (get_exact namespace author key include_empty).
Definition on_retract_entry (namespace : NamespaceId) (author : AuthorId) (key : bytes)
    (up_to_timestamp : N) : AM bool :=
  _ ← states_ensure_open namespace;
  actor_store AcStore (retract_entry namespace author key up_to_timestamp).
(** The reply is streamed: the entries the iterator yields. *)
Definition on_get_many (namespace : NamespaceId) (query : Query) : AM QueryIterator :=
  _ ← states_ensure_open namespace;
  actor_store AcStore (get_many namespace query).
Definition on_drop_replica (namespace : NamespaceId) : AM unit :=
  _ ← actor_close namespace;
  actor_store AcStore (remove_replica namespace).
Definition on_export_secret_key (namespace : NamespaceId) : AM NamespaceSecret :=
  state ← get_open namespace;
  st_lift (map_err (λ _, AcReadOnly) (Capability_secret_key (i_capability (or_info state)))).
Definition on_get_state (namespace : NamespaceId) : AM OpenState :=
  state ← get_open namespace;
  mret {| os_sync := or_sync state; os_subscribers := info_subscribers_count (or_info state);
          os_handles := or_handles state |}.

Inductive ReplicaAction :=
| RaOpen (opts : OpenOpts)
| RaClose
| RaGetState
| RaSetSync (sync : bool)
| RaSubscribe (sender : ChannelId)
| RaUnsubscribe (sender : ChannelId)
| RaInsertLocal (created now : N) (author : AuthorId) (key : bytes) (hash : Hash) (len : N)
| RaDeletePrefix (created now : N) (author : AuthorId) (key : bytes)
| RaRetractEntry (author : AuthorId) (key : bytes) (up_to_timestamp : N)
| RaInsertRemote (now : N) (entry : SignedEntry) (from : PeerIdBytes) (content_status : ContentStatus)
| RaSyncSessionStart
| RaSyncInitialMessage (session : SyncSessionId) (filter : option EntryFilter)
| RaSyncProcessMessage (now : N) (message : Message SignedEntry RecordIdentifier RejectId)
    (from : PeerIdBytes) (state : SyncOutcome) (session : SyncSessionId) (filter : option EntryFilter)
| RaGetSyncPeers
| RaRegisterUsefulPeer (nanos : N) (peer : PeerIdBytes)
| RaGetExact (author : AuthorId) (key : bytes) (include_empty : bool)
| RaGetMany (query : Query)
| RaDropReplica
| RaExportSecretKey
| RaHasNewsForUs (heads : AuthorHeads)
| RaSetDownloadPolicy (policy : DownloadPolicy)
| RaGetDownloadPolicy.

Inductive Action :=
| AcImportAuthor (author : Author)
| AcExportAuthor (author : AuthorId)
| AcDeleteAuthor (author : AuthorId)
| AcImportNamespace (capability : Capability)
| AcListAuthors
| AcListReplicas
| AcContentHashes
| AcFlushStore
| AcReplica (namespace : NamespaceId) (action : ReplicaAction)
| AcSyncSessionEnd (session : SyncSessionId).

Inductive Reply :=
| RpUnit
| RpBool (b : bool)
| RpCount (n : nat)
| RpAuthorId (id : AuthorId)
| RpAuthor (a : option Author)
| RpAuthors (l : list AuthorId)
| RpReplicas (l : list (option (NamespaceId * CapabilityKind)))
| RpHashes (l : list Hash)
| RpNamespace (id : NamespaceId)
| RpState (s : OpenState)
| RpSession (id : SyncSessionId)
| RpMessage (m : Message SignedEntry RecordIdentifier RejectId)
| RpProcessed (m : option (Message SignedEntry RecordIdentifier RejectId)) (s : SyncOutcome)
| RpPeers (l : option (list PeerIdBytes))
| RpEntry (e : option SignedEntry)
| RpEntries (it : QueryIterator)
| RpSecret (n : NamespaceSecret)
| RpNews (n : option nat)
| RpPolicy (p : DownloadPolicy).

Definition reply_with {A} (f : A → Reply) (m : AM A) : AM Reply := a ← m; mret (f a).
Definition reply_unit (m : AM unit) : AM Reply := reply_with (λ _, RpUnit) m.

Definition on_replica_action (namespace : NamespaceId) (action : ReplicaAction) : AM Reply :=
  match action with
  | RaOpen opts => reply_unit (actor_open namespace opts)
  | RaClose => reply_with RpBool (actor_close namespace)
  | RaGetState => reply_with RpState (on_get_state namespace)
  | RaSetSync sync => reply_unit (on_set_sync namespace sync)
  | RaSubscribe sender => reply_unit (on_subscribe namespace sender)
  | RaUnsubscribe sender => reply_unit (on_unsubscribe namespace sender)
  | RaInsertLocal created now author key hash len =>
      reply_unit (on_insert_local created now namespace author key hash len)
  | RaDeletePrefix created now author key =>
      reply_with RpCount (on_delete_prefix created now namespace author key)
  | RaRetractEntry author key up_to_timestamp =>
      reply_with RpBool (on_retract_entry namespace author key up_to_timestamp)
  | RaInsertRemote now entry from content_status =>
      reply_unit (on_insert_remote now namespace entry from content_status)
  | RaSyncSessionStart => reply_with RpSession (on_sync_session_start namespace)
  | RaSyncInitialMessage session filter =>
      reply_with RpMessage (on_sync_initial_message namespace session filter)
  | RaSyncProcessMessage now message from state session filter =>
      reply_with (λ p, RpProcessed p.1 p.2)
        (on_sync_process_message now namespace message from state session filter)
  | RaGetSyncPeers => reply_with RpPeers (on_get_sync_peers namespace)
  | RaRegisterUsefulPeer nanos peer => reply_unit (on_register_useful_peer nanos namespace peer)
  | RaGetExact author key include_empty =>
      reply_with RpEntry (on_get_exact namespace author key include_empty)
  | RaGetMany query => reply_with RpEntries (on_get_many namespace query)
  | RaDropReplica => reply_unit (on_drop_replica namespace)
  | RaExportSecretKey => reply_with RpSecret (on_export_secret_key namespace)
  | RaHasNewsForUs heads => reply_with RpNews (actor_store AcStore (has_news_for_us namespace heads))
  | RaSetDownloadPolicy policy => reply_unit (actor_store AcStore (set_download_policy namespace policy))
  | RaGetDownloadPolicy => reply_with RpPolicy (actor_store AcStore (get_download_policy namespace))
  end.

Definition on_action (action : Action) : AM Reply :=
  match action with
  | AcImportAuthor author =>
      reply_with (λ _, RpAuthorId (Author_id author)) (actor_store AcStore (import_author author))
  | AcExportAuthor author => reply_with RpAuthor (actor_store AcStore (get_author author))
  | AcDeleteAuthor author => reply_unit (actor_store AcStore (delete_author author))
  | AcImportNamespace capability => reply_with RpNamespace (on_import_namespace capability)
  | AcListAuthors => reply_with (λ l, RpAuthors (Author_id <$> l)) (actor_store AcStore list_authors)
  | AcListReplicas => reply_with RpReplicas (actor_store AcStore list_namespaces)
  | AcContentHashes => reply_with RpHashes (actor_store AcStore content_hashes)
  | AcFlushStore => reply_unit (actor_store AcStore flush)
  | AcReplica namespace action => on_replica_action namespace action
  | AcSyncSessionEnd session => reply_unit (on_sync_session_end session)
  end.

(** ** The loop

    One turn: the housekeeping of an idle actor, or an action.  A failed
    action is the caller's business; a failed flush is logged. *)
Inductive Turn :=
| TnTimeout (now : N)
| TnAction (now : N) (action : Action).

Definition actor_turn (t : Turn) (a : Actor) : option (result ActorErr Reply) * Actor :=
  match t with
  | TnTimeout now =>
      let a := (reclaim_abandoned_sessions now a).2 in
      (None, (actor_store AcStore flush a).2)
  | TnAction now action =>
      let a := (reclaim_abandoned_sessions now a).2 in
      let '(reply, a) := on_action action a in (Some reply, a)
  end.

Fixpoint actor_run (ts : list Turn) (a : Actor) : Actor :=
  match ts with [] => a | t :: ts => actor_run ts (actor_turn t a).2 end.

(** What happens after the loop; a failed flush is logged. *)
Definition actor_shutdown : AM Store :=
  _ ← st_modify (λ a, (actor_store AcStore flush a).2);
  _ ← close_all;
  st_gets ac_store.

(** [SyncSession]'s drop: [sent] says whether the queue took the release. *)
Definition drop_session (sent : bool) (session : SyncSessionId) (a : Actor) : Actor :=
  set_ac_refs (refs_drop sent session (ac_refs a)) a.
End actor.
