(* ===== verification/ActorInv.v ===== *)
(** * The invariant of the sync actor

    Every operation of the store, of a replica and of the actor keeps it,
    whatever its outcome: the store is well-formed, the store and the actor
    agree on which replicas are open and on their capabilities, and the
    registered sessions are this actor's, of open replicas. *)
From S2P Require Import Prelude Redb Keys Entry Heads Query Bounds Ranger Info Store StoreInstance Filter QueryIter Replica Actor.

(** ** Reconciliation leaves true what the store operations leave true *)
Section ranger_preserves.
Context {S E K V R Err W : Type}.
Context `{Cmp K, Cmp V, !RangeEntry E K V R, !RangerStore S E K V Err}.
Context (config : SyncConfig) (validate_cb : S → E → ContentStatus → ValidateOutcome)
  (on_insert_cb : S → E → ContentStatus → W → W) (content_status_cb : W → E → ContentStatus).
Context (I : S → Prop) (J : W → Prop).
Context (Hfirst : preserves I (rs_get_first (S:=S)))
  (Hfp : ∀ r, preserves I (rs_get_fingerprint (S:=S) r))
  (Hput : ∀ e, preserves I (rs_entry_put (S:=S) e))
  (Hrange : ∀ r, preserves I (rs_get_range (S:=S) r))
  (Hprefixes : ∀ k, preserves I (rs_prefixes_of (S:=S) k))
  (Hremove : ∀ k f, preserves I (rs_remove_prefix_filtered (S:=S) k f))
  (Hinsert : ∀ s e c w, J w → J (on_insert_cb s e c w)).

Lemma initial_message_preserves : preserves I (initial_message (R:=R)).
Proof. unfold initial_message. preserves_auto. apply Hfp. Qed.

Lemma would_insert_preserves e : preserves I (would_insert e).
Proof. unfold would_insert. preserves_auto. apply Hprefixes. Qed.

Lemma put_preserves e : preserves I (put e).
Proof.
  unfold put. preserves_auto; [apply would_insert_preserves|apply Hremove|apply Hput].
Qed.

Definition both_inv (p : S * W) : Prop := I p.1 ∧ J p.2.

Lemma store_op_preserves {A} (m : ST S Err A) : preserves I m → preserves both_inv (store_op m).
Proof.
  intros Hm. unfold store_op. apply (pr_zoom _ I); [by intros p []|by intros p s [? ?]|done].
Qed.

Lemma process_message_preserves m :
  preserves both_inv (process_message (R:=R) config validate_cb on_insert_cb content_status_cb m).
Proof.
  assert (∀ rg, preserves both_inv (store_op (W:=W) (rs_get_range rg))) as Hr
    by (intros; apply store_op_preserves, Hrange).
  assert (∀ rg, preserves both_inv (store_op (W:=W) (rs_get_fingerprint rg))) as Hf
    by (intros; apply store_op_preserves, Hfp).
  assert (∀ rg n st i, preserves I (pivot (Err:=Err) config rg n st i)) as Hp
    by (intros; unfold pivot; preserves_auto; apply Hrange).
  assert (∀ rg n st c, preserves I (pivot_ranges (Err:=Err) config rg n st c)) as Hps
    by (intros; unfold pivot_ranges; preserves_auto; apply Hp).
  unfold process_message. preserves_auto.
  - unfold process_item, item_diff, with_status, store_values. preserves_auto; [apply Hr|].
    unfold store_value. preserves_auto.
    + apply store_op_preserves, put_preserves.
    + apply pr_modify. intros [s w] [Hs Hw]. split; [done|]. simpl. auto.
    + apply store_op_preserves, would_insert_preserves.
  - unfold process_fingerprint, range_parts, range_part, with_status. preserves_auto;
      try apply Hr; try apply Hf.
    + apply store_op_preserves. unfold rs_get_range_len. preserves_auto. apply Hrange.
    + apply store_op_preserves. unfold split_ranges. preserves_auto; first [apply Hps|apply Hp].
Qed.
End ranger_preserves.

(** ** The store *)
Section store_preserves.
Context `{RedbOk, Crypto, Postcard DownloadPolicy}.
Implicit Types (s : Store) (t : Tables).

Definition store_ok s : Prop :=
  store_wf s ∧ index_complete (view s) ∧ cache_wf (st_pubkeys s) ∧ namespaces_wf (view s).

Abbreviation NamespaceTable := (table arr32 (N * arr32) _).

(** Well-formed, with these capabilities and these open replicas. *)
Definition quiet (n0 : NamespaceTable) (o0 : gset NamespaceId) s : Prop :=
  store_ok s ∧ namespaces (view s) = n0 ∧ st_open_replicas s = o0.
(** The part of it that the tables carry. *)
Definition tables_quiet (n0 : NamespaceTable) t : Prop := index_complete t ∧ namespaces t = n0.

Context (n0 : NamespaceTable) (o0 : gset NamespaceId).

Lemma namespaces_wf_eq t t' : namespaces t' = namespaces t → namespaces_wf t → namespaces_wf t'.
Proof. intros Heq Hwf. unfold namespaces_wf. by rewrite Heq. Qed.

(** A step that shows new tables and leaves the rest of the store. *)
Lemma quiet_step s s' t : quiet n0 o0 s → bookkeeping s s' → view s' = t → tables_quiet n0 t →
  quiet n0 o0 s'.
Proof.
  intros [(Hwf & Hidx & Hc & Hns) [Hn Ho]] Hb Hv [Hidx' Hn'].
  destruct (bk_rest _ _ Hb) as (Ho' & Hk & _). split; [|rewrite Hv, Ho'; done].
  split; [apply Hb|]. rewrite Hv, Hk. split; [done|]. split; [done|].
  apply (namespaces_wf_eq (view s)); [congruence|done].
Qed.

Lemma quiet_same s s' : quiet n0 o0 s → bookkeeping s s' → view s' = view s → quiet n0 o0 s'.
Proof. intros Hq Hb Hv. eapply quiet_step; [done|done|done|]. rewrite <- Hv, Hv. split; apply Hq. Qed.

Lemma quiet_modify {A} (f : ST Tables StoreErr A) :
  preserves (tables_quiet n0) f → preserves (quiet n0 o0) (modify f).
Proof.
  intros Hf s Hq. destruct (modify_spec f s (proj1 (proj1 Hq))) as (s' & Hm & Hv & Hb).
  rewrite Hm. simpl. eapply quiet_step; [done|done|done|]. apply Hf. split; apply Hq.
Qed.

Lemma quiet_tables : preserves (quiet n0 o0) tables.
Proof.
  intros s Hq. destruct (tables_spec s (proj1 (proj1 Hq))) as (t & s' & Ht & _ & Hv & Hb).
  rewrite Ht. by eapply quiet_same.
Qed.
Lemma quiet_flush : preserves (quiet n0 o0) flush.
Proof.
  intros s Hq. destruct (flush_spec s (proj1 (proj1 Hq))) as (s' & Hf & _ & Hv & _ & Hb).
  rewrite Hf. by eapply quiet_same.
Qed.
Lemma quiet_snapshot : preserves (quiet n0 o0) snapshot.
Proof.
  intros s Hq. destruct (snapshot_spec s (proj1 (proj1 Hq))) as (s' & Hf & Hv & _ & Hb).
  rewrite Hf. by eapply quiet_same.
Qed.
Lemma quiet_snapshot_owned : preserves (quiet n0 o0) snapshot_owned.
Proof.
  intros s Hq. destruct (snapshot_owned_spec s (proj1 (proj1 Hq))) as (s' & Hf & Hv & _ & Hb).
  rewrite Hf. by eapply quiet_same.
Qed.

Lemma tables_quiet_modify (f : Tables → Tables) :
  (∀ t, records (f t) = records t ∧ records_by_key (f t) = records_by_key t
        ∧ namespaces (f t) = namespaces t) →
  preserves (E:=StoreErr) (tables_quiet n0) (st_modify f).
Proof.
  intros Hf. apply pr_modify. intros t [Hi Hn]. destruct (Hf t) as (Hr & Hk & Hns).
  split; [|congruence]. unfold index_complete in *. by rewrite Hr, Hk.
Qed.

Ltac quiet_ops :=
  preserves_auto;
  first [ apply quiet_tables | apply quiet_flush | apply quiet_snapshot | apply quiet_snapshot_owned
        | apply quiet_modify; preserves_auto; try (apply tables_quiet_modify; by intros ?) ].

Lemma quiet_import_author a : preserves (quiet n0 o0) (import_author a).
Proof. unfold import_author. quiet_ops. Qed.
Lemma quiet_get_author a : preserves (quiet n0 o0) (get_author a).
Proof. unfold get_author. quiet_ops. Qed.
Lemma quiet_delete_author a : preserves (quiet n0 o0) (delete_author a).
Proof. unfold delete_author. quiet_ops. Qed.
Lemma quiet_list_authors : preserves (quiet n0 o0) list_authors.
Proof. unfold list_authors. quiet_ops. Qed.
Lemma quiet_list_namespaces : preserves (quiet n0 o0) list_namespaces.
Proof. unfold list_namespaces. quiet_ops. Qed.
Lemma quiet_content_hashes : preserves (quiet n0 o0) content_hashes.
Proof. unfold content_hashes. quiet_ops. Qed.
Lemma quiet_get_sync_peers ns : preserves (quiet n0 o0) (get_sync_peers ns).
Proof. unfold get_sync_peers. quiet_ops. Qed.
Lemma quiet_get_exact ns a k b : preserves (quiet n0 o0) (get_exact ns a k b).
Proof. unfold get_exact. quiet_ops. Qed.
Lemma quiet_get_many ns q : preserves (quiet n0 o0) (get_many ns q).
Proof. unfold get_many. quiet_ops. Qed.
Lemma quiet_has_news ns h : preserves (quiet n0 o0) (has_news_for_us ns h).
Proof. unfold has_news_for_us, get_latest_for_each_author. quiet_ops. Qed.
Lemma quiet_get_download_policy ns : preserves (quiet n0 o0) (get_download_policy ns).
Proof. unfold get_download_policy. quiet_ops. Qed.
Lemma quiet_set_download_policy ns p : preserves (quiet n0 o0) (set_download_policy ns p).
Proof. unfold set_download_policy. quiet_ops. Qed.
Lemma quiet_register_useful_peer nanos ns p : preserves (quiet n0 o0) (register_useful_peer nanos ns p).
Proof. unfold register_useful_peer. quiet_ops. Qed.

Lemma quiet_retract_entry ns a k b : preserves (quiet n0 o0) (retract_entry ns a k b).
Proof.
  unfold retract_entry. apply quiet_modify. intros t [Hi Hn]. rewrite st_get_bind.
  destruct (tbl_get (records t) (ns, a, k)) as [[[[[ts ?] ?] ?] ?]|]; [|done].
  destruct (b <? ts)%N; [done|]. split; [|exact Hn].
  intros ns' a' k' v. simpl. rewrite !tbl_get_remove by apply _.
  destruct (eqb (ns, a, k) (ns', a', k')) eqn:Heq; [done|]. intros Hg.
  destruct (eqb (ns, k, a) (ns', k', a')) eqn:Heq'; [|by eapply Hi].
  apply eqb_eq in Heq'. injection Heq' as -> -> ->. by rewrite eqb_refl in Heq.
Qed.

(** *** The instance of a replica *)
Definition inst_quiet (i : StoreInstance) : Prop := quiet n0 o0 (si_store i).

Lemma inst_on_store {A} (m : ST Store StoreErr A) :
  preserves (quiet n0 o0) m → preserves inst_quiet (on_store m).
Proof. intros Hm. by apply (pr_zoom _ (quiet n0 o0)). Qed.

Lemma inst_read_records : preserves inst_quiet read_records.
Proof. unfold read_records. preserves_auto. apply inst_on_store, quiet_tables. Qed.
Lemma inst_quiet_get_first : preserves inst_quiet inst_get_first.
Proof. unfold inst_get_first. preserves_auto. apply inst_read_records. Qed.
Lemma inst_quiet_get_range r : preserves inst_quiet (inst_get_range r).
Proof.
  unfold inst_get_range. preserves_auto. apply inst_read_records.
Qed.
Lemma inst_quiet_get_fingerprint r : preserves inst_quiet (inst_get_fingerprint r).
Proof. unfold inst_get_fingerprint. preserves_auto. apply inst_quiet_get_range. Qed.
Lemma inst_quiet_prefixes_of k : preserves inst_quiet (inst_prefixes_of k).
Proof. unfold inst_prefixes_of. preserves_auto. apply inst_on_store, quiet_tables. Qed.
Lemma inst_quiet_entry_put e : preserves inst_quiet (inst_entry_put e).
Proof.
  apply inst_on_store, quiet_modify. intros t [Hi Hn]. rewrite entry_put_tables_run.
  split; [by apply put_tables_index|exact Hn].
Qed.
Lemma inst_quiet_remove k f : preserves inst_quiet (inst_remove_prefix_filtered k f).
Proof.
  apply inst_on_store, quiet_modify. intros t [Hi Hn].
  pose proof (remove_tables_index k f t Hi) as Hi'. unfold remove_tables in Hi'. rewrite st_get_bind.
  destruct (tbl_extract_from_if _ _ _) as [removed r]. by split.
Qed.

(** *** Sessions *)
Definition session_quiet (ss : SessionStore StoreInstance) : Prop := inst_quiet (ss_inner ss).

Lemma on_inner_quiet {A} (m : ST StoreInstance StoreErr A) :
  preserves inst_quiet m → preserves session_quiet (on_inner m).
Proof. intros Hm. by apply (pr_zoom _ inst_quiet). Qed.
Lemma ss_quiet_get_range r : preserves session_quiet (ss_get_range r).
Proof. unfold ss_get_range. preserves_auto. apply on_inner_quiet, inst_quiet_get_range. Qed.
Lemma ss_quiet_get_first : preserves session_quiet ss_get_first.
Proof.
  unfold ss_get_first. preserves_auto;
    first [apply on_inner_quiet, inst_quiet_get_range|apply on_inner_quiet, inst_quiet_get_first].
Qed.
Lemma ss_quiet_get_fingerprint r : preserves session_quiet (ss_get_fingerprint r).
Proof.
  unfold ss_get_fingerprint. preserves_auto;
    first [apply ss_quiet_get_range|apply on_inner_quiet, inst_quiet_get_fingerprint].
Qed.

Lemma process_message_quiet {W} config validate_cb on_insert_cb content_status_cb m
    (J : W → Prop) : (∀ x e c w, J w → J (on_insert_cb x e c w)) →
  preserves (both_inv session_quiet J)
    (process_message (R:=RejectId) config validate_cb on_insert_cb content_status_cb m).
Proof.
  intros HJ. apply process_message_preserves; try done.
  - apply ss_quiet_get_fingerprint.
  - intros e. apply on_inner_quiet, inst_quiet_entry_put.
  - apply ss_quiet_get_range.
  - intros k. apply on_inner_quiet, inst_quiet_prefixes_of.
  - intros k f. apply on_inner_quiet, inst_quiet_remove.
Qed.

Lemma put_quiet e : preserves inst_quiet (put e).
Proof.
  apply put_preserves;
    [apply inst_quiet_entry_put|apply inst_quiet_prefixes_of|apply inst_quiet_remove].
Qed.
End store_preserves.

(** ** Replicas *)
Section replica_preserves.
Context `{RedbOk, Crypto, Postcard DownloadPolicy}.
Context (n0 : table arr32 (N * arr32) _) (o0 : gset NamespaceId) (cap : Capability).

Definition replica_quiet (r : Replica) : Prop :=
  inst_quiet n0 o0 (rp_store r) ∧ i_capability (rp_info r) = cap ∧ i_closed (rp_info r) = false.

Lemma quiet_on_instance {A} (m : ST StoreInstance StoreErr A) :
  preserves (inst_quiet n0 o0) m → preserves replica_quiet (on_instance m).
Proof.
  intros Hm r [Hi Hr]. unfold on_instance. specialize (Hm _ Hi).
  by destruct (m (rp_store r)) as [x i].
Qed.

Lemma quiet_policy_or_default ns : preserves replica_quiet (download_policy_or_default ns).
Proof.
  intros r [Hi Hr]. unfold download_policy_or_default.
  pose proof (inst_on_store n0 o0 _ (quiet_get_download_policy n0 o0 ns) _ Hi) as Hq.
  by destruct (on_store (get_download_policy ns) (rp_store r)) as [[p|e|] i].
Qed.

Lemma quiet_notify ev : preserves replica_quiet (notify ev).
Proof. intros r Hr. unfold notify. by destruct (subs_send ev _ _) as [subs w]. Qed.

Lemma quiet_insert_entry now e origin : preserves replica_quiet (insert_entry now e origin).
Proof.
  unfold insert_entry. preserves_auto;
    first [apply quiet_on_instance, put_quiet|apply quiet_notify|apply quiet_policy_or_default].
Qed.

Lemma quiet_insert created now key author hash len :
  preserves replica_quiet (insert created now key author hash len).
Proof. unfold insert, replica_ensure_open. preserves_auto. apply quiet_insert_entry. Qed.
Lemma quiet_delete_prefix created now key author :
  preserves replica_quiet (delete_prefix created now key author).
Proof. unfold delete_prefix, replica_ensure_open. preserves_auto. apply quiet_insert_entry. Qed.
Lemma quiet_insert_remote now e from st : preserves replica_quiet (insert_remote_entry now e from st).
Proof. unfold insert_remote_entry, replica_ensure_open. preserves_auto. apply quiet_insert_entry. Qed.

Lemma quiet_sync_initial f : preserves replica_quiet (sync_initial_message f).
Proof.
  intros r [Hi Hr]. unfold sync_initial_message. destruct (ensure_open (rp_info r)); [|done..].
  assert (preserves (session_quiet n0 o0)
    (initial_message (Err:=StoreErr) (E:=SignedEntry) (R:=RejectId))) as Hm.
  { apply initial_message_preserves; [apply ss_quiet_get_first|apply ss_quiet_get_fingerprint]. }
  specialize (Hm (SessionStore_new (rp_store r) f) Hi).
  by destruct (initial_message (SessionStore_new (rp_store r) f)) as [x s].
Qed.

Lemma quiet_sync_process now m from filter st :
  preserves replica_quiet (with_outcome st (sync_process_message now m from filter)).
Proof.
  intros r [Hi Hr]. unfold with_outcome, sync_process_message.
  destruct (ensure_open (rp_info r)); [|done..].
  pose proof (quiet_policy_or_default (replica_id r) r (conj Hi Hr)) as Hq.
  destruct (download_policy_or_default (replica_id r) r) as [[p|e|] r1]; [|done..].
  destruct Hq as [Hi1 Hr1]. simpl in Hi1.
  set (w := observe_rejections _ _ _ _ _).
  pose proof (process_message_quiet n0 o0 SyncConfig_default
    (sync_validate now (replica_id r) from (i_capability_validator (rp_info r)))
    (sync_on_insert (replica_id r) from p)
    (λ _, sync_content_status (i_content_status_cb (rp_info r))) m (λ _, True) (λ _ _ _ _ _, I)
    (SessionStore_new (rp_store r1) filter, (i_subscribers (rp_info r), w)) (conj Hi1 I)) as [Hp _].
  destruct (process_message _ _ _ _ m _) as [[[reply|]|e|] [s' [subs w']]]; by split.
Qed.
End replica_preserves.

(** ** The actor *)
Section actor_preserves.
Context `{RedbOk, CryptoOk, Postcard DownloadPolicy}.
Implicit Types (a : Actor) (ns : NamespaceId).

Record actor_wf a : Prop := {
  aw_store : store_ok (ac_store a);
  aw_open : ∀ ns, ns ∈ st_open_replicas (ac_store a) ↔ is_Some (ac_states a !! ns);
  aw_state : ∀ ns o, ac_states a !! ns = Some o →
    stored_capability (view (ac_store a)) ns = Some (i_capability (or_info o))
    ∧ i_closed (or_info o) = false ∧ (0 < or_handles o < u64_max)%N;
  aw_session : ∀ id s, ac_sessions a !! id = Some s →
    sid_actor id = ac_actor_id a ∧ is_Some (ac_states a !! sn_namespace s);
}.

(** *** Steps *)
Lemma stored_capability_eq t t' ns :
  namespaces t' = namespaces t → stored_capability t' ns = stored_capability t ns.
Proof. intros Heq. unfold stored_capability. by rewrite Heq. Qed.

Lemma wf_quiet_store s a : actor_wf a →
  quiet (namespaces (view (ac_store a))) (st_open_replicas (ac_store a)) s →
  actor_wf (set_ac_store s a).
Proof.
  intros [Hs Ho Ht Hse] (Hok & Hn & Hop). split; simpl; [done|by rewrite Hop| |done].
  intros ns o Hns. destruct (Ht ns o Hns) as (Hc & ?). split; [|done].
  by rewrite (stored_capability_eq (view (ac_store a))).
Qed.

Lemma wf_is_quiet a : actor_wf a →
  quiet (namespaces (view (ac_store a))) (st_open_replicas (ac_store a)) (ac_store a).
Proof. intros []. done. Qed.

Lemma wf_actor_store {E A} (f : E → ActorErr) (m : ST Store E A) :
  (∀ n o, preserves (quiet n o) m) → preserves actor_wf (actor_store f m).
Proof.
  intros Hm a Ha. unfold actor_store. specialize (Hm _ _ _ (wf_is_quiet a Ha)).
  destruct (m (ac_store a)) as [r s]. by apply wf_quiet_store.
Qed.

(** The store changes its capabilities or its open replicas. *)
Lemma wf_states_insert ns o o' a : actor_wf a → ac_states a !! ns = Some o →
  i_capability (or_info o') = i_capability (or_info o) → i_closed (or_info o') = false →
  (0 < or_handles o' < u64_max)%N →
  actor_wf (set_ac_states (<[ns := o']> (ac_states a)) a).
Proof.
  intros [Hs Ho Ht Hse] Hns Hc Hcl Hh. split; simpl; [done|..].
  - intros n. rewrite Ho. destruct (decide (ns = n)) as [->|Hne].
    + by rewrite lookup_insert_eq, Hns.
    + by rewrite lookup_insert_ne.
  - intros n x. destruct (decide (ns = n)) as [->|Hne].
    + rewrite lookup_insert_eq. intros [= <-]. rewrite Hc. split; [|done]. by apply Ht.
    + rewrite lookup_insert_ne by done. apply Ht.
  - intros id s Hid. destruct (Hse id s Hid) as [Hi [x Hx]]. split; [done|].
    destruct (decide (ns = sn_namespace s)) as [->|Hne].
    + by rewrite lookup_insert_eq.
    + rewrite lookup_insert_ne by done. by eexists.
Qed.

Lemma wf_put_open ns o o' a : actor_wf a → ac_states a !! ns = Some o →
  i_capability (or_info o') = i_capability (or_info o) → i_closed (or_info o') = false →
  (0 < or_handles o' < u64_max)%N → actor_wf (put_open ns o' a).2.
Proof. intros. by eapply wf_states_insert. Qed.

Lemma wf_get_open {A} ns (g : OpenReplica → ST Actor ActorErr A) :
  (∀ o a, actor_wf a → ac_states a !! ns = Some o → actor_wf (g o a).2) →
  preserves actor_wf (o ← get_open ns; g o).
Proof.
  intros Hg a Ha. unfold get_open, mbind, ST_bind.
  destruct (ac_states a !! ns) as [o|] eqn:Hns; [by apply Hg|done].
Qed.

Lemma wf_run_replica {E A} ns mk (f : E → ActorErr) (m : ST Replica E A) :
  (∀ n s, si_store (mk n s) = s) →
  (∀ n o cap, preserves (replica_quiet n o cap) m) → preserves actor_wf (run_replica ns mk f m).
Proof.
  intros Hmk Hm. unfold run_replica. apply wf_get_open. intros o a Ha Ho. unfold replica_step.
  destruct (aw_state a Ha ns o Ho) as (Hc & Hcl & Hh).
  set (r0 := Replica_new _ _ _).
  assert (replica_quiet (namespaces (view (ac_store a))) (st_open_replicas (ac_store a))
    (i_capability (or_info o)) r0) as Hr0.
  { split; [|done]. unfold inst_quiet. simpl. rewrite Hmk. by apply wf_is_quiet. }
  specialize (Hm _ _ _ r0 Hr0). destruct (m r0) as [x r]. destruct Hm as (Hq & Hcap & Hcl').
  apply (wf_states_insert ns o (set_or_info (rp_info r) o)) in Ha as Ha'; [|done..].
  destruct (wf_quiet_store (si_store (rp_store r)) _ Ha' Hq). by split.
Qed.

Lemma wf_ensure_syncing ns : preserves actor_wf (ensure_syncing ns).
Proof. unfold ensure_syncing. apply wf_get_open. intros o a Ha _. by apply pr_ensure. Qed.

Lemma wf_replica_if_syncing {E A} ns snap (f : E → ActorErr) (m : ST Replica E A) :
  (∀ n o cap, preserves (replica_quiet n o cap) m) →
  preserves actor_wf (replica_if_syncing ns snap f m).
Proof.
  intros Hm. unfold replica_if_syncing. apply pr_bind; [apply wf_ensure_syncing|]. intros u.
  by apply wf_run_replica.
Qed.

Lemma wf_session_replica {E A} ns id (f : E → ActorErr) (m : ST Replica E A) :
  (∀ n o cap, preserves (replica_quiet n o cap) m) → preserves actor_wf (session_replica ns id f m).
Proof.
  intros Hm. unfold session_replica. preserves_auto. by apply wf_replica_if_syncing.
Qed.

(** *** Opening and closing *)
Lemma wf_open_replicas (o : gset NamespaceId) s : store_ok s → store_ok (set_open_replicas o s).
Proof. by intros []. Qed.

Lemma wf_sessions (f : gmap SyncSessionId SessionSnapshot → gmap SyncSessionId SessionSnapshot) a :
  actor_wf a → (∀ id s, f (ac_sessions a) !! id = Some s → ac_sessions a !! id = Some s) →
  actor_wf (set_ac_sessions (f (ac_sessions a)) a).
Proof. intros [Hs Ho Ht Hse] Hf. split; simpl; try done. intros id s Hid. by apply Hse, Hf. Qed.

Lemma load_replica_info_run ns s : store_ok s →
  match load_replica_info ns s with
  | (Ok info, s') => info = ReplicaInfo_new (i_capability info)
      ∧ stored_capability (view s) ns = Some (i_capability info)
      ∧ quiet (namespaces (view s)) ({[ns]} ∪ st_open_replicas s) s'
  | (_, s') => quiet (namespaces (view s)) (st_open_replicas s) s'
  end.
Proof.
  intros Hok. unfold load_replica_info.
  pose proof (quiet_tables (namespaces (view s)) (st_open_replicas s) s (conj Hok (conj eq_refl eq_refl))) as Hq.
  destruct (tables_spec s (proj1 Hok)) as (t & s' & Ht & -> & Hv & Hb). rewrite Ht in Hq |- *. simpl in Hq.
  unfold stored_capability.
  destruct (tbl_get (namespaces (view s)) ns) as [v|] eqn:Hg; [|done].
  destruct Hok as (_ & _ & _ & Hns). destruct (Hns ns v Hg) as (c & Hp & Hid). rewrite Hp. simpl.
  split; [done|]. split; [by rewrite Hp|]. rewrite Hid.
  destruct Hq as [Hok' [Hn' Ho']]. split; [by apply wf_open_replicas|]. simpl. by rewrite Ho'.
Qed.

(** A replica that was not open is now. *)
Lemma wf_opened ns o s a : actor_wf a → ac_states a !! ns = None →
  quiet (namespaces (view (ac_store a))) ({[ns]} ∪ st_open_replicas (ac_store a)) s →
  stored_capability (view (ac_store a)) ns = Some (i_capability (or_info o)) →
  i_closed (or_info o) = false → (0 < or_handles o < u64_max)%N →
  actor_wf (set_ac_states (<[ns := o]> (ac_states a)) (set_ac_store s a)).
Proof.
  intros [Hs Ho Ht Hse] Hns (Hok & Hn & Hop) Hc Hcl Hh. split; simpl; [done|..].
  - intros n. rewrite Hop. destruct (decide (ns = n)) as [->|Hne].
    + rewrite lookup_insert_eq. split; [by eexists|set_solver].
    + rewrite lookup_insert_ne by done. rewrite <- Ho. set_solver.
  - intros n x. rewrite (stored_capability_eq (view (ac_store a))) by done.
    destruct (decide (ns = n)) as [->|Hne].
    + rewrite lookup_insert_eq. by intros [= <-].
    + rewrite lookup_insert_ne by done. apply Ht.
  - intros id x Hid. destruct (Hse id x Hid) as [Hi Hx]. split; [done|].
    destruct (decide (ns = sn_namespace x)) as [->|Hne].
    + by rewrite lookup_insert_eq.
    + by rewrite lookup_insert_ne.
Qed.

Lemma wf_actor_open ns opts a : actor_wf a →
  (∀ o, ac_states a !! ns = Some o → (or_handles o + 1 < u64_max)%N) →
  actor_wf (actor_open ns opts a).2.
Proof.
  intros Ha Hmax. unfold actor_open, open_with. rewrite st_get_bind.
  destruct (ac_states a !! ns) as [o|] eqn:Hns.
  - destruct (aw_state a Ha ns o Hns) as (_ & Hcl & Hh). specialize (Hmax o eq_refl).
    apply (wf_put_open ns o); [done|done| | |]; simpl.
    + by destruct (oo_subscribe opts).
    + by destruct (oo_subscribe opts).
    + unfold u64_add. rewrite N.mod_small by done. lia.
  - unfold actor_open_cb, mbind, ST_bind, actor_store, st_get.
    pose proof (load_replica_info_run ns (ac_store a) (aw_store a Ha)) as Hl.
    destruct (load_replica_info ns (ac_store a)) as [[info|e|] s]; simpl;
      [|by apply wf_quiet_store..].
    destruct Hl as (Hi & Hc & Hq). apply wf_opened; [done|done|done| | |done]; simpl.
    + rewrite Hc. f_equal. rewrite Hi. simpl.
      by destruct (oo_subscribe opts), (ac_content_status_callback a), (ac_capability_validator a),
        (ac_rejection_observer a).
    + rewrite Hi. simpl. by destruct (oo_subscribe opts), (ac_content_status_callback a),
        (ac_capability_validator a), (ac_rejection_observer a).
Qed.

Lemma wrapping_sub1_pos n : (0 < n < u64_max)%N → wrapping_sub1 n = (n - 1)%N.
Proof.
  intros Hn. unfold wrapping_sub1.
  replace (n + (u64_max - 1))%N with (n - 1 + 1 * u64_max)%N by lia.
  rewrite N.Div0.mod_add. apply N.mod_small. lia.
Qed.

(** What closing does: the last handle closes the replica and its sessions. *)
Definition closed_actor ns a : Actor :=
  set_ac_store (set_open_replicas (st_open_replicas (ac_store a) ∖ {[ns]}) (ac_store a))
    (set_ac_sessions (base.filter (λ p, sn_namespace p.2 ≠ ns) (ac_sessions a))
      (set_ac_states (delete ns (ac_states a)) a)).

Lemma actor_close_run ns a : actor_wf a →
  match ac_states a !! ns with
  | None => actor_close ns a = (Ok true, closed_actor ns a)
  | Some o =>
      if (or_handles o =? 1)%N then actor_close ns a = (Ok true, closed_actor ns a)
      else actor_close ns a = (Ok false, set_ac_states (<[ns :=
             {| or_info := or_info o; or_sync := or_sync o; or_handles := or_handles o - 1 |}]>
             (ac_states a)) a)
  end.
Proof.
  intros Ha. unfold actor_close, states_close, closed_actor.
  destruct (ac_states a !! ns) as [o|] eqn:Hns.
  - destruct (aw_state a Ha ns o Hns) as (_ & _ & Hh).
    unfold mbind, ST_bind, st_get. rewrite Hns, wrapping_sub1_pos by done.
    destruct (N.eqb_spec (or_handles o) 1) as [->|Hne]; [done|].
    destruct (N.eqb_spec (or_handles o - 1) 0); [lia|done].
  - unfold mbind, ST_bind, st_get. rewrite Hns. rewrite delete_id by done. by destruct a.
Qed.

Lemma wf_closed ns a : actor_wf a → actor_wf (closed_actor ns a).
Proof.
  intros [Hs Ho Ht Hse]. split; simpl.
  - by apply wf_open_replicas.
  - intros n. rewrite elem_of_difference, Ho, elem_of_singleton.
    destruct (decide (n = ns)) as [->|Hne].
    + rewrite lookup_delete_eq. split; [by intros []|by intros []].
    + rewrite lookup_delete_ne by done. naive_solver.
  - intros n o. rewrite lookup_delete_Some. intros [_ Hn]. by apply Ht.
  - intros id s [Hid Hn]%map_lookup_filter_Some. destruct (Hse id s Hid) as [Hi Hx].
    split; [done|]. by rewrite lookup_delete_ne.
Qed.

Lemma wf_actor_close ns : preserves actor_wf (actor_close ns).
Proof.
  intros a Ha. pose proof (actor_close_run ns a Ha) as Hr.
  destruct (ac_states a !! ns) as [o|] eqn:Hns; [|rewrite Hr; by apply wf_closed].
  destruct (N.eqb_spec (or_handles o) 1); rewrite Hr; [by apply wf_closed|].
  destruct (aw_state a Ha ns o Hns) as (_ & Hcl & Hh).
  apply (wf_states_insert ns o); [done|done|done|done|]. simpl. lia.
Qed.

(** *** The capability table *)
Lemma import_namespace_run (c : Capability) s : store_ok s →
  ∃ out s' c', import_namespace c s = (Ok out, s')
    ∧ match stored_capability (view s) (Capability_id c) with
      | None => out = ImInserted ∧ c' = c
      | Some old => ∃ up, Capability_merge old c = Ok (up, c') ∧ out = (if up : bool then ImUpgraded else ImNoChange)
      end
    ∧ Capability_id c' = Capability_id c
    ∧ (∀ n, stored_capability (view s') n =
         if eqb (Capability_id c) n then Some c' else stored_capability (view s) n)
    ∧ store_ok s' ∧ st_open_replicas s' = st_open_replicas s.
Proof.
  intros (Hwf & Hidx & Hpk & Hns). unfold import_namespace. run_modify s with Hwf as s' Hv Hb.
  revert Hv. unfold stored_capability at 1.
  assert (∀ c', Capability_id c' = Capability_id c →
    view s' = set_namespaces (tbl_insert (namespaces (view s)) (Capability_id c') (Capability_raw c')) (view s) →
    (∀ n, stored_capability (view s') n =
         if eqb (Capability_id c) n then Some c' else stored_capability (view s) n)
    ∧ store_ok s' ∧ st_open_replicas s' = st_open_replicas s) as Hend.
  { intros c' Hid Hv. destruct (bk_rest _ _ Hb) as (Hop & Hk & _). rewrite <- Hid.
    split; [intros n; rewrite Hv; by apply stored_capability_insert|]. split; [|done].
    split; [apply Hb|]. rewrite Hv, Hk. split; [done|]. split; [done|]. by apply namespaces_wf_insert. }
  destruct (tbl_get (namespaces (view s)) (Capability_id c)) as [v|] eqn:Hg.
  - destruct (Hns _ _ Hg) as (old & Hp & Hid). simpl. rewrite Hp.
    destruct (merge_same_id old c Hid) as (m & Hm & Hmid & _). rewrite Hm. simpl. intros Hv.
    do 2 eexists. exists m. split; [done|]. split; [by eexists|]. split; [done|]. by apply Hend.
  - simpl. intros Hv. do 2 eexists. exists c. split; [done|]. split; [done|]. split; [done|]. by apply Hend.
Qed.

Lemma merge_false (c d m : Capability) : Capability_merge c d = Ok (false, m) → m = c.
Proof.
  unfold Capability_merge. destruct (negb _); [done|].
  destruct c, d; intros Heq; congruence.
Qed.

Lemma wf_import_namespace c : preserves actor_wf (on_import_namespace c).
Proof.
  intros a Ha. unfold on_import_namespace, actor_store, mbind, ST_bind, st_get.
  destruct (import_namespace_run c (ac_store a) (aw_store a Ha))
    as (out & s' & c' & Hrun & Hout & Hid & Hst & Hok & Hop).
  rewrite Hrun. cbn [map_err].
  assert (∀ states, (∀ n o, states !! n = Some o → ∃ o', ac_states a !! n = Some o'
        ∧ or_handles o = or_handles o' ∧ i_closed (or_info o) = i_closed (or_info o')
        ∧ i_capability (or_info o) = if eqb (Capability_id c) n then c' else i_capability (or_info o')) →
      (∀ n, is_Some (states !! n) ↔ is_Some (ac_states a !! n)) →
      actor_wf (set_ac_states states (set_ac_store s' a))) as Hend.
  { intros states Hs Hdom. destruct Ha as [_ Ho Ht Hse]. split; simpl; [done|..].
    - intros n. by rewrite Hop, Ho, Hdom.
    - intros n o Hn. destruct (Hs n o Hn) as (o' & Hn' & Hh & Hcl & Hc).
      destruct (Ht n o' Hn') as (Hc' & Hcl' & Hh'). rewrite Hst, Hh, Hcl, Hc.
      split; [by destruct (eqb (Capability_id c) n)|done].
    - intros id x Hx. destruct (Hse id x Hx). split; [done|]. by rewrite Hdom. }
  assert (∀ n, eqb (Capability_id c) n = true → Capability_id c = n) as Heqb by (intros n; apply eqb_eq).
  assert ((∀ o, ac_states a !! Capability_id c = Some o → i_capability (or_info o) = c') →
    actor_wf (set_ac_store s' a)) as Hsame.
  { intros Hcap. specialize (Hend (ac_states a)). destruct Hend; [|done|by split].
    intros n o Hn. exists o. split_and!; try done.
    destruct (eqb (Capability_id c) n) eqn:He; [|done]. apply Heqb in He as <-. by apply Hcap. }
  destruct (stored_capability (view (ac_store a)) (Capability_id c)) as [old|] eqn:Hold.
  - destruct Hout as (up & Hm & ->).
    assert (∀ o, ac_states a !! Capability_id c = Some o → i_capability (or_info o) = old) as Hcap.
    { intros o Ho. destruct (aw_state a Ha _ o Ho) as [Hc _]. congruence. }
    destruct up; simpl.
    + destruct (ac_states a !! Capability_id c) as [o|] eqn:Ho; [|by apply Hsame].
      unfold info_merge_capability. rewrite (Hcap o eq_refl). simpl. rewrite Hm. simpl.
      apply Hend.
      * intros n x. simpl. destruct (decide (Capability_id c = n)) as [<-|Hne].
        -- rewrite lookup_insert_eq. intros [= <-]. exists o. by rewrite eqb_refl.
        -- rewrite lookup_insert_ne by done. intros Hx. exists x. split_and!; try done.
           destruct (eqb (Capability_id c) n) eqn:He; [|done]. by apply Heqb in He.
      * intros n. simpl. destruct (decide (Capability_id c = n)) as [<-|Hne].
        -- by rewrite lookup_insert_eq, Ho.
        -- by rewrite lookup_insert_ne.
    + apply Hsame. intros o Ho. rewrite (Hcap o Ho). by apply merge_false in Hm.
  - destruct Hout as [-> ->]. simpl. apply Hsame. intros o Ho.
    destruct (aw_state a Ha _ o Ho) as [Hc _]. congruence.
Qed.

Lemma remove_replica_ok ns s : store_ok s →
  match remove_replica ns s with
  | (Ok _, s') => ns ∉ st_open_replicas s ∧ store_ok s' ∧ st_open_replicas s' = st_open_replicas s
      ∧ ∀ n, n ≠ ns → stored_capability (view s') n = stored_capability (view s) n
  | (_, s') => s' = s
  end.
Proof.
  intros (Hwf & Hidx & Hpk & Hns). unfold remove_replica. rewrite st_gets_bind.
  destruct (decide (ns ∈ st_open_replicas s)) as [|Hnot]; [done|].
  match goal with |- context [modify ?f s] =>
    destruct (modify_spec f s Hwf) as (s' & Hm & Hv & Hb); rewrite Hm end.
  rewrite !st_modify_bind in Hv. rewrite !st_modify_bind. simpl.
  destruct (bk_rest _ _ Hb) as (Hop & Hk & _). split; [done|].
  assert (∀ n, tbl_get (namespaces (view s')) n = if eqb ns n then None else tbl_get (namespaces (view s)) n) as Hn.
  { intros n. rewrite Hv. simpl. by rewrite tbl_get_remove by apply _. }
  split; [split; [apply Hb|]; rewrite Hk; split; [|split; [done|]]|split; [done|]].
  - intros n a k v. rewrite Hv. simpl. rewrite !tbl_get_retain_in by apply _.
    rewrite namespace_bounds_in, by_key_namespace_in. simpl.
    destruct (tbl_get (records (view s)) (n, a, k)) as [w|] eqn:Hg; [|done].
    rewrite (Hidx n a k w Hg). simpl. by destruct (eqb n ns).
  - intros n v. rewrite Hn. destruct (eqb ns n); [done|]. apply Hns.
  - intros n Hne. unfold stored_capability. rewrite Hn. destruct (eqb ns n) eqn:He; [|done].
    apply eqb_eq in He. congruence.
Qed.

Lemma wf_drop_replica ns : preserves actor_wf (on_drop_replica ns).
Proof.
  unfold on_drop_replica. apply pr_bind; [apply wf_actor_close|]. intros _ a Ha.
  unfold actor_store. pose proof (remove_replica_ok ns (ac_store a) (aw_store a Ha)) as Hr.
  destruct (remove_replica ns (ac_store a)) as [[u|e|] s]; simpl; [|subst s; by destruct a..].
  destruct Hr as (Hnot & Hok & Hop & Hst). destruct Ha as [Hs Ho Ht Hse].
  split; simpl; [done|by rewrite Hop| |done].
  intros n o Hn. rewrite Hst; [by apply Ht|]. intros ->. apply Hnot, Ho. by eexists.
Qed.

Lemma wf_session_start ns : preserves actor_wf (on_sync_session_start ns).
Proof.
  unfold on_sync_session_start. unfold ensure_syncing.
  intros a Ha. unfold mbind at 1, ST_bind at 1. unfold get_open at 1.
  unfold mbind at 1, ST_bind at 1.
  destruct (ac_states a !! ns) as [o|] eqn:Ho; [|done]. simpl.
  destruct (or_sync o); [|done]. simpl. unfold mbind, ST_bind, actor_store, st_get.
  destruct (snapshot_owned_spec (ac_store a) (proj1 (aw_store a Ha))) as (s' & Hsn & Hv & _ & Hb).
  rewrite Hsn. cbn [map_err].
  assert (actor_wf (set_ac_store s' a)) as [Hs Hop Ht Hse].
  { apply wf_quiet_store; [done|]. eapply quiet_same; [by apply wf_is_quiet|done|done]. }
  split; simpl; try done. intros id x.
  destruct (decide ({| sid_actor := ac_actor_id a; sid_seq := ac_next_session_id a |} = id)) as [<-|Hne].
  - rewrite lookup_insert_eq. intros [= <-]. split; [done|]. simpl. by rewrite Ho.
  - rewrite lookup_insert_ne by done. apply Hse.
Qed.

Lemma wf_session_end id : preserves actor_wf (on_sync_session_end id).
Proof.
  unfold on_sync_session_end. apply pr_bind.
  - apply pr_modify. intros a Ha. apply (wf_sessions (delete id)); [done|].
    intros i s [_ Hi]%lookup_delete_Some. exact Hi.
  - intros u. apply pr_modify. by intros a [].
Qed.

Lemma wf_reclaim now : preserves actor_wf (reclaim_abandoned_sessions now).
Proof.
  unfold reclaim_abandoned_sessions. apply pr_get_bind. intros a Ha.
  destruct (bool_decide _); [done|]. destruct (_ <? _)%N; [done|]. simpl.
  apply (wf_sessions (base.filter (λ p, 0 < strong_count (ac_refs a) p.1)) (set_ac_sweep now a)).
  - by destruct Ha.
  - by intros id s [Hs _]%map_lookup_filter_Some.
Qed.

Lemma wf_get_author id : preserves actor_wf (actor_get_author id).
Proof.
  unfold actor_get_author. preserves_auto. apply wf_actor_store. intros n o. apply quiet_get_author.
Qed.

Lemma wf_ensure_open ns : preserves actor_wf (states_ensure_open ns).
Proof. by intros a Ha. Qed.

(** *** All actions *)
Definition action_ok (act : Action) a : Prop :=
  match act with
  | AcReplica ns (RaOpen _) => ∀ o, ac_states a !! ns = Some o → (or_handles o + 1 < u64_max)%N
  | _ => True
  end.

Lemma reply_unit_preserves (P : Actor → Prop) (m : ST Actor ActorErr unit) :
  preserves P m → preserves P (reply_unit m).
Proof. intros Hm. unfold reply_unit, reply_with. by preserves_auto. Qed.
Lemma reply_with_preserves {A} (P : Actor → Prop) (f : A → Reply) (m : ST Actor ActorErr A) :
  preserves P m → preserves P (reply_with f m).
Proof. intros Hm. unfold reply_with. by preserves_auto. Qed.

Lemma reply_with_state {A} (f : A → Reply) (m : ST Actor ActorErr A) a :
  (reply_with f m a).2 = (m a).2.
Proof. unfold reply_with, mbind, ST_bind. by destruct (m a) as [[]]. Qed.

Lemma wf_replica_action ns act a : actor_wf a → action_ok (AcReplica ns act) a →
  actor_wf (on_replica_action ns act a).2.
Proof.
  intros Ha Hok.
  assert (∀ m : ST Actor ActorErr Reply, preserves actor_wf m → actor_wf (m a).2) as Hp by auto.
  destruct act; cbn [on_replica_action]; unfold reply_unit;
    [rewrite reply_with_state; by apply wf_actor_open|..]; apply Hp, reply_with_preserves.
  - apply wf_actor_close.
  - unfold on_get_state. by apply wf_get_open.
  - apply wf_get_open. intros o a' Ha' Ho. destruct (aw_state a' Ha' ns o Ho) as (_ & ? & ?).
    by apply (wf_put_open ns o).
  - apply wf_get_open. intros o a' Ha' Ho. destruct (aw_state a' Ha' ns o Ho) as (_ & ? & ?).
    by apply (wf_put_open ns o).
  - apply wf_get_open. intros o a' Ha' Ho. destruct (aw_state a' Ha' ns o Ho) as (_ & ? & ?).
    by apply (wf_put_open ns o).
  - unfold on_insert_local. preserves_auto; [apply wf_get_author|]. apply wf_run_replica; [done|].
    intros n o cap. apply quiet_insert.
  - unfold on_delete_prefix. preserves_auto; [apply wf_get_author|]. apply wf_run_replica; [done|].
    intros n o cap. apply quiet_delete_prefix.
  - unfold on_retract_entry. preserves_auto; [apply wf_ensure_open|].
    apply wf_actor_store. intros n o. apply quiet_retract_entry.
  - unfold on_insert_remote. preserves_auto. apply wf_replica_if_syncing. intros n o cap.
    apply quiet_insert_remote.
  - apply wf_session_start.
  - apply wf_session_replica. intros n o cap. apply quiet_sync_initial.
  - apply wf_session_replica. intros n o cap. apply quiet_sync_process.
  - unfold on_get_sync_peers. preserves_auto; [apply wf_ensure_open|].
    apply wf_actor_store. intros n o. apply quiet_get_sync_peers.
  - apply wf_actor_store. intros n o. apply quiet_register_useful_peer.
  - unfold on_get_exact. preserves_auto; [apply wf_ensure_open|].
    apply wf_actor_store. intros n o. apply quiet_get_exact.
  - unfold on_get_many. preserves_auto; [apply wf_ensure_open|].
    apply wf_actor_store. intros n o. apply quiet_get_many.
  - apply wf_drop_replica.
  - unfold on_export_secret_key. apply wf_get_open. intros o a' Ha' Ho. by apply pr_lift.
  - apply wf_actor_store. intros n o. apply quiet_has_news.
  - apply wf_actor_store. intros n o. apply quiet_set_download_policy.
  - apply wf_actor_store. intros n o. apply quiet_get_download_policy.
Qed.

Lemma wf_action act a : actor_wf a → action_ok act a → actor_wf (on_action act a).2.
Proof.
  intros Ha Hok. destruct act; cbn [on_action]; unfold reply_unit;
    try (by apply wf_replica_action); rewrite reply_with_state;
    first [ by apply wf_import_namespace | by apply wf_session_end | idtac ];
    (eapply wf_actor_store; [|done]); intros n o.
  - apply quiet_import_author.
  - apply quiet_get_author.
  - apply quiet_delete_author.
  - apply quiet_list_authors.
  - apply quiet_list_namespaces.
  - apply quiet_content_hashes.
  - apply quiet_flush.
Qed.

(** A turn whose open, if it is one, does not overflow the counter. *)
Definition turn_ok (t : Turn) a : Prop :=
  match t with TnTimeout _ => True | TnAction _ act => action_ok act a end.
Fixpoint run_ok (ts : list Turn) a : Prop :=
  match ts with [] => True | t :: ts => turn_ok t a ∧ run_ok ts (actor_turn t a).2 end.

Lemma reclaim_states now a : ac_states (reclaim_abandoned_sessions now a).2 = ac_states a.
Proof.
  unfold reclaim_abandoned_sessions. rewrite st_get_bind. destruct (bool_decide _); [done|].
  by destruct (_ <? _)%N.
Qed.

Lemma wf_turn t a : actor_wf a → turn_ok t a → actor_wf (actor_turn t a).2.
Proof.
  intros Ha Hok. destruct t as [now|now act]; simpl.
  - eapply wf_actor_store; [|by apply wf_reclaim]. intros n o. apply quiet_flush.
  - pose proof (wf_action act (reclaim_abandoned_sessions now a).2 (wf_reclaim now a Ha)) as Hw.
    destruct (on_action act _) as [r a']. apply Hw.
    destruct act as [| | | | | | | |ns []|]; try done. simpl in *. by rewrite reclaim_states.
Qed.

Lemma actor_run_wf id s now cb v o w ts :
  store_ok s → st_open_replicas s = ∅ → run_ok ts (spawn id s now cb v o w) →
  actor_wf (actor_run ts (spawn id s now cb v o w)).
Proof.
  intros Hs Hop.
  assert (actor_wf (spawn id s now cb v o w)) as Ha.
  { split; simpl; [done|..].
    - intros ns. rewrite Hop, lookup_empty. split; [set_solver|by intros []].
    - intros ns x. by rewrite lookup_empty.
    - intros i x. by rewrite lookup_empty. }
  revert Ha. generalize (spawn id s now cb v o w). induction ts as [|t ts IH]; intros a Ha; [done|].
  intros [Ht Hts]. simpl. apply IH; [by apply wf_turn|done].
Qed.
(** C11: the invariant of the sync actor.  Started on a well-formed store with
    no open replica, the actor keeps, through any sequence of actions and
    idle turns, whatever each of them answers: the store well-formed and its
    index complete; the replicas the store counts as open exactly those it
    has a state for, each with at least one handle, not closed, and with the
    capability that is stored; and every registered session issued by this
    actor for an open replica.  The one condition is that no handle counter
    overflows. *)
Theorem actor_invariant id s now cb v o w ts :
  store_ok s → st_open_replicas s = ∅ → run_ok ts (spawn id s now cb v o w) →
  actor_wf (actor_run ts (spawn id s now cb v o w)).
Proof. apply actor_run_wf. Qed.
End actor_preserves.
