(* ===== verification/ActorSessions.v ===== *)
(** * Handles and sessions of the sync actor

    What opening and closing do, how long a session's snapshot lives and what
    it shows, and that the actor is the service the exchange of Net asks
    for. *)
From S2P Require Import Prelude Redb Keys Entry Heads Query Bounds Ranger Info Store StoreInstance Filter QueryIter Replica SyncState Codec Net Actor ActorInv.

(** ** A snapshot is never replaced *)
Section frozen.
Context `{RedbOk, CryptoOk, Postcard DownloadPolicy}.
Implicit Types (a : Actor) (ns : NamespaceId).
Context (id : SyncSessionId) (s0 : SessionSnapshot).

(** The id is taken: it names this snapshot, or none any more. *)
Definition frozen a : Prop :=
  (sid_seq id < ac_next_session_id a)%N
  ∧ ∀ s, ac_sessions a !! id = Some s → s = s0.

Lemma fz_actor_store {E A} (f : E → ActorErr) (m : ST Store E A) : preserves frozen (actor_store f m).
Proof. intros a Ha. unfold actor_store. by destruct (m (ac_store a)). Qed.
Lemma fz_get_open ns : preserves frozen (get_open ns).
Proof. by intros a Ha. Qed.
Lemma fz_put_open ns o : preserves frozen (put_open ns o).
Proof. by intros a Ha. Qed.
Lemma fz_ensure_open ns : preserves frozen (states_ensure_open ns).
Proof. by intros a Ha. Qed.
Lemma fz_replica_step {E A} ns o mk (f : E → ActorErr) (m : ST Replica E A) :
  preserves frozen (replica_step ns o mk f m).
Proof. intros a Ha. unfold replica_step. by destruct (m _). Qed.
Lemma fz_shrink (f : Actor → Actor) :
  (∀ a, ac_next_session_id (f a) = ac_next_session_id a) →
  (∀ a s, ac_sessions (f a) !! id = Some s → ac_sessions a !! id = Some s) →
  preserves (E:=ActorErr) frozen (st_modify f).
Proof.
  intros Hn Hf. apply pr_modify. intros a [Hlt Hs]. split; [by rewrite Hn|].
  intros s Hid. by apply Hs, Hf.
Qed.

Ltac fz :=
  preserves_auto;
  try first [ apply fz_actor_store | apply fz_get_open | apply fz_put_open | apply fz_ensure_open
            | apply fz_replica_step | apply fz_shrink; [done|by intros ??] ].

Lemma fz_run_replica {E A} ns mk (f : E → ActorErr) (m : ST Replica E A) :
  preserves frozen (run_replica ns mk f m).
Proof. unfold run_replica. fz. Qed.
Lemma fz_replica_if_syncing {E A} ns snap (f : E → ActorErr) (m : ST Replica E A) :
  preserves frozen (replica_if_syncing ns snap f m).
Proof. unfold replica_if_syncing, ensure_syncing. fz. apply fz_run_replica. Qed.
Lemma fz_session_replica {E A} ns i (f : E → ActorErr) (m : ST Replica E A) :
  preserves frozen (session_replica ns i f m).
Proof. unfold session_replica. fz. apply fz_replica_if_syncing. Qed.
Lemma fz_close ns : preserves frozen (actor_close ns).
Proof.
  unfold actor_close, states_close. fz. apply fz_shrink; [done|].
  intros a s. simpl. by intros [? _]%map_lookup_filter_Some.
Qed.
Lemma fz_open ns opts : preserves frozen (actor_open ns opts).
Proof. unfold actor_open, open_with, actor_open_cb. fz. Qed.

Lemma fz_start ns a : frozen a → (ac_next_session_id a + 1 < u64_max)%N →
  frozen (on_sync_session_start ns a).2.
Proof.
  intros Ha Hn. unfold on_sync_session_start, ensure_syncing, mbind, ST_bind, get_open.
  destruct (ac_states a !! ns) as [o|]; [|done]. simpl. destruct (or_sync o); [|done]. simpl.
  unfold actor_store. destruct (snapshot_owned (ac_store a)) as [[t|e|] st]; [|done..]. simpl.
  destruct Ha as [Hlt Hs]. split; simpl.
  - unfold u64_add. rewrite N.mod_small by done. lia.
  - intros s. rewrite lookup_insert_ne; [apply Hs|]. intros <-. simpl in Hlt. lia.
Qed.

(** A turn that does not exhaust the session numbers. *)
Definition numbers_left (t : Turn) a : Prop :=
  match t with
  | TnAction _ (AcReplica _ RaSyncSessionStart) => (ac_next_session_id a + 1 < u64_max)%N
  | _ => True
  end.

Lemma fz_action act a : frozen a →
  (∀ ns, act = AcReplica ns RaSyncSessionStart → (ac_next_session_id a + 1 < u64_max)%N) →
  frozen (on_action act a).2.
Proof.
  intros Ha Hn. destruct act as [| | | | | | | |ns act|i]; cbn [on_action]; unfold reply_unit;
    rewrite ?reply_with_state; try by apply fz_actor_store.
  - clear Hn. revert a Ha.
    change (preserves frozen (on_import_namespace capability)). unfold on_import_namespace. fz.
  - destruct act; cbn [on_replica_action]; unfold reply_unit; rewrite ?reply_with_state;
      try (by apply fz_actor_store); try (by apply fz_close); try (by apply fz_session_replica);
      try (by apply fz_open).
    all: match goal with
         | |- frozen (on_sync_session_start _ _).2 => apply fz_start; eauto
         | |- frozen (?m ?a).2 => clear Hn; generalize dependent a; change (preserves frozen m)
         end.
    all: unfold on_get_state, on_set_sync, on_subscribe, on_unsubscribe, on_insert_local,
      on_delete_prefix, on_retract_entry, on_insert_remote, on_get_sync_peers, on_get_exact,
      on_get_many, on_drop_replica, on_export_secret_key, actor_get_author; fz;
      first [apply fz_run_replica|apply fz_replica_if_syncing|apply fz_close].
  - clear Hn. revert a Ha. change (preserves frozen (on_sync_session_end i)). unfold on_sync_session_end.
    fz. apply fz_shrink; [done|]. intros a s. simpl. by intros [_ ?]%lookup_delete_Some.
Qed.

Lemma fz_reclaim now : preserves frozen (reclaim_abandoned_sessions now).
Proof.
  unfold reclaim_abandoned_sessions. apply pr_get_bind. intros a Ha.
  destruct (bool_decide _); [done|]. destruct (_ <? _)%N; [done|]. destruct Ha as [Hlt Hs].
  split; [done|]. simpl. intros s [Hid _]%map_lookup_filter_Some. by apply Hs.
Qed.

Lemma reclaim_next now a : ac_next_session_id (reclaim_abandoned_sessions now a).2 = ac_next_session_id a.
Proof.
  unfold reclaim_abandoned_sessions. rewrite st_get_bind. destruct (bool_decide _); [done|].
  by destruct (_ <? _)%N.
Qed.

Lemma fz_turn t a : frozen a → numbers_left t a → frozen (actor_turn t a).2.
Proof.
  intros Ha Hn. destruct t as [now|now act]; simpl.
  - apply fz_actor_store. by apply fz_reclaim.
  - pose proof (fz_action act (reclaim_abandoned_sessions now a).2 (fz_reclaim now a Ha)) as Hw.
    destruct (on_action act _) as [r a']. apply Hw. intros ns ->. by rewrite reclaim_next.
Qed.

Fixpoint run_numbers_left (ts : list Turn) a : Prop :=
  match ts with [] => True | t :: ts => numbers_left t a ∧ run_numbers_left ts (actor_turn t a).2 end.

Lemma fz_run ts a : frozen a → run_numbers_left ts a → frozen (actor_run ts a).
Proof.
  revert a. induction ts as [|t ts IH]; intros a Ha; [done|]. intros [Ht Hts]. simpl.
  apply IH; [by apply fz_turn|done].
Qed.
End frozen.

(** ** What sessions promise *)
Section session_claims.
Context `{RedbOk, CryptoOk, Postcard DownloadPolicy}.
Implicit Types (a : Actor) (ns : NamespaceId).

Lemma session_start_run ns a id a1 : actor_wf a → on_sync_session_start ns a = (Ok id, a1) →
  id = {| sid_actor := ac_actor_id a; sid_seq := ac_next_session_id a |}
  ∧ (∃ o, ac_states a !! ns = Some o ∧ or_sync o = true)
  ∧ ac_sessions a1 = <[id := {| sn_namespace := ns; sn_tables := view (ac_store a) |}]> (ac_sessions a)
  ∧ ac_next_session_id a1 = u64_add (ac_next_session_id a) 1 ∧ ac_actor_id a1 = ac_actor_id a
  ∧ view (ac_store a1) = view (ac_store a) ∧ committed (ac_store a1) = view (ac_store a)
  ∧ ac_refs a1 = refs_handle id (ac_refs a).
Proof.
  intros Ha. unfold on_sync_session_start, ensure_syncing, mbind, ST_bind, get_open.
  destruct (ac_states a !! ns) as [o|]; [|done]. simpl. destruct (or_sync o) eqn:Hs; [|done]. simpl.
  unfold actor_store.
  destruct (snapshot_owned_spec (ac_store a) (proj1 (aw_store a Ha))) as (s' & Hsn & Hv & Hc & Hb).
  rewrite Hsn. simpl. intros [= <- <-]. simpl. split_and!; try done. by exists o.
Qed.

(** C17: what a session shows is frozen at its start.  Starting one commits
    what was pending and registers a snapshot of everything visible, under an
    id never used before; whatever the actor does afterwards, the id names
    that snapshot for its namespace or is no longer registered - it never
    shows anything newer, and never another namespace's or another actor's
    data.  (The 2^64 session numbers are taken not to run out.) *)
Theorem session_view_frozen ns a id a1 ts :
  actor_wf a → on_sync_session_start ns a = (Ok id, a1) →
  (ac_next_session_id a + 1 < u64_max)%N → run_numbers_left ts a1 →
  let shown := view (ac_store a) in
  let later := ac_sessions (actor_run ts a1) in
  view (ac_store a1) = shown ∧ committed (ac_store a1) = shown
  ∧ session_snapshot (ac_sessions a1) (ac_actor_id a1) id ns = Ok shown
  ∧ (session_snapshot later (ac_actor_id a1) id ns = Ok shown
     ∨ session_snapshot later (ac_actor_id a1) id ns = Err AcNotRegistered)
  ∧ (∀ ns', ns' ≠ ns → ∀ t, session_snapshot later (ac_actor_id a1) id ns' ≠ Ok t)
  ∧ (∀ other ns', sid_actor other ≠ ac_actor_id a1 →
       session_snapshot later (ac_actor_id a1) other ns' = Err AcForeignSession).
Proof.
  intros Ha Hs Hn Hleft shown later.
  destruct (session_start_run ns a id a1 Ha Hs) as (Hid & _ & Hse & Hnx & Hai & Hv & Hc & _).
  assert (frozen id {| sn_namespace := ns; sn_tables := shown |} a1) as Hfz.
  { split; [rewrite Hnx, Hid; simpl; unfold u64_add; rewrite N.mod_small by done; lia|].
    intros s. rewrite Hse, lookup_insert_eq. by intros [= <-]. }
  pose proof (fz_run id _ ts a1 Hfz Hleft) as [_ Hlater]. fold later in Hlater.
  assert ((sid_actor id =? ac_actor_id a1)%N = true) as Hmine by (rewrite Hid, Hai; apply N.eqb_refl).
  split; [done|]. split; [done|]. unfold session_snapshot. rewrite Hmine. simpl. split_and!.
  - by rewrite Hse, lookup_insert_eq, eqb_refl.
  - destruct (later !! id) as [s|]; [|by right]. rewrite (Hlater s eq_refl). simpl.
    rewrite eqb_refl. by left.
  - intros ns' Hne t. destruct (later !! id) as [s|]; [|done]. rewrite (Hlater s eq_refl). simpl.
    destruct (eqb ns ns') eqn:He; [|done]. apply eqb_eq in He. congruence.
  - intros other ns' Hoth. by apply N.eqb_neq in Hoth as ->.
Qed.

Definition turn_time (t : Turn) : N := match t with TnTimeout now => now | TnAction now _ => now end.

Lemma reclaim_run now a :
  (now - ac_last_session_sweep a <? MAX_COMMIT_DELAY)%N = false →
  ∀ id, ac_sessions (reclaim_abandoned_sessions now a).2 !! id =
    if 0 <? strong_count (ac_refs a) id then ac_sessions a !! id else None.
Proof.
  intros Hdue id. unfold reclaim_abandoned_sessions. rewrite st_get_bind, Hdue.
  destruct (bool_decide (ac_sessions a = ∅)) eqn:He.
  { apply bool_decide_eq_true in He. simpl. rewrite He, lookup_empty.
    by destruct (0 <? strong_count (ac_refs a) id). }
  simpl. destruct (Nat.ltb_spec 0 (strong_count (ac_refs a) id)) as [Hpos|Hz].
  - destruct (ac_sessions a !! id) as [s|] eqn:Hs.
    + by apply map_lookup_filter_Some.
    + apply map_lookup_filter_None. by left.
  - apply map_lookup_filter_None. right. intros s _. simpl. lia.
Qed.

(** A session whose handle is gone does not stay.  If no handle and no
    queued release refers to it, the first turn of the actor - an action or
    the idle tick - at least 500 ms after the last sweep ends with it
    unregistered, so its snapshot is released; a session something still
    refers to is never swept. *)
Theorem abandoned_session_reclaimed t a id :
  strong_count (ac_refs a) id = 0 → (sid_seq id < ac_next_session_id a)%N → numbers_left t a →
  (ac_last_session_sweep a + MAX_COMMIT_DELAY <= turn_time t)%N →
  ac_sessions (actor_turn t a).2 !! id = None
  ∧ ∀ id', 0 < strong_count (ac_refs a) id' →
      ac_sessions (reclaim_abandoned_sessions (turn_time t) a).2 !! id' = ac_sessions a !! id'.
Proof.
  intros Hz Hid Hleft Hdue.
  assert ((turn_time t - ac_last_session_sweep a <? MAX_COMMIT_DELAY)%N = false) as Hd
    by (apply N.ltb_ge; lia).
  pose proof (reclaim_run (turn_time t) a Hd) as Hrun. split.
  - set (a' := (reclaim_abandoned_sessions (turn_time t) a).2).
    assert (∀ s0, frozen id s0 a') as Hfz.
    { intros s0. split; [unfold a'; by rewrite reclaim_next|]. intros s. unfold a'.
      rewrite Hrun, Hz. done. }
    assert (∀ s0, frozen id s0 (actor_turn t a).2) as Hend.
    { intros s0. destruct t as [now|now act]; simpl in *; [by apply fz_actor_store|].
      pose proof (fz_action id s0 act a' (Hfz s0)) as Hact. unfold a' in Hact.
      destruct (on_action act _) as [r a2]. apply Hact. intros ns ->. by rewrite reclaim_next. }
    destruct (ac_sessions (actor_turn t a).2 !! id) as [s|] eqn:Hs; [|done].
    destruct (Hend {| sn_namespace := arr_rep 32 x00; sn_tables := sn_tables s |}) as [_ HA].
    destruct (Hend {| sn_namespace := arr_rep 32 x01; sn_tables := sn_tables s |}) as [_ HB].
    specialize (HA s Hs). specialize (HB s Hs). rewrite HA in HB.
    injection HB as Heq. vm_compute in Heq. discriminate Heq.
  - intros id' Hpos. rewrite Hrun. by apply Nat.ltb_lt in Hpos as ->.
Qed.

(** Handles are counted.  Closing gives back one handle: with others left
    it only counts down; the last one closes the replica, drops the state
    and every session of that namespace and no other, and frees it in the
    store; closing what is not open answers that it is closed.  Dropping a
    replica first gives back a handle too - and if others are left the drop
    fails although that handle is gone. *)
Theorem handle_lifecycle ns a : actor_wf a →
  (match ac_states a !! ns with
   | Some o => if (or_handles o =? 1)%N then actor_close ns a = (Ok true, closed_actor ns a)
               else ∃ a', actor_close ns a = (Ok false, a')
                 ∧ ac_states a' = <[ns := {| or_info := or_info o; or_sync := or_sync o;
                                            or_handles := or_handles o - 1 |}]> (ac_states a)
                 ∧ ac_sessions a' = ac_sessions a ∧ ac_store a' = ac_store a
   | None => actor_close ns a = (Ok true, closed_actor ns a)
   end)
  ∧ (∀ id s, ac_sessions (closed_actor ns a) !! id = Some s ↔
       ac_sessions a !! id = Some s ∧ sn_namespace s ≠ ns)
  ∧ (∀ o, ac_states a !! ns = Some o → (1 < or_handles o)%N →
       ∃ a', on_drop_replica ns a = (Err (AcStore ErrReplicaNotClosed), a')
         ∧ (or_handles <$> ac_states a' !! ns) = Some (or_handles o - 1)%N
         ∧ view (ac_store a') = view (ac_store a)).
Proof.
  intros Ha. pose proof (actor_close_run ns a Ha) as Hr. split; [|split].
  - destruct (ac_states a !! ns) as [o|] eqn:Hns; [|done].
    destruct (or_handles o =? 1)%N; [done|]. by eexists.
  - intros id s. simpl. by rewrite map_lookup_filter_Some.
  - intros o Hns Hh. rewrite Hns in Hr.
    destruct (N.eqb_spec (or_handles o) 1); [lia|].
    unfold on_drop_replica, mbind, ST_bind. rewrite Hr. unfold actor_store. simpl.
    assert (ns ∈ st_open_replicas (ac_store a)) as Hin by (apply (aw_open a Ha); by eexists).
    assert (remove_replica ns (ac_store a) = (Err ErrReplicaNotClosed, ac_store a)) as Hrm.
    { unfold remove_replica. rewrite st_gets_bind. by destruct (decide _). }
    rewrite Hrm. eexists. split; [done|]. simpl. by rewrite lookup_insert_eq.
Qed.
End session_claims.

(** ** The actor as the service of the exchange

    A call is an action and its reply; every failure, a panic of the actor
    included, reaches the caller as an error of the reply channel. *)
Section service.
Context `{RedbOk, CryptoOk, Postcard DownloadPolicy}.

Definition actor_call {A} (m : ST Actor ActorErr A) : ST Actor (Halt Cause) A := λ a,
  let '(r, a') := m a in
  (match r with Ok x => Ok x | _ => Err (Fail CaService) end, a').

(** [now] is the wall clock of the calls; a release message finds room in the
    queue. *)
Definition actor_service (now : N) : SyncService Actor SyncSessionId := {|
  sv_session_start ns := actor_call (on_sync_session_start ns);
  sv_session_end id := drop_session true id;
  sv_initial_message ns id f := actor_call (on_sync_initial_message ns id f);
  sv_process_message ns m p o id f := actor_call (on_sync_process_message now ns m p o id f);
|}.

Lemma replica_keeps_refs {E A} ns mk (f : E → ActorErr) (m : ST Replica E A) r :
  preserves (λ a, ac_refs a = r) (run_replica ns mk f m).
Proof.
  unfold run_replica. preserves_auto; [by intros ?|]. intros s Hs. unfold replica_step.
  by destruct (m _).
Qed.
Lemma session_replica_keeps_refs {E A} ns id (f : E → ActorErr) (m : ST Replica E A) r :
  preserves (λ a, ac_refs a = r) (session_replica ns id f m).
Proof.
  unfold session_replica, replica_if_syncing, ensure_syncing. preserves_auto; [by intros ?|].
  apply replica_keeps_refs.
Qed.

#[local] Obligation Tactic := idtac.

(** The actor keeps the promises the exchange relies on. *)
#[export] Program Instance actor_service_ok (now : N) :
    @SyncServiceOk Actor SyncSessionId _ _ (actor_service now) := {|
  sv_held a := sr_handles (ac_refs a);
|}.
Next Obligation.
  intros now ns a. simpl. unfold actor_call, on_sync_session_start, ensure_syncing, mbind, ST_bind, get_open.
  destruct (ac_states a !! ns) as [o|]; simpl; [|set_solver].
  destruct (or_sync o); simpl; [|set_solver].
  unfold actor_store. destruct (snapshot_owned (ac_store a)) as [[t|e|] st]; simpl; set_solver.
Qed.
Next Obligation. done. Qed.
Next Obligation.
  intros now ns id f a. simpl. unfold actor_call.
  pose proof (session_replica_keeps_refs ns id AcSync (sync_initial_message f) (ac_refs a) a eq_refl) as Hr.
  unfold on_sync_initial_message. destruct (session_replica ns id AcSync _ a) as [[x|e|] a']; simpl in *;
    by rewrite Hr.
Qed.
Next Obligation.
  intros now ns m p o id f a. simpl. unfold actor_call.
  pose proof (session_replica_keeps_refs ns id AcSync (with_outcome o (sync_process_message now m p f))
    (ac_refs a) a eq_refl) as Hr.
  unfold on_sync_process_message. destruct (session_replica ns id AcSync _ a) as [[x|e|] a']; simpl in *;
    by rewrite Hr.
Qed.
End service.

(** ** Concrete actors *)
Definition demo_opts : OpenOpts := opts_sync OpenOpts_default.
Definition demo_spawned : Actor := spawn 7 demo_store 0 None None None demo_world.
Definition demo_turns : list Turn :=
  [TnAction 1 (AcReplica demo_ns (RaOpen demo_opts));
   TnAction 2 (AcReplica demo_ns (RaOpen demo_opts));
   TnTimeout 600000000].
Definition demo_actor : Actor := actor_run demo_turns demo_spawned.
Definition demo_session : SyncSessionId := {| sid_actor := 7; sid_seq := 0 |}.
Definition demo_in_session : Actor := (on_sync_session_start demo_ns demo_actor).2.

Lemma demo_store_ok : store_ok demo_store.
Proof.
  destruct demo_instance_inv as (Hwf & Hidx & Hc). split; [done|]. split; [done|]. split; [done|].
  intros id v Hg. change (tbl_get (tbl_insert (tbl_empty : tbl arr32 (N * arr32)) demo_ns (2%N, demo_ns)) id
    = Some v) in Hg.
  rewrite tbl_get_insert, tbl_get_empty in Hg by apply _.
  destruct (eqb demo_ns id) eqn:He; [|done]. apply eqb_eq in He as <-. injection Hg as <-.
  by exists (CapRead demo_ns).
Qed.

Lemma demo_run_ok : run_ok demo_turns demo_spawned.
Proof.
  split; [|split; [|split; [exact I|exact I]]].
  - intros o Ho. discriminate Ho.
  - intros o Ho. vm_compute in Ho. injection Ho as <-. reflexivity.
Qed.

Lemma demo_actor_wf : actor_wf demo_actor.
Proof. exact (actor_run_wf 7 demo_store 0 None None None demo_world demo_turns demo_store_ok eq_refl demo_run_ok). Qed.

Lemma actor_invariant_witness : actor_wf demo_actor.
Proof.
  exact (actor_invariant 7 demo_store 0 None None None demo_world demo_turns demo_store_ok eq_refl demo_run_ok).
Defined.

Lemma demo_started : on_sync_session_start demo_ns demo_actor = (Ok demo_session, demo_in_session).
Proof.
  assert ((on_sync_session_start demo_ns demo_actor).1 = Ok demo_session) as Hs
    by (vm_compute; reflexivity).
  unfold demo_in_session. rewrite <- Hs. apply surjective_pairing.
Qed.

(** One more insertion after the session started. *)
Definition demo_later : list Turn :=
  [TnAction 700000000 (AcReplica demo_ns (RaInsertRemote 9 demo_remote (demo_peer x03) Missing));
   TnAction 1800000000 (AcReplica demo_ns RaClose)].
Lemma session_view_frozen_witness :
  session_snapshot (ac_sessions (actor_run demo_later demo_in_session)) 7 demo_session demo_ns
    = Ok (view (ac_store demo_actor))
  ∨ session_snapshot (ac_sessions (actor_run demo_later demo_in_session)) 7 demo_session demo_ns
    = Err AcNotRegistered.
Proof.
  exact (proj1 (proj2 (proj2 (proj2 (session_view_frozen demo_ns demo_actor demo_session demo_in_session
    demo_later demo_actor_wf demo_started ltac:(vm_compute; reflexivity) (conj I (conj I I))))))).
Defined.

(** Without its handle the session is swept. *)
Lemma abandoned_session_reclaimed_witness :
  ac_sessions (actor_turn (TnTimeout 1200000000) (drop_session false demo_session demo_in_session)).2
    !! demo_session = None.
Proof.
  refine (proj1 (abandoned_session_reclaimed (TnTimeout 1200000000)
    (drop_session false demo_session demo_in_session) demo_session _ _ _ _)).
  - vm_compute. reflexivity.
  - vm_compute. reflexivity.
  - exact I.
  - apply N.leb_le. vm_compute. reflexivity.
Defined.

(** With two handles a drop fails and one handle is gone. *)
Lemma handle_lifecycle_witness :
  ∃ o, ac_states demo_actor !! demo_ns = Some o ∧ or_handles o = 2%N
    ∧ ∃ a', on_drop_replica demo_ns demo_actor = (Err (AcStore ErrReplicaNotClosed), a')
        ∧ (or_handles <$> ac_states a' !! demo_ns) = Some (or_handles o - 1)%N
        ∧ view (ac_store a') = view (ac_store demo_actor).
Proof.
  assert (or_handles <$> ac_states demo_actor !! demo_ns = Some 2%N) as Hx by (vm_compute; reflexivity).
  apply fmap_Some in Hx as (o & Ho & Hh). symmetry in Hh.
  assert (1 < or_handles o)%N as Hlt by (rewrite Hh; reflexivity).
  exists o. split; [exact Ho|]. split; [exact Hh|].
  exact (proj2 (proj2 (handle_lifecycle demo_ns demo_actor demo_actor_wf)) o Ho Hlt).
Defined.

(** *** An exchange over the actor *)
Definition demo_td : Teardown := {| td_finish := StOk; td_stopped := StFail; td_read := StOk |}.
Definition demo_conn : Conn (W:=Actor) :=
  {| cx_world := demo_actor; cx_reads := [RdMessage (WmInit demo_ns []); RdStall];
     cx_writes := []; cx_sent := [] |}.
Definition demo_accept : NamespaceId → EndpointId → Actor → option AcceptOutcome * Actor :=
  λ _ _ a, (Some (Allow None), a).
#[local] Instance demo_service : SyncService Actor SyncSessionId := actor_service 0.

Lemma accept_result_names_pair_witness :
  (handle_connection demo_accept StOk demo_td (demo_peer x03) demo_conn).2.(b_accepted) = Some demo_ns
  ∧ match (handle_connection demo_accept StOk demo_td (demo_peer x03) demo_conn).1 with
    | Err e => AcceptError_peer e = Some (demo_peer x03)
    | _ => True
    end.
Proof.
  split; [vm_compute; reflexivity|].
  pose proof (accept_result_names_pair demo_accept (λ _ _ _, reflexivity _) StOk demo_td (demo_peer x03)
    demo_conn) as Hr.
  destruct (handle_connection demo_accept StOk demo_td (demo_peer x03) demo_conn) as [[f|e|] b];
    [exact I|exact (proj1 Hr)|exact I].
Defined.

Lemma sessions_released_witness :
  sv_held (cx_world (connect_and_sync {| su_connect := StOk; su_open := StOk |} demo_td demo_ns
    (demo_peer x03) None demo_conn).2) ⊆ sv_held (cx_world demo_conn).
Proof.
  exact (proj1 (sessions_released demo_accept (λ _ _ _, reflexivity _)
    {| su_connect := StOk; su_open := StOk |} demo_td StOk demo_ns (demo_peer x03) None demo_conn)).
Defined.

(** The accepting side was already syncing, and its stream broke. *)
Definition demo_refused : Conn (W:=Actor) :=
  {| cx_world := demo_actor; cx_reads := [RdMessage (WmAbort AlreadySyncing)];
     cx_writes := []; cx_sent := [] |}.
Lemma teardown_errors_witness :
  (connect_and_sync {| su_connect := StOk; su_open := StOk |} demo_td demo_ns (demo_peer x03) None
    demo_refused).1 = Err (CnClose CaTransport).
Proof.
  assert ((run_alice demo_ns (demo_peer x03) None demo_refused).1
    = Err (Fail (CnRemoteAbort AlreadySyncing))) as Hf by (vm_compute; reflexivity).
  assert (∃ c', run_alice demo_ns (demo_peer x03) None demo_refused
    = (Err (Fail (CnRemoteAbort AlreadySyncing)), c')) as [c' Hrun].
  { rewrite <- Hf. eexists. apply surjective_pairing. }
  exact (proj2 (teardown_errors demo_accept {| su_connect := StOk; su_open := StOk |} demo_td StOk demo_ns
    (demo_peer x03) None demo_refused) AlreadySyncing c' Hrun eq_refl).
Defined.

(** Two nodes: the accepting one has received one more record. *)
Lemma run_split {S E A} (m : ST S E A) s r : (m s).1 = r → m s = (r, (m s).2).
Proof. intros <-. apply surjective_pairing. Qed.
Definition ok_or {E A} (d : A) (r : result E A) : A := match r with Ok x => x | _ => d end.

Definition demo_bob_actor : Actor :=
  actor_run [TnAction 20 (AcReplica demo_ns (RaInsertRemote 20 demo_remote (demo_peer x05) Missing))] demo_actor.
Definition demo_bob_session : SyncSessionId := ok_or demo_session (sv_session_start demo_ns demo_bob_actor).1.
Definition demo_bob_started : Actor := (sv_session_start demo_ns demo_bob_actor).2.
Definition demo_m0 : ProtocolMessage := ok_or [] (sv_initial_message demo_ns demo_session None demo_in_session).1.
Definition demo_wa1 : Actor := (sv_initial_message demo_ns demo_session None demo_in_session).2.
Definition demo_rounds :=
  rounds_or demo_ns (demo_peer x03) (demo_peer x04) None None demo_session demo_bob_session
    ([], [], SyncOutcome_default, demo_wa1, SyncOutcome_default, demo_bob_started) 5
    demo_m0 SyncOutcome_default demo_wa1 SyncOutcome_default demo_bob_started.
Definition demo_ra : list ProtocolMessage := demo_rounds.1.1.1.1.1.
Definition demo_rb : list ProtocolMessage := demo_rounds.1.1.1.1.2.
Definition demo_alice : Conn (W:=Actor) :=
  {| cx_world := demo_actor; cx_reads := incoming demo_rb; cx_writes := []; cx_sent := [] |}.
Definition demo_bob : Conn (W:=Actor) :=
  {| cx_world := demo_bob_actor; cx_reads := RdMessage (WmInit demo_ns demo_m0) :: incoming demo_ra;
     cx_writes := []; cx_sent := [] |}.

Lemma demo_call_started : sv_session_start demo_ns demo_actor = (Ok demo_session, demo_in_session).
Proof.
  change (actor_call (on_sync_session_start demo_ns) demo_actor = (Ok demo_session, demo_in_session)).
  unfold actor_call. by rewrite demo_started.
Qed.
Lemma demo_bob_call_started :
  sv_session_start demo_ns demo_bob_actor = (Ok demo_bob_session, demo_bob_started).
Proof.
  assert ((sv_session_start demo_ns demo_bob_actor).1 = Ok demo_bob_session) as Hs by (vm_compute; reflexivity).
  exact (run_split (sv_session_start demo_ns) demo_bob_actor (Ok demo_bob_session) Hs).
Qed.
Lemma demo_call_initial :
  sv_initial_message demo_ns demo_session None demo_in_session = (Ok demo_m0, demo_wa1).
Proof. apply run_split. vm_compute. reflexivity. Qed.
Lemma demo_rounds_run :
  rounds demo_ns (demo_peer x03) (demo_peer x04) None None demo_session demo_bob_session demo_m0
    SyncOutcome_default demo_wa1 SyncOutcome_default demo_bob_started demo_ra demo_rb
    demo_rounds.1.1.1.2 demo_rounds.1.1.2 demo_rounds.1.2 demo_rounds.2.
Proof. apply rounds_or_sound. vm_compute. reflexivity. Qed.

Definition sendableb (m : WireMessage) : bool := (N.of_nat (pc_size m) <=? MAX_MESSAGE_SIZE)%N.
Lemma sendableb_sendable m : sendableb m = true → sendable m.
Proof. unfold sendableb, sendable. apply N.leb_le. Qed.
Lemma demo_m0_sendable : sendable (WmInit demo_ns demo_m0).
Proof. apply sendableb_sendable. vm_compute. reflexivity. Qed.
Lemma demo_deliverable ms : forallb (λ m, sendableb (WmSync m)) ms = true → deliverable ms.
Proof.
  induction ms as [|m ms IH]; simpl; [constructor|]. intros [Hm Hms]%andb_prop.
  constructor; [by apply sendableb_sendable|by apply IH].
Qed.
Lemma demo_ra_deliverable : deliverable demo_ra.
Proof. apply demo_deliverable. vm_compute. reflexivity. Qed.
Lemma demo_rb_deliverable : deliverable demo_rb.
Proof. apply demo_deliverable. vm_compute. reflexivity. Qed.

Lemma exchange_refines_rounds_witness :
  length demo_rb = 1 ∧ num_recv demo_rounds.1.1.1.2 = 2
  ∧ (∃ c', connect_and_sync setup_ok teardown_ok demo_ns (demo_peer x04) None demo_alice
      = (Ok {| sf_namespace := demo_ns; sf_peer := demo_peer x04; sf_outcome := demo_rounds.1.1.1.2 |}, c'))
  ∧ ∃ b', handle_connection demo_accept StOk teardown_ok (demo_peer x03) demo_bob
      = (Ok {| sf_namespace := demo_ns; sf_peer := demo_peer x03; sf_outcome := demo_rounds.1.2 |}, b').
Proof.
  split; [vm_compute; reflexivity|]. split; [vm_compute; reflexivity|].
  destruct (exchange_refines_rounds demo_ns (demo_peer x03) (demo_peer x04) None None
    demo_session demo_bob_session demo_accept demo_alice demo_bob demo_in_session demo_wa1 demo_bob_actor
    demo_bob_started demo_m0 demo_ra demo_rb _ _ _ _
    demo_call_started demo_call_initial eq_refl demo_bob_call_started demo_rounds_run
    demo_m0_sendable demo_ra_deliverable demo_rb_deliverable
    eq_refl eq_refl eq_refl eq_refl eq_refl eq_refl) as [Ha Hb].
  split; eexists; [exact Ha|exact Hb].
Defined.
