(* ===== verification/Live.v ===== *)
(** * The live actor

    Models [src/engine/live.rs] with the gossip state of
    [src/engine/gossip.rs]: which exchanges and downloads are started, what
    is announced, and which events are emitted.  The sync actor is the
    interface [SyncOps]; the tasks the actor has spawned and not yet joined
    are fields of its state, and what leaves the process is a log.  [Env] is
    what a handler reads of the outside: the clock, which blobs are complete,
    which event channels are open, whether joining a topic succeeds. *)
From S2P Require Import Prelude Keys Entry Heads Ranger Info Filter Replica SyncState Codec Net.

(** What the live actor asks of the sync actor; [false] and the outer [None]
    are errors. *)
Class SyncOps (W : Type) := {
  so_open : NamespaceId → W → bool * W;
  so_get_sync_peers : NamespaceId → W → option (option (list PeerIdBytes)) * W;
  so_set_sync : NamespaceId → bool → W → bool * W;
  so_unsubscribe : NamespaceId → W → bool * W;
  so_close : NamespaceId → W → bool * W;
  so_register_useful_peer : NamespaceId → PeerIdBytes → W → bool * W;
  so_has_news_for_us : NamespaceId → AuthorHeads → W → option (option nat) * W;
}.

Record SyncReport := { sr_namespace : NamespaceId; sr_heads : bytes }.
Inductive Op :=
| OpPut (entry : SignedEntry)
| OpContentReady (hash : Hash)
| OpSyncReport (report : SyncReport).

Record SyncDetails := { entries_received : nat; entries_sent : nat }.
Definition SyncDetails_from (f : SyncFinished) : SyncDetails :=
  {| entries_received := num_recv (sf_outcome f); entries_sent := num_sent (sf_outcome f) |}.
Record SyncEvent := {
  se_peer : EndpointId;
  se_origin : Origin;
  se_finished : N;
  se_started : N;
  (** the message of the error is left out *)
  se_result : option SyncDetails;
}.
Inductive LiveEvent :=
| EvContentReady (hash : Hash)
| EvNeighborUp (peer : EndpointId)
| EvNeighborDown (peer : EndpointId)
| EvSyncFinished (ev : SyncEvent)
| EvPendingContentReady.

(** ** [QueuedHashes] *)
Record QueuedHashes := {
  by_hash : gmap Hash (gset NamespaceId);
  by_namespace : gmap NamespaceId (gset Hash);
}.
Definition queued_empty : QueuedHashes := {| by_hash := ∅; by_namespace := ∅ |}.

(** [entry(k).or_default().insert(v)]. *)
Definition or_insert {K V} `{Countable K, Countable V} (k : K) (v : V) (m : gmap K (gset V))
    : gmap K (gset V) := <[k := {[v]} ∪ default ∅ (m !! k)]> m.

Definition queued_insert (hash : Hash) (namespace : NamespaceId) (q : QueuedHashes) : QueuedHashes :=
  {| by_hash := or_insert hash namespace (by_hash q);
     by_namespace := or_insert namespace hash (by_namespace q) |}.

(** The loop over the namespaces of the removed hash. *)
Fixpoint remove_from (hash : Hash) (l : list NamespaceId) (m : gmap NamespaceId (gset Hash))
    : list NamespaceId * gmap NamespaceId (gset Hash) :=
  match l with
  | [] => ([], m)
  | namespace :: l' =>
      match m !! namespace with
      | None => remove_from hash l' m
      | Some hashes =>
          let hashes := hashes ∖ {[hash]} in
          if bool_decide (hashes = ∅)
          then let '(removed, m) := remove_from hash l' (delete namespace m) in
               (namespace :: removed, m)
          else remove_from hash l' (<[namespace := hashes]> m)
      end
  end.
Definition remove_hash (hash : Hash) (q : QueuedHashes) : list NamespaceId * QueuedHashes :=
  let namespaces := default ∅ (by_hash q !! hash) in
  let '(removed, m) := remove_from hash (elements namespaces) (by_namespace q) in
  (removed, {| by_hash := delete hash (by_hash q); by_namespace := m |}).
Definition contains_hash (hash : Hash) (q : QueuedHashes) : bool :=
  match by_hash q !! hash with Some _ => true | None => false end.
Definition contains_namespace (namespace : NamespaceId) (q : QueuedHashes) : bool :=
  match by_namespace q !! namespace with Some _ => true | None => false end.

(** ** Event subscribers *)
Abbreviation SubscribersMap := (gmap NamespaceId (list ChannelId)).

Definition map_subscribe (namespace : NamespaceId) (sender : ChannelId) (m : SubscribersMap)
    : SubscribersMap := <[namespace := default [] (m !! namespace) ++ [sender]]> m.
(** Deliveries, whether someone was subscribed, and the subscribers left;
    [is_open] says which channels still take events. *)
Definition map_send (is_open : ChannelId → bool) (namespace : NamespaceId) (ev : LiveEvent)
    (m : SubscribersMap) : list (ChannelId * LiveEvent) * bool * SubscribersMap :=
  match m !! namespace with
  | None => ([], false, m)
  | Some l =>
      let l' := List.filter is_open l in
      ((λ c, (c, ev)) <$> l', true,
       match l' with [] => delete namespace m | _ => <[namespace := l']> m end)
  end.

(** ** The environment of a handler *)
Record Env := {
  ev_now : N;
  ev_complete : Hash → bool;
  ev_channel_open : ChannelId → bool;
  ev_join_ok : bool;
  ev_max_message_size : nat;
}.

Section live.
Context {W : Type} `{Crypto, !SyncOps W, Postcard (list (N * AuthorId))}.

Abbreviation SyncResult := (option SyncFinished).

Record LiveActor := {
  la_me : EndpointId;
  la_session_access : option (NamespaceId → EndpointId → SessionRole → SessionAccess);
  la_sync : W;
  la_gossip : gset NamespaceId;
  la_running_sync_connect : list (NamespaceId * EndpointId * SyncReason);
  la_running_sync_accept : list EndpointId;
  la_download_tasks : list (NamespaceId * Hash);
  la_missing_hashes : gset (NamespaceId * Hash);
  la_retry_after_failure : gset (NamespaceId * Hash);
  la_queued_hashes : QueuedHashes;
  la_hash_providers : gmap Hash (gset EndpointId);
  la_subscribers : SubscribersMap;
  la_state : gmap NamespaceId (NamespaceState SyncResult);
  la_broadcast : list (NamespaceId * Op);
  la_emitted : list (ChannelId * LiveEvent);
}.

Definition LiveActor_new (me : EndpointId)
    (access : option (NamespaceId → EndpointId → SessionRole → SessionAccess)) (w : W) : LiveActor := {|
  la_me := me; la_session_access := access; la_sync := w; la_gossip := ∅;
  la_running_sync_connect := []; la_running_sync_accept := []; la_download_tasks := [];
  la_missing_hashes := ∅; la_retry_after_failure := ∅; la_queued_hashes := queued_empty;
  la_hash_providers := ∅; la_subscribers := ∅; la_state := ∅; la_broadcast := []; la_emitted := [];
|}.

Definition update_live sync gossip connect accept downloads missing retry queued providers subs st bc em
    (a : LiveActor) : LiveActor := {|
  la_me := la_me a; la_session_access := la_session_access a; la_sync := sync; la_gossip := gossip;
  la_running_sync_connect := connect; la_running_sync_accept := accept; la_download_tasks := downloads;
  la_missing_hashes := missing; la_retry_after_failure := retry; la_queued_hashes := queued;
  la_hash_providers := providers; la_subscribers := subs; la_state := st; la_broadcast := bc;
  la_emitted := em;
|}.

(** Field updates, by groups that change together. *)
Definition set_la_sync w (a : LiveActor) : LiveActor :=
  update_live w (la_gossip a) (la_running_sync_connect a) (la_running_sync_accept a)
    (la_download_tasks a) (la_missing_hashes a) (la_retry_after_failure a) (la_queued_hashes a)
    (la_hash_providers a) (la_subscribers a) (la_state a) (la_broadcast a) (la_emitted a) a.
Definition set_la_gossip g (a : LiveActor) : LiveActor :=
  update_live (la_sync a) g (la_running_sync_connect a) (la_running_sync_accept a)
    (la_download_tasks a) (la_missing_hashes a) (la_retry_after_failure a) (la_queued_hashes a)
    (la_hash_providers a) (la_subscribers a) (la_state a) (la_broadcast a) (la_emitted a) a.
Definition set_la_dials st c (a : LiveActor) : LiveActor :=
  update_live (la_sync a) (la_gossip a) c (la_running_sync_accept a)
    (la_download_tasks a) (la_missing_hashes a) (la_retry_after_failure a) (la_queued_hashes a)
    (la_hash_providers a) (la_subscribers a) st (la_broadcast a) (la_emitted a) a.
Definition set_la_state st (a : LiveActor) : LiveActor := set_la_dials st (la_running_sync_connect a) a.
Definition set_la_accepts c (a : LiveActor) : LiveActor :=
  update_live (la_sync a) (la_gossip a) (la_running_sync_connect a) c
    (la_download_tasks a) (la_missing_hashes a) (la_retry_after_failure a) (la_queued_hashes a)
    (la_hash_providers a) (la_subscribers a) (la_state a) (la_broadcast a) (la_emitted a) a.
Definition set_la_downloads t m r q (a : LiveActor) : LiveActor :=
  update_live (la_sync a) (la_gossip a) (la_running_sync_connect a) (la_running_sync_accept a)
    t m r q (la_hash_providers a) (la_subscribers a) (la_state a) (la_broadcast a) (la_emitted a) a.
Definition set_la_providers p (a : LiveActor) : LiveActor :=
  update_live (la_sync a) (la_gossip a) (la_running_sync_connect a) (la_running_sync_accept a)
    (la_download_tasks a) (la_missing_hashes a) (la_retry_after_failure a) (la_queued_hashes a)
    p (la_subscribers a) (la_state a) (la_broadcast a) (la_emitted a) a.
Definition set_la_subscribers s em (a : LiveActor) : LiveActor :=
  update_live (la_sync a) (la_gossip a) (la_running_sync_connect a) (la_running_sync_accept a)
    (la_download_tasks a) (la_missing_hashes a) (la_retry_after_failure a) (la_queued_hashes a)
    (la_hash_providers a) s (la_state a) (la_broadcast a) em a.
Definition set_la_broadcast b (a : LiveActor) : LiveActor :=
  update_live (la_sync a) (la_gossip a) (la_running_sync_connect a) (la_running_sync_accept a)
    (la_download_tasks a) (la_missing_hashes a) (la_retry_after_failure a) (la_queued_hashes a)
    (la_hash_providers a) (la_subscribers a) (la_state a) b (la_emitted a) a.

Context (env : Env).

Definition subscribers_send (namespace : NamespaceId) (ev : LiveEvent) (a : LiveActor) : LiveActor :=
  let '(sent, _, m) := map_send (ev_channel_open env) namespace ev (la_subscribers a) in
  set_la_subscribers m (la_emitted a ++ sent) a.

(** [GossipState::broadcast_neighbors] behind the check of the sync set. *)
Definition broadcast_neighbors (namespace : NamespaceId) (op : Op) (a : LiveActor) : LiveActor :=
  if negb (is_syncing namespace (la_state a)) then a
  else if bool_decide (namespace ∈ la_gossip a)
  then set_la_broadcast (la_broadcast a ++ [(namespace, op)]) a
  else a.

Definition broadcast_local_head (namespace : NamespaceId) (entry : SignedEntry) (a : LiveActor)
    : LiveActor :=
  let author_heads := heads_insert (se_author entry) (se_timestamp entry) ∅ in
  let heads := heads_encode author_heads (Some (ev_max_message_size env)) in
  broadcast_neighbors namespace (OpSyncReport {| sr_namespace := namespace; sr_heads := heads |}) a.

(** ** Exchanges *)

(** Dial [peer]; the task it spawns is [dial_task]. *)
Definition sync_with_peer (namespace : NamespaceId) (peer : EndpointId) (reason : SyncReason)
    (a : LiveActor) : LiveActor :=
  let '(ok, st) := start_connect (ev_now env) namespace peer reason (la_state a) in
  if ok : bool
  then set_la_dials st (la_running_sync_connect a ++ [(namespace, peer, reason)]) a
  else set_la_state st a.

Definition accept_sync_request (namespace : NamespaceId) (peer : EndpointId) (a : LiveActor)
    : AcceptOutcome * LiveActor :=
  let '(o, st) := accept_request (ev_now env) (la_me a) namespace peer (la_state a) in
  (o, set_la_state st a).

(** The callback [handle_connection] is given: the engine's own decision
    first, then the access provider.  [None] is an actor that does not
    answer. *)
Definition accept_request_cb (access : option (NamespaceId → EndpointId → SessionRole → SessionAccess))
    (namespace : NamespaceId) (peer : EndpointId) (answer : option AcceptOutcome) : AcceptOutcome :=
  let outcome := default (RejectRequest InternalServerError) answer in
  match outcome, access with
  | Allow _, Some provider =>
      match provider namespace peer AcceptRole with
      | Full => Allow None
      | Filtered filter => Allow (Some filter)
      | Deny => RejectRequest NotFound
      end
  | outcome, _ => outcome
  end.

(** ** Downloads *)
Definition queue_download (namespace : NamespaceId) (hash : Hash) (only_if_missing : bool)
    (a : LiveActor) : LiveActor :=
  if ev_complete env hash then
    set_la_downloads (la_download_tasks a) (la_missing_hashes a ∖ {[(namespace, hash)]})
      (la_retry_after_failure a) (la_queued_hashes a) a
  else if contains_hash hash (la_queued_hashes a) then
    set_la_downloads (la_download_tasks a) (la_missing_hashes a) (la_retry_after_failure a)
      (queued_insert hash namespace (la_queued_hashes a)) a
  else if negb only_if_missing || bool_decide ((namespace, hash) ∈ la_missing_hashes a) then
    set_la_downloads (la_download_tasks a ++ [(namespace, hash)])
      (la_missing_hashes a ∖ {[(namespace, hash)]}) (la_retry_after_failure a)
      (queued_insert hash namespace (la_queued_hashes a)) a
  else a.

Definition start_download (namespace : NamespaceId) (hash : Hash) (node : EndpointId)
    (only_if_missing : bool) (a : LiveActor) : LiveActor :=
  queue_download namespace hash only_if_missing
    (set_la_providers (or_insert hash node (la_hash_providers a)) a).

Definition emit_pending (namespaces : list NamespaceId) (a : LiveActor) : LiveActor :=
  foldl (λ a namespace,
    let '(r, st) := may_emit_ready namespace (la_state a) in
    let a := set_la_state st a in
    if bool_decide (r = Some true) then subscribers_send namespace EvPendingContentReady a else a)
    a namespaces.

Definition on_download_ready (namespace : NamespaceId) (hash : Hash) (ok : bool) (a : LiveActor)
    : LiveActor :=
  let '(completed_namespaces, q) := remove_hash hash (la_queued_hashes a) in
  let a := set_la_downloads (la_download_tasks a) (la_missing_hashes a) (la_retry_after_failure a) q a in
  let a :=
    if ok then
      let a := set_la_downloads (la_download_tasks a) (la_missing_hashes a)
                 (base.filter (λ p, p.2 ≠ hash) (la_retry_after_failure a)) (la_queued_hashes a) a in
      let a := subscribers_send namespace (EvContentReady hash) a in
      broadcast_neighbors namespace (OpContentReady hash) a
    else
      let retry := bool_decide ((namespace, hash) ∈ la_retry_after_failure a) in
      let a := set_la_downloads (la_download_tasks a) ({[(namespace, hash)]} ∪ la_missing_hashes a)
                 (la_retry_after_failure a ∖ {[(namespace, hash)]}) (la_queued_hashes a) a in
      if retry then queue_download namespace hash true a else a in
  emit_pending completed_namespaces a.

Definition on_neighbor_content_ready (namespace : NamespaceId) (node : EndpointId) (hash : Hash)
    (a : LiveActor) : LiveActor := start_download namespace hash node true a.

(** ** The end of an exchange *)
Definition retry_parked (namespace : NamespaceId) (peer : EndpointId) (hashes : list Hash)
    (a : LiveActor) : LiveActor :=
  foldl (λ a hash, start_download namespace hash peer true a) a hashes.
Definition register_queued (namespace : NamespaceId) (peer : EndpointId) (hashes : list Hash)
    (a : LiveActor) : LiveActor :=
  foldl (λ a hash,
    start_download namespace hash peer true
      (set_la_downloads (la_download_tasks a) (la_missing_hashes a)
         ({[(namespace, hash)]} ∪ la_retry_after_failure a) (la_queued_hashes a) a)) a hashes.

(** What a success brings. *)
Definition on_sync_success (namespace : NamespaceId) (peer : EndpointId) (details : SyncFinished)
    (a : LiveActor) : LiveActor :=
  let a := set_la_sync (so_register_useful_peer namespace peer (la_sync a)).2 a in
  let queued := elements (default ∅ (by_namespace (la_queued_hashes a) !! namespace)) in
  let parked := snd <$> List.filter (λ p, bool_decide (p.1 = namespace)) (elements (la_missing_hashes a)) in
  let a := retry_parked namespace peer parked a in
  let a := register_queued namespace peer queued a in
  if 0 <? num_recv (sf_outcome details) then
    let heads := heads_encode (heads_received (sf_outcome details)) (Some (ev_max_message_size env)) in
    broadcast_neighbors namespace (OpSyncReport {| sr_namespace := namespace; sr_heads := heads |}) a
  else a.

Definition on_sync_finished (namespace : NamespaceId) (peer : EndpointId) (origin : Origin)
    (result : SyncResult) (a : LiveActor) : LiveActor :=
  let a := match result with Some details => on_sync_success namespace peer details a | None => a end in
  let '(fin, st) := finish (ev_now env) namespace peer origin result (la_state a) in
  let a := set_la_state st a in
  match fin with
  | None => a
  | Some (started, resync) =>
      let ev := {| se_peer := peer; se_origin := origin; se_finished := ev_now env;
                   se_started := started; se_result := SyncDetails_from <$> result |} in
      let a := subscribers_send namespace (EvSyncFinished ev) a in
      let a :=
        if contains_namespace namespace (la_queued_hashes a)
        then set_la_state (set_may_emit_ready namespace true (la_state a)).2 a
        else
          let a := subscribers_send namespace EvPendingContentReady a in
          set_la_state (set_may_emit_ready namespace false (la_state a)).2 a in
      if resync : bool then sync_with_peer namespace peer Resync a else a
  end.

Definition on_sync_via_connect_finished (namespace : NamespaceId) (peer : EndpointId)
    (reason : SyncReason) (result : result ConnectError SyncFinished) (a : LiveActor) : LiveActor :=
  match result with
  | Err (CnRemoteAbort AlreadySyncing) =>
      set_la_state (abort_connect namespace peer reason (la_state a)).2 a
  | res => on_sync_finished namespace peer (OrConnect reason)
             (match res with Ok f => Some f | _ => None end) a
  end.

Definition on_sync_via_accept_finished (res : result AcceptError SyncFinished) (a : LiveActor)
    : LiveActor :=
  match res with
  | Ok state => on_sync_finished (sf_namespace state) (sf_peer state) OrAccept (Some state) a
  | Err (AeAbort _ _ AlreadySyncing) => a
  | Err err =>
      match AcceptError_peer err, AcceptError_namespace err with
      | Some peer, Some namespace => on_sync_finished namespace peer OrAccept None a
      | _, _ => a
      end
  | Panic => a
  end.

(** ** Reports and replica events *)
Definition on_sync_report (from : EndpointId) (report : SyncReport) (a : LiveActor) : LiveActor :=
  let namespace := sr_namespace report in
  if negb (is_syncing namespace (la_state a)) then a
  else match heads_decode (sr_heads report) with
       | None => a
       | Some heads =>
           let '(news, w) := so_has_news_for_us namespace heads (la_sync a) in
           let a := set_la_sync w a in
           match news with
           | Some (Some _) => sync_with_peer namespace from ReasonSyncReport a
           | _ => a
           end
       end.

Definition on_replica_event (ev : Event) (a : LiveActor) : LiveActor :=
  match ev with
  | LocalInsert namespace entry =>
      if is_syncing namespace (la_state a) then broadcast_local_head namespace entry a else a
  | RemoteInsert namespace entry from should_download remote_content_status =>
      if should_download then
        let hash := se_content_hash entry in
        match remote_content_status with
        | Complete =>
            match pk_from_bytes from with
            | Some _ => start_download namespace hash from false a
            | None => a
            end
        | _ => set_la_downloads (la_download_tasks a) ({[(namespace, hash)]} ∪ la_missing_hashes a)
                 (la_retry_after_failure a) (la_queued_hashes a) a
        end
      else a
  end.

(** ** Joining and leaving *)

(** [None] is an error of joining the topic; the address book is left out. *)
Definition join_peers (namespace : NamespaceId) (peers : list EndpointId) (join_gossip : bool)
    (a : LiveActor) : bool * LiveActor :=
  let '(ok, a) :=
    if join_gossip then
      if ev_join_ok env then (true, set_la_gossip ({[namespace]} ∪ la_gossip a) a) else (false, a)
    else (true, a) in
  if ok : bool
  then (true, foldl (λ a peer, sync_with_peer namespace peer DirectJoin a) a peers)
  else (false, a).

Definition start_sync (namespace : NamespaceId) (peers : list EndpointId) (join_gossip : bool)
    (a : LiveActor) : bool * LiveActor :=
  let '(ok, a) :=
    if is_syncing namespace (la_state a) then (true, a)
    else
      let '(ok, w) := so_open namespace (la_sync a) in
      let a := set_la_sync w a in
      if ok : bool then (true, set_la_state (states_insert namespace (la_state a)) a) else (false, a) in
  if negb ok then (false, a)
  else
    let '(known, w) := so_get_sync_peers namespace (la_sync a) in
    let a := set_la_sync w a in
    let peers := match known with
                 | Some (Some known_useful_peers) =>
                     peers ++ List.filter (λ b, bool_decide (is_Some (pk_from_bytes b))) known_useful_peers
                 | _ => peers
                 end in
    join_peers namespace peers join_gossip a.

Definition leave_gossip (namespace : NamespaceId) (a : LiveActor) : LiveActor :=
  set_la_gossip (la_gossip a ∖ {[namespace]}) a.

(** An operation of the sync actor whose failure ends the handler. *)
Definition sync_try (op : W → bool * W) (k : LiveActor → bool * LiveActor) (a : LiveActor)
    : bool * LiveActor :=
  let '(ok, w) := op (la_sync a) in
  if ok : bool then k (set_la_sync w a) else (false, set_la_sync w a).

Definition leave (namespace : NamespaceId) (kill_subscribers : bool) (a : LiveActor) : bool * LiveActor :=
  let finish_leave a := (true, if kill_subscribers
    then set_la_subscribers (delete namespace (la_subscribers a)) (la_emitted a) a else a) in
  let '(removed, st) := states_remove namespace (la_state a) in
  let a := set_la_state st a in
  if removed : bool then
    sync_try (so_set_sync namespace false)
      (sync_try (so_unsubscribe namespace)
        (sync_try (so_close namespace) (λ a, finish_leave (leave_gossip namespace a)))) a
  else finish_leave a.

(** ** Messages *)
Inductive ToLiveActor :=
| TlStartSync (namespace : NamespaceId) (peers : list EndpointId) (join_gossip : bool)
| TlLeave (namespace : NamespaceId) (kill_subscribers : bool)
| TlLeaveGossip (namespace : NamespaceId)
| TlSubscribe (namespace : NamespaceId) (sender : ChannelId)
| TlHandleConnection (peer : EndpointId)
| TlAcceptSyncRequest (namespace : NamespaceId) (peer : EndpointId)
| TlIncomingSyncReport (from : EndpointId) (report : SyncReport)
| TlNeighborContentReady (namespace : NamespaceId) (node : EndpointId) (hash : Hash)
| TlNeighborUp (namespace : NamespaceId) (peer : EndpointId)
| TlNeighborDown (namespace : NamespaceId) (peer : EndpointId).

Definition on_actor_message (msg : ToLiveActor) (a : LiveActor) : LiveActor :=
  match msg with
  | TlIncomingSyncReport from report => on_sync_report from report a
  | TlNeighborUp namespace peer =>
      subscribers_send namespace (EvNeighborUp peer) (sync_with_peer namespace peer NewNeighbor a)
  | TlNeighborDown namespace peer => subscribers_send namespace (EvNeighborDown peer) a
  | TlStartSync namespace peers join_gossip => (start_sync namespace peers join_gossip a).2
  | TlLeave namespace kill_subscribers => (leave namespace kill_subscribers a).2
  | TlLeaveGossip namespace => leave_gossip namespace a
  | TlSubscribe namespace sender =>
      set_la_subscribers (map_subscribe namespace sender (la_subscribers a)) (la_emitted a) a
  | TlHandleConnection peer => set_la_accepts (la_running_sync_accept a ++ [peer]) a
  | TlAcceptSyncRequest namespace peer => (accept_sync_request namespace peer a).2
  | TlNeighborContentReady namespace node hash => on_neighbor_content_ready namespace node hash a
  end.

(** ** The loop

    One turn: a message, a replica event, a task that ended - taken out of
    its set - or a gossip receive loop that ended. *)
Inductive LiveTurn :=
| LtMessage (msg : ToLiveActor)
| LtReplicaEvent (ev : Event)
| LtConnectDone (i : nat) (res : result ConnectError SyncFinished)
| LtAcceptDone (i : nat) (res : result AcceptError SyncFinished)
| LtDownloadDone (i : nat) (ok : bool)
| LtGossipEnded (namespace : NamespaceId).

Definition live_turn (t : LiveTurn) (a : LiveActor) : LiveActor :=
  match t with
  | LtMessage msg => on_actor_message msg a
  | LtReplicaEvent ev => on_replica_event ev a
  | LtConnectDone i res =>
      match la_running_sync_connect a !! i with
      | None => a
      | Some (namespace, peer, reason) =>
          on_sync_via_connect_finished namespace peer reason res
            (set_la_dials (la_state a) (base.delete i (la_running_sync_connect a)) a)
      end
  | LtAcceptDone i res =>
      match la_running_sync_accept a !! i with
      | None => a
      | Some _ =>
          on_sync_via_accept_finished res
            (set_la_accepts (base.delete i (la_running_sync_accept a)) a)
      end
  | LtDownloadDone i ok =>
      match la_download_tasks a !! i with
      | None => a
      | Some (namespace, hash) =>
          on_download_ready namespace hash ok
            (set_la_downloads (base.delete i (la_download_tasks a)) (la_missing_hashes a)
              (la_retry_after_failure a) (la_queued_hashes a) a)
      end
  | LtGossipEnded namespace => leave_gossip namespace a
  end.

(** What [shutdown] leaves. *)
Definition live_shutdown (a : LiveActor) : LiveActor :=
  set_la_gossip ∅ (set_la_subscribers ∅ (la_emitted a) a).
End live.
Arguments LiveActor : clear implicits.

(** ** The dial task and the gossip receive loop *)
Section tasks.
Context {W SessionId : Type} `{Postcard WireMessage, !SyncService W SessionId}.

(** The task [sync_with_peer] spawns: the access provider decides what the
    peer may see before anything is dialed. *)
Definition dial_task (access : option (NamespaceId → EndpointId → SessionRole → SessionAccess))
    (su : Setup) (td : Teardown) (namespace : NamespaceId) (peer : EndpointId) (c : Conn (W:=W))
    : result ConnectError SyncFinished * Conn :=
  let access := match access with
                | None => Full
                | Some provider => provider namespace peer DialRole
                end in
  match access with
  | Deny => (Err (CnSync CaDenied), c)
  | Full => connect_and_sync su td namespace peer None c
  | Filtered filter => connect_and_sync su td namespace peer (Some filter) c
  end.

Inductive GossipEvent :=
| GeReceived (op : Op) (delivered_from : EndpointId)
| GeNeighborUp (peer : EndpointId)
| GeNeighborDown (peer : EndpointId)
| GeLagged.

(** What the receive loop of a topic passes on to the live actor. *)
Definition receive_event (namespace : NamespaceId) (ev : GossipEvent) : option ToLiveActor :=
  match ev with
  | GeLagged => None
  | GeReceived (OpPut _) _ => None
  | GeReceived (OpContentReady hash) from => Some (TlNeighborContentReady namespace from hash)
  | GeReceived (OpSyncReport report) from => Some (TlIncomingSyncReport from report)
  | GeNeighborUp peer => Some (TlNeighborUp namespace peer)
  | GeNeighborDown peer => Some (TlNeighborDown namespace peer)
  end.

(** The whole loop: who is there already, then the events; [None] is a message
    that does not decode, which ends the loop. *)
Fixpoint receive_events (namespace : NamespaceId) (events : list (option GossipEvent))
    : list ToLiveActor :=
  match events with
  | [] | None :: _ => []
  | Some ev :: events =>
      match receive_event namespace ev with Some msg => [msg] | None => [] end
      ++ receive_events namespace events
  end.
Definition receive_loop (namespace : NamespaceId) (neighbors : list EndpointId)
    (events : list (option GossipEvent)) : list ToLiveActor :=
  (TlNeighborUp namespace <$> neighbors) ++ receive_events namespace events.
End tasks.
