(* ===== verification/SyncHandle.v ===== *)
(** * The handle of the sync actor

    Models [SyncHandle] of [src/actor.rs]: every method builds an action, puts
    it in the queue, and takes its reply out of the channel the action
    carries.  The actor's housekeeping runs before the action.  A reply of
    another method's kind would be a panic of the model; [handle_is_faithful]
    shows that there is none, and that every method performs exactly the
    operation of the same name. *)
From S2P Require Import Prelude Redb Keys Entry Heads Query Bounds Ranger Info Store StoreInstance Filter QueryIter Replica SyncState Net Actor Live.

Section handle.
Context `{Redb, Crypto, Postcard DownloadPolicy}.
Abbreviation AM := (ST Actor ActorErr).
Implicit Types (ns : NamespaceId).

(** [now] is the clock of the actor's loop when it takes the action. *)
Definition send (now : N) (action : Action) : AM Reply := λ a,
  match actor_turn (TnAction now action) a with
  | (Some r, a') => (r, a')
  | (None, a') => (Panic, a')
  end.
Definition send_replica (now : N) (namespace : NamespaceId) (action : ReplicaAction) : AM Reply :=
  send now (AcReplica namespace action).

(** [rx.await]: the reply, by the type of the channel. *)
Definition receive {A} (sel : Reply → option A) (m : AM Reply) : AM A :=
  r ← m; match sel r with Some x => mret x | None => st_panic end.
Definition receive_unit : AM Reply → AM unit :=
  receive (λ r, match r with RpUnit => Some tt | _ => None end).

Definition handle_open now ns (opts : OpenOpts) : AM unit :=
  receive_unit (send_replica now ns (RaOpen opts)).
Definition handle_close now ns : AM bool :=
  receive (λ r, match r with RpBool b => Some b | _ => None end) (send_replica now ns RaClose).
Definition handle_subscribe now ns (sender : ChannelId) : AM unit :=
  receive_unit (send_replica now ns (RaSubscribe sender)).
Definition handle_unsubscribe now ns (sender : ChannelId) : AM unit :=
  receive_unit (send_replica now ns (RaUnsubscribe sender)).
Definition handle_set_sync now ns (sync : bool) : AM unit :=
  receive_unit (send_replica now ns (RaSetSync sync)).
(** [created] and [time] are the two clock reads of the insertion. *)
Definition handle_insert_local now (created time : N) ns (author : AuthorId) (key : bytes) (hash : Hash)
    (len : N) : AM unit :=
  receive_unit (send_replica now ns (RaInsertLocal created time author key hash len)).
Definition handle_delete_prefix now (created time : N) ns (author : AuthorId) (key : bytes) : AM nat :=
  receive (λ r, match r with RpCount n => Some n | _ => None end)
    (send_replica now ns (RaDeletePrefix created time author key)).
Definition handle_insert_remote now (time : N) ns (entry : SignedEntry) (from : PeerIdBytes)
    (content_status : ContentStatus) : AM unit :=
  receive_unit (send_replica now ns (RaInsertRemote time entry from content_status)).
Definition handle_sync_session_start now ns : AM SyncSessionId :=
  receive (λ r, match r with RpSession id => Some id | _ => None end)
    (send_replica now ns RaSyncSessionStart).
Definition handle_sync_initial_message now ns (session : SyncSessionId) (filter : option EntryFilter)
    : AM (Message SignedEntry RecordIdentifier RejectId) :=
  receive (λ r, match r with RpMessage m => Some m | _ => None end)
    (send_replica now ns (RaSyncInitialMessage session filter)).
Definition handle_sync_process_message now (time : N) ns
    (message : Message SignedEntry RecordIdentifier RejectId) (from : PeerIdBytes) (state : SyncOutcome)
    (session : SyncSessionId) (filter : option EntryFilter)
    : AM (option (Message SignedEntry RecordIdentifier RejectId) * SyncOutcome) :=
  receive (λ r, match r with RpProcessed m s => Some (m, s) | _ => None end)
    (send_replica now ns (RaSyncProcessMessage time message from state session filter)).
Definition handle_get_sync_peers now ns : AM (option (list PeerIdBytes)) :=
  receive (λ r, match r with RpPeers l => Some l | _ => None end) (send_replica now ns RaGetSyncPeers).
Definition handle_register_useful_peer now (nanos : N) ns (peer : PeerIdBytes) : AM unit :=
  receive_unit (send_replica now ns (RaRegisterUsefulPeer nanos peer)).
Definition handle_has_news_for_us now ns (heads : AuthorHeads) : AM (option nat) :=
  receive (λ r, match r with RpNews n => Some n | _ => None end)
    (send_replica now ns (RaHasNewsForUs heads)).
(** The entries are streamed over a channel of the caller's own. *)
Definition handle_get_many now ns (query : Query) : AM QueryIterator :=
  receive (λ r, match r with RpEntries it => Some it | _ => None end)
    (send_replica now ns (RaGetMany query)).
Definition handle_get_exact now ns (author : AuthorId) (key : bytes) (include_empty : bool)
    : AM (option SignedEntry) :=
  receive (λ r, match r with RpEntry e => Some e | _ => None end)
    (send_replica now ns (RaGetExact author key include_empty)).
Definition handle_retract_entry now ns (author : AuthorId) (key : bytes) (up_to_timestamp : N) : AM bool :=
  receive (λ r, match r with RpBool b => Some b | _ => None end)
    (send_replica now ns (RaRetractEntry author key up_to_timestamp)).
Definition handle_drop_replica now ns : AM unit := receive_unit (send_replica now ns RaDropReplica).
Definition handle_export_secret_key now ns : AM NamespaceSecret :=
  receive (λ r, match r with RpSecret n => Some n | _ => None end) (send_replica now ns RaExportSecretKey).
Definition handle_get_state now ns : AM OpenState :=
  receive (λ r, match r with RpState s => Some s | _ => None end) (send_replica now ns RaGetState).
Definition handle_list_authors now : AM (list AuthorId) :=
  receive (λ r, match r with RpAuthors l => Some l | _ => None end) (send now AcListAuthors).
Definition handle_list_replicas now : AM (list (option (NamespaceId * CapabilityKind))) :=
  receive (λ r, match r with RpReplicas l => Some l | _ => None end) (send now AcListReplicas).
Definition handle_import_author now (author : Author) : AM AuthorId :=
  receive (λ r, match r with RpAuthorId id => Some id | _ => None end) (send now (AcImportAuthor author)).
Definition handle_export_author now (author : AuthorId) : AM (option Author) :=
  receive (λ r, match r with RpAuthor a => Some a | _ => None end) (send now (AcExportAuthor author)).
Definition handle_delete_author now (author : AuthorId) : AM unit :=
  receive_unit (send now (AcDeleteAuthor author)).
Definition handle_import_namespace now (capability : Capability) : AM NamespaceId :=
  receive (λ r, match r with RpNamespace id => Some id | _ => None end)
    (send now (AcImportNamespace capability)).
Definition handle_get_download_policy now ns : AM DownloadPolicy :=
  receive (λ r, match r with RpPolicy p => Some p | _ => None end)
    (send_replica now ns RaGetDownloadPolicy).
Definition handle_set_download_policy now ns (policy : DownloadPolicy) : AM unit :=
  receive_unit (send_replica now ns (RaSetDownloadPolicy policy)).
Definition handle_content_hashes now : AM (list Hash) :=
  receive (λ r, match r with RpHashes l => Some l | _ => None end) (send now AcContentHashes).
Definition handle_flush_store now : AM unit := receive_unit (send now AcFlushStore).

(** ** Faithfulness *)

(** [m] is the operation [op] after the housekeeping of the loop. *)
Definition performs {A} (now : N) (m op : AM A) : Prop :=
  ∀ a, m a = op (reclaim_abandoned_sessions now a).2.

Lemma receive_performs {A B} now action (f : A → Reply) (sel : Reply → option B) (g : A → B) (op : AM A) :
  on_action action = reply_with f op → (∀ x, sel (f x) = Some (g x)) →
  performs now (receive sel (send now action)) (x ← op; mret (g x)).
Proof.
  intros Ha Hsel a. unfold receive, send, actor_turn, mbind, ST_bind. rewrite Ha. unfold reply_with, mbind, ST_bind.
  destruct (op _) as [[x|e|] a']; [|done|done]. simpl. by rewrite Hsel.
Qed.
Lemma bind_ret {A} (op : AM A) a : (x ← op; mret x) a = op a.
Proof. unfold mbind, ST_bind. by destruct (op a) as [[]]. Qed.
Lemma receive_performs_id {A} now action (f : A → Reply) (sel : Reply → option A) (op : AM A) :
  on_action action = reply_with f op → (∀ x, sel (f x) = Some x) →
  performs now (receive sel (send now action)) op.
Proof.
  intros Ha Hsel a. rewrite (receive_performs now action f sel id op Ha Hsel). apply bind_ret.
Qed.

(** The handle is faithful.  Every method sends its own action with its
    own arguments and receives the reply of that action: its effect and its
    result, errors included, are those of the actor's operation, after the
    housekeeping of the actor's loop. *)
Theorem handle_is_faithful now ns :
  (∀ opts, performs now (handle_open now ns opts) (actor_open ns opts))
  ∧ performs now (handle_close now ns) (actor_close ns)
  ∧ (∀ c, performs now (handle_subscribe now ns c) (on_subscribe ns c))
  ∧ (∀ c, performs now (handle_unsubscribe now ns c) (on_unsubscribe ns c))
  ∧ (∀ b, performs now (handle_set_sync now ns b) (on_set_sync ns b))
  ∧ (∀ created time author key hash len,
       performs now (handle_insert_local now created time ns author key hash len)
         (on_insert_local created time ns author key hash len))
  ∧ (∀ created time author key, performs now (handle_delete_prefix now created time ns author key)
         (on_delete_prefix created time ns author key))
  ∧ (∀ time entry from status, performs now (handle_insert_remote now time ns entry from status)
         (on_insert_remote time ns entry from status))
  ∧ performs now (handle_sync_session_start now ns) (on_sync_session_start ns)
  ∧ (∀ id f, performs now (handle_sync_initial_message now ns id f) (on_sync_initial_message ns id f))
  ∧ (∀ time m from st id f, performs now (handle_sync_process_message now time ns m from st id f)
         (on_sync_process_message time ns m from st id f))
  ∧ performs now (handle_get_sync_peers now ns) (on_get_sync_peers ns)
  ∧ (∀ t p, performs now (handle_register_useful_peer now t ns p) (on_register_useful_peer t ns p))
  ∧ (∀ q, performs now (handle_get_many now ns q) (on_get_many ns q))
  ∧ (∀ author key b, performs now (handle_get_exact now ns author key b) (on_get_exact ns author key b))
  ∧ (∀ author key t, performs now (handle_retract_entry now ns author key t) (on_retract_entry ns author key t))
  ∧ performs now (handle_drop_replica now ns) (on_drop_replica ns)
  ∧ performs now (handle_export_secret_key now ns) (on_export_secret_key ns)
  ∧ performs now (handle_get_state now ns) (on_get_state ns)
  ∧ (∀ c, performs now (handle_import_namespace now c) (on_import_namespace c))
  ∧ (∀ heads, performs now (handle_has_news_for_us now ns heads) (actor_store AcStore (has_news_for_us ns heads)))
  ∧ (∀ p, performs now (handle_set_download_policy now ns p) (actor_store AcStore (set_download_policy ns p)))
  ∧ performs now (handle_get_download_policy now ns) (actor_store AcStore (get_download_policy ns))
  ∧ (∀ author, performs now (handle_export_author now author) (actor_store AcStore (get_author author)))
  ∧ (∀ author, performs now (handle_delete_author now author) (actor_store AcStore (delete_author author)))
  ∧ performs now (handle_list_replicas now) (actor_store AcStore list_namespaces)
  ∧ performs now (handle_content_hashes now) (actor_store AcStore content_hashes)
  ∧ performs now (handle_flush_store now) (actor_store AcStore flush)
  ∧ (∀ author, performs now (handle_import_author now author)
         (_ ← actor_store AcStore (import_author author); mret (Author_id author)))
  ∧ performs now (handle_list_authors now)
      (l ← actor_store AcStore list_authors; mret (Author_id <$> l)).
Proof.
  split_and!; intros;
    first [by eapply receive_performs_id; [reflexivity|intros []||intros]
          |by eapply (receive_performs _ _ (λ _, RpAuthorId (Author_id author)) _ (λ _, Author_id author))
          |by eapply (receive_performs _ _ (λ l, RpAuthors (Author_id <$> l)) _ (λ l, Author_id <$> l))].
Qed.

(** ** The sync actor of the live actor

    [ch] is the channel of the replica events. *)
Definition answer {A} (r : result ActorErr A) : option A := match r with Ok x => Some x | _ => None end.

Definition actor_sync_ops (now nanos : N) (ch : ChannelId) : SyncOps Actor := {|
  so_open ns a := let '(r, a') := handle_open now ns (opts_subscribe ch (opts_sync OpenOpts_default)) a in
    (is_ok r, a');
  so_get_sync_peers ns a := let '(r, a') := handle_get_sync_peers now ns a in (answer r, a');
  so_set_sync ns b a := let '(r, a') := handle_set_sync now ns b a in (is_ok r, a');
  so_unsubscribe ns a := let '(r, a') := handle_unsubscribe now ns ch a in (is_ok r, a');
  so_close ns a := let '(r, a') := handle_close now ns a in (is_ok r, a');
  so_register_useful_peer ns p a :=
    let '(r, a') := handle_register_useful_peer now nanos ns p a in (is_ok r, a');
  so_has_news_for_us ns h a := let '(r, a') := handle_has_news_for_us now ns h a in (answer r, a');
|}.
End handle.
