(* ===== verification/AuthorsInv.v ===== *)
(** * What happens to the authors

    Every operation of the store other than importing and deleting an author,
    and so every operation of a replica, of a sync session, of the sync actor
    and of its handle, leaves the table of authors as it is: a property [U]
    of the tables that depends on the authors only holds after it, whatever
    its outcome. *)
From S2P Require Import Prelude Redb Keys Entry Heads Query Bounds Ranger Info Store StoreInstance Filter QueryIter Replica Actor ActorInv Live SyncHandle.

Section authors.
Context `{RedbOk, Crypto, Postcard DownloadPolicy}.
Context (U : Tables → Prop) (HU : ∀ t t', authors t' = authors t → U t → U t').

Definition store_keeps (s : Store) : Prop := store_wf s ∧ U (view s).

(** ** The store *)
Lemma keeps_step s s' : store_keeps s → bookkeeping s s' → view s' = view s → store_keeps s'.
Proof. intros [_ Hu] Hb Hv. split; [apply Hb|by rewrite Hv]. Qed.

Lemma keeps_modify {A} (f : ST Tables StoreErr A) : preserves U f → preserves store_keeps (modify f).
Proof.
  intros Hf s [Hwf Hu]. destruct (modify_spec f s Hwf) as (s' & Hm & Hv & Hb).
  rewrite Hm. split; [apply Hb|]. simpl. rewrite Hv. by apply Hf.
Qed.
Lemma keeps_tables : preserves store_keeps tables.
Proof.
  intros s Hs. destruct (tables_spec s (proj1 Hs)) as (t & s' & Ht & _ & Hv & Hb).
  rewrite Ht. by eapply keeps_step.
Qed.
Lemma keeps_flush : preserves store_keeps flush.
Proof.
  intros s Hs. destruct (flush_spec s (proj1 Hs)) as (s' & Hf & _ & Hv & _ & Hb).
  rewrite Hf. by eapply keeps_step.
Qed.
Lemma keeps_snapshot : preserves store_keeps snapshot.
Proof.
  intros s Hs. destruct (snapshot_spec s (proj1 Hs)) as (s' & Hf & Hv & _ & Hb).
  rewrite Hf. by eapply keeps_step.
Qed.
Lemma keeps_snapshot_owned : preserves store_keeps snapshot_owned.
Proof.
  intros s Hs. destruct (snapshot_owned_spec s (proj1 Hs)) as (s' & Hf & Hv & _ & Hb).
  rewrite Hf. by eapply keeps_step.
Qed.
Lemma keeps_rest (f : Store → Store) : (∀ s, store_keeps s → store_keeps (f s)) →
  preserves (E:=StoreErr) store_keeps (st_modify f).
Proof. intros Hf. by apply pr_modify. Qed.

Lemma keeps_tables_modify (f : Tables → Tables) : (∀ t, authors (f t) = authors t) →
  preserves (E:=StoreErr) U (st_modify f).
Proof. intros Hf. apply pr_modify. intros t. apply HU, Hf. Qed.

Ltac keeps_ops :=
  preserves_auto;
  repeat first [ apply keeps_tables | apply keeps_flush | apply keeps_snapshot | apply keeps_snapshot_owned
        | apply keeps_modify; preserves_auto | apply keeps_tables_modify; by intros ? ].

Lemma keeps_get_author a : preserves store_keeps (get_author a).
Proof. unfold get_author. keeps_ops. Qed.
Lemma keeps_list_authors : preserves store_keeps list_authors.
Proof. unfold list_authors. keeps_ops. Qed.
Lemma keeps_list_namespaces : preserves store_keeps list_namespaces.
Proof. unfold list_namespaces. keeps_ops. Qed.
Lemma keeps_content_hashes : preserves store_keeps content_hashes.
Proof. unfold content_hashes. keeps_ops. Qed.
Lemma keeps_get_sync_peers ns : preserves store_keeps (get_sync_peers ns).
Proof. unfold get_sync_peers. keeps_ops. Qed.
Lemma keeps_get_exact ns a k b : preserves store_keeps (get_exact ns a k b).
Proof. unfold get_exact. keeps_ops. Qed.
Lemma keeps_get_many ns q : preserves store_keeps (get_many ns q).
Proof. unfold get_many. keeps_ops. Qed.
Lemma keeps_has_news ns h : preserves store_keeps (has_news_for_us ns h).
Proof. unfold has_news_for_us, get_latest_for_each_author. keeps_ops. Qed.
Lemma keeps_get_download_policy ns : preserves store_keeps (get_download_policy ns).
Proof. unfold get_download_policy. keeps_ops. Qed.
Lemma keeps_set_download_policy ns p : preserves store_keeps (set_download_policy ns p).
Proof. unfold set_download_policy. keeps_ops. Qed.
Lemma keeps_register_useful_peer t ns p : preserves store_keeps (register_useful_peer t ns p).
Proof. unfold register_useful_peer. keeps_ops. Qed.
Lemma keeps_retract_entry ns a k b : preserves store_keeps (retract_entry ns a k b).
Proof. unfold retract_entry. keeps_ops. Qed.
Lemma keeps_import_namespace c : preserves store_keeps (import_namespace c).
Proof. unfold import_namespace. keeps_ops. Qed.
Lemma keeps_remove_replica ns : preserves store_keeps (remove_replica ns).
Proof. unfold remove_replica. keeps_ops. Qed.
Lemma keeps_load_replica_info ns : preserves store_keeps (load_replica_info ns).
Proof.
  intros s Hs. unfold load_replica_info. pose proof (keeps_tables s Hs) as Ht.
  destruct (tables s) as [[t|e|] s1]; [|done..]. simpl in Ht.
  destruct (tbl_get (namespaces t) ns) as [v|]; [|done]. by destruct (parse_capability v).
Qed.
Lemma keeps_close_replica ns : preserves store_keeps (close_replica ns).
Proof. unfold close_replica. by apply pr_modify. Qed.

(** ** The instance of a replica *)
Definition inst_keeps (i : StoreInstance) : Prop := store_keeps (si_store i).

Lemma inst_keeps_store {A} (m : ST Store StoreErr A) :
  preserves store_keeps m → preserves inst_keeps (on_store m).
Proof. intros Hm. by apply (pr_zoom _ store_keeps). Qed.
Lemma inst_keeps_read : preserves inst_keeps read_records.
Proof. unfold read_records. preserves_auto. apply inst_keeps_store, keeps_tables. Qed.
Lemma inst_keeps_get_first : preserves inst_keeps inst_get_first.
Proof. unfold inst_get_first. preserves_auto. apply inst_keeps_read. Qed.
Lemma inst_keeps_get_range r : preserves inst_keeps (inst_get_range r).
Proof. unfold inst_get_range. preserves_auto. apply inst_keeps_read. Qed.
Lemma inst_keeps_get_fingerprint r : preserves inst_keeps (inst_get_fingerprint r).
Proof. unfold inst_get_fingerprint. preserves_auto. apply inst_keeps_get_range. Qed.
Lemma inst_keeps_prefixes_of k : preserves inst_keeps (inst_prefixes_of k).
Proof. unfold inst_prefixes_of. preserves_auto. apply inst_keeps_store, keeps_tables. Qed.
Lemma inst_keeps_entry_put e : preserves inst_keeps (inst_entry_put e).
Proof.
  apply inst_keeps_store, keeps_modify. intros t. rewrite entry_put_tables_run. by apply HU.
Qed.
Lemma inst_keeps_remove k f : preserves inst_keeps (inst_remove_prefix_filtered k f).
Proof.
  apply inst_keeps_store, keeps_modify. intros t. rewrite st_get_bind.
  destruct (tbl_extract_from_if _ _ _) as [removed r]. by apply HU.
Qed.

(** ** Sessions *)
Definition session_keeps (ss : SessionStore StoreInstance) : Prop := inst_keeps (ss_inner ss).

Lemma on_inner_keeps {A} (m : ST StoreInstance StoreErr A) :
  preserves inst_keeps m → preserves session_keeps (on_inner m).
Proof. intros Hm. by apply (pr_zoom _ inst_keeps). Qed.
Lemma ss_keeps_get_range r : preserves session_keeps (ss_get_range r).
Proof. unfold ss_get_range. preserves_auto. apply on_inner_keeps, inst_keeps_get_range. Qed.
Lemma ss_keeps_get_first : preserves session_keeps ss_get_first.
Proof.
  unfold ss_get_first. preserves_auto;
    first [apply on_inner_keeps, inst_keeps_get_range|apply on_inner_keeps, inst_keeps_get_first].
Qed.
Lemma ss_keeps_get_fingerprint r : preserves session_keeps (ss_get_fingerprint r).
Proof.
  unfold ss_get_fingerprint. preserves_auto;
    first [apply ss_keeps_get_range|apply on_inner_keeps, inst_keeps_get_fingerprint].
Qed.
Lemma process_message_keeps {W} config validate_cb on_insert_cb content_status_cb m :
  preserves (both_inv session_keeps (λ _ : W, True))
    (process_message (R:=RejectId) config validate_cb on_insert_cb content_status_cb m).
Proof.
  apply process_message_preserves; try done.
  - apply ss_keeps_get_fingerprint.
  - intros e. apply on_inner_keeps, inst_keeps_entry_put.
  - apply ss_keeps_get_range.
  - intros k. apply on_inner_keeps, inst_keeps_prefixes_of.
  - intros k f. apply on_inner_keeps, inst_keeps_remove.
Qed.

(** ** Replicas *)
Definition replica_keeps (r : Replica) : Prop := inst_keeps (rp_store r).

Lemma keeps_on_instance {A} (m : ST StoreInstance StoreErr A) :
  preserves inst_keeps m → preserves replica_keeps (on_instance m).
Proof.
  intros Hm r Hr. unfold on_instance. specialize (Hm _ Hr). by destruct (m (rp_store r)) as [x i].
Qed.
Lemma keeps_policy_or_default ns : preserves replica_keeps (download_policy_or_default ns).
Proof.
  intros r Hr. unfold download_policy_or_default.
  pose proof (inst_keeps_store _ (keeps_get_download_policy ns) _ Hr) as Hq.
  by destruct (on_store (get_download_policy ns) (rp_store r)) as [[p|e|] i].
Qed.
Lemma keeps_notify ev : preserves replica_keeps (notify ev).
Proof. intros r Hr. unfold notify. by destruct (subs_send ev _ _) as [subs w]. Qed.
Lemma keeps_put e : preserves inst_keeps (put e).
Proof.
  apply put_preserves; [apply inst_keeps_entry_put|apply inst_keeps_prefixes_of|apply inst_keeps_remove].
Qed.
Lemma keeps_insert_entry now e origin : preserves replica_keeps (insert_entry now e origin).
Proof.
  unfold insert_entry. preserves_auto;
    first [apply keeps_on_instance, keeps_put|apply keeps_notify|apply keeps_policy_or_default].
Qed.
Lemma keeps_insert created now key author hash len :
  preserves replica_keeps (insert created now key author hash len).
Proof. unfold insert, replica_ensure_open. preserves_auto. apply keeps_insert_entry. Qed.
Lemma keeps_delete_prefix created now key author :
  preserves replica_keeps (delete_prefix created now key author).
Proof. unfold delete_prefix, replica_ensure_open. preserves_auto. apply keeps_insert_entry. Qed.
Lemma keeps_insert_remote now e from st : preserves replica_keeps (insert_remote_entry now e from st).
Proof. unfold insert_remote_entry, replica_ensure_open. preserves_auto. apply keeps_insert_entry. Qed.
Lemma keeps_sync_initial f : preserves replica_keeps (sync_initial_message f).
Proof.
  intros r Hr. unfold sync_initial_message. destruct (ensure_open (rp_info r)); [|done..].
  assert (preserves session_keeps (initial_message (Err:=StoreErr) (E:=SignedEntry) (R:=RejectId))) as Hm.
  { apply initial_message_preserves; [apply ss_keeps_get_first|apply ss_keeps_get_fingerprint]. }
  specialize (Hm (SessionStore_new (rp_store r) f) Hr).
  by destruct (initial_message (SessionStore_new (rp_store r) f)) as [x s].
Qed.
Lemma keeps_sync_process now m from filter st :
  preserves replica_keeps (with_outcome st (sync_process_message now m from filter)).
Proof.
  intros r Hr. unfold with_outcome, sync_process_message.
  destruct (ensure_open (rp_info r)); [|done..].
  pose proof (keeps_policy_or_default (replica_id r) r Hr) as Hq.
  destruct (download_policy_or_default (replica_id r) r) as [[p|e|] r1]; [|done..]. simpl in Hq.
  set (w := observe_rejections _ _ _ _ _).
  pose proof (process_message_keeps SyncConfig_default
    (sync_validate now (replica_id r) from (i_capability_validator (rp_info r)))
    (sync_on_insert (replica_id r) from p)
    (λ _, sync_content_status (i_content_status_cb (rp_info r))) m
    (SessionStore_new (rp_store r1) filter, (i_subscribers (rp_info r), w)) (conj Hq I)) as [Hp _].
  by destruct (process_message _ _ _ _ m _) as [[[reply|]|e|] [s' [subs w']]].
Qed.

(** ** The sync actor *)
Definition actor_keeps (a : Actor) : Prop := store_keeps (ac_store a).

Lemma ak_store {E A} (f : E → ActorErr) (m : ST Store E A) :
  preserves store_keeps m → preserves actor_keeps (actor_store f m).
Proof. intros Hm a Ha. unfold actor_store. specialize (Hm _ Ha). by destruct (m (ac_store a)). Qed.
Lemma ak_get_open ns : preserves actor_keeps (get_open ns).
Proof. by intros a Ha. Qed.
Lemma ak_put_open ns o : preserves actor_keeps (put_open ns o).
Proof. by apply pr_modify. Qed.
Lemma ak_ensure_open ns : preserves actor_keeps (states_ensure_open ns).
Proof. by intros a Ha. Qed.
Lemma ak_run_replica {E A} ns mk (f : E → ActorErr) (m : ST Replica E A) :
  (∀ n s, si_store (mk n s) = s) → preserves replica_keeps m →
  preserves actor_keeps (run_replica ns mk f m).
Proof.
  intros Hmk Hm. unfold run_replica. preserves_auto; [apply ak_get_open|]. intros st Ha.
  unfold replica_step. set (r0 := Replica_new _ _ _).
  assert (replica_keeps r0) as Hr0 by (unfold replica_keeps, inst_keeps; simpl; by rewrite Hmk).
  specialize (Hm r0 Hr0). by destruct (m r0).
Qed.
Lemma ak_replica_if_syncing {E A} ns snap (f : E → ActorErr) (m : ST Replica E A) :
  preserves replica_keeps m → preserves actor_keeps (replica_if_syncing ns snap f m).
Proof.
  intros Hm. unfold replica_if_syncing, ensure_syncing. preserves_auto; [apply ak_get_open|].
  by apply ak_run_replica.
Qed.
Lemma ak_session_replica {E A} ns id (f : E → ActorErr) (m : ST Replica E A) :
  preserves replica_keeps m → preserves actor_keeps (session_replica ns id f m).
Proof. intros Hm. unfold session_replica. preserves_auto. by apply ak_replica_if_syncing. Qed.
Lemma ak_close ns : preserves actor_keeps (actor_close ns).
Proof.
  unfold actor_close, states_close. preserves_auto;
    first [by apply pr_modify|apply ak_put_open|apply ak_store, keeps_close_replica].
Qed.
Lemma ak_open ns opts : preserves actor_keeps (actor_open ns opts).
Proof.
  unfold actor_open, open_with, actor_open_cb. preserves_auto;
    first [apply ak_put_open|apply ak_store, keeps_load_replica_info].
Qed.
Lemma ak_get_author id : preserves actor_keeps (actor_get_author id).
Proof. unfold actor_get_author. preserves_auto. apply ak_store, keeps_get_author. Qed.
Lemma ak_reclaim now : preserves actor_keeps (reclaim_abandoned_sessions now).
Proof. unfold reclaim_abandoned_sessions. preserves_auto; by apply pr_modify. Qed.

Lemma ak_replica_action ns act : preserves actor_keeps (on_replica_action ns act).
Proof.
  destruct act; cbn [on_replica_action]; unfold reply_unit; apply reply_with_preserves;
    unfold on_get_state, on_set_sync, on_subscribe, on_unsubscribe, on_insert_local, on_delete_prefix,
      on_retract_entry, on_insert_remote, on_sync_session_start, ensure_syncing, on_sync_initial_message,
      on_sync_process_message, on_get_sync_peers, on_register_useful_peer, on_get_exact, on_get_many,
      on_drop_replica, on_export_secret_key, replica; preserves_auto;
    first [ apply ak_open | apply ak_close | apply ak_get_open | apply ak_put_open | apply ak_get_author
          | apply ak_ensure_open
          | apply ak_run_replica; [done|]; first [apply keeps_insert|apply keeps_delete_prefix]
          | apply ak_replica_if_syncing, keeps_insert_remote
          | apply ak_session_replica, keeps_sync_initial | apply ak_session_replica, keeps_sync_process
          | by apply pr_modify
          | apply ak_store; first [ apply keeps_retract_entry | apply keeps_snapshot_owned
              | apply keeps_get_sync_peers | apply keeps_register_useful_peer | apply keeps_get_exact
              | apply keeps_get_many | apply keeps_remove_replica | apply keeps_has_news
              | apply keeps_set_download_policy | apply keeps_get_download_policy ] ].
Qed.

(** An action that is not about the authors, or respects [U]. *)
Definition action_respects (act : Action) : Prop :=
  match act with
  | AcImportAuthor a => ∀ t, U t → U (set_authors (tbl_insert (authors t) (Author_id a) (Author_to_bytes a)) t)
  | AcDeleteAuthor id => ∀ t, U t → U (set_authors (tbl_remove (authors t) id) t)
  | _ => True
  end.

Lemma ak_action act : action_respects act → preserves actor_keeps (on_action act).
Proof.
  intros Hact. destruct act; cbn [on_action]; unfold reply_unit;
    [| | | | | | | |apply ak_replica_action|]; apply reply_with_preserves;
    first [ apply ak_store, keeps_get_author | apply ak_store, keeps_list_authors
          | apply ak_store, keeps_list_namespaces | apply ak_store, keeps_content_hashes
          | apply ak_store, keeps_flush | idtac ].
  - apply ak_store, keeps_modify, pr_modify, Hact.
  - apply ak_store, keeps_modify, pr_modify, Hact.
  - unfold on_import_namespace. preserves_auto;
      first [apply ak_store, keeps_import_namespace|apply ak_put_open].
  - unfold on_sync_session_end. preserves_auto; by apply pr_modify.
Qed.

(** ** The handle *)
Lemma ak_handle {A} (sel : Reply → option A) now act : action_respects act →
  preserves actor_keeps (receive sel (send now act)).
Proof.
  intros Hact. unfold receive. preserves_auto; intros a Ha; unfold send; simpl.
  pose proof (ak_action act Hact _ (ak_reclaim now a Ha)) as Hk.
  by destruct (on_action act _) as [r a'].
Qed.
End authors.
