(* ===== verification/Engine.v ===== *)
(** * The engine

    Models [src/engine.rs]: the default author and where it is kept, the
    requests the engine passes to the sync actor and the live actor, the
    events its subscribers see, and the callback that protects the content of
    documents from garbage collection.  The sync actor is the state of Actor,
    reached through its handle (SyncHandle); the live actor is Live's, over
    that state. *)
From Stdlib Require Import String.
From S2P Require Import Prelude Redb Keys Entry Heads Query Bounds Ranger Info Store StoreInstance Filter QueryIter Replica SyncState Codec Net Actor Live SyncHandle Texts.

Section engine.
Context `{Redb, Crypto, Hex, Postcard DownloadPolicy, Postcard (list (N * AuthorId))}.

(** What becomes of writing a file: it creates or truncates the file and then
    writes the text.  Everything is written; or the file cannot be opened,
    and is as it was; or the write fails after the first [n] characters. *)
Inductive WriteResult := WrWritten | WrNotOpened | WrCut (n : nat).
Definition write_ok (w : WriteResult) : bool := match w with WrWritten => true | _ => false end.
Definition write_file (w : WriteResult) (text : string) (file : option string) : option string :=
  match w with
  | WrWritten => Some text
  | WrNotOpened => file
  | WrCut n => Some (substring 0 n text)
  end.

(** What an operation reads outside: the clocks, the bytes the random
    generator yields next, whether the file system obeys, and the outside of
    the live actor. *)
Record EngineEnv := {
  ee_now : N;
  ee_created : N;
  ee_time : N;
  ee_nanos : N;
  ee_random : arr32;
  ee_read_ok : bool;
  ee_write : WriteResult;
  ee_replica_events : ChannelId;
  ee_live : Env;
}.

Inductive EngineErr :=
| EeActor (e : ActorErr)
| EeReadFile
| EeParse (e : ParseKeyError)
| EeMissingAuthor
| EeWriteFile
| EeAuthorDoesNotExist
| EeLive.

(** ** The default author

    [dd_file] is the content of the file at the path of the storage. *)
Inductive DefaultAuthorStorage := DsMem | DsPersistent.
Record DefaultDisk := { dd_sync : Actor; dd_file : option string }.
Abbreviation DM := (ST DefaultDisk EngineErr).
Definition set_dd_sync (a : Actor) (d : DefaultDisk) : DefaultDisk :=
  {| dd_sync := a; dd_file := dd_file d |}.
Definition set_dd_file (f : option string) (d : DefaultDisk) : DefaultDisk :=
  {| dd_sync := dd_sync d; dd_file := f |}.
Definition on_sync {A} (m : ST Actor ActorErr A) : DM A := λ d,
  let '(r, a) := m (dd_sync d) in (map_err EeActor r, set_dd_sync a d).

(** [Author::new]. *)
Definition Author_new (random : arr32) : Author := Author_from_bytes random.
Definition NamespaceSecret_new (random : arr32) : NamespaceSecret := NamespaceSecret_from_bytes random.

Definition storage_persist (env : EngineEnv) (self : DefaultAuthorStorage) (author_id : AuthorId) : DM unit :=
  match self with
  | DsMem => mret tt
  | DsPersistent =>
      _ ← st_modify (λ d, set_dd_file (write_file (ee_write env) (AuthorId_display author_id) (dd_file d)) d);
      st_ensure (write_ok (ee_write env)) EeWriteFile
  end.

Definition storage_load (env : EngineEnv) (self : DefaultAuthorStorage) : DM AuthorId :=
  match self with
  | DsMem =>
      let author := Author_new (ee_random env) in
      let author_id := Author_id author in
      _ ← on_sync (handle_import_author (ee_now env) author);
      mret author_id
  | DsPersistent =>
      file ← st_gets dd_file;
      match file with
      | Some data =>
          _ ← st_ensure (ee_read_ok env) EeReadFile;
          author_id ← st_lift (map_err EeParse (AuthorId_from_str data));
          author ← on_sync (handle_export_author (ee_now env) author_id);
          match author with
          | None => st_err EeMissingAuthor
          | Some _ => mret author_id
          end
      | None =>
          let author := Author_new (ee_random env) in
          let author_id := Author_id author in
          _ ← on_sync (handle_import_author (ee_now env) author);
          _ ← on_sync (handle_flush_store (ee_now env));
          _ ← storage_persist env self author_id;
          mret author_id
      end
  end.

(** [DefaultAuthor]; its storage is part of the engine. *)
Record Engine := {
  en_live : LiveActor Actor;
  en_default_author : AuthorId;
  en_storage : DefaultAuthorStorage;
  en_file : option string;
}.
Definition en_sync (e : Engine) : Actor := la_sync (en_live e).
Definition set_en_live (l : LiveActor Actor) (e : Engine) : Engine :=
  {| en_live := l; en_default_author := en_default_author e; en_storage := en_storage e;
     en_file := en_file e |}.
Definition set_en_sync (a : Actor) (e : Engine) : Engine := set_en_live (set_la_sync a (en_live e)) e.
Definition en_disk (e : Engine) : DefaultDisk := {| dd_sync := en_sync e; dd_file := en_file e |}.
Definition set_en_disk (d : DefaultDisk) (e : Engine) : Engine :=
  {| en_live := set_la_sync (dd_sync d) (en_live e); en_default_author := en_default_author e;
     en_storage := en_storage e; en_file := dd_file d |}.

Abbreviation EM := (ST Engine EngineErr).
Definition sync_op {A} (m : ST Actor ActorErr A) : EM A := λ e,
  let '(r, a) := m (en_sync e) in (map_err EeActor r, set_en_sync a e).

Definition default_author_get : EM AuthorId := st_gets en_default_author.
Definition default_author_set (env : EngineEnv) (author_id : AuthorId) : EM unit :=
  author ← sync_op (handle_export_author (ee_now env) author_id);
  match author with
  | None => st_err EeAuthorDoesNotExist
  | Some _ =>
      storage ← st_gets en_storage;
      _ ← st_zoom en_disk set_en_disk (storage_persist env storage author_id);
      st_modify (λ e, {| en_live := en_live e; en_default_author := author_id;
                         en_storage := en_storage e; en_file := en_file e |})
  end.

(** ** Starting

    The actors, then the default author; without it the sync actor is shut
    down again. *)
Inductive BlobStatus := BsComplete | BsPartial | BsNotFound.
(** [None] is an error of the blob store. *)
Definition entry_to_content_status (entry : option BlobStatus) : ContentStatus :=
  match entry with
  | Some BsComplete => Complete
  | Some BsPartial => Incomplete
  | Some BsNotFound => Missing
  | None => Missing
  end.

Definition Engine_spawn (env : EngineEnv) (actor : Actor) (me : EndpointId)
    (access : option (NamespaceId → EndpointId → SessionRole → SessionAccess))
    (storage : DefaultAuthorStorage) (file : option string)
    : result EngineErr Engine * DefaultDisk :=
  let '(r, d) := storage_load env storage {| dd_sync := actor; dd_file := file |} in
  match r with
  | Ok author =>
      (Ok {| en_live := LiveActor_new me access (dd_sync d); en_default_author := author;
             en_storage := storage; en_file := dd_file d |}, d)
  | Err e => (Err e, set_dd_sync (actor_shutdown (dd_sync d)).2 d)
  | Panic => (Panic, d)
  end.

(** ** Requests to the live actor

    The operations of the sync actor that the live actor calls are made with
    the readings of the request; [false] is an error. *)
Definition sync_ops (env : EngineEnv) : SyncOps Actor :=
  actor_sync_ops (ee_now env) (ee_nanos env) (ee_replica_events env).
Definition live_op (f : LiveActor Actor → bool * LiveActor Actor) : EM unit := λ e,
  let '(ok, l) := f (en_live e) in
  ((if ok : bool then Ok tt else Err EeLive), set_en_live l e).

Definition engine_start_sync (env : EngineEnv) (namespace : NamespaceId) (peers : list EndpointId) : EM unit :=
  live_op (start_sync (SyncOps0 := sync_ops env) (ee_live env) namespace peers true).
Definition engine_start_sync_scoped (env : EngineEnv) (namespace : NamespaceId) (peers : list EndpointId)
    : EM unit :=
  live_op (start_sync (SyncOps0 := sync_ops env) (ee_live env) namespace peers false).
Definition engine_leave (env : EngineEnv) (namespace : NamespaceId) (kill_subscribers : bool) : EM unit :=
  live_op (leave (SyncOps0 := sync_ops env) namespace kill_subscribers).
Definition engine_leave_gossip (namespace : NamespaceId) : EM unit :=
  live_op (λ l, (true, leave_gossip namespace l)).
Definition engine_handle_connection (env : EngineEnv) (peer : EndpointId) : EM unit :=
  live_op (λ l, (true, on_actor_message (SyncOps0 := sync_ops env) (ee_live env) (TlHandleConnection peer) l)).

(** The two channels of a subscriber: replica events, then live events. *)
Definition engine_subscribe (env : EngineEnv) (namespace : NamespaceId) (a b : ChannelId) : EM unit :=
  _ ← sync_op (handle_subscribe (ee_now env) namespace a);
  live_op (λ l, (true, on_actor_message (SyncOps0 := sync_ops env) (ee_live env) (TlSubscribe namespace b) l)).

(** ** Events *)
Inductive EngineEvent :=
| EgInsertLocal (entry : Entry)
| EgInsertRemote (from : PublicKey) (entry : Entry) (content_status : ContentStatus)
| EgContentReady (hash : Hash)
| EgPendingContentReady
| EgNeighborUp (peer : EndpointId)
| EgNeighborDown (peer : EndpointId)
| EgSyncFinished (ev : SyncEvent).

Definition EngineEvent_from_live (ev : LiveEvent) : EngineEvent :=
  match ev with
  | EvContentReady hash => EgContentReady hash
  | EvNeighborUp peer => EgNeighborUp peer
  | EvNeighborDown peer => EgNeighborDown peer
  | EvSyncFinished ev => EgSyncFinished ev
  | EvPendingContentReady => EgPendingContentReady
  end.
(** The status is asked for when the event is read; [None] is a sender id
    that is no public key. *)
Definition EngineEvent_from_replica (content_status_cb : Hash → ContentStatus) (ev : Event)
    : option EngineEvent :=
  match ev with
  | LocalInsert _ entry => Some (EgInsertLocal (se_entry entry))
  | RemoteInsert _ entry from _ _ =>
      from ← pk_from_bytes from;
      Some (EgInsertRemote from (se_entry entry) (content_status_cb (se_content_hash entry)))
  end.

(** ** Protecting content from garbage collection *)
Inductive ProtectOutcome := PoContinue | PoAbort.

(** What the task of the engine sends for one request: every content hash,
    or the error of asking for them ([None]). *)
Definition protect_task (env : EngineEnv) : EM (list (option Hash)) := λ e,
  let '(r, a) := handle_content_hashes (ee_now env) (en_sync e) in
  let e := set_en_sync a e in
  match r with
  | Ok hashes => (Ok (Some <$> hashes), e)
  | _ => (Ok [None], e)
  end.

(** The callback, on what arrives before the channel is closed; the outer
    [None] is a task that does not answer. *)
Fixpoint protect_receive (msgs : list (option Hash)) (live : gset Hash) : ProtectOutcome * gset Hash :=
  match msgs with
  | [] => (PoContinue, live)
  | None :: _ => (PoAbort, live)
  | Some hash :: msgs => protect_receive msgs ({[hash]} ∪ live)
  end.
Definition protect_cb (reply : option (list (option Hash))) (live : gset Hash) : ProtectOutcome * gset Hash :=
  match reply with None => (PoAbort, live) | Some msgs => protect_receive msgs live end.
End engine.
