(* ===== verification/EngineFacts.v ===== *)
(** * The engine: facts

    The default author, from the first start to the one after a crash, and
    the protection of the content of documents from garbage collection. *)
From Stdlib Require Import String.
From S2P Require Import Prelude Redb Keys Entry Heads Query Bounds Ranger Info Store StoreInstance Filter QueryIter Replica SyncState Codec Net Actor ActorInv ActorSessions Live SyncHandle Texts Engine.

(** ** What the handle's store operations do *)
Section handle_store.
Context `{RedbOk, CryptoOk, Postcard DownloadPolicy}.
Implicit Types (a : Actor).

Definition author_at (t : Tables) (author : AuthorId) : option Author :=
  Author_from_bytes <$> tbl_get (authors t) author.
Definition actor_view a : Tables := view (ac_store a).
Definition actor_committed a : Tables := committed (ac_store a).
Definition actor_store_wf a : Prop := store_wf (ac_store a).

Lemma reclaim_store now a : ac_store (reclaim_abandoned_sessions now a).2 = ac_store a.
Proof.
  unfold reclaim_abandoned_sessions. rewrite st_get_bind. destruct (bool_decide _); [done|].
  by destruct (_ <? _)%N.
Qed.

Lemma performs_store {A} now (h : ST Actor ActorErr A) (m : ST Store StoreErr A) a Q :
  performs now h (actor_store AcStore m) → wp m (ac_store a) Q →
  wp h a (λ x a', Q x (ac_store a')).
Proof.
  intros Hp (x & s & Hm & HQ). exists x, (set_ac_store s (reclaim_abandoned_sessions now a).2).
  rewrite Hp. unfold actor_store. rewrite reclaim_store, Hm. by split.
Qed.

Lemma handle_export_author_wp now author a : actor_store_wf a →
  wp (handle_export_author now author) a
    (λ x a', x = author_at (actor_view a) author ∧ actor_view a' = actor_view a ∧ actor_store_wf a'
             ∧ bookkeeping (ac_store a) (ac_store a')).
Proof.
  intros Hwf. apply (performs_store now _ (get_author author) a
    (λ x s, x = author_at (actor_view a) author ∧ view s = actor_view a ∧ store_wf s
            ∧ bookkeeping (ac_store a) s)).
  - by eapply receive_performs_id.
  - destruct (tables_spec _ Hwf) as (t & s & Ht & -> & Hv & Hb).
    eexists _, s. split; [unfold get_author, mbind, ST_bind; by rewrite Ht|].
    split_and!; [done|done|apply Hb|done].
Qed.

Definition import_tables (author : Author) (t : Tables) : Tables :=
  set_authors (tbl_insert (authors t) (Author_id author) (Author_to_bytes author)) t.

Lemma author_at_import author t author_id :
  author_at (import_tables author t) author_id =
  if eqb (Author_id author) author_id then Some author else author_at t author_id.
Proof.
  unfold author_at. simpl. rewrite tbl_get_insert by apply _.
  destruct (eqb _ _); [|done]. simpl. destruct author as [sk]. unfold Author_from_bytes, Author_to_bytes.
  simpl. by rewrite sk_from_to.
Qed.

Lemma handle_import_author_wp now author a : actor_store_wf a →
  wp (handle_import_author now author) a
    (λ x a', x = Author_id author ∧ actor_view a' = import_tables author (actor_view a)
             ∧ actor_store_wf a' ∧ bookkeeping (ac_store a) (ac_store a')).
Proof.
  intros Hwf. destruct (modify_run (st_modify (import_tables author)) _ (Ok tt) _ Hwf eq_refl)
    as (s & Hm & Hv & Hb).
  exists (Author_id author), (set_ac_store s (reclaim_abandoned_sessions now a).2).
  unfold handle_import_author.
  rewrite (receive_performs now (AcImportAuthor author) (λ _ : unit, RpAuthorId (Author_id author)) _
    (λ _, Author_id author) (actor_store AcStore (import_author author)) eq_refl (λ _, eq_refl)).
  unfold mbind, ST_bind, actor_store. rewrite reclaim_store. unfold import_author, import_tables in *.
  rewrite Hm. split; [done|]. split_and!; [done|done|apply Hb|done].
Qed.

Lemma handle_flush_store_wp now a : actor_store_wf a →
  wp (handle_flush_store now) a
    (λ _ a', actor_view a' = actor_view a ∧ actor_committed a' = actor_view a ∧ actor_store_wf a').
Proof.
  intros Hwf. apply (performs_store now _ flush a
    (λ _ s, view s = actor_view a ∧ committed s = actor_view a ∧ store_wf s)).
  - eapply receive_performs_id; [reflexivity|by intros []].
  - destruct (flush_spec _ Hwf) as (s & Hf & _ & Hv & Hc & Hb).
    exists tt, s. split; [done|]. split_and!; [done|done|apply Hb].
Qed.

Lemma handle_content_hashes_wp now a : actor_store_wf a →
  wp (handle_content_hashes now) a
    (λ l a', (∀ h, h ∈ l ↔ ∃ p v, tbl_get (records (actor_view a)) p = Some v
                               ∧ h = se_content_hash (into_entry p v))
             ∧ actor_view a' = actor_view a ∧ actor_store_wf a').
Proof.
  intros Hwf. apply (performs_store now _ content_hashes a
    (λ l s, (∀ h, h ∈ l ↔ ∃ p v, tbl_get (records (actor_view a)) p = Some v
                               ∧ h = se_content_hash (into_entry p v))
             ∧ view s = actor_view a ∧ store_wf s)).
  - by eapply receive_performs_id.
  - destruct (snapshot_owned_spec _ Hwf) as (s & Hf & Hv & _ & Hb).
    eexists _, s. split; [unfold content_hashes; st_red; by rewrite Hf|].
    split; [|by split; [|apply Hb]]. intros h. rewrite list_elem_of_fmap. split.
    + intros ([p v] & -> & Hin). exists p, v. split; [|done].
      by apply (tbl_iter_get _ _ _ p v).
    + intros (p & v & Hin & ->). exists (p, v). split; [done|]. by apply (tbl_iter_get _ _ _ p v).
Qed.
End handle_store.

(** ** The default author *)
Section default_author.
Context `{RedbOk, CryptoOk, HexOk, Postcard DownloadPolicy}.
Implicit Types (d : DefaultDisk) (author : AuthorId).

Definition disk_ok d : Prop := actor_store_wf (dd_sync d).
Definition disk_view d : Tables := actor_view (dd_sync d).
Definition disk_committed d : Tables := actor_committed (dd_sync d).
(** A start after a crash: what was committed is visible, nothing else, and
    the file is as it was. *)
Definition restarted d d' : Prop :=
  disk_ok d' ∧ disk_view d' = disk_committed d ∧ dd_file d' = dd_file d.

Lemma on_sync_wp {A} (m : ST Actor ActorErr A) d Q :
  wp m (dd_sync d) Q → wp (on_sync m) d (λ x d', Q x (dd_sync d') ∧ dd_file d' = dd_file d).
Proof.
  intros (x & a & Hm & HQ). exists x, (set_dd_sync a d). unfold on_sync. by rewrite Hm.
Qed.

(** What loading answers when there is a file with the text [data]. *)
Definition load_answer (env : EngineEnv) (data : string) (t : Tables) : result EngineErr AuthorId :=
  if ee_read_ok env then
    match AuthorId_from_str data with
    | Ok author => if author_at t author then Ok author else Err EeMissingAuthor
    | Err e => Err (EeParse e)
    | Panic => Panic
    end
  else Err EeReadFile.

Lemma load_file env d data : disk_ok d → dd_file d = Some data →
  ∃ d', storage_load env DsPersistent d = (load_answer env data (disk_view d), d')
    ∧ disk_view d' = disk_view d ∧ dd_file d' = Some data ∧ disk_ok d'.
Proof.
  intros Hok Hf. unfold storage_load, load_answer. st_red. rewrite Hf. st_red.
  destruct (ee_read_ok env); st_red; [|by exists d].
  destruct (AuthorId_from_str data) as [author|e|]; st_red; [|by exists d..].
  destruct (on_sync_wp _ _ _ (handle_export_author_wp (ee_now env) author _ Hok))
    as (x & d' & Hd & (-> & Hv & Hok' & _) & Hf'). cbn [map_err]. rewrite Hd.
  exists d'. split; [|split_and!; [done|congruence|done]]. fold (disk_view d). by destruct (author_at (disk_view d) author).
Qed.

Lemma load_answer_text env author t : ee_read_ok env = true →
  is_Some (pk_from_bytes author) →
  load_answer env (AuthorId_display author) t =
    if author_at t author then Ok author else Err EeMissingAuthor.
Proof. intros Hr [pk Hp]. unfold load_answer. by rewrite Hr, author_id_text, Hp. Qed.

Lemma author_id_valid (a : Author) : is_Some (pk_from_bytes (Author_id a)).
Proof. unfold Author_id. rewrite pk_from_as. eauto. Qed.

(** The first start: the author is committed before its id is written. *)
Lemma load_first env d : disk_ok d → dd_file d = None →
  let a := Author_new (ee_random env) in
  ∃ d', storage_load env DsPersistent d =
      ((if write_ok (ee_write env) then Ok (Author_id a) else Err EeWriteFile), d')
    ∧ dd_file d' = write_file (ee_write env) (AuthorId_display (Author_id a)) None
    ∧ disk_view d' = import_tables a (disk_view d) ∧ disk_committed d' = disk_view d' ∧ disk_ok d'.
Proof.
  intros Hok Hf a. unfold storage_load, storage_persist. st_red. rewrite Hf. fold a.
  destruct (on_sync_wp _ _ _ (handle_import_author_wp (ee_now env) a _ Hok))
    as (? & d1 & Hd1 & (_ & Hv1 & Hok1 & _) & Hf1). rewrite Hd1. st_red.
  destruct (on_sync_wp _ _ _ (handle_flush_store_wp (ee_now env) _ Hok1))
    as (? & d2 & Hd2 & (Hv2 & Hc2 & Hok2) & Hf2). rewrite Hd2. st_red.
  assert (disk_view d2 = import_tables a (disk_view d)) as Hv by (unfold disk_view; congruence).
  assert (disk_committed d2 = disk_view d2) as Hc by (unfold disk_view, disk_committed; congruence).
  assert (dd_file d2 = None) as Hf3 by congruence. rewrite Hf3.
  by destruct (ee_write env); st_red; eexists; (split; [done|]).
Qed.

(** Every author is stored under its own id. *)
Definition authors_wf (t : Tables) : Prop := ∀ id (author : Author), author_at t id = Some author → Author_id author = id.

Lemma authors_wf_eq t t' : authors t' = authors t → authors_wf t → authors_wf t'.
Proof. intros Heq. unfold authors_wf, author_at. by rewrite Heq. Qed.
Lemma authors_wf_import (author : Author) t : authors_wf t → authors_wf (import_tables author t).
Proof.
  intros Hwf id x. rewrite author_at_import. destruct (eqb (Author_id author) id) eqn:Hq; [|apply Hwf].
  intros [= <-]. by apply eqb_eq.
Qed.
Lemma authors_wf_delete id t : authors_wf t → authors_wf (set_authors (tbl_remove (authors t) id) t).
Proof.
  intros Hwf id' x. unfold author_at. simpl. rewrite tbl_get_remove by apply _.
  destruct (eqb id id'); [done|]. apply Hwf.
Qed.

(** The file of a persistent storage names the author. *)
Definition file_names (storage : DefaultAuthorStorage) (file : option string) (author : AuthorId) : Prop :=
  storage = DsPersistent → ∃ data, file = Some data ∧ AuthorId_from_str data = Ok author.
Lemma file_names_text storage (a : Author) :
  file_names storage (Some (AuthorId_display (Author_id a))) (Author_id a).
Proof. intros _. eexists. split; [done|]. rewrite author_id_text. unfold Author_id. by rewrite pk_from_as. Qed.

(** An author that loading answers is stored, and named by the file. *)
Lemma load_stored env storage d author d' : disk_ok d → storage_load env storage d = (Ok author, d') →
  disk_ok d' ∧ is_Some (author_at (disk_view d') author)
  ∧ (authors_wf (disk_view d) → authors_wf (disk_view d')) ∧ file_names storage (dd_file d') author.
Proof.
  intros Hok Hl. destruct storage; [|destruct (dd_file d) as [data|] eqn:Hf].
  - unfold storage_load in Hl.
    destruct (on_sync_wp _ _ _ (handle_import_author_wp (ee_now env) (Author_new (ee_random env)) _ Hok))
      as (? & d1 & Hd1 & (_ & Hv1 & Hok1 & _) & _). unfold mbind, ST_bind in Hl. rewrite Hd1 in Hl.
    injection Hl as <- <-. unfold disk_view. rewrite Hv1, author_at_import, eqb_refl.
    split_and!; [done|done|apply authors_wf_import|done].
  - destruct (load_file env d data Hok Hf) as (d1 & Hl1 & Hv & Hf1 & Hok1). rewrite Hl in Hl1.
    injection Hl1 as Ha <-. rewrite Hv, Hf1. unfold load_answer in Ha.
    destruct (ee_read_ok env), (AuthorId_from_str data) as [b|e|] eqn:Hp; try done.
    destruct (author_at (disk_view d) b) as [x|] eqn:Hx; [|done]. injection Ha as ->.
    rewrite Hx. split_and!; [done|done|done|]. intros _. by exists data.
  - destruct (load_first env d Hok Hf) as (d1 & Hl1 & Hf1 & Hv & _ & Hok1). rewrite Hl in Hl1.
    destruct (ee_write env); [|done..]. injection Hl1 as -> <-.
    rewrite Hv, Hf1, author_at_import, eqb_refl. split_and!; [done|done|apply authors_wf_import|apply file_names_text].
Qed.

(** The default author is never a dangling reference after the first
    start.  With no file, loading makes a new author, commits it to the store
    and then writes its id: whether the file could be written or not, the
    author is committed; if it was written, loading again - in whatever store
    shows what was committed at the crash - answers the same author.  If it
    could not be opened, there is still no file. *)
Theorem default_author_survives_crash env d :
  disk_ok d → dd_file d = None →
  let a := Author_new (ee_random env) in
  ∃ d', storage_load env DsPersistent d =
      ((if write_ok (ee_write env) then Ok (Author_id a) else Err EeWriteFile), d')
    ∧ author_at (disk_committed d') (Author_id a) = Some a
    ∧ match ee_write env with
      | WrWritten => ∀ env' d1, ee_read_ok env' = true → restarted d' d1 →
          ∃ d2, storage_load env' DsPersistent d1 = (Ok (Author_id a), d2)
      | WrNotOpened => dd_file d' = None
      | WrCut n => dd_file d' = Some (substring 0 n (AuthorId_display (Author_id a)))
      end.
Proof.
  intros Hok Hf a. destruct (load_first env d Hok Hf) as (d' & Hl & Hf' & Hv & Hc & _).
  exists d'. split; [done|].
  assert (author_at (disk_committed d') (Author_id a) = Some a) as Ha.
  { rewrite Hc, Hv, author_at_import. fold a. by rewrite eqb_refl. }
  split; [done|]. destruct (ee_write env); [|done..]. intros env' d1 Hr (Hok1 & Hv1 & Hf1).
  destruct (load_file env' d1 _ Hok1 (eq_trans Hf1 Hf')) as (d2 & Hl2 & _).
  exists d2. rewrite Hl2, load_answer_text by (done || apply author_id_valid). fold a. by rewrite Hv1, Ha.
Qed.

(** The answers of loading the default author from a file: an error for a
    file that cannot be read or holds no author id, an error for an author
    that the store does not have, else that author; neither the store nor the
    file changes. *)
Theorem default_author_load_spec env d data : disk_ok d → dd_file d = Some data →
  ∃ d', storage_load env DsPersistent d = (load_answer env data (disk_view d), d')
    ∧ disk_view d' = disk_view d ∧ dd_file d' = Some data.
Proof.
  intros Hok Hf. destruct (load_file env d data Hok Hf) as (d' & Hl & Hv & Hf' & _). by exists d'.
Qed.
End default_author.

(** ** Changing the default author *)
Section default_author_set.
Context `{RedbOk, CryptoOk, HexOk, Postcard DownloadPolicy, Postcard (list (N * AuthorId))}.
Implicit Types (e : Engine).

Lemma sync_op_wp {A} (m : ST Actor ActorErr A) e Q :
  wp m (en_sync e) Q → wp (sync_op m) e (λ x e', ∃ a, Q x a ∧ e' = set_en_sync a e).
Proof.
  intros (x & a & Hm & HQ). exists x, (set_en_sync a e). unfold sync_op. rewrite Hm. eauto.
Qed.

Definition default_author_set_result (env : EngineEnv) (author : AuthorId) e : result EngineErr unit :=
  match author_at (actor_view (en_sync e)) author with
  | None => Err EeAuthorDoesNotExist
  | Some _ =>
      match en_storage e with
      | DsMem => Ok tt
      | DsPersistent => if write_ok (ee_write env) then Ok tt else Err EeWriteFile
      end
  end.

Lemma default_author_set_run env author e : actor_store_wf (en_sync e) →
  ∃ e', default_author_set env author e = (default_author_set_result env author e, e')
    ∧ actor_store_wf (en_sync e') ∧ actor_view (en_sync e') = actor_view (en_sync e)
    ∧ (actor_committed (en_sync e') = actor_committed (en_sync e)
       ∨ actor_committed (en_sync e') = actor_view (en_sync e))
    ∧ en_storage e' = en_storage e
    ∧ en_default_author e' = (if is_ok (default_author_set_result env author e) then author else en_default_author e)
    ∧ en_file e' =
        match author_at (actor_view (en_sync e)) author, en_storage e with
        | Some _, DsPersistent => write_file (ee_write env) (AuthorId_display author) (en_file e)
        | _, _ => en_file e
        end.
Proof.
  intros Hwf. unfold default_author_set, default_author_set_result, storage_persist. st_red.
  destruct (sync_op_wp _ e _ (handle_export_author_wp (ee_now env) author _ Hwf))
    as (x & e' & Hx & a & (-> & Hv & Hw & Hb) & ->).
  rewrite Hx. st_red.
  pose proof (bk_committed _ _ Hb) as Hc.
  destruct (author_at (actor_view (en_sync e)) author) as [x|];
    [destruct e as [l da [] f]; [|destruct (ee_write env)]|]; eexists; (split; [reflexivity|]); simpl; auto 10.
Qed.

(** Changing the default author does not keep the promise of the first
    start.  Setting it writes the id of an author that the store has into the
    file, and flushes nothing: if the author is not committed at that moment,
    a start after a crash finds an id whose author is missing, and fails -
    at every such start, whatever the rest of the environment. *)
Theorem default_author_set_dangles env env' (a : Author) e d :
  actor_store_wf (en_sync e) → en_storage e = DsPersistent → ee_write env = WrWritten →
  author_at (actor_view (en_sync e)) (Author_id a) = Some a →
  ee_read_ok env' = true →
  let '(r, e') := default_author_set env (Author_id a) e in
  restarted (en_disk e') d →
  r = Ok tt
  ∧ (storage_load env' DsPersistent d).1 =
      if author_at (actor_committed (en_sync e')) (Author_id a) then Ok (Author_id a)
      else Err EeMissingAuthor.
Proof.
  intros Hwf Hs Hw Ha Hr. destruct (default_author_set_run env (Author_id a) e Hwf) as (e' & He & _ & _ & _ & _ & Hp).
  rewrite He. unfold default_author_set_result in *. rewrite Ha, Hs, Hw in *. destruct Hp as [_ Hf]. simpl in Hf.
  intros (Hok & Hv & Hf'). split; [done|].
  destruct (load_file env' d _ Hok (eq_trans Hf' Hf)) as (d' & -> & _). simpl.
  rewrite load_answer_text by (done || apply author_id_valid). by rewrite Hv.
Qed.

(** A write of the file that is cut short is worse.  Setting the default
    author then fails and keeps the old one, but the file has lost it: what is
    left names no author, and every later start that can read it fails. *)
Theorem default_author_torn_write env env' author n e d :
  actor_store_wf (en_sync e) → en_storage e = DsPersistent → ee_write env = WrCut n → n < 64 →
  is_Some (author_at (actor_view (en_sync e)) author) → ee_read_ok env' = true →
  let '(r, e') := default_author_set env author e in
  restarted (en_disk e') d →
  r = Err EeWriteFile ∧ en_default_author e' = en_default_author e
  ∧ (storage_load env' DsPersistent d).1 = Err (EeParse PkHex).
Proof.
  intros Hwf Hs Hw Hn [a Ha] Hr.
  destruct (default_author_set_run env author e Hwf) as (e' & He & _ & _ & _ & _ & Hd & Hf).
  rewrite He. unfold default_author_set_result in *. rewrite Ha, Hs, Hw in *. simpl in Hd, Hf.
  intros (Hok & _ & Hf'). split; [done|]. split; [done|].
  destruct (load_file env' d _ Hok (eq_trans Hf' Hf)) as (d' & -> & _). simpl.
  unfold load_answer. by rewrite Hr, torn_author_text.
Qed.

(** ** Garbage collection *)

(** The callback on any sequence of messages: it aborts exactly when one of
    them is an error, and otherwise adds exactly the hashes that arrived. *)
Lemma protect_receive_spec arrived live :
  ((protect_receive arrived live).1 = PoAbort ↔ None ∈ arrived)
  ∧ (None ∉ arrived → ∀ h, h ∈ (protect_receive arrived live).2 ↔ h ∈ live ∨ Some h ∈ arrived).
Proof.
  induction arrived as [|[h|] arrived IH] in live |- *; simpl.
  - split; [by split; [|intros ?%elem_of_nil]|]. intros _ h. rewrite elem_of_nil. tauto.
  - destruct (IH ({[h]} ∪ live)) as [Ha Hl]. split.
    + rewrite Ha, elem_of_cons. naive_solver.
    + intros Hn h'. rewrite Hl by set_solver. set_solver.
  - split; [split; [by left|done]|]. intros []. by left.
Qed.

(** C31: what the documents refer to is not collected.  The engine's task
    sends the content hash of every stored record, no other hash and no
    error.  The callback aborts the collection exactly when an error arrives
    or the task does not answer; otherwise it lets the collection go on with
    exactly the hashes that arrived added to those it was given: with every
    stored record protected when all the messages of the task arrive, and
    with only a part of them when the channel ends early. *)
Theorem protect_contents env e live : actor_store_wf (en_sync e) →
  (∃ msgs e', protect_task env e = (Ok msgs, e') ∧ None ∉ msgs
    ∧ (∀ h, Some h ∈ msgs ↔
        ∃ p v, tbl_get (records (actor_view (en_sync e))) p = Some v ∧ h = se_content_hash (into_entry p v))
    ∧ ∀ arrived, arrived `prefix_of` msgs →
        (protect_cb (Some arrived) live).1 = PoContinue
        ∧ ∀ h, h ∈ (protect_cb (Some arrived) live).2 ↔ h ∈ live ∨ Some h ∈ arrived)
  ∧ (∀ arrived, (protect_cb (Some arrived) live).1 = PoAbort ↔ None ∈ arrived)
  ∧ protect_cb None live = (PoAbort, live).
Proof.
  intros Hwf. split_and!; [|intros arrived; apply protect_receive_spec|done].
  destruct (handle_content_hashes_wp (ee_now env) _ Hwf) as (l & a & Hl & Hin & _).
  assert (None ∉ Some <$> l) as Hnone by (rewrite list_elem_of_fmap; naive_solver).
  exists (Some <$> l), (set_en_sync a e). unfold protect_task. rewrite Hl.
  split_and!; [done|done| |].
  - intros h. rewrite list_elem_of_fmap. setoid_rewrite Hin. naive_solver.
  - intros arrived [rest Hr]. destruct (protect_receive_spec arrived live) as [Ha Hlive].
    assert (None ∉ arrived) as Hn by (rewrite Hr in Hnone; set_solver).
    split; [|by apply Hlive]. simpl.
    destruct (protect_receive arrived live).1; [done|]. by destruct Hn; apply Ha.
Qed.

(** A stream that ends early ends the same way. *)
Lemma protect_truncated (hashes : list Hash) n live :
  protect_cb (Some (take n (Some <$> hashes))) live =
  (PoContinue, list_to_set (take n hashes) ∪ live).
Proof.
  simpl. rewrite <- fmap_take. generalize (take n hashes) as l. clear.
  induction l as [|h l IH] in live |- *; simpl; [f_equal; set_solver|]. rewrite IH. f_equal. set_solver.
Qed.
End default_author_set.

(** ** An engine that computes *)
Definition demo_engine_env : EngineEnv := {|
  ee_now := 0; ee_created := 1; ee_time := 2; ee_nanos := 3; ee_random := arr_rep 32 x0c;
  ee_read_ok := true; ee_write := WrWritten; ee_replica_events := 0;
  ee_live := {| ev_now := 0; ev_complete := λ _, false; ev_channel_open := λ _, true;
                ev_join_ok := true; ev_max_message_size := 1024 |} |}.
Definition demo_disk : DefaultDisk := {| dd_sync := demo_actor; dd_file := None |}.
Definition demo_new_author : Author := Author_from_bytes (arr_rep 32 x0d).
Definition demo_engine : Engine := {|
  en_live := LiveActor_new (arr_rep 32 x01) None (handle_import_author 0 demo_new_author demo_actor).2;
  en_default_author := demo_author; en_storage := DsPersistent; en_file := None |}.

Lemma demo_actor_store_wf : actor_store_wf demo_actor.
Proof. exact I. Qed.

(** The next start: a new actor on the database that the crash left. *)
Definition demo_restart (d : DefaultDisk) : DefaultDisk := {|
  dd_sync := spawn 8 {| st_db := st_db (ac_store (dd_sync d)); st_transaction := CtNone;
                        st_open_replicas := ∅; st_pubkeys := ∅; st_clock := 0 |} 0 None None None
               (ac_world (dd_sync d));
  dd_file := dd_file d |}.
Lemma demo_restarted d : restarted d (demo_restart d).
Proof. by split_and!. Qed.

Lemma default_author_survives_crash_witness :
  ∃ d', (storage_load demo_engine_env DsPersistent demo_disk).1 = Ok (Author_id (Author_new (arr_rep 32 x0c)))
    ∧ ∃ d2, storage_load demo_engine_env DsPersistent (demo_restart d') =
        (Ok (Author_id (Author_new (arr_rep 32 x0c))), d2).
Proof.
  destruct (default_author_survives_crash demo_engine_env demo_disk demo_actor_store_wf eq_refl)
    as (d' & Hl & _ & Hr).
  exists d'. split; [rewrite Hl; reflexivity|].
  exact (Hr demo_engine_env _ eq_refl (demo_restarted d')).
Defined.

Lemma default_author_load_spec_witness :
  (storage_load demo_engine_env DsPersistent (set_dd_file (Some "0g"%string) demo_disk)).1 =
    Err (EeParse PkHex)
  ∧ (storage_load demo_engine_env DsPersistent
       (set_dd_file (Some (AuthorId_display demo_author)) demo_disk)).1 = Err EeMissingAuthor.
Proof.
  destruct (default_author_load_spec demo_engine_env (set_dd_file (Some "0g"%string) demo_disk) _
    demo_actor_store_wf eq_refl) as (d1 & -> & _).
  destruct (default_author_load_spec demo_engine_env
    (set_dd_file (Some (AuthorId_display demo_author)) demo_disk) _
    demo_actor_store_wf eq_refl) as (d2 & -> & _).
  split; vm_compute; reflexivity.
Defined.

(** The author is imported, made the default, and lost. *)
Lemma default_author_set_dangles_witness :
  (default_author_set demo_engine_env (Author_id demo_new_author) demo_engine).1 = Ok tt
  ∧ (storage_load demo_engine_env DsPersistent
       (demo_restart (en_disk (default_author_set demo_engine_env (Author_id demo_new_author) demo_engine).2))).1
    = Err EeMissingAuthor.
Proof.
  assert (author_at (actor_committed (en_sync (default_author_set demo_engine_env
    (Author_id demo_new_author) demo_engine).2)) (Author_id demo_new_author) = None) as Hnone
    by (vm_compute; reflexivity).
  assert (actor_store_wf (en_sync demo_engine)) as Hwf by (vm_compute; intros Hd; discriminate Hd).
  assert (author_at (actor_view (en_sync demo_engine)) (Author_id demo_new_author) = Some demo_new_author)
    as Ha by (vm_compute; reflexivity).
  pose proof (default_author_set_dangles demo_engine_env demo_engine_env demo_new_author demo_engine
    (demo_restart (en_disk (default_author_set demo_engine_env (Author_id demo_new_author) demo_engine).2))
    Hwf eq_refl eq_refl Ha eq_refl) as HH.
  destruct (default_author_set demo_engine_env (Author_id demo_new_author) demo_engine) as [r e'].
  simpl fst. simpl snd in *. rewrite Hnone in HH. exact (HH (demo_restarted _)).
Defined.

Definition demo_cut_env : EngineEnv := {|
  ee_now := 0; ee_created := 1; ee_time := 2; ee_nanos := 3; ee_random := arr_rep 32 x0c;
  ee_read_ok := true; ee_write := WrCut 10; ee_replica_events := 0; ee_live := ee_live demo_engine_env |}.

Lemma default_author_torn_write_witness :
  let '(r, e') := default_author_set demo_cut_env (Author_id demo_new_author) demo_engine in
  r = Err EeWriteFile ∧ en_default_author e' = demo_author
  ∧ (storage_load demo_engine_env DsPersistent (demo_restart (en_disk e'))).1 = Err (EeParse PkHex).
Proof.
  assert (is_Some (author_at (actor_view (en_sync demo_engine)) (Author_id demo_new_author))) as Ha
    by (exists demo_new_author; vm_compute; reflexivity).
  assert (10 < 64) as Hn by (apply Nat.ltb_lt; reflexivity).
  assert (actor_store_wf (en_sync demo_engine)) as Hwf by (vm_compute; intros Hd; discriminate Hd).
  pose proof (default_author_torn_write demo_cut_env demo_engine_env (Author_id demo_new_author) 10 demo_engine
    (demo_restart (en_disk (default_author_set demo_cut_env (Author_id demo_new_author) demo_engine).2))
    Hwf eq_refl eq_refl Hn Ha eq_refl) as HH.
  destruct (default_author_set demo_cut_env (Author_id demo_new_author) demo_engine) as [r e'].
  exact (HH (demo_restarted _)).
Defined.

Lemma protect_contents_witness :
  ∃ msgs e', protect_task demo_engine_env demo_engine = (Ok msgs, e')
    ∧ arr_rep 32 x09 ∈ (protect_cb (Some msgs) ∅).2.
Proof.
  destruct (protect_contents demo_engine_env demo_engine ∅)
    as ((msgs & e' & Hm & _ & Hsent & Hall) & _).
  - vm_compute. intros Hd. discriminate Hd.
  - exists msgs, e'. split; [exact Hm|]. apply Hall; [reflexivity|]. right. apply Hsent.
    exists (demo_ns, demo_author, [x41]), (demo_row 7). split; vm_compute; reflexivity.
Defined.
