(* ===== verification/Api.v ===== *)
(** * The API

    Models [src/api/protocol.rs] (the requests), [src/api/actor.rs] (the actor
    that answers them from the engine) and [src/api.rs] (the client: document
    handles and the import of files).  The addresses of an endpoint and the
    blob store are of other crates: what kind a transport address is of, and
    what adding bytes answers, are parameters. *)
From Stdlib Require Import String.
From S2P Require Import Prelude Redb Keys Entry Heads Query Bounds Ranger Info Store StoreInstance Filter QueryIter Replica SyncState Codec Net Actor Live SyncHandle Texts Engine.

(** [iroh::TransportAddr]. *)
Class Transport := {
  TransportAddr : Type;
  is_relay : TransportAddr → bool;
  is_ip : TransportAddr → bool;
}.

(** ** Requests *)
Inductive ShareMode := SmRead | SmWrite.
Inductive AddrInfoOptions := AoId | AoRelayAndAddresses | AoRelay | AoAddresses.
Definition AddrInfoOptions_default : AddrInfoOptions := AoId.

Section addr.
Context `{Crypto, Transport}.

(** [iroh::EndpointAddr]; the addresses are a sorted set. *)
Record EndpointAddr := { ea_id : EndpointId; ea_addrs : list TransportAddr }.
Definition EndpointAddr_new (id : EndpointId) : EndpointAddr := {| ea_id := id; ea_addrs := [] |}.

Definition AddrInfoOptions_apply (self : AddrInfoOptions) (addr : EndpointAddr) : EndpointAddr :=
  match self with
  | AoId => EndpointAddr_new (ea_id addr)
  | AoRelay => {| ea_id := ea_id addr; ea_addrs := List.filter is_relay (ea_addrs addr) |}
  | AoAddresses => {| ea_id := ea_id addr; ea_addrs := List.filter is_ip (ea_addrs addr) |}
  | AoRelayAndAddresses => {| ea_id := ea_id addr; ea_addrs := ea_addrs addr |}
  end.
End addr.

Section requests.
Context `{Redb, Crypto, Transport}.

Record SetRequest := {
  sr_doc_id : NamespaceId; sr_author_id : AuthorId; sr_key : bytes; sr_value : bytes }.
Record SetHashRequest := {
  sh_doc_id : NamespaceId; sh_author_id : AuthorId; sh_key : bytes; sh_hash : Hash; sh_size : N }.
Record GetManyRequest := { gm_doc_id : NamespaceId; gm_query : Query }.
Record GetExactRequest := {
  gx_doc_id : NamespaceId; gx_key : bytes; gx_author : AuthorId; gx_include_empty : bool }.
Record DelRequest := { dr_doc_id : NamespaceId; dr_author_id : AuthorId; dr_prefix : bytes }.
Record RetractRequest := {
  rr_doc_id : NamespaceId; rr_author_id : AuthorId; rr_key : bytes; rr_up_to_timestamp : N }.
Record StartSyncRequest := {
  ss_doc_id : NamespaceId; ss_peers : list EndpointAddr; ss_join_gossip : bool }.
Definition default_join_gossip : bool := true.
Record ShareRequest := {
  sq_doc_id : NamespaceId; sq_mode : ShareMode; sq_addr_options : AddrInfoOptions }.
Record SetDownloadPolicyRequest := { sp_doc_id : NamespaceId; sp_policy : DownloadPolicy }.

Inductive DocsProtocol :=
| DpOpen (doc_id : NamespaceId)
| DpClose (doc_id : NamespaceId)
| DpStatus (doc_id : NamespaceId)
| DpList
| DpCreate
| DpDrop (doc_id : NamespaceId)
| DpImport (capability : Capability)
| DpSet (req : SetRequest)
| DpSetHash (req : SetHashRequest)
| DpGet (req : GetManyRequest)
| DpGetExact (req : GetExactRequest)
| DpDel (req : DelRequest)
| DpRetract (req : RetractRequest)
| DpStartSync (req : StartSyncRequest)
| DpLeave (doc_id : NamespaceId)
| DpLeaveGossip (doc_id : NamespaceId)
| DpShare (req : ShareRequest)
| DpSubscribe (doc_id : NamespaceId)
| DpGetDownloadPolicy (doc_id : NamespaceId)
| DpSetDownloadPolicy (req : SetDownloadPolicyRequest)
| DpGetSyncPeers (doc_id : NamespaceId)
| DpAuthorList
| DpAuthorCreate
| DpAuthorGetDefault
| DpAuthorSetDefault (author_id : AuthorId)
| DpAuthorImport (author : Author)
| DpAuthorExport (author : AuthorId)
| DpAuthorDelete (author : AuthorId).

(** The replies by their contents; a stream by what it yields. *)
Inductive DocsResponse :=
| DrUnit
| DrStatus (status : OpenState)
| DrList (l : list (option (NamespaceId * CapabilityKind)))
| DrDoc (doc_id : NamespaceId)
| DrEntry (entry : SignedEntry)
| DrEntries (it : QueryIterator)
| DrMaybeEntry (entry : option SignedEntry)
| DrRemoved (removed : nat)
| DrRetracted (removed : bool)
| DrShare (ticket : DocTicket EndpointAddr)
| DrPolicy (policy : DownloadPolicy)
| DrPeers (peers : option (list PeerIdBytes))
| DrAuthors (l : list AuthorId)
| DrAuthorId (author_id : AuthorId)
| DrAuthor (author : option Author).
End requests.

(** ** The actor *)
Section rpc_actor.
Context `{Redb, Crypto, Hex, Transport, Postcard DownloadPolicy, Postcard (list (N * AuthorId))}.

(** What a request reads outside besides the engine's: the blob store's
    answer to added bytes, the address of the endpoint, and the channels of a
    subscription. *)
Record ApiEnv := {
  ae_engine : EngineEnv;
  ae_add_bytes : bytes → option Hash;
  ae_addr : EndpointAddr;
  ae_channels : ChannelId * ChannelId;
}.

Inductive RpcErr :=
| ReEngine (e : EngineErr)
| ReBlobs
| ReDeleteDefault
| ReNoEntry.

Abbreviation RpcM := (ST Engine RpcErr).
(** [map_err(|e| RpcError::new(&*e))]. *)
Definition rpc_err {A} (m : ST Engine EngineErr A) : RpcM A := λ e,
  let '(r, e) := m e in (map_err ReEngine r, e).
Definition rpc_sync {A} (m : ST Actor ActorErr A) : RpcM A := rpc_err (sync_op m).

Context (env : ApiEnv).
Let now : N := ee_now (ae_engine env).

Definition author_create : RpcM AuthorId :=
  let author := Author_new (ee_random (ae_engine env)) in
  _ ← rpc_sync (handle_import_author now author);
  mret (Author_id author).
Definition author_default : RpcM AuthorId :=
  rpc_err default_author_get.
Definition author_set_default (author_id : AuthorId) : RpcM unit :=
  rpc_err (default_author_set (ae_engine env) author_id).
Definition author_list : RpcM (list AuthorId) := rpc_sync (handle_list_authors now).
Definition author_import (author : Author) : RpcM AuthorId := rpc_sync (handle_import_author now author).
Definition author_export (author : AuthorId) : RpcM (option Author) :=
  rpc_sync (handle_export_author now author).
Definition author_delete (author : AuthorId) : RpcM unit :=
  default ← st_gets en_default_author;
  if eqb author default then st_err ReDeleteDefault
  else rpc_sync (handle_delete_author now author).

Definition doc_create : RpcM NamespaceId :=
  let namespace := NamespaceSecret_new (ee_random (ae_engine env)) in
  let id := NamespaceSecret_id namespace in
  _ ← rpc_sync (handle_import_namespace now (CapWrite namespace));
  _ ← rpc_sync (handle_open now id OpenOpts_default);
  mret id.
Definition doc_drop (doc_id : NamespaceId) : RpcM unit :=
  _ ← rpc_err (engine_leave (ae_engine env) doc_id true);
  rpc_sync (handle_drop_replica now doc_id).
Definition doc_list : RpcM (list (option (NamespaceId * CapabilityKind))) :=
  rpc_sync (handle_list_replicas now).
Definition doc_open (doc_id : NamespaceId) : RpcM unit :=
  rpc_sync (handle_open now doc_id OpenOpts_default).
Definition doc_close (doc_id : NamespaceId) : RpcM unit :=
  _ ← rpc_sync (handle_close now doc_id); mret tt.
Definition doc_status (doc_id : NamespaceId) : RpcM OpenState := rpc_sync (handle_get_state now doc_id).

Definition doc_share (req : ShareRequest) : RpcM (DocTicket EndpointAddr) :=
  let me := AddrInfoOptions_apply (sq_addr_options req) (ae_addr env) in
  capability ←
    match sq_mode req with
    | SmRead => mret (CapRead (sq_doc_id req))
    | SmWrite =>
        secret ← rpc_sync (handle_export_secret_key now (sq_doc_id req));
        mret (CapWrite secret)
    end;
  _ ← rpc_err (engine_start_sync (ae_engine env) (sq_doc_id req) []);
  mret {| tk_capability := capability; tk_nodes := [me] |}.

Definition doc_subscribe (doc_id : NamespaceId) : RpcM unit :=
  rpc_err (engine_subscribe (ae_engine env) doc_id (ae_channels env).1 (ae_channels env).2).

Definition doc_import (capability : Capability) : RpcM NamespaceId :=
  doc_id ← rpc_sync (handle_import_namespace now capability);
  _ ← rpc_sync (handle_open now doc_id OpenOpts_default);
  mret doc_id.

Definition doc_start_sync (req : StartSyncRequest) : RpcM unit :=
  let peers := ea_id <$> ss_peers req in
  if ss_join_gossip req then rpc_err (engine_start_sync (ae_engine env) (ss_doc_id req) peers)
  else rpc_err (engine_start_sync_scoped (ae_engine env) (ss_doc_id req) peers).
Definition doc_leave (doc_id : NamespaceId) : RpcM unit :=
  rpc_err (engine_leave (ae_engine env) doc_id false).
Definition doc_leave_gossip (doc_id : NamespaceId) : RpcM unit :=
  rpc_err (engine_leave_gossip doc_id).

Definition doc_set (req : SetRequest) : RpcM SignedEntry :=
  let len := N.of_nat (length (sr_value req)) in
  hash ← st_lift (result_of_option ReBlobs (ae_add_bytes env (sr_value req)));
  _ ← rpc_sync (handle_insert_local now (ee_created (ae_engine env)) (ee_time (ae_engine env))
        (sr_doc_id req) (sr_author_id req) (sr_key req) hash len);
  entry ← rpc_sync (handle_get_exact now (sr_doc_id req) (sr_author_id req) (sr_key req) false);
  st_lift (result_of_option ReNoEntry entry).
Definition doc_del (req : DelRequest) : RpcM nat :=
  rpc_sync (handle_delete_prefix now (ee_created (ae_engine env)) (ee_time (ae_engine env))
    (dr_doc_id req) (dr_author_id req) (dr_prefix req)).
Definition doc_retract (req : RetractRequest) : RpcM bool :=
  rpc_sync (handle_retract_entry now (rr_doc_id req) (rr_author_id req) (rr_key req)
    (rr_up_to_timestamp req)).
Definition doc_set_hash (req : SetHashRequest) : RpcM unit :=
  rpc_sync (handle_insert_local now (ee_created (ae_engine env)) (ee_time (ae_engine env))
    (sh_doc_id req) (sh_author_id req) (sh_key req) (sh_hash req) (sh_size req)).
Definition doc_get_many (req : GetManyRequest) : RpcM QueryIterator :=
  rpc_sync (handle_get_many now (gm_doc_id req) (gm_query req)).
Definition doc_get_exact (req : GetExactRequest) : RpcM (option SignedEntry) :=
  rpc_sync (handle_get_exact now (gx_doc_id req) (gx_author req) (gx_key req) (gx_include_empty req)).
Definition doc_set_download_policy (req : SetDownloadPolicyRequest) : RpcM unit :=
  rpc_sync (handle_set_download_policy now (sp_doc_id req) (sp_policy req)).
Definition doc_get_download_policy (doc_id : NamespaceId) : RpcM DownloadPolicy :=
  rpc_sync (handle_get_download_policy now doc_id).
Definition doc_get_sync_peers (doc_id : NamespaceId) : RpcM (option (list PeerIdBytes)) :=
  rpc_sync (handle_get_sync_peers now doc_id).

Definition answer_with {A} (f : A → DocsResponse) (m : RpcM A) : RpcM DocsResponse := x ← m; mret (f x).
Definition answer_unit : RpcM unit → RpcM DocsResponse := answer_with (λ _, DrUnit).

(** [RpcActor::handle]. *)
Definition rpc_handle (msg : DocsProtocol) : RpcM DocsResponse :=
  match msg with
  | DpOpen doc_id => answer_unit (doc_open doc_id)
  | DpClose doc_id => answer_unit (doc_close doc_id)
  | DpStatus doc_id => answer_with DrStatus (doc_status doc_id)
  | DpList => answer_with DrList doc_list
  | DpCreate => answer_with DrDoc doc_create
  | DpDrop doc_id => answer_unit (doc_drop doc_id)
  | DpImport capability => answer_with DrDoc (doc_import capability)
  | DpSet req => answer_with DrEntry (doc_set req)
  | DpSetHash req => answer_unit (doc_set_hash req)
  | DpGet req => answer_with DrEntries (doc_get_many req)
  | DpGetExact req => answer_with DrMaybeEntry (doc_get_exact req)
  | DpDel req => answer_with DrRemoved (doc_del req)
  | DpRetract req => answer_with DrRetracted (doc_retract req)
  | DpStartSync req => answer_unit (doc_start_sync req)
  | DpLeave doc_id => answer_unit (doc_leave doc_id)
  | DpLeaveGossip doc_id => answer_unit (doc_leave_gossip doc_id)
  | DpShare req => answer_with DrShare (doc_share req)
  | DpSubscribe doc_id => answer_unit (doc_subscribe doc_id)
  | DpGetDownloadPolicy doc_id => answer_with DrPolicy (doc_get_download_policy doc_id)
  | DpSetDownloadPolicy req => answer_unit (doc_set_download_policy req)
  | DpGetSyncPeers doc_id => answer_with DrPeers (doc_get_sync_peers doc_id)
  | DpAuthorList => answer_with DrAuthors author_list
  | DpAuthorCreate => answer_with DrAuthorId author_create
  | DpAuthorGetDefault => answer_with DrAuthorId author_default
  | DpAuthorSetDefault author_id => answer_unit (author_set_default author_id)
  | DpAuthorImport author => answer_with DrAuthorId (author_import author)
  | DpAuthorExport author => answer_with DrAuthor (author_export author)
  | DpAuthorDelete author => answer_unit (author_delete author)
  end.
End rpc_actor.

(** [RpcActor::run], each request with its own environment. *)
Definition rpc_run `{Redb, Crypto, Hex, Transport, Postcard DownloadPolicy, Postcard (list (N * AuthorId))}
    (msgs : list (ApiEnv * DocsProtocol)) (e : Engine) : Engine :=
  foldl (λ e m, (rpc_handle m.1 m.2 e).2) e msgs.
