(* ===== verification/ApiClient.v ===== *)
(** * The client of the API

    Models [src/api.rs]: the service handle, the handles of documents, whose
    clones share one flag that says whether they were closed, and the import
    of files, a state machine that is polled.  A request is answered by the
    actor of Api; the client checks that a reply is of its request's type. *)
From Stdlib Require Import String.
From S2P Require Import Prelude Redb Keys Entry Heads Query Bounds Ranger Info Store StoreInstance Filter QueryIter Replica SyncState Codec Net Actor Live SyncHandle Texts Engine Api.

(** [std::task::Poll]. *)
Inductive Poll (A : Type) := Pending | Ready (a : A).
Arguments Pending {A}.
Arguments Ready {A} _.

(** A document handle: [dc_closed] is the address of the shared flag, so a
    clone is the same value. *)
Record Doc := { dc_namespace_id : NamespaceId; dc_closed : nat }.

Section client.
Context `{Redb, Crypto, Hex, Transport, Postcard DownloadPolicy, Postcard (list (N * AuthorId))}.

Record Client := { cl_engine : Engine; cl_closed : gset nat; cl_next : nat }.
Definition set_cl_engine (e : Engine) (c : Client) : Client :=
  {| cl_engine := e; cl_closed := cl_closed c; cl_next := cl_next c |}.
Definition set_closed (flag : nat) (c : Client) : Client :=
  {| cl_engine := cl_engine c; cl_closed := {[flag]} ∪ cl_closed c; cl_next := cl_next c |}.

Inductive ApiErr := AeRpc (e : RpcErr) | AeClosed.
Abbreviation ClientM := (ST Client ApiErr).

Context (env : ApiEnv).

(** [Client::rpc], and the reply by its type. *)
Definition rpc {A} (sel : DocsResponse → option A) (msg : DocsProtocol) : ClientM A := λ c,
  let '(r, e) := rpc_handle env msg (cl_engine c) in
  (match r with
   | Ok reply => match sel reply with Some x => Ok x | None => Panic end
   | Err x => Err (AeRpc x)
   | Panic => Panic
   end, set_cl_engine e c).

Definition sel_unit (r : DocsResponse) := match r with DrUnit => Some tt | _ => None end.
Definition sel_doc (r : DocsResponse) := match r with DrDoc id => Some id | _ => None end.
Definition sel_author_id (r : DocsResponse) := match r with DrAuthorId id => Some id | _ => None end.
Definition sel_entries (r : DocsResponse) := match r with DrEntries it => Some it | _ => None end.

(** ** The service *)
Definition api_author_create : ClientM AuthorId := rpc sel_author_id DpAuthorCreate.
Definition api_author_default : ClientM AuthorId := rpc sel_author_id DpAuthorGetDefault.
Definition api_author_set_default (author_id : AuthorId) : ClientM unit :=
  rpc sel_unit (DpAuthorSetDefault author_id).
Definition api_author_list : ClientM (list AuthorId) :=
  rpc (λ r, match r with DrAuthors l => Some l | _ => None end) DpAuthorList.
Definition api_author_export (author : AuthorId) : ClientM (option Author) :=
  rpc (λ r, match r with DrAuthor a => Some a | _ => None end) (DpAuthorExport author).
Definition api_author_import (author : Author) : ClientM unit :=
  _ ← rpc sel_author_id (DpAuthorImport author); mret tt.
Definition api_author_delete (author : AuthorId) : ClientM unit := rpc sel_unit (DpAuthorDelete author).

(** [Doc::new]: a new flag. *)
Definition Doc_new (namespace_id : NamespaceId) : ClientM Doc := λ c,
  (Ok {| dc_namespace_id := namespace_id; dc_closed := cl_next c |},
   {| cl_engine := cl_engine c; cl_closed := cl_closed c; cl_next := S (cl_next c) |}).
Definition Doc_id (d : Doc) : NamespaceId := dc_namespace_id d.

Definition ensure_doc_open (d : Doc) : ClientM unit :=
  c ← st_get; st_ensure (negb (bool_decide (dc_closed d ∈ cl_closed c))) AeClosed.

Definition api_create : ClientM Doc := id ← rpc sel_doc DpCreate; Doc_new id.
Definition api_drop_doc (doc_id : NamespaceId) : ClientM unit := rpc sel_unit (DpDrop doc_id).
Definition api_import_namespace (capability : Capability) : ClientM Doc :=
  id ← rpc sel_doc (DpImport capability); Doc_new id.
Definition api_list : ClientM (list (option (NamespaceId * CapabilityKind))) :=
  rpc (λ r, match r with DrList l => Some l | _ => None end) DpList.
Definition api_open (id : NamespaceId) : ClientM (option Doc) :=
  _ ← rpc sel_unit (DpOpen id); d ← Doc_new id; mret (Some d).

(** ** Documents *)

(** The flag is set first, and stays set if the request fails; the flag is
    not looked at. *)
Definition Doc_close (d : Doc) : ClientM unit :=
  _ ← st_modify (set_closed (dc_closed d));
  rpc sel_unit (DpClose (dc_namespace_id d)).

Definition Doc_set_bytes (d : Doc) (author_id : AuthorId) (key value : bytes) : ClientM Hash :=
  _ ← ensure_doc_open d;
  entry ← rpc (λ r, match r with DrEntry e => Some e | _ => None end)
    (DpSet {| sr_doc_id := dc_namespace_id d; sr_author_id := author_id; sr_key := key; sr_value := value |});
  mret (se_content_hash entry).
Definition Doc_set_hash (d : Doc) (author_id : AuthorId) (key : bytes) (hash : Hash) (size : N) : ClientM unit :=
  _ ← ensure_doc_open d;
  rpc sel_unit (DpSetHash {| sh_doc_id := dc_namespace_id d; sh_author_id := author_id; sh_key := key;
                             sh_hash := hash; sh_size := size |}).
Definition Doc_del (d : Doc) (author_id : AuthorId) (prefix : bytes) : ClientM nat :=
  _ ← ensure_doc_open d;
  rpc (λ r, match r with DrRemoved n => Some n | _ => None end)
    (DpDel {| dr_doc_id := dc_namespace_id d; dr_author_id := author_id; dr_prefix := prefix |}).
Definition Doc_retract (d : Doc) (author_id : AuthorId) (key : bytes) (up_to_timestamp : N) : ClientM bool :=
  _ ← ensure_doc_open d;
  rpc (λ r, match r with DrRetracted b => Some b | _ => None end)
    (DpRetract {| rr_doc_id := dc_namespace_id d; rr_author_id := author_id; rr_key := key;
                  rr_up_to_timestamp := up_to_timestamp |}).
Definition Doc_get_exact (d : Doc) (author : AuthorId) (key : bytes) (include_empty : bool)
    : ClientM (option Entry) :=
  _ ← ensure_doc_open d;
  entry ← rpc (λ r, match r with DrMaybeEntry e => Some e | _ => None end)
    (DpGetExact {| gx_doc_id := dc_namespace_id d; gx_key := key; gx_author := author;
                   gx_include_empty := include_empty |});
  mret (se_entry <$> entry).
Definition Doc_get_many (d : Doc) (query : Query) : ClientM QueryIterator :=
  _ ← ensure_doc_open d;
  rpc sel_entries (DpGet {| gm_doc_id := dc_namespace_id d; gm_query := query |}).
Definition Doc_get_one (d : Doc) (query : Query) : ClientM (option Entry) :=
  _ ← ensure_doc_open d;
  it ← Doc_get_many d query;
  mret (se_entry <$> (qi_next it).1).
Definition Doc_share (d : Doc) (mode : ShareMode) (addr_options : AddrInfoOptions)
    : ClientM (DocTicket EndpointAddr) :=
  _ ← ensure_doc_open d;
  rpc (λ r, match r with DrShare t => Some t | _ => None end)
    (DpShare {| sq_doc_id := dc_namespace_id d; sq_mode := mode; sq_addr_options := addr_options |}).
Definition Doc_start_sync (d : Doc) (peers : list EndpointAddr) : ClientM unit :=
  _ ← ensure_doc_open d;
  rpc sel_unit (DpStartSync {| ss_doc_id := dc_namespace_id d; ss_peers := peers; ss_join_gossip := true |}).
Definition Doc_start_sync_scoped (d : Doc) (peers : list EndpointAddr) : ClientM unit :=
  _ ← ensure_doc_open d;
  rpc sel_unit (DpStartSync {| ss_doc_id := dc_namespace_id d; ss_peers := peers; ss_join_gossip := false |}).
Definition Doc_leave (d : Doc) : ClientM unit :=
  _ ← ensure_doc_open d; rpc sel_unit (DpLeave (dc_namespace_id d)).
Definition Doc_leave_gossip (d : Doc) : ClientM unit :=
  _ ← ensure_doc_open d; rpc sel_unit (DpLeaveGossip (dc_namespace_id d)).
Definition Doc_subscribe (d : Doc) : ClientM unit :=
  _ ← ensure_doc_open d; rpc sel_unit (DpSubscribe (dc_namespace_id d)).
Definition Doc_status (d : Doc) : ClientM OpenState :=
  _ ← ensure_doc_open d;
  rpc (λ r, match r with DrStatus s => Some s | _ => None end) (DpStatus (dc_namespace_id d)).
Definition Doc_set_download_policy (d : Doc) (policy : DownloadPolicy) : ClientM unit :=
  _ ← ensure_doc_open d;
  rpc sel_unit (DpSetDownloadPolicy {| sp_doc_id := dc_namespace_id d; sp_policy := policy |}).
Definition Doc_get_download_policy (d : Doc) : ClientM DownloadPolicy :=
  _ ← ensure_doc_open d;
  rpc (λ r, match r with DrPolicy p => Some p | _ => None end) (DpGetDownloadPolicy (dc_namespace_id d)).
Definition Doc_get_sync_peers (d : Doc) : ClientM (option (list PeerIdBytes)) :=
  _ ← ensure_doc_open d;
  rpc (λ r, match r with DrPeers l => Some l | _ => None end) (DpGetSyncPeers (dc_namespace_id d)).

Definition api_import (ticket : DocTicket EndpointAddr) : ClientM Doc :=
  doc ← api_import_namespace (tk_capability ticket);
  _ ← Doc_start_sync doc (tk_nodes ticket);
  mret doc.
Definition api_import_and_subscribe (ticket : DocTicket EndpointAddr) : ClientM Doc :=
  id ← rpc sel_doc (DpImport (tk_capability ticket));
  doc ← Doc_new id;
  _ ← Doc_subscribe doc;
  _ ← Doc_start_sync doc (tk_nodes ticket);
  mret doc.

(** ** Importing a file

    The blob store's progress is a stream of items; [None] is a poll that is
    not ready. *)
Inductive AddProgressItem :=
| ApSize (size : N)
| ApError
| ApDone (hash : Hash)
| ApOther.
Record ImportFileOutcome := { io_hash : Hash; io_size : N; io_key : bytes }.
Inductive ImportFileProgressItem :=
| IpErrorBlobs
| IpErrorDoc (e : ApiErr)
| IpBlobs (item : AddProgressItem)
| IpDone (outcome : ImportFileOutcome).
Record EntryContext := { ec_doc : Doc; ec_author : AuthorId; ec_key : bytes; ec_size : option N }.
(** The future of [ImportInner::Entry] by what it will do when polled. *)
Inductive ImportInner :=
| IiBlobs (progress : list (option AddProgressItem)) (context : option EntryContext)
| IiEntry (doc : Doc) (author : AuthorId) (key : bytes) (hash : Hash) (size : N)
| IiDone.

Definition Doc_import_file (d : Doc) (author : AuthorId) (key : bytes) (progress : list (option AddProgressItem))
    : ClientM ImportInner :=
  _ ← ensure_doc_open d;
  mret (IiBlobs progress (Some {| ec_doc := d; ec_author := author; ec_key := key; ec_size := None |})).

(** [expect]. *)
Definition expect {A} (o : option A) : ClientM A := st_lift match o with Some x => Ok x | None => Panic end.

Definition import_poll_next (this : ImportInner) : ClientM (Poll (option ImportFileProgressItem) * ImportInner) :=
  match this with
  | IiBlobs progress context =>
      match progress with
      | [] => st_panic
      | None :: progress => mret (Pending, IiBlobs progress context)
      | Some item :: progress =>
          match item with
          | ApSize size =>
              ctx ← expect context;
              mret (Ready (Some (IpBlobs (ApSize size))),
                    IiBlobs progress (Some {| ec_doc := ec_doc ctx; ec_author := ec_author ctx;
                                              ec_key := ec_key ctx; ec_size := Some size |}))
          | ApError => mret (Ready (Some IpErrorBlobs), IiDone)
          | ApDone hash =>
              ctx ← expect context;
              size ← expect (ec_size ctx);
              mret (Ready (Some (IpBlobs (ApDone hash))),
                    IiEntry (ec_doc ctx) (ec_author ctx) (ec_key ctx) hash size)
          | ApOther => mret (Ready (Some (IpBlobs ApOther)), IiBlobs progress context)
          end
      end
  | IiEntry doc author key hash size => λ c,
      let '(res, c) := Doc_set_hash doc author key hash size c in
      (match res with
       | Ok _ => Ok (Ready (Some (IpDone {| io_hash := hash; io_size := size; io_key := key |})), IiDone)
       | Err e => Ok (Ready (Some (IpErrorDoc e)), IiDone)
       | Panic => Panic
       end, c)
  | IiDone => mret (Ready None, IiDone)
  end.

(** [Future::poll]: [inr] is the error of the import. *)
Inductive ImportError := IeBlobsFailed | IeDoc (e : ApiErr) | IePolledAfterCompletion.
Fixpoint import_poll (fuel : nat) (this : ImportInner)
    : ClientM (Poll (ImportFileOutcome + ImportError) * ImportInner) :=
  match fuel with
  | 0 => st_panic
  | S fuel =>
      p ← import_poll_next this;
      match p.1 with
      | Ready (Some item) =>
          match item with
          | IpErrorBlobs => mret (Ready (inr IeBlobsFailed), p.2)
          | IpErrorDoc e => mret (Ready (inr (IeDoc e)), p.2)
          | IpBlobs _ => import_poll fuel p.2
          | IpDone outcome => mret (Ready (inl outcome), p.2)
          end
      | Ready None => mret (Ready (inr IePolledAfterCompletion), p.2)
      | Pending => mret (Pending, p.2)
      end
  end.

(** Awaiting the import: polled until it is ready. *)
Definition import_size (this : ImportInner) : nat :=
  match this with IiBlobs progress _ => 2 + length progress | _ => 1 end.
Fixpoint import_await (fuel : nat) (this : ImportInner) : ClientM (ImportFileOutcome + ImportError) :=
  match fuel with
  | 0 => st_panic
  | S fuel =>
      p ← import_poll (import_size this) this;
      match p.1 with
      | Ready r => mret r
      | Pending => import_await fuel p.2
      end
  end.
End client.
