(* ===== verification/LiveInv.v ===== *)
(** * The live actor: bookkeeping that never drifts

    The queue of hashes, the slots of [SyncState] and the sets of running
    tasks are kept by separate statements of [src/engine/live.rs].  Proved
    here: on every run they agree, so that no hash is queued without a
    download that will report it and no slot waits for a dial that nobody
    makes; and only syncing namespaces are dialed or announced. *)
From S2P Require Import Prelude Keys Entry Heads Ranger Info Filter Replica SyncState Codec Net Live.

(** ** [QueuedHashes]

    [waiting q h] are the namespaces that wait for [h], [pending q ns] the
    hashes [ns] waits for. *)
Definition waiting (q : QueuedHashes) (h : Hash) : gset NamespaceId := default ∅ (by_hash q !! h).
Definition pending (q : QueuedHashes) (ns : NamespaceId) : gset Hash := default ∅ (by_namespace q !! ns).

Record queued_wf (q : QueuedHashes) : Prop := {
  qw_inverse : ∀ h ns, ns ∈ waiting q h ↔ h ∈ pending q ns;
  qw_by_hash : ∀ h s, by_hash q !! h = Some s → s ≠ ∅;
  qw_by_namespace : ∀ ns s, by_namespace q !! ns = Some s → s ≠ ∅;
}.

Lemma queued_empty_wf : queued_wf queued_empty.
Proof.
  split; unfold waiting, pending; simpl; intros *; rewrite ?lookup_empty; [set_solver|done|done].
Qed.

Section or_insert.
Context {K V : Type} `{Countable K, Countable V}.
Implicit Types (m : gmap K (gset V)).

Lemma or_insert_lookup k v m k' :
  default ∅ (or_insert k v m !! k') =
    (if decide (k' = k) then {[v]} ∪ default ∅ (m !! k') else default ∅ (m !! k')).
Proof.
  unfold or_insert. destruct (decide (k' = k)) as [->|Hne].
  - by rewrite lookup_insert_eq.
  - by rewrite lookup_insert_ne.
Qed.
Lemma or_insert_nonempty k v m : (∀ k s, m !! k = Some s → s ≠ ∅) →
  ∀ k' s, or_insert k v m !! k' = Some s → s ≠ ∅.
Proof.
  intros Hm k' s. unfold or_insert. destruct (decide (k = k')) as [->|Hne].
  - rewrite lookup_insert_eq. intros [= <-]. set_solver.
  - rewrite lookup_insert_ne by done. apply Hm.
Qed.
End or_insert.

Lemma queued_insert_wf h ns q : queued_wf q → queued_wf (queued_insert h ns q).
Proof.
  intros [Hi Hh Hn]. split.
  - intros h' ns'. specialize (Hi h' ns'). unfold waiting, pending in *. simpl.
    rewrite !or_insert_lookup. repeat case_decide; set_solver.
  - by apply or_insert_nonempty.
  - by apply or_insert_nonempty.
Qed.

Lemma queued_insert_pending h ns q ns' :
  pending (queued_insert h ns q) ns' = (if decide (ns' = ns) then {[h]} ∪ pending q ns' else pending q ns').
Proof. unfold pending. simpl. apply or_insert_lookup. Qed.

Lemma contains_hash_waiting q h : queued_wf q → contains_hash h q = true ↔ waiting q h ≠ ∅.
Proof.
  intros [_ Hh _]. unfold contains_hash, waiting. destruct (by_hash q !! h) as [s|] eqn:Hs; simpl.
  - split; [|done]. intros _. eauto.
  - done.
Qed.
Lemma contains_namespace_pending q ns : queued_wf q → contains_namespace ns q = true ↔ pending q ns ≠ ∅.
Proof.
  intros [_ _ Hn]. unfold contains_namespace, pending. destruct (by_namespace q !! ns) as [s|] eqn:Hs; simpl.
  - split; [|done]. intros _. eauto.
  - done.
Qed.

Lemma last_of_set (X : gset Hash) h : X ≠ ∅ → X ∖ {[h]} = ∅ → X = {[h]}.
Proof.
  intros Hne He. assert (∀ x, x ∈ X → x = h) as Hall.
  { intros x Hx. destruct (decide (x = h)) as [|Hxh]; [done|].
    exfalso. apply (not_elem_of_empty (C:=gset Hash) x). rewrite <- He. set_solver. }
  apply set_choose_L in Hne as [x Hx]. pose proof (Hall x Hx) as ->.
  apply set_eq. intros y. rewrite elem_of_singleton. split; [apply Hall|by intros ->].
Qed.

(** The loop visits every namespace once. *)
Lemma remove_from_spec h l m : NoDup l →
  (∀ ns s, m !! ns = Some s → s ≠ ∅) → (∀ ns, ns ∈ l → h ∈ default ∅ (m !! ns)) →
  let '(removed, m') := remove_from h l m in
  (∀ ns s, m' !! ns = Some s → s ≠ ∅)
  ∧ (∀ ns, default ∅ (m' !! ns) = (if decide (ns ∈ l) then default ∅ (m !! ns) ∖ {[h]}
                                   else default ∅ (m !! ns)))
  ∧ (∀ ns, ns ∈ removed ↔ ns ∈ l ∧ default ∅ (m !! ns) = {[h]})
  ∧ NoDup removed.
Proof.
  intros Hnd. revert m. induction Hnd as [|ns l Hnot Hnd IH]; intros m Hm Hl.
  { simpl. by split_and!; [done|intros ns; repeat case_decide; set_solver|set_solver|constructor]. }
  simpl. pose proof (Hl ns ltac:(set_solver)) as Hns.
  destruct (m !! ns) as [hashes|] eqn:Hlk; [|simpl in Hns; set_solver]. simpl in Hns.
  assert (∀ ns' (m' : gmap NamespaceId (gset Hash)), ns' ∈ l → m' !! ns' = m !! ns' → h ∈ default ∅ (m' !! ns')) as Hkeep.
  { intros ns' m' Hin ->. apply Hl. set_solver. }
  case_bool_decide as Hempty.
  - specialize (IH (delete ns m)). destruct (remove_from h l (delete ns m)) as [removed m'].
    destruct IH as (Hm' & Hd & Hr & Hrn).
    { intros ns' s. rewrite lookup_delete_Some. intros [_ ?]. eauto. }
    { intros ns' Hin. apply Hkeep; [done|]. apply lookup_delete_ne. set_solver. }
    split_and!; [done|..].
    + intros ns'. rewrite Hd. destruct (decide (ns = ns')) as [<-|Hne].
      * rewrite lookup_delete_eq, Hlk. rewrite decide_False by done.
        rewrite decide_True by set_solver. simpl. by rewrite Hempty.
      * rewrite lookup_delete_ne by done. by repeat case_decide; set_solver.
    + intros ns'. rewrite !elem_of_cons, Hr. destruct (decide (ns = ns')) as [<-|Hne].
      * rewrite Hlk. simpl. split; [|by left]. intros _. split; [by left|].
        apply last_of_set; [|done]. clear -Hns. set_solver.
      * rewrite lookup_delete_ne by done. clear -Hne. naive_solver.
    + constructor; [|done]. rewrite Hr. set_solver.
  - specialize (IH (<[ns := hashes ∖ {[h]}]> m)).
    destruct (remove_from h l (<[ns := hashes ∖ {[h]}]> m)) as [removed m'].
    destruct IH as (Hm' & Hd & Hr & Hrn).
    { intros ns' s. rewrite lookup_insert_Some. intros [[_ <-]|[_ ?]]; eauto. }
    { intros ns' Hin. apply Hkeep; [done|]. apply lookup_insert_ne. set_solver. }
    split_and!; [done|..|done].
    + intros ns'. rewrite Hd. destruct (decide (ns = ns')) as [<-|Hne].
      * rewrite lookup_insert_eq, Hlk. rewrite decide_False by done.
        by rewrite decide_True by set_solver.
      * rewrite lookup_insert_ne by done. by repeat case_decide; set_solver.
    + intros ns'. rewrite elem_of_cons, Hr. destruct (decide (ns = ns')) as [<-|Hne].
      * rewrite Hlk. simpl. split; [intros [? _]; done|]. intros [_ ->].
        exfalso. apply Hempty. clear. set_solver.
      * rewrite lookup_insert_ne by done. clear -Hne. naive_solver.
Qed.

Lemma remove_hash_run h q : queued_wf q →
  let '(removed, q') := remove_hash h q in
  queued_wf q'
  ∧ contains_hash h q' = false
  ∧ (∀ ns, pending q' ns = pending q ns ∖ {[h]})
  ∧ (∀ h', h' ≠ h → waiting q' h' = waiting q h')
  ∧ (∀ ns, ns ∈ removed ↔ pending q ns = {[h]})
  ∧ NoDup removed.
Proof.
  intros [Hi Hh Hn]. unfold remove_hash.
  pose proof (remove_from_spec h (elements (waiting q h)) (by_namespace q) (NoDup_elements _) Hn) as Hr.
  unfold waiting in Hr. destruct (remove_from h _ (by_namespace q)) as [removed m'].
  destruct Hr as (Hm' & Hd & Hrem & Hnd).
  { intros ns. rewrite elem_of_elements. apply Hi. }
  assert (∀ ns, pending {| by_hash := delete h (by_hash q); by_namespace := m' |} ns
    = pending q ns ∖ {[h]}) as Hp.
  { intros ns. unfold pending. simpl. rewrite Hd. case_decide as Hin; [done|].
    rewrite elem_of_elements in Hin. specialize (Hi h ns). unfold waiting, pending in Hi. set_solver. }
  assert (∀ h', h' ≠ h → waiting {| by_hash := delete h (by_hash q); by_namespace := m' |} h'
    = waiting q h') as Hw.
  { intros h' Hne. unfold waiting. simpl. by rewrite lookup_delete_ne. }
  split_and!; [|..|done|done| |done].
  - split; [|by intros h' s; simpl; rewrite lookup_delete_Some; intros [_ ?]; eauto|done].
    intros h' ns. rewrite Hp. destruct (decide (h' = h)) as [->|Hne].
    + unfold waiting. simpl. rewrite lookup_delete_eq. set_solver.
    + rewrite Hw by done. rewrite Hi. set_solver.
  - unfold contains_hash. simpl. by rewrite lookup_delete_eq.
  - intros ns. rewrite Hrem, elem_of_elements. fold (waiting q h). rewrite Hi. unfold pending. set_solver.
Qed.

(** The end of a download completes exactly the namespaces that waited for
    it and for nothing else.  In a consistent queue, removing a hash takes it
    from every namespace that waited for it, leaves every other wait as it
    was, and returns - each once - the namespaces whose last pending hash it
    was; the two indices stay inverse to each other, with no empty sets. *)
Theorem remove_hash_spec h q : queued_wf q →
  let '(removed, q') := remove_hash h q in
  queued_wf q'
  ∧ contains_hash h q' = false
  ∧ (∀ ns, pending q' ns = pending q ns ∖ {[h]})
  ∧ (∀ ns, ns ∈ removed ↔ contains_namespace ns q = true ∧ contains_namespace ns q' = false)
  ∧ NoDup removed.
Proof.
  intros Hq. pose proof (remove_hash_run h q Hq) as Hr. destruct (remove_hash h q) as [removed q'].
  destruct Hr as (Hq' & Hc & Hp & _ & Hrem & Hnd). split_and!; [done|done|done| |done].
  intros ns. rewrite Hrem, (contains_namespace_pending q) by done.
  rewrite <- not_true_iff_false, (contains_namespace_pending q'), Hp by done. split.
  - intros ->. set_solver.
  - intros [Hne Hnn]. apply dec_stable in Hnn. by apply last_of_set.
Qed.

(** ** Slots *)
Section slots.
Context {R : Type}.
Implicit Types (s : gmap NamespaceId (NamespaceState R)).

Lemma slot_on_entry {A} ns nd (none : A) f s ns' nd' :
  slot (on_entry ns nd none f s).2 ns' nd' =
    if decide (ns' = ns ∧ nd' = nd) then (λ p, (f p).2) <$> slot s ns nd else slot s ns' nd'.
Proof.
  unfold slot, on_entry. destruct (s !! ns) as [n|] eqn:Hn; simpl.
  - destruct (f (default PeerState_default (nss_nodes n !! nd))) as [a p]. simpl.
    case_decide as Hd; [destruct Hd as [-> ->]; rewrite lookup_insert_eq; simpl; by rewrite lookup_insert_eq|].
    destruct (decide (ns' = ns)) as [->|Hne]; [|by rewrite lookup_insert_ne].
    rewrite lookup_insert_eq, Hn. simpl. rewrite lookup_insert_ne; [done|]. naive_solver.
  - case_decide as Hd; [destruct Hd as [-> ->]|]; by rewrite ?Hn.
Qed.
Lemma is_syncing_on_entry {A} ns nd (none : A) f s ns' :
  is_syncing ns' (on_entry ns nd none f s).2 = is_syncing ns' s.
Proof.
  unfold is_syncing, on_entry. destruct (s !! ns) as [n|] eqn:Hn; [|done].
  destruct (f (default PeerState_default (nss_nodes n !! nd))) as [a p]. simpl.
  destruct (decide (ns = ns')) as [<-|Hne]; [by rewrite lookup_insert_eq, Hn|by rewrite lookup_insert_ne].
Qed.
Lemma on_entry_syncing {A} ns nd (none : A) f s : (on_entry ns nd none f s).1 ≠ none →
  is_syncing ns s = true.
Proof. unfold is_syncing, on_entry. by destruct (s !! ns). Qed.

(** The flag of a namespace is not part of its slots. *)
Lemma set_may_emit_ready_slots ns v s :
  (∀ ns' nd', slot (set_may_emit_ready ns v s).2 ns' nd' = slot s ns' nd')
  ∧ ∀ ns', is_syncing ns' (set_may_emit_ready ns v s).2 = is_syncing ns' s.
Proof.
  unfold slot, is_syncing, set_may_emit_ready. destruct (s !! ns) as [n|] eqn:Hn; [simpl|done].
  split; intros ns'; [intros nd'|]; (destruct (decide (ns = ns')) as [<-|Hne];
    [by rewrite lookup_insert_eq, Hn|by rewrite lookup_insert_ne]).
Qed.
Lemma may_emit_ready_slots ns s :
  (∀ ns' nd', slot (may_emit_ready ns s).2 ns' nd' = slot s ns' nd')
  ∧ ∀ ns', is_syncing ns' (may_emit_ready ns s).2 = is_syncing ns' s.
Proof.
  unfold may_emit_ready. destruct (s !! ns) as [n|] eqn:Hn; [|done].
  pose proof (set_may_emit_ready_slots ns false s) as Hs. unfold set_may_emit_ready in Hs.
  rewrite Hn in Hs. by destruct (nss_may_emit_ready n).
Qed.

(** Every running dial of the slots is one of [dials]. *)
Definition dial_inv s (dials : list (NamespaceId * EndpointId * SyncReason)) : Prop :=
  ∀ ns nd p start reason, slot s ns nd = Some p → ps_state p = Running start (OrConnect reason) →
    (ns, nd, reason) ∈ dials.

Lemma dial_inv_slots s s' dials dials' : (∀ ns nd, slot s' ns nd = slot s ns nd) → dials ⊆ dials' →
  dial_inv s dials → dial_inv s' dials'.
Proof. intros Hs Hd Hi ns nd p start reason. rewrite Hs. intros. apply Hd. eauto. Qed.
End slots.

(** Every queued hash has exactly one download, and the namespace the
    download will be reported to waits for it. *)
Record download_inv (tasks : list (NamespaceId * Hash)) (q : QueuedHashes) : Prop := {
  di_queue : queued_wf q;
  di_once : NoDup (snd <$> tasks);
  di_queued : ∀ h, contains_hash h q = true ↔ h ∈ (snd <$> tasks);
  di_waits : ∀ ns h, (ns, h) ∈ tasks → h ∈ pending q ns;
}.

Lemma download_inv_perm tasks tasks' q : tasks ≡ₚ tasks' → download_inv tasks q → download_inv tasks' q.
Proof.
  intros Hp [H1 H2 H3 H4]. split; [done|by rewrite <- Hp| |].
  - intros h. by rewrite H3, Hp.
  - intros ns h. rewrite <- Hp. apply H4.
Qed.
Lemma contains_hash_insert h ns q h' :
  contains_hash h' (queued_insert h ns q) = bool_decide (h' = h) || contains_hash h' q.
Proof.
  unfold contains_hash. simpl. unfold or_insert. destruct (decide (h = h')) as [<-|Hne].
  - by rewrite lookup_insert_eq, bool_decide_eq_true_2.
  - by rewrite lookup_insert_ne, bool_decide_eq_false_2 by done.
Qed.
Lemma pending_insert_mono h ns q ns' h' : h' ∈ pending q ns' → h' ∈ pending (queued_insert h ns q) ns'.
Proof. rewrite queued_insert_pending. case_decide; set_solver. Qed.

Lemma download_inv_insert tasks q h ns : download_inv tasks q → contains_hash h q = true →
  download_inv tasks (queued_insert h ns q).
Proof.
  intros [H1 H2 H3 H4] Hc. split; [by apply queued_insert_wf|done| |].
  - intros h'. rewrite contains_hash_insert. destruct (decide (h' = h)) as [->|Hne].
    + rewrite bool_decide_eq_true_2 by done. split; [by rewrite <- H3|done].
    + rewrite bool_decide_eq_false_2 by done. apply H3.
  - intros ns' h' Hin. by apply pending_insert_mono, H4.
Qed.
Lemma download_inv_start tasks q h ns : download_inv tasks q → contains_hash h q = false →
  download_inv (tasks ++ [(ns, h)]) (queued_insert h ns q).
Proof.
  intros [H1 H2 H3 H4] Hc. assert (h ∉ tasks.*2) as Hnot.
  { intros Hin. apply H3 in Hin. congruence. }
  split; [by apply queued_insert_wf|..].
  - rewrite fmap_app. apply NoDup_app. split_and!; [done| |apply NoDup_singleton].
    simpl. intros x Hx Hx'. apply list_elem_of_singleton in Hx' as ->. done.
  - intros h'. rewrite contains_hash_insert, fmap_app, elem_of_app. simpl. rewrite list_elem_of_singleton, <- H3.
    destruct (decide (h' = h)) as [->|Hne].
    + rewrite bool_decide_eq_true_2 by done. naive_solver.
    + rewrite bool_decide_eq_false_2 by done. simpl. naive_solver.
  - intros ns' h' Hin. apply elem_of_app in Hin as [Hin|Hin]; [by apply pending_insert_mono, H4|].
    apply list_elem_of_singleton in Hin as [= -> ->]. rewrite queued_insert_pending, decide_True by done. set_solver.
Qed.
Lemma download_inv_end tasks q h ns : download_inv ((ns, h) :: tasks) q →
  download_inv tasks (remove_hash h q).2.
Proof.
  intros [H1 H2 H3 H4]. apply NoDup_cons in H2 as [Hnot H2]. simpl in Hnot.
  pose proof (remove_hash_run h q H1) as Hr. destruct (remove_hash h q) as [removed q'].
  destruct Hr as (Hq' & Hc & Hp & Hw & _ & _). simpl. split; [done|done|..].
  - intros h'. destruct (decide (h' = h)) as [->|Hne]; [by rewrite Hc|].
    rewrite contains_hash_waiting, Hw, <- contains_hash_waiting, H3 by done. simpl. rewrite elem_of_cons.
    naive_solver.
  - intros ns' h' Hin. rewrite Hp. specialize (H4 ns' h' ltac:(set_solver)).
    apply (list_elem_of_fmap_2 snd) in Hin. simpl in Hin. set_solver.
Qed.

(** ** Steps of the actor *)
Section inv.
Context {W : Type} `{Crypto, !SyncOps W, Postcard (list (N * AuthorId))}.
Implicit Types (a b c : LiveActor W) (ns : NamespaceId) (peer : EndpointId) (env : Env).

(** [dx] and [tx] are tasks that have ended but are not handled yet. *)
Definition live_inv (dx : list (NamespaceId * EndpointId * SyncReason)) (tx : list (NamespaceId * Hash)) a
    : Prop :=
  download_inv (tx ++ la_download_tasks a) (la_queued_hashes a)
  ∧ dial_inv (la_state a) (dx ++ la_running_sync_connect a).

(** What is announced, and to whom: nothing but digests and readiness, and
    only on joined topics of syncing namespaces. *)
Definition announced a (p : NamespaceId * Op) : Prop :=
  is_syncing p.1 (la_state a) = true ∧ p.1 ∈ la_gossip a
  ∧ match p.2 with OpPut _ => False | _ => True end.
Definition dialed a (d : NamespaceId * EndpointId * SyncReason) : Prop :=
  is_syncing d.1.1 (la_state a) = true.

Record step a b : Prop := {
  st_inv : ∀ dx tx, live_inv dx tx a → live_inv dx tx b;
  st_syncing : ∀ ns, is_syncing ns (la_state b) = is_syncing ns (la_state a);
  st_gossip : la_gossip b = la_gossip a;
  st_broadcast : ∃ bs, la_broadcast b = la_broadcast a ++ bs ∧ Forall (announced a) bs;
  st_dials : ∃ ds, la_running_sync_connect b = la_running_sync_connect a ++ ds ∧ Forall (dialed a) ds;
}.

Lemma step_refl a : step a a.
Proof. split; try done; exists []; by rewrite app_nil_r. Qed.
Lemma step_trans a b c : step a b → step b c → step a c.
Proof.
  intros [H1 H2 H3 (bs & H4 & H5) (ds & H6 & H7)] [K1 K2 K3 (bs' & K4 & K5) (ds' & K6 & K7)]. split.
  - auto.
  - intros ns. by rewrite K2.
  - by rewrite K3.
  - exists (bs ++ bs'). rewrite K4, H4, app_assoc. split; [done|]. apply Forall_app. split; [done|].
    eapply Forall_impl; [done|]. intros p. unfold announced. by rewrite H2, H3.
  - exists (ds ++ ds'). rewrite K6, H6, app_assoc. split; [done|]. apply Forall_app. split; [done|].
    eapply Forall_impl; [done|]. intros d. unfold dialed. by rewrite H2.
Qed.

(** Nothing that is tracked changes. *)
Lemma step_same a b :
  la_download_tasks b = la_download_tasks a → la_queued_hashes b = la_queued_hashes a →
  (∀ ns nd, slot (la_state b) ns nd = slot (la_state a) ns nd) →
  (∀ ns, is_syncing ns (la_state b) = is_syncing ns (la_state a)) →
  la_running_sync_connect b = la_running_sync_connect a → la_gossip b = la_gossip a →
  la_broadcast b = la_broadcast a → step a b.
Proof.
  intros H1 H2 H3 H4 H5 H6 H7. split; [|done|done|exists []; by rewrite app_nil_r..].
  intros dx tx [Hd Hs]. split; [by rewrite H1, H2|]. rewrite H5. by eapply dial_inv_slots; [|done|].
Qed.
Lemma step_downloads a t m r q :
  (∀ tx, download_inv (tx ++ la_download_tasks a) (la_queued_hashes a) → download_inv (tx ++ t) q) →
  step a (set_la_downloads t m r q a).
Proof.
  intros Hd. split; [|done|done|exists []; by rewrite app_nil_r..].
  intros dx tx [Ha Hs]. by split; [apply Hd|].
Qed.

Lemma foldl_step {A} (f : LiveActor W → A → LiveActor W) l a :
  (∀ b x, step b (f b x)) → step a (foldl f a l).
Proof.
  intros Hf. revert a. induction l as [|x l IH]; intros a; [apply step_refl|].
  simpl. eapply step_trans; [apply Hf|apply IH].
Qed.

Lemma step_send env ns ev a : step a (subscribers_send env ns ev a).
Proof.
  unfold subscribers_send. destruct (map_send _ _ _ _) as [[sent o] m]. by apply step_same.
Qed.
Lemma step_broadcast ns op a : (match op with OpPut _ => False | _ => True end) →
  step a (broadcast_neighbors ns op a).
Proof.
  intros Hop. unfold broadcast_neighbors. destruct (is_syncing ns (la_state a)) eqn:Hs; [simpl|apply step_refl].
  case_bool_decide as Hg; [|apply step_refl].
  split; [by intros dx tx|done|done|..|exists []; by rewrite app_nil_r].
  exists [(ns, op)]. split; [done|]. constructor; [done|constructor].
Qed.

Lemma step_sync_with_peer env ns peer reason a : step a (sync_with_peer env ns peer reason a).
Proof.
  unfold sync_with_peer, start_connect.
  pose proof (slot_on_entry ns peer false (peer_start_connect (ev_now env) reason) (la_state a)) as Hslot.
  pose proof (is_syncing_on_entry ns peer false (peer_start_connect (ev_now env) reason) (la_state a)) as Hsync.
  pose proof (on_entry_syncing ns peer false (peer_start_connect (ev_now env) reason) (la_state a)) as Hon.
  assert ((on_entry ns peer false (peer_start_connect (ev_now env) reason) (la_state a)).1 = false →
    ∀ p t r, slot (la_state a) ns peer = Some p →
      ps_state (peer_start_connect (ev_now env) reason p).2 = Running t (OrConnect r) →
      ps_state p = Running t (OrConnect r)) as Hno.
  { unfold on_entry, slot. destruct (la_state a !! ns) as [n|]; [|done]. simpl.
    intros Hf p t r [= <-]. revert Hf. destruct (default PeerState_default (nss_nodes n !! peer)) as [[|t' o] rs l];
      [done|]. simpl. by case_bool_decide. }
  destruct (on_entry _ _ _ _ _) as [[] st] eqn:Hrun; simpl in *.
  - split; [|done|done|exists []; by rewrite app_nil_r|].
    + intros dx tx [Hd Hs]. split; [done|]. simpl. intros ns' nd' p t r Hp Hr.
      rewrite Hslot in Hp. case_decide as Heq.
      * destruct Heq as [-> ->]. destruct (slot (la_state a) ns peer) as [p0|] eqn:Hp0; [|done].
        simpl in Hp. injection Hp as <-. destruct p0 as [[|t' o] rs l].
        -- simpl in Hr. injection Hr as <- <-. set_solver.
        -- exfalso. revert Hrun. unfold on_entry, slot in *. destruct (la_state a !! ns) as [n|]; [|done].
           simpl in Hp0. injection Hp0 as ->. simpl. by case_bool_decide.
      * rewrite app_assoc. apply elem_of_app. left. eauto.
    + exists [(ns, peer, reason)]. split; [done|]. constructor; [|constructor]. by apply Hon.
  - split; [|done|done|exists []; by rewrite app_nil_r..].
    intros dx tx [Hd Hs]. split; [done|]. simpl. intros ns' nd' p t r Hp Hr.
    rewrite Hslot in Hp. case_decide as Heq; [|eauto]. destruct Heq as [-> ->].
    destruct (slot (la_state a) ns peer) as [p0|] eqn:Hp0; [|done]. simpl in Hp. injection Hp as <-.
    eapply Hs; [done|]. by apply (Hno eq_refl).
Qed.

Lemma step_queue_download env ns h only a : step a (queue_download env ns h only a).
Proof.
  unfold queue_download. destruct (ev_complete env h); [by apply step_downloads|].
  destruct (contains_hash h (la_queued_hashes a)) eqn:Hc.
  { apply step_downloads. intros tx Ht. by apply download_inv_insert. }
  destruct (negb only || _); [|apply step_refl].
  apply step_downloads. intros tx Ht. rewrite app_assoc. by apply download_inv_start.
Qed.
Lemma step_start_download env ns h node only a : step a (start_download env ns h node only a).
Proof. unfold start_download. eapply step_trans; [|apply step_queue_download]. by apply step_same. Qed.

Lemma step_emit_pending env l a : step a (emit_pending env l a).
Proof.
  apply foldl_step. intros b ns. pose proof (may_emit_ready_slots ns (la_state b)) as [Hs Hy].
  destruct (may_emit_ready ns (la_state b)) as [r st]. simpl in *.
  assert (step b (set_la_state st b)) as Hst by by apply step_same.
  case_bool_decide; [|done]. eapply step_trans; [done|apply step_send].
Qed.

Lemma step_retry_parked env ns peer l a : step a (retry_parked env ns peer l a).
Proof. apply foldl_step. intros b h. apply step_start_download. Qed.
Lemma step_register_queued env ns peer l a : step a (register_queued env ns peer l a).
Proof.
  apply foldl_step. intros b h. eapply step_trans; [|apply step_start_download]. by apply step_downloads.
Qed.
Lemma step_on_sync_success env ns peer details a : step a (on_sync_success env ns peer details a).
Proof.
  unfold on_sync_success.
  eapply step_trans; [by apply (step_same a (set_la_sync (so_register_useful_peer ns peer (la_sync a)).2 a))|].
  eapply step_trans; [apply step_retry_parked|]. eapply step_trans; [apply step_register_queued|].
  destruct (0 <? _); [by apply step_broadcast|apply step_refl].
Qed.

(** *** The end of an exchange *)
Lemma finish_slot {R} now ns peer origin (res : R) s ns' nd' p : 
  slot (finish now ns peer origin res s).2 ns' nd' = Some p →
  if decide (ns' = ns ∧ nd' = peer) then ps_state p = Idle else slot s ns' nd' = Some p.
Proof.
  unfold finish. rewrite slot_on_entry. case_decide; [|done]. by destruct (slot s ns peer); [intros [= <-]|].
Qed.
Lemma finish_dials {R} now ns peer origin (res : R) s dials r :
  dial_inv s ((ns, peer, r) :: dials) → dial_inv (finish now ns peer origin res s).2 dials.
Proof.
  intros Hi ns' nd' p t r' Hp Hr. apply finish_slot in Hp. case_decide as Hd; [congruence|].
  pose proof (Hi _ _ _ _ _ Hp Hr) as Hin. apply elem_of_cons in Hin as [[= -> -> ->]|]; naive_solver.
Qed.
Lemma dial_inv_cons {R} (s : gmap NamespaceId (NamespaceState R)) d dials :
  dial_inv s dials → dial_inv s (d :: dials).
Proof. intros Hi ns nd p t r Hp Hr. apply elem_of_cons. right. eauto. Qed.

Definition finished env ns peer origin result a : LiveActor W :=
  set_la_state (finish (ev_now env) ns peer origin result (la_state a)).2 a.

Lemma step_finished env ns peer origin result a : step a (finished env ns peer origin result a).
Proof.
  split; [|intros ns'; apply is_syncing_on_entry|done|exists []; by rewrite app_nil_r..].
  intros dx tx [Hd Hs]. split; [done|]. simpl.
  by apply (finish_dials _ _ _ _ _ _ _ DirectJoin), dial_inv_cons.
Qed.

(** The success, the slot, the events. *)
Lemma on_sync_finished_steps env ns peer origin result a :
  ∃ b, step a b
    ∧ (∃ c, step (finished env ns peer origin result b) c
      ∧ (∀ ns' nd', slot (la_state c) ns' nd' = slot (la_state (finished env ns peer origin result b)) ns' nd')
      ∧ (on_sync_finished env ns peer origin result a = c
        ∨ on_sync_finished env ns peer origin result a = sync_with_peer env ns peer Resync c)).
Proof.
  unfold on_sync_finished.
  set (b := match result with Some details => on_sync_success env ns peer details a | None => a end).
  exists b. split. { unfold b. destruct result; [apply step_on_sync_success|apply step_refl]. }
  change (set_la_state (finish (ev_now env) ns peer origin result (la_state b)).2 b) with
    (finished env ns peer origin result b).
  unfold finished. destruct (finish (ev_now env) ns peer origin result (la_state b)) as [fin st]. simpl.
  destruct fin as [[started resync]|]; [|exists (set_la_state st b); split_and!; [apply step_refl|done|by left]].
  set (c1 := subscribers_send env ns _ (set_la_state st b)).
  assert (step (set_la_state st b) c1) as Hc1 by apply step_send.
  assert (la_state c1 = st) as Hst1.
  { unfold c1, subscribers_send. by destruct (map_send _ _ _ _) as [[]]. }
  set (c2 := if contains_namespace ns (la_queued_hashes c1) then _ else _).
  assert (step c1 c2 ∧ ∀ ns' nd', slot (la_state c2) ns' nd' = slot st ns' nd') as [Hc2 Hst2].
  { unfold c2. destruct (contains_namespace ns (la_queued_hashes c1)).
    - pose proof (set_may_emit_ready_slots ns true (la_state c1)) as [Hs Hy].
      split; [by apply step_same|]. intros ns' nd'. simpl. by rewrite Hs, Hst1.
    - set (c3 := subscribers_send env ns EvPendingContentReady c1).
      assert (la_state c3 = st) as Hst3.
      { rewrite <- Hst1. unfold c3, subscribers_send. by destruct (map_send _ _ _ _) as [[]]. }
      pose proof (set_may_emit_ready_slots ns false (la_state c3)) as [Hs Hy].
      split; [|intros ns' nd'; simpl; by rewrite Hs, Hst3].
      eapply step_trans; [apply step_send|]. fold c3. by apply step_same. }
  exists c2. split; [by eapply step_trans|]. split; [done|]. by destruct resync; [right|left].
Qed.

Lemma step_on_sync_finished env ns peer origin result a :
  step a (on_sync_finished env ns peer origin result a).
Proof.
  destruct (on_sync_finished_steps env ns peer origin result a) as (b & Hb & c & Hc & _ & Hf).
  assert (step a c) as Hac.
  { eapply step_trans; [exact Hb|]. eapply step_trans; [apply step_finished|exact Hc]. }
  destruct Hf as [->| ->]; [done|]. eapply step_trans; [exact Hac|apply step_sync_with_peer].
Qed.
(** Whoever reports it, the pair is no longer held by the reported task. *)
Lemma on_sync_finished_ends env ns peer origin result a r dx tx :
  live_inv ((ns, peer, r) :: dx) tx a → live_inv dx tx (on_sync_finished env ns peer origin result a).
Proof.
  intros Ha. destruct (on_sync_finished_steps env ns peer origin result a) as (b & Hb & c & Hc & _ & Hf).
  assert (live_inv dx tx c) as Hic.
  { apply (st_inv _ _ Hc). pose proof (st_inv _ _ Hb _ _ Ha) as [Hd Hs]. split; [done|].
    simpl. by eapply finish_dials. }
  destruct Hf as [->| ->]; [done|]. by apply (st_inv _ _ (step_sync_with_peer env ns peer Resync c)).
Qed.
Lemma on_sync_finished_slot env ns peer origin result a p :
  slot (la_state (on_sync_finished env ns peer origin result a)) ns peer = Some p →
  ps_state p = Idle ∨ ps_state p = Running (ev_now env) (OrConnect Resync).
Proof.
  destruct (on_sync_finished_steps env ns peer origin result a) as (b & Hb & c & Hc & Hs & Hf).
  assert (∀ p, slot (la_state c) ns peer = Some p → ps_state p = Idle) as Hidle.
  { intros p' Hp. rewrite Hs in Hp. apply finish_slot in Hp. by rewrite decide_True in Hp. }
  destruct Hf as [->| ->]; [by left; apply Hidle|].
  unfold sync_with_peer, start_connect.
  pose proof (slot_on_entry ns peer false (peer_start_connect (ev_now env) Resync) (la_state c) ns peer) as Hslot.
  rewrite decide_True in Hslot by done.
  destruct (on_entry _ _ _ _ _) as [ok st]. simpl in Hslot.
  assert (slot st ns peer = Some p → ps_state p = Running (ev_now env) (OrConnect Resync)) as Hrun.
  { rewrite Hslot. destruct (slot (la_state c) ns peer) as [p0|] eqn:Hp0; [|done]. intros [= <-].
    specialize (Hidle p0 eq_refl). destruct p0 as [st0 rs l]. simpl in Hidle. by subst st0. }
  intros Hp. right. by destruct ok; apply Hrun.
Qed.

(** *** The end of a download *)
Lemma step_on_download_ready env ns h ok a :
  step (set_la_downloads (la_download_tasks a) (la_missing_hashes a) (la_retry_after_failure a)
    (remove_hash h (la_queued_hashes a)).2 a) (on_download_ready env ns h ok a).
Proof.
  unfold on_download_ready. destruct (remove_hash h (la_queued_hashes a)) as [completed q]. simpl.
  set (b := set_la_downloads (la_download_tasks a) (la_missing_hashes a) (la_retry_after_failure a) q a).
  eapply step_trans; [|apply step_emit_pending]. destruct ok.
  - eapply step_trans; [by apply (step_downloads b (la_download_tasks b) (la_missing_hashes b)
      (base.filter (λ p, p.2 ≠ h) (la_retry_after_failure b)) (la_queued_hashes b))|].
    eapply step_trans; [apply step_send|by apply step_broadcast].
  - eapply step_trans; [by apply (step_downloads b (la_download_tasks b) ({[(ns, h)]} ∪ la_missing_hashes b)
      (la_retry_after_failure b ∖ {[(ns, h)]}) (la_queued_hashes b))|].
    case_bool_decide; [apply step_queue_download|apply step_refl].
Qed.

(** *** Turns *)
Record turn_ok a b : Prop := {
  tn_inv : live_inv [] [] a → live_inv [] [] b;
  tn_broadcast : ∃ bs, la_broadcast b = la_broadcast a ++ bs ∧ Forall (announced b) bs;
  tn_dials : ∀ d, d ∈ la_running_sync_connect b → d ∈ la_running_sync_connect a ∨ dialed b d;
}.

(** Into a turn: what precedes a step may only lose slots or add idle ones. *)
Lemma turn_of_step a b c :
  (live_inv [] [] a → live_inv [] [] b) → la_broadcast b = la_broadcast a →
  la_running_sync_connect b ⊆ la_running_sync_connect a → step b c → turn_ok a c.
Proof.
  intros Hi Hb Hd [H1 H2 H3 (bs & H4 & H5) (ds & H6 & H7)]. split.
  - intros Ha. auto.
  - exists bs. rewrite H4, Hb. split; [done|]. eapply Forall_impl; [done|]. intros p. unfold announced.
    by rewrite H2, H3.
  - intros d. rewrite H6, elem_of_app. intros [Hin|Hin]; [left; auto|right].
    rewrite Forall_forall in H7. specialize (H7 d Hin). unfold dialed in *. by rewrite H2.
Qed.
Lemma turn_step a b : step a b → turn_ok a b.
Proof. by apply turn_of_step. Qed.
Lemma turn_shrink a b :
  la_download_tasks b = la_download_tasks a → la_queued_hashes b = la_queued_hashes a →
  (∀ ns nd p, slot (la_state b) ns nd = Some p → slot (la_state a) ns nd = Some p ∨ ps_state p = Idle) →
  la_running_sync_connect b = la_running_sync_connect a → la_broadcast b = la_broadcast a → turn_ok a b.
Proof.
  intros H1 H2 H3 H4 H5. apply (turn_of_step _ b); [|done|by rewrite H4|apply step_refl].
  intros [Hd Hs]. split; [by rewrite H1, H2|]. rewrite H4. intros ns nd p t r Hp Hr.
  destruct (H3 _ _ _ Hp) as [Hp'|Hp']; [eauto|congruence].
Qed.

Lemma turn_start_sync env ns peers join a : turn_ok a (start_sync env ns peers join a).2.
Proof.
  unfold start_sync.
  set (opened := if is_syncing ns (la_state a) then _ else _).
  assert (turn_ok a opened.2 ∧ la_broadcast opened.2 = la_broadcast a
    ∧ la_running_sync_connect opened.2 = la_running_sync_connect a) as (Hop & Hob & Hod).
  { unfold opened. destruct (is_syncing ns (la_state a)) eqn:Hsy.
    { split_and!; [apply turn_step, step_refl|done|done]. }
    destruct (so_open ns (la_sync a)) as [ok w].
    destruct ok; simpl; (split_and!; [apply turn_shrink; try done|done|done]); simpl; [|by left].
    intros ns' nd p. unfold slot, states_insert. destruct (la_state a !! ns) as [n|] eqn:Hn; [by left|].
    destruct (decide (ns = ns')) as [<-|Hne]; [|rewrite lookup_insert_ne by done; by left].
    rewrite lookup_insert_eq. simpl. rewrite lookup_empty. intros [= <-]. by right. }
  destruct opened as [ok b]. simpl in *. destruct ok; simpl; [|done].
  destruct (so_get_sync_peers ns (la_sync b)) as [known w].
  set (all := match known with Some (Some _) => _ | _ => _ end). unfold join_peers.
  assert (∀ c, step c (foldl (λ a peer, sync_with_peer env ns peer DirectJoin a) c all)) as Hdial.
  { intros c. apply foldl_step. intros b' peer. apply step_sync_with_peer. }
  destruct join; [destruct (ev_join_ok env)|]; simpl.
  - apply (turn_of_step _ (set_la_gossip ({[ns]} ∪ la_gossip b) (set_la_sync w b))); [|done|by rewrite <- Hod|apply Hdial].
    intros Ha. apply (tn_inv _ _ Hop Ha).
  - apply (turn_of_step _ (set_la_sync w b)); [|done|by rewrite <- Hod|apply step_refl].
    intros Ha. apply (tn_inv _ _ Hop Ha).
  - apply (turn_of_step _ (set_la_sync w b)); [|done|by rewrite <- Hod|apply Hdial].
    intros Ha. apply (tn_inv _ _ Hop Ha).
Qed.

Lemma turn_leave ns kill a : turn_ok a (leave ns kill a).2.
Proof.
  assert (∀ ns' nd p, slot (delete ns (la_state a)) ns' nd = Some p → slot (la_state a) ns' nd = Some p) as Hdel.
  { intros ns' nd p. unfold slot. destruct (decide (ns = ns')) as [<-|Hne].
    - by rewrite lookup_delete_eq.
    - by rewrite lookup_delete_ne. }
  unfold leave, states_remove. simpl. destruct (is_syncing ns (la_state a)).
  - unfold sync_try. simpl. repeat (destruct (_ : bool * W) as [[] ?]; simpl); destruct kill; simpl;
      apply turn_shrink; simpl; try done; intros; left; eauto.
  - destruct kill; simpl; apply turn_shrink; simpl; try done; intros; left; eauto.
Qed.

Lemma turn_message env msg a : turn_ok a (on_actor_message env msg a).
Proof.
  destruct msg as [ns peers join|ns kill|ns|ns sender|peer|ns peer|from report|ns node h|ns peer|ns peer];
    simpl.
  - apply turn_start_sync.
  - apply turn_leave.
  - apply turn_shrink; try done. by left.
  - by apply turn_step, step_same.
  - by apply turn_step, step_same.
  - unfold accept_sync_request, accept_request.
    pose proof (slot_on_entry ns peer (RejectRequest NotFound) (peer_accept_request (ev_now env) (la_me a) peer)
      (la_state a)) as Hslot.
    destruct (on_entry _ _ _ _ _) as [o st]. simpl in *. apply turn_of_step with (set_la_state st a);
      [|done|done|apply step_refl].
    intros [Hd Hs]. split; [done|]. simpl. intros ns' nd p t r Hp Hr.
    rewrite Hslot in Hp. case_decide as Heq; [|by eapply Hs]. destruct Heq as [-> ->].
    destruct (slot (la_state a) ns peer) as [p0|] eqn:Hp0; [|done]. injection Hp as <-.
    eapply Hs; [exact Hp0|]. revert Hr. unfold peer_accept_request.
    destruct p0 as [[|t' [r'|]] rs l]; simpl; [done| |done].
    by destruct (expected_sync_direction (la_me a) peer).
  - unfold on_sync_report. destruct (is_syncing _ _); simpl; [|apply turn_step, step_refl].
    destruct (heads_decode (sr_heads report)) as [heads|]; [|apply turn_step, step_refl].
    destruct (so_has_news_for_us _ _ _) as [news w]. apply turn_step.
    assert (step a (set_la_sync w a)) as Hw by by apply step_same.
    destruct news as [[n|]|]; [|done|done]. eapply step_trans; [done|apply step_sync_with_peer].
  - apply turn_step, step_start_download.
  - apply turn_step. eapply step_trans; [apply step_sync_with_peer|apply step_send].
  - apply turn_step, step_send.
Qed.

Lemma turn_replica_event env ev a : turn_ok a (on_replica_event env ev a).
Proof.
  apply turn_step. destruct ev as [ns entry|ns entry from should status]; simpl.
  - destruct (is_syncing ns (la_state a)); [by apply step_broadcast|apply step_refl].
  - destruct should; [|apply step_refl].
    destruct status; try by apply step_downloads.
    destruct (pk_from_bytes from); [apply step_start_download|apply step_refl].
Qed.

(** *** The end of a task *)
Lemma elem_of_taken {A} i (l : list A) x : l !! i = Some x →
  ∀ y, y ∈ l ↔ y = x ∨ y ∈ base.delete i l.
Proof.
  intros Hi y. etrans; [apply (elem_of_Permutation_proper y _ _ (delete_Permutation _ _ _ Hi))|].
  apply elem_of_cons.
Qed.

Lemma abort_slot {R} ns peer reason (s : gmap NamespaceId (NamespaceState R)) dials :
  dial_inv s ((ns, peer, reason) :: dials) → dial_inv (abort_connect ns peer reason s).2 dials.
Proof.
  intros Hs ns' nd p t r Hp Hr. unfold abort_connect in Hp. rewrite slot_on_entry in Hp.
  case_decide as Heq.
  - destruct Heq as [-> ->]. destruct (slot s ns peer) as [p0|] eqn:Hp0; [|done].
    simpl in Hp. injection Hp as <-. unfold peer_abort_connect in Hr. destruct p0 as [[|t' [r'|]] rs l]; simpl in Hr; [done| |done].
    case_bool_decide as Hrr; simpl in Hr; [done|]. injection Hr as -> ->.
    pose proof (Hs _ _ _ _ _ Hp0 eq_refl) as Hin. apply elem_of_cons in Hin as [[= ->]|]; done.
  - pose proof (Hs _ _ _ _ _ Hp Hr) as Hin. apply elem_of_cons in Hin as [[= -> -> ->]|]; [naive_solver|done].
Qed.

(** A finished dial no longer counts, and what follows is a step. *)
Lemma connect_finished_steps env ns peer reason res b :
  step b (on_sync_via_connect_finished env ns peer reason res b)
  ∧ (live_inv [(ns, peer, reason)] [] b →
      live_inv [] [] (on_sync_via_connect_finished env ns peer reason res b)).
Proof.
  assert (∀ r, step b (on_sync_finished env ns peer (OrConnect reason) r b)
    ∧ (live_inv [(ns, peer, reason)] [] b →
        live_inv [] [] (on_sync_finished env ns peer (OrConnect reason) r b))) as Hfin.
  { intros r. split; [apply step_on_sync_finished|apply on_sync_finished_ends]. }
  unfold on_sync_via_connect_finished. destruct res as [f|[|[]| |]|]; try apply Hfin. clear Hfin.
  assert (∀ dx tx, live_inv ((ns, peer, reason) :: dx) tx b →
    live_inv dx tx (set_la_state (abort_connect ns peer reason (la_state b)).2 b)) as Habort.
  { intros dx tx [Hd Hs]. split; [done|]. by apply abort_slot. }
  split; [|apply Habort].
  split; [|intros ns'; apply is_syncing_on_entry|done|exists []; by rewrite app_nil_r..].
  intros dx tx [Hd Hs]. apply Habort. split; [done|]. by apply dial_inv_cons.
Qed.

Lemma turn_connect_done env i res a : turn_ok a (live_turn env (LtConnectDone i res) a).
Proof.
  simpl. destruct (la_running_sync_connect a !! i) as [[[ns peer] reason]|] eqn:Hi; [|apply turn_step, step_refl].
  pose proof (elem_of_taken _ _ _ Hi) as Hmem.
  set (b := set_la_dials (la_state a) (base.delete i (la_running_sync_connect a)) a).
  destruct (connect_finished_steps env ns peer reason res b) as [Hc Hic].
  destruct (turn_step _ _ Hc) as [_ K2 K3]. split; [|done|].
  - intros [Hd Hs]. apply Hic. split; [done|]. intros ns' nd p t r Hp Hr. apply elem_of_cons, Hmem. eauto.
  - intros d Hin. destruct (K3 d Hin) as [Hd|]; [|by right]. left. apply Hmem. by right.
Qed.

Lemma turn_accept_done env i res a : turn_ok a (live_turn env (LtAcceptDone i res) a).
Proof.
  simpl. destruct (la_running_sync_accept a !! i) as [peer|]; [|apply turn_step, step_refl].
  apply turn_step. set (b := set_la_accepts (base.delete i (la_running_sync_accept a)) a).
  assert (step a b) as Hb by by apply step_same.
  unfold on_sync_via_accept_finished.
  destruct res as [f|err|]; [eapply step_trans; [done|apply step_on_sync_finished]| |done].
  assert (step a match AcceptError_peer err, AcceptError_namespace err with
    | Some peer, Some ns => on_sync_finished env ns peer OrAccept None b | _, _ => b end) as Hf.
  { destruct (AcceptError_peer err) as [p|], (AcceptError_namespace err) as [n|]; try done.
    eapply step_trans; [done|apply step_on_sync_finished]. }
  by destruct err as [| |p n []| |].
Qed.

Lemma turn_live env t a : turn_ok a (live_turn env t a).
Proof.
  destruct t as [msg|ev|i res|i res|i ok|ns]; [apply turn_message|apply turn_replica_event
    |apply turn_connect_done|apply turn_accept_done|simpl..].
  - destruct (la_download_tasks a !! i) as [[ns h]|] eqn:Hi; [|apply turn_step, step_refl].
    eapply turn_of_step; [| | |apply step_on_download_ready]; try done.
    intros [Hd Hs]. split; [|done]. simpl.
    eapply download_inv_end, download_inv_perm; [apply delete_Permutation; exact Hi|exact Hd].
  - apply turn_shrink; try done. by left.
Qed.

(** *** Runs *)
Definition live_run (ts : list (Env * LiveTurn)) a : LiveActor W :=
  foldl (λ a t, live_turn t.1 t.2 a) a ts.

Lemma live_new_inv me access (w : W) : live_inv [] [] (LiveActor_new me access w).
Proof.
  split; [split; [apply queued_empty_wf|constructor|..]|]; simpl.
  - intros h. unfold contains_hash. simpl. rewrite lookup_empty. set_solver.
  - set_solver.
  - intros ns nd p t r. unfold slot. simpl. by rewrite lookup_empty.
Qed.
Lemma live_run_inv ts a : live_inv [] [] a → live_inv [] [] (live_run ts a).
Proof.
  revert a. induction ts as [|[env t] ts IH]; intros a Ha; [done|]. apply IH.
  by apply (tn_inv _ _ (turn_live env t a)).
Qed.

(** C7: the live actor's bookkeeping never drifts.  Whatever messages, events
    and ends of tasks it has seen, in whatever order: a hash is queued exactly
    while one single download of it is running, and the namespace that
    download reports to waits for the hash, so every queued hash is
    eventually reported; the two indices of the queue are inverse to each
    other, without empty sets; and a slot that says a dial is running has
    that dial among the running tasks, with that reason, so no pair is held
    by a dial that nobody makes. *)
Theorem live_invariant me access (w : W) ts :
  let a := live_run ts (LiveActor_new me access w) in
  (∀ h, contains_hash h (la_queued_hashes a) = true ↔ h ∈ (snd <$> la_download_tasks a))
  ∧ NoDup (snd <$> la_download_tasks a)
  ∧ (∀ ns h, (ns, h) ∈ la_download_tasks a → h ∈ pending (la_queued_hashes a) ns)
  ∧ queued_wf (la_queued_hashes a)
  ∧ (∀ ns peer p start reason, slot (la_state a) ns peer = Some p →
       ps_state p = Running start (OrConnect reason) → (ns, peer, reason) ∈ la_running_sync_connect a).
Proof.
  intros a. destruct (live_run_inv ts _ (live_new_inv me access w)) as [[H1 H2 H3 H4] Hs].
  by split_and!.
Qed.

(** C21: only syncing namespaces act, and the topic is content-free.  Whatever
    happens in a turn, an announcement goes only to a joined topic of a
    namespace that is syncing and never carries an entry, and a dial is
    started only for a namespace that is syncing. *)
Theorem only_syncing_namespaces_act env t a :
  let b := live_turn env t a in
  (∃ bs, la_broadcast b = la_broadcast a ++ bs
     ∧ ∀ ns op, (ns, op) ∈ bs → is_syncing ns (la_state b) = true ∧ ns ∈ la_gossip b
         ∧ ∀ entry, op ≠ OpPut entry)
  ∧ (∀ ns peer reason, (ns, peer, reason) ∈ la_running_sync_connect b →
       (ns, peer, reason) ∈ la_running_sync_connect a ∨ is_syncing ns (la_state b) = true).
Proof.
  intros b. destruct (turn_live env t a) as [_ (bs & Hb & Hf) Hd]. split.
  - exists bs. split; [done|]. intros ns op Hin. rewrite Forall_forall in Hf.
    destruct (Hf _ Hin) as (Hs & Hg & Ho). split_and!; [done|done|]. by intros entry ->.
  - intros ns peer reason Hin. apply (Hd _ Hin).
Qed.
End inv.
