(* ===== verification/LiveFacts.v ===== *)
(** * The live actor: access, release, downloads, leaving

    What the access provider of [src/engine/live.rs] guarantees over a whole
    connection of [src/net.rs], that the end of an accepted exchange frees
    its pair, and how failed downloads and failed leaves end. *)
From S2P Require Import Prelude Redb Keys Entry Heads Ranger Info Store StoreInstance Filter Replica SyncState Codec Net Actor ActorInv ActorSessions Live SyncHandle LiveInv.

(** ** A denied peer *)
Section denied.
Context {W SessionId : Type} `{Postcard WireMessage, !SyncService W SessionId}.
Context (accept_cb : NamespaceId → EndpointId → W → option AcceptOutcome * W) (peer : EndpointId).
Context (J : W → Prop) (prior : list WireMessage) (reasons : AbortReason → Prop).
Implicit Types (b : Bob (W:=W) (SessionId:=SessionId)) (c : Conn (W:=W)).

Context (cb_denies : ∀ ns w f, (accept_cb ns peer w).1 ≠ Some (Allow f)).
Context (cb_keeps : ∀ ns w, J w → J (accept_cb ns peer w).2).
Context (cb_reasons : ∀ ns w r, (accept_cb ns peer w).1 = Some (RejectRequest r) → reasons r).
Context (error_reason : reasons InternalServerError).

Definition is_abort (m : WireMessage) : Prop := ∃ reason, m = WmAbort reason ∧ reasons reason.

(** No session, nothing but aborts on the wire, and of the sync actor's state
    only what the decision itself does to it. *)
Record sealed b : Prop := {
  sl_peer : bs_peer (b_state b) = peer;
  sl_session : bs_session (b_state b) = None;
  sl_world : J (cx_world (b_conn b));
  sl_sent : ∃ sent, cx_sent (b_conn b) = prior ++ sent ∧ Forall is_abort sent;
}.

Lemma sealed_conn b c : sealed b → J (cx_world c) → cx_sent c = cx_sent (b_conn b) → sealed (set_b_conn c b).
Proof. intros [H1 H2 H3 H4] Hj Hc. split; simpl; [done..|]. by rewrite Hc. Qed.

Lemma send_abort_sealed r b : reasons r → sealed b → sealed (set_b_conn (writer_send (WmAbort r) (b_conn b)).2 b).
Proof.
  intros Hr [H1 H2 H3 (sent & H4 & H5)]. unfold writer_send.
  destruct (SyncCodec_encode (WmAbort r) []) as [[u|e|] dst]; [|by (split; [..|exists sent])..].
  destruct (head (cx_writes (b_conn b))) as [[]|]; (split; simpl; [done..|]); try by exists sent.
  - exists (sent ++ [WmAbort r]). rewrite H4, app_assoc. split; [done|]. apply Forall_app_2; [done|]. constructor; [by exists r|constructor].
  - exists (sent ++ [WmAbort r]). rewrite H4, app_assoc. split; [done|]. apply Forall_app_2; [done|]. constructor; [by exists r|constructor].
Qed.

(** [m] keeps the seal, however it ends. *)
Definition seals {A} (m : ST Bob (Halt AcceptError) A) : Prop := ∀ b, sealed b → sealed (m b).2.

Lemma seals_bind {A B} (m : ST Bob (Halt AcceptError) A) (f : A → ST Bob (Halt AcceptError) B) :
  seals m → (∀ x, seals (f x)) → seals (m ≫= f).
Proof.
  intros Hm Hf b Hb. specialize (Hm b Hb). unfold mbind, ST_bind.
  destruct (m b) as [[x|e|] b']; [by apply Hf|done|done].
Qed.
Lemma message_never s msg b : sealed b → b_state b = s →
  sealed (bob_message accept_cb s msg b).2 ∧ ∀ x, (bob_message accept_cb s msg b).1 ≠ Ok x.
Proof.
  intros Hb <-. unfold bob_message. rewrite (sl_session b Hb). destruct msg as [ns m|m|r]; [|done..].
  unfold bob_modify. rewrite st_modify_bind. unfold mbind, ST_bind, observed_accept_cb. simpl.
  destruct Hb as [H1 H2 H3 H4]. rewrite H1.
  pose proof (cb_denies ns (cx_world (b_conn b))) as Hd. pose proof (cb_keeps ns _ H3) as Hk.
  pose proof (cb_reasons ns (cx_world (b_conn b))) as Hre.
  destruct (accept_cb ns peer (cx_world (b_conn b))) as [[o|] w] eqn:Hcb; simpl in *; [|by (split; [split|])].
  destruct o as [f|reason]; [by destruct (Hd f)|]. unfold bob_do. simpl.
  set (b1 := {| b_state := _; b_conn := _; b_accepted := _ |}).
  assert (sealed b1) as Hb1 by by split.
  pose proof (send_abort_sealed reason b1 (Hre reason eq_refl) Hb1) as Hs. unfold b1 in Hs at 1. simpl in Hs.
  destruct (writer_send (WmAbort reason) (set_world w (b_conn b))) as [[u|h|] c]; simpl; by split.
Qed.

Lemma rounds_seal reads : seals (run_rounds_loop accept_cb reads).
Proof.
  induction reads as [|rd reads IH]; [by intros b Hb|].
  simpl. apply seals_bind. { intros b Hb. destruct Hb. by apply sealed_conn. }
  intros _ b Hb. rewrite st_gets_bind. revert b Hb.
  intros b Hb. destruct rd as [msg|e|]; [|by unfold mbind, ST_bind..].
  pose proof (message_never (b_state b) msg b Hb eq_refl) as [Hs Hn].
  unfold mbind, ST_bind. destruct (bob_message accept_cb (b_state b) msg b) as [[x|h|] b']; [|done|done].
  by destruct (Hn x).
Qed.
Lemma bob_run_seals : seals (bob_run accept_cb).
Proof.
  assert (seals (run_rounds accept_cb)) as Hr.
  { unfold run_rounds. apply seals_bind; [by intros b Hb|]. intros b0. apply seals_bind; [apply rounds_seal|].
    intros _. apply seals_bind; [by intros b Hb|]. intros s b Hb. by destruct (bs_namespace s). }
  unfold bob_run. apply seals_bind.
  { intros b Hb. specialize (Hr b Hb). unfold catch. by destruct (run_rounds accept_cb b) as [[|[]|]]. }
  intros res. apply seals_bind; [|by intros _ b Hb].
  assert (seals (λ b, let '(r, c) := writer_send (WmAbort InternalServerError) (b_conn b) in
    (match r with Err Elapsed => Err Elapsed | Panic => Panic | _ => Ok tt end, set_b_conn c b))) as Hw.
  { intros b Hb. pose proof (send_abort_sealed InternalServerError b error_reason Hb) as Hs.
    by destruct (writer_send (WmAbort InternalServerError) (b_conn b)). }
  destruct res as [ns|[]|]; try exact Hw; by intros b Hb.
Qed.

Lemma step_result_seals e st : seals (step_result e st).
Proof. by destruct st; intros b Hb. Qed.
Lemma connection_seals opened td : seals (handle_connection_inner accept_cb opened td peer).
Proof.
  unfold handle_connection_inner. apply seals_bind; [apply step_result_seals|]. intros _. apply seals_bind.
  { intros b Hb. pose proof (bob_run_seals b Hb) as Hs. unfold catch.
    by destruct (bob_run accept_cb b) as [[|[]|]]. }
  intros res b Hb. rewrite st_gets_bind, (sl_session b Hb), st_modify_bind. revert b Hb.
  intros b Hb. refine (seals_bind _ _ _ _ b Hb).
  - intros b' Hb'. unfold catch.
    assert (seals (bob_closed td peer (bs_namespace (b_state b)))) as Hc.
    { unfold bob_closed. apply seals_bind; [apply step_result_seals|]. intros _.
      apply seals_bind; [apply step_result_seals|]. intros _. apply step_result_seals. }
    specialize (Hc b' Hb'). by destruct (bob_closed _ _ _ b') as [[|[]|]].
  - intros closed. apply seals_bind; [by intros b' Hb'|]. by intros ns b' Hb'.
Qed.

Lemma denied_connection opened td c : J (cx_world c) → cx_sent c = prior →
  sealed (handle_connection accept_cb opened td peer c).2.
Proof.
  intros Hj Hc. unfold handle_connection.
  pose proof (connection_seals opened td {| b_state := BobState_new peer; b_conn := c; b_accepted := None |}) as Hs.
  destruct (handle_connection_inner _ _ _ _ _) as [res b]. simpl in *.
  assert (sealed b) as Hb.
  { apply Hs. split; simpl; try done. exists []. by rewrite app_nil_r. }
  rewrite (sl_session b Hb). by destruct res as [|[]|].
Qed.
End denied.

(** ** What the access provider decides *)
Section access.
Context {W SessionId : Type} `{Postcard WireMessage, !SyncService W SessionId}.
Context (provider : NamespaceId → EndpointId → SessionRole → SessionAccess).
Implicit Types (ns : NamespaceId) (peer : EndpointId).

(** The callback of [handle_connection] as the live actor builds it; [answer]
    is the live actor's own decision. *)
Definition engine_accept_cb (answer : NamespaceId → EndpointId → W → option AcceptOutcome * W)
    (ns : NamespaceId) (peer : EndpointId) (w : W) : option AcceptOutcome * W :=
  let '(o, w') := answer ns peer w in (Some (accept_request_cb (Some provider) ns peer o), w').

(** C10: what a peer that the access provider denies gets to see.  On an
    accepted connection, whatever the peer sends and however the connection
    ends, no session is opened, the sync actor's state changes only by the
    engine's own decision on the request, and nothing but aborts is ever sent:
    with the reason that the namespace is not hosted, with that of an error, or
    with the reason of the engine's own refusal, which is asked first - a busy
    pair is answered as busy to a denied peer too.  Where the engine would have
    allowed the request the peer is answered exactly as if the namespace were
    not hosted.  A denied dial fails before anything is dialed. *)
Theorem denied_peer_sees_nothing answer (J : W → Prop) opened su td peer (c : Conn) :
  (∀ ns role, provider ns peer role = Deny) →
  (∀ ns w, J w → J (answer ns peer w).2) → J (cx_world c) →
  (let b := (handle_connection (engine_accept_cb answer) opened td peer c).2 in
   bs_session (b_state b) = None ∧ J (cx_world (b_conn b))
   ∧ ∃ sent, cx_sent (b_conn b) = cx_sent c ++ sent ∧ ∀ m, m ∈ sent → ∃ reason, m = WmAbort reason
       ∧ (reason = NotFound ∨ reason = InternalServerError
          ∨ ∃ ns w, (answer ns peer w).1 = Some (RejectRequest reason)))
  ∧ (∀ ns f now me, accept_request_cb (Some provider) ns peer (Some (Allow f))
       = (accept_request (R:=option SyncFinished) now me ns peer ∅).1)
  ∧ (∀ ns reason, accept_request_cb (Some provider) ns peer (Some (RejectRequest reason)) = RejectRequest reason)
  ∧ (∀ ns, dial_task (Some provider) su td ns peer c = (Err (CnSync CaDenied), c)).
Proof.
  intros Hdeny Hkeep Hj. split_and!; [| |done|].
  - destruct (denied_connection (engine_accept_cb answer) peer J (cx_sent c)
      (λ reason, reason = NotFound ∨ reason = InternalServerError
         ∨ ∃ ns w, (answer ns peer w).1 = Some (RejectRequest reason))) with (opened := opened)
      (td := td) (c := c) as [_ H2 H3 (sent & H4 & H5)]; [..|done|done|].
    + intros ns w f. unfold engine_accept_cb, accept_request_cb. destruct (answer ns peer w) as [[[g|r]|] w']; simpl;
        rewrite ?Hdeny; done.
    + intros ns w Hw. specialize (Hkeep ns w Hw). unfold engine_accept_cb. by destruct (answer ns peer w).
    + intros ns w r. unfold engine_accept_cb, accept_request_cb. destruct (answer ns peer w) as [[[g|r']|] w'] eqn:Ha; simpl;
        rewrite ?Hdeny; intros [= <-]; auto. right. right. exists ns, w. by rewrite Ha.
    + by right; left.
    + split_and!; [done|done|]. exists sent. split; [done|]. intros m Hm. rewrite Forall_forall in H5. by apply H5.
  - intros ns f now me. unfold accept_request_cb. simpl. by rewrite Hdeny.
  - intros ns. unfold dial_task. by rewrite Hdeny.
Qed.

(** A denied peer can tell that a namespace is hosted while its pair is busy,
    for instance by its own first request: a request that the engine allows
    takes the slot before the provider denies it, and a second one before the
    end of the first is answered as already syncing. *)
Theorem denied_peer_sees_busy {R} now me ns peer (s s' : gmap NamespaceId (NamespaceState R)) f :
  (∀ ns role, provider ns peer role = Deny) → accept_request now me ns peer s = (Allow f, s') →
  ∀ later, accept_request_cb (Some provider) ns peer (Some (accept_request later me ns peer s').1)
    = RejectRequest AlreadySyncing.
Proof.
  intros Hdeny. unfold accept_request, on_entry. destruct (s !! ns) as [n|] eqn:Hn; [|done].
  set (p := default PeerState_default _). destruct (peer_accept_request now me peer p) as [o p'] eqn:Hp.
  intros [= -> <-] later. rewrite lookup_insert_eq. simpl. rewrite lookup_insert_eq. simpl.
  assert (∃ start, ps_state p' = Running start OrAccept) as [start Hr].
  { revert Hp. clear. destruct p as [[|st [r|]] rs l]; unfold peer_accept_request; simpl; repeat case_match; intros; simplify_eq/=; by eexists. }
  by rewrite Hr.
Qed.
End access.

(** ** The end of an accepted exchange *)
Section release.
Context {W SessionId V : Type} `{Countable SessionId, Crypto, Postcard WireMessage, !PostcardOk WireMessage,
  !SyncService W SessionId, !SyncServiceOk W SessionId, !SyncOps V, Postcard (list (N * AuthorId))}.
Context (accept_cb : NamespaceId → EndpointId → W → option AcceptOutcome * W).

(** C12: an accepted exchange always gives its pair back.  However a connection
    ends, once the live actor has handled the result of [handle_connection]
    the pair whose request was decided is not held by an accepted exchange any
    more - it is idle, or we are dialing the peer again because of a report
    that came in meanwhile - so no pair is stuck; only if we refused the
    request because the pair was busy is nothing touched. *)
Theorem accept_end_frees_pair opened td peer (c : Conn (W:=W)) env (a : LiveActor V) :
  (∀ ns p w, sv_held (accept_cb ns p w).2 ⊆ sv_held w) →
  let '(res, b) := handle_connection accept_cb opened td peer c in
  let a' := on_sync_via_accept_finished env res a in
  ∀ ns, b_accepted b = Some ns →
    (∀ p, slot (la_state a') ns peer = Some p →
       ps_state p = Idle ∨ ps_state p = Running (ev_now env) (OrConnect Resync))
    ∨ (a' = a ∧ res = Err (AeAbort peer ns AlreadySyncing)
       ∧ ∃ w w', accept_cb ns peer w = (Some (RejectRequest AlreadySyncing), w')).
Proof.
  intros Hheld. pose proof (handle_connection_run accept_cb Hheld opened td peer c) as Hr.
  destruct (handle_connection accept_cb opened td peer c) as [res b]. destruct Hr as [Hr _].
  intros a' ns Hns. unfold a'. destruct res as [f|e|]; simpl in Hr |- *; [|..|done].
  - destruct Hr as [Hp Hn]. left. rewrite Hns in Hn. injection Hn as ->. subst peer.
    intros p. apply on_sync_finished_slot.
  - destruct Hr as (Hp & Hn & Hab). rewrite Hp, Hn, Hns.
    assert (∀ p, slot (la_state (on_sync_finished env ns peer OrAccept None a)) ns peer = Some p →
      ps_state p = Idle ∨ ps_state p = Running (ev_now env) (OrConnect Resync)) as Hslot.
    { intros p. apply on_sync_finished_slot. }
    destruct e as [| |p n []| |]; simpl; try by left.
    simpl in Hp, Hn. injection Hp as ->. rewrite Hns in Hn. injection Hn as ->.
    right. split_and!; [done|done|]. by apply Hab.
Qed.
End release.

(** ** Downloads and leaving *)
Section live_facts.
Context {V : Type} `{Crypto, !SyncOps V, Postcard (list (N * AuthorId))}.
Implicit Types (a : LiveActor V) (ns : NamespaceId).

Lemma subscribers_send_frame env ns ev a :
  let b := subscribers_send env ns ev a in
  la_download_tasks b = la_download_tasks a ∧ la_missing_hashes b = la_missing_hashes a
  ∧ la_queued_hashes b = la_queued_hashes a.
Proof. unfold subscribers_send. by destruct (map_send _ _ _ _) as [[]]. Qed.
Lemma emit_pending_frame env l a :
  let b := emit_pending env l a in
  la_download_tasks b = la_download_tasks a ∧ la_missing_hashes b = la_missing_hashes a
  ∧ la_queued_hashes b = la_queued_hashes a.
Proof.
  revert a. induction l as [|ns l IH]; intros a; [done|].
  unfold emit_pending. simpl. destruct (may_emit_ready ns (la_state a)) as [r st].
  set (c := if bool_decide _ then _ else _). destruct (IH c) as (E1 & E2 & E3). unfold emit_pending in *.
  rewrite E1, E2, E3. unfold c. case_bool_decide; [|done]. apply (subscribers_send_frame env ns _ (set_la_state st a)).
Qed.

(** What the sync actor is left with after a message: as it was, or asked
    once whether heads are news. *)
Lemma sync_with_peer_sync env ns peer reason a : la_sync (sync_with_peer env ns peer reason a) = la_sync a.
Proof. unfold sync_with_peer. by destruct (start_connect _ _ _ _ _) as [[]]. Qed.
Lemma start_download_sync env ns h node only a :
  la_sync (start_download env ns h node only a) = la_sync a
  ∧ la_broadcast (start_download env ns h node only a) = la_broadcast a.
Proof.
  unfold start_download, queue_download. destruct (ev_complete env h); [done|].
  destruct (contains_hash _ _); [done|]. by destruct (negb only || _).
Qed.
Lemma subscribers_send_sync env ns ev a : la_sync (subscribers_send env ns ev a) = la_sync a.
Proof. unfold subscribers_send. by destruct (map_send _ _ _ _) as [[]]. Qed.

(** The topic cannot write.  Whatever arrives on a topic - neighbors, any
    sequence of messages, entries among them, undecodable bytes - handling
    what the receive loop passes on never asks the sync actor for anything
    but whether reported heads are news; entries sent over the topic are
    dropped. *)
Theorem gossip_writes_nothing ns neighbors events msg env a :
  msg ∈ receive_loop ns neighbors events →
  let b := on_actor_message env msg a in
  la_sync b = la_sync a
  ∨ ∃ namespace heads, is_syncing namespace (la_state a) = true
      ∧ la_sync b = (so_has_news_for_us namespace heads (la_sync a)).2.
Proof.
  intros Hin. assert ((∃ peer, msg = TlNeighborUp ns peer) ∨ ∃ ev, receive_event ns ev = Some msg) as Hmsg.
  { apply elem_of_app in Hin as [(peer & -> & _)%list_elem_of_fmap|Hin]; [left; by exists peer|right].
    induction events as [|[ev|] events IH]; simpl in Hin; [by apply elem_of_nil in Hin| |by apply elem_of_nil in Hin].
    apply elem_of_app in Hin as [Hin|Hin]; [|by apply IH]. exists ev.
    destruct (receive_event ns ev) as [m|]; [|by apply elem_of_nil in Hin].
    by apply list_elem_of_singleton in Hin as ->. }
  destruct Hmsg as [[peer ->]|[ev Hev]]; simpl.
  { left. by rewrite subscribers_send_sync, sync_with_peer_sync. }
  destruct ev as [[entry|h|report] from|peer|peer|]; simpl in Hev; try discriminate Hev; injection Hev as <-; simpl.
  - left. apply start_download_sync.
  - unfold on_sync_report. destruct (is_syncing (sr_namespace report) (la_state a)) eqn:Hs; simpl; [|by left].
    destruct (heads_decode (sr_heads report)) as [heads|]; [|by left]. right. exists (sr_namespace report), heads.
    split; [done|]. destruct (so_has_news_for_us _ _ _) as [[[n|]|] w]; simpl; [|done|done].
    apply sync_with_peer_sync.
  - left. by rewrite subscribers_send_sync, sync_with_peer_sync.
  - left. apply subscribers_send_sync.
Qed.

(** A failed download is forgotten for the other namespaces.  Several
    namespaces may wait for one hash; when its download fails, only the
    namespace that started it gets it back on the list of missing content.
    The others neither wait for it nor miss it any more, so that a neighbor's
    later announcement that it has the content is ignored for them. *)
Theorem failed_download_forgets_other_namespaces env ns other h a :
  queued_wf (la_queued_hashes a) → other ≠ ns → h ∈ pending (la_queued_hashes a) other →
  (other, h) ∉ la_missing_hashes a → (ns, h) ∉ la_retry_after_failure a →
  let b := on_download_ready env ns h false a in
  (ns, h) ∈ la_missing_hashes b
  ∧ h ∉ pending (la_queued_hashes b) other ∧ (other, h) ∉ la_missing_hashes b
  ∧ (∀ env' node, ev_complete env' h = false →
       la_download_tasks (on_neighbor_content_ready env' other node h b) = la_download_tasks a).
Proof.
  intros Hq Hne Hin Hmiss Hretry. unfold on_download_ready.
  pose proof (remove_hash_run h _ Hq) as Hr. destruct (remove_hash h (la_queued_hashes a)) as [completed q].
  destruct Hr as (Hq' & Hc & Hp & _). simpl. rewrite bool_decide_eq_false_2 by done.
  match goal with |- context [emit_pending env completed ?x] => set (c := x) end.
  destruct (emit_pending_frame env completed c) as (E1 & E2 & E3). simpl.
  rewrite E2, E3. unfold c. simpl. assert ((other, h) ∉ {[(ns, h)]} ∪ la_missing_hashes a) as Hm.
  { rewrite elem_of_union, elem_of_singleton. naive_solver. }
  split_and!; [set_solver|by rewrite Hp; set_solver|done|].
  intros env' node Hcomp. unfold on_neighbor_content_ready, start_download, queue_download.
  rewrite Hcomp. simpl. fold c. rewrite E3. unfold c at 1. simpl. rewrite Hc. simpl.
  rewrite E2. unfold c at 1. simpl. rewrite bool_decide_eq_false_2 by done. simpl. rewrite E1. done.
Qed.

(** Leaving a replica.  The namespace stops syncing whatever happens, so
    that nothing is dialed or announced for it any more.  If the sync actor
    fails on the way the error ends the handler: the topic stays joined and
    the subscribers stay, and leaving again does not quit the topic either;
    otherwise the topic is quit and the subscribers go if asked for. *)
Theorem leave_spec ns kill a : is_syncing ns (la_state a) = true →
  let '(ok, b) := leave ns kill a in
  is_syncing ns (la_state b) = false
  ∧ (if ok : bool
     then la_gossip b = la_gossip a ∖ {[ns]}
       ∧ la_subscribers b = (if kill then delete ns (la_subscribers a) else la_subscribers a)
     else la_gossip b = la_gossip a ∧ la_subscribers b = la_subscribers a
       ∧ la_gossip (leave ns kill b).2 = la_gossip a ∧ (leave ns kill b).1 = true).
Proof.
  intros Hs. unfold leave at 1. unfold states_remove. rewrite Hs. unfold sync_try.
  assert (∀ b, la_state b = delete ns (la_state a) → is_syncing ns (la_state b) = false
    ∧ la_gossip (leave ns kill b).2 = la_gossip b ∧ (leave ns kill b).1 = true) as Hagain.
  { intros b Hb. assert (is_syncing ns (la_state b) = false) as Hf.
    { unfold is_syncing. by rewrite Hb, lookup_delete_eq. }
    split; [done|]. unfold leave, states_remove. rewrite Hf. by destruct kill. }
  simpl. destruct (so_set_sync ns false (la_sync a)) as [[] w1]; simpl;
    [destruct (so_unsubscribe ns w1) as [[] w2]; simpl; [destruct (so_close ns w2) as [[] w3]; simpl|]|].
  all: assert (is_syncing ns (delete ns (la_state a)) = false) as Hdel
    by (unfold is_syncing; by rewrite lookup_delete_eq).
  { split; [by destruct kill|]. by destruct kill. }
  all: match goal with |- context [leave _ _ ?b] => destruct (Hagain b eq_refl) as (K1 & K2 & K3) end;
    by rewrite K2, K3.
Qed.
End live_facts.

(** ** Concrete runs *)
#[local] Instance demo_sync_service : SyncService Actor SyncSessionId := actor_service 0.
#[local] Instance demo_sync_ops : SyncOps Actor := actor_sync_ops 700000000 42 9.

Definition demo_env : Env := {| ev_now := 5; ev_complete := λ _, false; ev_channel_open := λ _, true;
  ev_join_ok := true; ev_max_message_size := 4096 |}.
(** The live actor over [demo_actor], syncing one namespace and joined to its
    topic. *)
Definition demo_live : LiveActor Actor :=
  live_run [(demo_env, LtMessage (TlStartSync demo_ns [] true));
            (demo_env, LtMessage (TlSubscribe demo_ns 3))]
    (LiveActor_new (demo_peer x09) None demo_actor).

Definition deny_all : NamespaceId → EndpointId → SessionRole → SessionAccess := λ _ _ _, Deny.

Lemma denied_peer_sees_nothing_witness :
  let b := (handle_connection (engine_accept_cb deny_all demo_accept) StOk demo_td (demo_peer x03) demo_conn).2 in
  bs_session (b_state b) = None ∧ ac_sessions (cx_world (b_conn b)) = ac_sessions demo_actor
  ∧ cx_sent (b_conn b) = [WmAbort NotFound].
Proof.
  pose proof (denied_peer_sees_nothing deny_all demo_accept (λ a, ac_sessions a = ac_sessions demo_actor)
    StOk {| su_connect := StOk; su_open := StOk |} demo_td (demo_peer x03) demo_conn
    (λ _ _, eq_refl) (λ _ _ Hw, Hw) eq_refl) as HH.
  split; [exact (proj1 (proj1 HH))|]. split; [exact (proj1 (proj2 (proj1 HH)))|].
  vm_compute. reflexivity.
Defined.

Lemma accept_end_frees_pair_witness :
  b_accepted (handle_connection demo_accept StOk demo_td (demo_peer x03) demo_conn).2 = Some demo_ns
  ∧ let '(res, b) := handle_connection demo_accept StOk demo_td (demo_peer x03) demo_conn in
    let a' := on_sync_via_accept_finished demo_env res demo_live in
    ∀ ns, b_accepted b = Some ns →
    (∀ p, slot (la_state a') ns (demo_peer x03) = Some p →
       ps_state p = Idle ∨ ps_state p = Running (ev_now demo_env) (OrConnect Resync))
    ∨ (a' = demo_live ∧ res = Err (AeAbort (demo_peer x03) ns AlreadySyncing)
       ∧ ∃ w w', demo_accept ns (demo_peer x03) w = (Some (RejectRequest AlreadySyncing), w')).
Proof.
  split; [vm_compute; reflexivity|].
  assert (∀ ns p w, sv_held (demo_accept ns p w).2 ⊆ sv_held w) as Hheld by (intros ns p w; exact (reflexivity _)).
  pose proof (accept_end_frees_pair demo_accept StOk demo_td (demo_peer x03) demo_conn demo_env demo_live Hheld) as HH.
  exact HH.
Defined.

(** Two namespaces wait for one hash. *)
Definition demo_waiting : LiveActor Actor :=
  set_la_downloads [] ∅ ∅
    (queued_insert (demo_peer x07) (demo_peer x02) (queued_insert (demo_peer x07) (demo_peer x01) queued_empty))
    demo_live.

Lemma failed_download_forgets_witness :
  (demo_peer x02, demo_peer x07)
    ∉ la_missing_hashes (on_download_ready demo_env (demo_peer x01) (demo_peer x07) false demo_waiting).
Proof.
  refine (proj1 (proj2 (proj2 (failed_download_forgets_other_namespaces demo_env (demo_peer x01)
    (demo_peer x02) (demo_peer x07) demo_waiting _ _ _ _ _)))).
  - apply queued_insert_wf, queued_insert_wf, queued_empty_wf.
  - apply (bool_decide_eq_false_1 _). vm_compute. reflexivity.
  - apply (bool_decide_eq_true_1 _). vm_compute. reflexivity.
  - apply not_elem_of_empty.
  - apply not_elem_of_empty.
Defined.

Lemma gossip_writes_nothing_witness :
  la_sync (on_actor_message demo_env (TlNeighborContentReady demo_ns (demo_peer x03) (demo_peer x07)) demo_live)
    = la_sync demo_live
  ∨ ∃ namespace heads, is_syncing namespace (la_state demo_live) = true
      ∧ la_sync (on_actor_message demo_env (TlNeighborContentReady demo_ns (demo_peer x03) (demo_peer x07)) demo_live)
        = (so_has_news_for_us namespace heads (la_sync demo_live)).2.
Proof.
  refine (gossip_writes_nothing demo_ns [] [Some (GeReceived (OpContentReady (demo_peer x07)) (demo_peer x03))]
    (TlNeighborContentReady demo_ns (demo_peer x03) (demo_peer x07)) demo_env demo_live _).
  apply list_elem_of_here.
Defined.

Lemma remove_hash_spec_witness :
  (remove_hash (demo_peer x07)
    (queued_insert (demo_peer x07) (demo_peer x01) queued_empty)).1 = [demo_peer x01]
  ∧ contains_hash (demo_peer x07) (remove_hash (demo_peer x07)
    (queued_insert (demo_peer x07) (demo_peer x01) queued_empty)).2 = false.
Proof.
  split; [vm_compute; reflexivity|].
  pose proof (remove_hash_spec (demo_peer x07) _ (queued_insert_wf (demo_peer x07) (demo_peer x01) _ queued_empty_wf))
    as HH.
  destruct (remove_hash (demo_peer x07) (queued_insert (demo_peer x07) (demo_peer x01) queued_empty)) as [l q].
  exact (proj1 (proj2 HH)).
Defined.

(** The actor refuses to stop syncing a replica it has not opened. *)
Definition demo_unopened : LiveActor Actor :=
  set_la_state (states_insert (demo_peer x08) ∅) demo_live.
Lemma leave_spec_witness :
  (leave (demo_peer x08) true demo_unopened).1 = false
  ∧ is_syncing (demo_peer x08) (la_state (leave (demo_peer x08) true demo_unopened).2) = false.
Proof.
  split; [vm_compute; reflexivity|].
  pose proof (leave_spec (demo_peer x08) true demo_unopened eq_refl) as HH.
  destruct (leave (demo_peer x08) true demo_unopened) as [ok b]. exact (proj1 HH).
Defined.
