(* ===== verification/ApiFacts.v ===== *)
(** * The API: facts

    The default author is never lost, setting a key answers the entry that
    was set, tickets say what they were asked to say and can be read back,
    closed handles refuse, and importing a file ends - unless the blob store
    breaks its promise. *)
From Stdlib Require Import String.
From S2P Require Import Prelude Redb Keys Entry Heads Query Bounds Ranger Info Store StoreInstance Filter QueryIter Replica SyncState Codec Net Actor ActorInv ActorSessions Live SyncHandle AuthorsInv Texts Engine EngineFacts LiveInv LiveFacts Api ApiClient.

(** ** Importing a file *)
Section import_file.
Context `{Redb, Crypto, Hex, Transport, Postcard DownloadPolicy, Postcard (list (N * AuthorId))}.
Context (env : ApiEnv).
Implicit Types (progress : list (option AddProgressItem)) (c : Client).

(** What the items of the blob store come to, after [size] was last heard:
    the file with its size and hash, or an error.  [None] is a stream that
    breaks the promise: it ends early, or is done before saying a size. *)
Fixpoint import_ends (size : option N) progress : option (option (N * Hash)) :=
  match progress with
  | [] => None
  | None :: progress | Some ApOther :: progress => import_ends size progress
  | Some (ApSize size) :: progress => import_ends (Some size) progress
  | Some ApError :: _ => Some None
  | Some (ApDone hash) :: _ => match size with Some size => Some (Some (size, hash)) | None => None end
  end.

(** What the import then does. *)
Definition import_answer (doc : Doc) (author : AuthorId) (key : bytes) (ends : option (option (N * Hash)))
    : ST Client ApiErr (ImportFileOutcome + ImportError) := λ c,
  match ends with
  | None => (Panic, c)
  | Some None => (Ok (inr IeBlobsFailed), c)
  | Some (Some (size, hash)) =>
      let '(r, c) := Doc_set_hash env doc author key hash size c in
      (match r with
       | Ok _ => Ok (inl {| io_hash := hash; io_size := size; io_key := key |})
       | Err e => Ok (inr (IeDoc e))
       | Panic => Panic
       end, c)
  end.

Definition blobs_state (d : Doc) (author : AuthorId) (key : bytes) (size : option N) progress : ImportInner :=
  IiBlobs progress (Some {| ec_doc := d; ec_author := author; ec_key := key; ec_size := size |}).

(** One poll of the future: it ends as the whole import does, or it stops
    where the stream was not ready. *)
Definition poll_spec (d : Doc) (author : AuthorId) (key : bytes) (ends : option (option (N * Hash))) (n : nat) c
    (x : result ApiErr (Poll (ImportFileOutcome + ImportError) * ImportInner) * Client) : Prop :=
  match x with
  | (Ok (Ready r, _), c') => import_answer d author key ends c = (Ok r, c')
  | (Ok (Pending, this), c') => c' = c ∧ ∃ size progress,
      this = blobs_state d author key size progress ∧ length progress < n ∧ import_ends size progress = ends
  | (Err _, _) => False
  | (Panic, c') => import_answer d author key ends c = (Panic, c')
  end.
Lemma poll_spec_mono d author key ends n n' c x : n ≤ n' → poll_spec d author key ends n c x →
  poll_spec d author key ends n' c x.
Proof.
  intros Hn. destruct x as [[[[|r] this]|e|] c']; simpl; [|done..].
  intros (-> & size & p & -> & Hl & He). split; [done|]. exists size, p. split; [done|]. split; [lia|done].
Qed.
Lemma import_poll_run d author key fuel size progress c : import_size (blobs_state d author key size progress) ≤ fuel →
  poll_spec d author key (import_ends size progress) (length progress) c
    (import_poll env fuel (blobs_state d author key size progress) c).
Proof.
  revert size fuel. induction progress as [|[item|] progress IH]; intros size fuel Hf; simpl in Hf.
  - destruct fuel; [lia|]. done.
  - destruct fuel as [|fuel]; [lia|]. destruct item as [n| |h|].
    + change (import_poll env (S fuel) _ c) with (import_poll env fuel (blobs_state d author key (Some n) progress) c).
      eapply poll_spec_mono; [|apply IH; simpl; lia]. simpl. lia.
    + done.
    + destruct size as [n|]; [|done]. destruct fuel as [|fuel]; [lia|].
      simpl. unfold mbind, ST_bind. simpl.
      destruct (Doc_set_hash env d author key h n c) as [[u|e|] c'] eqn:Hs; simpl; rewrite Hs; done.
    + change (import_poll env (S fuel) _ c) with (import_poll env fuel (blobs_state d author key size progress) c).
      eapply poll_spec_mono; [|apply IH; simpl; lia]. simpl. lia.
  - destruct fuel as [|fuel]; [lia|]. split; [done|]. exists size, progress. split; [done|]. simpl. split; [lia|done].
Qed.

Lemma import_await_run d author key progress size c fuel : length progress < fuel →
  import_await env fuel (blobs_state d author key size progress) c =
  import_answer d author key (import_ends size progress) c.
Proof.
  revert progress size c. induction fuel as [|fuel IH]; intros progress size c Hf; [lia|].
  pose proof (import_poll_run d author key _ size progress c (le_n _)) as Hp.
  cbn [import_await]. unfold mbind, ST_bind. revert Hp. generalize (blobs_state d author key size progress) as this.
  intros this. destruct (import_poll env (import_size this) this c) as [[[[|r] this']|e|] c']; simpl.
  - intros (-> & size' & p' & -> & Hl & <-). apply IH. lia.
  - done.
  - done.
  - done.
Qed.

(** C33: importing a file, on every stream of the blob store.  On a closed
    handle it is refused.  Otherwise awaiting the import, however the stream
    pauses, ends after at most one poll per item more than the stream has: the
    entry is set with the hash of the file and the size last announced, or the
    error of the blob store or of setting the entry is answered.  It panics
    exactly if the stream ends without an answer or announces no size - or the
    request itself does. *)
Theorem import_file_result d author key progress c fuel : length progress < fuel →
  (this ← Doc_import_file d author key progress; import_await env fuel this) c =
  if decide (dc_closed d ∈ cl_closed c) then (Err AeClosed, c)
  else import_answer d author key (import_ends None progress) c.
Proof.
  intros Hf. rewrite <- (import_await_run d author key progress None c fuel) by done.
  unfold Doc_import_file, ensure_doc_open, st_ensure. unfold mbind, ST_bind, st_get.
  destruct (decide (dc_closed d ∈ cl_closed c)) as [Hc|Hc].
  - by rewrite bool_decide_true.
  - by rewrite bool_decide_false.
Qed.
End import_file.

(** ** The default author *)
Section live_keeps.
Context {W : Type} `{Crypto, !SyncOps W, Postcard (list (N * AuthorId))}.
Context (J : W → Prop) (Hopen : ∀ ns w, J w → J (so_open ns w).2)
  (Hpeers : ∀ ns w, J w → J (so_get_sync_peers ns w).2)
  (Hset : ∀ ns b w, J w → J (so_set_sync ns b w).2)
  (Hunsub : ∀ ns w, J w → J (so_unsubscribe ns w).2)
  (Hclose : ∀ ns w, J w → J (so_close ns w).2).
Implicit Types (a : LiveActor W).

Lemma foldl_dials_sync env ns reason l a :
  la_sync (foldl (λ a peer, sync_with_peer env ns peer reason a) a l) = la_sync a.
Proof. induction l as [|p l IH] in a |- *; [done|]. simpl. by rewrite IH, sync_with_peer_sync. Qed.

Lemma join_peers_sync env ns peers join a : la_sync (join_peers env ns peers join a).2 = la_sync a.
Proof.
  unfold join_peers. destruct join; [destruct (ev_join_ok env)|]; simpl; rewrite ?foldl_dials_sync; done.
Qed.

Lemma start_sync_keeps env ns peers join a : J (la_sync a) → J (la_sync (start_sync env ns peers join a).2).
Proof.
  intros Ha. unfold start_sync.
  assert (∀ b : LiveActor W, J (la_sync b) →
    J (la_sync (let '(known, w) := so_get_sync_peers ns (la_sync b) in
      join_peers env ns (match known with
        | Some (Some l) => peers ++ List.filter (λ b, bool_decide (is_Some (pk_from_bytes b))) l
        | _ => peers end) join (set_la_sync w b)).2)) as Hend.
  { intros b Hb. specialize (Hpeers ns _ Hb). destruct (so_get_sync_peers ns (la_sync b)) as [known w].
    by rewrite join_peers_sync. }
  destruct (is_syncing ns (la_state a)); [by apply Hend|].
  specialize (Hopen ns _ Ha). destruct (so_open ns (la_sync a)) as [[|] w]; [|done].
  by apply Hend.
Qed.

Lemma sync_try_keeps (op : W → bool * W) k a : (∀ w, J w → J (op w).2) →
  (∀ b, J (la_sync b) → J (la_sync (k b).2)) → J (la_sync a) → J (la_sync (sync_try op k a).2).
Proof.
  intros Hop Hk Ha. unfold sync_try. specialize (Hop _ Ha). destruct (op (la_sync a)) as [[|] w]; [|done].
  by apply Hk.
Qed.

Lemma leave_keeps ns kill a : J (la_sync a) → J (la_sync (leave ns kill a).2).
Proof.
  intros Ha. unfold leave. destruct (states_remove ns (la_state a)) as [[|] st].
  - apply sync_try_keeps; [auto|intros b Hb|exact Ha]. apply sync_try_keeps; [auto|clear Hb b; intros b Hb|exact Hb].
    apply sync_try_keeps; [auto|clear Hb b; intros b Hb|exact Hb]. destruct kill; exact Hb.
  - destruct kill; exact Ha.
Qed.
End live_keeps.

Section default_author_kept.
Context `{RedbOk, CryptoOk, HexOk, Transport, Postcard DownloadPolicy, Postcard (list (N * AuthorId))}.
Implicit Types (e : Engine).

Section frame.
Context (U : Tables → Prop) (HU : ∀ t t', authors t' = authors t → U t → U t').
Context (D : AuthorId * DefaultAuthorStorage * option string).
Context (Himport : ∀ a t, U t → U (import_tables a t))
  (Hdelete : ∀ id t, id ≠ D.1.1 → U t → U (set_authors (tbl_remove (authors t) id) t)).

(** The default author with where it is kept, and the file. *)
Definition en_default e : AuthorId * DefaultAuthorStorage * option string :=
  (en_default_author e, en_storage e, en_file e).
Definition engine_keeps e : Prop := actor_keeps U (en_sync e) ∧ en_default e = D.

Lemma ek_sync {A} (m : ST Actor ActorErr A) : preserves (actor_keeps U) m → preserves engine_keeps (rpc_sync m).
Proof.
  intros Hm e [He Hd]. unfold rpc_sync, rpc_err, sync_op. specialize (Hm _ He). by destruct (m (en_sync e)).
Qed.
Lemma ek_live (f : LiveActor Actor → bool * LiveActor Actor) :
  (∀ a, actor_keeps U (la_sync a) → actor_keeps U (la_sync (f a).2)) → preserves engine_keeps (rpc_err (live_op f)).
Proof.
  intros Hf e [He Hd]. unfold rpc_err, live_op. specialize (Hf _ He). by destruct (f (en_live e)) as [[|] l].
Qed.
Lemma ek_handle {A} (sel : Reply → option A) now act : action_respects U act →
  preserves engine_keeps (rpc_sync (receive sel (send now act))).
Proof. intros Hact. by apply ek_sync, ak_handle. Qed.

Lemma ops_keep (ee : EngineEnv) :
  (∀ ns w, actor_keeps U w → actor_keeps U (so_open (SyncOps := sync_ops ee) ns w).2)
  ∧ (∀ ns w, actor_keeps U w → actor_keeps U (so_get_sync_peers (SyncOps := sync_ops ee) ns w).2)
  ∧ (∀ ns b w, actor_keeps U w → actor_keeps U (so_set_sync (SyncOps := sync_ops ee) ns b w).2)
  ∧ (∀ ns w, actor_keeps U w → actor_keeps U (so_unsubscribe (SyncOps := sync_ops ee) ns w).2)
  ∧ (∀ ns w, actor_keeps U w → actor_keeps U (so_close (SyncOps := sync_ops ee) ns w).2).
Proof.
  assert (∀ A B (sel : Reply → option A) (f : result ActorErr A → B) now ns act w, actor_keeps U w →
    actor_keeps U (let '(r, w') := receive sel (send_replica now ns act) w in (f r, w')).2) as Hh.
  { intros A B sel f now ns act w Hw.
    pose proof (ak_handle U HU sel now (AcReplica ns act) I w Hw) as Hk. unfold send_replica.
    by destruct (receive sel (send now (AcReplica ns act)) w). }
  split_and!; intros; by apply Hh.
Qed.

Lemma ek_start_sync ee ns peers : preserves engine_keeps (rpc_err (engine_start_sync ee ns peers)).
Proof.
  destruct (ops_keep ee) as (? & ? & ? & ? & ?). apply ek_live. intros a. by apply start_sync_keeps.
Qed.
Lemma ek_start_sync_scoped ee ns peers : preserves engine_keeps (rpc_err (engine_start_sync_scoped ee ns peers)).
Proof.
  destruct (ops_keep ee) as (? & ? & ? & ? & ?). apply ek_live. intros a. by apply start_sync_keeps.
Qed.
Lemma ek_leave ee ns kill : preserves engine_keeps (rpc_err (engine_leave ee ns kill)).
Proof.
  destruct (ops_keep ee) as (? & ? & ? & ? & ?). apply ek_live. intros a. by apply leave_keeps.
Qed.
Lemma ek_subscribe ee ns a b : preserves engine_keeps (rpc_err (engine_subscribe ee ns a b)).
Proof.
  intros e [He Hd]. unfold rpc_err, engine_subscribe, sync_op, live_op. unfold mbind, ST_bind.
  pose proof (ak_handle U HU (λ r, match r with RpUnit => Some tt | _ => None end) (ee_now ee)
    (AcReplica ns (RaSubscribe a)) I _ He) as Hk. unfold handle_subscribe, receive_unit, send_replica.
  by destruct (receive _ _ (en_sync e)) as [[u|x|] w].
Qed.

Lemma ek_request env msg : (∀ id, msg ≠ DpAuthorSetDefault id) → preserves engine_keeps (rpc_handle env msg).
Proof.
  intros Hmsg. destruct msg; cbn [rpc_handle]; unfold answer_unit, answer_with;
    try (exfalso; by eapply Hmsg);
    unfold doc_open, doc_close, doc_status, doc_list, doc_create, doc_drop, doc_import, doc_set, doc_set_hash,
      doc_get_many, doc_get_exact, doc_del, doc_retract, doc_start_sync, doc_leave, doc_leave_gossip, doc_share,
      doc_subscribe, doc_get_download_policy, doc_set_download_policy, doc_get_sync_peers, author_list,
      author_create, author_default, author_import, author_export;
    preserves_auto;
    first [ by apply ek_handle | apply ek_handle; intros t; apply Himport
          | apply ek_start_sync | apply ek_start_sync_scoped | apply ek_leave | apply ek_subscribe | idtac ].
  - by apply ek_live.
  - by intros e He.
  - unfold author_delete. intros e [He Hd]. rewrite st_gets_bind.
    destruct (eqb author (en_default_author e)) eqn:Hq; [done|].
    apply ek_handle; [|done]. intros t. apply Hdelete. rewrite <- Hd. intros ->.
    by rewrite eqb_refl in Hq.
Qed.
End frame.

(** ** What happens to a running engine

    A request, or an action of the tasks of the engine, which act on replicas
    only and release sessions, or an idle turn of the sync actor. *)
Inductive ApiEvent :=
| AvRequest (env : ApiEnv) (msg : DocsProtocol)
| AvReplica (now : N) (namespace : NamespaceId) (action : ReplicaAction)
| AvSessionEnd (now : N) (session : SyncSessionId)
| AvIdle (now : N).
Definition api_event (ev : ApiEvent) e : Engine :=
  match ev with
  | AvRequest env msg => (rpc_handle env msg e).2
  | AvReplica now namespace action => set_en_sync (actor_turn (TnAction now (AcReplica namespace action)) (en_sync e)).2 e
  | AvSessionEnd now session => set_en_sync (actor_turn (TnAction now (AcSyncSessionEnd session)) (en_sync e)).2 e
  | AvIdle now => set_en_sync (actor_turn (TnTimeout now) (en_sync e)).2 e
  end.
Definition api_events (evs : list ApiEvent) e : Engine := foldl (λ e ev, api_event ev e) e evs.

(** No write of the file of the default author is cut short. *)
Definition write_whole (w : WriteResult) : Prop := match w with WrCut _ => False | _ => True end.
Definition event_whole (ev : ApiEvent) : Prop :=
  match ev with
  | AvRequest env (DpAuthorSetDefault _) => write_whole (ee_write (ae_engine env))
  | _ => True
  end.

(** The default author is one of the stored authors. *)
Definition has_author (id : AuthorId) (t : Tables) : Prop := is_Some (author_at t id).
Definition default_stored e : Prop :=
  actor_store_wf (en_sync e) ∧ has_author (en_default_author e) (actor_view (en_sync e))
  ∧ authors_wf (actor_view (en_sync e)).
(** The file of a persistent storage names it. *)
Definition default_named e : Prop := file_names (en_storage e) (en_file e) (en_default_author e).
(** The file holds what a write that was cut short left. *)
Definition file_cut e : Prop := ∃ id n, en_file e = Some (substring 0 n (AuthorId_display id)).

Lemma has_author_eq id t t' : authors t' = authors t → has_author id t → has_author id t'.
Proof. intros Heq. unfold has_author, author_at. by rewrite Heq. Qed.
Lemma has_author_import id a t : has_author id t → has_author id (import_tables a t).
Proof. unfold has_author. rewrite author_at_import. by destruct (eqb _ _). Qed.
Lemma has_author_delete id id' t : id' ≠ id → has_author id t →
  has_author id (set_authors (tbl_remove (authors t) id') t).
Proof.
  intros Hne. unfold has_author, author_at. simpl. rewrite tbl_get_remove by apply _.
  destruct (eqb id' id) eqn:Hq; [|done]. by apply eqb_eq in Hq.
Qed.

Lemma turn_keeps U (HU : ∀ t t', authors t' = authors t → U t → U t') t a :
  (match t with TnAction _ act => action_respects U act | TnTimeout _ => True end) →
  actor_keeps U a → actor_keeps U (actor_turn t a).2.
Proof.
  intros Ht Ha. destruct t as [now|now act]; simpl.
  - apply (ak_store U AcStore flush (keeps_flush U)). by apply ak_reclaim.
  - pose proof (ak_action U HU act Ht _ (ak_reclaim U now a Ha)) as Hk. by destruct (on_action act _).
Qed.

Definition has_default (id : AuthorId) (t : Tables) : Prop := has_author id t ∧ authors_wf t.

(** An event keeps the default author; the file names it still, unless the
    event is a change whose write is cut short. *)
Lemma event_default ev e : default_stored e →
  default_stored (api_event ev e)
  ∧ (default_named e → event_whole ev → default_named (api_event ev e))
  ∧ (default_named e ∨ file_cut e → default_named (api_event ev e) ∨ file_cut (api_event ev e)).
Proof.
  intros He.
  assert (∀ t t', authors t' = authors t → has_default (en_default_author e) t → has_default (en_default_author e) t')
    as Heq by (intros t t' Ht []; split; [by eapply has_author_eq|by eapply authors_wf_eq]).
  assert (∀ t, (match t with TnAction _ act => ∀ U, action_respects U act | TnTimeout _ => True end) →
    default_stored (set_en_sync (actor_turn t (en_sync e)).2 e)) as Hturn.
  { intros t Ht. apply (turn_keeps (has_default (en_default_author e)) Heq); [|exact He].
    destruct t; [done|apply Ht]. }
  destruct ev as [env msg|now ns act|now i|now]; [|by (split; [by apply Hturn|by split])..]. simpl api_event.
  assert ((∀ id, msg ≠ DpAuthorSetDefault id) → default_stored (rpc_handle env msg e).2
    ∧ (default_named e → default_named (rpc_handle env msg e).2)
    ∧ (default_named e ∨ file_cut e → default_named (rpc_handle env msg e).2 ∨ file_cut (rpc_handle env msg e).2)) as Hother.
  { intros Hn. destruct (ek_request (has_default (en_default_author e)) Heq (en_default e)) with (env := env) (msg := msg) (s := e)
      as [Hk Hd]; [..|done|done|].
    - intros a t []. split; [by apply has_author_import|by apply authors_wf_import].
    - intros id t ? []. split; [by apply has_author_delete|by apply authors_wf_delete].
    - unfold default_stored, default_named, file_cut. injection Hd as -> -> ->. by split; [exact Hk|]. }
  destruct msg; try (destruct Hother as (? & ? & ?); [done|]; by split_and!; [..|intros ? _; auto|]).
  clear Hother Hturn Heq.
  simpl. unfold answer_unit, answer_with, author_set_default, rpc_err.
  destruct He as (Hwf & Hstored & Haw).
  destruct (default_author_set_run (ae_engine env) author_id e Hwf) as (e' & Hrun & Hwf' & Hv & _ & Hs & Hd & Hf).
  unfold mbind, ST_bind. rewrite Hrun.
  unfold default_stored, default_named, file_cut, default_author_set_result in *.
  destruct (author_at (actor_view (en_sync e)) author_id) as [x|] eqn:Hx; simpl in Hd, Hf |- *.
  2: { rewrite Hv, Hs, Hd, Hf. by split. }
  assert (has_author author_id (actor_view (en_sync e))) as Hnew by (unfold has_author; by rewrite Hx).
  assert (file_names DsPersistent (Some (AuthorId_display author_id)) author_id) as Htext
    by (rewrite <- (Haw _ _ Hx); apply file_names_text).
  destruct (en_storage e) eqn:Hst, (ee_write (ae_engine env)); simpl in Hd, Hf |- *; rewrite Hv, Hs, Hd, Hf;
    (split; [done|]; split; [done|]; try by left).
  - done.
  - intros _. right. eauto.
Qed.

Lemma events_default evs e : default_stored e →
  default_stored (api_events evs e)
  ∧ (default_named e → Forall event_whole evs → default_named (api_events evs e))
  ∧ (default_named e ∨ file_cut e → default_named (api_events evs e) ∨ file_cut (api_events evs e)).
Proof.
  revert e. induction evs as [|ev evs IH]; intros e He; [by split|].
  destruct (event_default ev e He) as (E1 & E2 & E3). destruct (IH _ E1) as (I1 & I2 & I3).
  change (api_events (ev :: evs) e) with (api_events evs (api_event ev e)).
  split; [done|]. split; [|by intros ?%E3%I3].
  intros Hn [Hw Hws]%Forall_cons. by apply I2; [apply E2|].
Qed.

(** Nothing changes where the default author is kept. *)
Lemma event_storage ev e : actor_store_wf (en_sync e) → en_storage (api_event ev e) = en_storage e.
Proof.
  intros Hwf. destruct ev as [env msg|now ns act|now i|now]; [|done..]. simpl.
  assert ((∀ id, msg ≠ DpAuthorSetDefault id) → en_storage (rpc_handle env msg e).2 = en_storage e) as Hother.
  { intros Hn. destruct (ek_request (λ _, True) (λ _ _ _ _, I) (en_default e) (λ _ _ _, I) (λ _ _ _ _, I)
      env msg Hn e) as [_ Hd]; [by split|]. by injection Hd. }
  destruct msg; try (by apply Hother). simpl. unfold answer_unit, answer_with, author_set_default, rpc_err.
  destruct (default_author_set_run (ae_engine env) author_id e Hwf) as (e' & Hrun & _ & _ & _ & Hs & _).
  unfold mbind, ST_bind. rewrite Hrun. by destruct (default_author_set_result _ _ _).
Qed.
Lemma events_storage evs e : default_stored e → en_storage (api_events evs e) = en_storage e.
Proof.
  revert e. induction evs as [|ev evs IH]; intros e He; [done|].
  change (api_events (ev :: evs) e) with (api_events evs (api_event ev e)).
  rewrite IH by (by apply event_default). apply event_storage, He.
Qed.

Lemma spawn_default env actor me access storage file e d :
  actor_store_wf actor → authors_wf (actor_view actor) →
  Engine_spawn env actor me access storage file = (Ok e, d) → default_stored e ∧ default_named e.
Proof.
  intros Hwf Haw Hs. unfold Engine_spawn in Hs.
  destruct (storage_load env storage {| dd_sync := actor; dd_file := file |}) as [[author|x|] d'] eqn:Hl; try done.
  injection Hs as <- <-.
  destruct (load_stored env storage {| dd_sync := actor; dd_file := file |} author d' Hwf Hl) as (? & ? & ? & ?).
  split; [|done]. unfold default_stored. split_and!; auto.
Qed.

(** C20: a running engine always has its default author.  If starting the
    engine on a well-formed store succeeds, the default author is stored, and
    stays so through every sequence of API requests - with whatever arguments
    and whatever each of them answers, changes of the default author and
    attempts to delete it included -, of replica actions of the engine's
    tasks, and of idle turns.  With a persistent storage the file names it
    from the start on, as long as no change of the default author has its
    write of the file cut short; if one has, the file names it or holds the
    beginning of the text of an author id. *)
Theorem default_author_always_stored env actor me access storage file e d evs :
  actor_store_wf actor → authors_wf (actor_view actor) →
  Engine_spawn env actor me access storage file = (Ok e, d) →
  default_stored (api_events evs e)
  ∧ (Forall event_whole evs → default_named (api_events evs e))
  ∧ (default_named (api_events evs e) ∨ file_cut (api_events evs e)).
Proof.
  intros Hwf Ha Hs. destruct (spawn_default _ _ _ _ _ _ _ _ Hwf Ha Hs) as [Hd Hn].
  destruct (events_default evs e Hd) as (E1 & E2 & E3). split_and!; auto.
Qed.
End default_author_kept.

(** ** Setting a key *)
Section set_key.
Context `{RedbOk, CryptoOk, HexOk, Transport, Postcard DownloadPolicy, Postcard (list (N * AuthorId))}.
Implicit Types (a : Actor) (e : Engine).

(** The entry that inserting [key] into the replica of [ns] builds. *)
Definition local_entry (secret : NamespaceSecret) (author : Author) (key : bytes) (hash : Hash) (len created : N)
    : SignedEntry :=
  SignedEntry_from_parts secret author key {| r_len := len; r_hash := hash; r_timestamp := created |}.

Lemma state_id ns o a : actor_wf a → ac_states a !! ns = Some o → Capability_id (i_capability (or_info o)) = ns.
Proof.
  intros Ha Hns. destruct (aw_state a Ha ns o Hns) as [Hc _].
  destruct (aw_store a Ha) as (_ & _ & _ & Hn). unfold stored_capability in Hc.
  destruct (tbl_get (namespaces (view (ac_store a))) ns) as [v|] eqn:Hg; [|done].
  destruct (Hn ns v Hg) as (c & Hp & Hid). simpl in Hc. rewrite Hp in Hc. congruence.
Qed.

(** A local insertion into the replica of [ns], as the actor runs it. *)
Lemma replica_insert_run created now ns author key hash len a : actor_wf a →
  match replica ns AcInsert (insert created now key author hash len) a with
  | (Ok _, a') => ∃ secret, let e := local_entry secret author key hash len created in
      NamespaceSecret_id secret = ns ∧ SignedEntry_verify pk_from_bytes e = Ok tt ∧ se_is_empty e = false
      ∧ tbl_get (records (view (ac_store a'))) (ns, Author_id author, key) = Some (record_row e)
      ∧ is_Some (ac_states a' !! ns) ∧ store_wf (ac_store a')
  | (Err _, _) => True
  | (Panic, _) => False
  end.
Proof.
  intros Ha. unfold replica, run_replica, get_open, mbind, ST_bind.
  destruct (ac_states a !! ns) as [o|] eqn:Hns; [|done]. cbn [result_of_option].
  unfold replica_step. set (r := Replica_new _ _ _).
  pose proof (state_id ns o a Ha Hns) as Hid. destruct (aw_state a Ha ns o Hns) as (Hcap & Hcl & _).
  assert (replica_wf r) as Hwf.
  { split; [|done]. destruct (aw_store a Ha) as (? & ? & ? & ?). by split_and!. }
  pose proof (insert_run created now key author hash len r Hwf) as Hs. cbv zeta in Hs.
  destruct ((len =? 0)%N || eqb hash Hash_EMPTY) eqn:Hempty; [by rewrite Hs|].
  change (i_closed (rp_info r)) with (i_closed (or_info o)) in Hs. rewrite Hcl in Hs.
  destruct (replica_secret_key r) as [secret|x|] eqn:Hsec; [|by rewrite Hs..].
  assert (NamespaceSecret_id secret = ns) as Hsid.
  { rewrite <- Hid. change (replica_secret_key r) with (Capability_secret_key (i_capability (or_info o))) in Hsec.
    unfold Capability_secret_key in Hsec. destruct (i_capability (or_info o)); [|done]. by injection Hsec as ->. }
  destruct Hs as [Hver Hs]. destruct (now + MAX_TIMESTAMP_FUTURE_SHIFT <? created)%N; [by rewrite Hs|].
  destruct Hs as (x & r' & Hrun & Hdone). rewrite Hrun. destruct Hdone as [(_ & -> & _)|(_ & (n & ->) & Hins)]; [done|].
  simpl. exists secret. split; [done|]. split; [done|]. split.
  { apply orb_false_iff in Hempty as [_ Hh]. exact Hh. }
  destruct Hins as [[(Hswf & _) _] [Hput _] _ _]. split; [|split; [|done]].
  - specialize (Hput (ns, Author_id author, key)). unfold replica_view in Hput. rewrite Hput.
    rewrite <- Hsid. simpl. by rewrite eqb_refl.
  - by rewrite lookup_insert_eq.
Qed.

Lemma insert_local_run now created time ns author_id key hash len a : actor_wf a → authors_wf (actor_view a) →
  match handle_insert_local now created time ns author_id key hash len a with
  | (Ok _, a') => ∃ secret author, let e := local_entry secret author key hash len created in
      author_at (actor_view a) author_id = Some author ∧ Author_id author = author_id
      ∧ NamespaceSecret_id secret = ns ∧ SignedEntry_verify pk_from_bytes e = Ok tt ∧ se_is_empty e = false
      ∧ tbl_get (records (actor_view a')) (ns, author_id, key) = Some (record_row e)
      ∧ is_Some (ac_states a' !! ns) ∧ actor_store_wf a'
  | (Err _, _) => True
  | (Panic, _) => False
  end.
Proof.
  intros Ha Hau. unfold handle_insert_local, receive_unit, send_replica.
  rewrite (receive_performs_id now (AcReplica ns (RaInsertLocal created time author_id key hash len)) (λ _, RpUnit) _ (on_insert_local created time ns author_id key hash len)
    eq_refl (λ u, match u with tt => eq_refl end)).
  pose proof (wf_reclaim now a Ha) as Hr. set (a1 := (reclaim_abandoned_sessions now a).2) in *.
  assert (actor_view a1 = actor_view a) as Hv1 by (unfold actor_view, a1; by rewrite reclaim_store).
  unfold on_insert_local. pose proof (wf_get_author author_id a1 Hr) as Hwf2.
  assert (∃ s, actor_get_author author_id a1 =
    (result_of_option AcAuthorNotFound (author_at (actor_view a) author_id), set_ac_store s a1)
    ∧ view s = actor_view a) as (s & Hg & Hv).
  { destruct (tables_spec (ac_store a1) (proj1 (aw_store a1 Hr))) as (t & s & Ht & -> & Hv & Hb).
    exists s. unfold actor_get_author, actor_store, get_author, mbind, ST_bind. rewrite Ht. rewrite <- Hv1.
    split; [|done]. simpl. unfold author_at, actor_view. by destruct (_ <$> _). }
  rewrite Hg in Hwf2. unfold mbind, ST_bind. rewrite Hg.
  destruct (author_at (actor_view a) author_id) as [author|] eqn:Hauth; [|done]. cbn [result_of_option snd] in Hwf2 |- *.
  pose proof (replica_insert_run created time ns author key hash len _ Hwf2) as Hrun.
  destruct (replica ns AcInsert _ _) as [[n|x|] a']; [|done..].
  destruct Hrun as (secret & Hid & Hver & He & Hget & Hst & Hwf'). exists secret, author.
  pose proof (Hau _ _ Hauth) as Haid. rewrite Haid in Hget. by split_and!.
Qed.

Lemma get_exact_run now ns author key b a : actor_store_wf a → is_Some (ac_states a !! ns) →
  ∃ a', handle_get_exact now ns author key b a = (Ok (get_exact_in (records (actor_view a)) ns author key b), a')
    ∧ actor_view a' = actor_view a.
Proof.
  intros Hwf [o Ho]. unfold handle_get_exact, send_replica.
  rewrite (receive_performs_id now (AcReplica ns (RaGetExact author key b)) RpEntry _ (on_get_exact ns author key b) eq_refl (λ _, eq_refl)).
  unfold on_get_exact, states_ensure_open, mbind, ST_bind. rewrite reclaim_states, Ho.
  unfold actor_store. rewrite reclaim_store. unfold get_exact, mbind, ST_bind.
  destruct (tables_spec _ Hwf) as (t & s & Ht & -> & Hv & _). rewrite Ht. by eexists.
Qed.

(** Setting a key answers the entry that was set.  If the request
    succeeds, its entry is signed with the document's secret and the author's,
    has the given key, the hash the blob store gave for the value, the length
    of the value and the time of the insertion, verifies, and is the record
    that the store has for that author and key.  It can fail, but never
    because the entry is missing after a successful insertion, and it never
    panics. *)
Theorem doc_set_answers_entry env req e : actor_wf (en_sync e) → authors_wf (actor_view (en_sync e)) →
  match doc_set env req e with
  | (Ok entry, e') => ∃ hash secret author,
      ae_add_bytes env (sr_value req) = Some hash
      ∧ author_at (actor_view (en_sync e)) (sr_author_id req) = Some author
      ∧ NamespaceSecret_id secret = sr_doc_id req
      ∧ entry = local_entry secret author (sr_key req) hash (N.of_nat (length (sr_value req)))
                  (ee_created (ae_engine env))
      ∧ SignedEntry_verify pk_from_bytes entry = Ok tt
      ∧ tbl_get (records (actor_view (en_sync e'))) (sr_doc_id req, sr_author_id req, sr_key req)
        = Some (record_row entry)
  | (Err x, _) => x ≠ ReNoEntry
  | (Panic, _) => False
  end.
Proof.
  intros Ha Hau. unfold doc_set. rewrite st_lift_bind.
  destruct (ae_add_bytes env (sr_value req)) as [hash|]; [|done]. cbn [result_of_option].
  unfold mbind, ST_bind, rpc_sync, rpc_err, sync_op.
  pose proof (insert_local_run (ee_now (ae_engine env)) (ee_created (ae_engine env)) (ee_time (ae_engine env))
    (sr_doc_id req) (sr_author_id req) (sr_key req) hash (N.of_nat (length (sr_value req))) _ Ha Hau) as Hrun.
  destruct (handle_insert_local _ _ _ _ _ _ _ _ (en_sync e)) as [[u|x|] a']; [|done..].
  destruct Hrun as (secret & author & Hauth & Haid & Hid & Hver & Hne & Hget & Hst & Hwf).
  change (en_sync (set_en_sync a' e)) with a'. cbn [map_err].
  destruct (get_exact_run (ee_now (ae_engine env)) (sr_doc_id req) (sr_author_id req) (sr_key req) false a' Hwf Hst)
    as (a2 & Hg & Hv). change (en_sync (set_en_sync a' e)) with a'. rewrite Hg.
  unfold get_exact_in. rewrite Hget. cbn [fmap option_fmap option_map mbind option_bind].
  set (entry := local_entry _ _ _ _ _ _) in *.
  assert (into_entry (sr_doc_id req, sr_author_id req, sr_key req) (record_row entry) = entry) as Hentry.
  { rewrite <- (into_entry_row entry) at 2. f_equal. rewrite <- Hid, <- Haid. done. }
  rewrite Hentry, Hne. cbn. exists hash, secret, author. split_and!; try done. by rewrite Hv.
Qed.
End set_key.

(** ** Sharing *)
Section share.
Context `{RedbOk, CryptoOk, HexOk, Transport, Postcard DownloadPolicy, Postcard (list (N * AuthorId)),
  PostcardOk (TicketWireFormat EndpointAddr), TicketTextOk}.
Implicit Types (e : Engine).

Definition addr_allowed (options : AddrInfoOptions) (addr : TransportAddr) : Prop :=
  match options with
  | AoId => False
  | AoRelay => is_relay addr = true
  | AoAddresses => is_ip addr = true
  | AoRelayAndAddresses => True
  end.
Lemma apply_addrs options me addr : addr ∈ ea_addrs (AddrInfoOptions_apply options me) →
  addr ∈ ea_addrs me ∧ addr_allowed options addr.
Proof.
  destruct options; simpl; rewrite ?elem_of_nil, ?elem_of_filter_list; tauto.
Qed.

(** C32: a ticket gives what it was asked for and no more.  Sharing for
    reading answers a ticket with the bare id, never the secret; sharing for
    writing needs the document open, and answers the stored capability, which
    has the secret.  The one node is this endpoint, with no address other
    than its own of the kinds that were asked for.  What is answered can be
    printed and read back. *)
Theorem doc_share_ticket env req e : actor_wf (en_sync e) →
  match doc_share env req e with
  | (Ok t, _) =>
      match sq_mode req with
      | SmRead => tk_capability t = CapRead (sq_doc_id req)
      | SmWrite => stored_capability (actor_view (en_sync e)) (sq_doc_id req) = Some (tk_capability t)
          ∧ ∃ secret, tk_capability t = CapWrite secret ∧ NamespaceSecret_id secret = sq_doc_id req
      end
      ∧ (∃ node, tk_nodes t = [node] ∧ ea_id node = ea_id (ae_addr env)
          ∧ ∀ addr, addr ∈ ea_addrs node →
              addr ∈ ea_addrs (ae_addr env) ∧ addr_allowed (sq_addr_options req) addr)
      ∧ DocTicket_from_str (DocTicket_display t) = Ok t
  | (Err _, _) => sq_mode req = SmRead → (engine_start_sync (ae_engine env) (sq_doc_id req) [] e).1 ≠ Ok tt
  | (Panic, _) => False
  end.
Proof.
  intros Ha. unfold doc_share.
  set (node := AddrInfoOptions_apply (sq_addr_options req) (ae_addr env)).
  assert (∃ node', [node] = [node'] ∧ ea_id node' = ea_id (ae_addr env)
    ∧ ∀ addr, addr ∈ ea_addrs node' → addr ∈ ea_addrs (ae_addr env) ∧ addr_allowed (sq_addr_options req) addr) as Hnode.
  { exists node. split; [done|]. split; [by unfold node; destruct (sq_addr_options req)|]. apply apply_addrs. }
  assert (∀ c, DocTicket_from_str (DocTicket_display {| tk_capability := c; tk_nodes := [node] |})
    = Ok {| tk_capability := c; tk_nodes := [node] |}) as Hback by (intros c; by rewrite ticket_read_back).
  assert (∀ e', match rpc_err (engine_start_sync (ae_engine env) (sq_doc_id req) []) e' with
    | (Panic, _) => False | (Err _, _) => (engine_start_sync (ae_engine env) (sq_doc_id req) [] e').1 ≠ Ok tt
    | _ => True end) as Hstart.
  { intros e'. unfold rpc_err, engine_start_sync, live_op. by destruct (start_sync _ _ _ _ _) as [[|] l]. }
  destruct (sq_mode req).
  - unfold mbind, ST_bind. simpl. specialize (Hstart e). destruct (rpc_err _ e) as [[u|x|] e']; simpl; [by split_and!|done|done].
  - unfold mbind, ST_bind, rpc_sync, rpc_err at 1, sync_op, handle_export_secret_key, send_replica.
    rewrite (receive_performs_id _ (AcReplica (sq_doc_id req) RaExportSecretKey) RpSecret _
      (on_export_secret_key (sq_doc_id req)) eq_refl (λ _, eq_refl)).
    set (a1 := (reclaim_abandoned_sessions _ (en_sync e)).2).
    assert (actor_wf a1) as Ha1 by (by apply wf_reclaim).
    unfold on_export_secret_key, get_open, mbind, ST_bind.
    destruct (ac_states a1 !! sq_doc_id req) as [o|] eqn:Ho; [|done]. cbn [result_of_option].
    pose proof (state_id _ _ _ Ha1 Ho) as Hid. destruct (aw_state a1 Ha1 _ o Ho) as [Hcap _].
    unfold Capability_secret_key, st_lift. destruct (i_capability (or_info o)) as [secret|id]; [|done].
    cbn [map_err]. specialize (Hstart (set_en_sync a1 e)).
    simpl. destruct (rpc_err (engine_start_sync (ae_engine env) (sq_doc_id req) []) (set_en_sync a1 e))
      as [[u|x|] e']; simpl; [|done|done]. split_and!; [|by exists secret|done|done].
    rewrite <- Hcap. unfold actor_view, a1. by rewrite reclaim_store.
Qed.
End share.

(** ** Document handles *)
Section handles.
Context `{RedbOk, CryptoOk, HexOk, Transport, Postcard DownloadPolicy, Postcard (list (N * AuthorId))}.
Context (env : ApiEnv).
Implicit Types (a : Actor) (c : Client) (d : Doc).

Definition client_actor c : Actor := en_sync (cl_engine c).
Definition refuses {A} (m : ST Client ApiErr A) c : Prop := m c = (Err AeClosed, c).

Lemma ensure_doc_open_refuses {A} d (k : unit → ST Client ApiErr A) c : dc_closed d ∈ cl_closed c →
  refuses (u ← ensure_doc_open d; k u) c.
Proof.
  intros Hc. unfold refuses, ensure_doc_open, st_ensure, mbind, ST_bind, st_get. by rewrite bool_decide_true.
Qed.

(** A closed document refuses.  Closing sets the flag that the handle
    shares with its clones, whatever the request to close answers, and no
    other document's; from then on every operation through the handle, or
    through a clone, is refused without a request. *)
Theorem closed_document_refuses d c :
  cl_closed (Doc_close env d c).2 = {[dc_closed d]} ∪ cl_closed c
  ∧ (dc_closed d ∈ cl_closed c →
      (∀ author key value, refuses (Doc_set_bytes env d author key value) c)
      ∧ (∀ author key hash size, refuses (Doc_set_hash env d author key hash size) c)
      ∧ (∀ author prefix, refuses (Doc_del env d author prefix) c)
      ∧ (∀ author key t, refuses (Doc_retract env d author key t) c)
      ∧ (∀ author key b, refuses (Doc_get_exact env d author key b) c)
      ∧ (∀ q, refuses (Doc_get_many env d q) c) ∧ (∀ q, refuses (Doc_get_one env d q) c)
      ∧ (∀ mode options, refuses (Doc_share env d mode options) c)
      ∧ (∀ peers, refuses (Doc_start_sync env d peers) c ∧ refuses (Doc_start_sync_scoped env d peers) c)
      ∧ refuses (Doc_leave env d) c ∧ refuses (Doc_leave_gossip env d) c ∧ refuses (Doc_subscribe env d) c
      ∧ refuses (Doc_status env d) c
      ∧ (∀ p, refuses (Doc_set_download_policy env d p) c) ∧ refuses (Doc_get_download_policy env d) c
      ∧ refuses (Doc_get_sync_peers env d) c
      ∧ ∀ author key progress, refuses (Doc_import_file d author key progress) c).
Proof.
  split.
  - unfold Doc_close. rewrite st_modify_bind. unfold rpc.
    by destruct (rpc_handle env (DpClose (dc_namespace_id d)) (cl_engine (set_closed (dc_closed d) c))).
  - intros Hc. split_and!; intros; try split; by apply ensure_doc_open_refuses.
Qed.

(** Closing and the status of a document, as the actor runs them. *)
Lemma rpc_close_run (ns : NamespaceId) a (e : Engine) (o : OpenReplica) :
  actor_wf a → en_sync e = a → ac_states a !! ns = Some o →
  ∃ e', rpc_handle env (DpClose ns) e = (Ok DrUnit, e') ∧ actor_wf (en_sync e')
    ∧ ac_states (en_sync e') !! ns =
        if (or_handles o =? 1)%N then None
        else Some {| or_info := or_info o; or_sync := or_sync o; or_handles := or_handles o - 1 |}.
Proof.
  intros Ha He Ho.
  cbn [rpc_handle]. unfold answer_unit, answer_with, doc_close, rpc_sync, rpc_err, sync_op, handle_close, send_replica.
  unfold mbind, ST_bind. rewrite He.
  rewrite (receive_performs_id _ (AcReplica ns RaClose) RpBool _ (actor_close ns) eq_refl (λ _, eq_refl)).
  set (a1 := (reclaim_abandoned_sessions _ a).2).
  assert (actor_wf a1) as Ha1 by (by apply wf_reclaim).
  pose proof (actor_close_run ns a1 Ha1) as Hr. pose proof (wf_actor_close ns a1 Ha1) as Hwf.
  assert (ac_states a1 !! ns = Some o) as Ho1 by (unfold a1; by rewrite reclaim_states). rewrite Ho1 in Hr.
  destruct (or_handles o =? 1)%N; rewrite Hr in Hwf |- *; simpl; eexists; (split; [done|]); (split; [exact Hwf|]).
  - simpl. by rewrite lookup_delete_eq.
  - simpl. by rewrite lookup_insert_eq.
Qed.

Lemma status_not_open d c : dc_closed d ∉ cl_closed c → ac_states (client_actor c) !! dc_namespace_id d = None →
  (Doc_status env d c).1 = Err (AeRpc (ReEngine (EeActor AcNotOpen))).
Proof.
  intros Hd Hs. unfold Doc_status, ensure_doc_open, st_ensure, mbind, ST_bind, st_get.
  rewrite bool_decide_false by done. simpl. unfold rpc. cbn [rpc_handle].
  unfold answer_with, doc_status, rpc_sync, rpc_err, sync_op, handle_get_state, send_replica. unfold mbind, ST_bind.
  rewrite (receive_performs_id _ (AcReplica (dc_namespace_id d) RaGetState) RpState _
    (on_get_state (dc_namespace_id d)) eq_refl (λ _, eq_refl)).
  unfold on_get_state, get_open, mbind, ST_bind. rewrite reclaim_states. unfold client_actor in Hs.
  by rewrite Hs.
Qed.

Lemma doc_close_run d c e' : rpc_handle env (DpClose (dc_namespace_id d)) (cl_engine c) = (Ok DrUnit, e') →
  Doc_close env d c = (Ok tt, set_closed (dc_closed d) (set_cl_engine e' c)).
Proof.
  intros Hr. unfold Doc_close. rewrite st_modify_bind. unfold rpc.
  change (cl_engine (set_closed (dc_closed d) c)) with (cl_engine c). by rewrite Hr.
Qed.

(** Closing a document twice closes it under another's feet.  With two
    handles open, the first close gives one back, and so does a second one
    through the same handle - it looks at no flag -, so that the document is
    closed for the other handle, which never was: its operations fail. *)
Theorem double_close_steals_handle (d d' : Doc) (o : OpenReplica) (c : Client) :
  actor_wf (client_actor c) → ac_states (client_actor c) !! dc_namespace_id d = Some o → or_handles o = 2%N →
  dc_namespace_id d' = dc_namespace_id d → dc_closed d' ≠ dc_closed d → dc_closed d' ∉ cl_closed c →
  let '(r1, c1) := Doc_close env d c in
  let '(r2, c2) := Doc_close env d c1 in
  r1 = Ok tt ∧ r2 = Ok tt
  ∧ (dc_closed d' ∉ cl_closed c2)
  ∧ (Doc_status env d' c2).1 = Err (AeRpc (ReEngine (EeActor AcNotOpen))).
Proof.
  intros Ha Ho Hh Hns Hne Hcl.
  destruct (rpc_close_run (dc_namespace_id d) _ (cl_engine c) o Ha eq_refl Ho) as (e1 & Hr1 & Ha1 & Ho1).
  rewrite Hh in Ho1. rewrite (doc_close_run d c e1 Hr1).
  destruct (rpc_close_run (dc_namespace_id d) _ e1 _ Ha1 eq_refl Ho1) as (e2 & Hr2 & Ha2 & Ho2).
  rewrite (doc_close_run d (set_closed (dc_closed d) (set_cl_engine e1 c)) e2 Hr2).
  split; [done|]. split; [done|]. split; [simpl; set_solver|].
  apply status_not_open; [simpl; set_solver|]. unfold client_actor. simpl. rewrite Hns. exact Ho2.
Qed.

(** Opening never answers that there is no such document: it is an error. *)
Lemma open_unknown (id : NamespaceId) c : actor_wf (client_actor c) → ac_states (client_actor c) !! id = None →
  stored_capability (actor_view (client_actor c)) id = None →
  (api_open env id c).1 = Err (AeRpc (ReEngine (EeActor (AcOpen OpenNotFound)))).
Proof.
  intros Ha Ho Hs. unfold api_open, mbind, ST_bind, rpc. cbn [rpc_handle].
  unfold answer_unit, answer_with, doc_open, rpc_sync, rpc_err, sync_op, handle_open, receive_unit, send_replica.
  unfold mbind, ST_bind.
  rewrite (receive_performs_id _ (AcReplica id (RaOpen OpenOpts_default)) (λ _, RpUnit) _
    (actor_open id OpenOpts_default) eq_refl (λ u, match u with tt => eq_refl end)).
  unfold actor_open, open_with. rewrite st_get_bind, reclaim_states. unfold client_actor in *. rewrite Ho.
  unfold actor_open_cb, mbind, ST_bind, actor_store. rewrite reclaim_store. unfold load_replica_info.
  destruct (tables_spec _ (proj1 (aw_store _ Ha))) as (t & s & Ht & -> & _). rewrite Ht.
  destruct (aw_store _ Ha) as (_ & _ & _ & Hn). unfold stored_capability, actor_view in Hs.
  destruct (tbl_get (namespaces (view (ac_store (en_sync (cl_engine c))))) id) as [v|] eqn:Hg; [|done].
  destruct (Hn _ _ Hg) as (cap & Hp & _). simpl in Hs. by rewrite Hp in Hs.
Qed.
End handles.

(** ** An API that computes

    A transport address is a number, a relay if it is even. *)
#[export] Instance number_transport : Transport :=
  {| TransportAddr := N; is_relay := N.even; is_ip := N.odd |}.
#[local] Instance addr_code_postcard : Postcard (N * arr32 * list (arr32 * list N)) := toy_postcard _.
#[local] Instance addr_code_postcard_ok : PostcardOk (N * arr32 * list (arr32 * list N)) := toy_postcard_ok _.
Definition addr_code (a : EndpointAddr) : arr32 * list N := (ea_id a, ea_addrs a).
Definition addr_decode (p : arr32 * list N) : EndpointAddr := {| ea_id := p.1; ea_addrs := p.2 |}.
Definition addr_ticket_code (w : TicketWireFormat EndpointAddr) : N * arr32 * list (arr32 * list N) :=
  let '(Variant0 t) := w in (Capability_raw (tk_capability t), addr_code <$> tk_nodes t).
#[export] Instance addr_ticket_postcard : Postcard (TicketWireFormat EndpointAddr) := {|
  pc_to_stdvec w := pc_to_stdvec (addr_ticket_code w);
  pc_from_bytes b :=
    p ← pc_from_bytes b : option (N * arr32 * list (arr32 * list N));
    c ← Capability_from_raw p.1.1 p.1.2;
    Some (Variant0 (DocTicket_new c (addr_decode <$> p.2)));
  pc_size w := pc_size (addr_ticket_code w);
|}.
#[export] Instance addr_ticket_postcard_ok : PostcardOk (TicketWireFormat EndpointAddr).
Proof.
  split; intros w; [|exact (pc_size_length (addr_ticket_code w))].
  change (pc_from_bytes (pc_to_stdvec w))
    with (p ← pc_from_bytes (pc_to_stdvec (addr_ticket_code w)) : option (N * arr32 * list (arr32 * list N));
          c ← Capability_from_raw p.1.1 p.1.2;
          Some (Variant0 (DocTicket_new (EndpointAddr:=EndpointAddr) c (addr_decode <$> p.2)))).
  rewrite pc_roundtrip. destruct w as [[c l]]. cbn [mbind option_bind fst snd addr_ticket_code tk_capability tk_nodes].
  rewrite (Capability_from_to_raw c). cbn. unfold DocTicket_new. do 3 f_equal.
  rewrite <- list_fmap_compose. rewrite <- (list_fmap_id l) at 2. apply list_fmap_ext. by intros ? [].
Qed.

Definition demo_api_env : ApiEnv := {|
  ae_engine := demo_engine_env; ae_add_bytes := λ b, Some (blake3_hash b);
  ae_addr := {| ea_id := arr_rep 32 x01; ea_addrs := [1; 2; 3; 4]%N |}; ae_channels := (7, 8)%N |}.
Definition demo_api_engine (a : Actor) : Engine := {|
  en_live := LiveActor_new (arr_rep 32 x01) None a; en_default_author := demo_author;
  en_storage := DsMem; en_file := None |}.
Definition demo_client (a : Actor) : Client :=
  {| cl_engine := demo_api_engine a; cl_closed := ∅; cl_next := 2 |}.
Definition demo_doc (flag : nat) : Doc := {| dc_namespace_id := demo_ns; dc_closed := flag |}.

Lemma import_file_result_witness :
  (this ← Doc_import_file (demo_doc 0) demo_author [x41] [None; Some (ApSize 3); None; Some ApError];
   import_await demo_api_env 5 this) (demo_client demo_actor) = (Ok (inr IeBlobsFailed), demo_client demo_actor)
  ∧ (this ← Doc_import_file (demo_doc 0) demo_author [x41] [Some (ApSize 3)];
     import_await demo_api_env 5 this) (demo_client demo_actor) = (Panic, demo_client demo_actor).
Proof.
  rewrite (import_file_result demo_api_env (demo_doc 0) demo_author [x41]
    [None; Some (ApSize 3); None; Some ApError] (demo_client demo_actor) 5) by (simpl; lia).
  rewrite (import_file_result demo_api_env (demo_doc 0) demo_author [x41]
    [Some (ApSize 3)] (demo_client demo_actor) 5) by (simpl; lia).
  by destruct (decide (dc_closed (demo_doc 0) ∈ cl_closed (demo_client demo_actor))) as [Hin%elem_of_empty|].
Defined.

(** The default author of a fresh engine; deleting it is refused. *)
Definition demo_spawn : result EngineErr Engine * DefaultDisk :=
  Engine_spawn demo_engine_env demo_actor (arr_rep 32 x01) None DsPersistent None.
Definition demo_spawned_engine : Engine :=
  match demo_spawn.1 with Ok e => e | _ => demo_api_engine demo_actor end.
Definition demo_api_events : list ApiEvent :=
  [AvRequest demo_api_env (DpAuthorDelete (Author_id (Author_new (arr_rep 32 x0c))));
   AvRequest demo_api_env (DpAuthorImport demo_new_author);
   AvRequest demo_api_env (DpAuthorSetDefault (Author_id demo_new_author)); AvIdle 9;
   AvRequest demo_api_env (DpAuthorDelete (Author_id (Author_new (arr_rep 32 x0c))))].
Lemma demo_actor_authors_wf : authors_wf (actor_view demo_actor).
Proof.
  intros id author. unfold author_at. destruct (tbl_get (authors (actor_view demo_actor)) id) eqn:Hg; [|done].
  vm_compute in Hg. discriminate Hg.
Qed.
Lemma default_author_always_stored_witness :
  (rpc_handle demo_api_env (DpAuthorDelete (Author_id (Author_new (arr_rep 32 x0c)))) demo_spawned_engine).1
    = Err ReDeleteDefault
  ∧ default_stored (api_events demo_api_events demo_spawned_engine)
  ∧ default_named (api_events demo_api_events demo_spawned_engine).
Proof.
  split; [vm_compute; reflexivity|].
  assert (is_ok demo_spawn.1 = true) as Hok by (vm_compute; reflexivity).
  unfold demo_spawned_engine. destruct demo_spawn as [[e|x|] d] eqn:Hs; [|discriminate Hok..].
  destruct (default_author_always_stored demo_engine_env demo_actor (arr_rep 32 x01) None DsPersistent None
    e d demo_api_events demo_actor_store_wf demo_actor_authors_wf Hs) as (Hd & Hn & _).
  split; [exact Hd|]. apply Hn. repeat constructor.
Defined.

(** A document that can be written, and an author. *)
Definition demo_secret : NamespaceSecret := NamespaceSecret_from_bytes (arr_rep 32 x0e).
Definition demo_import_actor : Actor :=
  (actor_turn (TnAction 600000002 (AcImportNamespace (CapWrite demo_secret)))
    (actor_turn (TnAction 600000001 (AcImportAuthor demo_new_author)) demo_actor).2).2.
Definition demo_write_actor : Actor :=
  (actor_turn (TnAction 600000003 (AcReplica (NamespaceSecret_id demo_secret) (RaOpen OpenOpts_default)))
    demo_import_actor).2.
Lemma demo_write_actor_wf : actor_wf demo_write_actor.
Proof.
  assert (ac_states demo_import_actor !! NamespaceSecret_id demo_secret = None) as Hnone by (vm_compute; reflexivity).
  apply wf_turn.
  - apply wf_turn; [|exact I]. apply wf_turn; [|exact I]. apply demo_actor_wf.
  - intros o Ho. rewrite Hnone in Ho. discriminate Ho.
Qed.
Lemma demo_authors_wf : authors_wf (actor_view demo_write_actor).
Proof.
  assert (authors (actor_view demo_write_actor)
    = tbl_insert (tbl_empty : tbl arr32 arr32) (Author_id demo_new_author) (Author_to_bytes demo_new_author)) as Heq
    by (vm_compute; reflexivity).
  intros id a. unfold author_at. rewrite Heq, tbl_get_insert, tbl_get_empty by apply _.
  destruct (eqb (Author_id demo_new_author) id) eqn:Hq; [|done]. intros [= <-]. by apply eqb_eq.
Qed.

Definition demo_set : SetRequest := {|
  sr_doc_id := NamespaceSecret_id demo_secret; sr_author_id := Author_id demo_new_author;
  sr_key := [x41]; sr_value := [x42; x43] |}.
Lemma doc_set_answers_entry_witness :
  is_ok (doc_set demo_api_env demo_set (demo_api_engine demo_write_actor)).1 = true
  ∧ ∃ entry e', doc_set demo_api_env demo_set (demo_api_engine demo_write_actor) = (Ok entry, e')
      ∧ SignedEntry_verify pk_from_bytes entry = Ok tt.
Proof.
  assert (is_ok (doc_set demo_api_env demo_set (demo_api_engine demo_write_actor)).1 = true) as Hok
    by (vm_compute; reflexivity).
  split; [exact Hok|].
  pose proof (doc_set_answers_entry demo_api_env demo_set (demo_api_engine demo_write_actor)
    demo_write_actor_wf demo_authors_wf) as HH.
  destruct (doc_set demo_api_env demo_set (demo_api_engine demo_write_actor)) as [[entry|x|] e'];
    [|discriminate Hok..].
  destruct HH as (hash & secret & author & _ & _ & _ & _ & Hver & _). exists entry, e'. exact (conj eq_refl Hver).
Defined.

Definition demo_share (mode : ShareMode) : ShareRequest := {|
  sq_doc_id := NamespaceSecret_id demo_secret; sq_mode := mode; sq_addr_options := AoRelay |}.
Lemma doc_share_ticket_witness :
  ∃ t e', doc_share demo_api_env (demo_share SmRead) (demo_api_engine demo_write_actor) = (Ok t, e')
    ∧ tk_capability t = CapRead (NamespaceSecret_id demo_secret)
    ∧ DocTicket_from_str (DocTicket_display t) = Ok t.
Proof.
  assert (is_ok (doc_share demo_api_env (demo_share SmRead) (demo_api_engine demo_write_actor)).1 = true) as Hok
    by (vm_compute; reflexivity).
  pose proof (doc_share_ticket demo_api_env (demo_share SmRead) (demo_api_engine demo_write_actor)
    demo_write_actor_wf) as HH.
  destruct (doc_share demo_api_env (demo_share SmRead) (demo_api_engine demo_write_actor)) as [[t|x|] e'];
    [|discriminate Hok..].
  destruct HH as (Hcap & _ & Hback). exists t, e'. exact (conj eq_refl (conj Hcap Hback)).
Defined.

Lemma closed_document_refuses_witness :
  Doc_status demo_api_env (demo_doc 0) (Doc_close demo_api_env (demo_doc 0) (demo_client demo_actor)).2
  = (Err AeClosed, (Doc_close demo_api_env (demo_doc 0) (demo_client demo_actor)).2).
Proof.
  pose proof (proj1 (closed_document_refuses demo_api_env (demo_doc 0) (demo_client demo_actor))) as Hc.
  refine (proj1 (proj2 (proj2 (proj2 (proj2 (proj2 (proj2 (proj2 (proj2 (proj2 (proj2 (proj2 (proj2
    (proj2 (closed_document_refuses demo_api_env (demo_doc 0)
      (Doc_close demo_api_env (demo_doc 0) (demo_client demo_actor)).2) _)))))))))))))).
  rewrite Hc. apply elem_of_union_l, elem_of_singleton. reflexivity.
Defined.

Lemma double_close_steals_handle_witness :
  let '(r1, c1) := Doc_close demo_api_env (demo_doc 0) (demo_client demo_actor) in
  let '(r2, c2) := Doc_close demo_api_env (demo_doc 0) c1 in
  r1 = Ok tt ∧ r2 = Ok tt
  ∧ (Doc_status demo_api_env (demo_doc 1) c2).1 = Err (AeRpc (ReEngine (EeActor AcNotOpen))).
Proof.
  assert (∃ o, ac_states (client_actor (demo_client demo_actor)) !! dc_namespace_id (demo_doc 0) = Some o
    ∧ or_handles o = 2%N) as (o & Ho & Hh).
  { vm_compute. eexists. split; reflexivity. }
  pose proof (double_close_steals_handle demo_api_env (demo_doc 0) (demo_doc 1) o (demo_client demo_actor)
    demo_actor_wf Ho Hh eq_refl (Nat.neq_succ_0 0) (not_elem_of_empty _)) as HH.
  destruct (Doc_close demo_api_env (demo_doc 0) (demo_client demo_actor)) as [r1 c1].
  destruct (Doc_close demo_api_env (demo_doc 0) c1) as [r2 c2].
  destruct HH as (Hr1 & Hr2 & _ & Hs). exact (conj Hr1 (conj Hr2 Hs)).
Defined.
