(* ===== verification/Gossip.v ===== *)
(** * The topics of the gossip swarm

    Models [GossipState] of [src/engine/gossip.rs]: the topics that are
    joined, their senders and the tasks that run their receive loops (what a
    loop passes on is [receive_loop] of Live).  iroh-gossip is what the
    operations send commands to, [GossipEnv] what it answers.  A task is
    joined when it has ended: [TaskEnd] says how, and is an input, since a
    task that is aborted may end before the abort reaches it. *)
From S2P Require Import Prelude Redb Keys Entry Heads Query Bounds Ranger Info Store StoreInstance Filter QueryIter Replica SyncState Codec Net Actor ActorInv ActorSessions Live SyncHandle LiveInv LiveFacts.

Abbreviation TaskId := N.
Abbreviation SubscriptionId := N.

Record ActiveState := { as_sender : SubscriptionId; as_abort_handle : TaskId }.
(** A receive loop: its topic, the subscription it reads, and whether it was
    told to stop. *)
Record GossipTask := {
  gt_namespace : NamespaceId;
  gt_stream : SubscriptionId;
  gt_aborted : bool;
}.
Inductive GossipCommand :=
| GcSubscribe (topic : NamespaceId) (bootstrap : list EndpointId)
| GcJoinPeers (sender : SubscriptionId) (peers : list EndpointId)
| GcBroadcastNeighbors (sender : SubscriptionId) (message : bytes).

Record GossipState := {
  gs_active : gmap NamespaceId ActiveState;
  gs_active_tasks : gmap TaskId GossipTask;
  gs_next_task : TaskId;
  gs_commands : list GossipCommand;
}.
Definition set_gs_active m (s : GossipState) : GossipState :=
  {| gs_active := m; gs_active_tasks := gs_active_tasks s; gs_next_task := gs_next_task s;
     gs_commands := gs_commands s |}.
Definition set_gs_active_tasks m (s : GossipState) : GossipState :=
  {| gs_active := gs_active s; gs_active_tasks := m; gs_next_task := gs_next_task s;
     gs_commands := gs_commands s |}.
Definition gs_command c (s : GossipState) : GossipState :=
  {| gs_active := gs_active s; gs_active_tasks := gs_active_tasks s; gs_next_task := gs_next_task s;
     gs_commands := gs_commands s ++ [c] |}.

(** The answers of iroh-gossip; [None] is an error. *)
Record GossipEnv := { gv_subscribe : option SubscriptionId; gv_join_peers : bool }.
Inductive GossipErr := GerJoinPeers | GerSubscribe | GerPanicked.
Abbreviation GM := (ST GossipState GossipErr).

Definition GossipState_new : GossipState :=
  {| gs_active := ∅; gs_active_tasks := ∅; gs_next_task := 0%N; gs_commands := [] |}.

(** ** The set of tasks *)
Definition tasks_spawn (task : GossipTask) : GM TaskId := λ s,
  (Ok (gs_next_task s),
   {| gs_active := gs_active s; gs_active_tasks := <[gs_next_task s := task]> (gs_active_tasks s);
      gs_next_task := N.succ (gs_next_task s); gs_commands := gs_commands s |}).
Definition task_abort (task : GossipTask) : GossipTask :=
  {| gt_namespace := gt_namespace task; gt_stream := gt_stream task; gt_aborted := true |}.
Definition abort_handle_abort (id : TaskId) : GM unit :=
  st_modify (λ s, set_gs_active_tasks (alter task_abort id (gs_active_tasks s)) s).

(** ** Operations *)
Definition gossip_join (env : GossipEnv) (namespace : NamespaceId) (bootstrap : list EndpointId) : GM unit :=
  active ← st_gets gs_active;
  match active !! namespace with
  | Some entry =>
      if bool_decide (bootstrap = []) then mret tt
      else
        _ ← st_modify (gs_command (GcJoinPeers (as_sender entry) bootstrap));
        st_ensure (gv_join_peers env) GerJoinPeers
  | None =>
      _ ← st_modify (gs_command (GcSubscribe namespace bootstrap));
      match gv_subscribe env with
      | None => st_err GerSubscribe
      | Some sub =>
          abort_handle ← tasks_spawn {| gt_namespace := namespace; gt_stream := sub; gt_aborted := false |};
          st_modify (set_gs_active (<[namespace := {| as_sender := sub; as_abort_handle := abort_handle |}]> active))
      end
  end.

Definition gossip_quit (topic : NamespaceId) : GM unit :=
  active ← st_gets gs_active;
  match active !! topic with
  | None => mret tt
  | Some state =>
      _ ← st_modify (set_gs_active (delete topic active));
      abort_handle_abort (as_abort_handle state)
  end.

(** The error of a broadcast is ignored. *)
Definition gossip_broadcast_neighbors (namespace : NamespaceId) (message : bytes) : GM unit :=
  active ← st_gets gs_active;
  match active !! namespace with
  | None => mret tt
  | Some state => st_modify (gs_command (GcBroadcastNeighbors (as_sender state) message))
  end.

Definition gossip_is_empty (s : GossipState) : bool := bool_decide (gs_active s = ∅).

(** How a task ended: with the result of its loop, by an abort, by a panic. *)
Inductive TaskEnd := TeReturned (ok : bool) | TeCancelled | TePanicked.

(** [progress], on the tasks that end while it is awaited, in order; it is
    done when no task is left ([true]), and waits otherwise ([false]): it may
    be dropped then and called again. *)
Fixpoint gossip_progress (joined : list (TaskId * TaskEnd)) : GM bool :=
  tasks ← st_gets gs_active_tasks;
  match joined with
  | [] => mret (bool_decide (tasks = ∅))
  | (id, te) :: joined =>
      match tasks !! id with
      | None => gossip_progress joined
      | Some task =>
          _ ← st_modify (set_gs_active_tasks (delete id tasks));
          match te with
          | TeCancelled => gossip_progress joined
          | TePanicked => st_err GerPanicked
          | TeReturned _ =>
              _ ← st_modify (λ s, set_gs_active (delete (gt_namespace task) (gs_active s)) s);
              gossip_progress joined
          end
      end
  end.

Definition gossip_shutdown (joined : list (TaskId * TaskEnd)) : GM bool :=
  active ← st_gets gs_active;
  _ ← st_modify (set_gs_active ∅);
  _ ← st_for (map_to_list active) (λ '(_, state), abort_handle_abort (as_abort_handle state));
  gossip_progress joined.

(** ** Runs

    What the live actor does with the state; it polls [progress] only while a
    topic is joined. *)
Inductive GossipTurn :=
| GtJoin (env : GossipEnv) (namespace : NamespaceId) (bootstrap : list EndpointId)
| GtQuit (namespace : NamespaceId)
| GtBroadcast (namespace : NamespaceId) (message : bytes)
| GtProgress (joined : list (TaskId * TaskEnd)).

Definition gossip_turn (t : GossipTurn) (s : GossipState) : GossipState :=
  match t with
  | GtJoin env namespace bootstrap => (gossip_join env namespace bootstrap s).2
  | GtQuit namespace => (gossip_quit namespace s).2
  | GtBroadcast namespace message => (gossip_broadcast_neighbors namespace message s).2
  | GtProgress joined => if gossip_is_empty s then s else (gossip_progress joined s).2
  end.
Definition gossip_run (ts : list GossipTurn) (s : GossipState) : GossipState :=
  foldl (λ s t, gossip_turn t s) s ts.

(** How the loops of a run ended: a loop as it was when it was joined. *)
Record LoopEnd := { le_task : TaskId; le_loop : GossipTask; le_end : TaskEnd }.
Fixpoint progress_ended (joined : list (TaskId * TaskEnd)) (tasks : gmap TaskId GossipTask) : list LoopEnd :=
  match joined with
  | [] => []
  | (id, te) :: joined =>
      match tasks !! id with
      | None => progress_ended joined tasks
      | Some task =>
          {| le_task := id; le_loop := task; le_end := te |}
          :: match te with TePanicked => [] | _ => progress_ended joined (delete id tasks) end
      end
  end.
Definition turn_ended (t : GossipTurn) (s : GossipState) : list LoopEnd :=
  match t with
  | GtProgress joined => if gossip_is_empty s then [] else progress_ended joined (gs_active_tasks s)
  | _ => []
  end.

(** A task ends with a cancellation only if it was aborted, as tokio has it. *)
Definition cancels_ok (tasks : gmap TaskId GossipTask) (joined : list (TaskId * TaskEnd)) : Prop :=
  ∀ id t, (id, TeCancelled) ∈ joined → tasks !! id = Some t → gt_aborted t = true.

(** The states of the runs, with the loops that have ended so far. *)
Inductive gossip_reach : list LoopEnd → GossipState → Prop :=
| gr_new : gossip_reach [] GossipState_new
| gr_turn h s t :
    gossip_reach h s →
    match t with GtProgress joined => cancels_ok (gs_active_tasks s) joined | _ => True end →
    gossip_reach (h ++ turn_ended t s) (gossip_turn t s).

(** ** What holds of the state

    The entry of a topic holds the sender and the task of one subscription;
    the task is among those that run and was not told to stop. *)
Definition entry_ok (tasks : gmap TaskId GossipTask) (namespace : NamespaceId) (st : ActiveState) : Prop :=
  ∃ t, tasks !! as_abort_handle st = Some t ∧ gt_namespace t = namespace
       ∧ gt_stream t = as_sender st ∧ gt_aborted t = false.
(** The loop of the entry panicked. *)
Definition loop_panicked (h : list LoopEnd) (namespace : NamespaceId) (st : ActiveState) : Prop :=
  {| le_task := as_abort_handle st;
     le_loop := {| gt_namespace := namespace; gt_stream := as_sender st; gt_aborted := false |};
     le_end := TePanicked |} ∈ h.
(** A loop of the topic that was told to stop returned all the same. *)
Definition late_return (h : list LoopEnd) (namespace : NamespaceId) : Prop :=
  ∃ e ok, e ∈ h ∧ le_end e = TeReturned ok ∧ gt_namespace (le_loop e) = namespace
          ∧ gt_aborted (le_loop e) = true.

Record gossip_inv (h : list LoopEnd) (s : GossipState) : Prop := {
  gi_fresh : ∀ (id : TaskId) t, gs_active_tasks s !! id = Some t → (id < gs_next_task s)%N;
  gi_ended : ∀ e, e ∈ h → gs_active_tasks s !! le_task e = None ∧ (le_task e < gs_next_task s)%N;
  gi_active : ∀ (ns : NamespaceId) st, gs_active s !! ns = Some st →
    entry_ok (gs_active_tasks s) ns st ∨ loop_panicked h ns st;
  gi_owned : ∀ (id : TaskId) t, gs_active_tasks s !! id = Some t → gt_aborted t = false →
    gs_active s !! gt_namespace t = Some {| as_sender := gt_stream t; as_abort_handle := id |}
    ∨ late_return h (gt_namespace t);
}.

Section gossip_facts.
Implicit Types (s : GossipState) (ns : NamespaceId) (joined : list (TaskId * TaskEnd)) (h : list LoopEnd).

Lemma late_return_app h h' ns : late_return h ns → late_return (h ++ h') ns.
Proof. intros (e & ok & He & ?). exists e, ok. split; [set_solver|done]. Qed.
Lemma loop_panicked_app h h' ns st : loop_panicked h ns st → loop_panicked (h ++ h') ns st.
Proof. unfold loop_panicked. set_solver. Qed.

(** [progress] by its joined tasks. *)
Lemma progress_cons id te joined s :
  gossip_progress ((id, te) :: joined) s =
  match gs_active_tasks s !! id with
  | None => gossip_progress joined s
  | Some task =>
      let s1 := set_gs_active_tasks (delete id (gs_active_tasks s)) s in
      match te with
      | TeCancelled => gossip_progress joined s1
      | TePanicked => (Err GerPanicked, s1)
      | TeReturned _ => gossip_progress joined (set_gs_active (delete (gt_namespace task) (gs_active s1)) s1)
      end
  end.
Proof.
  simpl. rewrite st_gets_bind. destruct (_ !! id) as [task|]; [|done]. rewrite st_modify_bind.
  by destruct te.
Qed.

(** Joining one task: its loop is out of the set, and its topic with it if it
    returned. *)
Definition joined_state (task : GossipTask) (id : TaskId) (te : TaskEnd) s : GossipState :=
  let s1 := set_gs_active_tasks (delete id (gs_active_tasks s)) s in
  match te with
  | TeReturned _ => set_gs_active (delete (gt_namespace task) (gs_active s1)) s1
  | _ => s1
  end.
Lemma joined_inv h task id te s : gossip_inv h s → gs_active_tasks s !! id = Some task →
  (te = TeCancelled → gt_aborted task = true) →
  gossip_inv (h ++ [{| le_task := id; le_loop := task; le_end := te |}]) (joined_state task id te s).
Proof.
  set (e := {| le_task := id |}). intros [Hf He0 Ha Ho] Ht Hc.
  assert (gs_active_tasks (joined_state task id te s) = delete id (gs_active_tasks s)) as Htasks by by destruct te.
  assert (∀ ns st, gs_active (joined_state task id te s) !! ns = Some st → gs_active s !! ns = Some st
    ∧ (∀ ok, te = TeReturned ok → gt_namespace task ≠ ns)) as Hact.
  { intros ns st. destruct te; simpl; [|done..]. rewrite lookup_delete_Some. naive_solver. }
  split; rewrite ?Htasks.
  - intros id' t [_ Ht']%lookup_delete_Some. apply Hf in Ht'. by destruct te.
  - intros e' Hin. apply elem_of_app in Hin as [He'|Heq%list_elem_of_singleton]; [|subst e'].
    + destruct (He0 _ He') as [Hn ?]. split; [|by destruct te]. rewrite lookup_delete_None. by right.
    + split; [apply lookup_delete_eq|]. apply Hf in Ht. by destruct te.
  - intros ns st [Hst Hne]%Hact. destruct (Ha _ _ Hst) as [(t & Hh & Hns & Hsub & Hab)|Hp];
      [|right; by apply loop_panicked_app].
    destruct (decide (as_abort_handle st = id)) as [Heq|?];
      [|left; exists t; by rewrite lookup_delete_ne].
    assert (t = task) as -> by congruence. right. destruct te as [ok| |].
    + by destruct (Hne ok).
    + rewrite Hc in Hab by done. done.
    + unfold loop_panicked, e. rewrite <- Hns, <- Hsub, <- Hab, Heq. destruct task. set_solver.
  - intros id' t [Hne Ht']%lookup_delete_Some Hab.
    destruct (Ho _ _ Ht' Hab) as [Hst|Hl]; [|right; by apply late_return_app].
    destruct te as [ok| |]; [|by left..]. simpl.
    destruct (decide (gt_namespace task = gt_namespace t)) as [Heq|?];
      [|left; by rewrite lookup_delete_ne]. right. rewrite <- Heq.
    destruct (gt_aborted task) eqn:Hta; [exists e, ok; set_solver|].
    destruct (Ho _ _ Ht Hta) as [Hst'|Hl]; [congruence|by apply late_return_app].
Qed.

Lemma progress_inv joined h s : gossip_inv h s → cancels_ok (gs_active_tasks s) joined →
  gossip_inv (h ++ progress_ended joined (gs_active_tasks s)) (gossip_progress joined s).2.
Proof.
  induction joined as [|[id te] joined IH] in h, s |- *; intros Hi Hc; [by rewrite app_nil_r|].
  rewrite progress_cons. simpl progress_ended. destruct (gs_active_tasks s !! id) as [task|] eqn:Ht.
  - assert (te = TeCancelled → gt_aborted task = true) as Hct by (intros ->; apply (Hc id task); [by left|done]).
    pose proof (joined_inv h task id te s Hi Ht Hct) as Hj.
    assert (cancels_ok (delete id (gs_active_tasks s)) joined) as Hc'.
    { intros i t Hin [_ ?]%lookup_delete_Some. apply (Hc i t); [by right|done]. }
    rewrite cons_middle, app_assoc. destruct te; [exact (IH _ _ Hj Hc')..|by rewrite app_nil_r].
  - apply IH; [done|]. intros i t Hin. apply (Hc i t). by right.
Qed.

(** Joining a topic that is not joined spawns its loop; all else leaves topics
    and tasks alone. *)
Lemma join_run env ns bootstrap s :
  let '(r, s') := gossip_join env ns bootstrap s in
  match gs_active s !! ns, gv_subscribe env with
  | None, Some sub =>
      r = Ok tt
      ∧ gs_active s' = <[ns := {| as_sender := sub; as_abort_handle := gs_next_task s |}]> (gs_active s)
      ∧ gs_active_tasks s' =
          <[gs_next_task s := {| gt_namespace := ns; gt_stream := sub; gt_aborted := false |}]> (gs_active_tasks s)
      ∧ gs_next_task s' = N.succ (gs_next_task s)
  | o, _ =>
      (r = Ok tt ↔ is_Some o ∧ (bootstrap = [] ∨ gv_join_peers env = true)) ∧ r ≠ Panic
      ∧ gs_active s' = gs_active s ∧ gs_active_tasks s' = gs_active_tasks s
      ∧ gs_next_task s' = gs_next_task s
  end.
Proof.
  unfold gossip_join. rewrite st_gets_bind. destruct (gs_active s !! ns) as [st|].
  - destruct (bool_decide (bootstrap = [])) eqn:Hb; [apply bool_decide_eq_true in Hb; naive_solver|].
    apply bool_decide_eq_false in Hb. rewrite st_modify_bind. unfold st_ensure.
    destruct (gv_join_peers env); naive_solver.
  - rewrite st_modify_bind. destruct (gv_subscribe env) as [sub|]; [done|].
    split_and!; try done. split; [done|]. by intros [[? [=]] _].
Qed.

Lemma join_inv env ns bootstrap h s : gossip_inv h s → gossip_inv h (gossip_join env ns bootstrap s).2.
Proof.
  intros [Hf He Ha Ho]. pose proof (join_run env ns bootstrap s) as Hj.
  destruct (gossip_join env ns bootstrap s) as [r s']. simpl.
  destruct (gs_active s !! ns) as [st|] eqn:Hns; [|destruct (gv_subscribe env) as [sub|]].
  1, 3: destruct Hj as (_ & _ & H1 & H2 & H3); split; rewrite ?H1, ?H2, ?H3; done.
  destruct Hj as (_ & Hact & Htasks & Hnext). split; rewrite ?Hact, ?Htasks, ?Hnext.
  - intros id t. rewrite lookup_insert_Some. intros [[<- _]|[_ Ht]]; [lia|]. apply Hf in Ht. lia.
  - intros e [Hn ?]%He. split; [|lia]. rewrite lookup_insert_ne; [done|lia].
  - intros ns' st'. rewrite lookup_insert_Some. intros [[<- <-]|[Hne Hst]].
    + left. eexists. by rewrite lookup_insert_eq.
    + destruct (Ha _ _ Hst) as [(t & Ht & ?)|?]; [left|by right]. exists t.
      rewrite lookup_insert_ne; [done|]. intros Heq. apply Hf in Ht. lia.
  - intros id t. rewrite lookup_insert_Some. intros [[<- <-]|[_ Ht]] Hab; simpl.
    + left. by rewrite lookup_insert_eq.
    + destruct (Ho _ _ Ht Hab) as [Hst|?]; [left|by right]. rewrite lookup_insert_ne; [done|]. congruence.
Qed.

Lemma quit_run ns s :
  let s' := (gossip_quit ns s).2 in
  gs_active s' = delete ns (gs_active s) ∧ gs_next_task s' = gs_next_task s
  ∧ gs_active_tasks s' =
      match gs_active s !! ns with
      | Some st => alter task_abort (as_abort_handle st) (gs_active_tasks s)
      | None => gs_active_tasks s
      end.
Proof.
  unfold gossip_quit. rewrite st_gets_bind. destruct (gs_active s !! ns) eqn:Hns; [done|].
  simpl. by rewrite delete_id.
Qed.

Lemma lookup_task_abort (i id : TaskId) (tasks : gmap TaskId GossipTask) (t : GossipTask) :
  alter task_abort i tasks !! id = Some t →
  ∃ t0, tasks !! id = Some t0 ∧ gt_namespace t = gt_namespace t0 ∧ gt_stream t = gt_stream t0
    ∧ gt_aborted t = (bool_decide (i = id) || gt_aborted t0).
Proof.
  rewrite lookup_alter_Some. intros [(-> & t0 & Ht & ->)|(Hne & Ht)].
  - exists t0. by rewrite bool_decide_true.
  - exists t. by rewrite bool_decide_false.
Qed.

Lemma quit_inv ns h s : gossip_inv h s → gossip_inv h (gossip_quit ns s).2.
Proof.
  intros [Hf He Ha Ho]. destruct (quit_run ns s) as (Hact & Hnext & Htasks).
  destruct (gs_active s !! ns) as [st|] eqn:Hns;
    [|split; rewrite ?Hact, ?Htasks, ?Hnext, ?delete_id by done; done].
  split; rewrite ?Hact, ?Htasks, ?Hnext.
  - intros id t (t0 & Ht & _)%lookup_task_abort. by eapply Hf.
  - intros e [Hn ?]%He. split; [|done]. by rewrite lookup_alter_None.
  - intros ns' st' [Hne Hst]%lookup_delete_Some.
    destruct (Ha _ _ Hst) as [(t & Ht & Htn & Hsub & Hab)|?]; [left|by right]. exists t.
    rewrite lookup_alter_ne; [done|]. intros Heq. rewrite <- Heq in Ht.
    destruct (Ha _ _ Hns) as [(t1 & Ht1 & Htn1 & _)|[Hn _]%He]; [congruence|].
    simpl in Hn. congruence.
  - intros id t (t0 & Ht & -> & -> & Hab')%lookup_task_abort Hab. rewrite Hab' in Hab.
    apply orb_false_iff in Hab as [Hne Hab]. apply bool_decide_eq_false in Hne.
    destruct (Ho _ _ Ht Hab) as [Hst|?]; [left|by right].
    rewrite lookup_delete_ne; [done|]. intros Heq. rewrite <- Heq, Hns in Hst.
    by simplify_eq.
Qed.

Lemma broadcast_run ns message s :
  let s' := (gossip_broadcast_neighbors ns message s).2 in
  gs_active s' = gs_active s ∧ gs_active_tasks s' = gs_active_tasks s ∧ gs_next_task s' = gs_next_task s
  ∧ gs_commands s' = gs_commands s ++
      match gs_active s !! ns with Some st => [GcBroadcastNeighbors (as_sender st) message] | None => [] end.
Proof.
  unfold gossip_broadcast_neighbors. rewrite st_gets_bind. destruct (gs_active s !! ns); [done|].
  simpl. by rewrite app_nil_r.
Qed.

Lemma reach_inv h s : gossip_reach h s → gossip_inv h s.
Proof.
  induction 1 as [|h s t _ IH Ht].
  { split; simpl; [|set_solver|..]; intros ?? Hl; by apply lookup_empty_Some in Hl. }
  destruct t as [env ns bs|ns|ns msg|joined]; simpl; rewrite ?app_nil_r.
  - by apply join_inv.
  - by apply quit_inv.
  - destruct (broadcast_run ns msg s) as (H1 & H2 & H3 & _). destruct IH.
    by split; rewrite ?H1, ?H2, ?H3.
  - destruct (gossip_is_empty s); [by rewrite app_nil_r|]. by apply progress_inv.
Qed.

(** ** Stopping *)
Lemma progress_result joined s : (∀ p, p ∈ joined → p.2 ≠ TePanicked) →
  ∃ s', gossip_progress joined s = (Ok (bool_decide (gs_active_tasks s' = ∅)), s')
    ∧ ∀ id : TaskId, gs_active_tasks s' !! id =
        if bool_decide (id ∈ joined.*1) then None else gs_active_tasks s !! id.
Proof.
  induction joined as [|[id te] joined IH] in s |- *; intros Hp.
  { exists s. split; [done|]. intros id. by rewrite bool_decide_false by apply not_elem_of_nil. }
  assert (∀ s1, gs_active_tasks s1 = delete id (gs_active_tasks s) →
    ∃ s', gossip_progress joined s1 = (Ok (bool_decide (gs_active_tasks s' = ∅)), s')
    ∧ ∀ id' : TaskId, gs_active_tasks s' !! id' =
        if bool_decide (id' ∈ ((id, te) :: joined).*1) then None else gs_active_tasks s !! id') as Hnext.
  { intros s1 Hs1. destruct (IH s1) as (s' & Hr & Hl); [intros p ?; apply Hp; set_solver|].
    exists s'. split; [done|]. intros id'. rewrite Hl, Hs1. simpl.
    destruct (decide (id' = id)) as [->|Hne].
    - rewrite (bool_decide_true (id ∈ id :: _)) by set_solver. rewrite lookup_delete_eq. case_match; reflexivity.
    - rewrite lookup_delete_ne by done. apply (f_equal (λ b : bool, if b then None else _)).
      apply bool_decide_ext. rewrite elem_of_cons. naive_solver. }
  rewrite progress_cons. destruct (gs_active_tasks s !! id) as [task|] eqn:Ht.
  - destruct te; simpl; [by apply Hnext..|]. destruct (Hp (id, TePanicked)); [set_solver|done].
  - apply Hnext. by rewrite delete_id.
Qed.

(** Aborting the tasks of a list of entries. *)
Lemma abort_all (l : list (NamespaceId * ActiveState)) s :
  ∃ s', st_for (E:=GossipErr) l (λ '(_, state), abort_handle_abort (as_abort_handle state)) s = (Ok tt, s')
    ∧ gs_active s' = gs_active s
    ∧ ∀ i : TaskId, gs_active_tasks s' !! i =
        (if bool_decide (i ∈ as_abort_handle ∘ snd <$> l) then task_abort else id) <$> gs_active_tasks s !! i.
Proof.
  induction l as [|[ns st] l IH] in s |- *.
  { exists s. split_and!; [done..|]. intros i. rewrite bool_decide_false by apply not_elem_of_nil.
    by rewrite option_fmap_id. }
  destruct (IH (set_gs_active_tasks (alter task_abort (as_abort_handle st) (gs_active_tasks s)) s))
    as (s' & Hr & Ha & Hl).
  exists s'. split_and!; [exact Hr|done|]. intros i. rewrite Hl. simpl.
  destruct (decide (i = as_abort_handle st)) as [->|Hne].
  - rewrite lookup_alter_eq, (bool_decide_true (_ ∈ _ :: _)) by set_solver.
    case_bool_decide; destruct (gs_active_tasks s !! _); done.
  - rewrite lookup_alter_ne by done.
    rewrite (bool_decide_ext (i ∈ as_abort_handle st :: _) (i ∈ as_abort_handle ∘ snd <$> l));
      [done|]. rewrite elem_of_cons. naive_solver.
Qed.

(** [progress] takes tasks and topics out, and adds none. *)
Lemma progress_subseteq joined s : let s' := (gossip_progress joined s).2 in
  gs_active_tasks s' ⊆ gs_active_tasks s ∧ gs_active s' ⊆ gs_active s.
Proof.
  induction joined as [|[id te] joined IH] in s |- *; [done|]. rewrite progress_cons.
  destruct (gs_active_tasks s !! id) as [task|]; [|apply IH].
  destruct te; simpl; [|destruct (IH (set_gs_active_tasks (delete id (gs_active_tasks s)) s)) as [H1 H2]|].
  - match goal with |- context [gossip_progress joined ?s1] => destruct (IH s1) as [H1 H2] end.
    split; etrans; [exact H1|apply delete_subseteq|exact H2|apply delete_subseteq].
  - split; [|done]. etrans; [exact H1|apply delete_subseteq].
  - split; [apply delete_subseteq|done].
Qed.

(** What [shutdown] has aborted before it waits. *)
Lemma shutdown_run joined h s : gossip_inv h s →
  ∃ s1, gossip_shutdown joined s = gossip_progress joined s1 ∧ gs_active s1 = ∅
    ∧ (dom (gs_active_tasks s1) : gset TaskId) = dom (gs_active_tasks s)
    ∧ ∀ (id : TaskId) t, gs_active_tasks s1 !! id = Some t →
        gt_aborted t = true ∨ late_return h (gt_namespace t).
Proof.
  intros [_ _ _ Ho]. unfold gossip_shutdown. rewrite st_gets_bind, st_modify_bind.
  destruct (abort_all (map_to_list (gs_active s)) (set_gs_active ∅ s)) as (s1 & Hr & Ha & Hl).
  exists s1. split_and!; [by rewrite (st_bind_run _ _ _ _ _ Hr)|done|..].
  - apply set_eq. intros i. rewrite !elem_of_dom, Hl, fmap_is_Some. done.
  - intros i t. rewrite Hl. simpl. destruct (gs_active_tasks s !! i) as [t0|] eqn:Ht; [|done].
    intros [= <-]. case_bool_decide as Hin; [by left|]. simpl.
    destruct (gt_aborted t0) eqn:Hab; [by left|]. destruct (Ho _ _ Ht Hab) as [Hst|?]; [|by right].
    destruct Hin. apply list_elem_of_fmap.
    eexists (_, {| as_sender := _; as_abort_handle := i |}). split; [done|]. by apply elem_of_map_to_list.
Qed.

(** C23: On every run, however its receive loops end: a joined topic has a
    receive loop that was not told to stop and reads the subscription the topic
    sends on, unless that loop panicked; a loop that was not told to stop is
    that of its joined topic, and the only one of its topic, unless a loop of
    the same topic that was told to stop had returned all the same; [quit]
    takes the topic out, stops its loop and sends nothing to it afterwards;
    [shutdown] takes out every topic, stops every loop but those of such
    topics, and is done as soon as all loops have ended. *)
Theorem gossip_one_loop h s : gossip_reach h s →
  (∀ ns st, gs_active s !! ns = Some st → entry_ok (gs_active_tasks s) ns st ∨ loop_panicked h ns st)
  ∧ (∀ (i : TaskId) t, gs_active_tasks s !! i = Some t → gt_aborted t = false →
       gs_active s !! gt_namespace t = Some {| as_sender := gt_stream t; as_abort_handle := i |}
       ∨ late_return h (gt_namespace t))
  ∧ (∀ (i j : TaskId) t u, gs_active_tasks s !! i = Some t → gs_active_tasks s !! j = Some u →
       gt_aborted t = false → gt_aborted u = false → gt_namespace t = gt_namespace u →
       i = j ∨ late_return h (gt_namespace t))
  ∧ (∀ ns message, let s' := (gossip_quit ns s).2 in
       gs_active s' = delete ns (gs_active s)
       ∧ (∀ (i : TaskId) t, gs_active_tasks s' !! i = Some t → gt_namespace t = ns →
            gt_aborted t = true ∨ late_return h ns)
       ∧ gs_commands (gossip_broadcast_neighbors ns message s').2 = gs_commands s')
  ∧ (∀ joined, let s' := (gossip_shutdown joined s).2 in
       gs_active s' = ∅
       ∧ (∀ (i : TaskId) t, gs_active_tasks s' !! i = Some t →
            gt_aborted t = true ∨ late_return h (gt_namespace t))
       ∧ ((∀ p, p ∈ joined → p.2 ≠ TePanicked) →
            (gossip_shutdown joined s).1 = Ok (bool_decide (gs_active_tasks s' = ∅))
            ∧ ((∀ i : TaskId, is_Some (gs_active_tasks s !! i) → i ∈ joined.*1) → gs_active_tasks s' = ∅))).
Proof.
  intros Hinv%reach_inv. pose proof (gi_owned _ _ Hinv) as Ho.
  split_and!; [apply (gi_active _ _ Hinv)|exact Ho|..|intros ns message|intros joined].
  - intros i j t u Ht Hu Hat Hau Hns. destruct (Ho _ _ Ht Hat) as [Hst|?]; [|by right].
    destruct (Ho _ _ Hu Hau) as [Hst'|?]; [left|right; by rewrite Hns].
    rewrite Hns, Hst' in Hst. by simplify_eq.
  - destruct (quit_run ns s) as (Hact & _ & _). split_and!; [done|..].
    + intros i t Ht Hns. destruct (gt_aborted t) eqn:Hab; [by left|].
      destruct (gi_owned _ _ (quit_inv ns h s Hinv) _ _ Ht Hab) as [Hst|Hl]; [|right; by rewrite <- Hns].
      by rewrite Hact, Hns, lookup_delete_eq in Hst.
    + destruct (broadcast_run ns message (gossip_quit ns s).2) as (_ & _ & _ & ->).
      by rewrite Hact, lookup_delete_eq, app_nil_r.
  - destruct (shutdown_run joined h s Hinv) as (s1 & Hr & Ha & Hd & Hab). simpl. rewrite Hr.
    destruct (progress_subseteq joined s1) as [Hsub Hact]. split_and!.
    + apply map_empty. intros i. apply eq_None_not_Some. intros [st Hst].
      eapply lookup_weaken in Hst; [|exact Hact]. by rewrite Ha in Hst.
    + intros i t Ht. apply (Hab i). by eapply lookup_weaken.
    + intros Hp. destruct (progress_result joined s1 Hp) as (s' & -> & Hl). split; [done|].
      intros Hcov. apply map_empty. intros i. simpl. rewrite Hl.
      destruct (decide (i ∈ joined.*1)) as [Hin|Hin]; [by rewrite bool_decide_true|].
      rewrite bool_decide_false by done. apply not_elem_of_dom. rewrite Hd, elem_of_dom. intros Hi.
      by apply Hin, Hcov.
Qed.

(** A topic that is left and joined again before its first loop, which had
    ended by itself, is taken out of the set of tasks: taking it out forgets
    the second subscription.  Its loop runs on; the topic is not joined, no
    message is sent to it, and [shutdown] waits for the loop without having
    told it to stop. *)
Theorem rejoined_topic_lost env env' sub sub' ns message ok s :
  gs_active s !! ns = None → gv_subscribe env = Some sub → gv_subscribe env' = Some sub' →
  let s3 := gossip_run [GtJoin env ns []; GtQuit ns; GtJoin env' ns []] s in
  let s4 := (gossip_progress [(gs_next_task s, TeReturned ok)] s3).2 in
  gs_active s3 !! ns = Some {| as_sender := sub'; as_abort_handle := N.succ (gs_next_task s) |}
  ∧ gs_active s4 !! ns = None
  ∧ gs_active_tasks s4 !! N.succ (gs_next_task s) =
      Some {| gt_namespace := ns; gt_stream := sub'; gt_aborted := false |}
  ∧ gs_commands (gossip_broadcast_neighbors ns message s4).2 = gs_commands s4
  ∧ (gs_active s = ∅ → (gossip_shutdown [] s4).1 = Ok false).
Proof.
  intros Hns Hs1 Hs2 s3 s4.
  pose proof (join_run env ns [] s) as Hj. destruct (gossip_join env ns [] s) as [r1 s1] eqn:Hr1.
  rewrite Hns, Hs1 in Hj. destruct Hj as (_ & Ha1 & Ht1 & Hn1).
  destruct (quit_run ns s1) as (Ha2 & Hn2 & Ht2).
  pose proof (join_run env' ns [] (gossip_quit ns s1).2) as Hj.
  assert (s3 = (gossip_join env' ns [] (gossip_quit ns s1).2).2) as Hs3
    by (unfold s3, gossip_run; simpl; by rewrite Hr1).
  destruct (gossip_join env' ns [] _) as [r3 s3']. simpl in Hs3. subst s3'.
  rewrite Ha2, lookup_delete_eq, Hs2 in Hj. destruct Hj as (_ & Ha3 & Ht3 & _).
  rewrite Ha1, lookup_insert_eq in Ht2. simpl in Ht2. rewrite Hn2, Hn1 in Ha3, Ht3.
  assert (s4 = set_gs_active (delete ns (gs_active s3)) (set_gs_active_tasks
    (delete (gs_next_task s) (gs_active_tasks s3)) s3)) as ->.
  { unfold s4. rewrite progress_cons.
    by rewrite Ht3, lookup_insert_ne, Ht2, lookup_alter_eq, Ht1, lookup_insert_eq by lia. }
  simpl. rewrite (lookup_delete_ne _ (gs_next_task s)) by lia.
  rewrite Ha3, Ht3, !lookup_insert_eq, lookup_delete_eq.
  split_and!; try done.
  - unfold gossip_broadcast_neighbors. rewrite st_gets_bind. simpl. by rewrite lookup_delete_eq.
  - intros He. unfold gossip_shutdown. rewrite st_gets_bind, st_modify_bind. simpl.
    rewrite Ha1, He. rewrite !delete_insert_eq, !delete_empty, map_to_list_empty. simpl.
    rewrite bool_decide_false; [done|]. intros Hx.
    apply (f_equal (lookup (N.succ (gs_next_task s)))) in Hx.
    by rewrite lookup_delete_ne, lookup_insert_eq in Hx by lia.
Qed.

(** The loop of a topic that panicked leaves the topic behind: it counts as
    joined, a join does not subscribe again, and once no other loop runs
    [progress] is done at once although the state is not empty. *)
Theorem panicked_topic_stays env s ns st :
  gs_active s !! ns = Some st → entry_ok (gs_active_tasks s) ns st →
  let '(r, s') := gossip_progress [(as_abort_handle st, TePanicked)] s in
  r = Err GerPanicked ∧ gs_active s' = gs_active s ∧ gossip_is_empty s' = false
  ∧ gossip_join env ns [] s' = (Ok tt, s')
  ∧ ((gossip_progress [] s').1 = Ok true ↔
       ∀ (i : TaskId), is_Some (gs_active_tasks s !! i) → i = as_abort_handle st).
Proof.
  intros Hst (t & Ht & _). rewrite progress_cons, Ht. simpl.
  split_and!; try done.
  - unfold gossip_is_empty. simpl. apply bool_decide_eq_false. intros He. by rewrite He in Hst.
  - unfold gossip_join. rewrite st_gets_bind. simpl. by rewrite Hst.
  - simpl. split.
    + intros [= He%bool_decide_eq_true] i Hi. destruct (decide (i = as_abort_handle st)); [done|].
      rewrite <- (lookup_delete_ne _ (as_abort_handle st)) in Hi by done. rewrite He in Hi. by destruct Hi.
    + intros Hall. rewrite bool_decide_true; [done|]. apply map_empty. intros i.
      destruct (decide (i = as_abort_handle st)) as [->|Hne]; [apply lookup_delete_eq|].
      rewrite lookup_delete_ne by done. apply eq_None_not_Some. intros Hi. by apply Hne, Hall.
Qed.
End gossip_facts.

(** ** The set of topics of the live actor

    Live keeps the topics as a set, [la_gossip]; the operations here implement
    its steps. *)
Section gossip_live.
Context {W : Type} `{Crypto, !SyncOps W, Postcard (list (N * AuthorId))}.
Implicit Types (a : LiveActor W) (s : GossipState) (ns : NamespaceId).

Definition topics_of s a : Prop := dom (gs_active s) = la_gossip a.

(** The topics of the loops that returned, up to a panic. *)
Fixpoint ended_topics (tasks : gmap TaskId GossipTask) (joined : list (TaskId * TaskEnd)) : list NamespaceId :=
  match joined with
  | [] => []
  | (id, te) :: joined =>
      match tasks !! id, te with
      | None, _ => ended_topics tasks joined
      | Some _, TePanicked => []
      | Some task, TeReturned _ => gt_namespace task :: ended_topics (delete id tasks) joined
      | Some _, TeCancelled => ended_topics (delete id tasks) joined
      end
  end.

Lemma sync_with_peer_gossip env ns peer reason a :
  la_gossip (sync_with_peer env ns peer reason a) = la_gossip a.
Proof. unfold sync_with_peer. by repeat case_match. Qed.
Lemma join_peers_gossip env ns peers a :
  la_gossip (join_peers env ns peers true a).2 =
  if ev_join_ok env then {[ns]} ∪ la_gossip a else la_gossip a.
Proof.
  unfold join_peers. destruct (ev_join_ok env); [|done]. simpl.
  set (b := set_la_gossip _ _). change ({[ns]} ∪ la_gossip a) with (la_gossip b). clearbody b.
  induction peers as [|p peers IH] in b |- *; [done|]. simpl. by rewrite IH, sync_with_peer_gossip.
Qed.

Lemma progress_topics env joined s a : topics_of s a →
  topics_of (gossip_progress joined s).2
    (foldl (λ a ns, live_turn env (LtGossipEnded ns) a) a (ended_topics (gs_active_tasks s) joined)).
Proof.
  unfold topics_of. induction joined as [|[id te] joined IH] in s, a |- *; intros Ht; [done|].
  rewrite progress_cons. simpl ended_topics.
  destruct (gs_active_tasks s !! id) as [task|]; [|by apply IH]. destruct te; simpl.
  - apply IH. simpl. by rewrite dom_delete_L, Ht.
  - by apply (IH (set_gs_active_tasks _ s)).
  - done.
Qed.

(** The topics, with their senders and tasks, implement the set of topics of
    the live actor: from the empty set on, a join adds the topic exactly if it
    answers no error, leaving removes it, a loop that returned is its end, a
    shutdown leaves none; and a broadcast is sent, on the sender of the topic,
    exactly when the set has it. *)
Theorem gossip_refines_live me access w env s a :
  topics_of GossipState_new (LiveActor_new me access w : LiveActor W)
  ∧ (topics_of s a →
     (∀ genv ns bootstrap peers, let '(r, s') := gossip_join genv ns bootstrap s in
        ev_join_ok env = is_ok r → topics_of s' (join_peers env ns peers true a).2)
     ∧ (∀ ns, topics_of (gossip_quit ns s).2 (leave_gossip ns a))
     ∧ (∀ joined, topics_of (gossip_progress joined s).2
          (foldl (λ a ns, live_turn env (LtGossipEnded ns) a) a (ended_topics (gs_active_tasks s) joined)))
     ∧ (∀ joined, topics_of (gossip_shutdown joined s).2 (live_shutdown a))
     ∧ (∀ ns op message, is_syncing ns (la_state a) = true →
          let s' := (gossip_broadcast_neighbors ns message s).2 in
          let a' := broadcast_neighbors ns op a in
          topics_of s' a'
          ∧ (ns ∈ la_gossip a ∧ la_broadcast a' = la_broadcast a ++ [(ns, op)]
               ∧ (∃ st, gs_active s !! ns = Some st
                    ∧ gs_commands s' = gs_commands s ++ [GcBroadcastNeighbors (as_sender st) message])
             ∨ ns ∉ la_gossip a ∧ a' = a ∧ gs_commands s' = gs_commands s))).
Proof.
  split; [done|]. intros Ht. split_and!.
  - intros genv ns bootstrap peers. pose proof (join_run genv ns bootstrap s) as Hj.
    destruct (gossip_join genv ns bootstrap s) as [r s']. intros Henv. unfold topics_of.
    rewrite join_peers_gossip, Henv, <- Ht.
    destruct (gs_active s !! ns) as [st|] eqn:Hns; [|destruct (gv_subscribe genv)].
    + destruct Hj as (_ & Hp & -> & _). apply (mk_is_Some (gs_active s !! ns)), elem_of_dom in Hns.
      destruct r; simpl; [set_solver|done..].
    + destruct Hj as (-> & -> & _). simpl. by rewrite dom_insert_L.
    + destruct Hj as ([Hr _] & Hp & -> & _). destruct r as [[]| |]; [|done..].
      by destruct (Hr eq_refl) as [[? [=]] _].
  - intros ns. unfold topics_of. destruct (quit_run ns s) as (-> & _). simpl. by rewrite dom_delete_L, Ht.
  - intros joined. by apply progress_topics.
  - intros joined. unfold topics_of. simpl.
    apply dom_empty_iff_L. unfold gossip_shutdown. rewrite st_gets_bind, st_modify_bind.
    destruct (abort_all (map_to_list (gs_active s)) (set_gs_active ∅ s)) as (s1 & Hr & Ha & _).
    rewrite (st_bind_run _ _ _ _ _ Hr).
    destruct (progress_subseteq joined s1) as [_ Hsub]. rewrite Ha in Hsub.
    apply map_empty. intros ns. apply eq_None_not_Some. intros [st Hst].
    by eapply lookup_weaken in Hst; [|exact Hsub].
  - intros ns op message Hsync s' a'. unfold s', a', broadcast_neighbors. rewrite Hsync. simpl.
    destruct (broadcast_run ns message s) as (Ha & _ & _ & Hc).
    unfold topics_of. rewrite Ha, Hc. case_bool_decide as Hin.
    + split; [done|]. left. split; [done|]. split; [done|]. rewrite <- Ht in Hin.
      apply elem_of_dom in Hin as [st Hst]. exists st. by rewrite Hst.
    + split; [done|]. right. split; [done|]. split; [done|]. rewrite <- Ht in Hin.
      apply not_elem_of_dom in Hin. by rewrite Hin, app_nil_r.
Qed.
End gossip_live.

(** ** A run *)
Definition demo_gossip_env (sub : SubscriptionId) : GossipEnv :=
  {| gv_subscribe := Some sub; gv_join_peers := true |}.
Definition demo_topic : NamespaceId := arr_rep 32 x0e.
Definition demo_gossip_turns : list GossipTurn :=
  [GtJoin (demo_gossip_env 5) demo_ns []; GtJoin (demo_gossip_env 6) demo_topic [arr_rep 32 x03]; GtQuit demo_topic].
Definition demo_gossip : GossipState := gossip_run demo_gossip_turns GossipState_new.

Lemma demo_gossip_reach : gossip_reach [] demo_gossip.
Proof.
  exact (gr_turn [] _ (GtQuit demo_topic)
    (gr_turn [] _ (GtJoin (demo_gossip_env 6) demo_topic [arr_rep 32 x03])
      (gr_turn [] _ (GtJoin (demo_gossip_env 5) demo_ns []) gr_new I) I) I).
Qed.

(** A run in which the loop that was told to stop returns after the topic was
    joined again, and one in which a loop panics. *)
Definition demo_late : GossipState :=
  gossip_turn (GtProgress [(1%N, TeReturned true)])
    (gossip_turn (GtJoin (demo_gossip_env 7) demo_topic []) demo_gossip).
Definition demo_panicked : GossipState := gossip_turn (GtProgress [(0%N, TePanicked)]) demo_gossip.

Lemma gossip_one_loop_witness :
  entry_ok (gs_active_tasks demo_gossip) demo_ns {| as_sender := 5%N; as_abort_handle := 0%N |}
  ∧ (gossip_shutdown [(1%N, TeCancelled); (0%N, TeReturned true)] demo_gossip).1 = Ok true
  ∧ (gossip_shutdown [(1%N, TeCancelled)] demo_gossip).1 = Ok false
  ∧ gs_active demo_late !! demo_topic = None
  ∧ (∃ h, gossip_reach h demo_late ∧ late_return h demo_topic)
  ∧ (∃ h, gossip_reach h demo_panicked
       ∧ loop_panicked h demo_ns {| as_sender := 5%N; as_abort_handle := 0%N |}).
Proof.
  destruct (gossip_one_loop [] demo_gossip demo_gossip_reach) as (Hl & _ & _ & _ & Hs). split_and!.
  - destruct (Hl demo_ns {| as_sender := 5%N; as_abort_handle := 0%N |}) as [He|Hp];
      [vm_compute; reflexivity|exact He|by apply elem_of_nil in Hp].
  - destruct (Hs [(1%N, TeCancelled); (0%N, TeReturned true)]) as (_ & _ & Hr). destruct Hr as [Hr Hc].
    + intros p Hp. apply list_elem_of_In in Hp as [<-|[<-|[]]]; discriminate.
    + rewrite Hr, Hc; [reflexivity|]. intros i [t Ht].
      apply (gi_fresh _ _ (reach_inv _ _ demo_gossip_reach)) in Ht.
      change (gs_next_task demo_gossip) with 2%N in Ht. simpl. rewrite !elem_of_cons. lia.
  - vm_compute. reflexivity.
  - vm_compute. reflexivity.
  - assert (∃ h, gossip_reach h demo_late) as [h Hh].
    { eexists. refine (gr_turn _ _ (GtProgress [(1%N, TeReturned true)])
        (gr_turn _ _ (GtJoin (demo_gossip_env 7) demo_topic []) demo_gossip_reach I) _).
      intros id t Hin%list_elem_of_singleton. discriminate Hin. }
    exists h. split; [exact Hh|].
    destruct (gossip_one_loop h demo_late Hh) as (_ & Ho & _).
    destruct (Ho 2%N {| gt_namespace := demo_topic; gt_stream := 7%N; gt_aborted := false |}) as [Hn|Hl'];
      [vm_compute; reflexivity|reflexivity|vm_compute in Hn; discriminate Hn|exact Hl'].
  - assert (∃ h, gossip_reach h demo_panicked) as [h Hh].
    { eexists. refine (gr_turn _ _ (GtProgress [(0%N, TePanicked)]) demo_gossip_reach _).
      intros id t Hin%list_elem_of_singleton. discriminate Hin. }
    exists h. split; [exact Hh|].
    destruct (gossip_one_loop h demo_panicked Hh) as (Ha & _).
    destruct (Ha demo_ns {| as_sender := 5%N; as_abort_handle := 0%N |}) as [He|Hp];
      [vm_compute; reflexivity|destruct He as (t & Hn & _); vm_compute in Hn; discriminate Hn|exact Hp].
Defined.

#[local] Existing Instance demo_sync_ops.
Lemma gossip_refines_live_witness :
  let a := LiveActor_new (demo_peer x03) None demo_actor in
  topics_of (gossip_join (demo_gossip_env 5) demo_ns [] GossipState_new).2
    (join_peers demo_env demo_ns [demo_peer x07] true a).2.
Proof.
  intros a. destruct (gossip_refines_live (demo_peer x03) None demo_actor demo_env GossipState_new a)
    as (Hn & Hr).
  destruct (Hr Hn) as (Hj & _). exact (Hj (demo_gossip_env 5) demo_ns [] [demo_peer x07] eq_refl).
Defined.
