(* ===== verification/Protocol.v ===== *)
(** * The protocol handler

    Models [src/protocol.rs]: the builder, where it puts the database and the
    default author, and the handler it builds; with [Engine::shutdown] of
    [src/engine.rs] and the end of [LiveActor::run].  A directory holds the
    files of the database and the file of the default author. *)
From Stdlib Require Import String.
From S2P Require Import Prelude Redb Keys Entry Heads Query Bounds Ranger Info Store StoreInstance Migrations Filter QueryIter Replica SyncState Codec Net Actor ActorInv ActorSessions Live SyncHandle Texts AuthorsInv Engine EngineFacts Api ApiClient ApiFacts.

Section protocol.
Context `{Redb, Crypto, Hex, Transport, Postcard DownloadPolicy, Postcard (list (N * AuthorId))}.

(** The path of [Persistent] is the directory that [spawn] is given. *)
Inductive Storage := StMemory | StPersistent.
Definition Storage_default : Storage := StMemory.

Record Builder := {
  bd_storage : Storage;
  (** the channel on which the garbage collection asks what to protect *)
  bd_protect_cb : option ChannelId;
  bd_capability_validator : option (SignedEntry → PeerIdBytes → ValidateOutcome);
  bd_rejection_observer : option ObserverId;
  bd_session_access_provider : option (NamespaceId → EndpointId → SessionRole → SessionAccess);
}.
Definition Builder_default : Builder := {|
  bd_storage := Storage_default; bd_protect_cb := None; bd_capability_validator := None;
  bd_rejection_observer := None; bd_session_access_provider := None |}.

Definition Docs_memory : Builder := Builder_default.
Definition Docs_persistent : Builder := {|
  bd_storage := StPersistent; bd_protect_cb := None; bd_capability_validator := None;
  bd_rejection_observer := None; bd_session_access_provider := None |}.

Definition protect_handler (protect_cb : ChannelId) (self : Builder) : Builder := {|
  bd_storage := bd_storage self; bd_protect_cb := Some protect_cb;
  bd_capability_validator := bd_capability_validator self;
  bd_rejection_observer := bd_rejection_observer self;
  bd_session_access_provider := bd_session_access_provider self |}.
Definition capability_validator validator (self : Builder) : Builder := {|
  bd_storage := bd_storage self; bd_protect_cb := bd_protect_cb self;
  bd_capability_validator := Some validator;
  bd_rejection_observer := bd_rejection_observer self;
  bd_session_access_provider := bd_session_access_provider self |}.
Definition rejection_observer (observer : ObserverId) (self : Builder) : Builder := {|
  bd_storage := bd_storage self; bd_protect_cb := bd_protect_cb self;
  bd_capability_validator := bd_capability_validator self;
  bd_rejection_observer := Some observer;
  bd_session_access_provider := bd_session_access_provider self |}.
Definition session_access_provider provider (self : Builder) : Builder := {|
  bd_storage := bd_storage self; bd_protect_cb := bd_protect_cb self;
  bd_capability_validator := bd_capability_validator self;
  bd_rejection_observer := bd_rejection_observer self;
  bd_session_access_provider := Some provider |}.

(** The handler: its engine, and the channel the task of the engine serves. *)
Record Docs := { docs_engine : Engine; docs_protect : option ChannelId }.

(** ** The directory *)
Record DocsDir := { dir_db : Files; dir_author : option string }.
(** What is in the directory when the process ends: the committed tables,
    and the file of the default author. *)
Definition dir_of (fs : Files) (a : Actor) (file : option string) : DocsDir := {|
  dir_db := {|
    fl_source := Some (NewFormat (db_create
      {| dk_tables := committed (ac_store a); dk_namespaces_v1 := None |}));
    fl_target := fl_target fs; fl_backup := fl_backup fs |};
  dir_author := file |}.
Definition engine_dir (fs : Files) (e : Engine) : DocsDir := dir_of fs (en_sync e) (en_file e).

(** ** Starting

    [env] is what the engine reads outside, [content_status] what the blob
    store answers, [migration] the feature [redb-v2-migration]. *)
Record SpawnEnv := {
  sp_engine : EngineEnv;
  sp_migration : bool;
  sp_me : EndpointId;
  sp_content_status : Hash → option BlobStatus;
  sp_actor_id : N;
  sp_world : World;
}.
Inductive SpawnErr := SeStore (e : PersistentErr) | SeEngine (e : EngineErr).

Definition builder_actor (env : SpawnEnv) (self : Builder) (store : Store) : Actor :=
  spawn (sp_actor_id env) store (ee_now (sp_engine env))
    (Some (λ hash, entry_to_content_status (sp_content_status env hash)))
    (bd_capability_validator self) (bd_rejection_observer self) (sp_world env).

(** [Builder::spawn], with the directory it leaves. *)
Definition builder_spawn (env : SpawnEnv) (self : Builder) (dir : DocsDir) : result SpawnErr Docs * DocsDir :=
  let '(replica_store, fs) :=
    match bd_storage self with
    | StMemory => (Ok (Store_memory (ee_now (sp_engine env))), dir_db dir)
    | StPersistent => Store_persistent (sp_migration env) (ee_now (sp_engine env)) (dir_db dir)
    end in
  match replica_store with
  | Ok store =>
      let '(author_store, file) :=
        match bd_storage self with
        | StMemory => (DsMem, None)
        | StPersistent => (DsPersistent, dir_author dir)
        end in
      let '(r, d) := Engine_spawn (sp_engine env) (builder_actor env self store) (sp_me env)
                       (bd_session_access_provider self) author_store file in
      (match r with
       | Ok engine => Ok {| docs_engine := engine; docs_protect := bd_protect_cb self |}
       | Err e => Err (SeEngine e)
       | Panic => Panic
       end,
       match bd_storage self with
       | StMemory => dir
       | StPersistent => dir_of fs (dd_sync d) (dd_file d)
       end)
  | Err e => (Err (SeStore e), {| dir_db := fs; dir_author := dir_author dir |})
  | Panic => (Panic, {| dir_db := fs; dir_author := dir_author dir |})
  end.

(** ** The handler *)
Definition docs_accept (env : EngineEnv) (peer : EndpointId) (self : Docs) : result EngineErr unit * Docs :=
  let '(r, e) := engine_handle_connection env peer (docs_engine self) in
  (r, {| docs_engine := e; docs_protect := docs_protect self |}).

(** [Engine::shutdown]: the live actor leaves its loop, and shuts down its
    topics and the sync actor.  The shutdown of the topics is
    [gossip_shutdown] of Gossip, which is taken to end here. *)
Definition engine_shutdown (e : Engine) : Engine :=
  set_en_sync (actor_shutdown (en_sync e)).2 (set_en_live (live_shutdown (en_live e)) e).
Definition docs_shutdown (self : Docs) : Docs :=
  {| docs_engine := engine_shutdown (docs_engine self); docs_protect := docs_protect self |}.
End protocol.

Section protocol_facts.
Context `{RedbOk, CryptoOk, HexOk, Transport, Postcard DownloadPolicy, Postcard (list (N * AuthorId))}.
Implicit Types (e : Engine) (dir : DocsDir).

Lemma close_all_committed (t : Tables) : preserves (λ a : Actor, committed (ac_store a) = t) close_all.
Proof.
  set (P := λ a : Actor, committed (ac_store a) = t).
  unfold close_all. apply pr_bind; [by intros a Ha|]. intros _. apply pr_get_bind. intros a0 Ha0.
  
  refine (pr_bind P (st_modify (set_ac_states ∅)) _ _ _ a0 Ha0); [by intros a Ha|].
  intros _. apply pr_for. by intros ns a Ha.
Qed.

(** Shutting down commits everything, and changes nothing else of it. *)
Lemma actor_shutdown_committed (a : Actor) : actor_store_wf a →
  committed (ac_store (actor_shutdown a).2) = actor_view a.
Proof.
  intros Hwf. destruct (flush_spec _ Hwf) as (s & Hf & _ & _ & Hc & _).
  unfold actor_shutdown. rewrite st_modify_bind. unfold actor_store at 1. rewrite Hf. simpl.
  pose proof (close_all_committed (committed s) (set_ac_store s a) eq_refl) as Hk.
  unfold mbind, ST_bind. destruct (close_all _) as [[[]|x|] a']; simpl in *; by rewrite Hk.
Qed.
Lemma engine_shutdown_run e : actor_store_wf (en_sync e) →
  committed (ac_store (en_sync (engine_shutdown e))) = actor_view (en_sync e)
  ∧ en_file (engine_shutdown e) = en_file e ∧ en_default_author (engine_shutdown e) = en_default_author e
  ∧ en_storage (engine_shutdown e) = en_storage e.
Proof. intros Hwf. split; [|done]. by apply actor_shutdown_committed. Qed.

(** Opening what a process left, and the default author of it. *)
Lemma spawn_engine_dir env self fs e : bd_storage self = StPersistent → ee_read_ok (sp_engine env) = true →
  en_storage e = DsPersistent → file_names (en_storage e) (en_file e) (en_default_author e) →
  has_author (en_default_author e) (actor_committed (en_sync e)) →
  ∃ docs dir, builder_spawn env self (engine_dir fs e) = (Ok docs, dir)
    ∧ en_default_author (docs_engine docs) = en_default_author e
    ∧ actor_view (en_sync (docs_engine docs)) =
        dk_tables (migrated {| dk_tables := actor_committed (en_sync e); dk_namespaces_v1 := None |}).
Proof.
  intros Hb Hr Hst Hf Ha. unfold builder_spawn. rewrite Hb.
  unfold Store_persistent, open_database, engine_dir, dir_of. simpl fl_source. cbn iota beta.
  set (T := {| dk_tables := _ |}). destruct (open_store _ _ _) as [r fs'] eqn:Ho. unfold open_store in Ho.
  injection Ho as <- Hfs. cbn iota beta.
  set (s := Store_new_impl _ _). set (a := builder_actor env self s).
  destruct (Hf Hst) as (data & Hd & Hp).
  assert (actor_view a = dk_tables (migrated T)) as Hv.
  { change (actor_view a) with (view s). unfold view, committed. simpl.
    by rewrite db_read_create, run_migrations_read, db_read_create. }
  destruct (load_file (sp_engine env) {| dd_sync := a; dd_file := en_file e |} data I Hd)
    as (d & Hl & Hv' & _ & _).
  unfold Engine_spawn. simpl dir_author. rewrite Hl. unfold load_answer. rewrite Hr, Hp.
  assert (is_Some (author_at (disk_view {| dd_sync := a; dd_file := en_file e |}) (en_default_author e))) as [x Hx].
  { unfold disk_view. simpl. rewrite Hv. revert Ha. apply has_author_eq.
    apply (up_authors T), migrated_upgraded. }
  rewrite Hx. do 2 eexists. split; [done|]. split; [done|].
  change (disk_view d = dk_tables (migrated T)). by rewrite Hv'.
Qed.

(** A directory whose file holds a part of an id only. *)
Lemma spawn_torn_dir env self fs (a : Actor) id n : bd_storage self = StPersistent →
  ee_read_ok (sp_engine env) = true → n < 64 →
  (builder_spawn env self (dir_of fs a (Some (substring 0 n (AuthorId_display id))))).1
    = Err (SeEngine (EeParse PkHex)).
Proof.
  intros Hb Hr Hn. unfold builder_spawn. rewrite Hb.
  unfold Store_persistent, open_database, dir_of. simpl fl_source. cbn iota beta.
  destruct (open_store _ _ _) as [r fs'] eqn:Ho. unfold open_store in Ho.
  injection Ho as <- _. cbn iota beta. simpl dir_author. set (x := builder_actor env self _).
  destruct (load_file (sp_engine env) {| dd_sync := x; dd_file := Some (substring 0 n (AuthorId_display id)) |}
    _ I eq_refl) as (d & Hl & _).
  unfold Engine_spawn. rewrite Hl. unfold load_answer. by rewrite Hr, torn_author_text.
Qed.

Lemma store_persistent_idle migration now fs s fs' :
  Store_persistent migration now fs = (Ok s, fs') → st_transaction s = CtNone.
Proof. unfold Store_persistent, open_store. repeat (case_match || intros [= <- _] || done). Qed.

(** The authors of the database of a directory are under their own ids. *)
Definition authors_dir (migration : bool) dir : Prop :=
  ∀ now s fs, Store_persistent migration now (dir_db dir) = (Ok s, fs) → authors_wf (view s).

Lemma authors_dir_opened migration dir (d : Disk) :
  match fl_source (dir_db dir) with
  | None => d = Disk_empty
  | Some (NewFormat db) => d = db_begin_read db
  | Some (OldFormat _) => False
  end → authors_wf (dk_tables d) → authors_dir migration dir.
Proof.
  intros Hd Haw now s fs. unfold Store_persistent, open_database.
  destruct (fl_source (dir_db dir)) as [[old|db]|]; [done|..]; cbn iota; intros ->%open_store_view;
    rewrite ?db_read_create; subst d; revert Haw; apply authors_wf_eq, (up_authors _ _ (migrated_upgraded _)).
Qed.

Lemma authors_wf_empty : authors_wf (dk_tables Disk_empty).
Proof.
  intros id author. unfold author_at. simpl. destruct (tbl_get tbl_empty id) eqn:Hg; [|done].
  by rewrite tbl_get_empty in Hg by apply _.
Qed.

Lemma spawned_default env self dir docs dir' : bd_storage self = StPersistent →
  authors_dir (sp_migration env) dir → builder_spawn env self dir = (Ok docs, dir') →
  (default_stored (docs_engine docs) ∧ default_named (docs_engine docs))
  ∧ en_storage (docs_engine docs) = DsPersistent.
Proof.
  intros Hb Haw. unfold builder_spawn. rewrite Hb.
  destruct (Store_persistent _ _ _) as [[s|x|] fs] eqn:Ho; [|done..]. cbn iota beta.
  destruct (Engine_spawn _ _ _ _ _ _) as [[e|x|] d] eqn:Hs; [|done..]. intros [= <- _]. simpl.
  pose proof (store_persistent_idle _ _ _ _ _ Ho) as Ht.
  split.
  - eapply spawn_default; [..|exact Hs].
    + unfold actor_store_wf, store_wf. simpl. by rewrite Ht.
    + exact (Haw _ _ _ Ho).
  - unfold Engine_spawn in Hs. destruct (storage_load _ _ _) as [[?|?|] ?]; try done. by injection Hs as <- _.
Qed.

(** C19: A restart finds everything again.  From any directory whose database
    opens, after any requests - of which no change of the default author has
    its write of the file cut short -, actions of the engine's tasks and idle
    turns, shutting the handler down and building a persistent one on what is
    in the directory - with whatever other settings - succeeds: the default
    author is the one that was set last, and the tables are those that were
    visible at the shutdown (for the rows that opening a database recomputes
    if their table is empty, see [upgraded]); and the directory is again one
    to which this applies. *)
Theorem docs_restart env env' self self' dir docs dir1 evs :
  bd_storage self = StPersistent → bd_storage self' = StPersistent →
  authors_dir (sp_migration env) dir → ee_read_ok (sp_engine env') = true →
  builder_spawn env self dir = (Ok docs, dir1) → Forall event_whole evs →
  let e := api_events evs (docs_engine docs) in
  ∀ fs, let dir2 := engine_dir fs (docs_engine (docs_shutdown {| docs_engine := e; docs_protect := docs_protect docs |})) in
  authors_dir (sp_migration env') dir2
  ∧ ∃ docs' dir3, builder_spawn env' self' dir2 = (Ok docs', dir3)
    ∧ en_default_author (docs_engine docs') = en_default_author e
    ∧ ∃ d, dk_tables d = actor_view (en_sync (docs_engine docs'))
        ∧ upgraded {| dk_tables := actor_view (en_sync e); dk_namespaces_v1 := None |} d.
Proof.
  intros Hb Hb' Hdir Hr Hs Hwhole e fs. simpl.
  destruct (spawned_default env self dir docs dir1 Hb Hdir Hs) as [[Hd Hn] Hst].
  destruct (events_default evs _ Hd) as ((Hwf & Ha & Haw) & Hf & _). specialize (Hf Hn Hwhole).
  pose proof (events_storage evs _ Hd) as Hst'. fold e in Hwf, Ha, Haw, Hf, Hst'.
  destruct (engine_shutdown_run e Hwf) as (Hc & Hfile & Hdef & Hsto).
  set (e' := engine_shutdown e) in *. change (actor_committed (en_sync e') = actor_view (en_sync e)) in Hc.
  split.
  - apply (authors_dir_opened _ _ {| dk_tables := actor_committed (en_sync e'); dk_namespaces_v1 := None |}).
    + simpl. by rewrite db_read_create.
    + simpl. by rewrite Hc.
  - destruct (spawn_engine_dir env' self' fs e') as (docs' & dir3 & Hs' & Hd' & Hv).
    + done.
    + done.
    + congruence.
    + by rewrite Hsto, Hfile, Hdef.
    + by rewrite Hdef, Hc.
    + exists docs', dir3. split; [done|]. split; [by rewrite Hd'|]. eexists. split; [by rewrite Hv|].
      rewrite Hc. apply migrated_upgraded.
Qed.

(** C30: The first start.  In memory it always succeeds and touches no directory.
    On a directory without a default author whose database opens - there may be
    none yet, or one of an older format - it creates an author, which is
    committed before its id is written, whatever becomes of the write.  If the
    id is written, every start on what is in the directory then - as after a
    crash at once - finds the same author.  If not, the start fails: there is
    still no file when it could not be opened; when the write was cut short,
    the file holds the beginning of the id, and every later start that can
    read it fails. *)
Theorem docs_first_start env self dir :
  let a := Author_new (ee_random (sp_engine env)) in
  (bd_storage self = StMemory →
     ∃ docs, builder_spawn env self dir = (Ok docs, dir) ∧ en_default_author (docs_engine docs) = Author_id a
       ∧ author_at (actor_view (en_sync (docs_engine docs))) (Author_id a) = Some a
       ∧ ∀ p, tbl_get (records (actor_view (en_sync (docs_engine docs)))) p = None)
  ∧ (∀ s fs, bd_storage self = StPersistent → dir_author dir = None →
     Store_persistent (sp_migration env) (ee_now (sp_engine env)) (dir_db dir) = (Ok s, fs) →
     ∃ r dir', builder_spawn env self dir = (r, dir')
       ∧ (∃ db', fl_source (dir_db dir') = Some (NewFormat db')
           ∧ author_at (dk_tables (db_begin_read db')) (Author_id a) = Some a)
       ∧ match ee_write (sp_engine env) with
         | WrWritten =>
             (∃ docs, r = Ok docs ∧ en_default_author (docs_engine docs) = Author_id a)
             ∧ dir_author dir' = Some (AuthorId_display (Author_id a))
             ∧ ∀ env' self', bd_storage self' = StPersistent → ee_read_ok (sp_engine env') = true →
                 ∃ docs' dir'', builder_spawn env' self' dir' = (Ok docs', dir'')
                   ∧ en_default_author (docs_engine docs') = Author_id a
         | WrNotOpened => r = Err (SeEngine EeWriteFile) ∧ dir_author dir' = None
         | WrCut n =>
             r = Err (SeEngine EeWriteFile)
             ∧ dir_author dir' = Some (substring 0 n (AuthorId_display (Author_id a)))
             ∧ (n < 64 → ∀ env' self', bd_storage self' = StPersistent → ee_read_ok (sp_engine env') = true →
                 (builder_spawn env' self' dir').1 = Err (SeEngine (EeParse PkHex)))
         end).
Proof.
  intros a. split.
  - intros Hb. unfold builder_spawn. rewrite Hb. cbn iota beta.
    set (x := builder_actor _ _ _). unfold Engine_spawn, storage_load.
    destruct (on_sync_wp _ {| dd_sync := x; dd_file := None |} _ (handle_import_author_wp (ee_now (sp_engine env)) a x I))
      as (id & d & Hd & (_ & Hv & _) & _).
    fold a. rewrite (st_bind_run _ _ _ _ _ Hd). simpl. eexists. split; [done|]. split; [done|].
    change (en_sync _) with (dd_sync d). simpl in Hv. simpl. rewrite Hv. split.
    + by rewrite author_at_import, eqb_refl.
    + intros p. simpl. change (actor_view x) with (view (Store_memory (ee_now (sp_engine env)))).
      unfold Store_memory, view, committed. simpl. rewrite db_read_create, run_migrations_read, db_read_create.
      rewrite (up_records _ _ (migrated_upgraded _)). simpl. by apply tbl_get_empty, _.
  - intros s fs Hb Hf Hop. pose proof (store_persistent_idle _ _ _ _ _ Hop) as Ht.
    unfold builder_spawn at 1. rewrite Hb, Hop. cbn iota beta. set (x := builder_actor _ _ _).
    assert (disk_ok {| dd_sync := x; dd_file := dir_author dir |}) as Hx
      by (unfold disk_ok, actor_store_wf, store_wf; simpl; by rewrite Ht).
    destruct (load_first (sp_engine env) {| dd_sync := x; dd_file := dir_author dir |} Hx Hf)
      as (d & Hl & Hfd & Hv & Hc & Hok).
    unfold Engine_spawn at 1. rewrite Hl. fold a in Hfd, Hv |- *.
    assert (author_at (disk_view d) (Author_id a) = Some a) as Ha
      by (by rewrite Hv, author_at_import, eqb_refl).
    assert (author_at (disk_committed d) (Author_id a) = Some a) as Hac by (by rewrite Hc).
    set (e := {| en_live := LiveActor_new (sp_me env) (bd_session_access_provider self) (dd_sync d);
                 en_default_author := Author_id a; en_storage := DsPersistent; en_file := dd_file d |}).
    destruct (ee_write _) as [| |n]; simpl in Hfd |- *; do 2 eexists; (split; [reflexivity|]);
      (split; [eexists; split; [done|]; simpl; rewrite db_read_create; simpl;
               first [exact Hac | rewrite actor_shutdown_committed by done; exact Ha]|]).
    + split; [by eexists|]. split; [done|]. intros env' self' Hb' Hr.
      destruct (spawn_engine_dir env' self' fs e Hb' Hr eq_refl) as (docs' & dir'' & Hs' & Hd' & _).
      * simpl. rewrite Hfd. apply file_names_text.
      * exists a. exact Hac.
      * by exists docs', dir''.
    + by split.
    + split; [done|]. split; [done|]. intros Hn env' self' Hb' Hr. rewrite Hfd.
      by apply spawn_torn_dir.
Qed.
End protocol_facts.

(** ** Starting on an empty directory *)
Definition demo_spawn_env : SpawnEnv := {|
  sp_engine := demo_engine_env; sp_migration := false; sp_me := arr_rep 32 x01;
  sp_content_status := λ _, None; sp_actor_id := 7; sp_world := ac_world demo_actor |}.
Definition demo_no_files : Files := {| fl_source := None; fl_target := None; fl_backup := None |}.
Definition demo_dir : DocsDir := {| dir_db := demo_no_files; dir_author := None |}.

Lemma demo_events_whole : Forall event_whole demo_api_events.
Proof. repeat constructor. Qed.

Lemma docs_restart_witness :
  ∃ docs dir, builder_spawn demo_spawn_env Docs_persistent demo_dir = (Ok docs, dir)
  ∧ let e := api_events demo_api_events (docs_engine docs) in
    en_default_author e = Author_id demo_new_author
    ∧ ∃ docs' dir', builder_spawn demo_spawn_env Docs_persistent (engine_dir demo_no_files (engine_shutdown e))
        = (Ok docs', dir')
      ∧ en_default_author (docs_engine docs') = en_default_author e.
Proof.
  assert (match builder_spawn demo_spawn_env Docs_persistent demo_dir with
          | (Ok docs, _) => eqb (en_default_author (api_events demo_api_events (docs_engine docs)))
              (Author_id demo_new_author)
          | _ => false end = true) as Hok by (vm_compute; reflexivity).
  destruct (builder_spawn demo_spawn_env Docs_persistent demo_dir) as [[docs|x|] dir] eqn:Hs; [|discriminate Hok..].
  exists docs, dir. split; [exact eq_refl|].
  destruct (docs_restart demo_spawn_env demo_spawn_env Docs_persistent Docs_persistent demo_dir docs dir
    demo_api_events eq_refl eq_refl (authors_dir_opened false demo_dir Disk_empty eq_refl authors_wf_empty) eq_refl Hs
    demo_events_whole demo_no_files) as (_ & docs' & dir' & Hs' & Hd & _).
  split; [apply eqb_eq; exact Hok|]. exists docs', dir'. exact (conj Hs' Hd).
Defined.

Definition demo_cut_spawn_env : SpawnEnv := {|
  sp_engine := demo_cut_env; sp_migration := false; sp_me := arr_rep 32 x01;
  sp_content_status := λ _, None; sp_actor_id := 7; sp_world := ac_world demo_actor |}.

(** In memory; on an empty directory, and once more on what that leaves; and
    on an empty directory where the write is cut short, and once more. *)
Lemma docs_first_start_witness :
  (∃ docs, builder_spawn demo_spawn_env Docs_memory demo_dir = (Ok docs, demo_dir)
    ∧ en_default_author (docs_engine docs) = Author_id (Author_new (arr_rep 32 x0c)))
  ∧ (∃ docs dir', builder_spawn demo_spawn_env Docs_persistent demo_dir = (Ok docs, dir')
      ∧ ∃ docs' dir'', builder_spawn demo_spawn_env Docs_persistent dir' = (Ok docs', dir'')
        ∧ en_default_author (docs_engine docs') = Author_id (Author_new (arr_rep 32 x0c)))
  ∧ (∃ r dir', builder_spawn demo_cut_spawn_env Docs_persistent demo_dir = (r, dir')
      ∧ (builder_spawn demo_spawn_env Docs_persistent dir').1 = Err (SeEngine (EeParse PkHex))).
Proof.
  assert (10 < 64) as Hn by (apply Nat.ltb_lt; reflexivity).
  split; [|split].
  - destruct (docs_first_start demo_spawn_env Docs_memory demo_dir) as (Hm & _).
    destruct (Hm eq_refl) as (docs & Hs & Hd & _). exists docs. exact (conj Hs Hd).
  - destruct (docs_first_start demo_spawn_env Docs_persistent demo_dir) as (_ & Hp).
    destruct (Hp _ _ eq_refl eq_refl eq_refl) as (r & dir' & Hs & _ & (docs & -> & _) & _ & Hagain).
    exists docs, dir'. split; [exact Hs|]. exact (Hagain demo_spawn_env Docs_persistent eq_refl eq_refl).
  - destruct (docs_first_start demo_cut_spawn_env Docs_persistent demo_dir) as (_ & Hp).
    destruct (Hp _ _ eq_refl eq_refl eq_refl) as (r & dir' & Hs & _ & _ & _ & Hagain).
    exists r, dir'. split; [exact Hs|]. exact (Hagain Hn demo_spawn_env Docs_persistent eq_refl eq_refl).
Defined.
