(* ===== verification/Network.v ===== *)
(** * A network of replicas

    Any number of nodes that hold a replica of one document ([src/sync.rs] on
    [src/store/fs.rs]), are written to and run sync sessions with each other
    ([src/actor.rs], [src/net/codec.rs]), as many at a time as they like.  A
    step is one local insertion or deletion, one entry handed over by a peer
    outside of any session, the opening of a session on one side, one message
    that arrives and is processed, or the loss of a session.  All sessions of
    a node act on the same live store; each reads from the snapshot it was
    opened with.  The operations are those of Replica and Store; every node
    has the replica open and syncing, and the author of an insertion is an
    argument.  Proved here: whatever is interleaved, a session ends after
    boundedly many of its messages.  What it passes on is the matter of
    Swarm. *)
From S2P Require Import Prelude Redb Keys Entry Heads Query Bounds Ranger Converge Info Store StoreInstance Filter Replica Reconcile.

(** ** The network *)
Section swarm.
Context `{Redb, Crypto, Postcard DownloadPolicy}.

Abbreviation DocMessage := (Message SignedEntry RecordIdentifier RejectId).

(** The document: who its nodes are, and what they may do and decide by. *)
Record Document := {
  doc_ns : NamespaceId;
  doc_peer : nat → PeerIdBytes;
  doc_capability : nat → Capability;
  doc_validator : nat → option (SignedEntry → PeerIdBytes → ValidateOutcome);
}.
Context (doc : Document).

(** A node has the replica open and syncing. *)
Record Node := { nd_store : Store; nd_info : ReplicaInfo; nd_world : World }.

(** A session that one side has opened, with its first message; and one that
    both sides have opened, [true] being the side that dialed, with the
    message on its way to [sr_to].  The times, the values received and the
    number of messages processed are kept for the statements only. *)
Record Dialed := {
  sd_from : nat; sd_to : nat;
  sd_snap : Tables; sd_filter : option EntryFilter; sd_since : nat;
  sd_init : DocMessage;
}.
Record Running := {
  sr_end : bool → nat;
  sr_snap : bool → Tables; sr_filter : bool → option EntryFilter; sr_since : bool → nat;
  sr_to : bool; sr_msg : DocMessage;
  sr_progress : bool → SyncOutcome;
  sr_got : bool → list (SignedEntry * ContentStatus);
  sr_rounds : nat;
}.
Inductive Link := LkDialed (l : Dialed) | LkRunning (l : Running).

(** One direction of a session that ended: [dn_to] has what [dn_from] had at
    the time [dn_since], as far as the filter admits it. *)
Record Done := {
  dn_from : nat; dn_since : nat; dn_filter : option EntryFilter; dn_to : nat; dn_end : nat }.

Record Swarm := {
  sw_node : nat → Node;
  sw_links : gmap nat Link;
  sw_next : nat;
  sw_time : nat;
  sw_done : list Done;
}.
Definition set_node (i : nat) (n : Node) (f : nat → Node) : nat → Node :=
  λ j, if j =? i then n else f j.
Definition set_sw_node i n (s : Swarm) : Swarm :=
  {| sw_node := set_node i n (sw_node s); sw_links := sw_links s; sw_next := sw_next s;
     sw_time := sw_time s; sw_done := sw_done s |}.
Definition set_sw_links ls (s : Swarm) : Swarm :=
  {| sw_node := sw_node s; sw_links := ls; sw_next := sw_next s;
     sw_time := sw_time s; sw_done := sw_done s |}.
Definition open_link (l : Link) (s : Swarm) : Swarm :=
  {| sw_node := sw_node s; sw_links := <[sw_next s := l]> (sw_links s); sw_next := S (sw_next s);
     sw_time := sw_time s; sw_done := sw_done s |}.
Definition log_done ds (s : Swarm) : Swarm :=
  {| sw_node := sw_node s; sw_links := sw_links s; sw_next := sw_next s;
     sw_time := sw_time s; sw_done := sw_done s ++ ds |}.
Definition tick (s : Swarm) : Swarm :=
  {| sw_node := sw_node s; sw_links := sw_links s; sw_next := sw_next s;
     sw_time := S (sw_time s); sw_done := sw_done s |}.

(** [OpenReplicas::replica] and [OpenReplicas::replica_if_syncing]: the live
    store, in a session read through its snapshot. *)
Definition node_replica (snap : option Tables) (n : Node) : Replica :=
  Replica_new (with_session_snapshot (Capability_id (i_capability (nd_info n))) (nd_store n) snap)
    (nd_info n) (nd_world n).
Definition replica_node (r : Replica) : Node :=
  {| nd_store := si_store (rp_store r); nd_info := rp_info r; nd_world := rp_world r |}.

(** Opening a session: the snapshot, and the store after taking it. *)
Definition node_snapshot (n : Node) : result StoreErr Tables * Node :=
  let '(r, st) := snapshot_owned (nd_store n) in
  (r, {| nd_store := st; nd_info := nd_info n; nd_world := nd_world n |}).

Inductive SwarmStep :=
| SsWrite (i : nat) (created now : N) (key : bytes) (author : Author) (hash : Hash) (len : N)
| SsDelete (i : nat) (created now : N) (prefix : bytes) (author : Author)
| SsRemote (i : nat) (now : N) (entry : SignedEntry) (from : PeerIdBytes) (status : ContentStatus)
| SsDial (i j : nat) (f : option EntryFilter)
| SsAccept (l : nat) (f : option EntryFilter)
| SsDeliver (l : nat) (now : N)
| SsDrop (l : nat).

Definition swarm_write i created now key author hash len (s : Swarm) : Swarm :=
  set_sw_node i (replica_node (insert created now key author hash len (node_replica None (sw_node s i))).2) s.

Definition swarm_delete i created now prefix author (s : Swarm) : Swarm :=
  set_sw_node i (replica_node (delete_prefix created now prefix author (node_replica None (sw_node s i))).2) s.
Definition swarm_remote i now entry from status (s : Swarm) : Swarm :=
  set_sw_node i (replica_node (insert_remote_entry now entry from status (node_replica None (sw_node s i))).2) s.

Definition swarm_dial i j f (s : Swarm) : Swarm :=
  let '(r, n) := node_snapshot (sw_node s i) in
  match r with
  | Ok snap =>
      let '(m, r) := sync_initial_message f (node_replica (Some snap) n) in
      let s := set_sw_node i (replica_node r) s in
      match m with
      | Ok m => open_link (LkDialed {| sd_from := i; sd_to := j; sd_snap := snap; sd_filter := f;
                                       sd_since := sw_time s; sd_init := m |}) s
      | _ => s
      end
  | _ => set_sw_node i n s
  end.

Definition swarm_accept l f (s : Swarm) : Swarm :=
  match sw_links s !! l with
  | Some (LkDialed q) =>
      let '(r, n) := node_snapshot (sw_node s (sd_to q)) in
      let s := set_sw_node (sd_to q) n s in
      match r with
      | Ok snap => set_sw_links (<[l := LkRunning {|
            sr_end := λ d : bool, if d then sd_from q else sd_to q;
            sr_snap := λ d : bool, if d then sd_snap q else snap;
            sr_filter := λ d : bool, if d then sd_filter q else f;
            sr_since := λ d : bool, if d then sd_since q else sw_time s;
            sr_to := false; sr_msg := sd_init q;
            sr_progress := λ _, SyncOutcome_default; sr_got := λ _, []; sr_rounds := 0 |}]> (sw_links s)) s
      | _ => set_sw_links (delete l (sw_links s)) s
      end
  | _ => s
  end.

(** The session after its message has been processed, and what is logged when
    it ends. *)
Definition next_running (q : Running) (progress : SyncOutcome) (reply : DocMessage) : Running := {|
  sr_end := sr_end q; sr_snap := sr_snap q; sr_filter := sr_filter q; sr_since := sr_since q;
  sr_to := negb (sr_to q); sr_msg := reply;
  sr_progress := λ d, if Bool.eqb d (sr_to q) then progress else sr_progress q d;
  sr_got := λ d, if Bool.eqb d (sr_to q) then sr_got q d ++ message_values (sr_msg q) else sr_got q d;
  sr_rounds := S (sr_rounds q) |}.
Definition done_of (q : Running) (time : nat) (d : bool) : Done := {|
  dn_from := sr_end q (negb d); dn_since := sr_since q (negb d); dn_filter := sr_filter q (negb d);
  dn_to := sr_end q d; dn_end := time |}.

Definition swarm_deliver l now (s : Swarm) : Swarm :=
  match sw_links s !! l with
  | Some (LkRunning q) =>
      let i := sr_end q (sr_to q) in
      let from := doc_peer doc (sr_end q (negb (sr_to q))) in
      let '(x, (r, progress)) :=
        sync_process_message now (sr_msg q) from (sr_filter q (sr_to q))
          (node_replica (Some (sr_snap q (sr_to q))) (sw_node s i), sr_progress q (sr_to q)) in
      let s := set_sw_node i (replica_node r) s in
      match x with
      | Ok (Some reply) => set_sw_links (<[l := LkRunning (next_running q progress reply)]> (sw_links s)) s
      | Ok None =>
          log_done [done_of q (S (sw_time s)) true; done_of q (S (sw_time s)) false]
            (set_sw_links (delete l (sw_links s)) s)
      | _ => set_sw_links (delete l (sw_links s)) s
      end
  | _ => s
  end.

Definition swarm_step (t : SwarmStep) (s : Swarm) : Swarm :=
  tick match t with
       | SsWrite i created now key author hash len => swarm_write i created now key author hash len s
       | SsDelete i created now prefix author => swarm_delete i created now prefix author s
       | SsRemote i now entry from status => swarm_remote i now entry from status s
       | SsDial i j f => swarm_dial i j f s
       | SsAccept l f => swarm_accept l f s
       | SsDeliver l now => swarm_deliver l now s
       | SsDrop l => set_sw_links (delete l (sw_links s)) s
       end.
Definition swarm_run (ts : list SwarmStep) (s : Swarm) : Swarm := foldl (λ s t, swarm_step t s) s ts.
End swarm.

(** ** Sessions *)
Section network.
Context `{RedbOk, Crypto, Postcard DownloadPolicy}.
Context (doc : Document) (size : nat).
Implicit Types (e x : SignedEntry) (st : Store) (n : Node) (s : Swarm) (q : Running).

Abbreviation Sess := (SessionStore StoreInstance).
Abbreviation DocMessage := (Message SignedEntry RecordIdentifier RejectId).

(** Every node's capability is one for the document. *)
Definition of_document : Prop := ∀ i, i < size → Capability_id (doc_capability doc i) = doc_ns doc.
Context (Hcap : of_document).

Definition in_document (k : RecordIdentifier) : Prop := ri_namespace k = doc_ns doc.
(** The store as the operations on live data see it. *)
Definition live_store st : Sess := SessionStore_new (StoreInstance_new (doc_ns doc) st) None.
Definition node_inv n : Prop := rs_inv (live_store (nd_store n)).

(** A session of a node as the exchange sees it, and the node it leaves. *)
Definition node_session (snap : Tables) (f : option EntryFilter) (n : Node) : Sess * (Subscribers * World) :=
  (SessionStore_new (with_session_snapshot (doc_ns doc) (nd_store n) (Some snap)) f,
   (i_subscribers (nd_info n), nd_world n)).
Definition session_node (n : Node) (p : Sess * (Subscribers * World)) : Node :=
  {| nd_store := si_store (ss_inner p.1); nd_info := set_subscribers p.2.1 (nd_info n); nd_world := p.2.2 |}.

(** What a node's replica was opened with. *)
Record info_ok (i : nat) (n : Node) : Prop := {
  in_open : i_closed (nd_info n) = false;
  in_capability : i_capability (nd_info n) = doc_capability doc i;
  in_validator : i_capability_validator (nd_info n) = doc_validator doc i;
}.
Lemma info_same i n n' subs : nd_info n' = set_subscribers subs (nd_info n) → info_ok i n → info_ok i n'.
Proof. intros Heq [? ? ?]. by split; rewrite Heq. Qed.
Lemma info_eq i n n' : nd_info n' = nd_info n → info_ok i n → info_ok i n'.
Proof. intros Heq [? ? ?]. by split; rewrite Heq. Qed.
Lemma node_replica_store i n snap : i < size → info_ok i n →
  rp_store (node_replica snap n) = with_session_snapshot (doc_ns doc) (nd_store n) snap
  ∧ replica_id (node_replica snap n) = doc_ns doc.
Proof.
  intros Hi Hn. assert (Capability_id (i_capability (nd_info n)) = doc_ns doc) as Hns
    by (rewrite (in_capability _ _ Hn); by apply Hcap).
  split; [|exact Hns]. unfold node_replica. simpl. by rewrite Hns.
Qed.

(** The exchange step of [sync_process_message]. *)
Definition node_receive (policy : DownloadPolicy) (status : option (Hash → ContentStatus)) (now : N) (i from : nat)
    (m : DocMessage) : ST (Sess * (Subscribers * World)) StoreErr (option DocMessage) :=
  process_message SyncConfig_default
    (sync_validate now (doc_ns doc) (doc_peer doc from) (doc_validator doc i))
    (sync_on_insert (doc_ns doc) (doc_peer doc from) policy)
    (λ _, sync_content_status status) m.

Definition link_view (q : Running) (d : bool) : list SignedEntry :=
  session_view (doc_ns doc) (sr_snap q d) (sr_filter q d).
Definition link_frame (q : Running) (d : bool) : Sess → Prop :=
  session_frame (doc_ns doc) (sr_snap q d) (sr_filter q d).
Definition link_sides (s : Swarm) (q : Running) : Sides (S:=Sess) (E:=SignedEntry) (W:=Subscribers * World) :=
  let here d := (node_session (sr_snap q d) (sr_filter q d) (sw_node s (sr_end q d)), sr_got q d) in
  {| on_true := here true; on_false := here false |}.
Lemma link_side s q d : side d (link_sides s q) =
  (node_session (sr_snap q d) (sr_filter q d) (sw_node s (sr_end q d)), sr_got q d).
Proof. by destruct d. Qed.

(** A store to compare with: writes change no namespace. *)
Definition some_session (st : Store) (d : bool) : Sess := live_store st.
Lemma wrote_session st snap f n : node_inv n → rs_wrote (live_store st) (node_session snap f n).1.
Proof. intros Hn. by split. Qed.

(** Messages that are left before the session must have ended. *)
Definition rounds_left (q : Running) : nat := pred (enough_fuel (link_view q)) - sr_rounds q.

(** *** What the operations leave *)

Lemma snapshot_inv n : node_inv n →
  ∃ n', node_snapshot n = (Ok (view (nd_store n)), n') ∧ node_inv n'
    ∧ view (nd_store n') = view (nd_store n) ∧ nd_info n' = nd_info n.
Proof.
  intros (Hwf & Hidx & Hcache). destruct (snapshot_owned_spec (nd_store n) Hwf) as (st & Hr & Hv & _ & Hb).
  unfold node_snapshot. rewrite Hr. eexists. split; [done|]. split; [|done].
  destruct (bk_rest _ _ Hb) as (_ & Hk & _). unfold node_inv in *. simpl in *. rewrite Hv, Hk. split; [apply Hb|done].
Qed.

Lemma replica_inv i n snap : i < size → node_inv n → info_ok i n → replica_wf (node_replica snap n).
Proof.
  intros Hi Hn Hin. destruct (node_replica_store i n snap Hi Hin) as [Hst Hid]. split; rewrite Hst; [exact Hn|by rewrite Hid].
Qed.

(** The replica after [e] was or was not put into its store. *)
Record entry_written e (r r' : Replica) : Prop := {
  ew_wf : replica_wf r';
  ew_info : ∃ subs, rp_info r' = set_subscribers subs (rp_info r);
  ew_view : replica_view r' = replica_view r
    ∨ (¬ ∃ p : SignedEntry, superseding (replica_view r) e p) ∧ put_effect (replica_view r) e (replica_view r');
}.
Lemma set_subscribers_same (info : ReplicaInfo) : info = set_subscribers (i_subscribers info) info.
Proof. by destruct info. Qed.
Lemma entry_written_refl e r : replica_wf r → entry_written e r r.
Proof. intros Hr. split; [done| |by left]. eexists. apply set_subscribers_same. Qed.
Lemma insert_entry_written now e origin r : replica_wf r → entry_written e r (insert_entry now e origin r).2.
Proof.
  intros Hr. pose proof (insert_entry_run now e origin r Hr) as Hrun.
  destruct (validate_entry _ _ _ _ _ _) as [u|f|]; [|rewrite Hrun; by apply entry_written_refl|done].
  destruct Hrun as (x & r' & -> & [(_ & _ & Hu)|(Hn & _ & Hi)]).
  - destruct Hu as [Hwf Hv Hinfo _]. split; [exact Hwf| |by left]. simpl. rewrite Hinfo. eexists. apply set_subscribers_same.
  - destruct Hi as [Hwf Hp _ Hinfo]. split; [exact Hwf|by eexists|]. by right.
Qed.

Lemma insert_written created now key author hash len r : replica_wf r →
  let r' := (insert created now key author hash len r).2 in
  r' = r ∨ ∃ secret, replica_secret_key r = Ok secret
    ∧ entry_written (SignedEntry_from_parts secret author key
        {| r_len := len; r_hash := hash; r_timestamp := created |}) r r'.
Proof.
  intros Hr. cbv zeta. unfold insert. destruct ((len =? 0)%N || _); [by left|].
  unfold replica_ensure_open, mbind, ST_bind, st_get, st_lift.
  destruct (ensure_open (rp_info r)); simpl; [|by left..].
  destruct (replica_secret_key r) as [secret|err|] eqn:Hs; simpl; [|by left..].
  right. exists secret. split; [done|]. assert (replica_id r = NamespaceSecret_id secret) as ->.
  { unfold replica_id, replica_secret_key, Capability_secret_key in *.
    destruct (i_capability (rp_info r)); [|done]. by injection Hs as ->. }
  by apply insert_entry_written.
Qed.
Lemma delete_prefix_written created now prefix author r : replica_wf r →
  let r' := (delete_prefix created now prefix author r).2 in r' = r ∨ ∃ e, entry_written e r r'.
Proof.
  intros Hr. cbv zeta. unfold delete_prefix, replica_ensure_open, mbind, ST_bind, st_get, st_lift.
  destruct (ensure_open (rp_info r)); simpl; [|by left..].
  destruct (replica_secret_key r) as [secret|err|]; simpl; [|by left..].
  right. eexists. by apply insert_entry_written.
Qed.
Lemma insert_remote_written now e from status r : replica_wf r →
  let r' := (insert_remote_entry now e from status r).2 in r' = r ∨ entry_written e r r'.
Proof.
  intros Hr. cbv zeta. unfold insert_remote_entry, replica_ensure_open, mbind, ST_bind, st_get, st_lift.
  destruct (ensure_open (rp_info r)); simpl; [|by left..].
  destruct (map_err _ _); simpl; [|by left..]. right. by apply insert_entry_written.
Qed.

Lemma written_node i e n snap r' : i < size → info_ok i n → entry_written e (node_replica snap n) r' →
  node_inv (replica_node r') ∧ info_ok i (replica_node r').
Proof.
  intros Hi Hin [[Hinv Hns] [subs Hinfo] _]. split; [|by apply (info_same i n _ subs)].
  destruct r' as [[ns' st' sn'] info' w']. exact Hinv.
Qed.

(** The first message of a session. *)
Lemma open_session st0 i snap f n : i < size → node_inv n → info_ok i n →
  ∃ k (s' : Sess), sync_initial_message f (node_replica (Some snap) n) =
      (Ok [MpFingerprint (Build_RangeFingerprint (Build_Range k k)
         (range_fingerprint (loc (session_view (doc_ns doc) snap f) (Build_Range k k))))],
       set_rp_store (ss_inner s') (node_replica (Some snap) n))
    ∧ session_frame (doc_ns doc) snap f s' ∧ rs_same (node_session snap f n).1 s'.
Proof.
  intros Hi Hn Hin. destruct (node_replica_store i n (Some snap) Hi Hin) as [Hst _].
  set (p0 := node_session snap f n).
  set (σ := {| on_true := (p0, []); on_false := (p0, []) |} : Sides (S:=Sess) (E:=SignedEntry) (W:=Subscribers * World)).
  destruct (initial_message_wp (R:=RejectId) (Er:=StoreErr) (V:=DocRecord) (λ _, session_frame (doc_ns doc) snap f)
    (λ _, session_view (doc_ns doc) snap f) (λ k, ri_namespace k = doc_ns doc)
    (λ _, session_frozen (doc_ns doc) snap f) (λ _, live_store st0) true σ)
    as (m & p & Hr & Hf & Hsame & k & ->); [by split|by apply wrote_session|].
  unfold sync_initial_message, ensure_open, info_closed. simpl rp_info. rewrite (in_open _ _ Hin), Hst.
  unfold store_op, st_zoom in Hr. simpl in Hr.
  destruct (initial_message (E:=SignedEntry) (R:=RejectId) _) as [x s'] eqn:Hx in Hr. injection Hr as -> <-.
  rewrite Hx. by exists k, s'.
Qed.

(** [sync_process_message] reads the policy, tells the observer, then takes
    the exchange step. *)
Lemma process_run now i from m f snap n progress : i < size → node_inv n → info_ok i n →
  ∃ n1 policy, node_inv n1 ∧ nd_info n1 = nd_info n ∧ view (nd_store n1) = view (nd_store n)
    ∧ ∀ (x : option DocMessage) p,
      node_receive policy (i_content_status_cb (nd_info n)) now i from m (node_session snap f n1) = (Ok x, p) →
      ∃ r progress', sync_process_message now m (doc_peer doc from) f (node_replica (Some snap) n, progress)
          = (Ok x, (r, progress')) ∧ replica_node r = session_node n1 p.
Proof.
  intros Hi Hn Hin. destruct (node_replica_store i n (Some snap) Hi Hin) as [Hst Hid].
  pose proof (replica_inv i n (Some snap) Hi Hn Hin) as Hwf. set (r0 := node_replica (Some snap) n) in *.
  destruct (download_policy_run (doc_ns doc) r0 Hwf) as ([ns st sn] & Hdp & Hinv & Hv & Hns & Hsn).
  rewrite Hst in Hns, Hsn. simpl in Hns, Hsn. subst ns sn.
  exists {| nd_store := st; nd_info := nd_info n;
    nd_world := observe_rejections (doc_ns doc) (doc_peer doc from) (i_rejection_observer (nd_info n)) m (nd_world n) |}.
  exists (stored_policy (replica_view r0) (doc_ns doc)).
  change (view st = view (nd_store n)) in Hv.
  split; [exact Hinv|split; [done|split; [exact Hv|]]].
  intros x p Hr. unfold sync_process_message, ensure_open, info_closed. simpl rp_info.
  rewrite (in_open _ _ Hin), Hid, Hdp, (in_validator _ _ Hin). unfold node_receive, node_session in Hr.
  simpl rp_world. simpl rp_store. simpl in Hr. unfold with_session_snapshot in Hr.
  rewrite Hr. destruct p as [s' [subs w]]. destruct x as [reply|]; by eexists _, _.
Qed.

Lemma node_valid st0 now i j (s : Sess) e c : rs_inv s →
  sync_validate now (doc_ns doc) (doc_peer doc j) (doc_validator doc i) s e c = Accept →
  rs_entry_ok (live_store st0) e.
Proof.
  intros Hs Ha. unfold sync_validate in Ha.
  destruct (proj1 (validate_entry_sync now (ss_inner s) (doc_ns doc) e (doc_peer doc j) c (doc_validator doc i) Hs))
    as [Hne _]; [by destruct (validate_entry _ _ _ _ _ _) as [[]|[]|]|done].
Qed.

(** ** Every session ends *)
Context (st0 : Store).

(** A network in which anything may have been written: the stores are well
    formed, and the message of each session was made from the sender's view. *)
Record running_fine s q : Prop := {
  rf_ends : ∀ d, sr_end q d < size;
  rf_flying : flying (V:=DocRecord) (link_frame q) (link_view q) in_document (some_session st0)
    (rounds_left q) (sr_to q) (sr_msg q) (link_sides s q);
  rf_some : sr_msg q ≠ [];
}.
Record dialed_fine (q : Dialed) : Prop := {
  df_from : sd_from q < size;
  df_to : sd_to q < size;
  df_init : ∃ k, sd_init q = [MpFingerprint (Build_RangeFingerprint (Build_Range k k)
    (range_fingerprint (loc (session_view (doc_ns doc) (sd_snap q) (sd_filter q)) (Build_Range k k))))];
}.
Definition link_fine s (l : Link) : Prop :=
  match l with LkDialed q => dialed_fine q | LkRunning q => running_fine s q end.
Record network_fine s : Prop := {
  nf_nodes : ∀ i, i < size → node_inv (sw_node s i);
  nf_infos : ∀ i, i < size → info_ok i (sw_node s i);
  nf_links : ∀ l (q : Link), sw_links s !! l = Some q → link_fine s q;
  nf_next : ∀ l (q : Link), sw_links s !! l = Some q → l < sw_next s;
}.

(** An exchange goes on whatever happens to the stores meanwhile. *)
Lemma flying_ext (fixed : bool → Sess → Prop) (vw : bool → list SignedEntry) (base : bool → Sess) m d msg (σ σ' : Sides (W:=Subscribers * World)) :
  flying (V:=DocRecord) fixed vw in_document base m d msg σ →
  (∀ d', fixed d' (side d' σ').1.1) → (∀ d', rs_wrote (base d') (side d' σ').1.1) →
  (∀ d', received d' σ' = received d' σ) →
  flying (V:=DocRecord) fixed vw in_document base m d msg σ'.
Proof. intros [Hf Hw Hpo Hh Hso Hr] Hf' Hw' Hrec. split; try done. intros d'. by rewrite Hrec. Qed.
Lemma link_ready s q : (∀ d, sr_end q d < size) → (∀ i, i < size → node_inv (sw_node s i)) → ∀ d,
  link_frame q d (side d (link_sides s q)).1.1 ∧ rs_wrote (some_session st0 d) (side d (link_sides s q)).1.1.
Proof.
  intros He Hn d. rewrite link_side. split; [by split|]. by apply wrote_session, Hn, He.
Qed.
Lemma link_fine_ext s s' l : (∀ i, i < size → node_inv (sw_node s' i)) → link_fine s l → link_fine s' l.
Proof.
  intros Hn. destruct l as [q|q]; [done|]. intros Hq. split; [apply Hq| |apply Hq].
  eapply flying_ext; [apply (rf_flying _ _ Hq)|..]; try (intros d; by apply link_ready; [apply Hq|]).
  intros d. unfold received. by rewrite !link_side.
Qed.

(** A session both sides have opened, with the first message on its way. *)
Lemma set_side_same d (σ : Sides (S:=Sess) (E:=SignedEntry) (W:=Subscribers * World)) : set_side d ((side d σ).1, (side d σ).2) σ = σ.
Proof. by destruct σ as [[??] [??]], d. Qed.
Lemma opened_session s q k : (∀ d, sr_end q d < size) → (∀ i, i < size → node_inv (sw_node s i)) →
  (∀ d, sr_got q d = []) →
  in_flight (V:=DocRecord) (link_frame q) (link_view q) in_document (some_session st0)
    (pred (enough_fuel (link_view q))) false
    [MpFingerprint (Build_RangeFingerprint (Build_Range k k)
       (range_fingerprint (loc (link_view q true) (Build_Range k k))))] (link_sides s q).
Proof.
  intros He Hn Hgot. pose proof (link_ready s q He Hn) as Hready.
  pose proof (opened_in_flight (V:=DocRecord) SyncConfig_default eq_refl (link_frame q) (link_view q) in_document
    (some_session st0) true (link_sides s q) k (side true (link_sides s q)).1) as Ho.
  rewrite set_side_same in Ho. apply Ho; [intros d; apply Hready..| |apply Hready|].
  - intros d. unfold received. by rewrite link_side, Hgot.
  - apply rs_same_refl. rewrite link_side. by apply Hn.
Qed.

Lemma set_node_eq i n (f : nat → Node) : set_node i n f i = n.
Proof. unfold set_node. by rewrite Nat.eqb_refl. Qed.
Lemma set_node_ne i j n (f : nat → Node) : j ≠ i → set_node i n f j = f j.
Proof. intros Hne. unfold set_node. by apply Nat.eqb_neq in Hne as ->. Qed.

Lemma fine_links s s' : network_fine s → sw_node s' = sw_node s →
  (∀ l (q : Link), sw_links s' !! l = Some q → link_fine s q ∧ l < sw_next s') → network_fine s'.
Proof.
  intros Hs Heq Hq. split; [rewrite Heq; apply Hs..| |]; intros l q Hl; [|by apply (Hq l q)].
  apply (link_fine_ext s); [rewrite Heq; apply Hs|by apply (Hq l)].
Qed.
Lemma fine_update s i n : network_fine s → node_inv n → info_ok i n → network_fine (set_sw_node i n s).
Proof.
  intros Hs Hn Hin.
  assert (∀ j, j < size → node_inv (sw_node (set_sw_node i n s) j)) as Hn'.
  { intros j Hj. simpl. destruct (decide (j = i)) as [->|Hne]; [by rewrite set_node_eq|].
    rewrite set_node_ne by done. by apply (nf_nodes _ Hs). }
  split; [done| | |apply Hs].
  - intros j Hj. simpl. destruct (decide (j = i)) as [->|Hne]; [by rewrite set_node_eq|].
    rewrite set_node_ne by done. by apply (nf_infos _ Hs).
  - intros l q Hq. apply (link_fine_ext s); [done|]. by apply (nf_links _ Hs l).
Qed.
Lemma fine_delete s s' l : network_fine s → sw_node s' = sw_node s → sw_links s' = delete l (sw_links s) →
  sw_next s' = sw_next s → network_fine s'.
Proof.
  intros Hs Heq Hls Hn. apply (fine_links s); [done|done|]. intros l' q. rewrite Hls, Hn.
  intros [_ Hq]%lookup_delete_Some. split; [by apply (nf_links _ Hs l')|by apply (nf_next _ Hs l' q)].
Qed.
Lemma fine_insert s s' l (q : Link) : network_fine s → sw_node s' = sw_node s → sw_links s' = <[l := q]> (sw_links s) →
  l < sw_next s' → sw_next s ≤ sw_next s' → link_fine s q → network_fine s'.
Proof.
  intros Hs Heq Hls Hl Hn Hq. apply (fine_links s); [done|done|]. intros l' q'. rewrite Hls.
  intros [[<- <-]|[_ Hq']]%lookup_insert_Some; [done|].
  split; [by apply (nf_links _ Hs l')|]. pose proof (nf_next _ Hs l' q' Hq'). lia.
Qed.
Lemma fine_tick s : network_fine s → network_fine (tick s).
Proof.
  intros Hs. apply (fine_links s); [done|done|].
  intros l q Hq. split; [by apply (nf_links _ Hs l)|by apply (nf_next _ Hs l q)].
Qed.

(** *** The steps *)
Lemma fine_write s i r' : network_fine s → i < size →
  r' = node_replica None (sw_node s i) ∨ (∃ e, entry_written e (node_replica None (sw_node s i)) r') →
  network_fine (set_sw_node i (replica_node r') s).
Proof.
  intros Hs Hi Hr. pose proof (nf_nodes _ Hs i Hi) as Hn. pose proof (nf_infos _ Hs i Hi) as Hin.
  assert (∃ e, entry_written e (node_replica None (sw_node s i)) r') as [e He].
  { destruct Hr as [->|?]; [|done].
    exists (SignedEntry_from_parts (NamespaceSecret_from_bytes (vreplicate 32 x00)) (Author_from_bytes (vreplicate 32 x00)) []
      {| r_len := 0; r_hash := Hash_EMPTY; r_timestamp := 0 |}). by apply entry_written_refl, (replica_inv i). }
  destruct (written_node i e (sw_node s i) None r' Hi Hin He). by apply fine_update.
Qed.

Lemma fine_dial s i j f : network_fine s → i < size → j < size →
  network_fine (swarm_dial i j f s) ∧ ∃ q : Dialed, sw_links (swarm_dial i j f s) = <[sw_next s := LkDialed q]> (sw_links s).
Proof.
  intros Hs Hi Hj. unfold swarm_dial.
  destruct (snapshot_inv (sw_node s i) (nf_nodes _ Hs i Hi)) as (n & -> & Hn & Hv & Hin).
  assert (info_ok i n) as Hin' by (by apply (info_eq i (sw_node s i)); [|apply (nf_infos _ Hs)]).
  destruct (open_session st0 i (view (nd_store (sw_node s i))) f n Hi Hn Hin') as (k & s' & -> & Hf & Hsame).
  split; [|eexists; reflexivity].
  set (r := set_rp_store _ _). eapply (fine_insert (set_sw_node i (replica_node r) s));
    [|done|reflexivity|simpl; lia..|by split; [..|exists k]].
  apply fine_update; [done| |by apply (info_eq i n)]. exact (wrote_inv _ _ (rs_same_wrote _ _ Hsame)).
Qed.

Lemma fine_accept s l f (q : Dialed) : network_fine s → sw_links s !! l = Some (LkDialed q) →
  network_fine (swarm_accept l f s) ∧ ∃ q', sw_links (swarm_accept l f s) = <[l := LkRunning q']> (sw_links s).
Proof.
  intros Hs Hq. pose proof (nf_links _ Hs _ _ Hq) as Hqf. simpl in Hqf. pose proof (df_to _ Hqf) as Hto.
  destruct (snapshot_inv _ (nf_nodes _ Hs _ Hto)) as (n & Hr & Hn & Hv & Hin).
  assert (network_fine (set_sw_node (sd_to q) n s)) as Hs'.
  { apply fine_update; [done|done|]. by apply (info_eq _ (sw_node s (sd_to q))); [|apply (nf_infos _ Hs)]. }
  unfold swarm_accept. rewrite Hq, Hr. split; [|eexists; reflexivity].
  eapply (fine_insert (set_sw_node (sd_to q) n s)); [done|done|reflexivity|by apply (nf_next _ Hs l _ Hq)|done|].
  set (s' := set_sw_node (sd_to q) n s) in *. set (q' := Build_Running _ _ _ _ _ _ _ _ _).
  assert (∀ d, sr_end q' d < size) as Hends by (intros []; apply Hqf).
  destruct (df_init _ Hqf) as [k Hinit]. split; [done| |simpl; by rewrite Hinit].
  unfold rounds_left. simpl sr_rounds. rewrite Nat.sub_0_r. simpl sr_msg. simpl sr_to. rewrite Hinit.
  apply if_flying, (opened_session s' q' k); [done|apply Hs'|done].
Qed.

Lemma receive_fine policy status s q now n : running_fine s q → node_inv n →
  let i := sr_end q (sr_to q) in
  ∃ reply p, node_receive policy status now i (sr_end q (negb (sr_to q))) (sr_msg q)
      (node_session (sr_snap q (sr_to q)) (sr_filter q (sr_to q)) n) = (Ok reply, p)
    ∧ reply ≠ Some [] ∧ node_inv (session_node n p)
    ∧ flying (V:=DocRecord) (link_frame q) (link_view q) in_document (some_session st0)
        (pred (rounds_left q)) (negb (sr_to q)) (default [] reply)
        (after (sr_to q) (sr_msg q) p (link_sides s q)).
Proof.
  intros Hq Hn i. set (d := sr_to q) in *. pose proof (rf_flying _ _ Hq) as Hfl. fold d in Hfl.
  set (v := λ _ : bool, sync_validate now (doc_ns doc) (doc_peer doc (sr_end q (negb d))) (doc_validator doc i)).
  set (o := λ _ : bool, sync_on_insert (doc_ns doc) (doc_peer doc (sr_end q (negb d))) policy).
  set (c := λ (_ : bool) (_ : Subscribers * World), sync_content_status status).
  pose proof (λ (x : Sess) e c, node_valid st0 now i (sr_end q (negb d)) x e c) as Hvalid.
  pose proof (session_frozen (doc_ns doc) (sr_snap q d) (sr_filter q d)) as Hfix.
  destruct (receive_wp SyncConfig_default v o c _ _ in_document Hfix d (live_store st0) eq_refl Hvalid (sr_msg q)
    (node_session (sr_snap q d) (sr_filter q d) n)) as (reply & p & Hrun & Hf' & Hw' & Hne & Han);
    [by split|by apply wrote_session|apply Hfl|].
  exists reply, p. split; [exact Hrun|]. split; [done|]. split; [exact (wrote_inv _ _ Hw')|].
  by apply (flying_after SyncConfig_default eq_refl).
Qed.

(** The values that a side has received, after the message. *)
Lemma next_received s s' q p progress reply d :
  received d (link_sides s' (next_running q progress reply)) = received d (after (sr_to q) (sr_msg q) p (link_sides s q)).
Proof.
  unfold received. rewrite link_side. unfold after.
  destruct (bool_side (sr_to q) d) as [-> | ->].
  - rewrite side_set, link_side. simpl. by rewrite Bool.eqb_reflx.
  - rewrite side_set_other, link_side. simpl. by destruct (sr_to q).
Qed.

Lemma fine_deliver s l q now : network_fine s → sw_links s !! l = Some (LkRunning q) →
  let s' := swarm_deliver doc l now s in
  network_fine s'
  ∧ ((∃ progress reply, sw_links s' = <[l := LkRunning (next_running q progress reply)]> (sw_links s))
     ∨ sw_links s' = delete l (sw_links s)
       ∧ sw_done s' = sw_done s ++ [done_of q (S (sw_time s)) true; done_of q (S (sw_time s)) false]).
Proof.
  intros Hs Hl. pose proof (nf_links _ Hs _ _ Hl) as Hq. simpl in Hq.
  set (i := sr_end q (sr_to q)). assert (i < size) as Hi by apply Hq.
  destruct (process_run now i (sr_end q (negb (sr_to q))) (sr_msg q) (sr_filter q (sr_to q)) (sr_snap q (sr_to q))
    (sw_node s i) (sr_progress q (sr_to q)) Hi (nf_nodes _ Hs i Hi) (nf_infos _ Hs i Hi))
    as (n1 & policy & Hn1 & Hin & _ & Hrun).
  destruct (receive_fine policy (i_content_status_cb (nd_info (sw_node s i))) s q now n1 Hq Hn1)
    as (reply & p & Hr & Hne & Hn & Hfl).
  destruct (Hrun reply p Hr) as (r & progress & Hsync & Hnode).
  assert (network_fine (set_sw_node i (replica_node r) s)) as Hs1.
  { apply fine_update; [done|by rewrite Hnode|]. rewrite Hnode.
    apply (info_same i (sw_node s i) _ p.2.1); [simpl; by rewrite Hin|by apply Hs]. }
  unfold swarm_deliver. rewrite Hl. fold i. rewrite Hsync. destruct reply as [reply|]; simpl default in *.
  - split; [|left; by exists progress, reply].
    eapply (fine_insert (set_sw_node i (replica_node r) s)); [done|done|reflexivity|by apply (nf_next _ Hs l _ Hl)|done|].
    split; [apply Hq| |by intros Heq; simpl in Heq; subst].
    replace (rounds_left (next_running q progress reply)) with (pred (rounds_left q))
      by (unfold rounds_left; simpl sr_rounds; change (link_view (next_running q progress reply)) with (link_view q); lia).
    eapply flying_ext; [exact Hfl| | |intros d; apply next_received];
      intros d; by apply link_ready; [apply Hq|apply Hs1].
  - split; [|by right]. by eapply (fine_delete (set_sw_node i (replica_node r) s)).
Qed.

(** The step is about nodes of the network. *)
Definition step_in_range (t : SwarmStep) : Prop :=
  match t with
  | SsWrite i _ _ _ _ _ _ | SsDelete i _ _ _ _ | SsRemote i _ _ _ _ => i < size
  | SsDial i j _ => i < size ∧ j < size
  | _ => True
  end.

Lemma fine_step s t : network_fine s → step_in_range t → network_fine (swarm_step doc t s).
Proof.
  intros Hs Ht. apply fine_tick.
  destruct t as [i created now key author hash len|i created now key author|i now e from st|i j f|l f|l now|l].
  - apply fine_write; [done|done|].
    destruct (insert_written created now key author hash len (node_replica None (sw_node s i))) as [?|(? & _ & ?)];
      [by apply (replica_inv i); [|apply Hs..]|by left|right; by eexists].
  - apply fine_write; [done|done|].
    apply delete_prefix_written. by apply (replica_inv i); [|apply Hs..].
  - apply fine_write; [done|done|].
    destruct (insert_remote_written now e from st (node_replica None (sw_node s i))) as [?|?];
      [by apply (replica_inv i); [|apply Hs..]|by left|right; by eexists].
  - destruct Ht as [Hi Hj]. by apply fine_dial.
  - destruct (sw_links s !! l) as [[q|q]|] eqn:Hl; [by eapply fine_accept|by unfold swarm_accept; rewrite Hl..].
  - destruct (sw_links s !! l) as [[q|q]|] eqn:Hl; [by unfold swarm_deliver; rewrite Hl| |by unfold swarm_deliver; rewrite Hl].
    by eapply fine_deliver.
  - by eapply (fine_delete s).
Qed.
Lemma fine_run ts s : network_fine s → Forall step_in_range ts → network_fine (swarm_run doc ts s).
Proof.
  intros Hs Hts. revert s Hs. induction Hts as [|t ts Ht _ IH]; intros s Hs; [done|]. by apply IH, fine_step.
Qed.

(** *** The log *)
Definition delivers (l : nat) (t : SwarmStep) : bool := match t with SsDeliver l' _ => l' =? l | _ => false end.
Definition drops (l : nat) (t : SwarmStep) : bool := match t with SsDrop l' => l' =? l | _ => false end.
Definition completed s q : Prop :=
  ∃ time, done_of q time true ∈ sw_done s ∧ done_of q time false ∈ sw_done s.

Lemma run_snoc ts t s : swarm_run doc (ts ++ [t]) s = swarm_step doc t (swarm_run doc ts s).
Proof. unfold swarm_run. by rewrite foldl_app. Qed.
Lemma run_app ts ts' s : swarm_run doc (ts ++ ts') s = swarm_run doc ts' (swarm_run doc ts s).
Proof. apply foldl_app. Qed.
Lemma step_log s t : ∃ ds, sw_done (swarm_step doc t s) = sw_done s ++ ds.
Proof.
  assert (∃ ds, sw_done s = sw_done s ++ ds) as Hnil by (exists []; by rewrite app_nil_r).
  unfold swarm_step. destruct t; simpl; try exact Hnil.
  - unfold swarm_dial. destruct (node_snapshot _) as [[snap| |] n]; [|exact Hnil..].
    by destruct (sync_initial_message _ _) as [[m| |] r].
  - unfold swarm_accept. destruct (sw_links s !! l) as [[q|q]|]; [|exact Hnil..].
    by destruct (node_snapshot _) as [[snap| |] n].
  - unfold swarm_deliver. destruct (sw_links s !! l) as [[q|q]|]; [exact Hnil| |exact Hnil].
    destruct (sync_process_message _ _ _ _ _) as [[[reply|]| |] [r progress]]; [exact Hnil|by eexists|exact Hnil..].
Qed.
Lemma run_log ts s : ∃ ds, sw_done (swarm_run doc ts s) = sw_done s ++ ds.
Proof.
  induction ts as [|t ts [ds Hds]] using rev_ind; [exists []; by rewrite app_nil_r|].
  rewrite run_snoc. destruct (step_log (swarm_run doc ts s) t) as [ds' ->].
  exists (ds ++ ds'). by rewrite Hds, (assoc_L (++)).
Qed.
Lemma completed_mono ts s q : completed s q → completed (swarm_run doc ts s) q.
Proof.
  intros (time & Ht & Hf). destruct (run_log ts s) as [ds Hds]. exists time. rewrite Hds, !elem_of_app. tauto.
Qed.

(** *** A session moves only when one of its messages arrives *)
Lemma other_step s t l q : network_fine s → step_in_range t → sw_links s !! l = Some (LkRunning q) →
  delivers l t = false → drops l t = false → sw_links (swarm_step doc t s) !! l = Some (LkRunning q).
Proof.
  intros Hs Ht Hl Hd Hx. unfold swarm_step.
  destruct t as [i created now key author hash len|i created now key author|i now e from st|i j f|l' f|l' now|l'];
    simpl in Hd, Hx |- *; [done..| | | |].
  - destruct (fine_dial s i j f Hs) as (_ & q' & ->); [apply Ht..|].
    rewrite lookup_insert_ne; [done|]. pose proof (nf_next _ Hs l _ Hl). lia.
  - destruct (sw_links s !! l') as [[q'|q']|] eqn:Hl'; [|by unfold swarm_accept; rewrite Hl'..].
    destruct (fine_accept s l' f q' Hs Hl') as (_ & q'' & ->). rewrite lookup_insert_ne; [done|congruence].
  - apply Nat.eqb_neq in Hd. destruct (sw_links s !! l') as [[q'|q']|] eqn:Hl';
      [by unfold swarm_deliver; rewrite Hl'| |by unfold swarm_deliver; rewrite Hl'].
    destruct (fine_deliver s l' q' now Hs Hl') as (_ & [(progress & reply & ->)|[-> _]]);
      [by rewrite lookup_insert_ne|by rewrite lookup_delete_ne].
  - apply Nat.eqb_neq in Hx. by rewrite lookup_delete_ne.
Qed.
Lemma running_left s q : running_fine s q → 0 < rounds_left q.
Proof.
  intros Hq. pose proof (rf_some _ _ Hq) as Hne. destruct (sr_msg q) as [|pt m] eqn:Hm; [done|].
  pose proof (if_rank _ _ _ _ _ _ _ _ (rf_flying _ _ Hq) pt) as Hr. rewrite Hm in Hr.
  assert (rank (link_view q) pt < rounds_left q); [apply Hr; left|lia].
Qed.

(** Each message that is delivered uses up one. *)
Lemma session_ends ts : ∀ s l q, network_fine s → Forall step_in_range ts → sw_links s !! l = Some (LkRunning q) →
  Forall (λ t, drops l t = false) ts → rounds_left q ≤ length (List.filter (delivers l) ts) →
  completed (swarm_run doc ts s) q.
Proof.
  induction ts as [|t ts IH]; intros s l q Hs Hok' Hl Hdrop Hleft; simpl in Hleft.
  { pose proof (running_left s q (nf_links _ Hs _ _ Hl)). lia. }
  apply Forall_cons in Hok' as [Ht Hts], Hdrop as [Hx Hxs].
  pose proof (fine_step s t Hs Ht) as Hs'. change (swarm_run doc (t :: ts) s) with (swarm_run doc ts (swarm_step doc t s)).
  destruct (delivers l t) eqn:Hd.
  - destruct t as [| | | | |l' now|]; try done. apply Nat.eqb_eq in Hd as ->. simpl in Hleft.
    destruct (fine_deliver s l q now Hs Hl) as (_ & [(progress & reply & Hls)|(_ & Hlog)]).
    + apply (IH (swarm_step doc (SsDeliver l now) s) l (next_running q progress reply) Hs' Hts); [|done|].
      * simpl. by rewrite Hls, lookup_insert_eq.
      * unfold rounds_left in *. change (link_view (next_running q progress reply)) with (link_view q). simpl. lia.
    + apply completed_mono. exists (S (sw_time s)). simpl. rewrite Hlog, !elem_of_app. set_solver.
  - apply (IH (swarm_step doc t s) l q); [done|done|by apply other_step|done|done].
Qed.

(** The network at the beginning: well-formed stores, no sessions. *)
Record begins s : Prop := {
  bg_nodes : ∀ i, i < size → node_inv (sw_node s i);
  bg_infos : ∀ i, i < size → info_ok i (sw_node s i);
  bg_links : sw_links s = ∅;
}.
Lemma begins_fine s : begins s → network_fine s.
Proof. intros Hs. split; [apply Hs|apply Hs| |]; intros l q; by rewrite (bg_links _ Hs), lookup_empty. Qed.

Lemma network_session_ends s0 ts ts' l q : begins s0 → Forall step_in_range (ts ++ ts') →
  sw_links (swarm_run doc ts s0) !! l = Some (LkRunning q) → Forall (λ t, drops l t = false) ts' →
  length (link_view q true) + length (link_view q false) + 4 ≤ sr_rounds q + length (List.filter (delivers l) ts') →
  completed (swarm_run doc (ts ++ ts') s0) q.
Proof.
  intros Hst [Hts Hts']%Forall_app Hl Hdrop Hn. rewrite run_app.
  apply (session_ends ts' _ l q); [by apply fine_run; [apply begins_fine|]|done..|].
  unfold rounds_left, enough_fuel. lia.
Qed.
End network.
