(* ===== verification/Swarm.v ===== *)
(** * Replicas that converge

    The network of Network when what is written are entries that the store
    lets supersede what they cover, and that every node admits: whatever is
    interleaved, a session passes on all that the other side had when it was
    opened, and replicas that have heard of each other have the same records. *)
From S2P Require Import Prelude Redb Keys Entry Heads Query Bounds Ranger Converge Info Store StoreInstance Filter Replica Reconcile Network.

(** ** What a node has *)
Section nodes.
Context `{RedbOk, Crypto, Postcard DownloadPolicy}.
Context (doc : Document) (size : nat) (U : SignedEntry → Prop) (since : N).
Implicit Types (e x : SignedEntry) (st : Store).

Abbreviation Sess := (SessionStore StoreInstance).
Abbreviation DocMessage := (Message SignedEntry RecordIdentifier RejectId).
Abbreviation dom := (dominates (S:=Sess) (V:=DocRecord)).

(** The entries [U] that are written: they are regular, and every node takes
    them in from every other from the time [since] on. *)
Record writes_ok : Prop := {
  wo_capability : of_document doc size;
  wo_document : ∀ e, U e → se_namespace e = doc_ns doc;
  wo_regular : ∀ e, U e → regular e;
  wo_admissible : ∀ e i j now, U e → i < size → j < size → (since <= now)%N →
    admissible now (doc_ns doc) (doc_peer doc j) (doc_validator doc i) e;
}.

Abbreviation in_document := (in_document doc).
Abbreviation live_store := (live_store doc).
Abbreviation node_inv := (node_inv doc).
Abbreviation info_ok := (info_ok doc).
Abbreviation node_session := (node_session doc).
Abbreviation node_receive := (node_receive doc).
Abbreviation link_view := (link_view doc).
Abbreviation link_frame := (link_frame doc).
Abbreviation link_sides := (link_sides doc).
Abbreviation rounds_left := (rounds_left doc).
Abbreviation some_session := (some_session doc).

(** The store has [e], or an entry that supersedes it. *)
Definition has st e : Prop :=
  ∃ x, in_document (se_id x) ∧ rs_live (live_store st) (se_id x) = Some x ∧ dom x e.
Definition learns st st' : Prop := ∀ e, U e → has st e → has st' e.
Record node_ok st : Prop := {
  no_inv : rs_inv (live_store st);
  no_clean : prefix_clean (live_store st);
  no_sound : ∀ k x, in_document k → rs_live (live_store st) k = Some x → U x;
}.

#[local] Instance learns_preorder : PreOrder learns.
Proof. split; [by intros st e ??|]. intros s1 s2 s3 H12 H23 e He Hh. by apply H23, H12. Qed.

Context (Hok : writes_ok).

Lemma dom_refl e : U e → dom e e.
Proof.
  intros He. split; [by apply (covers_refl U (wo_regular Hok))|].
  destruct (leb _ _) eqn:Hle; [done|]. pose proof (leb_total_v (S:=Sess) (Er:=StoreErr) (K:=RecordIdentifier) (R:=RejectId) (E:=SignedEntry) _ _ Hle). congruence.
Qed.
Lemma dom_trans e1 e2 e3 : U e1 → U e2 → U e3 → dom e1 e2 → dom e2 e3 → dom e1 e3.
Proof.
  intros He1 He2 He3 [Hc Hv] [Hc' Hv']. split; [by eapply (covers_trans U (wo_regular Hok) e1 e2 e3)|].
  by eapply DocRecord_leb_trans.
Qed.

Lemma written_in_document e : U e → in_document (re_key e).
Proof. apply (wo_document Hok). Qed.
Lemma listed_written q e : U e → rs_listed (S:=Sess) q (re_key e) = true → in_document (re_key q).
Proof. apply (listed_in_document (doc_ns doc) U (wo_document Hok)). Qed.

Lemma node_holds st : node_ok st → Converge.holds (V:=DocRecord) in_document (λ e, U e ∧ has st e) (live_store st).
Proof.
  intros Hn. split; [apply Hn|apply Hn| |].
  - intros k x Hk Hx. pose proof (no_sound _ Hn k x Hk Hx) as Hu. split; [done|].
    pose proof (rs_live_key (R:=RejectId) (Err:=StoreErr) (live_store st) k x (no_inv _ Hn) Hx) as Hid.
    change (se_id x = k) in Hid. exists x. rewrite Hid. split; [done|]. split; [done|]. by apply dom_refl.
  - intros e [_ Hh]. exact Hh.
Qed.

(** The live content of a session is that of its store. *)
Lemma holds_live P (s : Sess) : si_namespace (ss_inner s) = doc_ns doc →
  Converge.holds (V:=DocRecord) in_document P s ↔
  Converge.holds (V:=DocRecord) in_document P (live_store (si_store (ss_inner s))).
Proof.
  intros Hns. split; intros [Hi Hc Hs Ht]; split; try done.
Qed.

Lemma holds_node P st : (∀ e, P e → U e) →
  Converge.holds (V:=DocRecord) in_document P (live_store st) →
  node_ok st ∧ (∀ e, P e → has st e) ∧ ∀ e, has st e → ∃ x, P x ∧ dom x e.
Proof.
  intros HP [Hi Hc Hs Ht]. split; [split; [done|done|]|split; [done|]].
  - intros k x Hk Hx. by eapply HP, Hs.
  - intros e (x & Hk & Hx & Hd). exists x. split; [by eapply Hs|done].
Qed.

(** What a store has after more has been taken in. *)
Definition takes_in st (L : SignedEntry → Prop) st' : Prop :=
  node_ok st' ∧ learns st st' ∧ (∀ e, L e → has st' e)
  ∧ ∀ e, has st' e → ∃ x, ((U x ∧ has st x) ∨ L x) ∧ dom x e.

Lemma holds_takes_in st (L : SignedEntry → Prop) st' : (∀ e, L e → U e) →
  Converge.holds (V:=DocRecord) in_document (λ e, (U e ∧ has st e) ∨ L e) (live_store st') → takes_in st L st'.
Proof.
  intros HL Hh. destruct (holds_node _ st' (λ e He, match He with or_introl h => proj1 h | or_intror h => HL e h end) Hh)
    as (Hn & Hhas & Hback).
  split; [done|]. split; [|split; [|done]]; intros e ?; [intros ?|]; apply Hhas; tauto.
Qed.

Lemma write_takes_in st e : node_ok st → U e →
  takes_in st (λ x, x = e) (si_store (put e (StoreInstance_new (doc_ns doc) st)).2).
Proof.
  intros Hn He.
  destruct (put_holds (S:=StoreInstance) (Er:=StoreErr) (V:=DocRecord) U in_document written_in_document listed_written
    (regular_lists U (wo_regular Hok)) dom_refl dom_trans (λ x, U x ∧ has st x)
    (StoreInstance_new (doc_ns doc) st) e) as (o & i & Hrun & Hw & Hh).
  - by intros x [].
  - done.
  - exact (wo_document Hok e He).
  - destruct (node_holds st Hn) as [? ? ? ?]. by split.
  - rewrite Hrun. simpl. apply holds_takes_in; [by intros x ->|].
    destruct Hh as [Hi Hc Hs Ht]. split; done.
Qed.

(** Only the visible tables count. *)
Lemma has_view st st' e : view st = view st' → has st e → has st' e.
Proof. intros Hv (x & Hk & Hx & Hd). exists x. split; [done|]. split; [|done]. simpl in *. by rewrite <- Hv. Qed.

(** Only the live entries count. *)
Lemma takes_in_live st L st1 st' : takes_in st L st1 → rs_inv (live_store st') →
  (∀ k, rs_live (live_store st') k = rs_live (live_store st1) k) → takes_in st L st'.
Proof.
  intros (Hn & Hle & Hin & Hback) Hi Hl.
  assert (∀ e, has st1 e ↔ has st' e) as Hhas by (intros e; unfold has; by setoid_rewrite Hl).
  split; [|split; [intros e He; rewrite <- Hhas; by apply Hle|split; [intros e; rewrite <- Hhas; apply Hin|intros e; rewrite <- Hhas; apply Hback]]].
  destruct Hn as [_ Hc Hs]. split; [done|intros q c; rewrite !Hl; apply Hc|intros k x; rewrite Hl; apply Hs].
Qed.
Lemma put_takes_in st e st' : node_ok st → U e → rs_inv (live_store st') →
  (¬ ∃ p : SignedEntry, superseding (view st) e p) → put_effect (view st) e (view st') →
  takes_in st (λ x, x = e) st'.
Proof.
  intros Hn He Hi Hsup [Heff _].
  pose proof (write_takes_in st e Hn He) as Ht.
  destruct (put_inst_wp (StoreInstance_new (doc_ns doc) st) e (no_inv _ Hn)) as (o & i & Hrun & _ & Ho).
  rewrite Hrun in Ht. simpl in Ht, Ho. destruct o as [|n]; destruct Ho as [Ho Hv]; [done|]. destruct Hv as [Hv _].
  apply (takes_in_live _ _ (si_store i)); [done|done|]. intros k. simpl. by rewrite Heff, Hv.
Qed.

Lemma node_ok_view st st' : node_ok st → rs_inv (live_store st') → view st' = view st → node_ok st'.
Proof.
  intros [_ Hc Hs] Hi Hv. assert (∀ k, rs_live (live_store st') k = rs_live (live_store st) k) as Hl
    by (intros k; simpl; by rewrite Hv).
  split; [done|intros q c; rewrite !Hl; apply Hc|intros k x; rewrite Hl; apply Hs].
Qed.
Lemma snapshot_run n : node_ok (nd_store n) →
  ∃ n', node_snapshot n = (Ok (view (nd_store n)), n') ∧ node_ok (nd_store n')
    ∧ view (nd_store n') = view (nd_store n) ∧ nd_info n' = nd_info n.
Proof.
  intros Hn. destruct (snapshot_inv doc n (no_inv _ Hn)) as (n' & Hr & Hi & Hv & Hin).
  exists n'. split; [done|]. split; [by apply (node_ok_view (nd_store n))|done].
Qed.

(** What a session shows of the tables at its opening. *)
Lemma session_view_live st f e : node_ok st →
  e ∈ session_view (doc_ns doc) (view st) f ↔
    in_document (se_id e) ∧ rs_live (live_store st) (se_id e) = Some e ∧ admitted f e = true.
Proof.
  intros Hn. unfold session_view. rewrite elem_of_filter_list, elem_of_namespace_entries.
  split.
  - intros [[Hns Hg] Ha]. split; [done|]. split; [|done]. by apply (live_get (StoreInstance_new (doc_ns doc) st)).
  - intros (Hns & Hl & Ha). split; [|done]. split; [done|].
    by apply (live_get (StoreInstance_new (doc_ns doc) st)).
Qed.
Lemma session_view_has st f e : node_ok st → e ∈ session_view (doc_ns doc) (view st) f → U e ∧ has st e.
Proof.
  intros Hn (Hk & Hl & _)%session_view_live; [|done]. pose proof (no_sound _ Hn _ _ Hk Hl) as Hu.
  split; [done|]. exists e. split; [done|]. split; [done|]. by apply dom_refl.
Qed.
(** Of the whole document if nothing is filtered. *)
Definition shows_all st t : Prop := ∀ e, has st e → ∃ x, x ∈ session_view (doc_ns doc) t None ∧ dom x e.
Lemma session_view_all st : node_ok st → shows_all st (view st).
Proof. intros Hn e (x & Hk & Hx & Hd). exists x. split; [|done]. by apply session_view_live. Qed.

(** ** Sessions *)

Context (st0 : Store).
Record running_ok (s : Swarm) (q : Running) : Prop := {
  ro_ends : ∀ d, sr_end q d < size;
  ro_flight : in_flight (V:=DocRecord) (link_frame q) (link_view q) in_document (some_session st0)
    (rounds_left q) (sr_to q) (sr_msg q) (link_sides s q);
  ro_some : sr_msg q ≠ [];
  ro_view : ∀ d e, e ∈ link_view q d → U e ∧ has (nd_store (sw_node s (sr_end q d))) e;
  ro_got : ∀ d e, e ∈ (sr_got q d).*1 → has (nd_store (sw_node s (sr_end q d))) e;
}.
Record dialed_ok (s : Swarm) (q : Dialed) : Prop := {
  di_from : sd_from q < size;
  di_to : sd_to q < size;
  di_view : ∀ e, e ∈ session_view (doc_ns doc) (sd_snap q) (sd_filter q) →
    U e ∧ has (nd_store (sw_node s (sd_from q))) e;
  di_init : ∃ k, sd_init q = [MpFingerprint (Build_RangeFingerprint (Build_Range k k)
    (range_fingerprint (loc (session_view (doc_ns doc) (sd_snap q) (sd_filter q)) (Build_Range k k))))];
}.
Definition link_ok (s : Swarm) (l : Link) : Prop :=
  match l with LkDialed q => dialed_ok s q | LkRunning q => running_ok s q end.
Record swarm_ok (s : Swarm) : Prop := {
  so_nodes : ∀ i, i < size → node_ok (nd_store (sw_node s i));
  so_infos : ∀ i, i < size → info_ok i (sw_node s i);
  so_links : ∀ l q, sw_links s !! l = Some q → link_ok s q;
  so_next : ∀ l q, sw_links s !! l = Some q → l < sw_next s;
}.

(** An exchange goes on whatever happens to the stores meanwhile. *)
Lemma flight_ext (fixed : bool → Sess → Prop) vw (base : bool → Sess) m d msg (σ σ' : Sides (W:=Subscribers * World)) :
  in_flight (V:=DocRecord) fixed vw in_document base m d msg σ →
  (∀ d', fixed d' (side d' σ').1.1) → (∀ d', rs_wrote (base d') (side d' σ').1.1) →
  (∀ d', received d' σ' = received d' σ) →
  in_flight (V:=DocRecord) fixed vw in_document base m d msg σ'.
Proof.
  intros [Hfl Hk] Hf' Hw' Hrec. split; [by eapply flying_ext|].
  intros k. destruct (Hk k) as [?|[Hto Hfrom]]; [by left|]. right. unfold key_closing, settled in *.
  setoid_rewrite Hrec. by split.
Qed.
Lemma nodes_inv s : (∀ i, i < size → node_ok (nd_store (sw_node s i))) → ∀ i, i < size → node_inv (sw_node s i).
Proof. intros Hn i Hi. by apply Hn. Qed.
Lemma link_mono s s' l : (∀ i, i < size → node_ok (nd_store (sw_node s' i))) →
  (∀ i, i < size → learns (nd_store (sw_node s i)) (nd_store (sw_node s' i))) → link_ok s l → link_ok s' l.
Proof.
  intros Hn Hle. destruct l as [q|q]; intros Hq.
  - split; [apply Hq..| |apply Hq]. intros e He. destruct (di_view _ _ Hq e He) as [Hu Hh].
    split; [done|]. by apply Hle; [apply Hq| |].
  - assert (∀ d e, e ∈ (sr_got q d).*1 → U e) as Hu.
    { intros d e He. apply (ro_view _ _ Hq (negb d) e). apply (if_sound _ _ _ _ _ _ _ _ (if_flying _ _ _ _ _ _ _ _ (ro_flight _ _ Hq))).
      unfold received. by rewrite link_side. }
    split; [apply Hq| |apply Hq| |].
    + eapply flight_ext; [apply (ro_flight _ _ Hq)|..]; try (intros d; by apply (link_ready doc size st0); [apply Hq|by apply nodes_inv]).
      intros d. unfold received. by rewrite !link_side.
    + intros d e He. destruct (ro_view _ _ Hq d e He) as [He' Hh]. split; [done|]. by apply Hle; [apply Hq| |].
    + intros d e He. apply Hle; [apply Hq|by eapply Hu|]. by apply (ro_got _ _ Hq).
Qed.

(** *** One message *)
(** Ranges of the two views in which the fingerprints agree hold the same
    entries, or newer ones on the other side. *)
Definition link_tells (q : Running) : Prop := fingerprints_tell_views (V:=DocRecord) (link_view q).

Lemma node_accepts now i j (s : Sess) e c : rs_inv s → U e → i < size → j < size → (since <= now)%N →
  sync_validate now (doc_ns doc) (doc_peer doc j) (doc_validator doc i) s e c = Accept.
Proof.
  intros Hs He Hi Hj Hnow. unfold sync_validate.
  rewrite (proj2 (validate_entry_sync now (ss_inner s) (doc_ns doc) e (doc_peer doc j) c (doc_validator doc i) Hs));
    [done|]. by apply (wo_admissible Hok).
Qed.

Lemma receive_run policy status s q now n : link_tells q → running_ok s q → (since <= now)%N → node_ok (nd_store n) →
  let i := sr_end q (sr_to q) in
  ∃ reply p, node_receive policy status now i (sr_end q (negb (sr_to q))) (sr_msg q)
      (node_session (sr_snap q (sr_to q)) (sr_filter q (sr_to q)) n) = (Ok reply, p)
    ∧ reply ≠ Some []
    ∧ takes_in (nd_store n) (λ e, e ∈ (message_values (sr_msg q)).*1) (nd_store (session_node n p))
    ∧ in_flight (V:=DocRecord) (link_frame q) (link_view q) in_document (some_session st0)
        (pred (rounds_left q)) (negb (sr_to q)) (default [] reply)
        (after (sr_to q) (sr_msg q) p (link_sides s q)).
Proof.
  intros Htell Hq Hnow Hn i. set (d := sr_to q) in *.
  pose proof (ro_flight _ _ Hq) as Hfl. fold d in Hfl.
  assert (i < size) as Hi by apply Hq.
  set (v := λ _ : bool, sync_validate now (doc_ns doc) (doc_peer doc (sr_end q (negb d))) (doc_validator doc i)).
  set (o := λ _ : bool, sync_on_insert (doc_ns doc) (doc_peer doc (sr_end q (negb d))) policy).
  set (c := λ (_ : bool) (_ : Subscribers * World), sync_content_status status).
  pose proof (λ (x : Sess) e c, node_valid doc st0 now i (sr_end q (negb d)) x e c) as Hvalid.
  pose proof (session_frozen (doc_ns doc) (sr_snap q d) (sr_filter q d)) as Hfix.
  assert (∀ e, e ∈ (message_values (sr_msg q)).*1 → U e) as Hmu.
  { intros e He. apply (ro_view _ _ Hq (negb d) e).
    eapply honest_values; [apply (if_honest _ _ _ _ _ _ _ _ (if_flying _ _ _ _ _ _ _ _ Hfl))|done]. }
  destruct (receive_wp SyncConfig_default v o c _ _ in_document Hfix d (live_store st0) eq_refl Hvalid (sr_msg q)
    (node_session (sr_snap q d) (sr_filter q d) n)) as (reply & p & Hrun & Hf' & Hw' & Hne & Han);
    [by split|by apply wrote_session, Hn|apply Hfl|].
  destruct (receive_stocked SyncConfig_default v o c U in_document written_in_document listed_written
    (regular_lists U (wo_regular Hok)) dom_refl dom_trans d (live_store st0) Hvalid eq_refl _ _ Hfix
    (λ e, U e ∧ has (nd_store n) e) (sr_msg q) (node_session (sr_snap q d) (sr_filter q d) n))
    as (reply' & p' & Hrun' & Hst); try done.
  - by intros e [].
  - intros e ct Hin. assert (U e) as He by (apply Hmu, list_elem_of_fmap; by exists (e, ct)).
    split; [done|]. intros s' _ Hs'. apply node_accepts; [done|done|done|apply Hq|done].
  - by apply wrote_session, Hn.
  - by apply holds_live, node_holds.
  - apply Hfl.
  - rewrite Hrun in Hrun'. injection Hrun' as <- <-. exists reply, p. split; [exact Hrun|].
    split; [done|]. split.
    + apply holds_takes_in; [done|]. change (nd_store (session_node n p)) with (si_store (ss_inner p.1)).
      apply (holds_live _ p.1); [apply Hf'|apply Hst].
    + apply (in_flight_after SyncConfig_default eq_refl); [done|done|exact Han|done|done].
Qed.

Lemma takes_in_view st st1 L st' : view st1 = view st → takes_in st1 L st' → takes_in st L st'.
Proof.
  intros Hv (Hn & Hl & Hin & Hback). split; [done|]. split; [|split; [done|]].
  - intros e He Hh. apply Hl; [done|]. by eapply has_view.
  - intros e (x & [[Hx Hh]|Hx] & Hd)%Hback; exists x; (split; [|done]); [left|by right].
    split; [done|]. by apply (has_view st1).
Qed.
Lemma deliver_run s q now : link_tells q → swarm_ok s → running_ok s q → (since <= now)%N →
  let i := sr_end q (sr_to q) in
  ∃ reply r progress p, sync_process_message now (sr_msg q) (doc_peer doc (sr_end q (negb (sr_to q))))
      (sr_filter q (sr_to q)) (node_replica (Some (sr_snap q (sr_to q))) (sw_node s i), sr_progress q (sr_to q))
      = (Ok reply, (r, progress))
    ∧ reply ≠ Some [] ∧ info_ok i (replica_node r)
    ∧ takes_in (nd_store (sw_node s i)) (λ e, e ∈ (message_values (sr_msg q)).*1) (nd_store (replica_node r))
    ∧ in_flight (V:=DocRecord) (link_frame q) (link_view q) in_document (some_session st0)
        (pred (rounds_left q)) (negb (sr_to q)) (default [] reply)
        (after (sr_to q) (sr_msg q) p (link_sides s q)).
Proof.
  intros Htell Hs Hq Hnow i. assert (i < size) as Hi by apply Hq.
  destruct (process_run doc size (wo_capability Hok) now i (sr_end q (negb (sr_to q))) (sr_msg q) (sr_filter q (sr_to q)) (sr_snap q (sr_to q))
    (sw_node s i) (sr_progress q (sr_to q)) Hi (no_inv _ (so_nodes _ Hs i Hi)) (so_infos _ Hs i Hi))
    as (n1 & policy & Hi1 & Hin & Hv & Hrun).
  pose proof (node_ok_view _ _ (so_nodes _ Hs i Hi) Hi1 Hv) as Hn1.
  destruct (receive_run policy (i_content_status_cb (nd_info (sw_node s i))) s q now n1 Htell Hq Hnow Hn1)
    as (reply & p & Hr & Hne & Htakes & Hfl).
  destruct (Hrun reply p Hr) as (r & progress & Hsync & Hnode). exists reply, r, progress, p.
  split; [exact Hsync|]. split; [done|]. rewrite Hnode. split; [|split; [by apply (takes_in_view _ (nd_store n1))|done]].
  apply (info_same doc i (sw_node s i) _ p.2.1); [simpl; by rewrite Hin|by apply Hs].
Qed.

(** ** Steps *)
(** A step of the network as it is: what is written is in [U], and the
    fingerprints of the session whose message arrives tell contents apart. *)
Definition step_ok s (t : SwarmStep) : Prop :=
  step_in_range size t ∧
  match t with
  | SsWrite i created _ key author hash len =>
      ∀ secret, Capability_secret_key (doc_capability doc i) = Ok secret →
        U (SignedEntry_from_parts secret author key {| r_len := len; r_hash := hash; r_timestamp := created |})
  | SsDelete _ _ _ _ _ => False
  | SsRemote _ _ e _ _ => U e
  | SsDeliver l now => (since <= now)%N ∧ ∀ q, sw_links s !! l = Some (LkRunning q) → link_tells q
  | _ => True
  end.
(** Every step of a run is. *)
Fixpoint run_fine s (ts : list SwarmStep) : Prop :=
  match ts with
  | [] => True
  | t :: ts => step_ok s t ∧ run_fine (swarm_step doc t s) ts
  end.
Definition all_learn (s s' : Swarm) : Prop :=
  ∀ i, i < size → learns (nd_store (sw_node s i)) (nd_store (sw_node s' i)).
(** Nothing is had that no node had before. *)
Definition known (s : Swarm) e : Prop := ∃ i x, i < size ∧ U x ∧ has (nd_store (sw_node s i)) x ∧ dom x e.
Definition all_known (s s' : Swarm) : Prop :=
  ∀ i e, i < size → U e → has (nd_store (sw_node s' i)) e → known s e.
Definition merged (s s' : Swarm) : Prop := all_learn s s' ∧ all_known s s'.

Lemma has_known s i e : i < size → U e → has (nd_store (sw_node s i)) e → known s e.
Proof. intros Hi He Hh. exists i, e. split; [done|]. split; [done|]. split; [done|]. by apply dom_refl. Qed.

Lemma update_ok s i n : swarm_ok s → node_ok (nd_store n) → info_ok i n → learns (nd_store (sw_node s i)) (nd_store n) →
  swarm_ok (set_sw_node i n s) ∧ all_learn s (set_sw_node i n s).
Proof.
  intros Hs Hn Hin Hl.
  assert (∀ j, j < size → node_ok (nd_store (sw_node (set_sw_node i n s) j))) as Hn'.
  { intros j Hj. simpl. destruct (decide (j = i)) as [->|Hne]; [by rewrite set_node_eq|].
    rewrite set_node_ne by done. by apply (so_nodes _ Hs). }
  assert (all_learn s (set_sw_node i n s)) as Hl'.
  { intros j Hj. simpl. destruct (decide (j = i)) as [->|Hne]; [by rewrite set_node_eq|by rewrite set_node_ne]. }
  split; [|done]. split; [done| | |apply Hs].
  { intros j Hj. simpl. destruct (decide (j = i)) as [->|Hne]; [by rewrite set_node_eq|].
    rewrite set_node_ne by done. by apply (so_infos _ Hs). }
  intros l q Hq. apply (link_mono s); [done|done|by eapply so_links].
Qed.
(** A session depends on the stores only. *)
Lemma link_stores s s' l : swarm_ok s → sw_node s' = sw_node s → link_ok s l → link_ok s' l.
Proof. intros Hs Heq. apply link_mono; intros i Hi; rewrite Heq; [by apply Hs|done]. Qed.
Lemma update_merged s i n : swarm_ok s → node_ok (nd_store n) → info_ok i n → learns (nd_store (sw_node s i)) (nd_store n) →
  (∀ e, U e → has (nd_store n) e → known s e) → swarm_ok (set_sw_node i n s) ∧ merged s (set_sw_node i n s).
Proof.
  intros Hs Hn Hin Hl Hk. destruct (update_ok s i n Hs Hn Hin Hl) as [Hs' Hl']. split; [done|]. split; [done|].
  intros j e Hj He. simpl. destruct (decide (j = i)) as [->|Hne]; [rewrite set_node_eq; by apply Hk|].
  rewrite set_node_ne by done. by apply has_known.
Qed.
Lemma links_ok s s' : swarm_ok s → sw_node s' = sw_node s →
  (∀ l q, sw_links s' !! l = Some q → link_ok s q ∧ l < sw_next s') → swarm_ok s'.
Proof.
  intros Hs Heq Hq. split; [rewrite Heq; apply Hs..| |]; intros l q Hl; [|by apply (Hq l q)].
  apply (link_stores s); [done|done|by apply (Hq l)].
Qed.
Lemma delete_ok s s' l : swarm_ok s → sw_node s' = sw_node s → sw_links s' = delete l (sw_links s) →
  sw_next s' = sw_next s → swarm_ok s'.
Proof.
  intros Hs Heq Hls Hn. apply (links_ok s); [done|done|]. intros l' q Hq. rewrite Hls in Hq.
  apply lookup_delete_Some in Hq as [_ Hq]. rewrite Hn. split; [by apply (so_links _ Hs l')|by apply (so_next _ Hs l' q)].
Qed.
Lemma insert_ok s s' l q : swarm_ok s → sw_node s' = sw_node s → sw_links s' = <[l := q]> (sw_links s) →
  l < sw_next s' → sw_next s ≤ sw_next s' → link_ok s q → swarm_ok s'.
Proof.
  intros Hs Heq Hls Hl Hn Hq. apply (links_ok s); [done|done|]. intros l' q' Hq'. rewrite Hls in Hq'.
  apply lookup_insert_Some in Hq' as [[<- <-]|[_ Hq']]; [done|].
  split; [by apply (so_links _ Hs l')|]. pose proof (so_next _ Hs l' q' Hq'). lia.
Qed.
Lemma snapshot_update s i : swarm_ok s → i < size → ∃ n, node_snapshot (sw_node s i) = (Ok (view (nd_store (sw_node s i))), n)
  ∧ view (nd_store n) = view (nd_store (sw_node s i))
  ∧ swarm_ok (set_sw_node i n s) ∧ merged s (set_sw_node i n s).
Proof.
  intros Hs Hi. destruct (snapshot_run (sw_node s i) (so_nodes _ Hs i Hi)) as (n & Hr & Hn & Hv & Hin).
  exists n. split; [done|]. split; [done|]. apply update_merged; [done|done| |intros e _; by apply has_view|].
  { by apply (info_eq doc i (sw_node s i)); [|apply (so_infos _ Hs)]. }
  intros e He Hh. apply (has_known s i); [done|done|]. by eapply has_view.
Qed.

(** The network is one in which sessions end. *)
Lemma swarm_network s : swarm_ok s → network_fine doc size st0 s.
Proof.
  intros Hs. split; [apply nodes_inv, Hs|apply Hs| |apply Hs]. intros l [q|q] Hl; pose proof (so_links _ Hs l _ Hl) as Hq.
  - split; apply Hq.
  - split; [apply Hq|apply if_flying, Hq|apply Hq].
Qed.

(** A node after [e] was or was not put into its store. *)
Lemma written_step s i e r' : swarm_ok s → i < size → U e → entry_written e (node_replica None (sw_node s i)) r' →
  swarm_ok (set_sw_node i (replica_node r') s) ∧ all_learn s (set_sw_node i (replica_node r') s).
Proof.
  intros Hs Hi He Hw. set (n := sw_node s i) in *. pose proof (so_infos _ Hs i Hi) as Hin. fold n in Hin.
  pose proof (so_nodes _ Hs i Hi) as Hn. fold n in Hn.
  destruct (written_node doc size i e n None r' Hi Hin Hw) as [Hinv Hinfo].
  assert (takes_in (nd_store n) (λ x, x = e) (nd_store (replica_node r'))
    ∨ node_ok (nd_store (replica_node r')) ∧ learns (nd_store n) (nd_store (replica_node r'))) as Ht.
  { destruct (ew_view _ _ _ Hw) as [Hv|[Hsup Hp]]; [right|left].
    - change (view (nd_store (replica_node r')) = view (nd_store n)) in Hv.
      split; [by apply (node_ok_view (nd_store n))|]. intros x _. by apply has_view.
    - by apply put_takes_in. }
  destruct Ht as [(? & ? & _)|[? ?]]; by apply update_ok.
Qed.
Lemma same_step s i : swarm_ok s → i < size →
  let s' := set_sw_node i (replica_node (node_replica None (sw_node s i))) s in swarm_ok s' ∧ all_learn s s'.
Proof.
  intros Hs Hi. apply update_ok; [done|by apply Hs|by apply (info_eq doc i (sw_node s i)); [|apply (so_infos _ Hs)]|done].
Qed.
Lemma node_wf s i : swarm_ok s → i < size → replica_wf (node_replica None (sw_node s i)).
Proof. intros Hs Hi. apply (replica_inv doc size (wo_capability Hok) i); [done|by apply Hs..]. Qed.

Lemma write_step s i created now key author hash len : swarm_ok s → step_ok s (SsWrite i created now key author hash len) →
  swarm_ok (swarm_write i created now key author hash len s) ∧ all_learn s (swarm_write i created now key author hash len s).
Proof.
  intros Hs [Hi Hu]. unfold swarm_write.
  destruct (insert_written created now key author hash len _ (node_wf s i Hs Hi)) as [->|(secret & Hsec & Hw)];
    [by apply same_step|].
  eapply (written_step s i); [done|done| |exact Hw]. apply Hu. unfold replica_secret_key in Hsec. simpl in Hsec.
  by rewrite (in_capability _ _ _ (so_infos _ Hs i Hi)) in Hsec.
Qed.
Lemma remote_step s i now e from status : swarm_ok s → step_ok s (SsRemote i now e from status) →
  swarm_ok (swarm_remote i now e from status s) ∧ all_learn s (swarm_remote i now e from status s).
Proof.
  intros Hs [Hi He]. unfold swarm_remote.
  destruct (insert_remote_written now e from status _ (node_wf s i Hs Hi)) as [->|Hw]; [by apply same_step|].
  by apply (written_step s i e).
Qed.

(** The first message of a session. *)
Lemma open_run i snap f n : i < size → node_ok (nd_store n) → info_ok i n →
  ∃ k r, sync_initial_message f (node_replica (Some snap) n) =
      (Ok [MpFingerprint (Build_RangeFingerprint (Build_Range k k)
         (range_fingerprint (loc (session_view (doc_ns doc) snap f) (Build_Range k k))))], r)
    ∧ node_ok (nd_store (replica_node r)) ∧ info_ok i (replica_node r)
    ∧ learns (nd_store n) (nd_store (replica_node r))
    ∧ ∀ e, has (nd_store (replica_node r)) e → ∃ x, (U x ∧ has (nd_store n) x) ∧ dom x e.
Proof.
  intros Hi Hn Hin.
  destruct (open_session doc size (wo_capability Hok) st0 i snap f n Hi (no_inv _ Hn) Hin) as (k & s' & Hr & Hf & Hsame).
  eexists k, _. split; [exact Hr|].
  assert (Converge.holds (V:=DocRecord) in_document (λ e, U e ∧ has (nd_store n) e)
    (live_store (si_store (ss_inner s')))) as Hh.
  { apply (holds_live _ s'); [apply Hf|]. eapply holds_same; [exact Hsame|].
    by apply (holds_live _ (node_session snap f n).1), node_holds. }
  destruct (holds_node _ _ (λ e He, proj1 He) Hh) as (Hn' & Hhas & Hback). split; [exact Hn'|].
  split; [by apply (info_eq doc i n)|]. split; [|exact Hback]. intros e He Hhe. by apply Hhas.
Qed.

Lemma dial_step s i j f : swarm_ok s → i < size → j < size →
  swarm_ok (swarm_dial i j f s) ∧ merged s (swarm_dial i j f s)
  ∧ ∃ q, sw_links (swarm_dial i j f s) = <[sw_next s := LkDialed q]> (sw_links s)
      ∧ sd_from q = i ∧ sd_to q = j ∧ sd_filter q = f ∧ sd_since q = sw_time s
      ∧ sd_snap q = view (nd_store (sw_node s i)) ∧ sw_done (swarm_dial i j f s) = sw_done s.
Proof.
  intros Hs Hi Hj. unfold swarm_dial.
  destruct (snapshot_run (sw_node s i) (so_nodes _ Hs i Hi)) as (n & -> & Hn & Hv & Hin).
  assert (info_ok i n) as Hin' by (by apply (info_eq doc i (sw_node s i)); [|apply (so_infos _ Hs)]).
  destruct (open_run i (view (nd_store (sw_node s i))) f n Hi Hn Hin') as (k & r & -> & Hnp & Hinp & Hlp & Hback).
  assert (learns (nd_store (sw_node s i)) (nd_store (replica_node r))) as Hl.
  { intros e He Hh. apply Hlp; [done|]. by eapply has_view. }
  destruct (update_merged s i (replica_node r) Hs Hnp Hinp Hl) as [Hs' Hl'].
  { intros e He (x & [Hx Hh] & Hd)%Hback. exists i, x. split; [done|]. split; [done|]. split; [by eapply has_view|done]. }
  split; [|split; [exact Hl'|eexists; split; [reflexivity|done]]].
  eapply (insert_ok (set_sw_node i (replica_node r) s)); [done|done|reflexivity|simpl; lia..|]. split; simpl; [done|done| |by exists k].
  intros e He. rewrite set_node_eq. destruct (session_view_has _ _ _ (so_nodes _ Hs i Hi) He) as [Hu Hh].
  split; [done|]. by apply Hl.
Qed.

Lemma accept_step s l f q : swarm_ok s → sw_links s !! l = Some (LkDialed q) →
  swarm_ok (swarm_accept l f s) ∧ merged s (swarm_accept l f s)
  ∧ ∃ q', sw_links (swarm_accept l f s) = <[l := LkRunning q']> (sw_links s)
      ∧ (∀ d, sr_end q' d = if d then sd_from q else sd_to q)
      ∧ (∀ d, sr_filter q' d = if d then sd_filter q else f)
      ∧ (∀ d, sr_since q' d = if d then sd_since q else sw_time s)
      ∧ (∀ d, sr_snap q' d = if d then sd_snap q else view (nd_store (sw_node s (sd_to q))))
      ∧ sw_done (swarm_accept l f s) = sw_done s.
Proof.
  intros Hs Hq. pose proof (so_links _ Hs _ _ Hq) as Hqok. simpl in Hqok.
  destruct (snapshot_update s (sd_to q) Hs (di_to _ _ Hqok)) as (n & Hr & Hv & Hs' & Hl).
  unfold swarm_accept. rewrite Hq, Hr.
  split; [|split; [exact Hl|eexists; split; [reflexivity|done]]].
  eapply (insert_ok (set_sw_node (sd_to q) n s)); [done|done|reflexivity|by apply (so_next _ Hs l _ Hq)|done|].
  set (s' := set_sw_node (sd_to q) n s) in *. set (q' := Build_Running _ _ _ _ _ _ _ _ _).
  pose proof (link_mono s s' (LkDialed q) (so_nodes _ Hs') (proj1 Hl) Hqok) as Hq'. simpl in Hq'.
  assert (∀ d, sr_end q' d < size) as Hends by (intros []; apply Hqok).
  destruct (di_init _ _ Hq') as [k Hinit]. split; [done| |simpl; by rewrite Hinit| |by intros d e ?%elem_of_nil].
  - unfold rounds_left. simpl sr_rounds. rewrite Nat.sub_0_r. simpl sr_msg. simpl sr_to. rewrite Hinit.
    apply (opened_session doc size st0 s' q' k); [done|by apply nodes_inv, Hs'|done].
  - intros [] e He; [by apply (di_view _ _ Hq')|]. simpl sr_end.
    destruct (session_view_has (nd_store (sw_node s (sd_to q))) f e) as [Hu Hh];
      [apply Hs, Hqok|done|]. split; [done|]. by apply (proj1 Hl); [apply Hqok| |].
Qed.

Lemma has_dom st e e' : node_ok st → U e → U e' → has st e → dom e e' → has st e'.
Proof.
  intros Hn He He' (x & Hk & Hx & Hd) Hd'. exists x. split; [done|]. split; [done|].
  by apply (dom_trans x e e'); [apply (no_sound _ Hn _ _ Hk Hx)| | | |].
Qed.

Lemma next_got q progress reply d e : e ∈ (sr_got (next_running q progress reply) d).*1 ↔
  e ∈ (sr_got q d).*1 ∨ d = sr_to q ∧ e ∈ (message_values (sr_msg q)).*1.
Proof.
  simpl. destruct (Bool.eqb_spec d (sr_to q)) as [-> | Hne]; [|naive_solver].
  rewrite fmap_app, elem_of_app. naive_solver.
Qed.

(** What a session that has ended leaves on a side. *)
Lemma delivered_has s (σ : Sides (W:=Subscribers * World)) q d : swarm_ok s → running_ok s q →
  delivered (V:=DocRecord) (link_frame q) (link_view q) (some_session st0) σ →
  (∀ e, e ∈ received d σ → has (nd_store (sw_node s (sr_end q d))) e) →
  ∀ e, e ∈ link_view q (negb d) → has (nd_store (sw_node s (sr_end q d))) e.
Proof.
  intros Hs Hq Hdel Hgot e He. pose proof (ro_view _ _ Hq (negb d) e He) as [Hu _].
  destruct (dl_settled _ _ _ _ Hdel d e He) as [Hr|(e' & He' & Hk & Hle)]; [by apply Hgot|].
  destruct (ro_view _ _ Hq d e' He') as [Hu' Hh]. apply (has_dom _ e' e); [apply Hs, Hq|done|done|done|].
  split; [|done]. rewrite Hk. by apply (covers_refl U (wo_regular Hok)).
Qed.

Lemma deliver_step s l q now : swarm_ok s → sw_links s !! l = Some (LkRunning q) → step_ok s (SsDeliver l now) →
  let s' := swarm_deliver doc l now s in
  swarm_ok s' ∧ merged s s'
  ∧ ((∃ progress reply, sw_links s' = <[l := LkRunning (next_running q progress reply)]> (sw_links s)
        ∧ sw_done s' = sw_done s)
     ∨ sw_links s' = delete l (sw_links s)
       ∧ sw_done s' = sw_done s ++ [done_of q (S (sw_time s)) true; done_of q (S (sw_time s)) false]
       ∧ ∀ d e, e ∈ link_view q (negb d) → has (nd_store (sw_node s' (sr_end q d))) e).
Proof.
  intros Hs Hl (_ & Hnow & Htell). pose proof (so_links _ Hs _ _ Hl) as Hq. simpl in Hq.
  destruct (deliver_run s q now (Htell q Hl) Hs Hq Hnow) as (reply & r & progress & p & Hr & Hne & Hinfo & (Hn & Hle & Hin & Hback) & Hfl).
  set (i := sr_end q (sr_to q)) in *.
  assert (∀ e, e ∈ (message_values (sr_msg q)).*1 → e ∈ link_view q (negb (sr_to q))) as Hmv.
  { intros e. apply honest_values, (if_honest _ _ _ _ _ _ _ _ (if_flying _ _ _ _ _ _ _ _ (ro_flight _ _ Hq))). }
  destruct (update_merged s i (replica_node r) Hs Hn Hinfo Hle) as [Hs1 Hl1].
  { intros e He (x & [[Hx Hh]|Hx%Hmv] & Hd)%Hback; [by exists i, x; split; [apply Hq|]|].
    destruct (ro_view _ _ Hq _ x Hx) as [Hu Hh]. exists (sr_end q (negb (sr_to q))), x. by split; [apply Hq|]. }
  set (s1 := set_sw_node i (replica_node r) s) in *.
  assert (∀ d e, e ∈ (sr_got (next_running q progress (default [] reply)) d).*1 → has (nd_store (sw_node s1 (sr_end q d))) e) as Hgot.
  { intros d e [He|[-> He]]%next_got; [|simpl; fold i; rewrite set_node_eq; by apply Hin].
    apply (proj1 Hl1); [apply Hq| |by apply (ro_got _ _ Hq)]. apply (ro_view _ _ Hq (negb d)).
    apply (if_sound _ _ _ _ _ _ _ _ (if_flying _ _ _ _ _ _ _ _ (ro_flight _ _ Hq))). unfold received. by rewrite link_side. }
  pose proof (link_mono s s1 (LkRunning q) (so_nodes _ Hs1) (proj1 Hl1) Hq) as Hq1. simpl in Hq1.
  unfold swarm_deliver. rewrite Hl. fold i. rewrite Hr. fold s1. destruct reply as [reply|]; simpl default in *.
  - split; [|split; [exact Hl1|left; by exists progress, reply]].
    eapply (insert_ok s1); [done|done|reflexivity|by apply (so_next _ Hs l _ Hl)|done|]. split; [apply Hq| |by intros Heq; simpl in Heq; subst|apply Hq1|exact Hgot].
    replace (rounds_left (next_running q progress reply)) with (pred (rounds_left q))
      by (unfold rounds_left; simpl sr_rounds; change (link_view (next_running q progress reply)) with (link_view q); lia).
    eapply flight_ext; [exact Hfl| | |intros d; apply next_received]; intros d;
      by apply (link_ready doc size st0 s1); [apply Hq|apply nodes_inv, Hs1].
  - split; [|split; [exact Hl1|right; split; [done|split; [done|]]]].
    + by eapply (delete_ok s1).
    + intros d. apply in_flight_done in Hfl. apply (delivered_has s1 _ q d Hs1 Hq1 Hfl).
      intros e He. apply Hgot. rewrite <- (next_received doc s s1 q p progress []) in He. unfold received in He. by rewrite link_side in He.
Qed.

(** *** Any step *)
Lemma merged_same s s' : swarm_ok s → sw_node s' = sw_node s → merged s s'.
Proof.
  intros Hs Heq. split; [by intros i Hi e He; rewrite Heq|]. intros i e Hi He. rewrite Heq. by apply has_known.
Qed.
Definition writes (t : SwarmStep) : bool :=
  match t with SsWrite _ _ _ _ _ _ _ | SsDelete _ _ _ _ _ | SsRemote _ _ _ _ _ => true | _ => false end.

Lemma tick_ok s0 s : swarm_ok s → (swarm_ok s → merged s0 s) → swarm_ok (tick s) ∧ merged s0 (tick s).
Proof.
  intros Hs Hm. specialize (Hm Hs). split; [|exact Hm]. apply (links_ok s); [done|done|].
  intros l q Hq. split; [by apply (so_links _ Hs l)|by apply (so_next _ Hs l q)].
Qed.
Lemma unwritten_step s t : swarm_ok s → step_ok s t → writes t = false →
  swarm_ok (swarm_step doc t s) ∧ merged s (swarm_step doc t s).
Proof.
  intros Hs Ht Hw. assert (swarm_ok s ∧ merged s s) as Hsame by (split; [done|by apply merged_same]).
  unfold swarm_step. destruct t as [| | |i j f|l f|l now|l]; [done..| | | |].
  - destruct (dial_step s i j f Hs) as (Hs' & Hm & _); [apply Ht..|]. by apply tick_ok.
  - assert (swarm_ok (swarm_accept l f s) ∧ merged s (swarm_accept l f s)) as [? ?]; [|by apply tick_ok].
    destruct (sw_links s !! l) as [[q|q]|] eqn:Hl; [|by unfold swarm_accept; rewrite Hl..].
    by destruct (accept_step s l f q Hs Hl) as (? & ? & _).
  - assert (swarm_ok (swarm_deliver doc l now s) ∧ merged s (swarm_deliver doc l now s)) as [? ?]; [|by apply tick_ok].
    destruct (sw_links s !! l) as [[q|q]|] eqn:Hl; [by unfold swarm_deliver; rewrite Hl| |by unfold swarm_deliver; rewrite Hl].
    by destruct (deliver_step s l q now Hs Hl Ht) as (? & ? & _).
  - apply tick_ok; [by eapply (delete_ok s)|]. intros _. by apply merged_same.
Qed.
Lemma any_step s t : swarm_ok s → step_ok s t →
  swarm_ok (swarm_step doc t s) ∧ all_learn s (swarm_step doc t s).
Proof.
  intros Hs Ht. destruct (writes t) eqn:Hw; [|by destruct (unwritten_step s t Hs Ht Hw) as (? & ? & _)].
  assert (∀ s', swarm_ok s' ∧ all_learn s s' → swarm_ok (tick s') ∧ all_learn s (tick s')) as Htick.
  { intros s' [Hs' Hl]. split; [|exact Hl]. by apply (tick_ok s'); [|intros _; apply merged_same]. }
  destruct t; try done; apply Htick; [by apply write_step|by destruct Ht|by apply remote_step].
Qed.

Lemma run_fine_app s ts ts' : run_fine s (ts ++ ts') ↔ run_fine s ts ∧ run_fine (swarm_run doc ts s) ts'.
Proof.
  induction ts as [|t ts IH] in s |- *; simpl; [tauto|]. rewrite IH. simpl. tauto.
Qed.
Lemma run_fine_snoc s ts t : run_fine s (ts ++ [t]) ↔ run_fine s ts ∧ step_ok (swarm_run doc ts s) t.
Proof. rewrite run_fine_app. simpl. tauto. Qed.
Lemma run_fine_take s ts n : run_fine s ts → run_fine s (take n ts).
Proof. rewrite <- (take_drop n ts) at 1. rewrite run_fine_app. by intros []. Qed.
Lemma run_fine_range s ts : run_fine s ts → Forall (step_in_range size) ts.
Proof.
  induction ts as [|t ts IH] in s |- *; [constructor|]. intros [[Ht _] Hts]. constructor; [done|by eapply IH].
Qed.

Lemma run_ok ts s : swarm_ok s → run_fine s ts → swarm_ok (swarm_run doc ts s) ∧ all_learn s (swarm_run doc ts s).
Proof.
  intros Hs. induction ts as [|t ts IH] using rev_ind; [intros _; split; [done|by intros i Hi e He]|].
  intros [Hts Ht]%run_fine_snoc. rewrite run_snoc. destruct IH as [Hr Hl]; [done|].
  destruct (any_step _ t Hr Ht) as [Hr' Hl']. split; [done|].
  intros i Hi. etrans; [by apply Hl|by apply Hl'].
Qed.

Lemma known_trans s s' e : swarm_ok s → all_known s s' → U e → known s' e → known s e.
Proof.
  intros Hs Hk He (i & x & Hi & Hx & Hh & Hd). destruct (Hk i x Hi Hx Hh) as (j & y & Hj & Hy & Hhy & Hdy).
  exists j, y. split; [done|]. split; [done|]. split; [done|]. by apply (dom_trans y x e).
Qed.
Lemma unwritten_run ts s : swarm_ok s → run_fine s ts → Forall (λ t, writes t = false) ts →
  all_known s (swarm_run doc ts s).
Proof.
  intros Hs. induction ts as [|t ts IH] using rev_ind; [intros _ _ i e; apply has_known|].
  intros [Hts Ht]%run_fine_snoc [Hws Hw]%Forall_app. apply Forall_inv in Hw. rewrite run_snoc.
  destruct (run_ok ts s Hs Hts) as [Hr _]. destruct (unwritten_step _ t Hr Ht Hw) as (_ & _ & Hk).
  intros i e Hi He Hh. apply (known_trans s (swarm_run doc ts s)); [done|by apply IH|done|by apply (Hk i)].
Qed.

(** ** What a session leaves *)

(** When a session has ended, both sides have what the other showed. *)
Lemma session_leaves ts : ∀ s l q, swarm_ok s → run_fine s ts → sw_links s !! l = Some (LkRunning q) →
  Forall (λ t, drops l t = false) ts → rounds_left q ≤ length (List.filter (delivers l) ts) →
  ∀ d e, e ∈ link_view q (negb d) → has (nd_store (sw_node (swarm_run doc ts s) (sr_end q d))) e.
Proof.
  induction ts as [|t ts IH]; intros s l q Hs Hok' Hl Hdrop Hleft; simpl in Hleft.
  { pose proof (running_left doc size st0 s q (nf_links _ _ _ _ (swarm_network s Hs) _ _ Hl)). lia. }
  apply Forall_cons in Hdrop as [Hx Hxs]. destruct Hok' as [Ht Hts].
  destruct (any_step s t Hs Ht) as [Hs' _]. change (swarm_run doc (t :: ts) s) with (swarm_run doc ts (swarm_step doc t s)).
  destruct (delivers l t) eqn:Hd.
  - destruct t as [| | | | |l' now|]; try done. apply Nat.eqb_eq in Hd as ->. simpl in Hleft.
    destruct (deliver_step s l q now Hs Hl Ht) as (_ & _ & [(progress & reply & Hls & _)|(_ & Hlog & Hhas)]).
    + apply (IH (swarm_step doc (SsDeliver l now) s) l (next_running q progress reply) Hs' Hts); [|done|].
      * simpl. by rewrite Hls, lookup_insert_eq.
      * unfold rounds_left in *. change (link_view (next_running q progress reply)) with (link_view q). simpl. lia.
    + intros d e He. pose proof (so_links _ Hs _ _ Hl) as Hq. simpl in Hq.
      destruct (run_ok ts _ Hs' Hts) as [_ Hle]. apply Hle; [apply Hq|by apply (ro_view _ _ Hq (negb d))|by apply Hhas].
  - apply (IH (swarm_step doc t s) l q); [done|done| |done|done].
    by apply (other_step doc size (wo_capability Hok) st0); [apply swarm_network|apply Ht|..].
Qed.

(** ** What has happened *)
Record starts (s : Swarm) : Prop := {
  st_nodes : ∀ i, i < size → node_ok (nd_store (sw_node s i));
  st_infos : ∀ i, i < size → info_ok i (sw_node s i);
  st_links : sw_links s = ∅;
  st_time : sw_time s = 0;
  st_done : sw_done s = [];
}.
Lemma starts_ok s : starts s → swarm_ok s.
Proof. intros Hs. split; [apply Hs|apply Hs| |]; intros l q; by rewrite (st_links _ Hs), lookup_empty. Qed.

Lemma network_session_leaves s0 ts ts' l q : starts s0 → run_fine s0 (ts ++ ts') →
  sw_links (swarm_run doc ts s0) !! l = Some (LkRunning q) → Forall (λ t, drops l t = false) ts' →
  length (link_view q true) + length (link_view q false) + 4 ≤ sr_rounds q + length (List.filter (delivers l) ts') →
  ∀ d e, e ∈ link_view q (negb d) → has (nd_store (sw_node (swarm_run doc (ts ++ ts') s0) (sr_end q d))) e.
Proof.
  intros Hst [Hts Hts']%run_fine_app Hl Hdrop Hn. destruct (run_ok ts s0 (starts_ok s0 Hst) Hts) as [Hs _].
  rewrite run_app. apply (session_leaves ts' _ l q Hs Hts' Hl Hdrop). unfold rounds_left, enough_fuel. lia.
Qed.

Section history.
Context (s0 : Swarm) (Hstart : starts s0).

Definition at_time (ts : list SwarmStep) (time i : nat) : Store :=
  nd_store (sw_node (swarm_run doc (take time ts) s0) i).
(** A side of a session, opened at node [i] at [time]. *)
Definition opened ts i time snap (f : option EntryFilter) : Prop :=
  i < size ∧ time ≤ length ts ∧ (f = None → shows_all (at_time ts time i) snap).
Definition link_history ts (l : Link) : Prop :=
  match l with
  | LkDialed q => opened ts (sd_from q) (sd_since q) (sd_snap q) (sd_filter q)
  | LkRunning q => ∀ d, opened ts (sr_end q d) (sr_since q d) (sr_snap q d) (sr_filter q d)
  end.
Record done_history ts (x : Done) : Prop := {
  dh_from : dn_from x < size;
  dh_to : dn_to x < size;
  dh_since : dn_since x ≤ dn_end x;
  dh_end : dn_end x ≤ length ts;
  dh_learns : dn_filter x = None → learns (at_time ts (dn_since x) (dn_from x)) (at_time ts (dn_end x) (dn_to x));
}.
Record history ts : Prop := {
  hi_time : sw_time (swarm_run doc ts s0) = length ts;
  hi_links : ∀ l q, sw_links (swarm_run doc ts s0) !! l = Some q → link_history ts q;
  hi_done : ∀ x : Done, x ∈ sw_done (swarm_run doc ts s0) → done_history ts x;
}.

Lemma at_time_snoc ts t time i : time ≤ length ts → at_time (ts ++ [t]) time i = at_time ts time i.
Proof. intros Hle. unfold at_time. by rewrite take_app_le. Qed.
Lemma at_time_now ts i : at_time ts (length ts) i = nd_store (sw_node (swarm_run doc ts s0) i).
Proof. unfold at_time. by rewrite firstn_all. Qed.
Lemma opened_snoc ts t i time snap f : opened ts i time snap f → opened (ts ++ [t]) i time snap f.
Proof.
  intros (Hi & Hle & Hall). split; [done|]. split; [rewrite length_app; lia|]. by rewrite at_time_snoc.
Qed.
Lemma link_history_snoc ts t l : link_history ts l → link_history (ts ++ [t]) l.
Proof. destruct l; simpl; intros Hl; [|intros d]; by apply opened_snoc. Qed.
Lemma done_history_snoc ts t (x : Done) : done_history ts x → done_history (ts ++ [t]) x.
Proof.
  intros [? ? ? Hend Hl]. split; [done|done|done|rewrite length_app; lia|].
  rewrite !at_time_snoc by lia. exact Hl.
Qed.
Lemma opened_now ts i f : swarm_ok (swarm_run doc ts s0) → sw_time (swarm_run doc ts s0) = length ts → i < size →
  opened ts i (sw_time (swarm_run doc ts s0)) (view (nd_store (sw_node (swarm_run doc ts s0) i))) f.
Proof.
  intros Hs -> Hi. split; [done|]. split; [done|]. intros _. rewrite at_time_now. by apply session_view_all, Hs.
Qed.

(** What a step changes of the sessions and of the log. *)
Lemma step_time s t : sw_time (swarm_step doc t s) = S (sw_time s).
Proof.
  unfold swarm_step. simpl. f_equal. destruct t; try done; simpl.
  - unfold swarm_dial. destruct (node_snapshot _) as [[snap| |] n]; [|done..].
    by destruct (sync_initial_message _ _) as [[m| |] r].
  - unfold swarm_accept. destruct (sw_links s !! l) as [[q|q]|]; [|done..].
    by destruct (node_snapshot _) as [[snap| |] n].
  - unfold swarm_deliver. destruct (sw_links s !! l) as [[q|q]|]; [done| |done].
    by destruct (sync_process_message _ _ _ _ _) as [[[reply|]| |] [r progress]].
Qed.
Lemma session_learns s' q d time st : running_ok s' q → swarm_ok s' →
  (sr_filter q (negb d) = None → shows_all st (sr_snap q (negb d))) →
  (∀ e, e ∈ link_view q (negb d) → has (nd_store (sw_node s' (sr_end q d))) e) →
  dn_filter (done_of q time d) = None → learns st (nd_store (sw_node s' (sr_end q d))).
Proof.
  intros Hq Hs Hall Hhas Hf e He Hh. simpl in Hf. destruct (Hall Hf e Hh) as (x & Hx & Hd).
  assert (x ∈ link_view q (negb d)) as Hv by (unfold link_view; by rewrite Hf).
  apply (has_dom _ x e); [apply Hs, Hq|by apply (ro_view _ _ Hq (negb d))|done|by apply Hhas|done].
Qed.

Lemma history_more ts t : history ts → let s := swarm_run doc ts s0 in let s' := swarm_step doc t s in
  (∀ l q, sw_links s' !! l = Some q → sw_links s !! l = Some q ∨ link_history (ts ++ [t]) q) →
  (∀ x : Done, x ∈ sw_done s' → x ∈ sw_done s ∨ done_history (ts ++ [t]) x) → history (ts ++ [t]).
Proof.
  intros [Htime Hlinks Hdone] s s' Hl Hd. split; rewrite run_snoc.
  - rewrite step_time, Htime, length_app. simpl. lia.
  - intros l q [Hq|?]%Hl; [|done]. by apply link_history_snoc, (Hlinks l).
  - intros x [Hx|?]%Hd; [|done]. by apply done_history_snoc, Hdone.
Qed.
Lemma history_accept ts l f : swarm_ok (swarm_run doc ts s0) → history ts → history (ts ++ [SsAccept l f]).
Proof.
  intros Hs Hh. apply history_more; [done|..]; unfold swarm_step;
    (destruct (sw_links (swarm_run doc ts s0) !! l) as [[q|q]|] eqn:Hl;
      [destruct (accept_step _ l f q Hs Hl) as (_ & _ & q' & Hls & Hend & Hfil & Hsin & Hsnap & Hlog)
      |unfold swarm_accept; rewrite Hl; by left..]).
  - simpl. rewrite Hls. intros l' q0 [[_ <-]|[_ ?]]%lookup_insert_Some; [|by left]. right. intros d.
    rewrite Hend, Hfil, Hsin, Hsnap. pose proof (so_links _ Hs _ _ Hl) as Hq. simpl in Hq.
    destruct d; [by apply opened_snoc, (hi_links _ Hh l (LkDialed q))|].
    apply opened_snoc, opened_now; [done|apply Hh|apply Hq].
  - simpl. rewrite Hlog. by left.
Qed.
Lemma history_deliver ts l now : swarm_ok (swarm_run doc ts s0) → step_ok (swarm_run doc ts s0) (SsDeliver l now) → history ts →
  history (ts ++ [SsDeliver l now]).
Proof.
  intros Hs Hnow Hh. set (s := swarm_run doc ts s0) in *.
  assert ((∃ q, sw_links s !! l = Some (LkRunning q)) ∨ swarm_deliver doc l now s = s) as [[q Hl]|Hno].
  { unfold swarm_deliver. destruct (sw_links s !! l) as [[q|q]|]; eauto. }
  2: { apply history_more; [done|..]; fold s; unfold swarm_step; rewrite Hno; by left. }
  pose proof (hi_links _ Hh l _ Hl) as Hq. simpl in Hq.
  destruct (deliver_step s l q now Hs Hl Hnow) as (Hs' & [Hle _] & [(progress & reply & Hls & Hlog)|(Hls & Hlog & Hhas)]);
    apply history_more; try done; fold s; simpl; rewrite ?Hls, ?Hlog.
  - intros l' q' [[_ <-]|[_ ?]]%lookup_insert_Some; [right|by left]. intros d. apply opened_snoc, Hq.
  - by left.
  - intros l' q' [_ ?]%lookup_delete_Some. by left.
  - intros x [?|Hx]%elem_of_app; [by left|right].
    assert (∃ d, x = done_of q (S (sw_time s)) d) as [d ->] by set_solver.
    destruct (Hq d) as (Hi & Hsi & _), (Hq (negb d)) as (Hi' & Hsi' & Hall).
    assert (S (sw_time s) = length (ts ++ [SsDeliver l now])) as Heq
      by (unfold s; rewrite (hi_time _ Hh), length_app; simpl; lia).
    split; [exact Hi'|exact Hi|simpl; rewrite Heq, length_app; simpl; lia|simpl; lia|].
    intros Hf. simpl dn_end. rewrite Heq, at_time_now, run_snoc. simpl dn_since. rewrite at_time_snoc by done.
    pose proof (link_mono s _ (LkRunning q) (so_nodes _ Hs') Hle (so_links _ Hs _ _ Hl)) as Hq'.
    exact (session_learns _ q d (S (sw_time s)) _ Hq' Hs' Hall (Hhas d) Hf).
Qed.
Lemma history_step ts t : swarm_ok (swarm_run doc ts s0) → step_ok (swarm_run doc ts s0) t → history ts → history (ts ++ [t]).
Proof.
  intros Hs Ht Hh. destruct t as [| | |i j f|l f|l now|l].
  1-3: by apply history_more; [done|..]; left.
  - destruct Ht as [[Hi Hj] _]. destruct (dial_step _ i j f Hs Hi Hj) as (_ & _ & q & Hls & Hfrom & _ & Hfil & Hsin & Hsnap & Hlog).
    apply history_more; [done|..]; simpl; rewrite ?Hls, ?Hlog; [|by left].
    intros l q' [[_ <-]|[_ ?]]%lookup_insert_Some; [right|by left]. simpl. rewrite Hfrom, Hfil, Hsin, Hsnap.
    apply opened_snoc, opened_now; [done|apply Hh|done].
  - by apply history_accept.
  - by apply history_deliver.
  - apply history_more; [done|..]; simpl; [|by left]. intros l' q [_ ?]%lookup_delete_Some. by left.
Qed.
Lemma run_history ts : run_fine s0 ts → history ts.
Proof.
  induction ts as [|t ts IH] using rev_ind.
  - intros _. split; simpl; [apply Hstart|intros l q|intros x]; rewrite ?(st_links _ Hstart), ?(st_done _ Hstart);
      [by rewrite lookup_empty|by intros ?%elem_of_nil].
  - intros [Hts Ht]%run_fine_snoc. apply history_step; [|done|by apply IH].
    by apply run_ok; [apply starts_ok|].
Qed.

(** ** Hearing of each other

    A node at a time has heard of another at an earlier time if completed
    sessions lead from one to the other. *)
Inductive heard (ts : list SwarmStep) (i time : nat) : nat → nat → Prop :=
| hd_self time' : time ≤ time' → time' ≤ length ts → heard ts i time i time'
| hd_session time' time'' (x : Done) : heard ts i time (dn_from x) time' →
    x ∈ sw_done (swarm_run doc ts s0) → dn_filter x = None → time' ≤ dn_since x → dn_end x ≤ time'' →
    time'' ≤ length ts → heard ts i time (dn_to x) time''.

Lemma at_time_learns ts i time time' : run_fine s0 ts → i < size → time ≤ time' →
  learns (at_time ts time i) (at_time ts time' i).
Proof.
  intros Hts Hi Hle. unfold at_time. pose proof (run_fine_take s0 ts time' Hts) as Hts'.
  rewrite <- (take_drop time (take time' ts)), take_take, Nat.min_l in Hts' |- * by done.
  set (rest := drop time (take time' ts)) in *. apply run_fine_app in Hts' as [Hfirst Hrest].
  destruct (run_ok (take time ts) s0 (starts_ok _ Hstart) Hfirst) as [Hs _].
  destruct (run_ok rest _ Hs Hrest) as [_ Hl]. rewrite run_app. by apply Hl.
Qed.
Lemma heard_learns ts i time j time' : run_fine s0 ts → i < size → heard ts i time j time' →
  j < size ∧ learns (at_time ts time i) (at_time ts time' j).
Proof.
  intros Hts Hi Hh. induction Hh as [time' Hle _|time' time'' x _ [Hj IH] Hx Hf Hsince Hend _].
  - split; [done|]. by apply at_time_learns.
  - destruct (hi_done _ (run_history ts Hts) x Hx) as [Hfrom Hto Hse Hend' Hl]. split; [done|].
    transitivity (at_time ts time' (dn_from x)); [exact IH|].
    transitivity (at_time ts (dn_since x) (dn_from x)); [by apply at_time_learns|].
    transitivity (at_time ts (dn_end x) (dn_to x)); [by apply Hl|by apply at_time_learns].
Qed.

(** ** Convergence *)
Lemma same_has_document st st' : node_ok st → node_ok st' → learns st st' → learns st' st →
  same_document (doc_ns doc) (view st) (view st').
Proof.
  intros Hn Hn' Hl Hl'. apply (same_content_document (doc_ns doc) (live_store st) (live_store st')).
  apply (holds_same_content U in_document (regular_lists U (wo_regular Hok)) dom_trans
    (covers_antisym U (wo_regular Hok)) (λ e, U e ∧ has st e)); [by intros e []|by apply node_holds|].
  eapply holds_iff; [|by apply node_holds]. intros e. split; intros [He Hh]; (split; [done|]); [by apply Hl'|by apply Hl].
Qed.

Definition quiet_since (ts : list SwarmStep) (time : nat) : Prop := Forall (λ t, writes t = false) (drop time ts).

Lemma quiet_known ts time i e : run_fine s0 ts → quiet_since ts time → i < size → U e →
  has (at_time ts (length ts) i) e → known (swarm_run doc (take time ts) s0) e.
Proof.
  intros Hts Hq Hi He. rewrite at_time_now. rewrite <- (take_drop time ts) at 1. unfold swarm_run at 1.
  rewrite foldl_app. rewrite <- (take_drop time ts) in Hts. apply run_fine_app in Hts as [Hfirst Hrest].
  destruct (run_ok (take time ts) s0 (starts_ok _ Hstart) Hfirst) as [Hs _].
  intros Hh. by eapply (unwritten_run (drop time ts) _ Hs Hrest Hq i e).
Qed.
Lemma heard_all ts time : run_fine s0 ts → quiet_since ts time →
  (∀ i j, i < size → j < size → heard ts i time j (length ts)) → ∀ i j, i < size → j < size →
  learns (at_time ts (length ts) i) (at_time ts (length ts) j).
Proof.
  intros Hts Hq Hheard i j Hi Hj e He Hh.
  destruct (quiet_known ts time i e Hts Hq Hi He Hh) as (k & x & Hk & Hx & Hhx & Hd).
  apply (has_dom _ x e); [rewrite at_time_now; by apply (run_ok ts _ (starts_ok _ Hstart) Hts)|done|done| |done].
  destruct (heard_learns ts k time j (length ts) Hts Hk (Hheard k j Hk Hj)) as [_ Hl]. by apply Hl.
Qed.
End history.

Lemma network_converges s0 ts time : starts s0 → run_fine s0 ts → quiet_since ts time →
  (∀ i j, i < size → j < size → heard s0 ts i time j (length ts)) →
  let s := swarm_run doc ts s0 in
  ∀ i j, i < size → j < size →
    same_document (doc_ns doc) (view (nd_store (sw_node s i))) (view (nd_store (sw_node s j)))
    ∧ learns (at_time s0 ts time i) (nd_store (sw_node s j)).
Proof.
  intros Hst Hts Hq Hheard s i j Hi Hj. destruct (run_ok ts s0 (starts_ok s0 Hst) Hts) as [[Hn _ _] _].
  pose proof (heard_all s0 Hst ts time Hts Hq Hheard) as Hall. setoid_rewrite at_time_now in Hall. split.
  - apply same_has_document; [by apply Hn|by apply Hn|by apply Hall|by apply Hall].
  - unfold s. rewrite <- at_time_now. apply (heard_learns s0 Hst ts i time j _ Hts Hi). by apply Hheard.
Qed.
End nodes.

Section theorems.
Context `{RedbOk, Crypto, Postcard DownloadPolicy}.
Context (doc : Document) (size : nat).

(** C3: sessions end whatever else happens.  In any run of a network of
    replicas of a document - with local insertions and deletions, entries
    from peers outside of sessions, and any other sessions at the same nodes,
    interleaved in any order, whatever is written and whatever the nodes
    refuse - a session that both sides have opened completes once as many of
    its messages have been delivered as both sides show entries, plus four.
    If moreover what is written are entries that are no deletion markers and
    have a key that is not empty and does not end in a byte 255, every node
    admits every one of them from every other node, and equal fingerprints
    of a range of the views of a session tell that neither lacks an entry of
    it, then each side has in the end every entry that the other showed, or
    one that supersedes it. *)
Theorem session_completes s0 ts ts' l q : of_document doc size → begins doc size s0 →
  Forall (step_in_range size) (ts ++ ts') →
  sw_links (swarm_run doc ts s0) !! l = Some (LkRunning q) → Forall (λ t, drops l t = false) ts' →
  length (link_view doc q true) + length (link_view doc q false) + 4 ≤ sr_rounds q + length (List.filter (delivers l) ts') →
  completed (swarm_run doc (ts ++ ts') s0) q
  ∧ ∀ U since, writes_ok doc size U since → starts doc size U s0 → run_fine doc size U since s0 (ts ++ ts') →
      ∀ d e, e ∈ link_view doc q (negb d) → has doc (nd_store (sw_node (swarm_run doc (ts ++ ts') s0) (sr_end q d))) e.
Proof.
  intros Hdoc Hb Hts Hl Hdrop Hn. split.
  - by apply (network_session_ends doc size Hdoc (nd_store (sw_node s0 0)) s0 ts ts' l q).
  - intros U since Hok Hst Hrun.
    by apply (network_session_leaves doc size U since Hok (nd_store (sw_node s0 0)) s0 ts ts' l q).
Qed.

(** C1: a network of replicas converges.  Say in a run of any number of
    replicas of a document - with writes and sync sessions interleaved in any
    order, sessions lost, and filters on some of them - what is written are
    entries that are no deletion markers and have a key that is not empty and
    does not end in a byte 255, every node admits every one of them from
    every other node, and equal fingerprints of a range of the views of a
    session tell that neither lacks an entry of it.  If from some time on
    nothing is written, and each replica has heard of what each other one had
    at that time, through completed sessions without filters, possibly over
    several others, then all replicas have the same document, and it covers
    all that any of them had. *)
Theorem swarm_converges U since s0 ts time : writes_ok doc size U since → starts doc size U s0 →
  run_fine doc size U since s0 ts → quiet_since ts time →
  (∀ i j, i < size → j < size → heard doc s0 ts i time j (length ts)) →
  let s := swarm_run doc ts s0 in
  ∀ i j, i < size → j < size →
    same_document (doc_ns doc) (view (nd_store (sw_node s i))) (view (nd_store (sw_node s j)))
    ∧ learns doc U (at_time doc s0 ts time i) (nd_store (sw_node s j)).
Proof. intros Hok. apply (network_converges doc size U since Hok (nd_store (sw_node s0 0))). Qed.
End theorems.

(** ** Two nodes that write, sync and lose a session *)
Definition demo_doc : Document := {|
  doc_ns := demo_ns; doc_peer := λ i, demo_peer (if i =? 0 then x03 else x04);
  doc_capability := λ _, CapWrite demo_secret; doc_validator := λ _, None |}.
Definition demo_written (e : SignedEntry) : Prop := ∃ d, e = demo_entry d.
Definition demo_node : Node := {|
  nd_store := {| st_db := db_create empty_tables; st_transaction := CtNone; st_open_replicas := ∅;
                 st_pubkeys := ∅; st_clock := 0 |};
  nd_info := ReplicaInfo_new (CapWrite demo_secret); nd_world := demo_world |}.
Definition demo_swarm : Swarm := {|
  sw_node := λ _, demo_node; sw_links := ∅; sw_next := 0; sw_time := 0; sw_done := [] |}.
Definition demo_write i (d : bool) : SwarmStep :=
  SsWrite i (if d then 5 else 9) 10 [if d then x41 else x42] demo_author_key (arr_rep 32 (if d then x09 else x0a)) 3.
Definition demo_begin : list SwarmStep :=
  [demo_write 0 true; SsDial 1 0 None; SsDrop 0; demo_write 1 false; SsDial 0 1 None; SsAccept 1 None].

Lemma demo_nothing (k : RecordIdentifier) : rs_live (live_store demo_doc (nd_store demo_node)) k = None.
Proof.
  change (option_map (into_entry (ri_byte_tuple k)) (tbl_get (tbl_empty : tbl RecordsId RecordsValue) (ri_byte_tuple k))
    = None).
  rewrite tbl_get_empty by apply _. reflexivity.
Qed.
Lemma demo_swarm_starts : starts demo_doc 2 demo_written demo_swarm.
Proof.
  split; [|done..]. intros i _. change (node_ok demo_doc demo_written (nd_store demo_node)). split.
  - split; [exact I|]. split; [|exact cache_wf_empty]. intros n a k v Hg.
    change (tbl_get (tbl_empty : tbl RecordsId RecordsValue) (n, a, k) = Some v) in Hg.
    rewrite tbl_get_empty in Hg by apply _. done.
  - intros q c Hq. by rewrite demo_nothing in Hq.
  - intros k x _ Hx. by rewrite demo_nothing in Hx.
Qed.

Lemma demo_swarm_begins : begins demo_doc 2 demo_swarm.
Proof. split; [|done..]. intros i Hi. apply (no_inv _ _ _ (st_nodes _ _ _ _ demo_swarm_starts i Hi)). Qed.
Lemma demo_writes_ok : writes_ok demo_doc 2 demo_written 0.
Proof.
  split; [done|..].
  - intros e [d ->]. by destruct d.
  - intros e [d ->]. destruct d; (split; [discriminate|]); split; (reflexivity || discriminate).
  - intros e i j now [d ->] _ _ _. split; [by destruct d|]. split; [apply from_parts_verifies|].
    split; [|done]. change (se_timestamp (demo_entry d)) with (if d then 5%N else 9%N).
    unfold MAX_TIMESTAMP_FUTURE_SHIFT. destruct d; lia.
Qed.
(** Two sides of which each shows one of the entries. *)
Lemma demo_tells q : (∀ d, link_view demo_doc q d = [demo_entry d]) → link_tells demo_doc q.
Proof.
  intros Hq d r. unfold loc. rewrite !Hq. simpl.
  destruct (in_range r (demo_entry d)); [|by intros _ e ?%elem_of_nil].
  intros Heq. exfalso. revert Heq.
  destruct (in_range r (demo_entry (negb d))), d; vm_compute; discriminate.
Qed.

(** All that is on the way arrives, while one more record is written. *)
Definition demo_more : list SwarmStep :=
  [SsDeliver 1 0; demo_write 1 true; SsDeliver 1 0; SsDeliver 1 0; SsDeliver 1 0; SsDeliver 1 0; SsDeliver 1 0].
Definition demo_rest : list SwarmStep := [SsDeliver 1 0; SsDeliver 1 0; SsDeliver 1 0].
(** The sessions of a run whose messages arrive show one entry each. *)
Fixpoint demo_views (s : Swarm) (ts : list SwarmStep) : Prop :=
  match ts with
  | [] => True
  | t :: ts =>
      match t with
      | SsDeliver l _ =>
          match sw_links s !! l with
          | Some (LkRunning q) =>
              link_view demo_doc q true = [demo_entry true] ∧ link_view demo_doc q false = [demo_entry false]
          | _ => True
          end
      | _ => True
      end ∧ demo_views (swarm_step demo_doc t s) ts
  end.
Definition demo_allowed (t : SwarmStep) : Prop :=
  step_in_range 2 t ∧ match t with SsWrite _ _ _ _ _ _ _ => ∃ i d, t = demo_write i d | SsDelete _ _ _ _ _ | SsRemote _ _ _ _ _ => False | _ => True end.
Lemma demo_fine ts s : Forall demo_allowed ts → demo_views s ts → run_fine demo_doc 2 demo_written 0 s ts.
Proof.
  intros Hts. induction Hts as [|t ts [Hr Ht] _ IH] in s |- *; [done|]. intros [Hv Hvs]. split; [|by apply IH].
  split; [done|]. destruct t as [i created now key author hash len| | | | |l now|]; try done.
  - destruct Ht as (i' & d & Ht). injection Ht as -> -> -> -> -> -> ->. intros secret [= <-]. exists d. by destruct d.
  - split; [simpl; lia|]. intros q Hq. rewrite Hq in Hv. apply demo_tells. intros []; apply Hv.
Qed.
Lemma demo_allowed_write i d : i < 2 → demo_allowed (demo_write i d).
Proof. intros Hi. split; [done|]. by exists i, d. Qed.
Ltac demo_steps :=
  repeat apply Forall_cons_2; try apply Forall_nil_2;
    first [apply demo_allowed_write; lia|split; [simpl; lia|done]|by split].
Lemma demo_more_fine : run_fine demo_doc 2 demo_written 0 demo_swarm (demo_begin ++ demo_more).
Proof. apply demo_fine; [demo_steps|]. vm_compute. by repeat split. Qed.
Lemma demo_rest_fine : run_fine demo_doc 2 demo_written 0 demo_swarm (demo_begin ++ demo_rest).
Proof. apply demo_fine; [demo_steps|]. vm_compute. by repeat split. Qed.

Lemma demo_opened :
  match sw_links (swarm_run demo_doc demo_begin demo_swarm) !! 1 with
  | Some (LkRunning q) => (∀ d, link_view demo_doc q d = [demo_entry d]) ∧ sr_rounds q = 0 ∧ sr_end q true = 0
  | _ => False
  end.
Proof. vm_compute. split; [by intros []|done]. Qed.
Definition demo_log : list Done :=
  [{| dn_from := 1; dn_since := 5; dn_filter := None; dn_to := 0; dn_end := 9 |};
   {| dn_from := 0; dn_since := 4; dn_filter := None; dn_to := 1; dn_end := 9 |}].
Lemma demo_ended : sw_done (swarm_run demo_doc (demo_begin ++ demo_rest) demo_swarm) = demo_log.
Proof. vm_compute. reflexivity. Qed.
Lemma demo_heard i j : i < 2 → j < 2 → heard demo_doc demo_swarm (demo_begin ++ demo_rest) i 4 j 9.
Proof.
  intros Hi Hj. destruct (decide (i = j)) as [->|Hne]; [apply hd_self; vm_compute; lia|].
  assert (∃ x : Done, x ∈ demo_log ∧ i = dn_from x ∧ j = dn_to x ∧ dn_filter x = None ∧ 4 ≤ dn_since x ∧ dn_end x ≤ 9)
    as (x & Hx & -> & -> & Hf & Hs & He).
  { destruct i as [|[|i]], j as [|[|j]]; try lia; eexists;
      first [split; [left|split_and!; (reflexivity || simpl; lia)]
            |split; [right; left|split_and!; (reflexivity || simpl; lia)]]. }
  apply (hd_session demo_doc demo_swarm _ _ 4 4 9 x);
    [apply hd_self; [lia|apply leb_complete; reflexivity]|by rewrite demo_ended|done|done|done|vm_compute; lia].
Qed.

Lemma session_completes_witness : ∃ q, sw_links (swarm_run demo_doc demo_begin demo_swarm) !! 1 = Some (LkRunning q)
  ∧ completed (swarm_run demo_doc (demo_begin ++ demo_more) demo_swarm) q
  ∧ has demo_doc (nd_store (sw_node (swarm_run demo_doc (demo_begin ++ demo_more) demo_swarm) 0)) (demo_entry false).
Proof.
  pose proof demo_opened as Ho.
  destruct (sw_links (swarm_run demo_doc demo_begin demo_swarm) !! 1) as [[q|q]|] eqn:Hl; [done| |done].
  destruct Ho as (Hview & Hr & He).
  destruct (session_completes demo_doc 2 demo_swarm demo_begin demo_more 1 q (wo_capability _ _ _ _ demo_writes_ok)
    demo_swarm_begins) as [Hc Hh].
  - exact (run_fine_range _ _ _ _ _ _ demo_more_fine).
  - exact Hl.
  - repeat apply Forall_cons_2; try apply Forall_nil_2; reflexivity.
  - rewrite !Hview, Hr. simpl. lia.
  - exists q. split; [reflexivity|]. split; [exact Hc|]. rewrite <- He.
    apply (Hh demo_written 0%N demo_writes_ok demo_swarm_starts demo_more_fine). rewrite Hview. left.
Defined.
Lemma swarm_converges_witness :
  let s := swarm_run demo_doc (demo_begin ++ demo_rest) demo_swarm in
  same_document demo_ns (view (nd_store (sw_node s 0))) (view (nd_store (sw_node s 1))).
Proof.
  apply (swarm_converges demo_doc 2 demo_written 0 demo_swarm (demo_begin ++ demo_rest) 4 demo_writes_ok
    demo_swarm_starts demo_rest_fine).
  - repeat apply Forall_cons_2; try apply Forall_nil_2; reflexivity.
  - apply demo_heard.
  - lia.
  - lia.
Defined.
